(* ===== verification/_CoqProject ===== *)
-Q . S2P
Prelude.v
Paths.v
Bytes.v
Utf8.v
Fs.v
Ignore.v
Decimal.v
Entries.v
Scan.v
ScanInv.v
Tree.v
TreeSpec.v
TreeUpdate.v
TreeHash.v
Samples.v
TreeProps.v
State.v
StateLocal.v
StateIndex.v
StateTrack.v
StateOps.v
StateInv.v
StateGc.v
StateReach.v
StateSafety.v
StateRescan.v
StateTyped.v
StateProps.v
StateWitness.v
Identity.v
Ticket.v
Group.v
GroupProps.v
GroupWitness.v
Endpoints.v
Addresses.v
Transport.v
TransportProps.v
TransportWitness.v
Download.v
DownloadInv.v
DownloadFiles.v
DownloadProps.v
DownloadWitness.v
StateMerge.v
Messages.v
Rpc.v
RpcProps.v
Serve.v
RpcTransport.v
RpcWitness.v
InviteRace.v
Sync.v
SyncWalk.v
Subtree.v
SyncLemmas.v
SyncConverge.v
SyncVouch.v
SyncProps.v
SyncJoin.v
Gossip.v
SyncTyped.v
SyncWitness.v
AgreeWitness.v
Daemon.v
DaemonHints.v
DaemonProps.v
DaemonWitness.v
Commands.v
JoinProps.v
JoinWitness.v
Process.v
Cli.v
Ui.v
Startup.v
Watcher.v
Logging.v
Main.v
HostWitness.v
UnitTests.v
