(* ===== verification/Prelude.v ===== *)
(** * A verification development of lilsync

    lilsync keeps a folder equal on several machines.  Every node runs one
    daemon per folder; there is no server.  A node keeps an index of its folder
    (path, kind, content hash, size, mode, and the version - Lamport clock and
    origin - of the change that produced it; deletions stay as tombstones),
    summarises it as a Merkle tree, and announces the root of that tree to the
    active members of its group over authenticated, encrypted connections.  A
    node that hears a root it does not have walks the sender's tree, downloads
    what is newer, installs it on its disk, and announces its own new root.
    Tombstones are dropped once every active member has announced the same root.

    ** How the files correspond to the source

    Below everything:
    - [Prelude] (this file): results of fallible code, the state-and-error monad
      [M], [u64] arithmetic with its wrap-around, [BTreeMap]s as [gmap]s with
      their iteration order; [Paths], [Bytes], [Utf8]: the operations of [str],
      [std::path], [u64::to_be_bytes], [str::from_utf8] the source uses, and
      [Decimal], [str::parse] for integers;
      [Fs]: [std::fs] as a class [FsOps] over the type of file-system states,
      with the in-memory instance [MemFs] and the recording one [Traced].

    The data and the tree:
    - [Entries] is [entries.rs]; [Ignore] is [ignore.rs]; [Scan] is [scan.rs]
      with [ScanInv] (what a scan reports);
    - [Tree] is [tree.rs]; [TreeSpec] says declaratively what a snapshot is,
      [TreeUpdate] proves the incremental update equal to a full derivation,
      [TreeHash] proves the hash encodings injective; the theorems are in
      [TreeProps].

    The folder state:
    - [State] is the part of [state.rs] before its tests: [FolderState] with one
      definition for each operation, over [World F] (the state and the disk);
    - [StateLocal], [StateTrack], [StateOps] relate the operations to sequences
      of local changes; [StateInv] and [StateReach] are the invariant and
      reachability; [StateGc] the watermark; [StateSafety] what a peer can make
      a node do to its disk; [StateRescan] rescans; [StateMerge] the merge of
      remote entries; the theorems are in [StateProps].

    The group and the network:
    - [Identity] is [identity.rs], [Ticket] the ticket codec of [cli.rs],
      [Group] is [group.rs], with theorems in [GroupProps];
    - [Endpoints] and [Addresses] are [endpoints.rs];
    - [Transport] is [transport.rs]; [TransportProps] its theorems;
    - [Messages] is [message.rs] and [protocol.rs]; [Rpc] is [rpc.rs], with
      theorems in [RpcProps]; [Serve] is the accept loop of [spawn_server] with
      the tasks it spawns as a transition system; [InviteRace] cuts [Join] where
      two tasks can meet; [RpcTransport] shows that the connections of
      [Transport] satisfy the interface [RpcConn] the client is verified
      against.

    Reconciliation and the daemon:
    - [Sync] is the walk of [sync.rs]; [SyncWalk] is a proof rule for it: a
      property that every step keeps is kept by a reconciliation; [SyncLemmas],
      [Subtree] and [SyncConverge] prove its convergence, [SyncJoin] its
      specification as a join of indexes, [Gossip] what a group of nodes ends
      with, [SyncVouch] what an arbitrary peer can make it write; [Download] is
      the download
      coordinator of [sync.rs] as a transition system of interleaved tasks, with
      [DownloadInv], [DownloadFiles] and [DownloadProps];
    - [Daemon] is the main loop and the handlers of [daemon.rs]; [DaemonHints]
      and [DaemonProps] hold its theorems.

    The program around the daemon:
    - [Commands] is the one-shot commands of [commands.rs] ([create_invite],
      [join_group], [peers_cmd], [remove_peer_cmd], [dump_state_cmd]) and
      [Process] its process control: [daemonize] over a class [Forks] of system
      calls, the daemon lock, the PID file, [status_cmd] and [stop_cmd] over a
      class [Kernel] for [flock] and [kill]; [JoinProps] follows a ticket from
      the inviter to the joiner;
    - [Cli] is the command type of [cli.rs], [Startup] the set-up in [run_sync]
      of [daemon.rs], [Main] is [main.rs], which composes all of these and
      follows the PID file from [start] to [stop];
    - [Watcher] is [watcher.rs] (what reaches the main loop as file events),
      [Logging] the rolling log file of [logging.rs] over a class [LogFs] of
      file handles, [Ui] the status view and the log lines of [ui.rs];
    - [StateTyped] and [SyncTyped] are the type discipline of the index, carried
      through local operations and through a reconciliation.
    [UnitTests] runs the unit tests of the repository on the model.  The files
    named [...Witness] apply the theorems at concrete inputs; the
    stand-ins they use for hashing, JSON, signatures and ciphers are in
    [Samples], [GroupWitness] and [TransportWitness].

    ** What the theorems show

    - A node does to its disk, whatever a peer sends, only what the validated
      destinations below its folder allow ([remote_writes_confined]), and writes
      only entries that the advertised root vouches for
      ([reconcile_writes_vouched]).  The destinations are paths as names: on a
      disk that follows links a peer can reach [.lil] through a link it sent
      before ([symlink_reaches_state_dir]).
    - One remote entry is last-writer-wins ([apply_remote_entry_spec]); a
      reconciliation with an honest, quiet peer ends and leaves nothing of the
      peer's to accept ([reconcile_converges]); it refines the join of the two
      indexes, the newer entry at every path ([reconcile_joins]), so that nodes
      that reconcile pairwise, in any order, end with the same index once they
      have heard of the same nodes ([gossip_converges]); equal roots mean equal
      indexes as long as BLAKE3 has no collision ([root_hash_determines_index]);
      the incremental tree is the full derivation ([update_tree_snapshot_exact])
      except for empty directories ([empty_dir_divergence]).
    - Every reachable folder state satisfies the invariant of clocks, keys and
      watermark ([reachable_states_invariant], [new_state_invariant]); rescans
      bring the index in step with the disk ([rescan_exact]); collection is safe
      and complete ([gc_after_convergence], [gc_clears_tombstones],
      [merge_gc_watermark_spec]).
    - Nobody outside the group gets anything but a refusal, unless they pay with
      a pending invite, whatever the tasks of the server are interleaved with
      ([rpc_access_control], [server_keeps_out]); a
      connection is handed out only to the node that signed this handshake
      ([connection_authenticated]); announcements act only for the member that
      sent them ([announcement_authentic]); the ledger is last-writer-wins and
      nodes that exchange it agree ([merge_members_lww],
      [exchanged_members_agree]).
    - Downloads are coordinated and leave no files behind
      ([downloads_coordinated], [downloads_leave_nothing]); a downloaded object
      has the hash asked for ([object_verified]).
    - In every state that local changes, reconciliations and collections lead to
      the index is well typed, and no path in it or served from it names
      anything below an excluded directory such as [.lil] ([index_well_typed]).
    - A ticket printed by one node admits the node that redeems it
      ([invite_joins]); file events are batched without loss
      ([watcher_batches]); the log file stays bounded ([log_bounded]).
    - Some theorems are counterexamples: runs in which the code does not do what
      it means to ([lost_wakeup], [aborted_leader_blocks], [exhausted_clock],
      [deferred_rescan_lost], [stop_misses_daemon], [startup_misses_change],
      [backslash_never_replicated], [symlink_reaches_state_dir],
      [invite_redeemed_twice] and others named in the manifest's findings).
    - The model gives the results that the unit tests of the repository assert
      ([state_tests_pass], [unit_tests_pass]).

    ** Conventions

    [u64]s are [Z]s with [add64] where the released binary wraps; byte strings
    are [string]s; [[u8; 32]] hashes are byte strings, of 32 bytes where it
    matters.  [io::Error]s keep their [ErrorKind] and lose their message, except
    where the message is sent to a peer ([err_text]).  An early return with [?]
    keeps the mutations made before it: that is what [m_bind] does.  BTreeMaps
    are [gmap]s iterated in key order ([btree_items]).  HashMaps are [gmap]s; no
    theorem depends on the order in which they are iterated.

    ** Concurrency

    The daemon's tasks share the state, the ledger and the address book behind
    locks.  Code under one lock is atomic.  In [Sync] and [Daemon] every
    acquisition of a lock and every [await] is numbered, and a function [others]
    of that number may change the shared state there in any way the theorem's
    hypotheses allow (none, for the safety theorems).  [Download] and [Serve]
    are explicit interleavings of steps: in [Download] a step ends at every lock
    and [await], in [Serve] it is a whole request, and [InviteRace] shows what a
    finer interleaving changes.

    ** Fuel and bounds

    Recursion that Rust leaves to the stack or to a loop is fuelled where it is
    not structural, and the fuel is shown or chosen to suffice:
    - directory walks recurse at most [path_max] (4096) deep, since no file
      system lists a directory with a longer path ([ScanInv]);
    - [ancestors] and the string loops recurse on the length of the string;
      UTF-8 decoding, trimming and the base-62 loop on the length of the input
      ([Ticket] proves the base-62 loop never runs out);
    - a blob is received in at most as many rounds as it has bytes
      ([receive_bounded]);
    - [reconcile_loop] takes the number of rounds and returns [None] when it is
      used up; [reconcile_converges] proves that the number of nodes of the
      peer's tree is enough, and that running out is not the outcome;
    - the discovery loop of the RPC client polls 120 times, as the source does;
    - every turn of [watch_loop] takes an item of the channel and every turn of
      [write_all] takes a byte of the line, so their lengths are enough.

    ** Parameters

    Third-party code is a parameter: BLAKE3 (a function; collision freedom on
    the messages at hand is a hypothesis), [ed25519_dalek] ([Ed25519]), [snow]
    (the Noise handshake and transport), [serde_json] and [bincode] (encoders
    and decoders, with round-trip hypotheses), [getrandom] (the outcome is an
    argument), the enumeration of network interfaces, [notify], [clap] and the
    calls of [libc].  Each theorem with a hypothesis about one of them has a
    witness that instantiates it with a concrete function.

    ** Not modelled

    The shutdown signal (the events of [run_sync] are those before it), [fsync]
    (writing and flushing are not distinguished), wall-clock timeouts (a timeout
    is a stream that stalls or an operation that fails), the log lines outside
    [ui.rs], the colours and the layout of terminal output, the scheduling of
    tokio, the derived parsers of [clap], the fallbacks for platforms other than
    Unix, and the tests of third-party code ([message.rs], [rpc.rs]).
    Documentation, deployment files and build files under [src/] hold no
    logic. *)

From stdpp Require Export base tactics option list gmap strings fin_maps sorting.
From Stdlib Require Export ZArith Lia Ascii.

#[global] Set Default Goal Selector "!".
#[global] Open Scope Z_scope.

(** ** Results of fallible code: [io::Result] *)

(** The [io::ErrorKind]s the source creates or tests for; [OtherError] stands
    for [io::Error::other] and for every kind the source never inspects. *)
Inductive ErrorKind : Set :=
  | NotFound
  | InvalidInput
  | InvalidData
  | TimedOut
  | UnexpectedEof
  | Unsupported
  | AlreadyExists
  | OtherError.

#[export] Instance ErrorKind_eq_dec : EqDecision ErrorKind.
Proof. solve_decision. Defined.

Inductive IoResult (A : Type) : Type :=
  | Ok (a : A)
  | Err (e : ErrorKind).
Arguments Ok {A} a.
Arguments Err {A} e.

#[export] Instance IoResult_eq_dec `{EqDecision A} : EqDecision (IoResult A).
Proof. solve_decision. Defined.

#[export] Instance IoResult_ret : MRet IoResult := λ A a, Ok a.
#[export] Instance IoResult_bind : MBind IoResult :=
  λ A B f r, match r with Ok a => f a | Err e => Err e end.
#[export] Instance IoResult_fmap : FMap IoResult :=
  λ A B f r, match r with Ok a => Ok (f a) | Err e => Err e end.

Definition is_ok {A} (r : IoResult A) : bool :=
  match r with Ok _ => true | Err _ => false end.

(** [Option::ok_or_else]. *)
Definition ok_or {A} (e : ErrorKind) (o : option A) : IoResult A :=
  match o with Some a => Ok a | None => Err e end.

Lemma io_bind_Ok {A B} (f : A → IoResult B) r b :
  r ≫= f = Ok b ↔ ∃ a, r = Ok a ∧ f a = Ok b.
Proof. destruct r; simpl; naive_solver. Qed.

(** ** Stateful fallible code

    [fn f(&mut self, ..) -> io::Result<A>]: the state is threaded through, and
    an early return with [?] keeps the mutations made so far. *)
Definition M (S A : Type) : Type := S → S * IoResult A.

Definition m_ret {S A} (a : A) : M S A := λ s, (s, Ok a).
Definition m_bind {S A B} (c : M S A) (f : A → M S B) : M S B :=
  λ s, match c s with
       | (s', Ok a) => f a s'
       | (s', Err e) => (s', Err e)
       end.
Definition m_err {S A} (e : ErrorKind) : M S A := λ s, (s, Err e).
Definition m_lift {S A} (r : IoResult A) : M S A := λ s, (s, r).
Definition m_get {S} : M S S := λ s, (s, Ok s).
Definition m_gets {S A} (f : S → A) : M S A := λ s, (s, Ok (f s)).
Definition m_modify {S} (f : S → S) : M S () := λ s, (f s, Ok ()).
(** Run [c] and hand its result over as a value: [match c { .. }], [let _ = c]. *)
Definition m_try {S A} (c : M S A) : M S (IoResult A) :=
  λ s, let '(s', r) := c s in (s', Ok r).
Definition m_ignore {S A} (c : M S A) : M S () :=
  λ s, let '(s', _) := c s in (s', Ok ()).

(** Run [c] on a part of the state. *)
Definition m_zoom {S T A} (get : S → T) (set : T → S → S) (c : M T A) : M S A :=
  λ s, let '(t, r) := c (get s) in (set t s, r).

Fixpoint m_for {S A} (l : list A) (body : A → M S ()) : M S () :=
  match l with
  | [] => m_ret ()
  | a :: l => m_bind (body a) (λ _, m_for l body)
  end.

(** A loop that threads a value of its own, dropped when the loop fails. *)
Fixpoint m_fold {S A B} (l : list A) (body : A → B → M S B) (b : B) : M S B :=
  match l with
  | [] => m_ret b
  | a :: l => m_bind (body a b) (m_fold l body)
  end.

Declare Scope m_scope.
Delimit Scope m_scope with m.
Notation "x <- c ;; k" := (m_bind c (λ x, k%m))
  (at level 100, c at next level, k at level 200, right associativity) : m_scope.
Notation "c ;; k" := (m_bind c (λ _, k%m))
  (at level 100, k at level 200, right associativity) : m_scope.

Lemma m_bind_Ok {S A B} (c : M S A) (f : A → M S B) s s' a :
  c s = (s', Ok a) → m_bind c f s = f a s'.
Proof. unfold m_bind. by intros ->. Qed.

Lemma m_bind_Err {S A B} (c : M S A) (f : A → M S B) s s' e :
  c s = (s', Err e) → m_bind c f s = (s', Err e).
Proof. unfold m_bind. by intros ->. Qed.

Lemma m_bind_inv {S A B} (c : M S A) (f : A → M S B) s s' b :
  m_bind c f s = (s', Ok b) → ∃ s1 a, c s = (s1, Ok a) ∧ f a s1 = (s', Ok b).
Proof. unfold m_bind. destruct (c s) as [s1 [a|e]]; naive_solver. Qed.

Lemma m_bind_ret_inv {S A B} (c : M S A) (b : B) s s' r :
  m_bind c (λ _, m_ret b) s = (s', r) → r = Ok b ∨ ∃ e, r = Err e.
Proof. unfold m_bind. destruct (c s) as [s1 [a|e]]; intros [= _ <-]; eauto. Qed.

(** ** Machine integers

    The released binary is built without overflow checks: [u64] additions wrap. *)
Definition u64_modulus : Z := 2 ^ 64.
Definition u64_max : Z := u64_modulus - 1.
Definition wrap64 (z : Z) : Z := z mod u64_modulus.
Definition add64 (a b : Z) : Z := wrap64 (a + b).
Definition is_u64 (z : Z) : bool := (0 <=? z) && (z <? u64_modulus).

Lemma u64_modulus_pos : 0 < u64_modulus.
Proof. reflexivity. Qed.

Lemma is_u64_spec z : is_u64 z = true ↔ 0 ≤ z < u64_modulus.
Proof. unfold is_u64. rewrite andb_true_iff, Z.leb_le, Z.ltb_lt. done. Qed.

Lemma add64_small a b : 0 ≤ a + b < u64_modulus → add64 a b = a + b.
Proof. intros. by apply Z.mod_small. Qed.

Lemma add64_range a b : 0 ≤ add64 a b < u64_modulus.
Proof. apply Z.mod_pos_bound, u64_modulus_pos. Qed.

(** ** Lists *)

(** [Vec::dedup] with the equality [same]: of equal neighbours the first is
    kept. *)
Fixpoint dedup_by {A} (same : A → A → bool) (l : list A) : list A :=
  match l with
  | [] => []
  | a :: l => a :: match dedup_by same l with
                   | b :: r => if same a b then r else b :: r
                   | [] => []
                   end
  end.

Lemma dedup_by_nil {A} (same : A → A → bool) l : dedup_by same l = [] ↔ l = [].
Proof. by destruct l. Qed.

Lemma dedup_by_subseteq {A} (same : A → A → bool) l x : x ∈ dedup_by same l → x ∈ l.
Proof.
  induction l as [|a l IH]; [done|]. cbn [dedup_by]. rewrite !elem_of_cons.
  intros [->|Hx]; [by left|right]. apply IH. destruct (dedup_by same l) as [|b r]; [done|].
  destruct (same a b); [by right|done].
Qed.

(** Every element has a kept one it is the same as. *)
Lemma dedup_by_covers {A} (same : A → A → bool) (eqv : relation A) `{!Equivalence eqv} l x :
  (∀ a b, same a b = true ↔ eqv a b) → x ∈ l → ∃ y, y ∈ dedup_by same l ∧ eqv y x.
Proof.
  intros Hsame. revert x. induction l as [|a l IH]; intros x; [by intros ?%elem_of_nil|].
  cbn [dedup_by]. rewrite elem_of_cons. intros [->|(y & Hy & Hyx)%IH].
  { exists a. split; [by left|done]. }
  destruct (dedup_by same l) as [|b r]; [by apply elem_of_nil in Hy|].
  destruct (same a b) eqn:E; [|exists y; split; [by right|done]].
  apply elem_of_cons in Hy as [->|Hy]; [|exists y; split; [by right|done]].
  exists a. split; [by left|]. apply Hsame in E. by etrans.
Qed.

Lemma dedup_by_sorted {A} (R : relation A) `{!Transitive R} (same : A → A → bool) l :
  StronglySorted R l → StronglySorted R (dedup_by same l).
Proof.
  induction 1 as [|a l Hl IH Ha]; [constructor|]. cbn [dedup_by].
  assert (Forall (R a) (dedup_by same l)) as Hd.
  { apply Forall_forall. intros x Hx%dedup_by_subseteq. by apply (proj1 (Forall_forall _ _) Ha). }
  destruct (dedup_by same l) as [|b r]; [by repeat constructor|].
  inversion IH; inversion Hd; subst. destruct (same a b); by repeat constructor.
Qed.

(** In a sorted list the neighbours are the only repetitions. *)
Lemma dedup_by_strict {A} (R eqv : relation A) `{!Transitive R} (same : A → A → bool) l :
  (∀ a b, same a b = true ↔ eqv a b) → (∀ a b c, R a b → R b c → eqv a c → eqv a b) →
  (∀ a b, eqv a b → eqv b a) → (∀ a b c, eqv a b → eqv b c → eqv a c) →
  StronglySorted R l → StronglySorted (λ a b, R a b ∧ ¬ eqv a b) (dedup_by same l).
Proof.
  intros Hsame Hconvex Hsym Htrans.
  assert (∀ a b, R a b → ¬ eqv a b → ∀ r, Forall (R b) r → Forall (λ c, R a c ∧ ¬ eqv a c) r) as Hjump.
  { intros a b Hab Hne r Hr. apply (Forall_impl _ _ _ Hr). intros c Hbc.
    split; [by etrans|]. intros Hac. apply Hne. by apply (Hconvex a b c). }
  induction 1 as [|a l Hl IH Ha]; [constructor|]. cbn [dedup_by].
  assert (Forall (R a) (dedup_by same l)) as Hd.
  { apply Forall_forall. intros x Hx%dedup_by_subseteq. by apply (proj1 (Forall_forall _ _) Ha). }
  destruct (dedup_by same l) as [|b r]; [by repeat constructor|].
  inversion IH as [|? ? Hr Hb]; inversion Hd as [|? ? Hab Har]; subst.
  destruct (same a b) eqn:E.
  - constructor; [done|]. apply Hsame in E. apply Forall_forall. intros c Hc.
    split; [by apply (proj1 (Forall_forall _ _) Har)|]. intros Hac.
    apply (proj2 (proj1 (Forall_forall _ _) Hb c Hc)). apply (Htrans b a c); [by apply Hsym|done].
  - constructor; [by constructor|]. assert (¬ eqv a b) as Hne by (intros Hx; apply Hsame in Hx; congruence).
    constructor; [done|]. apply (Hjump a b); [done|done|].
    apply (Forall_impl _ _ _ Hb). by intros c [? _].
Qed.

(** ** Ordered containers

    [BTreeMap<String, V>] and [BTreeSet<String>] are [gmap string V] and
    [gset string]; their iteration order is the byte order of the keys. *)
Definition sort_keys (l : list string) : list string := merge_sort String.le l.

Definition bset_elems (s : gset string) : list string := sort_keys (elements s).
Definition btree_keys {V} (m : gmap string V) : list string :=
  sort_keys (map_to_list m).*1.
Definition btree_items {V} (m : gmap string V) : list (string * V) :=
  omap (λ k, (k,.) <$> m !! k) (btree_keys m).
Definition btree_values {V} (m : gmap string V) : list V := (btree_items m).*2.

(** [str <] on keys. *)
Definition str_lt (a b : string) : Prop := String.le a b ∧ a ≠ b.

Lemma str_lt_irrefl a : ¬ str_lt a a.
Proof. by intros [_ ?]. Qed.

Lemma str_lt_trans a b c : str_lt a b → str_lt b c → str_lt a c.
Proof.
  intros [Hab Hne] [Hbc Hne']. split; [by etrans|].
  intros ->. by apply Hne', (anti_symm String.le).
Qed.

Lemma str_le_lt_or_eq a b : String.le a b → a = b ∨ str_lt a b.
Proof. destruct (decide (a = b)); [by left|right; by split]. Qed.

Lemma sort_keys_Permutation l : sort_keys l ≡ₚ l.
Proof. apply merge_sort_Permutation. Qed.

Lemma sort_keys_sorted l : StronglySorted String.le (sort_keys l).
Proof. apply (StronglySorted_merge_sort String.le). Qed.

Lemma elem_of_sort_keys k l : k ∈ sort_keys l ↔ k ∈ l.
Proof. by rewrite sort_keys_Permutation. Qed.

Lemma NoDup_sort_keys l : NoDup (sort_keys l) ↔ NoDup l.
Proof. by rewrite sort_keys_Permutation. Qed.

(** A sorted list without duplicates is determined by its elements. *)
Lemma sorted_keys_ext l1 l2 :
  StronglySorted String.le l1 → StronglySorted String.le l2 →
  NoDup l1 → NoDup l2 → (∀ k, k ∈ l1 ↔ k ∈ l2) → l1 = l2.
Proof.
  intros H1 H2 N1 N2 Hel. apply (StronglySorted_unique String.le); [done..|].
  by apply NoDup_Permutation.
Qed.

Lemma elem_of_bset_elems k s : k ∈ bset_elems s ↔ k ∈ s.
Proof. unfold bset_elems. rewrite elem_of_sort_keys. apply elem_of_elements. Qed.

Lemma NoDup_bset_elems s : NoDup (bset_elems s).
Proof. apply NoDup_sort_keys, NoDup_elements. Qed.

Lemma bset_elems_sorted s : StronglySorted String.le (bset_elems s).
Proof. apply sort_keys_sorted. Qed.

Section BTreeMap.
Context {V : Type}.
Implicit Types m : gmap string V.

Lemma elem_of_btree_keys k m : k ∈ btree_keys m ↔ k ∈ dom m.
Proof.
  unfold btree_keys. rewrite elem_of_sort_keys, list_elem_of_fmap, elem_of_dom.
  split.
  - intros ([k' v] & -> & Hin). apply elem_of_map_to_list in Hin. by eexists.
  - intros [v Hv]. exists (k, v). split; [done|]. by apply elem_of_map_to_list.
Qed.

Lemma NoDup_btree_keys m : NoDup (btree_keys m).
Proof. apply NoDup_sort_keys, NoDup_fst_map_to_list. Qed.

Lemma btree_keys_sorted m : StronglySorted String.le (btree_keys m).
Proof. apply sort_keys_sorted. Qed.

Lemma btree_keys_bset m : btree_keys m = bset_elems (dom m).
Proof.
  apply sorted_keys_ext; auto using btree_keys_sorted, bset_elems_sorted,
    NoDup_btree_keys, NoDup_bset_elems.
  intros k. by rewrite elem_of_btree_keys, elem_of_bset_elems.
Qed.

Lemma elem_of_btree_items k v m : (k, v) ∈ btree_items m ↔ m !! k = Some v.
Proof.
  unfold btree_items. rewrite list_elem_of_omap. split.
  - intros (k' & _ & Heq). destruct (m !! k') eqn:E; naive_solver.
  - intros Hk. exists k. rewrite Hk. split; [|done].
    apply elem_of_btree_keys, elem_of_dom. by eexists.
Qed.

Lemma elem_of_btree_values v m : v ∈ btree_values m ↔ ∃ k, m !! k = Some v.
Proof.
  unfold btree_values. rewrite list_elem_of_fmap. split.
  - intros ([k v'] & -> & Hin). exists k. by apply elem_of_btree_items.
  - intros [k Hk]. exists (k, v). split; [done|]. by apply elem_of_btree_items.
Qed.

Lemma fst_btree_items m : (btree_items m).*1 = btree_keys m.
Proof.
  unfold btree_items.
  assert (∀ k, k ∈ btree_keys m → is_Some (m !! k)) as Hall.
  { intros k. rewrite elem_of_btree_keys. apply elem_of_dom. }
  induction (btree_keys m) as [|k l IH]; [done|]. simpl.
  destruct (Hall k ltac:(left)) as [v ->]. simpl. f_equal.
  apply IH. intros k' Hk'. apply Hall. by right.
Qed.

Lemma btree_items_inj m1 m2 : btree_items m1 = btree_items m2 → m1 = m2.
Proof.
  intros Heq. apply map_eq. intros k. apply option_eq. intros v.
  by rewrite <-!elem_of_btree_items, Heq.
Qed.

Lemma NoDup_btree_items m : NoDup (btree_items m).
Proof. apply (NoDup_fmap_1 fst). rewrite fst_btree_items. apply NoDup_btree_keys. Qed.

Definition item_le (x y : string * V) : Prop := String.le x.1 y.1.

Lemma btree_items_sorted m : StronglySorted item_le (btree_items m).
Proof.
  pose proof (btree_keys_sorted m) as Hs. rewrite <-fst_btree_items in Hs.
  induction (btree_items m) as [|x l IH]; [constructor|].
  simpl in Hs. apply StronglySorted_cons in Hs as [Hx Hs].
  constructor; [auto|]. by rewrite Forall_fmap in Hx.
Qed.

Lemma StronglySorted_filter_list {A} (R : relation A) (P : A → Prop)
    `{∀ x, Decision (P x)} l :
  StronglySorted R l → StronglySorted R (filter P l).
Proof.
  induction 1 as [|x l _ IH Hx]; [constructor|]. rewrite filter_cons.
  case_decide; [|done]. constructor; [done|].
  rewrite Forall_forall in Hx |- *. intros y [_ Hy]%list_elem_of_filter. auto.
Qed.

(** Filtering a map's items is listing the filtered map. *)
Lemma filter_btree_items (P : string * V → Prop) `{∀ x, Decision (P x)} m :
  filter P (btree_items m) = btree_items (filter P m).
Proof.
  apply (StronglySorted_unique_strong item_le).
  - intros [k1 v1] [k2 v2] [_ H1]%list_elem_of_filter H2 Hle Hle'.
    assert (k1 = k2) as -> by (by apply (anti_symm String.le)).
    apply elem_of_btree_items in H1, H2. apply map_lookup_filter_Some in H2 as [H2 _].
    congruence.
  - apply StronglySorted_filter_list, btree_items_sorted.
  - apply btree_items_sorted.
  - apply NoDup_Permutation; [apply NoDup_filter, NoDup_btree_items|
      apply NoDup_btree_items|].
    intros [k v]. rewrite list_elem_of_filter, !elem_of_btree_items,
      map_lookup_filter_Some. naive_solver.
Qed.
End BTreeMap.
