(* ===== verification/Paths.v ===== *)
(** * Strings and paths

    Rust's [String] and [&str] are UTF-8 byte strings compared byte by byte:
    Stdlib's [string] with [String.le].  This file has the [str] and
    [std::path] operations the source uses, the path helpers of
    [src/src/tree.rs] ([ancestors], [parent_path], [basename], ...), and the
    order-theoretic facts the tree walks rely on: a child path is greater and
    longer than its parent. *)

From S2P Require Import Prelude.

Abbreviation slash := "/"%char.
Abbreviation strlen := String.length.

(** ** [str] operations *)

(** [str::split(c)]: never empty; ["" -> [""]]. *)
Fixpoint split_on (c : ascii) (s : string) : list string :=
  match s with
  | EmptyString => [""]
  | String a r =>
      if decide (a = c) then "" :: split_on c r
      else match split_on c r with
           | [] => [String a ""]
           | h :: t => String a h :: t
           end
  end.

(** [[String]::join(sep)]. *)
Definition join (sep : string) (l : list string) : string := String.concat sep l.

(** [str::rsplit_once(c)]: split at the last occurrence of [c]. *)
Fixpoint rsplit_once (c : ascii) (s : string) : option (string * string) :=
  match s with
  | EmptyString => None
  | String a r =>
      match rsplit_once c r with
      | Some (p, q) => Some (String a p, q)
      | None => if decide (a = c) then Some ("", r) else None
      end
  end.

(** [str::contains(char)]. *)
Fixpoint contains (c : ascii) (s : string) : bool :=
  match s with
  | EmptyString => false
  | String a r => bool_decide (a = c) || contains c r
  end.

Definition starts_with (p s : string) : bool := String.prefix p s.

(** [str::strip_prefix]. *)
Fixpoint strip_prefix (p s : string) : option string :=
  match p, s with
  | EmptyString, _ => Some s
  | String a p, String b s => if decide (a = b) then strip_prefix p s else None
  | String _ _, EmptyString => None
  end.

Fixpoint ends_with (c : ascii) (s : string) : bool :=
  match s with
  | EmptyString => false
  | String a EmptyString => bool_decide (a = c)
  | String _ r => ends_with c r
  end.

Fixpoint trim_start_matches (c : ascii) (s : string) : string :=
  match s with
  | EmptyString => ""
  | String a r => if decide (a = c) then trim_start_matches c r else s
  end.

Fixpoint trim_end_matches (c : ascii) (s : string) : string :=
  match s with
  | EmptyString => ""
  | String a r =>
      match trim_end_matches c r with
      | EmptyString => if decide (a = c) then "" else String a ""
      | r' => String a r'
      end
  end.

(** [str::trim_matches(c)]. *)
Definition trim_matches (c : ascii) (s : string) : string :=
  trim_end_matches c (trim_start_matches c s).

(** ** [std::path::Path::components] on Unix *)
Inductive Component : Set :=
  | RootDir
  | CurDir
  | ParentDir
  | Normal (name : string).

#[export] Instance Component_eq_dec : EqDecision Component.
Proof. solve_decision. Defined.

(** A separator-delimited part: empty parts and inner ["."] are skipped. *)
Definition part_component (s : string) : option Component :=
  if decide (s = "") then None
  else if decide (s = ".") then None
  else if decide (s = "..") then Some ParentDir
  else Some (Normal s).

Definition is_absolute (p : string) : bool := starts_with "/" p.

Definition path_components (p : string) : list Component :=
  let parts := split_on slash p in
  if is_absolute p then RootDir :: omap part_component parts
  else match parts with
       | "." :: rest => CurDir :: omap part_component rest
       | _ => omap part_component parts
       end.

Definition is_normal (c : Component) : bool :=
  match c with Normal _ => true | _ => false end.

(** [Path::join] of a relative path below a directory. *)
Definition path_join (base rel : string) : string :=
  if is_absolute rel then rel
  else if decide (base = "") then rel
  else if ends_with slash base then base +:+ rel
  else base +:+ "/" +:+ rel.

(** ** Path helpers of [tree.rs] *)

Definition parent_path (path : string) : string :=
  match rsplit_once slash path with Some (parent, _) => parent | None => "" end.

Definition basename (path : string) : string :=
  match rsplit_once slash path with Some (_, name) => name | None => path end.

Definition display_prefix (path : string) : string :=
  if decide (path = "") then "/" else "/" +:+ path +:+ "/".

Definition normalize_prefix (prefix : string) : string := trim_matches slash prefix.

(** [ancestors]: the loop body runs once per proper prefix; [fuel] bounds the
    iterations and [ancestors_unfold] shows that the length of the path is
    always enough. *)
Fixpoint ancestors_loop (fuel : nat) (current : string) : list string :=
  current :: match fuel with
             | O => []
             | S fuel => if decide (current = "") then []
                         else ancestors_loop fuel (parent_path current)
             end.

Definition ancestors (path : string) : list string :=
  ancestors_loop (strlen path) (parent_path path).

(** [join_path] of [src/src/sync.rs]. *)
Definition join_path (prefix name : string) : string :=
  let prefix := trim_matches slash prefix in
  if decide (prefix = "") then name else prefix +:+ "/" +:+ name.

(** ** Lemmas on strings *)

Lemma append_cons a s t : String a s +:+ t = String a (s +:+ t).
Proof. done. Qed.

Lemma append_nil_l s : "" +:+ s = s.
Proof. done. Qed.

Lemma append_nil_r s : s +:+ "" = s.
Proof. induction s as [|a s IH]; [done|]. by rewrite append_cons, IH. Qed.

Lemma append_assoc s t u : (s +:+ t) +:+ u = s +:+ (t +:+ u).
Proof. induction s as [|a s IH]; [done|]. by rewrite !append_cons, IH. Qed.

Lemma strlen_append s t : strlen (s +:+ t) = (strlen s + strlen t)%nat.
Proof. induction s as [|a s IH]; [done|]. rewrite append_cons. simpl. by rewrite IH. Qed.

Lemma strlen_0 s : strlen s = 0%nat → s = "".
Proof. by destruct s. Qed.

(** Equal-length prefixes of equal strings are equal. *)
Lemma append_inj_len s1 t1 s2 t2 :
  strlen s1 = strlen s2 → s1 +:+ t1 = s2 +:+ t2 → s1 = s2 ∧ t1 = t2.
Proof.
  revert s2. induction s1 as [|a s1 IH]; intros [|b s2] Hl Heq; try discriminate.
  - done.
  - rewrite !append_cons in Heq. injection Heq as -> Heq.
    destruct (IH s2) as [-> ->]; auto.
Qed.

Lemma append_inj_r s1 s2 t : s1 +:+ t = s2 +:+ t → s1 = s2.
Proof.
  intros Heq.
  assert (strlen s1 = strlen s2) as Hl.
  { apply (f_equal strlen) in Heq. rewrite !strlen_append in Heq. lia. }
  by destruct (append_inj_len _ _ _ _ Hl Heq).
Qed.

Lemma contains_append c s t : contains c (s +:+ t) = contains c s || contains c t.
Proof.
  induction s as [|a s IH]; [done|]. rewrite append_cons. simpl.
  by rewrite IH, orb_assoc.
Qed.

(** ** The byte order *)

Lemma ascii_compare_refl a : Ascii.compare a a = Eq.
Proof. apply N.compare_refl. Qed.

Lemma le_cons a s t : String.le (String a s) (String a t) ↔ String.le s t.
Proof. unfold String.le, String.leb. simpl. by rewrite ascii_compare_refl. Qed.

Lemma le_append_r s t : String.le s (s +:+ t).
Proof.
  induction s as [|a s IH].
  - by destruct t.
  - rewrite append_cons. by apply le_cons.
Qed.

Lemma starts_with_spec p s : starts_with p s = true ↔ ∃ r, s = p +:+ r.
Proof.
  unfold starts_with. revert s. induction p as [|a p IH]; intros s.
  - destruct s; simpl; split; eauto.
  - destruct s as [|b s]; simpl.
    { split; [done|]. intros [r Hr]. by rewrite append_cons in Hr. }
    destruct (ascii_dec a b) as [->|Hne].
    + rewrite IH. split; intros [r Hr]; exists r.
      * by rewrite append_cons, Hr.
      * rewrite append_cons in Hr. by injection Hr.
    + split; [done|]. intros [r Hr]. rewrite append_cons in Hr. congruence.
Qed.

(** A child path follows its parent in the byte order. *)
Lemma str_lt_child p n : str_lt p (p +:+ "/" +:+ n).
Proof.
  split; [apply le_append_r|]. intros Heq%(f_equal strlen).
  rewrite !strlen_append in Heq. simpl in Heq. lia.
Qed.

(** ** [rsplit_once], [parent_path] and [basename] *)

Lemma rsplit_once_Some c s p q :
  rsplit_once c s = Some (p, q) ↔ s = p +:+ String c q ∧ contains c q = false.
Proof.
  revert p q. induction s as [|a s IH]; intros p q; simpl.
  { split; [done|]. intros [Heq _]. by destruct p. }
  destruct (rsplit_once c s) as [[p' q']|] eqn:E.
  - destruct (proj1 (IH p' q') eq_refl) as [-> Hq']. split.
    + intros [= <- <-]. done.
    + intros [Heq Hq]. destruct p as [|b p].
      * rewrite append_nil_l in Heq. injection Heq as -> <-.
        rewrite contains_append in Hq. simpl in Hq.
        rewrite bool_decide_true in Hq by done. by rewrite orb_true_r in Hq.
      * rewrite append_cons in Heq. injection Heq as -> Heq.
        assert (Some (p', q') = Some (p, q)) as [= -> ->] by (by apply IH). done.
  - assert (∀ p q, s = p +:+ String c q → contains c q = false → False) as Hno.
    { intros p1 q1 H1 H2. assert (None = Some (p1, q1)) by (by apply IH). done. }
    case_decide as Hac; split.
    + intros [= <- <-]. subst. split; [done|].
      clear IH E. induction s as [|b s IHs]; [done|]. simpl.
      rewrite IHs; [|intros p1 q1 -> ?; by apply (Hno (String b p1) q1)].
      rewrite orb_false_r. apply bool_decide_false. intros ->.
      apply (Hno "" s); [done|].
      apply IHs. intros p1 q1 -> ?. by apply (Hno (String c p1) q1).
    + intros [Heq Hq]. destruct p as [|b p].
      * rewrite append_nil_l in Heq. by injection Heq as _ ->.
      * rewrite append_cons in Heq. injection Heq as _ Heq. by destruct (Hno p q).
    + done.
    + intros [Heq Hq]. destruct p as [|b p].
      * rewrite append_nil_l in Heq. by injection Heq as ? _.
      * rewrite append_cons in Heq. injection Heq as _ Heq. by destruct (Hno p q).
Qed.

Lemma rsplit_once_None c s : rsplit_once c s = None ↔ contains c s = false.
Proof.
  induction s as [|a s IH]; simpl; [done|].
  destruct (rsplit_once c s) as [[p q]|] eqn:E.
  - apply rsplit_once_Some in E as [-> _]. rewrite contains_append. simpl.
    rewrite (bool_decide_true (c = c)) by done. rewrite orb_true_r. simpl.
    rewrite orb_true_r. done.
  - rewrite (proj1 IH eq_refl), orb_false_r. case_decide as Hd.
    + by rewrite bool_decide_true.
    + by rewrite bool_decide_false.
Qed.

(** The two shapes of a path. *)
Lemma path_cases p :
  (parent_path p = "" ∧ basename p = p ∧ contains slash p = false) ∨
  (p = parent_path p +:+ "/" +:+ basename p ∧ contains slash (basename p) = false).
Proof.
  unfold parent_path, basename. destruct (rsplit_once slash p) as [[q n]|] eqn:E.
  - right. by apply rsplit_once_Some in E as [-> ?].
  - left. by apply rsplit_once_None in E.
Qed.

Lemma parent_path_lt p : p ≠ "" → (strlen (parent_path p) < strlen p)%nat.
Proof.
  intros Hp. destruct (path_cases p) as [(-> & _ & _)|[Heq _]].
  - destruct p; [done|simpl; lia].
  - rewrite Heq at 2. rewrite !strlen_append. simpl. lia.
Qed.

Lemma parent_path_str_lt p : p ≠ "" → str_lt (parent_path p) p.
Proof.
  intros Hp. destruct (path_cases p) as [(-> & _ & _)|[Heq _]].
  - split; [|congruence]. by destruct p.
  - rewrite Heq at 2. apply str_lt_child.
Qed.

Lemma parent_path_empty : parent_path "" = "".
Proof. done. Qed.

(** A path without a leading slash is recovered from parent and name. *)
Lemma parent_basename_inj p q :
  is_absolute p = false → is_absolute q = false →
  parent_path p = parent_path q → basename p = basename q → p = q.
Proof.
  intros Hp Hq Hpar Hbase.
  destruct (path_cases p) as [(Pp & Bp & Cp)|[Ep _]],
    (path_cases q) as [(Pq & Bq & Cq)|[Eq _]].
  - congruence.
  - rewrite <-Hpar, Pp in Eq. rewrite Eq in Hq. by destruct (basename q).
  - rewrite Hpar, Pq in Ep. rewrite Ep in Hp. by destruct (basename p).
  - congruence.
Qed.

(** ** [ancestors] *)

Lemma ancestors_loop_fuel n m p :
  (strlen p ≤ n)%nat → (strlen p ≤ m)%nat → ancestors_loop n p = ancestors_loop m p.
Proof.
  revert m p. induction n as [|n IH]; intros m p Hn Hm.
  - assert (p = "") as -> by (apply strlen_0; lia). by destruct m.
  - destruct m as [|m]; simpl.
    + assert (p = "") as -> by (apply strlen_0; lia). done.
    + case_decide as Hp; [done|]. f_equal. apply parent_path_lt in Hp.
      apply IH; lia.
Qed.

Lemma strlen_parent p : (strlen (parent_path p) ≤ strlen p)%nat.
Proof.
  destruct (decide (p = "")) as [->|Hp]; [done|].
  apply parent_path_lt in Hp. lia.
Qed.

(** The loop's own equation, without fuel. *)
Lemma ancestors_unfold p :
  ancestors p = parent_path p ::
    (if decide (parent_path p = "") then [] else ancestors (parent_path p)).
Proof.
  unfold ancestors. destruct (strlen p) as [|n] eqn:Hl.
  - apply strlen_0 in Hl as ->. done.
  - simpl. case_decide as Hp; [done|]. f_equal.
    assert (p ≠ "") as Hp' by (by intros ->).
    apply parent_path_lt in Hp'. pose proof (strlen_parent (parent_path p)).
    apply ancestors_loop_fuel; lia.
Qed.

Lemma elem_of_ancestors_unfold q p :
  q ∈ ancestors p ↔
    q = parent_path p ∨ (parent_path p ≠ "" ∧ q ∈ ancestors (parent_path p)).
Proof.
  rewrite ancestors_unfold, elem_of_cons. case_decide; [|naive_solver].
  rewrite elem_of_nil. naive_solver.
Qed.

(** Induction following the loop of [ancestors]. *)
Lemma ancestors_ind (P : string → Prop) :
  (∀ p, (parent_path p ≠ "" → P (parent_path p)) → P p) → ∀ p, P p.
Proof.
  intros Hstep p. remember (strlen p) as n eqn:Hn. revert p Hn.
  induction n as [n IH] using lt_wf_ind. intros p ->. apply Hstep.
  intros Hne. eapply IH; [|done]. apply parent_path_lt. by intros ->.
Qed.

Lemma root_in_ancestors p : "" ∈ ancestors p.
Proof.
  induction p as [p IH] using ancestors_ind. rewrite elem_of_ancestors_unfold.
  destruct (decide (parent_path p = "")) as [->|Hne]; auto.
Qed.

Lemma ancestors_shorter q p : q ∈ ancestors p → p ≠ "" → (strlen q < strlen p)%nat.
Proof.
  induction p as [p IH] using ancestors_ind.
  rewrite elem_of_ancestors_unfold. intros [->|[Hne Hq]] Hp.
  - by apply parent_path_lt.
  - specialize (IH Hne Hq Hne). apply parent_path_lt in Hp. lia.
Qed.

Lemma ancestors_trans r q p :
  r ∈ ancestors q → q ∈ ancestors p → r ∈ ancestors p.
Proof.
  induction p as [p IH] using ancestors_ind. intros Hr.
  rewrite !(elem_of_ancestors_unfold _ p). intros [->|[Hne Hq]].
  - destruct (decide (parent_path p = "")) as [Hpe|Hpe].
    + rewrite Hpe in Hr |- *. cbn in Hr. apply list_elem_of_singleton in Hr. by left.
    + by right.
  - right. split; [done|]. by apply IH.
Qed.

Lemma parent_in_ancestors p : parent_path p ∈ ancestors p.
Proof. rewrite elem_of_ancestors_unfold. by left. Qed.

(** Every ancestor but the parent is an ancestor of a child on the way. *)
Lemma ancestors_child q p :
  q ∈ ancestors p →
  q = parent_path p ∨ ∃ c, c ∈ ancestors p ∧ c ≠ "" ∧ parent_path c = q.
Proof.
  induction p as [p IH] using ancestors_ind.
  rewrite elem_of_ancestors_unfold. intros [->|[Hne Hq]]; [by left|]. right.
  destruct (IH Hne Hq) as [->|(c & Hc & Hce & <-)].
  - exists (parent_path p). auto using parent_in_ancestors.
  - exists c. split; [|done]. by eapply ancestors_trans, parent_in_ancestors.
Qed.

#[export] Hint Resolve root_in_ancestors parent_in_ancestors : core.

(** ** Components *)

Lemma split_on_nonempty c s : split_on c s ≠ [].
Proof.
  destruct s as [|a s]; simpl; [done|].
  case_decide; [done|]. by destruct (split_on c s).
Qed.

Lemma join_cons sep x y l : join sep (x :: y :: l) = x +:+ sep +:+ join sep (y :: l).
Proof. done. Qed.

(** Joining the parts gives the string back. *)
Lemma join_split_on c s : join (String c "") (split_on c s) = s.
Proof.
  induction s as [|a s IH]; [done|]. simpl.
  pose proof (split_on_nonempty c s) as Hne.
  destruct (split_on c s) as [|h t]; [done|]. case_decide as Hac.
  - by rewrite join_cons, IH, Hac.
  - destruct t as [|h' t].
    + cbn in *. by rewrite IH.
    + rewrite join_cons in *. by rewrite append_cons, IH.
Qed.

Lemma split_on_no_sep c s x : x ∈ split_on c s → contains c x = false.
Proof.
  revert x. induction s as [|a s IH]; intros x; simpl.
  - rewrite list_elem_of_singleton. by intros ->.
  - case_decide as Hac.
    + rewrite elem_of_cons. intros [->|?]; [done|auto].
    + destruct (split_on c s) as [|h t].
      * rewrite list_elem_of_singleton. intros ->. simpl. by rewrite bool_decide_false.
      * rewrite elem_of_cons. intros [->|?].
        -- simpl. rewrite bool_decide_false by done. apply IH. by left.
        -- apply IH. by right.
Qed.

Lemma split_on_no_occ c s : contains c s = false → split_on c s = [s].
Proof.
  induction s as [|a s IH]; simpl; [done|]. intros [Ha Hs]%orb_false_iff.
  apply bool_decide_eq_false in Ha. rewrite decide_False by done. by rewrite IH.
Qed.

Lemma split_on_cons c s t :
  contains c s = false → split_on c (s +:+ String c t) = s :: split_on c t.
Proof.
  induction s as [|a s IH].
  - intros _. rewrite append_nil_l. simpl. by rewrite decide_True.
  - intros [Ha Hs]%orb_false_iff. apply bool_decide_eq_false in Ha.
    rewrite append_cons. simpl. rewrite decide_False by done. by rewrite IH.
Qed.

(** Splitting a join of separator-free parts gives the parts back. *)
Lemma split_on_join c l :
  l ≠ [] → (∀ x, x ∈ l → contains c x = false) →
  split_on c (join (String c "") l) = l.
Proof.
  induction l as [|x l IH]; [done|]. intros _ Hl.
  destruct l as [|y l].
  - apply split_on_no_occ, Hl. by left.
  - rewrite join_cons, append_cons, append_nil_l.
    rewrite split_on_cons by (apply Hl; by left). f_equal.
    apply IH; [done|]. intros z Hz. apply Hl. by right.
Qed.
