(* ===== verification/Bytes.v ===== *)
(** * Bytes, big-endian integers and hexadecimal

    Byte strings are Stdlib [string]s.  This file has the integer encodings the
    hashing and framing code uses ([to_be_bytes], [to_le_bytes]), the
    length-prefixed string encoding, the hexadecimal printing of
    [src/src/entries.rs] ([hex]) and the [u8::from_str_radix] of the standard
    library, with their injectivity and round-trip lemmas. *)

From S2P Require Import Prelude Paths.

Definition byte_val (a : ascii) : Z := Z.of_N (N_of_ascii a).
Definition byte_of (z : Z) : ascii := ascii_of_N (Z.to_N (z mod 256)).

Lemma byte_val_range a : 0 ≤ byte_val a < 256.
Proof. unfold byte_val. pose proof (N_ascii_bounded a). lia. Qed.

Lemma byte_val_of z : byte_val (byte_of z) = z mod 256.
Proof.
  unfold byte_val, byte_of. pose proof (Z.mod_pos_bound z 256 eq_refl).
  rewrite N_ascii_embedding by lia. lia.
Qed.

Lemma byte_of_val a : byte_of (byte_val a) = a.
Proof.
  unfold byte_of. rewrite Z.mod_small by apply byte_val_range.
  unfold byte_val. rewrite N2Z.id. apply ascii_N_embedding.
Qed.

(** ** Big- and little-endian encodings *)

(** The [n]-byte big-endian encoding: [to_be_bytes]. *)
Fixpoint be_bytes (n : nat) (z : Z) : string :=
  match n with
  | O => ""
  | S n => String (byte_of (z / 256 ^ Z.of_nat n)) (be_bytes n z)
  end.

(** [from_be_bytes]. *)
Fixpoint be_value_acc (acc : Z) (s : string) : Z :=
  match s with
  | EmptyString => acc
  | String a s => be_value_acc (acc * 256 + byte_val a) s
  end.
Definition be_value (s : string) : Z := be_value_acc 0 s.

Definition be64 (z : Z) : string := be_bytes 8 z.
Definition be32 (z : Z) : string := be_bytes 4 z.

(** [to_le_bytes] and [from_le_bytes]. *)
Fixpoint le_bytes (n : nat) (z : Z) : string :=
  match n with
  | O => ""
  | S n => String (byte_of z) (le_bytes n (z / 256))
  end.
Fixpoint le_value (s : string) : Z :=
  match s with
  | EmptyString => 0
  | String a s => byte_val a + 256 * le_value s
  end.

Lemma strlen_be_bytes n z : strlen (be_bytes n z) = n.
Proof. induction n as [|n IH]; simpl; [done|]. by rewrite IH. Qed.

Lemma strlen_le_bytes n z : strlen (le_bytes n z) = n.
Proof. revert z. induction n as [|n IH]; intros z; simpl; [done|]. by rewrite IH. Qed.

Lemma pow256_succ n : 256 ^ Z.of_nat (S n) = 256 * 256 ^ Z.of_nat n.
Proof. rewrite Nat2Z.inj_succ, Z.pow_succ_r; lia. Qed.

Lemma pow256_pos n : 0 < 256 ^ Z.of_nat n.
Proof. apply Z.pow_pos_nonneg; lia. Qed.

Lemma be_value_acc_bytes n acc z :
  be_value_acc acc (be_bytes n z) = acc * 256 ^ Z.of_nat n + z mod 256 ^ Z.of_nat n.
Proof.
  revert acc. induction n as [|n IH]; intros acc.
  { simpl. rewrite Z.mod_1_r. lia. }
  cbn [be_bytes be_value_acc]. rewrite IH, byte_val_of, pow256_succ.
  pose proof (pow256_pos n). rewrite (Z.mul_comm 256), Z.rem_mul_r by lia. ring.
Qed.

Lemma be_value_bytes n z : be_value (be_bytes n z) = z mod 256 ^ Z.of_nat n.
Proof. unfold be_value. rewrite be_value_acc_bytes. lia. Qed.

Lemma be_value_acc_eq acc s :
  be_value_acc acc s = acc * 256 ^ Z.of_nat (strlen s) + be_value s.
Proof.
  unfold be_value. revert acc. induction s as [|a s IH]; intros acc; cbn [be_value_acc strlen];
    [simpl; lia|].
  rewrite IH, (IH (0 * 256 + byte_val a)), pow256_succ. lia.
Qed.

Lemma be_value_cons a s :
  be_value (String a s) = byte_val a * 256 ^ Z.of_nat (strlen s) + be_value s.
Proof. unfold be_value at 1. cbn [be_value_acc]. by rewrite be_value_acc_eq. Qed.

Lemma be_value_range s : 0 ≤ be_value s < 256 ^ Z.of_nat (strlen s).
Proof.
  induction s as [|a s IH]; [done|]. rewrite be_value_cons. cbn [strlen].
  rewrite pow256_succ. pose proof (byte_val_range a). nia.
Qed.

Lemma be_bytes_inj n z w :
  0 ≤ z < 256 ^ Z.of_nat n → 0 ≤ w < 256 ^ Z.of_nat n →
  be_bytes n z = be_bytes n w → z = w.
Proof.
  intros Hz Hw Heq%(f_equal be_value). rewrite !be_value_bytes in Heq.
  by rewrite !Z.mod_small in Heq.
Qed.

Lemma le_value_bytes n z : le_value (le_bytes n z) = z mod 256 ^ Z.of_nat n.
Proof.
  revert z. induction n as [|n IH]; intros z.
  { simpl. by rewrite Z.mod_1_r. }
  cbn [le_bytes le_value]. rewrite IH, byte_val_of, pow256_succ.
  pose proof (pow256_pos n). by rewrite Z.rem_mul_r by lia.
Qed.

(** A field of fixed width followed by the rest of a message. *)
Lemma be_bytes_append_inj n z w t u :
  0 ≤ z < 256 ^ Z.of_nat n → 0 ≤ w < 256 ^ Z.of_nat n →
  be_bytes n z +:+ t = be_bytes n w +:+ u → z = w ∧ t = u.
Proof.
  intros Hz Hw Heq. apply append_inj_len in Heq as [Heq ->].
  - split; [|done]. by apply be_bytes_inj in Heq.
  - by rewrite !strlen_be_bytes.
Qed.

(** ** Length-prefixed strings: [encode_str] of [src/src/tree.rs] *)
Definition encode_str (value : string) : string :=
  be64 (Z.of_nat (strlen value)) +:+ value.

(** No Rust string is longer than [isize::MAX] bytes. *)
Definition str_fits (s : string) : Prop := Z.of_nat (strlen s) < 2 ^ 63.

Lemma encode_str_append_inj s t x y :
  Z.of_nat (strlen s) < u64_modulus → Z.of_nat (strlen t) < u64_modulus →
  encode_str s +:+ x = encode_str t +:+ y → s = t ∧ x = y.
Proof.
  unfold encode_str. intros Hs Ht Heq. rewrite !append_assoc in Heq.
  apply be_bytes_append_inj in Heq as [Hlen Heq].
  - apply append_inj_len in Heq; [done|lia].
  - split; [lia|apply Hs].
  - split; [lia|apply Ht].
Qed.

Lemma str_fits_u64 s : str_fits s → Z.of_nat (strlen s) < u64_modulus.
Proof. unfold str_fits, u64_modulus. lia. Qed.
#[export] Hint Resolve str_fits_u64 : core.

(** ** Hexadecimal *)

Definition hex_digit (n : Z) : ascii :=
  byte_of (if n <? 10 then 48 + n else 87 + n).

(** [format!("{byte:02x}")]. *)
Definition hex_byte (a : ascii) : string :=
  String (hex_digit (byte_val a / 16)) (String (hex_digit (byte_val a mod 16)) "").

(** [hex] of [src/src/entries.rs], and [NodeId]'s [Display]. *)
Fixpoint hex (hash : string) : string :=
  match hash with
  | EmptyString => ""
  | String a r => hex_byte a +:+ hex r
  end.

(** [char::to_digit(16)]. *)
Definition to_digit16 (a : ascii) : option Z :=
  let c := byte_val a in
  if (48 <=? c) && (c <=? 57) then Some (c - 48)
  else if (97 <=? c) && (c <=? 102) then Some (c - 87)
  else if (65 <=? c) && (c <=? 70) then Some (c - 55)
  else None.

(** [u8::from_str_radix(s, 16)] on a string of two bytes: a leading [+] is
    accepted as a sign, a [-] is not (the type is unsigned). *)
Definition u8_from_str_radix16 (a b : ascii) : option Z :=
  if decide (a = "+"%char) then to_digit16 b
  else match to_digit16 a, to_digit16 b with
       | Some x, Some y => Some (16 * x + y)
       | _, _ => None
       end.

Lemma strlen_hex s : strlen (hex s) = (2 * strlen s)%nat.
Proof.
  induction s as [|a s IH]; [done|]. cbn [hex]. rewrite strlen_append, IH.
  unfold hex_byte. simpl. lia.
Qed.

Lemma hex_byte_parse a :
  ∃ x y, hex_byte a = String x (String y "") ∧
         u8_from_str_radix16 x y = Some (byte_val a).
Proof.
  eexists _, _. split; [reflexivity|].
  destruct a as [[] [] [] [] [] [] [] []]; vm_compute; reflexivity.
Qed.

Lemma hex_inj s t : hex s = hex t → s = t.
Proof.
  revert t. induction s as [|a s IH]; intros [|b t]; cbn [hex]; [done|done|done|].
  intros [Hab Heq]%append_inj_len; [|done]. f_equal; [|auto].
  destruct (hex_byte_parse a) as (x & y & Ha & Hx),
    (hex_byte_parse b) as (x' & y' & Hb & Hy).
  rewrite Ha, Hb in Hab. injection Hab as -> ->. rewrite Hx in Hy.
  injection Hy as Hv%(f_equal byte_of). by rewrite !byte_of_val in Hv.
Qed.

(** ** Prefixes of byte strings *)

Fixpoint str_take (n : nat) (s : string) : string :=
  match n, s with S n, String a r => String a (str_take n r) | _, _ => "" end.
Fixpoint str_drop (n : nat) (s : string) : string :=
  match n, s with S n, String _ r => str_drop n r | _, _ => s end.

Lemma str_take_append s t : str_take (strlen s) (s +:+ t) = s.
Proof. induction s as [|a s IH]; [by destruct t|]. rewrite append_cons. simpl. by rewrite IH. Qed.

Lemma str_drop_append s t : str_drop (strlen s) (s +:+ t) = t.
Proof. induction s as [|a s IH]; [by destruct t|]. rewrite append_cons. simpl. apply IH. Qed.

Lemma str_take_drop n s : str_take n s +:+ str_drop n s = s.
Proof.
  revert s. induction n as [|n IH]; intros [|a s]; [done..|].
  simpl str_take. simpl str_drop. by rewrite append_cons, IH.
Qed.

Lemma strlen_str_take n s : strlen (str_take n s) = Nat.min n (strlen s).
Proof. revert s. induction n as [|n IH]; intros [|a s]; simpl; [done..|]. by rewrite IH. Qed.

Lemma strlen_str_drop n s : strlen (str_drop n s) = (strlen s - n)%nat.
Proof. revert s. induction n as [|n IH]; intros [|a s]; simpl; [done..|]. by rewrite IH. Qed.

Lemma str_take_all s : str_take (strlen s) s = s.
Proof. by rewrite <-(append_nil_r s) at 2; apply str_take_append. Qed.

Lemma str_drop_all s : str_drop (strlen s) s = "".
Proof. by rewrite <-(append_nil_r s) at 2; apply str_drop_append. Qed.

(** ** Strings all of whose bytes satisfy a test *)

Fixpoint str_all (f : ascii → bool) (s : string) : bool :=
  match s with
  | "" => true
  | String a s => f a && str_all f s
  end.

Lemma str_all_app f s t : str_all f (s +:+ t) = str_all f s && str_all f t.
Proof. induction s as [|a s IH]; [done|]. rewrite append_cons. simpl. by rewrite IH, andb_assoc. Qed.

Lemma str_all_join f sep l :
  str_all f sep = true → (∀ x, x ∈ l → str_all f x = true) → str_all f (join sep l) = true.
Proof.
  intros Hsep. induction l as [|x l IH]; intros Hl; [done|].
  destruct l as [|y l]; [apply Hl; by left|]. rewrite join_cons, !str_all_app, Hsep.
  rewrite Hl by (by left). apply IH. intros z Hz. apply Hl. by right.
Qed.

Lemma str_all_mono (f g : ascii → bool) s :
  (∀ a, f a = true → g a = true) → str_all f s = true → str_all g s = true.
Proof.
  intros Hfg. induction s as [|a s IH]; [done|]. simpl. rewrite !andb_true_iff. naive_solver.
Qed.
