(* ===== verification/Utf8.v ===== *)
(** * UTF-8: what [str] and [OsStr] conversions do with byte strings

    File names and file contents are byte strings; Rust's [str::from_utf8],
    [OsStr::to_str], [fs::read_to_string] and [to_string_lossy] look at them
    through [core::str]'s chunk decoder, written out here over bytes. *)

From S2P Require Import Prelude Paths Bytes.

Definition in_range (lo hi : Z) (a : ascii) : bool :=
  (lo <=? byte_val a) && (byte_val a <=? hi).
Definition is_cont (a : ascii) : bool := in_range 128 191 a.

(** The second byte allowed after a three-byte or four-byte lead. *)
Definition second3 (lead b : ascii) : bool :=
  if byte_val lead =? 224 then in_range 160 191 b
  else if byte_val lead =? 237 then in_range 128 159 b
  else is_cont b.
Definition second4 (lead b : ascii) : bool :=
  if byte_val lead =? 240 then in_range 144 191 b
  else if byte_val lead =? 244 then in_range 128 143 b
  else is_cont b.

(** One step of the decoder on a non-empty string: the bytes of the next
    character, or of the maximal ill-formed sequence, whether it is
    well-formed, and the rest. *)
Definition utf8_next (a : ascii) (r : string) : bool * string * string :=
  if in_range 0 127 a then (true, String a "", r)
  else if in_range 194 223 a then
    match r with
    | String b r' => if is_cont b then (true, String a (String b ""), r')
                     else (false, String a "", r)
    | "" => (false, String a "", r)
    end
  else if in_range 224 239 a then
    match r with
    | String b r' =>
        if second3 a b then
          match r' with
          | String c r'' => if is_cont c then (true, String a (String b (String c "")), r'')
                            else (false, String a (String b ""), r')
          | "" => (false, String a (String b ""), r')
          end
        else (false, String a "", r)
    | "" => (false, String a "", r)
    end
  else if in_range 240 244 a then
    match r with
    | String b r' =>
        if second4 a b then
          match r' with
          | String c r'' =>
              if is_cont c then
                match r'' with
                | String d r3 =>
                    if is_cont d
                    then (true, String a (String b (String c (String d ""))), r3)
                    else (false, String a (String b (String c "")), r'')
                | "" => (false, String a (String b (String c "")), r'')
                end
              else (false, String a (String b ""), r')
          | "" => (false, String a (String b ""), r')
          end
        else (false, String a "", r)
    | "" => (false, String a "", r)
    end
  else (false, String a "", r).

(** The decoder consumes at least one byte a step: the length of the string is
    enough fuel. *)
Fixpoint utf8_chunks_fuel (fuel : nat) (s : string) : list (bool * string) :=
  match fuel, s with
  | _, "" => []
  | O, _ => []
  | S fuel, String a r =>
      let '(ok, chunk, rest) := utf8_next a r in (ok, chunk) :: utf8_chunks_fuel fuel rest
  end.

Definition utf8_chunks (s : string) : list (bool * string) :=
  utf8_chunks_fuel (strlen s) s.

(** [str::from_utf8(..).is_ok()]. *)
Definition is_utf8 (s : string) : bool := forallb fst (utf8_chunks s).

(** U+FFFD. *)
Definition replacement : string :=
  String "239" (String "191" (String "189" "")).

(** [String::from_utf8_lossy], [OsStr::to_string_lossy]. *)
Definition to_string_lossy (s : string) : string :=
  String.concat "" ((λ c : bool * string, if c.1 then c.2 else replacement)
                      <$> utf8_chunks s).

(** [OsStr::to_str]. *)
Definition to_str (s : string) : option string := if is_utf8 s then Some s else None.

(** [fs::read_to_string] fails with [InvalidData] on other bytes. *)
Definition utf8_or_invalid (s : string) : IoResult string :=
  if is_utf8 s then Ok s else Err InvalidData.

(** ** Lemmas *)

Lemma utf8_next_split a r ok c rest :
  utf8_next a r = (ok, c, rest) →
  c +:+ rest = String a r ∧ (strlen rest ≤ strlen r)%nat.
Proof.
  unfold utf8_next. intros Heq.
  repeat case_match; simplify_eq; simpl; split; (reflexivity || lia).
Qed.

Lemma utf8_chunks_concat_fuel n s :
  (strlen s ≤ n)%nat → String.concat "" (utf8_chunks_fuel n s).*2 = s.
Proof.
  revert s. induction n as [|n IH]; intros [|a r] Hn; try done; simpl in Hn; [lia|].
  cbn [utf8_chunks_fuel]. destruct (utf8_next a r) as [[ok c] rest] eqn:E.
  apply utf8_next_split in E as [<- Hlen].
  rewrite fmap_cons. cbn [snd].
  specialize (IH rest ltac:(lia)).
  destruct ((utf8_chunks_fuel n rest).*2) as [|x l] eqn:El.
  - simpl in IH. rewrite <-IH. symmetry. apply append_nil_r.
  - change (c +:+ "" +:+ String.concat "" (x :: l) = c +:+ rest). by rewrite IH.
Qed.

(** The chunks cover the string. *)
Lemma utf8_chunks_concat s : String.concat "" (utf8_chunks s).*2 = s.
Proof. apply utf8_chunks_concat_fuel. done. Qed.

(** On valid UTF-8 the lossy conversion is the identity. *)
Lemma to_string_lossy_utf8 s : is_utf8 s = true → to_string_lossy s = s.
Proof.
  unfold is_utf8, to_string_lossy. intros Hall%Is_true_true_2%forallb_True.
  rewrite <-(utf8_chunks_concat s) at 2. f_equal.
  apply list_fmap_ext. intros i [ok c] Hi. simpl.
  rewrite Forall_lookup in Hall. apply Hall in Hi. simpl in Hi. by destruct ok.
Qed.

Lemma utf8_or_invalid_Ok s t : utf8_or_invalid s = Ok t ↔ is_utf8 s = true ∧ t = s.
Proof. unfold utf8_or_invalid. destruct (is_utf8 s); naive_solver. Qed.
