(* ===== verification/Fs.v ===== *)
(** * The file system: [std::fs], [std::path] and [std::time] as the source uses them

    The operations are a class over the type of file-system states, so that
    every theorem holds for any file system.  [MemFs] is a small in-memory
    instance used at concrete inputs, and [Traced] wraps any file system and
    records the calls that change it.  Paths are byte strings; functions that
    return a path return it in the normal form of its components. *)

From S2P Require Import Prelude Paths Utf8.

(** ** Paths *)

Definition component_name (c : Component) : string :=
  match c with RootDir => "/" | CurDir => "." | ParentDir => ".." | Normal n => n end.

Definition path_of_components (cs : list Component) : string :=
  match cs with
  | RootDir :: rest => "/" +:+ join "/" (component_name <$> rest)
  | _ => join "/" (component_name <$> cs)
  end.

(** [Path]s are equal when their components are. *)
Definition path_eq (a b : string) : bool :=
  bool_decide (path_components a = path_components b).

(** [Path::parent]: [None] at the root and for the empty path. *)
Definition path_parent (p : string) : option string :=
  match reverse (path_components p) with
  | [] | RootDir :: _ => None
  | _ :: rest => Some (path_of_components (reverse rest))
  end.

Definition path_file_name (p : string) : option string :=
  match last (path_components p) with Some (Normal n) => Some n | _ => None end.

(** [Path::file_stem]: the name up to its last dot, the whole name when there
    is none or the dot comes first. *)
Definition file_stem (name : string) : string :=
  match rsplit_once "."%char name with
  | Some (before, _) => if decide (before = "") then name else before
  | None => name
  end.

Definition with_extension (p ext : string) : string :=
  match path_file_name p, path_parent p with
  | Some name, Some parent => path_join parent (file_stem name +:+ "." +:+ ext)
  | _, _ => p
  end.

(** [Path::strip_prefix]: the components below [base]. *)
Fixpoint strip_components (base p : list Component) : option (list Component) :=
  match base, p with
  | [], _ => Some p
  | b :: base, c :: p => if decide (b = c) then strip_components base p else None
  | _ :: _, [] => None
  end.

(** ** Operations *)

Inductive FileType : Set := FtFile | FtDir | FtSymlink | FtOther.

#[export] Instance FileType_eq_dec : EqDecision FileType.
Proof. solve_decision. Defined.

(** Times are nanoseconds. *)
Record Metadata : Set := mkMetadata {
  md_type : FileType;
  md_len : Z;
  md_modified : option Z;
  md_mode : Z
}.

(** [read_dir] lists the names of the children; each may fail on its own. *)
Class FsOps (F : Type) := {
  fs_symlink_metadata : string → M F Metadata;
  fs_read_dir : string → M F (list (IoResult string));
  fs_read : string → M F string;
  fs_read_link : string → M F string;
  fs_canonicalize : string → M F string;
  fs_write : string → string → M F ();
  fs_rename : string → string → M F ();
  fs_remove_file : string → M F ();
  fs_remove_dir_all : string → M F ();
  fs_create_dir_all : string → M F ();
  fs_set_permissions : string → Z → M F ();
  fs_symlink : string → string → M F ();
  fs_now : F → F * Z;
  fs_sleep : Z → F → F
}.

(** [PATH_MAX]: the kernel refuses longer paths with [ENAMETOOLONG].  It bounds
    the depth of the recursive walks. *)
Definition path_max : nat := Z.to_nat 4096.

Class FsBounded (F : Type) `{FsOps F} : Prop := {
  read_dir_bounded p s names s' :
    fs_read_dir p s = (s', Ok names) → (strlen p < path_max)%nat;
  read_dir_names p s names s' n :
    fs_read_dir p s = (s', Ok names) → Ok n ∈ names → n ≠ "" ∧ is_absolute n = false
}.

Section Operations.
Context {F : Type} `{FsOps F}.

(** [fs::read_to_string]. *)
Definition fs_read_to_string (p : string) : M F string :=
  (bytes <- fs_read p ;; m_lift (utf8_or_invalid bytes))%m.

(** [write_atomic]: the temporary sibling, then the rename. *)
Definition write_atomic (p bytes : string) : M F () :=
  (let tmp := with_extension p "tmp" in
   fs_write tmp bytes ;; fs_rename tmp p)%m.

(** [SystemTime::now()]. *)
Definition m_now : M F Z := λ s, let '(s', t) := fs_now s in (s', Ok t).
Definition m_sleep (d : Z) : M F () := λ s, (fs_sleep d s, Ok ()).

End Operations.

(** ** An in-memory instance *)
Module MemFs.

Inductive MNode : Set :=
  | MFile (content : string) (fmode : Z) (mtime : Z)
  | MDir (dmode : Z)
  | MLink (target : string).

Record t : Type := mk { files : gmap string MNode; clock : Z }.

Definition set_files (f : gmap string MNode → gmap string MNode) (s : t) : t :=
  mk (f (files s)) (clock s).

Definition meta (n : MNode) : Metadata :=
  match n with
  | MFile c m mt => mkMetadata FtFile (Z.of_nat (strlen c)) (Some mt) (32768 + m)
  | MDir m => mkMetadata FtDir 0 (Some 0) (16384 + m)
  | MLink target => mkMetadata FtSymlink (Z.of_nat (strlen target)) (Some 0) 41471
  end.

Definition too_long (p : string) : bool := (path_max <=? strlen p)%nat.

Definition symlink_metadata (p : string) : M t Metadata :=
  λ s, if too_long p then (s, Err OtherError)
       else (s, meta <$> ok_or NotFound (files s !! p)).

Definition read_dir (p : string) : M t (list (IoResult string)) :=
  λ s, if too_long p then (s, Err OtherError)
       else match files s !! p with
            | Some (MDir _) =>
                (s, Ok (omap (λ k, if decide (k ≠ "" ∧ k ≠ "/" ∧ parent_path k = p ∧ basename k ≠ "")
                                   then Some (Ok (basename k)) else None)
                          (btree_keys (files s))))
            | Some _ => (s, Err OtherError)
            | None => (s, Err NotFound)
            end.

Definition read (p : string) : M t string :=
  λ s, match files s !! p with
       | Some (MFile c _ _) => (s, Ok c)
       | Some _ => (s, Err OtherError)
       | None => (s, Err NotFound)
       end.

Definition read_link (p : string) : M t string :=
  λ s, match files s !! p with
       | Some (MLink target) => (s, Ok target)
       | Some _ => (s, Err InvalidInput)
       | None => (s, Err NotFound)
       end.

Definition canonicalize (p : string) : M t string :=
  λ s, match files s !! p with Some _ => (s, Ok p) | None => (s, Err NotFound) end.

Definition write (p bytes : string) : M t () :=
  λ s, match files s !! parent_path p, files s !! p with
       | Some (MDir _), (None | Some (MFile _ _ _)) =>
           (set_files <[p := MFile bytes 420 (clock s)]> s, Ok ())
       | None, _ => (s, Err NotFound)
       | _, _ => (s, Err OtherError)
       end.

Definition rename (a b : string) : M t () :=
  λ s, match files s !! a, files s !! parent_path b with
       | Some n, Some (MDir _) => (set_files (λ m, <[b := n]> (delete a m)) s, Ok ())
       | _, _ => (s, Err NotFound)
       end.

Definition remove_file (p : string) : M t () :=
  λ s, match files s !! p with
       | Some (MDir _) => (s, Err OtherError)
       | Some _ => (set_files (delete p) s, Ok ())
       | None => (s, Err NotFound)
       end.

Definition below (p k : string) : bool := starts_with (p +:+ "/") k.

Definition remove_dir_all (p : string) : M t () :=
  λ s, match files s !! p with
       | Some (MDir _) =>
           (set_files (filter (λ kv : string * MNode, kv.1 ≠ p ∧ below p kv.1 = false)) s, Ok ())
       | Some _ => (s, Err OtherError)
       | None => (s, Err NotFound)
       end.

Definition create_dir_all (p : string) : M t () :=
  λ s, let dirs := p :: ancestors p in
       if forallb (λ d, match files s !! d with None | Some (MDir _) => true | _ => false end) dirs
       then (set_files (λ m, foldr (λ d m, match m !! d with
                                           | None => <[d := MDir 493]> m
                                           | Some _ => m
                                           end) m dirs) s, Ok ())
       else (s, Err AlreadyExists).

Definition set_permissions (p : string) (md : Z) : M t () :=
  λ s, match files s !! p with
       | Some (MFile c _ mt) => (set_files <[p := MFile c (Z.land md 4095) mt]> s, Ok ())
       | Some (MDir _) => (set_files <[p := MDir (Z.land md 4095)]> s, Ok ())
       | Some (MLink _) => (s, Ok ())
       | None => (s, Err NotFound)
       end.

Definition symlink (target p : string) : M t () :=
  λ s, match files s !! p with
       | Some _ => (s, Err AlreadyExists)
       | None => (set_files <[p := MLink target]> s, Ok ())
       end.

#[global] Instance ops : FsOps t := {|
  fs_symlink_metadata := symlink_metadata;
  fs_read_dir := read_dir;
  fs_read := read;
  fs_read_link := read_link;
  fs_canonicalize := canonicalize;
  fs_write := write;
  fs_rename := rename;
  fs_remove_file := remove_file;
  fs_remove_dir_all := remove_dir_all;
  fs_create_dir_all := create_dir_all;
  fs_set_permissions := set_permissions;
  fs_symlink := symlink;
  fs_now := λ s, (s, clock s);
  fs_sleep := λ d s, mk (files s) (clock s + d)
|}.

(** A basename has no separator, so it is a relative path. *)
Lemma basename_relative k : is_absolute (basename k) = false.
Proof.
  assert (∀ s, contains slash s = false → is_absolute s = false) as Hrel.
  { intros s Hs. apply not_true_is_false. intros [u ->]%starts_with_spec. done. }
  unfold basename. destruct (rsplit_once slash k) as [[a b]|] eqn:E.
  - apply Hrel. by apply rsplit_once_Some in E as [_ Hb].
  - apply Hrel. by apply rsplit_once_None in E.
Qed.

#[global] Instance bounded : FsBounded t.
Proof.
  split.
  - intros p s names s'. simpl. unfold read_dir, too_long.
    destruct (Nat.leb_spec path_max (strlen p)); [done|]. intros _. done.
  - intros p s names s' n. simpl. unfold read_dir.
    destruct (too_long p); [done|].
    destruct (files s !! p) as [[]|]; [done| |done|done].
    intros [= <- <-] (k & _ & Hk)%list_elem_of_omap.
    case_decide as Hd; [|done]. injection Hk as <-. split; [tauto|].
    apply basename_relative.
Qed.

End MemFs.

(** ** Tracing the calls that change the file system *)

Inductive FsCall : Set :=
  | CWrite (p : string)
  | CRename (a b : string)
  | CRemoveFile (p : string)
  | CRemoveDirAll (p : string)
  | CCreateDirAll (p : string)
  | CSetPermissions (p : string) (m : Z)
  | CSymlink (target p : string).

Record Traced (F : Type) : Type := mkTraced { tr_fs : F; tr_log : list FsCall }.
Arguments mkTraced {F} _ _.
Arguments tr_fs {F} _.
Arguments tr_log {F} _.

Section Traced.
Context {F : Type} `{FsOps F}.

Definition tr_pure {A} (c : M F A) : M (Traced F) A :=
  λ s, let '(f, r) := c (tr_fs s) in (mkTraced f (tr_log s), r).
Definition tr_call {A} (k : FsCall) (c : M F A) : M (Traced F) A :=
  λ s, let '(f, r) := c (tr_fs s) in (mkTraced f (tr_log s ++ [k]), r).

#[global] Instance traced_ops : FsOps (Traced F) := {|
  fs_symlink_metadata p := tr_pure (fs_symlink_metadata p);
  fs_read_dir p := tr_pure (fs_read_dir p);
  fs_read p := tr_pure (fs_read p);
  fs_read_link p := tr_pure (fs_read_link p);
  fs_canonicalize p := tr_pure (fs_canonicalize p);
  fs_write p b := tr_call (CWrite p) (fs_write p b);
  fs_rename a b := tr_call (CRename a b) (fs_rename a b);
  fs_remove_file p := tr_call (CRemoveFile p) (fs_remove_file p);
  fs_remove_dir_all p := tr_call (CRemoveDirAll p) (fs_remove_dir_all p);
  fs_create_dir_all p := tr_call (CCreateDirAll p) (fs_create_dir_all p);
  fs_set_permissions p m := tr_call (CSetPermissions p m) (fs_set_permissions p m);
  fs_symlink t p := tr_call (CSymlink t p) (fs_symlink t p);
  fs_now s := let '(f, t) := fs_now (tr_fs s) in (mkTraced f (tr_log s), t);
  fs_sleep d s := mkTraced (fs_sleep d (tr_fs s)) (tr_log s)
|}.

End Traced.

(** [c] changes the file system only through calls that satisfy [P]; [log] finds
    the record of calls in the state [c] runs on. *)
Definition only_calls {S A} (log : S → list FsCall) (P : FsCall → Prop) (c : M S A) : Prop :=
  ∀ s, ∃ l, log (c s).1 = log s ++ l ∧ Forall P l.

Section OnlyCalls.
Context {S : Type} (log : S → list FsCall).

Lemma only_calls_ret {A} P (a : A) : only_calls log P (m_ret a).
Proof. intros s. exists []. by rewrite app_nil_r. Qed.

Lemma only_calls_err {A} P e : only_calls log P (m_err (A:=A) e).
Proof. intros s. exists []. by rewrite app_nil_r. Qed.

Lemma only_calls_lift {A} P (r : IoResult A) : only_calls log P (m_lift r).
Proof. intros s. exists []. by rewrite app_nil_r. Qed.

Lemma only_calls_gets {A} P (f : S → A) : only_calls log P (m_gets f).
Proof. intros s. exists []. by rewrite app_nil_r. Qed.

Lemma only_calls_bind {A B} P (c : M S A) (f : A → M S B) :
  only_calls log P c → (∀ a, only_calls log P (f a)) → only_calls log P (m_bind c f).
Proof.
  intros Hc Hf s. destruct (Hc s) as (l & Hl & HP). unfold m_bind.
  destruct (c s) as [s' [a|e]]; simpl in Hl; [|by exists l].
  destruct (Hf a s') as (l' & Hl' & HP'). exists (l ++ l').
  rewrite Hl', Hl, app_assoc. split; [done|]. by apply Forall_app.
Qed.

Lemma only_calls_lift_bind {A B} P (r : IoResult A) (f : A → M S B) :
  (∀ a, r = Ok a → only_calls log P (f a)) → only_calls log P (m_bind (m_lift r) f).
Proof.
  intros Hf. destruct r as [a|e]; [apply (Hf a eq_refl)|apply (only_calls_err P e)].
Qed.

Lemma only_calls_ignore {A} P (c : M S A) :
  only_calls log P c → only_calls log P (m_ignore c).
Proof.
  intros Hc s. destruct (Hc s) as (l & Hl & HP). unfold m_ignore. exists l. by destruct (c s).
Qed.

Lemma only_calls_try {A} P (c : M S A) :
  only_calls log P c → only_calls log P (m_try c).
Proof.
  intros Hc s. destruct (Hc s) as (l & Hl & HP). unfold m_try. exists l. by destruct (c s).
Qed.

Lemma only_calls_for {A} P (l : list A) (body : A → M S ()) :
  (∀ a, a ∈ l → only_calls log P (body a)) → only_calls log P (m_for l body).
Proof.
  induction l as [|a l IH]; intros Hb; simpl; [apply only_calls_ret|].
  apply only_calls_bind; [apply Hb; left|]. intros _. apply IH. intros b Hin.
  apply Hb. by right.
Qed.

Lemma only_calls_fold {A B} P (l : list A) (body : A → B → M S B) b :
  (∀ a b, a ∈ l → only_calls log P (body a b)) → only_calls log P (m_fold l body b).
Proof.
  revert b. induction l as [|a l IH]; intros b Hb; simpl; [apply only_calls_ret|].
  apply only_calls_bind; [apply Hb; left|]. intros b'. apply IH. intros a' b'' Hin.
  apply Hb. by right.
Qed.

Lemma only_calls_mono {A} (P Q : FsCall → Prop) (c : M S A) :
  (∀ k, P k → Q k) → only_calls log P c → only_calls log Q c.
Proof.
  intros HPQ Hc s. destruct (Hc s) as (l & Hl & HP). exists l. split; [done|].
  by eapply Forall_impl.
Qed.

End OnlyCalls.

Section TracedCalls.
Context {F : Type} `{FsOps F}.

Lemma only_calls_pure {A} P (c : M F A) : only_calls tr_log P (tr_pure c).
Proof.
  intros s. exists []. unfold tr_pure. destruct (c (tr_fs s)). by rewrite app_nil_r.
Qed.

Lemma only_calls_call {A} (P : FsCall → Prop) k (c : M F A) :
  P k → only_calls tr_log P (tr_call k c).
Proof. intros Hk s. exists [k]. unfold tr_call. destruct (c (tr_fs s)). auto. Qed.

End TracedCalls.

Create HintDb calls discriminated.
#[export] Hint Resolve only_calls_ret only_calls_err only_calls_lift only_calls_gets
  only_calls_pure only_calls_call only_calls_bind only_calls_ignore only_calls_try : calls.
