(* ===== verification/Ignore.v ===== *)
(** * Ignore patterns: [src/src/ignore.rs]

    The [.nolil] file of gitignore-style globs, the built-in exclusions, and
    [should_ignore], the filter every scan and event goes through. *)

From S2P Require Import Prelude Paths Bytes Utf8 Fs.

Definition STATE_DIR : string := ".lil".
Definition IGNORE_FILE_NAME : string := ".nolil".
Definition IGNORED_FILE_NAMES : list string := [".DS_Store"; "Thumbs.db"; "Desktop.ini"].
Definition IGNORED_FILE_PREFIXES : list string := ["._"].
Definition IGNORED_DIR_NAMES : list string :=
  [".Spotlight-V100"; ".Trashes"; ".fseventsd"; "$RECYCLE.BIN"; "lost+found"].

Record IgnorePattern : Set := mkPattern {
  pattern : string;
  negated : bool;
  directory_only : bool;
  anchored : bool;
  has_slash : bool
}.

(** ** [str::lines] and [str::trim] *)

Definition newline : ascii := "010".

Definition strip_cr (s : string) : string :=
  match rsplit_once "013"%char s with Some (l, "") => l | _ => s end.

(** [str::lines]: the part after the last newline is a line only if it is not
    empty; a carriage return before a newline is dropped. *)
Fixpoint lines_of (parts : list string) : list string :=
  match parts with
  | [] => []
  | [l] => if decide (l = "") then [] else [l]
  | l :: rest => strip_cr l :: lines_of rest
  end.
Definition lines (s : string) : list string := lines_of (split_on newline s).

(** The UTF-8 encodings of the Unicode [White_Space] characters. *)
Definition bytes_of (l : list Z) : string :=
  foldr (λ z s, String (byte_of z) s) "" l.
Definition white_space : list string :=
  bytes_of <$>
    ([[9]; [10]; [11]; [12]; [13]; [32]; [194; 133]; [194; 160]; [225; 154; 128]] ++
     ((λ z, [226; 128; z]) <$> [128; 129; 130; 131; 132; 133; 134; 135; 136; 137; 138;
                                168; 169; 175]) ++
     [[226; 129; 159]; [227; 128; 128]]).

Fixpoint strip_any (ws : list string) (s : string) : option string :=
  match ws with
  | [] => None
  | w :: ws => match strip_prefix w s with Some r => Some r | None => strip_any ws s end
  end.

(** Each step removes at least one byte: the length of the string is enough. *)
Fixpoint trim_start_fuel (fuel : nat) (ws : list string) (s : string) : string :=
  match fuel with
  | O => s
  | S fuel => match strip_any ws s with
              | Some r => trim_start_fuel fuel ws r
              | None => s
              end
  end.

Fixpoint str_rev (s : string) : string :=
  match s with "" => "" | String a r => str_rev r +:+ String a "" end.

Definition trim (s : string) : string :=
  let s := trim_start_fuel (strlen s) white_space s in
  str_rev (trim_start_fuel (strlen s) (str_rev <$> white_space) (str_rev s)).

(** ** Parsing *)

Definition parse_line (raw_line : string) : option IgnorePattern :=
  let line := trim raw_line in
  if decide (line = "") then None
  else if starts_with "#" line then None
  else
    let negated := starts_with "!" line in
    let line := if negated then String.substring 1 (strlen line - 1) line else line in
    let directory_only := ends_with slash line in
    let line := if directory_only then trim_end_matches slash line else line in
    let anchored := starts_with "/" line in
    let line := if anchored then String.substring 1 (strlen line - 1) line else line in
    if decide (line = "") then None
    else Some {| pattern := line; negated := negated; directory_only := directory_only;
                 anchored := anchored; has_slash := contains slash line |}.

Definition parse_ignore_patterns (contents : string) : list IgnorePattern :=
  omap parse_line (lines contents).

Definition load_ignore_patterns {F} `{FsOps F} (root : string) : M F (list IgnorePattern) :=
  (r <- m_try (fs_read_to_string (path_join root IGNORE_FILE_NAME)) ;;
   match r with
   | Ok contents => m_ret (parse_ignore_patterns contents)
   | Err NotFound => m_ret []
   | Err e => m_err e
   end)%m.

(** ** Matching *)

(** [glob_match_bytes]: the recursion on the pattern is structural, the ones
    that keep the pattern and drop a byte of the text are the inner loops. *)
Fixpoint glob_match_bytes (pattern text : string) {struct pattern} : bool :=
  match pattern with
  | "" => bool_decide (text = "")
  | String p rest =>
      if decide (p = "*"%char) then
        match rest with
        | String q rest2 =>
            if decide (q = "*"%char) then
              (fix any (text : string) : bool :=
                 glob_match_bytes rest2 text
                 || match text with "" => false | String _ text' => any text' end) text
            else
              (fix star (text : string) : bool :=
                 glob_match_bytes rest text
                 || match text with
                    | "" => false
                    | String c text' => bool_decide (c ≠ slash) && star text'
                    end) text
        | "" =>
            (fix star (text : string) : bool :=
               glob_match_bytes rest text
               || match text with
                  | "" => false
                  | String c text' => bool_decide (c ≠ slash) && star text'
                  end) text
        end
      else
        match text with
        | "" => false
        | String c text' =>
            if decide (p = "?"%char)
            then bool_decide (c ≠ slash) && glob_match_bytes rest text'
            else bool_decide (p = c) && glob_match_bytes rest text'
        end
  end.

Definition glob_match (pattern text : string) : bool := glob_match_bytes pattern text.

(** [parts[..=i].join("/")] for every [i]. *)
Definition directory_candidates (relative : string) : list string :=
  let parts := split_on slash relative in
  (λ i, join "/" (take (S i) parts)) <$> seq 0 (length parts).

(** The string and what follows each of its slashes. *)
Fixpoint after_slashes (s : string) : list string :=
  match s with
  | "" => []
  | String a r => if decide (a = slash) then r :: after_slashes r else after_slashes r
  end.
Definition path_suffix_candidates (relative : string) : list string :=
  relative :: after_slashes relative.

Definition matches_target (p : IgnorePattern) (target : string) : bool :=
  if anchored p then glob_match (pattern p) target
  else if has_slash p then existsb (glob_match (pattern p)) (path_suffix_candidates target)
  else existsb (glob_match (pattern p)) (split_on slash target).

Definition matches_ignore_pattern (p : IgnorePattern) (relative : string) : bool :=
  existsb (matches_target p)
    (if directory_only p then directory_candidates relative else [relative]).

Definition matches_ignore_patterns (patterns : list IgnorePattern) (relative : string) : bool :=
  fold_left (λ ignored p, if matches_ignore_pattern p relative then negb (negated p) else ignored)
    patterns false.

Definition should_ignore_component (name : string) : bool :=
  bool_decide (name = STATE_DIR)
  || bool_decide (name ∈ IGNORED_FILE_NAMES)
  || existsb (λ prefix, starts_with prefix name) IGNORED_FILE_PREFIXES
  || bool_decide (name ∈ IGNORED_DIR_NAMES).

Definition should_ignore (relative : string) (ignore_patterns : list IgnorePattern) : bool :=
  if decide (relative = IGNORE_FILE_NAME) then false
  else existsb (λ c, should_ignore_component (to_string_lossy (component_name c)))
         (path_components relative)
       || matches_ignore_patterns ignore_patterns relative.

(** ** What a glob matches

    A pattern is a sequence of tokens; a text matches when it can be cut into
    pieces, one per token. *)
Inductive Glob : Set := GAny | GStar | GOne | GLit (c : ascii).

Fixpoint glob_tokens (pattern : string) : list Glob :=
  match pattern with
  | "" => []
  | String p rest =>
      if decide (p = "*"%char) then
        match rest with
        | String q rest2 =>
            if decide (q = "*"%char) then GAny :: glob_tokens rest2
            else GStar :: glob_tokens rest
        | "" => GStar :: glob_tokens rest
        end
      else (if decide (p = "?"%char) then GOne else GLit p) :: glob_tokens rest
  end.

Definition glob_piece (g : Glob) (u : string) : Prop :=
  match g with
  | GAny => True
  | GStar => contains slash u = false
  | GOne => ∃ c, u = String c "" ∧ c ≠ slash
  | GLit c => u = String c ""
  end.

Inductive glob_matches : list Glob → string → Prop :=
  | glob_matches_nil : glob_matches [] ""
  | glob_matches_cons g gs u v :
      glob_piece g u → glob_matches gs v → glob_matches (g :: gs) (u +:+ v).

Definition gstar_loop (rest : string) : string → bool :=
  fix star (text : string) : bool :=
    glob_match_bytes rest text
    || match text with
       | "" => false
       | String c text' => bool_decide (c ≠ slash) && star text'
       end.
Definition gany_loop (rest : string) : string → bool :=
  fix any (text : string) : bool :=
    glob_match_bytes rest text
    || match text with "" => false | String _ text' => any text' end.

Lemma gany_loop_spec rest text :
  gany_loop rest text = true ↔ ∃ u v, text = u +:+ v ∧ glob_match_bytes rest v = true.
Proof.
  induction text as [|c text IH]; simpl.
  - rewrite orb_false_r. split.
    + intros Hm. by exists "", "".
    + intros ([|c u] & v & Heq & Hm); [|done]. simpl in Heq. by rewrite Heq.
  - rewrite orb_true_iff, IH. split.
    + intros [Hm|(u & v & -> & Hm)]; [by exists "", (String c text)|by exists (String c u), v].
    + intros ([|c' u] & v & Heq & Hm); [left; by rewrite Heq|].
      injection Heq as -> ->. right. by exists u, v.
Qed.

Lemma gstar_loop_spec rest text :
  gstar_loop rest text = true ↔
    ∃ u v, text = u +:+ v ∧ contains slash u = false ∧ glob_match_bytes rest v = true.
Proof.
  induction text as [|c text IH]; simpl.
  - rewrite orb_false_r. split.
    + intros Hm. by exists "", "".
    + intros ([|c u] & v & Heq & _ & Hm); [|done]. simpl in Heq. by rewrite Heq.
  - rewrite orb_true_iff, andb_true_iff, bool_decide_eq_true, IH. split.
    + intros [Hm|(Hc & u & v & -> & Hu & Hm)]; [by exists "", (String c text)|].
      exists (String c u), v. simpl. by rewrite (bool_decide_false (c = slash)).
    + intros ([|c' u] & v & Heq & Hu & Hm); [left; by rewrite Heq|].
      injection Heq as -> ->. simpl in Hu. apply orb_false_iff in Hu as [Hc Hu].
      apply bool_decide_eq_false in Hc. right. split; [done|]. by exists u, v.
Qed.

Lemma glob_matches_cons_inv g gs t :
  glob_matches (g :: gs) t ↔ ∃ u v, t = u +:+ v ∧ glob_piece g u ∧ glob_matches gs v.
Proof.
  split.
  - inversion 1; subst. by eexists _, _.
  - intros (u & v & -> & Hp & Hm). by constructor.
Qed.

Lemma glob_match_star rest text :
  glob_match_bytes (String "*" rest) text =
    match rest with
    | String q rest2 => if decide (q = "*"%char) then gany_loop rest2 text
                        else gstar_loop rest text
    | "" => gstar_loop rest text
    end.
Proof. by destruct rest. Qed.

Lemma glob_match_bytes_spec_strong n pattern text :
  (strlen pattern ≤ n)%nat →
  glob_match_bytes pattern text = true ↔ glob_matches (glob_tokens pattern) text.
Proof.
  revert pattern text. induction n as [|n IH]; intros [|p rest] text Hlen; simpl in Hlen;
    [|lia| |].
  1, 2: simpl; rewrite bool_decide_eq_true; split; [intros ->; constructor|by inversion 1].
  destruct (decide (p = "*"%char)) as [->|Hp].
  - rewrite glob_match_star.
    assert (∀ r t, (strlen r ≤ n)%nat → gstar_loop r t = true ↔
              glob_matches (GStar :: glob_tokens r) t) as Hstar.
    { intros r t Hr. rewrite gstar_loop_spec, glob_matches_cons_inv.
      setoid_rewrite (IH r); done. }
    destruct rest as [|q rest2]; [apply Hstar; simpl; lia|].
    change (glob_tokens (String "*" (String q rest2))) with
      (if decide (q = "*"%char) then GAny :: glob_tokens rest2
       else GStar :: glob_tokens (String q rest2)).
    destruct (decide (q = "*"%char)) as [->|Hq].
    + rewrite gany_loop_spec, glob_matches_cons_inv. simpl in Hlen.
      setoid_rewrite (IH rest2); [|lia]. naive_solver.
    + apply Hstar. lia.
  - cbn [glob_match_bytes glob_tokens]. rewrite !decide_False by done.
    rewrite glob_matches_cons_inv. destruct (decide (p = "?"%char)) as [->|Hq].
    + destruct text as [|c text].
      { split; [done|]. intros (u & v & Heq & (c & -> & _) & _). done. }
      rewrite andb_true_iff, bool_decide_eq_true, (IH rest) by lia. split.
      * intros [Hc Hm]. exists (String c ""), text. split; [done|].
        split; [by exists c|done].
      * intros (u & v & Heq & (c' & -> & Hc) & Hm).
        rewrite append_cons, append_nil_l in Heq. by injection Heq as -> ->.
    + destruct text as [|c text].
      { split; [done|]. intros (u & v & Heq & Hu & _). simpl in Hu. by subst u. }
      rewrite andb_true_iff, bool_decide_eq_true, (IH rest) by lia. split.
      * intros [-> Hm]. by exists (String c ""), text.
      * intros (u & v & Heq & Hu & Hm). simpl in Hu. subst u.
        rewrite append_cons, append_nil_l in Heq. by injection Heq as -> ->.
Qed.

(** ** Facts *)

Lemma fold_last_match {A} (f : A → bool) (g : A → bool) l b :
  fold_left (λ acc p, if f p then g p else acc) l b =
    match last (filter f l) with Some p => g p | None => b end.
Proof.
  revert b. induction l as [|x l IH]; intros b; [done|]. cbn [fold_left].
  rewrite IH, filter_cons. destruct (f x) eqn:Ef.
  - rewrite decide_True by done. rewrite last_cons.
    by destruct (last (filter f l)).
  - rewrite decide_False by auto. done.
Qed.

(** The last matching pattern decides. *)
Lemma matches_ignore_patterns_last ps r :
  matches_ignore_patterns ps r =
    match last (filter (λ p, matches_ignore_pattern p r) ps) with
    | Some p => negb (negated p)
    | None => false
    end.
Proof. unfold matches_ignore_patterns. apply (fold_last_match (λ p, matches_ignore_pattern p r)). Qed.
