(* ===== verification/Decimal.v ===== *)
(** * Decimal numbers in files

    [FromStr] of the standard library's integers, as the port file and the PID
    file are read with it, and its round trip with [Display]. *)

From stdpp Require Import pretty.
From S2P Require Import Prelude Paths Bytes Ignore.

(** The digits of a number of at most [max], after a prefix worth [acc]. *)
Fixpoint parse_digits (max acc : Z) (s : string) : option Z :=
  match s with
  | "" => Some acc
  | String a r =>
      let c := byte_val a in
      if (48 <=? c) && (c <=? 57) then
        let acc := 10 * acc + (c - 48) in
        if max <? acc then None else parse_digits max acc r
      else None
  end.

Definition parse_unsigned (max : Z) (s : string) : option Z :=
  if decide (s = "") then None else parse_digits max 0 s.

(** [u16::from_str]: at most one leading [+]. *)
Definition parse_u16 (s : string) : option Z :=
  match s with
  | String a r => parse_unsigned 65535 (if decide (a = "+"%char) then r else s)
  | "" => None
  end.

(** [i32::from_str]: a sign may lead. *)
Definition parse_i32 (s : string) : option Z :=
  match s with
  | String a r =>
      if decide (a = "-"%char) then Z.opp <$> parse_unsigned (2 ^ 31) r
      else parse_unsigned (2 ^ 31 - 1) (if decide (a = "+"%char) then r else s)
  | "" => None
  end.

(** ** Printing and parsing *)

Definition is_digit (a : ascii) : bool := (48 <=? byte_val a) && (byte_val a <=? 57).

Lemma pretty_char_digit n : (n < 10)%N →
  is_digit (pretty_N_char n) = true ∧ byte_val (pretty_N_char n) = 48 + Z.of_N n.
Proof.
  intros Hn. assert (∃ k, (k < 10)%nat ∧ n = N.of_nat k) as (k & Hk & ->).
  { exists (N.to_nat n). lia. }
  do 10 (destruct k as [|k]; [by vm_compute|]). lia.
Qed.

Lemma parse_digits_pretty max x s :
  Z.of_N x ≤ max → parse_digits max 0 (pretty_N_go x s) = parse_digits max (Z.of_N x) s.
Proof.
  revert s. induction (N.lt_wf_0 x) as [x _ IH]. intros s Hx.
  destruct (decide (x = 0)%N) as [->|Hne]; [by rewrite pretty_N_go_0|].
  rewrite pretty_N_go_step by lia.
  pose proof (N.mod_lt x 10 ltac:(lia)) as Hm. pose proof (N.div_mod' x 10) as Hdiv.
  assert (Z.of_N (x / 10) ≤ max) as Hle.
  { transitivity (Z.of_N x); [|done]. apply N2Z.inj_le, N.Div0.div_le_upper_bound. lia. }
  rewrite IH; [|apply N.div_lt; lia|done]. cbn [parse_digits].
  destruct (pretty_char_digit (x mod 10) Hm) as [Hd Hv]. unfold is_digit in Hd. rewrite Hd, Hv.
  assert (10 * Z.of_N (x / 10) + (48 + Z.of_N (x mod 10) - 48) = Z.of_N x) as ->.
  { rewrite Hdiv at 3. rewrite N2Z.inj_add, N2Z.inj_mul. lia. }
  by rewrite (proj2 (Z.ltb_ge _ _)).
Qed.

Lemma str_all_pretty_go x s :
  str_all is_digit s = true → str_all is_digit (pretty_N_go x s) = true.
Proof.
  revert s. induction (N.lt_wf_0 x) as [x _ IH]. intros s Hs.
  destruct (decide (x = 0)%N) as [->|Hx]; [by rewrite pretty_N_go_0|].
  rewrite pretty_N_go_step by lia. apply IH; [apply N.div_lt; lia|]. simpl. rewrite Hs.
  by rewrite (proj1 (pretty_char_digit _ (N.mod_lt x 10 ltac:(lia)))).
Qed.

Lemma pretty_go_nonempty x s : s ≠ "" → pretty_N_go x s ≠ "".
Proof.
  revert s. induction (N.lt_wf_0 x) as [x _ IH]. intros s Hs.
  destruct (decide (x = 0)%N) as [->|Hx]; [by rewrite pretty_N_go_0|].
  rewrite pretty_N_go_step by lia. by apply IH; [apply N.div_lt; lia|].
Qed.

Lemma pretty_digits z : 0 ≤ z → str_all is_digit (pretty z) = true ∧ pretty z ≠ "".
Proof.
  intros Hz. destruct z as [|p|p]; [done| |lia].
  change (pretty (Z.pos p)) with (pretty (N.pos p)). unfold pretty, pretty_N. rewrite decide_False by lia.
  split; [by apply str_all_pretty_go|]. rewrite pretty_N_go_step by lia. by apply pretty_go_nonempty.
Qed.

Lemma parse_unsigned_pretty max z : 0 ≤ z ≤ max → parse_unsigned max (pretty z) = Some z.
Proof.
  intros Hz. unfold parse_unsigned. rewrite decide_False by (apply (proj2 (pretty_digits z ltac:(lia)))).
  destruct z as [|p|p]; [| |lia].
  - change ((if max <? 0 then None else Some 0) = Some 0). destruct (Z.ltb_spec max 0); [lia|done].
  - change (pretty (Z.pos p)) with (pretty (N.pos p)). unfold pretty, pretty_N. rewrite decide_False by lia.
    by rewrite parse_digits_pretty by lia.
Qed.

(** A number has no sign and no white space around it. *)
Lemma digits_head a r : str_all is_digit (String a r) = true → a ≠ "+"%char ∧ a ≠ "-"%char.
Proof. cbn [str_all]. intros [Ha _]%andb_true_iff. split; by intros ->. Qed.

Lemma digit_not_space a r :
  is_digit a = true →
  strip_any white_space (String a r) = None ∧
  strip_any (str_rev <$> white_space) (String a r) = None.
Proof. destruct a as [[] [] [] [] [] [] [] []]; intros Ha; vm_compute in Ha; try done. Qed.

Lemma trim_start_digits n s ws :
  (∀ a r, is_digit a = true → strip_any ws (String a r) = None) →
  str_all is_digit s = true → s ≠ "" → trim_start_fuel n ws s = s.
Proof.
  intros Hws Hs Hne. destruct n as [|n]; [done|]. cbn [trim_start_fuel].
  destruct s as [|a r]; [done|]. apply andb_true_iff in Hs as [Ha _]. by rewrite Hws.
Qed.

Lemma str_rev_app s t : str_rev (s +:+ t) = str_rev t +:+ str_rev s.
Proof.
  induction s as [|a s IH]; [by rewrite append_nil_r|]. rewrite append_cons. simpl.
  by rewrite IH, append_assoc.
Qed.
Lemma str_rev_rev s : str_rev (str_rev s) = s.
Proof. induction s as [|a s IH]; [done|]. simpl. by rewrite str_rev_app, IH. Qed.
Lemma str_all_rev f s : str_all f (str_rev s) = str_all f s.
Proof.
  induction s as [|a s IH]; [done|]. simpl. rewrite str_all_app, IH. simpl.
  by rewrite andb_true_r, andb_comm.
Qed.

Lemma trim_digits s : str_all is_digit s = true → s ≠ "" → trim s = s.
Proof.
  intros Hs Hne.
  assert (trim_start_fuel (strlen s) white_space s = s) as Hstart.
  { apply trim_start_digits; [|done|done]. intros a r Ha. exact (proj1 (digit_not_space a r Ha)). }
  assert (trim_start_fuel (strlen s) (str_rev <$> white_space) (str_rev s) = str_rev s) as Hend.
  { apply trim_start_digits; [|by rewrite str_all_rev|].
    - intros a r Ha. exact (proj2 (digit_not_space a r Ha)).
    - intros E. apply Hne. by rewrite <-(str_rev_rev s), E. }
  unfold trim. cbv zeta. by rewrite Hstart, Hend, str_rev_rev.
Qed.

Lemma parse_i32_pretty z : 0 ≤ z < 2 ^ 31 → parse_i32 (trim (pretty z)) = Some z.
Proof.
  intros Hz. destruct (pretty_digits z ltac:(lia)) as [Hd Hne].
  rewrite trim_digits by done. rewrite <-(parse_unsigned_pretty (2 ^ 31 - 1) z) by lia. unfold parse_i32.
  destruct (pretty z) as [|a r]; [done|]. apply digits_head in Hd as [??].
  by rewrite !decide_False.
Qed.

Lemma parse_u16_pretty z : 0 ≤ z ≤ 65535 → parse_u16 (trim (pretty z)) = Some z.
Proof.
  intros Hz. destruct (pretty_digits z ltac:(lia)) as [Hd Hne].
  rewrite trim_digits by done. rewrite <-(parse_unsigned_pretty 65535 z) by lia. unfold parse_u16.
  destruct (pretty z) as [|a r]; [done|]. apply digits_head in Hd as [??].
  by rewrite decide_False.
Qed.

(** Digits are UTF-8 text. *)
Lemma digits_ascii z : 0 ≤ z → str_all (λ a, byte_val a <=? 127) (pretty z) = true.
Proof.
  intros Hz. apply (str_all_mono is_digit); [|by apply pretty_digits].
  intros a. unfold is_digit. rewrite andb_true_iff, !Z.leb_le. lia.
Qed.
