(* ===== verification/Entries.v ===== *)
(** * Entries and versions: [src/src/entries.rs]

    The data replicated between nodes.  An [Entry] is one path of the folder
    with its content hash, size and mode, tagged with the [Version] (Lamport
    clock, origin node) of the change that produced it; deletions are entries
    of kind [Tombstone].  [[u8; 32]] hashes are byte strings.  [io::Error]s
    keep their [ErrorKind]; the messages are not modelled. *)

From S2P Require Import Prelude Paths Bytes.

Abbreviation Hash := string (only parsing).
Abbreviation GcWatermark := (gmap string Z) (only parsing).

Inductive EntryKind : Set := File | Dir | Tombstone | Symlink.

#[export] Instance EntryKind_eq_dec : EqDecision EntryKind.
Proof. solve_decision. Defined.

(** [EntryKind::as_str]. *)
Definition as_str (k : EntryKind) : string :=
  match k with
  | File => "file"
  | Dir => "dir"
  | Tombstone => "tombstone"
  | Symlink => "symlink"
  end.

Record Version : Set := mkVersion { lamport : Z; origin : string }.

#[export] Instance Version_eq_dec : EqDecision Version.
Proof. solve_decision. Defined.

(** [impl Ord for Version]: the clock first, ties broken by the origin id. *)
Definition version_cmp (a b : Version) : comparison :=
  match Z.compare (lamport a) (lamport b) with
  | Eq => String.compare (origin a) (origin b)
  | c => c
  end.

(** [a > b] on versions. *)
Definition version_gt (a b : Version) : bool :=
  match version_cmp a b with Gt => true | _ => false end.

Record Entry : Set := mkEntry {
  path : string;
  kind : EntryKind;
  content_hash : option Hash;
  symlink_target : option string;
  size : Z;
  mode : option Z;
  version : Version
}.

#[export] Instance Entry_eq_dec : EqDecision Entry.
Proof. solve_decision. Defined.

Record Change : Set := mkChange {
  ch_path : string;
  ch_old : option Entry;
  ch_new : Entry
}.

(** [Change::verb]. *)
Definition verb (c : Change) : string :=
  match ch_old c, kind (ch_new c) with
  | None, File => "file new"
  | None, Dir => "dir new"
  | None, Tombstone => "tombstone new"
  | Some _, Tombstone => "delete"
  | Some old, File => if decide (kind old = File) then "file update" else "file replace"
  | Some old, Dir => if decide (kind old = Dir) then "dir update" else "dir replace"
  | None, Symlink => "symlink new"
  | Some old, Symlink =>
      if decide (kind old = Symlink) then "symlink update" else "symlink replace"
  end.

Definition tombstone_entry (p : string) (old : Entry) (v : Version) : Entry :=
  {| path := p; kind := Tombstone; content_hash := None; symlink_target := None;
     size := 0; mode := mode old; version := v |}.

Definition placeholder_version : Version := {| lamport := 0; origin := "" |}.

Definition same_observed_state (left right : Entry) : bool :=
  bool_decide (path left = path right)
  && bool_decide (kind left = kind right)
  && bool_decide (content_hash left = content_hash right)
  && bool_decide (symlink_target left = symlink_target right)
  && (size left =? size right)
  && bool_decide (mode left = mode right).

(** A component [validate_symlink_target] and [validate_remote_path] refuse. *)
Definition escaping_component (c : Component) : bool :=
  match c with RootDir | CurDir | ParentDir => true | Normal _ => false end.

Definition validate_symlink_target (target : string) : IoResult () :=
  if decide (target = "") then Err InvalidInput
  else if contains "000"%char target || contains "092"%char target
  then Err InvalidInput
  else if is_absolute target || existsb escaping_component (path_components target)
  then Err InvalidInput
  else Ok ().

(** ** The version order *)

Lemma string_compare_lt_le a b : String.compare a b = Lt → String.le a b.
Proof. unfold String.le, String.leb. by intros ->. Qed.

Lemma string_compare_gt_le a b : String.compare a b = Gt → String.le b a.
Proof.
  intros Hgt. apply string_compare_lt_le. rewrite String.compare_antisym, Hgt. done.
Qed.

Lemma string_compare_refl a : String.compare a a = Eq.
Proof.
  induction a as [|c a IH]; [done|]. simpl. by rewrite ascii_compare_refl.
Qed.

Lemma version_cmp_Eq a b : version_cmp a b = Eq ↔ a = b.
Proof.
  destruct a as [la oa], b as [lb ob]. unfold version_cmp. simpl. split.
  - destruct (Z.compare_spec la lb) as [->|?|?]; [|done|done].
    intros Heq%String.compare_eq_iff. by subst.
  - intros [= -> ->]. rewrite Z.compare_refl. apply string_compare_refl.
Qed.

Lemma version_cmp_antisym a b : version_cmp a b = CompOpp (version_cmp b a).
Proof.
  destruct a as [la oa], b as [lb ob]. unfold version_cmp. simpl.
  rewrite (Z.compare_antisym lb la).
  destruct (Z.compare lb la); simpl; [apply String.compare_antisym|done|done].
Qed.

(** The order as a proposition. *)
Definition version_lt (a b : Version) : Prop :=
  lamport a < lamport b ∨ (lamport a = lamport b ∧ str_lt (origin a) (origin b)).

Lemma version_cmp_Lt a b : version_cmp a b = Lt ↔ version_lt a b.
Proof.
  destruct a as [la oa], b as [lb ob]. unfold version_cmp, version_lt, str_lt. simpl.
  destruct (Z.compare_spec la lb) as [->|?|?]; [|naive_solver lia|].
  - split.
    + intros Hlt. right. split; [done|]. split; [by apply string_compare_lt_le|].
      intros ->. by rewrite string_compare_refl in Hlt.
    + intros [?|(_ & Hle & Hne)]; [lia|].
      unfold String.le, String.leb in Hle.
      destruct (String.compare oa ob) eqn:E; [|done|done].
      by apply String.compare_eq_iff in E.
  - split; [done|]. intros [?|[? _]]; lia.
Qed.

Lemma version_gt_lt a b : version_gt a b = true ↔ version_lt b a.
Proof.
  unfold version_gt. rewrite <-version_cmp_Lt, (version_cmp_antisym b a).
  destruct (version_cmp a b); simpl; naive_solver.
Qed.

Lemma version_lt_irrefl a : ¬ version_lt a a.
Proof. intros [?|[_ H]]; [lia|by apply str_lt_irrefl in H]. Qed.

Lemma version_lt_trans a b c : version_lt a b → version_lt b c → version_lt a c.
Proof.
  intros [H1|[H1 H1']] [H2|[H2 H2']]; [left; lia|left; lia|left; lia|].
  right. split; [lia|]. by eapply str_lt_trans.
Qed.

Lemma version_lt_total a b : version_lt a b ∨ a = b ∨ version_lt b a.
Proof.
  rewrite <-!version_cmp_Lt, <-version_cmp_Eq, (version_cmp_antisym b a).
  destruct (version_cmp a b); auto.
Qed.

#[export] Instance version_lt_strict : StrictOrder version_lt.
Proof.
  split; [intros a; apply version_lt_irrefl|intros a b c; apply version_lt_trans].
Qed.

Lemma version_gt_irrefl a : version_gt a a = false.
Proof.
  destruct (version_gt a a) eqn:E; [|done].
  apply version_gt_lt in E. by apply version_lt_irrefl in E.
Qed.

(** ** Observed state *)

Lemma same_observed_state_spec l r :
  same_observed_state l r = true ↔
    path l = path r ∧ kind l = kind r ∧ content_hash l = content_hash r ∧
    symlink_target l = symlink_target r ∧ size l = size r ∧ mode l = mode r.
Proof.
  unfold same_observed_state.
  rewrite !andb_true_iff, !bool_decide_eq_true, Z.eqb_eq. naive_solver.
Qed.

Lemma same_observed_state_refl e : same_observed_state e e = true.
Proof. by apply same_observed_state_spec. Qed.
