(* ===== verification/Scan.v ===== *)
(** * Scanning: [src/src/scan.rs]

    Directory traversal, the stability protocol that only hashes files at rest,
    the size-and-mtime cache of content hashes, and event-path handling.  The
    walk recurses on directory depth with fuel; [ScanProps] shows that
    [path_max] is always enough. *)

From S2P Require Import Prelude Paths Utf8 Fs Ignore Entries.

Definition FILE_STABLE_AGE : Z := 1000000000.
Definition FILE_STABILITY_PAUSE : Z := 250000000.
Definition FILE_STABILITY_ATTEMPTS : nat := 8.
Definition SCAN_CACHE_FILE : string := "scan-cache.bin".

Record ObservedFile : Set := mkObserved {
  ob_hash : Hash;
  ob_size : Z;
  ob_mode : option Z
}.

Record CachedFile : Set := mkCached {
  cf_size : Z;
  cf_mtime : Z;
  cf_hash : Hash
}.

#[export] Instance CachedFile_eq_dec : EqDecision CachedFile.
Proof. solve_decision. Defined.

Record ScanCache : Set := mkCache {
  sc_files : gmap string CachedFile;
  sc_dirty : bool
}.

Definition empty_cache : ScanCache := mkCache ∅ false.

(** [mode], on Unix. *)
Definition mode_of (m : Metadata) : option Z := Some (md_mode m).

Definition is_file (m : Metadata) : bool := bool_decide (md_type m = FtFile).
Definition is_dir (m : Metadata) : bool := bool_decide (md_type m = FtDir).
Definition is_symlink (m : Metadata) : bool := bool_decide (md_type m = FtSymlink).

Definition live_symlink (relative target : string) : Entry :=
  mkEntry relative Symlink None (Some target) 0 None placeholder_version.
Definition live_dir (relative : string) (md : option Z) : Entry :=
  mkEntry relative Dir None None 0 md placeholder_version.
Definition live_file (relative : string) (o : ObservedFile) : Entry :=
  mkEntry relative File (Some (ob_hash o)) None (ob_size o) (ob_mode o) placeholder_version.

(** [ScanCache::retain_paths]. *)
Definition retain_paths (seen : gset string) (c : ScanCache) : ScanCache :=
  let files := filter (λ kv : string * CachedFile, kv.1 ∈ seen) (sc_files c) in
  mkCache files (if decide (base.size files = base.size (sc_files c)) then sc_dirty c else true).

(** [ScanCache::record]. *)
Definition cache_record (relative : string) (sz : Z) (mtime : option Z) (hash : Hash)
    (c : ScanCache) : ScanCache :=
  match mtime with
  | None => c
  | Some mtime => mkCache (<[relative := mkCached sz mtime hash]> (sc_files c)) true
  end.

(** The serialisation of the cache by the [bincode] crate. *)
Class CacheCodec := {
  ser_cache : gmap string CachedFile → option string;
  de_cache : string → option (gmap string CachedFile)
}.

(** What a scan reads and writes. *)
Record ScanW (F : Type) : Type := mkScanW {
  sw_fs : F;
  sw_cache : ScanCache;
  sw_entries : gmap string Entry;
  sw_unstable : gset string
}.
Arguments mkScanW {F} _ _ _ _.
Arguments sw_fs {F} _.
Arguments sw_cache {F} _.
Arguments sw_entries {F} _.
Arguments sw_unstable {F} _.

Section Scan.
Context {F : Type} `{FsOps F} (blake3 : string → Hash).

Definition cache_load `{CacheCodec} (state_dir : string) : M F ScanCache :=
  (r <- m_try (fs_read (path_join state_dir SCAN_CACHE_FILE)) ;;
   m_ret (match r with
          | Ok bytes => match de_cache bytes with
                        | Some files => mkCache files false
                        | None => empty_cache
                        end
          | Err _ => empty_cache
          end))%m.

(** [ScanCache::save]: returns the cache with its new [dirty] flag. *)
Definition cache_save `{CacheCodec} (state_dir : string) (c : ScanCache) : M F ScanCache :=
  (if sc_dirty c then
     match ser_cache (sc_files c) with
     | Some bytes =>
         r <- m_try (write_atomic (path_join state_dir SCAN_CACHE_FILE) bytes) ;;
         m_ret (mkCache (sc_files c) (negb (is_ok r)))
     | None => m_ret c
     end
   else m_ret c)%m.

Definition is_recently_modified (m : Metadata) : M F bool :=
  match md_modified m with
  | None => m_ret false
  | Some modified =>
      (now <- m_now ;;
       m_ret ((modified <=? now) && (now - modified <? FILE_STABLE_AGE)))%m
  end.

Definition same_file_observation (left right : Metadata) : bool :=
  (md_len left =? md_len right)
  && bool_decide (md_modified left = md_modified right)
  && bool_decide (mode_of left = mode_of right).

(** [ScanCache::lookup]. *)
Definition cache_lookup (c : ScanCache) (relative : string) (m : Metadata) : M F (option Hash) :=
  (recent <- is_recently_modified m ;;
   m_ret (if recent : bool then None
          else cached ← sc_files c !! relative;
               mtime ← md_modified m;
               if (cf_size cached =? md_len m) && (cf_mtime cached =? mtime)
               then Some (cf_hash cached) else None))%m.

(** [hash_file]: the hasher is fed the file's bytes in order. *)
Definition hash_file (p : string) : M F Hash :=
  (bytes <- fs_read p ;; m_ret (blake3 bytes))%m.

(** [observe_file_when_stable]: [attempts] counts down from
    [FILE_STABILITY_ATTEMPTS]. *)
Fixpoint observe_loop (attempts : nat) (p : string) (before : Metadata)
    (wait_for_recent : bool) : M F (option ObservedFile) :=
  match attempts with
  | O => m_ret None
  | S rest =>
      (wait <- (if wait_for_recent then is_recently_modified before else m_ret false) ;;
       if wait : bool then
         m_sleep FILE_STABILITY_PAUSE ;;
         after_pause <- fs_symlink_metadata p ;;
         if is_file after_pause then observe_loop rest p after_pause wait_for_recent
         else m_ret None
       else
         content_hash <- hash_file p ;;
         after_hash <- fs_symlink_metadata p ;;
         if negb (is_file after_hash) then m_ret None
         else if same_file_observation before after_hash then
           m_ret (Some (mkObserved content_hash (md_len after_hash) (mode_of after_hash)))
         else
           (if (0 <? rest)%nat then m_sleep FILE_STABILITY_PAUSE else m_ret ()) ;;
           observe_loop rest p after_hash wait_for_recent)%m
  end.

Definition observe_file_when_stable (p : string) (before : Metadata) (wait_for_recent : bool)
  : M F (option ObservedFile) :=
  observe_loop FILE_STABILITY_ATTEMPTS p before wait_for_recent.

Definition read_supported_symlink (p : string) : M F (option string) :=
  (target <- fs_read_link p ;;
   m_ret (target ← to_str target;
          match validate_symlink_target target with Ok _ => Some target | Err _ => None end))%m.

Definition relative_path (root p : string) : IoResult string :=
  match strip_components (path_components root) (path_components p) with
  | Some cs => Ok (join "/" ((λ c, to_string_lossy (component_name c)) <$> cs))
  | None => Err InvalidInput
  end.

Definition normalize_event_path (p : string) : M F (option string) :=
  match path_parent p with
  | None => (r <- m_try (fs_canonicalize p) ;;
             m_ret (match r with Ok q => Some q | Err _ => None end))%m
  | Some parent =>
      (r <- m_try (fs_canonicalize parent) ;;
       m_ret (match r with
              | Ok q => Some (path_join q (default "" (path_file_name p)))
              | Err _ => None
              end))%m
  end.

(** [observe_file_cached]: [&mut cache] is threaded with the file system. *)
Definition observe_file_cached (p relative : string) (m : Metadata) (wait_for_recent : bool)
  : M (F * ScanCache) (option ObservedFile) :=
  let fs {A} : M F A → M (F * ScanCache) A := m_zoom fst (λ f s, (f, s.2)) in
  (c <- m_gets snd ;;
   hit <- fs (cache_lookup c relative m) ;;
   match hit with
   | Some hash => m_ret (Some (mkObserved hash (md_len m) (mode_of m)))
   | None =>
       observed <- fs (observe_file_when_stable p m wait_for_recent) ;;
       match observed with
       | None => m_ret None
       | Some o =>
           r <- fs (m_try (fs_symlink_metadata p)) ;;
           let mtime := match r with Ok m' => md_modified m' | Err _ => None end in
           m_modify (λ s, (s.1, cache_record relative (ob_size o) mtime (ob_hash o) s.2)) ;;
           m_ret (Some o)
       end
   end)%m.

Definition sw_lift {A} : M F A → M (ScanW F) A :=
  m_zoom sw_fs (λ f s, mkScanW f (sw_cache s) (sw_entries s) (sw_unstable s)).
Definition sw_lift_cache {A} : M (F * ScanCache) A → M (ScanW F) A :=
  m_zoom (λ s, (sw_fs s, sw_cache s))
    (λ fc s, mkScanW fc.1 fc.2 (sw_entries s) (sw_unstable s)).
Definition sw_insert (e : Entry) : M (ScanW F) () :=
  m_modify (λ s, mkScanW (sw_fs s) (sw_cache s) (<[path e := e]> (sw_entries s)) (sw_unstable s)).
Definition sw_mark_unstable (relative : string) : M (ScanW F) () :=
  m_modify (λ s, mkScanW (sw_fs s) (sw_cache s) (sw_entries s) ({[relative]} ∪ sw_unstable s)).

(** [for child in fs::read_dir(dir)? { children.push(child?.path()) }] *)
Fixpoint children_names (l : list (IoResult string)) : IoResult (list string) :=
  match l with
  | [] => Ok []
  | Err e :: _ => Err e
  | Ok n :: l => match children_names l with Ok ns => Ok (n :: ns) | Err e => Err e end
  end.

(** [scan_dir].  The children's paths share the directory's components, so
    sorting them is sorting their names. *)
Fixpoint scan_dir (fuel : nat) (root dir : string) (ignore_patterns : list IgnorePattern)
  : M (ScanW F) () :=
  match fuel with
  | O => m_err OtherError
  | S fuel =>
      (listing <- sw_lift (fs_read_dir dir) ;;
       names <- m_lift (children_names listing) ;;
       m_for (sort_keys names) (λ name,
         let p := path_join dir name in
         relative <- m_lift (relative_path root p) ;;
         if should_ignore relative ignore_patterns then m_ret ()
         else
           metadata <- sw_lift (fs_symlink_metadata p) ;;
           if is_symlink metadata then
             target <- sw_lift (read_supported_symlink p) ;;
             match target with
             | Some target => sw_insert (live_symlink relative target)
             | None => m_ret ()
             end
           else if is_dir metadata then
             sw_insert (live_dir relative (mode_of metadata)) ;;
             scan_dir fuel root p ignore_patterns
           else if is_file metadata then
             observed <- sw_lift_cache (observe_file_cached p relative metadata false) ;;
             match observed with
             | None => sw_mark_unstable relative
             | Some o => sw_insert (live_file relative o)
             end
           else m_ret ()))%m
  end.

(** [scan_folder]: entries, unstable paths. *)
Definition scan_folder (root : string)
  : M (F * ScanCache) (gmap string Entry * gset string) :=
  (ignore_patterns <- m_zoom fst (λ f s, (f, s.2)) (load_ignore_patterns root) ;;
   λ s, let '(w, r) := scan_dir path_max root root ignore_patterns
                         (mkScanW s.1 s.2 ∅ ∅) in
        ((sw_fs w, sw_cache w),
         match r with Ok _ => Ok (sw_entries w, sw_unstable w) | Err e => Err e end))%m.

End Scan.
