(* ===== verification/ScanInv.v ===== *)
(** * What a scan reports

    Every entry a scan reports is well-formed, whatever the file system answers:
    it is keyed by its own path, it is not ignored, it is a file with a hash, a
    directory or a symlink with an acceptable target, and its version is the
    placeholder.  And the depth fuel is never the reason a walk stops. *)

From S2P Require Import Prelude Paths Utf8 Fs Ignore Entries Scan.

(** An entry as a scan produces it. *)
Definition observed (e : Entry) : Prop :=
  version e = placeholder_version ∧
  match kind e with
  | File => is_Some (content_hash e) ∧ symlink_target e = None
  | Dir => content_hash e = None ∧ symlink_target e = None
  | Symlink => ∃ target, symlink_target e = Some target ∧
                         validate_symlink_target target = Ok () ∧ is_utf8 target = true
  | Tombstone => False
  end.

Definition scan_ok (pats : list IgnorePattern) (es : gmap string Entry) : Prop :=
  map_Forall (λ k e, path e = k ∧ observed e ∧ should_ignore k pats = false) es.

(** A computation that keeps a property of the state, whatever its result. *)
Definition m_inv {S A} (I : S → Prop) (c : M S A) : Prop := ∀ s, I s → I (c s).1.

Lemma m_inv_bind {S A B} (I : S → Prop) (c : M S A) (f : A → M S B) :
  m_inv I c → (∀ a, m_inv I (f a)) → m_inv I (m_bind c f).
Proof.
  intros Hc Hf s Hs. unfold m_bind. specialize (Hc s Hs).
  destruct (c s) as [s' [a|e]]; [by apply Hf|done].
Qed.

(** The same, when the continuation relies on what [c] returned. *)
Lemma m_inv_bind_post {S A B} (I : S → Prop) (P : A → Prop) (c : M S A) (f : A → M S B) :
  m_inv I c → (∀ s s' a, c s = (s', Ok a) → P a) → (∀ a, P a → m_inv I (f a)) →
  m_inv I (m_bind c f).
Proof.
  intros Hc HP Hf s Hs. unfold m_bind. specialize (Hc s Hs). specialize (HP s).
  destruct (c s) as [s' [a|e]]; [|done]. apply Hf; [by eapply HP|done].
Qed.

Lemma m_inv_ret {S A} (I : S → Prop) (a : A) : m_inv I (m_ret a).
Proof. by intros s. Qed.

Lemma m_inv_err {S A} (I : S → Prop) e : m_inv I (m_err (A:=A) e).
Proof. by intros s. Qed.

Lemma m_inv_lift {S A} (I : S → Prop) (r : IoResult A) : m_inv I (m_lift r).
Proof. by intros s. Qed.

Lemma m_inv_for {S A} (I : S → Prop) (l : list A) (body : A → M S ()) :
  (∀ a, a ∈ l → m_inv I (body a)) → m_inv I (m_for l body).
Proof.
  induction l as [|a l IH]; intros Hb; simpl; [apply m_inv_ret|].
  apply m_inv_bind; [apply Hb; left|]. intros _. apply IH. intros b Hin. apply Hb. by right.
Qed.

Section ScanInv.
Context {F : Type} `{FsOps F} (blake3 : string → Hash).

Definition sw_ok (pats : list IgnorePattern) (s : ScanW F) : Prop :=
  scan_ok pats (sw_entries s).

Lemma sw_lift_ok {A} pats (c : M F A) : m_inv (sw_ok pats) (sw_lift c).
Proof. intros s Hs. unfold sw_lift, m_zoom. by destruct (c (sw_fs s)). Qed.

Lemma sw_lift_cache_ok {A} pats (c : M (F * ScanCache) A) :
  m_inv (sw_ok pats) (sw_lift_cache c).
Proof. intros s Hs. unfold sw_lift_cache, m_zoom. by destruct (c _). Qed.

Lemma sw_unstable_ok pats p : m_inv (sw_ok pats) (sw_mark_unstable (F:=F) p).
Proof. by intros s. Qed.

Lemma sw_insert_ok pats e :
  observed e → should_ignore (path e) pats = false → m_inv (sw_ok pats) (sw_insert (F:=F) e).
Proof. intros He Hig s Hs. by apply map_Forall_insert_2. Qed.

Lemma live_dir_observed p md : observed (live_dir p md).
Proof. done. Qed.

Lemma live_file_observed p o : observed (live_file p o).
Proof. split; [done|]. simpl. eauto. Qed.

(** A symlink is reported only with a valid target. *)
Lemma read_supported_symlink_valid p (s s' : F) target :
  read_supported_symlink p s = (s', Ok (Some target)) →
  validate_symlink_target target = Ok () ∧ is_utf8 target = true.
Proof.
  unfold read_supported_symlink, m_bind, m_ret, to_str.
  destruct (fs_read_link p s) as [s1 [t|e]]; [|done].
  intros [= _ Heq]. destruct (is_utf8 t) eqn:Eu; [|done]. simpl in Heq.
  destruct (validate_symlink_target t) as [[]|] eqn:Ev; [|done]. by simplify_eq.
Qed.

Lemma scan_dir_ok fuel root dir pats : m_inv (sw_ok pats) (scan_dir blake3 fuel root dir pats).
Proof.
  revert dir. induction fuel as [|fuel IH]; intros dir; simpl; [apply m_inv_err|].
  apply m_inv_bind; [apply sw_lift_ok|]. intros listing.
  apply m_inv_bind; [apply m_inv_lift|]. intros names.
  apply m_inv_for. intros name _.
  apply m_inv_bind; [apply m_inv_lift|]. intros relative.
  destruct (should_ignore relative pats) eqn:Eig; [apply m_inv_ret|].
  apply m_inv_bind; [apply sw_lift_ok|]. intros md.
  destruct (is_symlink md).
  - apply (m_inv_bind_post _ (λ t, match t with
      | Some t => validate_symlink_target t = Ok () ∧ is_utf8 t = true | None => True end));
      [apply sw_lift_ok| |].
    + intros s s' [t|]; [|done]. unfold sw_lift, m_zoom.
      destruct (read_supported_symlink _ _) as [f r] eqn:E. intros [= _ ->].
      by eapply read_supported_symlink_valid.
    + intros [t|] Ht; [|apply m_inv_ret]. apply sw_insert_ok; [|done].
      split; [done|]. by exists t.
  - destruct (is_dir md).
    + apply m_inv_bind; [by apply sw_insert_ok|]. intros _. apply IH.
    + destruct (is_file md); [|apply m_inv_ret].
      apply m_inv_bind; [apply sw_lift_cache_ok|]. intros [o|]; [|apply sw_unstable_ok].
      apply sw_insert_ok; [apply live_file_observed|done].
Qed.

Lemma scan_ok_empty pats : scan_ok pats ∅.
Proof. apply map_Forall_empty. Qed.

(** [scan_folder] under the patterns it loads itself. *)
Lemma scan_folder_ok root s s' live unstable :
  scan_folder blake3 root s = (s', Ok (live, unstable)) →
  ∃ pats, scan_ok pats live.
Proof.
  unfold scan_folder, m_bind.
  destruct (m_zoom fst _ _ s) as [s1 [pats|e]]; [|done].
  pose proof (scan_dir_ok path_max root root pats (mkScanW s1.1 s1.2 ∅ ∅)
    (scan_ok_empty pats)) as Hok.
  destruct (scan_dir _ _ _ _ _ _) as [w [[]|e]]; [|done]. intros [= _ <- _].
  by exists pats.
Qed.

End ScanInv.

(** ** The fuel of the walk *)

Lemma m_bind_ext {S A B} (c : M S A) (f g : A → M S B) s :
  (∀ a s', c s = (s', Ok a) → f a s' = g a s') → m_bind c f s = m_bind c g s.
Proof. intros Hfg. unfold m_bind. destruct (c s) as [s' [a|e]]; auto. Qed.

Lemma m_for_ext {S A} (l : list A) (f g : A → M S ()) s :
  (∀ a s, a ∈ l → f a s = g a s) → m_for l f s = m_for l g s.
Proof.
  revert s. induction l as [|a l IH]; intros s Hfg; simpl; [done|].
  unfold m_bind. rewrite Hfg by left. destruct (g a s) as [s' [[]|e]]; [|done].
  apply IH. intros b s'' Hb. apply Hfg. by right.
Qed.

(** A child's path is longer than its directory's. *)
Lemma path_join_longer p n :
  n ≠ "" → is_absolute n = false → p ≠ "" → (strlen p < strlen (path_join p n))%nat.
Proof.
  intros Hn Hrel Hp. unfold path_join. rewrite Hrel, decide_False by done.
  assert (0 < strlen n)%nat by (destruct n; [done|simpl; lia]).
  destruct (ends_with slash p); rewrite !strlen_append; simpl; lia.
Qed.

Lemma children_names_elem l names n :
  children_names l = Ok names → n ∈ names → Ok n ∈ l.
Proof.
  revert names. induction l as [|[m|e] l IH]; intros names; simpl.
  - by intros [= <-] ?%elem_of_nil.
  - destruct (children_names l) as [ns|e] eqn:E; [|done].
    intros [= <-] [->|Hin]%elem_of_cons; [left|right; by apply (IH ns)].
  - done.
Qed.

Section Fuel.
Context {F : Type} `{FsBounded F} (blake3 : string → Hash).

Lemma sw_read_dir_child dir s s' listing names name :
  sw_lift (fs_read_dir dir) s = (s', Ok listing) → children_names listing = Ok names →
  name ∈ names → (strlen dir < path_max)%nat ∧ name ≠ "" ∧ is_absolute name = false.
Proof.
  unfold sw_lift, m_zoom. destruct (fs_read_dir dir (sw_fs s)) as [f r] eqn:Er.
  intros [= _ ->] Hn Hin. split; [by eapply read_dir_bounded|].
  eapply read_dir_names; [exact Er|]. by eapply children_names_elem.
Qed.

(** Any fuel that covers the rest of [path_max] gives the same walk. *)
Lemma scan_dir_fuel n m root dir pats s :
  dir ≠ "" → (path_max < n + strlen dir)%nat → (path_max < m + strlen dir)%nat →
  (0 < n)%nat → (0 < m)%nat →
  scan_dir blake3 n root dir pats s = scan_dir blake3 m root dir pats s.
Proof.
  revert m dir s. induction n as [|n IH]; intros [|m] dir s Hd Hn Hm Hn0 Hm0; [lia..|].
  cbn [scan_dir]. apply m_bind_ext. intros listing s1 El.
  apply m_bind_ext. intros names s2 En. injection En as _ En.
  apply m_for_ext. intros name s3 Hin. rewrite elem_of_sort_keys in Hin.
  destruct (sw_read_dir_child dir s s1 listing names name El En Hin) as (Hlen & Hne & Hrel).
  pose proof (path_join_longer dir name Hne Hrel Hd) as Hlonger.
  assert (path_join dir name ≠ "") as Hne' by (intros Heq; rewrite Heq in Hlonger; simpl in Hlonger; lia).
  apply m_bind_ext. intros relative s4 _. destruct (should_ignore relative pats); [done|].
  apply m_bind_ext. intros md s5 _. destruct (is_symlink md); [done|].
  destruct (is_dir md); [|done].
  apply m_bind_ext. intros _ s6 _.
  apply IH; [done|lia..].
Qed.

End Fuel.
