(* ===== verification/Tree.v ===== *)
(** * The Merkle tree: [src/src/tree.rs]

    [TreeNode], [TreeSnapshot], the hash encodings, the full derivation
    [derive_tree_with] and the incremental [update_tree_snapshot], written as
    the loops of the source.  BLAKE3 is a parameter: a [Hasher] is the byte
    string absorbed so far and [finalize] applies [blake3] to it.  The theorems
    about these definitions are in [TreeSpec], [TreeUpdate] and [TreeHash]. *)

From S2P Require Import Prelude Paths Bytes Entries.

Record TreeNode : Set := mkNode {
  tn_prefix : string;
  tn_entries : gmap string Hash;
  tn_children : gmap string Hash;
  tn_hash : Hash
}.

Record TreeSnapshot : Set := mkSnapshot {
  root_hash : Hash;
  nodes : gmap string TreeNode
}.

#[export] Instance TreeNode_eq_dec : EqDecision TreeNode.
Proof. solve_decision. Defined.
#[export] Instance TreeSnapshot_eq_dec : EqDecision TreeSnapshot.
Proof. solve_decision. Defined.

(** [[0; 32]]. *)
Definition zero_hash : Hash := be_bytes 32 0.

(** ** Encodings *)

Definition encode_opt_hash (v : option Hash) : string :=
  match v with
  | Some h => String (byte_of 1) h
  | None => String (byte_of 0) ""
  end.

Definition encode_opt_str (v : option string) : string :=
  match v with
  | Some s => String (byte_of 1) (encode_str s)
  | None => String (byte_of 0) ""
  end.

Definition encode_opt_u32 (v : option Z) : string :=
  match v with
  | Some n => String (byte_of 1) (be32 n)
  | None => String (byte_of 0) ""
  end.

(** The bytes [hash_entry] feeds to the hasher. *)
Definition entry_preimage (e : Entry) : string :=
  encode_str "lil-entry-v1" +:+
  encode_str (path e) +:+
  encode_str (as_str (kind e)) +:+
  encode_opt_hash (content_hash e) +:+
  encode_opt_str (symlink_target e) +:+
  be64 (size e) +:+
  encode_opt_u32 (mode e) +:+
  be64 (lamport (version e)) +:+
  encode_str (origin (version e)).

(** One [for (name, hash) in ..] loop of [hash_node]. *)
Fixpoint encode_named (tag : string) (items : list (string * Hash)) : string :=
  match items with
  | [] => ""
  | (name, h) :: items =>
      encode_str tag +:+ encode_str name +:+ h +:+ encode_named tag items
  end.

(** The bytes [hash_node] feeds to the hasher. *)
Definition node_preimage (prefix : string) (entries children : gmap string Hash)
    : string :=
  "lil-node-v1" +:+
  encode_str prefix +:+
  encode_named "entry" (btree_items entries) +:+
  encode_named "child" (btree_items children).

(** ** Loops over entries *)

Section Tree.
Context (blake3 : string → Hash).

Definition hash_entry (e : Entry) : Hash := blake3 (entry_preimage e).

Definition hash_node (prefix : string) (entries children : gmap string Hash)
    : Hash :=
  blake3 (node_preimage prefix entries children).

(** [tree_node_hash]. *)
Definition tree_node_hash (n : TreeNode) : Hash :=
  hash_node (tn_prefix n) (tn_entries n) (tn_children n).

(** [TreeSnapshot::empty]. *)
Definition empty_snapshot : TreeSnapshot :=
  let root := hash_node "/" ∅ ∅ in
  {| root_hash := root; nodes := {[ "" := mkNode "/" ∅ ∅ root ]} |}.

(** *** [derive_tree_with] *)

(** The first loop: the set of prefixes that get a node. *)
Definition node_paths_step (include : Entry → bool)
    (acc : gset string) (e : Entry) : gset string :=
  if include e then
    let acc := foldl (λ a p, {[p]} ∪ a) acc (ancestors (path e)) in
    if decide (kind e = Dir) then {[path e]} ∪ acc else acc
  else acc.

Definition node_paths (include : Entry → bool) (entries : gmap string Entry)
    : gset string :=
  foldl (node_paths_step include) {[""]} (btree_values entries).

Definition blank_node (p : string) : TreeNode :=
  mkNode (display_prefix p) ∅ ∅ zero_hash.

(** The second loop: one blank node per prefix. *)
Definition blank_partials (paths : gset string) : gmap string TreeNode :=
  foldl (λ m p, <[p := blank_node p]> m) ∅ (bset_elems paths).

Definition add_entry_hash (e : Entry) (n : TreeNode) : TreeNode :=
  mkNode (tn_prefix n) (<[basename (path e) := hash_entry e]> (tn_entries n))
    (tn_children n) (tn_hash n).

(** The third loop: every included entry goes to its parent's node. *)
Definition partials_step (include : Entry → bool)
    (partials : gmap string TreeNode) (e : Entry) : gmap string TreeNode :=
  if include e then
    match partials !! parent_path (path e) with
    | Some node => <[parent_path (path e) := add_entry_hash e node]> partials
    | None => partials
    end
  else partials.

(** [m.entry(k).or_default().push(x)]. *)
Definition push_at {A} (k : string) (x : A) (m : gmap string (list A))
    : gmap string (list A) :=
  <[k := default [] (m !! k) ++ [x]]> m.

(** The fourth loop: child prefixes grouped by parent. *)
Definition children_of (paths : gset string) : gmap string (list string) :=
  foldl (λ m c, if decide (c = "") then m else push_at (parent_path c) c m)
    ∅ (bset_elems paths).

(** The inner loop of the hash pass. *)
Definition collect_children (get : string → option Hash) (cs : list string)
    : gmap string Hash :=
  foldl (λ acc c, match get c with
                  | Some h => <[basename c := h]> acc
                  | None => acc
                  end) ∅ cs.

(** One step of the bottom-up hash pass.  The source's [expect] on the
    missing node is the [None] branch, never taken ([derive_pass_some]). *)
Definition derive_step (kids : gmap string (list string))
    (st : gmap string TreeNode * gmap string Hash) (p : string)
    : gmap string TreeNode * gmap string Hash :=
  let '(partials, hashes) := st in
  let children := collect_children (λ c, hashes !! c) (default [] (kids !! p)) in
  match partials !! p with
  | Some node =>
      let h := hash_node (tn_prefix node) (tn_entries node) children in
      (<[p := mkNode (tn_prefix node) (tn_entries node) children h]> partials,
       <[p := h]> hashes)
  | None => (partials, hashes)
  end.

Definition derive_tree_with (include : Entry → bool)
    (entries : gmap string Entry) : TreeSnapshot :=
  let paths := node_paths include entries in
  let partials := foldl (partials_step include) (blank_partials paths)
                    (btree_values entries) in
  let kids := children_of paths in
  let '(partials, hashes) :=
    foldl (derive_step kids) (partials, ∅) (reverse (bset_elems paths)) in
  {| root_hash := default zero_hash (hashes !! ""); nodes := partials |}.

Definition include_all (e : Entry) : bool := true.
Definition include_live (e : Entry) : bool := bool_decide (kind e ≠ Tombstone).

Definition derive_tree (entries : gmap string Entry) : TreeSnapshot :=
  derive_tree_with include_all entries.
Definition derive_live_tree (entries : gmap string Entry) : TreeSnapshot :=
  derive_tree_with include_live entries.

(** *** [update_tree_snapshot] *)

Definition extend_set (s : gset string) (l : list string) : gset string :=
  foldl (λ a p, {[p]} ∪ a) s l.

(** The first loop: changed paths and their ancestors. *)
Definition dirty_changed (changed : list string) : gset string :=
  foldl (λ d p, extend_set ({[p]} ∪ d) (ancestors p)) ∅ changed.

(** The second loop: below a changed path that is a node but no longer
    included, every existing node is dirty. *)
Definition dirty_descendants_step (include : Entry → bool) (snap : TreeSnapshot)
    (entries : gmap string Entry) (dirty : gset string) (p : string)
    : gset string :=
  match nodes snap !! p with
  | None => dirty
  | Some _ =>
      if match entries !! p with Some e => include e | None => false end
      then dirty
      else
        let descendants :=
          filter (λ k, starts_with (p +:+ "/") k = true) (btree_keys (nodes snap)) in
        foldl (λ d desc, {[desc]} ∪ extend_set d (ancestors desc)) dirty descendants
  end.

Definition dirty_set (include : Entry → bool) (snap : TreeSnapshot)
    (entries : gmap string Entry) (changed : list string) : gset string :=
  foldl (dirty_descendants_step include snap entries) (dirty_changed changed) changed.

(** The third loop: included entries grouped by parent. *)
Definition by_parent (include : Entry → bool) (entries : gmap string Entry)
    : gmap string (list Entry) :=
  foldl (λ m e, if include e then push_at (parent_path (path e)) e m else m)
    ∅ (btree_values entries).

(** The fourth loop: a child index over existing nodes and dirty paths. *)
Definition child_keys (snap : TreeSnapshot) (dirty : gset string)
    : gmap string (gset string) :=
  foldl (λ m k, if decide (k = "") then m
                else <[parent_path k := {[k]} ∪ default ∅ (m !! parent_path k)]> m)
    ∅ (btree_keys (nodes snap) ++ bset_elems dirty).

(** One step of the bottom-up pass over the dirty prefixes. *)
Definition update_step (by_par : gmap string (list Entry))
    (kids : gmap string (gset string)) (ns : gmap string TreeNode) (p : string)
    : gmap string TreeNode :=
  let direct_entries : gmap string Hash :=
    match by_par !! p with
    | Some es => foldl (λ m e, <[basename (path e) := hash_entry e]> m) ∅ es
    | None => ∅
    end in
  let direct_children :=
    match kids !! p with
    | Some ks => collect_children (λ k, tn_hash <$> ns !! k) (bset_elems ks)
    | None => ∅
    end in
  if decide (p = "" ∨ direct_entries ≠ ∅ ∨ direct_children ≠ ∅) then
    let prefix := display_prefix p in
    <[p := mkNode prefix direct_entries direct_children
             (hash_node prefix direct_entries direct_children)]> ns
  else delete p ns.

Definition update_tree_snapshot (snap : TreeSnapshot)
    (entries : gmap string Entry) (changed : list string)
    (include : Entry → bool) : TreeSnapshot :=
  let dirty := dirty_set include snap entries changed in
  let by_par := by_parent include entries in
  let kids := child_keys snap dirty in
  let ns := foldl (update_step by_par kids) (nodes snap)
              (reverse (bset_elems dirty)) in
  {| root_hash := default zero_hash (tn_hash <$> ns !! ""); nodes := ns |}.
End Tree.
