(* ===== verification/TreeSpec.v ===== *)
(** * What a tree snapshot is

    A declarative description of the snapshots of [Tree]: which prefixes have a
    node, and what each node holds ([tree_ok]).  [derive_tree_with] produces the
    only snapshot that satisfies it.  The lemmas on grouping loops and on
    bottom-up passes are shared with [TreeUpdate]. *)

From S2P Require Import Prelude Paths Bytes Entries Tree.

(** ** Grouping loops *)

Lemma elem_of_extend_set x s l : x ∈ extend_set s l ↔ x ∈ s ∨ x ∈ l.
Proof.
  unfold extend_set. revert s. induction l as [|a l IH]; intros s; simpl.
  - set_solver.
  - rewrite IH. set_solver.
Qed.

Lemma group_lookup {A} (skip : A → Prop) `{∀ a, Decision (skip a)}
    (key : A → string) l m k :
  default [] (foldl (λ m a, if decide (skip a) then m else push_at (key a) a m) m l !! k)
  = default [] (m !! k) ++ filter (λ a, ¬ skip a ∧ key a = k) l.
Proof.
  revert m. induction l as [|a l IH]; intros m; simpl.
  - by rewrite app_nil_r.
  - rewrite IH. clear IH. destruct (decide (skip a)).
    + rewrite filter_cons_False; [done|naive_solver].
    + unfold push_at. destruct (decide (key a = k)) as [<-|Hne].
      * rewrite lookup_insert_eq, filter_cons_True by done. simpl.
        by rewrite <-app_assoc.
      * rewrite lookup_insert_ne by done.
        rewrite filter_cons_False; [done|naive_solver].
Qed.

(** ** The specification *)

(** Included entries whose parent is [p], in key order. *)
Definition entries_at (include : Entry → bool) (entries : gmap string Entry)
    (p : string) : gmap string Entry :=
  filter (λ ke : string * Entry,
    include ke.2 = true ∧ parent_path (path ke.2) = p) entries.

(** Prefixes of [d] that are children of [p], in key order. *)
Definition child_list (d : gset string) (p : string) : list string :=
  filter (λ k, k ≠ "" ∧ parent_path k = p) (bset_elems d).

Section Spec.
Context (blake3 : string → Hash).

Definition hash_entries (es : list Entry) : gmap string Hash :=
  foldl (λ m e, <[basename (path e) := hash_entry blake3 e]> m) ∅ es.

Definition direct_entries include entries p : gmap string Hash :=
  hash_entries (btree_values (entries_at include entries p)).

Definition direct_children (ns : gmap string TreeNode) (p : string)
    : gmap string Hash :=
  collect_children (λ c, tn_hash <$> ns !! c) (child_list (dom ns) p).

Definition make_node (p : string) (es cs : gmap string Hash) : TreeNode :=
  mkNode (display_prefix p) es cs (hash_node blake3 (display_prefix p) es cs).

(** Each node holds exactly its direct entries and child hashes. *)
Definition nodes_ok include entries (ns : gmap string TreeNode) : Prop :=
  ∀ p n, ns !! p = Some n →
    n = make_node p (direct_entries include entries p) (direct_children ns p).

Record tree_ok include entries (t : TreeSnapshot) : Prop := {
  tree_ok_dom : dom (nodes t) = node_paths include entries;
  tree_ok_nodes : nodes_ok include entries (nodes t);
  tree_ok_root : tn_hash <$> nodes t !! "" = Some (root_hash t)
}.

(** What the trees of a running node keep, empty directories aside: nodes are
    exact, every prefix above an included entry has one, and only the prefixes
    of the index do. *)
Record tree_sound include entries (t : TreeSnapshot) : Prop := {
  tree_sound_dom : dom (nodes t) ⊆ node_paths include entries;
  tree_sound_above k e p :
    entries !! k = Some e → include e = true → p ∈ ancestors (path e) → p ∈ dom (nodes t);
  tree_sound_nodes : nodes_ok include entries (nodes t);
  tree_sound_root : tn_hash <$> nodes t !! "" = Some (root_hash t)
}.
End Spec.

Lemma filter_values {V} (P : V → Prop) `{∀ x, Decision (P x)} (m : gmap string V) :
  filter P (btree_values m) = btree_values (filter (λ kv, P kv.2) m).
Proof.
  unfold btree_values. rewrite <-filter_btree_items.
  induction (btree_items m) as [|[k v] l IH]; [done|].
  rewrite fmap_cons, !filter_cons. simpl.
  case_decide; rewrite ?fmap_cons; by rewrite IH.
Qed.

Lemma entries_at_values include entries p :
  filter (λ e, include e = true ∧ parent_path (path e) = p) (btree_values entries) =
    btree_values (entries_at include entries p).
Proof. unfold entries_at. by rewrite filter_values. Qed.

Lemma elem_of_child_list d p c :
  c ∈ child_list d p ↔ c ∈ d ∧ c ≠ "" ∧ parent_path c = p.
Proof.
  unfold child_list. rewrite list_elem_of_filter, elem_of_bset_elems. naive_solver.
Qed.

Lemma child_list_ext d d' p :
  (∀ c, c ≠ "" → parent_path c = p → c ∈ d ↔ c ∈ d') → child_list d p = child_list d' p.
Proof.
  intros Hd. apply sorted_keys_ext.
  1,2: apply StronglySorted_filter_list, bset_elems_sorted.
  1,2: apply NoDup_filter, NoDup_bset_elems.
  intros c. rewrite !elem_of_child_list. naive_solver.
Qed.

(** *** The node set *)

(** The prefixes an included entry contributes. *)
Definition entry_prefix (e : Entry) (p : string) : Prop :=
  p ∈ ancestors (path e) ∨ (kind e = Dir ∧ p = path e).

Lemma elem_of_node_paths_step include acc e p :
  p ∈ node_paths_step include acc e ↔
    p ∈ acc ∨ (include e = true ∧ entry_prefix e p).
Proof.
  unfold node_paths_step, entry_prefix.
  fold (extend_set acc (ancestors (path e))).
  destruct (include e); [|naive_solver].
  case_decide; rewrite ?elem_of_union, ?elem_of_singleton, elem_of_extend_set;
    naive_solver.
Qed.

Lemma elem_of_node_paths_fold include l acc p :
  p ∈ foldl (node_paths_step include) acc l ↔
    p ∈ acc ∨ ∃ e, e ∈ l ∧ include e = true ∧ entry_prefix e p.
Proof.
  revert acc. induction l as [|e l IH]; intros acc; simpl.
  { setoid_rewrite elem_of_nil. naive_solver. }
  rewrite IH, elem_of_node_paths_step. setoid_rewrite elem_of_cons. naive_solver.
Qed.

Lemma elem_of_node_paths include entries p :
  p ∈ node_paths include entries ↔
    p = "" ∨ ∃ k e, entries !! k = Some e ∧ include e = true ∧ entry_prefix e p.
Proof.
  unfold node_paths. rewrite elem_of_node_paths_fold, elem_of_singleton.
  setoid_rewrite elem_of_btree_values. naive_solver.
Qed.

Lemma entry_prefix_trans e p q : q ∈ ancestors p → entry_prefix e p → entry_prefix e q.
Proof.
  unfold entry_prefix. intros Hq [Hp|[_ ->]]; [|auto].
  left. by eapply ancestors_trans.
Qed.

Lemma node_paths_parent include entries p :
  p ∈ node_paths include entries → parent_path p ∈ node_paths include entries.
Proof.
  rewrite !elem_of_node_paths. intros [->|(k & e & Hk & Hi & Hp)]; [by left|].
  right. exists k, e. split_and!; [done..|]. eapply entry_prefix_trans; [|done]. auto.
Qed.

(** *** Children maps *)

Lemma collect_children_ext get get' l :
  (∀ c, c ∈ l → get c = get' c) → collect_children get l = collect_children get' l.
Proof.
  unfold collect_children. generalize (∅ : gmap string Hash).
  induction l as [|c l IH]; intros m Hl; simpl; [done|].
  rewrite (Hl c) by (by left). apply IH. intros c' ?. apply Hl. by right.
Qed.

(** Prefixes without a node do not contribute. *)
Lemma collect_children_filter get l :
  collect_children get l = collect_children get (filter (λ c, is_Some (get c)) l).
Proof.
  unfold collect_children. generalize (∅ : gmap string Hash).
  induction l as [|c l IH]; intros m; [done|]. rewrite filter_cons. simpl.
  destruct (get c) as [h|] eqn:E.
  - rewrite decide_True by done. simpl. by rewrite E.
  - rewrite decide_False by (by intros [? ?]). done.
Qed.

Lemma collect_children_dom get l n :
  is_Some (collect_children get l !! n) ↔
    ∃ c, c ∈ l ∧ basename c = n ∧ is_Some (get c).
Proof.
  assert (∀ m : gmap string Hash, is_Some (foldl (λ acc c, match get c with
      | Some h => <[basename c := h]> acc | None => acc end) m l !! n) ↔
    is_Some (m !! n) ∨ ∃ c, c ∈ l ∧ basename c = n ∧ is_Some (get c)) as Hm.
  { induction l as [|c l IH]; intros m; simpl.
    { setoid_rewrite elem_of_nil. naive_solver. }
    rewrite IH. setoid_rewrite elem_of_cons. destruct (get c) as [h|] eqn:E.
    - rewrite lookup_insert_is_Some'. naive_solver.
    - assert (¬ is_Some (get c)) by (rewrite E; by intros [? ?]). naive_solver. }
  unfold collect_children. rewrite Hm, lookup_empty.
  split; [|naive_solver]. by intros [[? ?]|?].
Qed.

Lemma collect_children_nonempty get l c :
  c ∈ l → is_Some (get c) → collect_children get l ≠ ∅.
Proof.
  intros Hc Hg Hemp.
  assert (is_Some (collect_children get l !! basename c)) as [? Hs].
  { apply collect_children_dom. eauto. }
  by rewrite Hemp, lookup_empty in Hs.
Qed.

(** ** Bottom-up passes

    A pass visits each prefix once, children first, and recomputes its value
    from the current values of its children; afterwards every visited prefix
    holds the value computed from the final map. *)

Section Pass.
Context {V : Type} (f : gmap string V → string → option V).

Definition pass (ns : gmap string V) (l : list string) : gmap string V :=
  foldl (λ ns p, partial_alter (λ _, f ns p) p ns) ns l.

Lemma pass_other ns l p : p ∉ l → pass ns l !! p = ns !! p.
Proof.
  revert ns. induction l as [|q l IH]; intros ns Hp; [done|]. simpl.
  apply not_elem_of_cons in Hp as [Hne Hp]. unfold pass in *. simpl.
  rewrite IH by done. by rewrite lookup_partial_alter_ne.
Qed.

(** [f] looks only at the children of the prefix it computes. *)
Definition local_at_children : Prop := ∀ ns ns' p,
  (∀ c, c ≠ "" → parent_path c = p → ns !! c = ns' !! c) → f ns p = f ns' p.

Lemma pass_app ns l1 l2 : pass ns (l1 ++ l2) = pass (pass ns l1) l2.
Proof. apply foldl_app. Qed.

Lemma pass_cons ns p l :
  pass ns (p :: l) = pass (partial_alter (λ _, f ns p) p ns) l.
Proof. done. Qed.

Lemma pass_fix ns d p :
  local_at_children → p ∈ d →
  let res := pass ns (reverse (bset_elems d)) in res !! p = f res p.
Proof.
  intros Hloc Hp%elem_of_bset_elems. simpl.
  apply list_elem_of_split in Hp as (lo & hi & Heq).
  pose proof (bset_elems_sorted d) as Hs. pose proof (NoDup_bset_elems d) as Hn.
  rewrite Heq in Hs, Hn |- *. rewrite reverse_app, reverse_cons, <-app_assoc, pass_app.
  apply NoDup_app in Hn as (_ & Hlo & [Hhi _]%NoDup_cons).
  set (ns1 := pass ns (reverse hi)).
  assert (p ∉ reverse lo) as Hplo.
  { rewrite elem_of_reverse. intros Hin. apply (Hlo p Hin). by left. }
  cbn [app]. rewrite pass_cons at 1. rewrite pass_other by done.
  rewrite lookup_partial_alter_eq. apply Hloc. intros c Hc Hpar.
  symmetry. apply pass_other. rewrite elem_of_cons, elem_of_reverse.
  pose proof (parent_path_str_lt c Hc) as [Hle Hne]. rewrite Hpar in Hle, Hne.
  intros [->|Hin]; [done|]. apply Hne, (anti_symm String.le); [done|].
  eapply StronglySorted_app_1_elem_of; [exact Hs|done|by left].
Qed.
End Pass.

Section DeriveOk.
Context (blake3 : string → Hash).

(** *** The node contents before the hash pass *)

Definition with_entries (es : list Entry) (n : TreeNode) : TreeNode :=
  foldl (λ n e, add_entry_hash blake3 e n) n es.

Lemma with_entries_spec es n :
  with_entries es n = mkNode (tn_prefix n)
    (foldl (λ m e, <[basename (path e) := hash_entry blake3 e]> m) (tn_entries n) es)
    (tn_children n) (tn_hash n).
Proof.
  unfold with_entries. revert n.
  induction es as [|e es IH]; intros n; simpl; [by destruct n|]. by rewrite IH.
Qed.

Lemma partials_lookup include l m p :
  foldl (partials_step blake3 include) m l !! p =
    with_entries (filter (λ e, include e = true ∧ parent_path (path e) = p) l)
      <$> m !! p.
Proof.
  revert m. induction l as [|e l IH]; intros m; simpl.
  { by destruct (m !! p). }
  rewrite IH. clear IH. unfold partials_step.
  destruct (include e) eqn:Hi.
  2:{ rewrite filter_cons_False; [done|]. intros [? _]. congruence. }
  destruct (decide (parent_path (path e) = p)) as [<-|Hne].
  - rewrite filter_cons_True by done.
    destruct (m !! parent_path (path e)) as [n|] eqn:E; [|by rewrite E].
    by rewrite lookup_insert_eq.
  - rewrite filter_cons_False by (by intros [_ ?]).
    destruct (m !! parent_path (path e)); [|done]. by rewrite lookup_insert_ne.
Qed.

Lemma blank_partials_lookup d p :
  blank_partials d !! p = if decide (p ∈ d) then Some (blank_node p) else None.
Proof.
  unfold blank_partials.
  assert (∀ l (m : gmap string TreeNode), foldl (λ m p, <[p := blank_node p]> m) m l !! p =
    if decide (p ∈ l) then Some (blank_node p) else m !! p) as Hl.
  { induction l as [|q l IH]; intros m; simpl; [done|]. rewrite IH.
    destruct (decide (q = p)) as [->|Hne].
    - rewrite (decide_True (P := p ∈ p :: l)) by (by left).
      case_decide; [done|]. by rewrite lookup_insert_eq.
    - rewrite lookup_insert_ne by done. apply decide_ext.
      rewrite elem_of_cons. naive_solver. }
  rewrite Hl, lookup_empty. apply decide_ext, elem_of_bset_elems.
Qed.

Lemma children_of_lookup d p : default [] (children_of d !! p) = child_list d p.
Proof.
  unfold children_of. rewrite (group_lookup (λ c, c = "") parent_path).
  by rewrite lookup_empty.
Qed.

(** *** The hash pass *)

Section HashPass.
Context (partials : gmap string TreeNode) (kids : gmap string (list string)).

(** The node the pass computes at [p] from the nodes done so far. *)
Definition pass_node (done_nodes : gmap string TreeNode) (p : string)
    : option TreeNode :=
  (λ n, let cs := collect_children (λ c, tn_hash <$> done_nodes !! c)
                    (default [] (kids !! p)) in
    mkNode (tn_prefix n) (tn_entries n) cs
      (hash_node blake3 (tn_prefix n) (tn_entries n) cs)) <$> partials !! p.

Lemma derive_pass_some l done_nodes :
  NoDup l → (∀ p, p ∈ l → is_Some (partials !! p) ∧ done_nodes !! p = None) →
  let res := pass pass_node done_nodes l in
  foldl (derive_step blake3 kids) (done_nodes ∪ partials, tn_hash <$> done_nodes) l =
    (res ∪ partials, tn_hash <$> res).
Proof.
  revert done_nodes. induction l as [|p l IH]; intros ns Hnd Hl; [done|].
  apply NoDup_cons in Hnd as [Hp Hnd]. cbn [foldl]. rewrite pass_cons.
  destruct (Hl p ltac:(by left)) as [[n Hn] Hnone].
  assert (derive_step blake3 kids (ns ∪ partials, tn_hash <$> ns) p =
    (partial_alter (λ _, pass_node ns p) p ns ∪ partials,
     tn_hash <$> partial_alter (λ _, pass_node ns p) p ns)) as ->.
  { unfold derive_step. rewrite lookup_union_r, Hn by done.
    assert (pass_node ns p = Some (let cs := collect_children
      (λ c, tn_hash <$> ns !! c) (default [] (kids !! p)) in
      mkNode (tn_prefix n) (tn_entries n) cs
        (hash_node blake3 (tn_prefix n) (tn_entries n) cs))) as ->.
    { unfold pass_node. by rewrite Hn. }
    cbv zeta. change (partial_alter (λ _, Some ?x) p ns) with (<[p := x]> ns).
    rewrite fmap_insert, insert_union_l.
    rewrite (collect_children_ext (λ c, (tn_hash <$> ns) !! c)
      (λ c, tn_hash <$> ns !! c)); [done|]. intros c _. apply lookup_fmap. }
  apply IH; [done|]. intros q Hq. destruct (Hl q ltac:(by right)) as [? ?].
  split; [done|]. rewrite lookup_partial_alter_ne; [done|]. by intros ->.
Qed.
End HashPass.

Lemma pass_dom {V} (f : gmap string V → string → option V) ns l :
  (∀ ns p, p ∈ l → is_Some (f ns p)) →
  ∀ p, is_Some (pass f ns l !! p) ↔ p ∈ l ∨ is_Some (ns !! p).
Proof.
  revert ns. induction l as [|q l IH]; intros ns Hf p.
  { cbn. rewrite elem_of_nil. naive_solver. }
  rewrite pass_cons, IH by (intros; apply Hf; by right).
  rewrite elem_of_cons. destruct (decide (p = q)) as [->|Hne].
  - rewrite lookup_partial_alter_eq.
    pose proof (Hf ns q ltac:(by left)). naive_solver.
  - rewrite lookup_partial_alter_ne by done. naive_solver.
Qed.

(** [derive_tree_with] meets the specification. *)
Lemma derive_tree_with_ok include entries :
  tree_ok blake3 include entries (derive_tree_with blake3 include entries).
Proof.
  unfold derive_tree_with. set (d := node_paths include entries).
  set (partials := foldl _ (blank_partials d) _). set (kids := children_of d).
  assert (∀ p, partials !! p = if decide (p ∈ d)
    then Some (mkNode (display_prefix p) (direct_entries blake3 include entries p)
                 ∅ zero_hash) else None) as Hpart.
  { intros p. unfold partials. rewrite partials_lookup, blank_partials_lookup.
    case_decide; [|done]. simpl. f_equal. rewrite with_entries_spec. simpl.
    by rewrite entries_at_values. }
  pose proof (derive_pass_some partials kids (reverse (bset_elems d)) ∅) as Hpass.
  rewrite map_empty_union, fmap_empty in Hpass. rewrite Hpass; clear Hpass.
  2:{ rewrite reverse_Permutation. apply NoDup_bset_elems. }
  2:{ intros p. rewrite elem_of_reverse, elem_of_bset_elems. intros Hp.
      rewrite Hpart, decide_True by done. split; [by eexists|apply lookup_empty]. }
  set (res := pass _ ∅ _).
  assert (∀ p, is_Some (res !! p) ↔ p ∈ d) as Hdom.
  { intros p. unfold res. rewrite pass_dom.
    - rewrite elem_of_reverse, elem_of_bset_elems, lookup_empty.
      split; [|by left]. by intros [?|[? ?]].
    - intros ns q. rewrite elem_of_reverse, elem_of_bset_elems. intros Hq.
      unfold pass_node. rewrite Hpart, decide_True by done. by eexists. }
  assert (dom res = d) as Hdomres.
  { apply set_eq. intros p. by rewrite elem_of_dom. }
  assert (res ∪ partials = res) as ->.
  { apply map_eq. intros p. destruct (res !! p) as [n|] eqn:Hn.
    - by apply lookup_union_Some_l.
    - rewrite lookup_union_r by done. rewrite Hpart, decide_False; [done|].
      rewrite <-Hdom, Hn. by intros [? ?]. }
  split; simpl.
  - done.
  - intros p n Hn. assert (p ∈ d) as Hp by (apply Hdom; eauto).
    unfold res in Hn. rewrite pass_fix in Hn; [|..|done].
    + fold res in Hn. unfold pass_node in Hn. rewrite Hpart, decide_True in Hn by done.
      injection Hn as <-. unfold make_node, direct_children. rewrite Hdomres.
      unfold kids. by rewrite children_of_lookup.
    + intros ns ns' q Hq. unfold pass_node. unfold kids.
      rewrite children_of_lookup.
      rewrite (collect_children_ext _ (λ c, tn_hash <$> ns' !! c)); [done|].
      intros c (_ & Hc & Hpar)%elem_of_child_list. by rewrite Hq.
  - rewrite lookup_fmap. assert ("" ∈ d) as [n Hn]%Hdom.
    { apply elem_of_node_paths. by left. }
    by rewrite Hn.
Qed.
Lemma tree_ok_sound include entries t : tree_ok blake3 include entries t → tree_sound blake3 include entries t.
Proof.
  intros [Hd Hn Hr]. split; [set_solver| |done|done].
  intros k e p Hk Hi Hp. rewrite Hd. apply elem_of_node_paths. right. exists k, e. split_and!; [done..|by left].
Qed.

Lemma derive_tree_sound include entries :
  tree_sound blake3 include entries (derive_tree_with blake3 include entries).
Proof. apply tree_ok_sound, derive_tree_with_ok. Qed.

(** The node set is closed under parents. *)
Lemma tree_sound_parent include entries t p :
  tree_sound blake3 include entries t → p ∈ dom (nodes t) → parent_path p ∈ dom (nodes t).
Proof.
  intros Ht Hp. pose proof (tree_sound_dom _ _ _ _ Ht p Hp) as Hnp.
  apply elem_of_node_paths in Hnp as [->|(k & e & Hk & Hi & He)]; [done|].
  apply (tree_sound_above _ _ _ _ Ht k e); [done..|].
  destruct He as [He|[_ ->]]; [|auto]. eapply ancestors_trans; [|done]. auto.
Qed.
End DeriveOk.
