(* ===== verification/TreeUpdate.v ===== *)
(** * Incremental updates of the tree

    [update_tree_snapshot] recomputes only the prefixes a batch of changes makes
    dirty.  [update_tree_snapshot_derive] is the refinement that justifies it:
    on the snapshot of the old index it returns the snapshot of the new index,
    provided every included directory entry has an included descendant.
    [empty_dir_divergence] shows that the proviso is needed: for an empty
    directory the incremental tree and the full derivation differ. *)

From S2P Require Import Prelude Paths Bytes Entries Tree TreeSpec.

(** ** Induction from the leaves *)

Lemma children_ind (d : gset string) (P : string → Prop) :
  (∀ p, (∀ c, c ∈ d → c ≠ "" → parent_path c = p → P c) → P p) → ∀ p, P p.
Proof.
  intros Hstep.
  set (L := max_list (strlen <$> elements d)).
  assert (∀ c, c ∈ d → (strlen c ≤ L)%nat) as HL.
  { intros c Hc. apply max_list_elem_of_le, list_elem_of_fmap. exists c.
    split; [done|]. by apply elem_of_elements. }
  assert (∀ n p, (S L - strlen p < n)%nat → P p) as Hn.
  { induction n as [|n IH]; intros p Hp; [lia|]. apply Hstep.
    intros c Hc Hne <-. apply IH. specialize (HL c Hc).
    pose proof (parent_path_lt c Hne). lia. }
  intros p. apply (Hn (S (S L - strlen p))). lia.
Qed.

(** ** Snapshots are determined by their node set *)

Section Unique.
Context (blake3 : string → Hash).

Lemma direct_children_ext ns ns' p :
  (∀ c, c ≠ "" → parent_path c = p → ns !! c = ns' !! c) →
  direct_children ns p = direct_children ns' p.
Proof.
  intros Hc. unfold direct_children.
  rewrite (child_list_ext (dom ns) (dom ns')).
  2:{ intros c ? ?. by rewrite !elem_of_dom, Hc. }
  apply collect_children_ext. intros c (_ & ? & ?)%elem_of_child_list.
  by rewrite Hc.
Qed.

Lemma nodes_ok_unique include entries ns1 ns2 :
  nodes_ok blake3 include entries ns1 → nodes_ok blake3 include entries ns2 →
  dom ns1 = dom ns2 → ns1 = ns2.
Proof.
  intros H1 H2 Hdom. apply map_eq. intros p.
  induction p as [p IH] using (children_ind (dom ns1)).
  assert (direct_children ns1 p = direct_children ns2 p) as Hch.
  { apply direct_children_ext. intros c Hc Hpar.
    destruct (decide (c ∈ dom ns1)) as [Hin|Hin]; [by apply IH|].
    pose proof Hin as Hin2. rewrite Hdom in Hin2.
    by rewrite (not_elem_of_dom_1 _ _ Hin), (not_elem_of_dom_1 _ _ Hin2). }
  destruct (ns1 !! p) as [n1|] eqn:E1, (ns2 !! p) as [n2|] eqn:E2; [|..|done].
  - rewrite (H1 _ _ E1), (H2 _ _ E2). by rewrite Hch.
  - apply elem_of_dom_2 in E1. rewrite Hdom in E1. by apply not_elem_of_dom in E2.
  - apply elem_of_dom_2 in E2. rewrite <-Hdom in E2. by apply not_elem_of_dom in E1.
Qed.

Lemma tree_ok_unique include entries t1 t2 :
  tree_ok blake3 include entries t1 → tree_ok blake3 include entries t2 → t1 = t2.
Proof.
  intros [D1 N1 R1] [D2 N2 R2]. destruct t1 as [r1 ns1], t2 as [r2 ns2]. simpl in *.
  assert (ns1 = ns2) as -> by (eapply nodes_ok_unique; eauto; congruence).
  f_equal. congruence.
Qed.
End Unique.

(** ** The dirty set *)

Section Dirty.
Context (include : Entry → bool) (snap : TreeSnapshot) (entries : gmap string Entry).

Definition anc_closed (d : gset string) : Prop :=
  ∀ p q, p ∈ d → q ∈ ancestors p → q ∈ d.

Lemma anc_closed_add d p :
  anc_closed d → anc_closed ({[p]} ∪ extend_set d (ancestors p)).
Proof.
  intros Hd q r. rewrite !elem_of_union, !elem_of_singleton, !elem_of_extend_set.
  intros [->|[Hq|Hq]] Hr; [by right; right|right; left; by eapply Hd|].
  right; right. by eapply ancestors_trans.
Qed.

Lemma extend_set_union d p l : extend_set ({[p]} ∪ d) l = {[p]} ∪ extend_set d l.
Proof.
  apply set_eq. intros x.
  rewrite elem_of_union, !elem_of_extend_set, elem_of_union. naive_solver.
Qed.

Lemma anc_closed_foldl l d :
  anc_closed d →
  anc_closed (foldl (λ d p, {[p]} ∪ extend_set d (ancestors p)) d l).
Proof.
  revert d. induction l as [|p l IH]; intros d Hd; [done|].
  apply IH. by apply anc_closed_add.
Qed.

Lemma foldl_add_mono l d x :
  x ∈ d → x ∈ foldl (λ d p, {[p]} ∪ extend_set d (ancestors p)) d l.
Proof.
  revert d. induction l as [|p l IH]; intros d Hd; [done|]. apply IH.
  rewrite elem_of_union, elem_of_extend_set. auto.
Qed.

Lemma dirty_changed_unfold changed :
  dirty_changed changed = foldl (λ d p, {[p]} ∪ extend_set d (ancestors p)) ∅ changed.
Proof.
  unfold dirty_changed. generalize (∅ : gset string).
  induction changed as [|p l IH]; intros d; [done|]. simpl.
  by rewrite extend_set_union.
Qed.

Lemma elem_of_dirty_changed changed p : p ∈ changed → p ∈ dirty_changed changed.
Proof.
  rewrite dirty_changed_unfold. generalize (∅ : gset string).
  induction changed as [|q l IH]; intros d; [by intros ?%elem_of_nil|].
  intros [->|Hp]%elem_of_cons; simpl; [|by apply IH].
  apply foldl_add_mono. set_solver.
Qed.

Lemma dirty_descendants_step_closed d p :
  anc_closed d → anc_closed (dirty_descendants_step include snap entries d p).
Proof.
  intros Hd. unfold dirty_descendants_step. destruct (nodes snap !! p); [|done].
  destruct (match entries !! p with Some e => include e | None => false end); [done|].
  by apply anc_closed_foldl.
Qed.

Lemma dirty_descendants_step_mono d p x :
  x ∈ d → x ∈ dirty_descendants_step include snap entries d p.
Proof.
  intros Hd. unfold dirty_descendants_step. destruct (nodes snap !! p); [|done].
  destruct (match entries !! p with Some e => include e | None => false end); [done|].
  by apply foldl_add_mono.
Qed.

Lemma dirty_set_closed changed : anc_closed (dirty_set include snap entries changed).
Proof.
  unfold dirty_set.
  assert (anc_closed (dirty_changed changed)) as Hd.
  { rewrite dirty_changed_unfold. apply anc_closed_foldl. intros p q Hp. set_solver. }
  revert Hd. generalize (dirty_changed changed).
  induction changed as [|p l IH]; intros d Hd; [done|].
  apply IH. by apply dirty_descendants_step_closed.
Qed.

Lemma elem_of_dirty_set changed p :
  p ∈ changed → p ∈ dirty_set include snap entries changed.
Proof.
  intros Hp%elem_of_dirty_changed. unfold dirty_set. revert Hp.
  generalize (dirty_changed changed).
  induction changed as [|q l IH]; intros d Hp; [done|].
  apply IH. by apply dirty_descendants_step_mono.
Qed.
End Dirty.

(** ** The indexes of one update *)

Section Update.
Context (blake3 : string → Hash).

Lemma by_parent_direct include entries p :
  match by_parent include entries !! p with
  | Some es => foldl (λ m e, <[basename (path e) := hash_entry blake3 e]> m) ∅ es
  | None => ∅
  end = direct_entries blake3 include entries p.
Proof.
  unfold direct_entries, hash_entries. rewrite <-entries_at_values.
  assert (default [] (by_parent include entries !! p) =
    filter (λ e, include e = true ∧ parent_path (path e) = p) (btree_values entries))
    as <-; [|by destruct (by_parent include entries !! p)].
  unfold by_parent.
  assert (∀ l m, foldl (λ m e, if include e then push_at (parent_path (path e)) e m
      else m) m l = foldl (λ m e, if decide (include e = false) then m
        else push_at (parent_path (path e)) e m) m l) as ->.
  { induction l as [|e l IH]; intros m; [done|]. simpl. rewrite IH.
    by destruct (include e). }
  rewrite (group_lookup (λ e, include e = false) (λ e, parent_path (path e))).
  rewrite lookup_empty. simpl. apply list_filter_iff. intros e.
  by rewrite not_false_iff_true.
Qed.

Lemma child_keys_lookup snap dirty p c :
  c ∈ default ∅ (child_keys snap dirty !! p) ↔
    (c ∈ dom (nodes snap) ∨ c ∈ dirty) ∧ c ≠ "" ∧ parent_path c = p.
Proof.
  assert (∀ l (m : gmap string (gset string)), c ∈ default ∅ (foldl (λ m k, if decide (k = "") then m
      else <[parent_path k := {[k]} ∪ default ∅ (m !! parent_path k)]> m) m l !! p) ↔
    c ∈ (default ∅ (m !! p) : gset string) ∨ (c ∈ l ∧ c ≠ "" ∧ parent_path c = p)) as Hl.
  { induction l as [|k l IH]; intros m; cbn [foldl].
    { rewrite elem_of_nil. naive_solver. }
    rewrite IH, elem_of_cons. case_decide as Hk; [naive_solver|].
    destruct (decide (parent_path k = p)) as [<-|Hne].
    - rewrite lookup_insert_eq. simpl. rewrite elem_of_union, elem_of_singleton.
      naive_solver.
    - rewrite lookup_insert_ne by done. naive_solver. }
  unfold child_keys. rewrite Hl, lookup_empty. simpl.
  rewrite elem_of_app, elem_of_btree_keys, elem_of_bset_elems. set_solver.
Qed.

(** What one step of the pass computes, as a function of the children. *)
Definition update_node include entries (kids : gmap string (gset string)) (ns : gmap string TreeNode) (p : string)
    : option TreeNode :=
  let es := direct_entries blake3 include entries p in
  let cs := collect_children (λ k, tn_hash <$> ns !! k)
              (bset_elems (default ∅ (kids !! p))) in
  if decide (p = "" ∨ es ≠ ∅ ∨ cs ≠ ∅) then Some (make_node blake3 p es cs) else None.

Lemma update_step_pass include entries kids ns p :
  update_step blake3 (by_parent include entries) kids ns p =
    partial_alter (λ _, update_node include entries kids ns p) p ns.
Proof.
  unfold update_step, update_node. rewrite by_parent_direct.
  assert (match kids !! p with
    | Some ks => collect_children (λ k, tn_hash <$> ns !! k) (bset_elems ks)
    | None => ∅ end =
    collect_children (λ k, tn_hash <$> ns !! k)
      (bset_elems (default ∅ (kids !! p)))) as -> by (by destruct (kids !! p)).
  case_decide; done.
Qed.
(** ** Incremental update against full derivation *)

(** Keys and entries agree: [entries[k].path == k]. *)
Definition keyed (entries : gmap string Entry) : Prop :=
  map_Forall (λ k e, path e = k) entries.

(** Outside [changed] the index is the same. *)
Definition agree_outside (changed : list string) (old new : gmap string Entry) : Prop :=
  ∀ k, k ∉ changed → old !! k = new !! k.

(** Every included directory entry has an included descendant. *)
Definition no_empty_dirs (include : Entry → bool) (entries : gmap string Entry) : Prop :=
  ∀ k e, entries !! k = Some e → include e = true → kind e = Dir →
    ∃ k' e', entries !! k' = Some e' ∧ include e' = true ∧ path e ∈ ancestors (path e').

Section Refinement.
Context (include : Entry → bool) (old new : gmap string Entry) (snap : TreeSnapshot).
Context (changed : list string).
Context (Hold : keyed old) (Hnew : keyed new).
Context (Hagree : agree_outside changed old new).

Let dirty := dirty_set include snap new changed.
Let kids := child_keys snap dirty.
Let ns := pass (update_node include new kids) (nodes snap)
            (reverse (bset_elems dirty)).

Lemma update_is_pass :
  update_tree_snapshot blake3 snap new changed include =
    {| root_hash := default zero_hash (tn_hash <$> ns !! ""); nodes := ns |}.
Proof.
  unfold update_tree_snapshot. fold dirty. fold kids.
  assert (∀ l m, foldl (update_step blake3 (by_parent include new) kids) m l =
    pass (update_node include new kids) m l) as ->; [|done].
  induction l as [|p l IH]; intros m; [done|]. simpl.
  by rewrite update_step_pass, IH.
Qed.

(** A clean prefix sees the same entries before and after. *)
Lemma clean_entry p k e :
  p ∉ dirty → (p = k ∨ p ∈ ancestors k) →
  old !! k = Some e ↔ new !! k = Some e.
Proof.
  intros Hp Hk. assert (k ∉ changed) as Hkc.
  { intros Hc%(elem_of_dirty_set include snap new). apply Hp.
    destruct Hk as [->|Hk]; [done|]. by eapply dirty_set_closed. }
  by rewrite (Hagree k Hkc).
Qed.

Lemma clean_node_paths p :
  p ∉ dirty → p ∈ node_paths include old ↔ p ∈ node_paths include new.
Proof.
  intros Hp. rewrite !elem_of_node_paths.
  assert (∀ k e, path e = k → entry_prefix e p → p = k ∨ p ∈ ancestors k) as Hpre.
  { intros k e <- [?|[_ ->]]; auto. }
  split; (intros [->|(k & e & Hk & Hi & He)]; [by left|]; right; exists k, e;
    split; [|done]); eapply (clean_entry p); eauto.
Qed.

Lemma clean_entries_at p :
  p ∉ dirty → entries_at include old p = entries_at include new p.
Proof.
  intros Hp. apply map_eq. intros k. apply option_eq. intros e.
  unfold entries_at. rewrite !map_lookup_filter_Some. simpl.
  split; intros (Hk & Hi & Hpar); (split; [|done]);
    eapply (clean_entry p k e); eauto; right; rewrite <-Hpar.
  - rewrite (Hold _ _ Hk). auto.
  - rewrite (Hnew _ _ Hk). auto.
Qed.

Lemma clean_children p c : p ∉ dirty → c ≠ "" → parent_path c = p → c ∉ dirty.
Proof.
  intros Hp Hc <- Hin. apply Hp. by eapply dirty_set_closed.
Qed.

Lemma ns_clean p : p ∉ dirty → ns !! p = nodes snap !! p.
Proof.
  intros Hp. apply pass_other. by rewrite elem_of_reverse, elem_of_bset_elems.
Qed.

(** The children the pass collects are those with a node in the result. *)
Lemma update_children m p :
  (∀ c, c ≠ "" → parent_path c = p → is_Some (m !! c) →
    c ∈ dom (nodes snap) ∨ c ∈ dirty) →
  collect_children (λ k, tn_hash <$> m !! k) (bset_elems (default ∅ (kids !! p))) =
    direct_children m p.
Proof.
  intros Hm. unfold direct_children. rewrite collect_children_filter. f_equal.
  apply sorted_keys_ext.
  - apply StronglySorted_filter_list, bset_elems_sorted.
  - apply StronglySorted_filter_list, bset_elems_sorted.
  - apply NoDup_filter, NoDup_bset_elems.
  - apply NoDup_filter, NoDup_bset_elems.
  - intros c. rewrite elem_of_child_list, list_elem_of_filter, elem_of_bset_elems.
    unfold kids. rewrite child_keys_lookup, (elem_of_dom m c), fmap_is_Some.
    specialize (Hm c). tauto.
Qed.

Lemma ns_dom_bound c : is_Some (ns !! c) → c ∈ dom (nodes snap) ∨ c ∈ dirty.
Proof.
  intros Hc. destruct (decide (c ∈ dirty)) as [|Hd]; [by right|].
  left. rewrite ns_clean in Hc by done. by apply elem_of_dom.
Qed.

Lemma ns_dirty p :
  p ∈ dirty →
  ns !! p =
    let es := direct_entries blake3 include new p in
    let cs := direct_children ns p in
    if decide (p = "" ∨ es ≠ ∅ ∨ cs ≠ ∅) then Some (make_node blake3 p es cs) else None.
Proof.
  intros Hp. unfold ns at 1. rewrite pass_fix; [|..|done].
  - fold ns. unfold update_node. rewrite update_children; [done|].
    intros c _ _. apply ns_dom_bound.
  - intros m m' q Hq. unfold update_node.
    rewrite (collect_children_ext _ (λ k, tn_hash <$> m' !! k)); [done|].
    intros c. rewrite elem_of_bset_elems. unfold kids.
    rewrite child_keys_lookup. intros (_ & ? & ?). by rewrite Hq.
Qed.
Lemma direct_entries_nonempty es p k e :
  es !! k = Some e → include e = true → parent_path (path e) = p →
  direct_entries blake3 include es p ≠ ∅.
Proof.
  intros Hk Hi Hp. unfold direct_entries, hash_entries.
  assert (e ∈ btree_values (entries_at include es p)) as Hin.
  { apply elem_of_btree_values. exists k. by apply map_lookup_filter_Some. }
  assert (∀ l (m : gmap string Hash), e ∈ l ∨ m ≠ ∅ →
    foldl (λ m e, <[basename (path e) := hash_entry blake3 e]> m) m l ≠ ∅) as Hl.
  { induction l as [|x l IH]; intros m; simpl.
    - rewrite elem_of_nil. tauto.
    - intros _. apply IH. right. apply insert_non_empty. }
  apply Hl. by left.
Qed.

Lemma direct_entries_inv es p :
  direct_entries blake3 include es p ≠ ∅ →
  ∃ k e, es !! k = Some e ∧ include e = true ∧ parent_path (path e) = p.
Proof.
  unfold direct_entries, hash_entries. intros Hne.
  destruct (btree_values (entries_at include es p)) as [|e l] eqn:E; [done|].
  assert (e ∈ btree_values (entries_at include es p)) as Hin by (rewrite E; by left).
  apply elem_of_btree_values in Hin as [k (Hk & Hi & Hp)%map_lookup_filter_Some].
  eauto.
Qed.

Lemma direct_children_inv m p :
  direct_children m p ≠ ∅ → ∃ c, c ∈ dom m ∧ c ≠ "" ∧ parent_path c = p.
Proof.
  unfold direct_children. intros Hne.
  destruct (child_list (dom m) p) as [|c l] eqn:E; [done|].
  exists c. apply elem_of_child_list. rewrite E. by left.
Qed.

Lemma direct_children_nonempty m c :
  c ∈ dom m → c ≠ "" → direct_children m (parent_path c) ≠ ∅.
Proof.
  intros Hc Hne. eapply (collect_children_nonempty _ _ c).
  - by apply elem_of_child_list.
  - apply elem_of_dom in Hc as [n ->]. by eexists.
Qed.

(** The snapshot's nodes are exact for the old index. *)
Context (Hok : nodes_ok blake3 include old (nodes snap)).

Lemma ns_ok : nodes_ok blake3 include new ns.
Proof.
  intros p n Hn. destruct (decide (p ∈ dirty)) as [Hd|Hd].
  - rewrite ns_dirty in Hn by done. cbv zeta in Hn.
    case_decide; [by injection Hn|done].
  - rewrite ns_clean in Hn by done. apply Hok in Hn.
    rewrite Hn. unfold direct_entries. rewrite clean_entries_at by done.
    f_equal. apply direct_children_ext. intros c Hc Hpar. symmetry.
    apply ns_clean. by eapply clean_children.
Qed.

(** Every node the old index calls for, and no other, is there. *)
Context (snap_dom : dom (nodes snap) = node_paths include old).

(** With no empty directory, a prefix other than the root has a node iff it
    has a direct entry or a child prefix. *)
Lemma node_paths_inhabited p :
  no_empty_dirs include new → p ∈ node_paths include new →
  p = "" ∨ direct_entries blake3 include new p ≠ ∅ ∨
  ∃ c, c ∈ node_paths include new ∧ c ≠ "" ∧ parent_path c = p.
Proof.
  intros Hdirs. rewrite elem_of_node_paths. intros [->|(k & e & Hk & Hi & He)].
  { by left. }
  right. assert (∃ k' e', new !! k' = Some e' ∧ include e' = true ∧
    p ∈ ancestors (path e')) as (k' & e' & Hk' & Hi' & Hp).
  { destruct He as [Hp|[Hd ->]]; [eauto|]. by eapply Hdirs. }
  destruct (ancestors_child _ _ Hp) as [->|(c & Hc & Hne & Hpar)].
  - left. by eapply direct_entries_nonempty.
  - right. exists c. split; [|done]. apply elem_of_node_paths. right.
    exists k', e'. split_and!; [done..|by left].
Qed.

Lemma ns_dom p :
  no_empty_dirs include new → p ∈ dom ns ↔ p ∈ node_paths include new.
Proof.
  intros Hdirs. revert p.
  apply (children_ind (dom ns ∪ node_paths include new)). intros p IH.
  destruct (decide (p ∈ dirty)) as [Hd|Hd].
  2:{ rewrite elem_of_dom, ns_clean, <-elem_of_dom, snap_dom by done.
      by apply clean_node_paths. }
  rewrite elem_of_dom, ns_dirty by done. cbv zeta. split.
  - case_decide as Hcase; [intros _|by intros [? ?]].
    destruct Hcase as [->|[Hes|Hcs]].
    + apply elem_of_node_paths. by left.
    + apply direct_entries_inv in Hes as (k & e & Hk & Hi & <-).
      apply elem_of_node_paths. right. exists k, e. split_and!; [done..|by left].
    + apply direct_children_inv in Hcs as (c & Hc & Hne & Hpar).
      rewrite <-Hpar. apply node_paths_parent, IH; [set_solver|done..].
  - intros Hp. rewrite decide_True; [done|].
    destruct (node_paths_inhabited p Hdirs Hp) as [?|[?|(c & Hc & Hne & Hpar)]];
      [auto..|].
    right; right. rewrite <-Hpar. apply direct_children_nonempty; [|done].
    apply IH; [set_solver|done..].
Qed.

Lemma update_ok_derive :
  no_empty_dirs include new →
  update_tree_snapshot blake3 snap new changed include =
    derive_tree_with blake3 include new.
Proof.
  intros Hdirs. apply (tree_ok_unique blake3 include new); [|apply derive_tree_with_ok].
  rewrite update_is_pass. split; simpl.
  - apply set_eq. intros p. by apply ns_dom.
  - apply ns_ok.
  - assert ("" ∈ dom ns) as [n Hn]%elem_of_dom.
    { apply ns_dom; [done|]. apply elem_of_node_paths. by left. }
    by rewrite Hn.
Qed.
(** A prefix nothing included lies below has no node after the update once
    it is dirty - even when it is an included directory entry. *)
Lemma ns_empty_prefix d p :
  (∀ k e, new !! k = Some e → include e = true → d ∉ ancestors (path e)) →
  d ∈ dirty → d ≠ "" → p = d ∨ d ∈ ancestors p → p ≠ "" →
  (p ∈ dirty ∨ p ≠ d) → ns !! p = None.
Proof.
  intros Hempty Hd Hdne. revert p.
  apply (children_ind (dom ns) (λ p, p = d ∨ d ∈ ancestors p → p ≠ "" →
    p ∈ dirty ∨ p ≠ d → ns !! p = None)).
  intros p IH Hp Hpne Hor. destruct (decide (p ∈ dirty)) as [Hdirty|Hclean].
  - rewrite ns_dirty by done. cbv zeta. rewrite decide_False; [done|].
    intros [?|[Hes|Hcs]]; [done|..].
    + apply direct_entries_inv in Hes as (k & e & Hk & Hi & Hpar).
      apply (Hempty k e Hk Hi). destruct Hp as [<-|Hp].
      * rewrite <-Hpar. auto.
      * eapply ancestors_trans; [exact Hp|]. rewrite <-Hpar. auto.
    + apply direct_children_inv in Hcs as (c & Hc & Hcne & Hpar).
      assert (d ∈ ancestors c) as Hdc.
      { rewrite elem_of_ancestors_unfold, Hpar. destruct Hp as [->|Hp]; auto. }
      assert (ns !! c = None) as Hnone.
      { apply IH; auto. right. intros ->.
        by apply (ancestors_shorter _ _ Hdc) in Hdne; lia. }
      by apply not_elem_of_dom in Hnone.
  - destruct Hp as [->|Hp]; [done|]. destruct (ns !! p) eqn:Hn; [|done]. exfalso.
    assert (p ∈ node_paths include new) as Hin.
    { apply clean_node_paths; [done|]. rewrite <-snap_dom.
      apply elem_of_dom. rewrite <-ns_clean by done. by rewrite Hn. }
    apply elem_of_node_paths in Hin as [?|(k & e & Hk & Hi & He)]; [done|].
    apply (Hempty k e Hk Hi). destruct He as [He|[_ <-]]; [|done].
    by eapply ancestors_trans.
Qed.

Lemma update_drops_node d :
  (∀ k e, new !! k = Some e → include e = true → d ∉ ancestors (path e)) →
  d ∈ changed → d ≠ "" →
  nodes (update_tree_snapshot blake3 snap new changed include) !! d = None.
Proof.
  intros Hempty Hd Hne. rewrite update_is_pass. simpl.
  assert (d ∈ dirty) by by apply elem_of_dirty_set.
  apply (ns_empty_prefix d); auto.
Qed.

(** Only the prefixes of the old index have a node. *)
Context (Hdom : dom (nodes snap) ⊆ node_paths include old).

Lemma ns_dom_new p : p ∈ dom ns → p ∈ node_paths include new.
Proof.
  revert p. apply (children_ind (dom ns) (λ p, p ∈ dom ns → p ∈ node_paths include new)).
  intros p IH. destruct (decide (p ∈ dirty)) as [Hd|Hd].
  2:{ rewrite elem_of_dom, ns_clean, <-elem_of_dom by done. intros Hp%Hdom. by apply clean_node_paths. }
  rewrite elem_of_dom, ns_dirty by done. cbv zeta. case_decide as Hcase; [intros _|by intros [? ?]].
  destruct Hcase as [->|[Hes|Hcs]].
  - apply elem_of_node_paths. by left.
  - apply direct_entries_inv in Hes as (k & e & Hk & Hi & <-).
    apply elem_of_node_paths. right. exists k, e. split_and!; [done..|by left].
  - apply direct_children_inv in Hcs as (c & Hc & Hne & Hpar).
    rewrite <-Hpar. by apply node_paths_parent, IH.
Qed.

(** Every prefix above an entry of the old index has a node. *)
Context (Habove : ∀ k e p, old !! k = Some e → include e = true → p ∈ ancestors (path e) →
  p ∈ dom (nodes snap)).

Lemma ns_above k e p :
  new !! k = Some e → include e = true → p ∈ ancestors (path e) → p ∈ dom ns.
Proof.
  intros Hk Hi. revert p.
  apply (children_ind (list_to_set (ancestors (path e))) (λ p, p ∈ ancestors (path e) → p ∈ dom ns)).
  intros p IH Hp. rewrite elem_of_dom. destruct (decide (p ∈ dirty)) as [Hd|Hd].
  - rewrite ns_dirty by done. cbv zeta. rewrite decide_True; [done|].
    destruct (ancestors_child _ _ Hp) as [->|(c & Hc & Hne & Hpar)].
    + right. left. by eapply direct_entries_nonempty.
    + right; right. rewrite <-Hpar. apply direct_children_nonempty; [|done].
      apply IH; [by apply elem_of_list_to_set|done..].
  - rewrite ns_clean, <-elem_of_dom by done. apply (Habove k e); [|done..].
    apply (clean_entry p k e Hd); [|done]. right. by rewrite <-(Hnew _ _ Hk).
Qed.

Lemma update_sound :
  "" ∈ dom (nodes snap) →
  tree_sound blake3 include new (update_tree_snapshot blake3 snap new changed include).
Proof.
  intros Hroot. rewrite update_is_pass. split; simpl.
  - intros p. apply ns_dom_new.
  - apply ns_above.
  - apply ns_ok.
  - assert (is_Some (ns !! "")) as [n ->]; [|done].
    destruct (decide ("" ∈ dirty)) as [Hd|Hd].
    + rewrite ns_dirty by done. cbv zeta. rewrite decide_True; [done|by left].
    + rewrite ns_clean by done. by apply elem_of_dom.
Qed.

End Refinement.

(** A sound snapshot stays sound. *)
Lemma update_tree_snapshot_sound include old new snap changed :
  keyed old → keyed new → agree_outside changed old new →
  tree_sound blake3 include old snap →
  tree_sound blake3 include new (update_tree_snapshot blake3 snap new changed include).
Proof.
  intros Ho Hn Ha [Hdom Habove Hok Hroot]. apply (update_sound include old); try done.
  apply elem_of_dom. by destruct (nodes snap !! "").
Qed.

(** On the snapshot of the old index the update yields that of the new one. *)
Lemma update_tree_snapshot_derive include old new changed :
  keyed old → keyed new → agree_outside changed old new → no_empty_dirs include new →
  update_tree_snapshot blake3 (derive_tree_with blake3 include old) new changed include =
    derive_tree_with blake3 include new.
Proof.
  intros Ho Hn Ha Hd. destruct (derive_tree_with_ok blake3 include old) as [Hdom Hok _].
  exact (update_ok_derive include old new _ changed Ho Hn Ha Hok Hdom Hd).
Qed.

Lemma update_drops_empty_dir include old new changed d :
  keyed old → keyed new → agree_outside changed old new →
  (∀ k e, new !! k = Some e → include e = true → d ∉ ancestors (path e)) →
  d ∈ changed → d ≠ "" →
  nodes (update_tree_snapshot blake3 (derive_tree_with blake3 include old) new changed include) !! d
  = None.
Proof.
  intros Ho Hn Ha. destruct (derive_tree_with_ok blake3 include old) as [Hdom Hok _].
  exact (update_drops_node include old new _ changed Ho Hn Ha Hdom d).
Qed.

Lemma derive_keeps_empty_dir include entries d e :
  entries !! d = Some e → path e = d → include e = true → kind e = Dir →
  is_Some (nodes (derive_tree_with blake3 include entries) !! d).
Proof.
  intros Hd Hp Hi Hk. apply elem_of_dom.
  rewrite (tree_ok_dom _ _ _ _ (derive_tree_with_ok blake3 include entries)).
  apply elem_of_node_paths. right. exists d, e. split_and!; [done..|by right].
Qed.
End Update.
