(* ===== verification/TreeHash.v ===== *)
(** * The Merkle hash determines the index

    The byte strings hashed for entries and nodes are injective encodings, so
    that - as long as BLAKE3 has no collision among the messages hashed for the
    two trees at hand - equal root hashes mean equal indexes.  This is the fact
    reconciliation and tombstone garbage collection rely on when they compare
    roots. *)

From S2P Require Import Prelude Paths Bytes Entries Tree TreeSpec TreeUpdate.

(** ** Field widths *)

Definition hash_fits (h : Hash) : Prop := strlen h = 32%nat.

Definition opt_all {A} (P : A → Prop) (o : option A) : Prop :=
  match o with Some a => P a | None => True end.

(** The Rust types of the fields of an [Entry]. *)
Record entry_fits (e : Entry) : Prop := {
  fits_path : str_fits (path e);
  fits_hash : opt_all hash_fits (content_hash e);
  fits_target : opt_all str_fits (symlink_target e);
  fits_size : 0 ≤ size e < u64_modulus;
  fits_mode : opt_all (λ m, 0 ≤ m < 2 ^ 32) (mode e);
  fits_lamport : 0 ≤ lamport (version e) < u64_modulus;
  fits_origin : str_fits (origin (version e))
}.

(** A map from names to hashes, as a [TreeNode] holds them. *)
Definition names_fit (m : gmap string Hash) : Prop :=
  ∀ n h, m !! n = Some h → str_fits n ∧ hash_fits h.

(** ** Injective encodings *)

Lemma String_inj a s t : String a s = String a t → s = t.
Proof. by intros [= ->]. Qed.

Lemma encode_opt_hash_inj a b x y :
  opt_all hash_fits a → opt_all hash_fits b →
  encode_opt_hash a +:+ x = encode_opt_hash b +:+ y → a = b ∧ x = y.
Proof.
  destruct a as [a|], b as [b|]; simpl; intros Ha Hb;
    rewrite !append_cons; intros Heq; try discriminate; apply String_inj in Heq.
  - apply append_inj_len in Heq as [-> ->]; [done|congruence].
  - done.
Qed.

Lemma encode_opt_str_inj a b x y :
  opt_all str_fits a → opt_all str_fits b →
  encode_opt_str a +:+ x = encode_opt_str b +:+ y → a = b ∧ x = y.
Proof.
  destruct a as [a|], b as [b|]; simpl; intros Ha Hb;
    rewrite !append_cons; intros Heq; try discriminate; apply String_inj in Heq.
  - apply encode_str_append_inj in Heq as [-> ->]; auto.
  - done.
Qed.

Lemma encode_opt_u32_inj a b x y :
  opt_all (λ m, 0 ≤ m < 2 ^ 32) a → opt_all (λ m, 0 ≤ m < 2 ^ 32) b →
  encode_opt_u32 a +:+ x = encode_opt_u32 b +:+ y → a = b ∧ x = y.
Proof.
  destruct a as [a|], b as [b|]; simpl; intros Ha Hb;
    rewrite !append_cons; intros Heq; try discriminate; apply String_inj in Heq.
  - apply be_bytes_append_inj in Heq as [-> ->]; auto.
  - done.
Qed.

Lemma as_str_inj k1 k2 : as_str k1 = as_str k2 → k1 = k2.
Proof. by destruct k1, k2. Qed.

Lemma as_str_fits k : Z.of_nat (strlen (as_str k)) < u64_modulus.
Proof. by destruct k. Qed.
#[export] Hint Resolve as_str_fits : core.

Lemma entry_preimage_inj e1 e2 :
  entry_fits e1 → entry_fits e2 → entry_preimage e1 = entry_preimage e2 → e1 = e2.
Proof.
  intros [] [] Heq. unfold entry_preimage in Heq.
  apply encode_str_append_inj in Heq as [_ Heq]; [|done..].
  apply encode_str_append_inj in Heq as [Hpath Heq]; [|auto..].
  apply encode_str_append_inj in Heq as [Hkind%as_str_inj Heq]; [|auto..].
  apply encode_opt_hash_inj in Heq as [Hhash Heq]; [|done..].
  apply encode_opt_str_inj in Heq as [Htarget Heq]; [|done..].
  apply (be_bytes_append_inj 8) in Heq as [Hsize Heq]; [|done..].
  apply encode_opt_u32_inj in Heq as [Hmode Heq]; [|done..].
  apply (be_bytes_append_inj 8) in Heq as [Hlam Heq]; [|done..].
  rewrite <-(append_nil_r (encode_str (origin (version e1)))),
    <-(append_nil_r (encode_str (origin (version e2)))) in Heq.
  apply encode_str_append_inj in Heq as [Horig _]; [|auto..].
  destruct e1 as [? ? ? ? ? ? []], e2 as [? ? ? ? ? ? []]. simpl in *. congruence.
Qed.

Definition items_fit (l : list (string * Hash)) : Prop :=
  ∀ n h, (n, h) ∈ l → str_fits n ∧ hash_fits h.

Lemma names_fit_items m : names_fit m → items_fit (btree_items m).
Proof. intros Hm n h Hin%elem_of_btree_items. by apply Hm. Qed.

Lemma items_fit_cons n h l :
  items_fit ((n, h) :: l) → str_fits n ∧ hash_fits h ∧ items_fit l.
Proof.
  intros Hl. destruct (Hl n h) as [? ?]; [by left|]. split_and!; [done..|].
  intros n' h' ?. apply Hl. by right.
Qed.

(** One tagged record in front of a message. *)
Lemma encode_record_inj tag1 tag2 n1 n2 h1 h2 x y :
  str_fits tag1 → str_fits tag2 → str_fits n1 → str_fits n2 →
  hash_fits h1 → hash_fits h2 →
  encode_str tag1 +:+ encode_str n1 +:+ h1 +:+ x =
    encode_str tag2 +:+ encode_str n2 +:+ h2 +:+ y →
  tag1 = tag2 ∧ n1 = n2 ∧ h1 = h2 ∧ x = y.
Proof.
  intros ? ? ? ? Hh1 Hh2 Heq.
  apply encode_str_append_inj in Heq as [-> Heq]; [|auto..].
  apply encode_str_append_inj in Heq as [-> Heq]; [|auto..].
  apply append_inj_len in Heq as [-> ->]; [done|congruence].
Qed.

Lemma encode_record_nonempty tag n h x :
  encode_str tag +:+ encode_str n +:+ h +:+ x ≠ "".
Proof.
  intros Heq%(f_equal strlen). unfold encode_str, be64 in Heq.
  rewrite !strlen_append, strlen_be_bytes in Heq. simpl in Heq. lia.
Qed.

Lemma encode_children_inj l1 l2 :
  items_fit l1 → items_fit l2 →
  encode_named "child" l1 = encode_named "child" l2 → l1 = l2.
Proof.
  revert l2. induction l1 as [|[n1 h1] l1 IH]; intros [|[n2 h2] l2] H1 H2; simpl.
  - done.
  - intros Heq. symmetry in Heq. by apply encode_record_nonempty in Heq.
  - intros Heq. by apply encode_record_nonempty in Heq.
  - apply items_fit_cons in H1 as (? & ? & ?), H2 as (? & ? & ?).
    intros (_ & -> & -> & Heq)%encode_record_inj; [|done..]. f_equal. by apply IH.
Qed.

Lemma encode_named_inj e1 e2 c1 c2 :
  items_fit e1 → items_fit e2 → items_fit c1 → items_fit c2 →
  encode_named "entry" e1 +:+ encode_named "child" c1 =
    encode_named "entry" e2 +:+ encode_named "child" c2 →
  e1 = e2 ∧ c1 = c2.
Proof.
  intros He1 He2 Hc1 Hc2. revert e2 He2.
  induction e1 as [|[n1 h1] e1 IH]; intros [|[n2 h2] e2] He2; cbn [encode_named];
    rewrite ?append_nil_l, ?append_assoc.
  - intros Heq. split; [done|]. by apply encode_children_inj.
  - destruct c1 as [|[n h] c1]; cbn [encode_named]; intros Heq; symmetry in Heq.
    + by apply encode_record_nonempty in Heq.
    + apply items_fit_cons in He2 as (? & ? & ?), Hc1 as (? & ? & ?).
      by apply encode_record_inj in Heq as [? _].
  - destruct c2 as [|[n h] c2]; cbn [encode_named]; intros Heq.
    + by apply encode_record_nonempty in Heq.
    + apply items_fit_cons in He1 as (? & ? & ?), Hc2 as (? & ? & ?).
      by apply encode_record_inj in Heq as [? _].
  - apply items_fit_cons in He1 as (? & ? & He1), He2 as (? & ? & He2).
    intros (_ & -> & -> & Heq)%encode_record_inj; [|done..].
    destruct (IH He1 e2 He2 Heq) as [-> ->]. done.
Qed.

Lemma node_preimage_inj p1 p2 e1 e2 c1 c2 :
  Z.of_nat (strlen p1) < u64_modulus → Z.of_nat (strlen p2) < u64_modulus →
  names_fit e1 → names_fit e2 → names_fit c1 → names_fit c2 →
  node_preimage p1 e1 c1 = node_preimage p2 e2 c2 → p1 = p2 ∧ e1 = e2 ∧ c1 = c2.
Proof.
  intros Hp1 Hp2 He1 He2 Hc1 Hc2 Heq. unfold node_preimage in Heq.
  apply (append_inj_len "lil-node-v1" _ "lil-node-v1") in Heq as [_ Heq]; [|done].
  apply encode_str_append_inj in Heq as [-> Heq]; [|done..].
  apply encode_named_inj in Heq as [?%btree_items_inj ?%btree_items_inj];
    auto using names_fit_items.
Qed.

(** ** Paths of an index *)

Lemma is_absolute_parent p : is_absolute p = false → is_absolute (parent_path p) = false.
Proof.
  intros Hp. destruct (path_cases p) as [(-> & _ & _)|[Heq _]]; [done|].
  destruct (is_absolute (parent_path p)) eqn:Ha; [|done].
  apply starts_with_spec in Ha as [r Hr]. rewrite <-Hp, Heq, Hr, append_assoc.
  symmetry. apply starts_with_spec. by eexists.
Qed.

Lemma is_absolute_ancestors p q :
  is_absolute p = false → q ∈ ancestors p → is_absolute q = false.
Proof.
  induction p as [p IH] using ancestors_ind. intros Hp.
  rewrite elem_of_ancestors_unfold. intros [->|[Hne Hq]];
    auto using is_absolute_parent.
Qed.

(** Well-formed indexes: keyed by path, relative paths, fields in range. *)
Record index_wf (entries : gmap string Entry) : Prop := {
  index_keyed : keyed entries;
  index_relative : ∀ k e, entries !! k = Some e → is_absolute k = false;
  index_fits : ∀ k e, entries !! k = Some e → entry_fits e
}.

(** Boolean versions, for concrete indexes. *)
Definition fits_u64 (z : Z) : bool := (0 <=? z) && (z <? u64_modulus).
Definition str_fitsb (s : string) : bool := Z.of_nat (strlen s) <? 2 ^ 63.
Definition opt_allb {A} (P : A → bool) (o : option A) : bool :=
  match o with Some a => P a | None => true end.

Definition entry_fitsb (e : Entry) : bool :=
  str_fitsb (path e) && opt_allb (λ h, Nat.eqb (strlen h) 32) (content_hash e)
  && opt_allb str_fitsb (symlink_target e) && fits_u64 (size e)
  && opt_allb (λ m, (0 <=? m) && (m <? 2 ^ 32)) (mode e)
  && fits_u64 (lamport (version e)) && str_fitsb (origin (version e)).

Definition index_wfb (entries : gmap string Entry) : bool :=
  forallb (λ ke : string * Entry, bool_decide (path ke.2 = ke.1)
    && negb (is_absolute ke.1) && entry_fitsb ke.2) (map_to_list entries).

Lemma opt_allb_sound {A} (P : A → Prop) (f : A → bool) o :
  (∀ a, f a = true → P a) → opt_allb f o = true → opt_all P o.
Proof. destruct o; simpl; auto. Qed.

Lemma entry_fitsb_sound e : entry_fitsb e = true → entry_fits e.
Proof.
  unfold entry_fitsb, fits_u64, str_fitsb. rewrite !andb_true_iff, !Z.ltb_lt, !Z.leb_le.
  intros ((((((? & Hh) & Ht) & ?) & Hm) & ?) & ?). split; try done.
  - eapply opt_allb_sound; [|done]. intros h. apply Nat.eqb_eq.
  - eapply opt_allb_sound; [|done]. intros s. apply Z.ltb_lt.
  - eapply opt_allb_sound; [|done]. intros m. simpl.
    rewrite andb_true_iff, Z.ltb_lt, Z.leb_le. done.
Qed.

Lemma index_wfb_sound entries : index_wfb entries = true → index_wf entries.
Proof.
  unfold index_wfb. rewrite forallb_forall. intros Hall.
  assert (∀ k e, entries !! k = Some e →
    path e = k ∧ is_absolute k = false ∧ entry_fits e) as Hk.
  { intros k e Hk%elem_of_map_to_list%list_elem_of_In%Hall. simpl in Hk.
    apply andb_true_iff in Hk as [[Hk Ha]%andb_true_iff He].
    apply bool_decide_eq_true in Hk. apply negb_true_iff in Ha.
    auto using entry_fitsb_sound. }
  split; intros k e Hke; by destruct (Hk k e Hke) as (? & ? & ?).
Qed.

Section Merkle.
Context (blake3 : string → Hash).
Context (Hlen : ∀ m, strlen (blake3 m) = 32%nat).

(** The messages whose hashes a tree of an index holds. *)
Definition tree_messages (include : Entry → bool) (entries : gmap string Entry)
    (t : TreeSnapshot) : list string :=
  ((λ n, node_preimage (tn_prefix n) (tn_entries n) (tn_children n)) <$>
    btree_values (nodes t)) ++
  (entry_preimage <$> btree_values (filter (λ ke, include ke.2 = true) entries)).

(** Every message hashed while deriving the tree of an index. *)
Definition hashed_messages (include : Entry → bool) (entries : gmap string Entry)
    : list string :=
  tree_messages include entries (derive_tree_with blake3 include entries).

Definition collision_free (ms : list string) : Prop :=
  ∀ x y, x ∈ ms → y ∈ ms → blake3 x = blake3 y → x = y.

Definition collision_freeb (ms : list string) : bool :=
  forallb (λ xh : string * Hash, forallb (λ yh : string * Hash,
    negb (String.eqb xh.2 yh.2) || String.eqb xh.1 yh.1)
    ((λ m, (m, blake3 m)) <$> ms)) ((λ m, (m, blake3 m)) <$> ms).

Lemma collision_freeb_sound ms : collision_freeb ms = true → collision_free ms.
Proof.
  unfold collision_freeb. rewrite forallb_forall. intros Hall x y Hx Hy Hh.
  assert (∀ m, m ∈ ms → In (m, blake3 m) ((λ m, (m, blake3 m)) <$> ms)) as Hin.
  { intros m Hm. apply list_elem_of_In, list_elem_of_fmap. by exists m. }
  specialize (Hall _ (Hin x Hx)). rewrite forallb_forall in Hall.
  specialize (Hall _ (Hin y Hy)). simpl in Hall.
  rewrite Hh, String.eqb_refl in Hall. by apply String.eqb_eq in Hall.
Qed.

(** *** Lookups in the maps of a node *)

Lemma collect_children_Some get l n h :
  collect_children get l !! n = Some h →
  ∃ c, c ∈ l ∧ basename c = n ∧ get c = Some h.
Proof.
  unfold collect_children.
  assert (∀ m : gmap string Hash, foldl (λ acc c, match get c with
      | Some h => <[basename c := h]> acc | None => acc end) m l !! n = Some h →
    m !! n = Some h ∨ ∃ c, c ∈ l ∧ basename c = n ∧ get c = Some h) as Hm.
  { induction l as [|c l IH]; intros m; cbn [foldl]; [by left|].
    intros [Hm|(c' & ? & ?)]%IH; [|right; exists c'; split; [by right|done]].
    destruct (get c) as [h'|] eqn:E; [|by left].
    destruct (decide (basename c = n)) as [<-|Hne].
    - rewrite lookup_insert_eq in Hm. injection Hm as ->.
      right. exists c. split; [by left|done].
    - rewrite lookup_insert_ne in Hm by done. by left. }
  intros [Hn|?]%Hm; [by rewrite lookup_empty in Hn|done].
Qed.

Lemma collect_children_lookup get l c h :
  (∀ c', c' ∈ l → basename c' = basename c → c' = c) →
  c ∈ l → get c = Some h → collect_children get l !! basename c = Some h.
Proof.
  intros Huniq Hc Hget.
  assert (is_Some (collect_children get l !! basename c)) as [h' Hh'].
  { apply collect_children_dom. eauto. }
  rewrite Hh'. apply collect_children_Some in Hh' as (c' & Hc' & Hb & Hg).
  apply Huniq in Hb as ->; [|done]. congruence.
Qed.

(** [hash_entries] is the same loop with a hash for every entry. *)
Lemma hash_entries_Some es n h :
  hash_entries blake3 es !! n = Some h →
  ∃ e, e ∈ es ∧ basename (path e) = n ∧ hash_entry blake3 e = h.
Proof.
  unfold hash_entries.
  assert (∀ m : gmap string Hash,
    foldl (λ m e, <[basename (path e) := hash_entry blake3 e]> m) m es !! n = Some h →
    m !! n = Some h ∨ ∃ e, e ∈ es ∧ basename (path e) = n ∧ hash_entry blake3 e = h) as Hm.
  { induction es as [|e es IH]; intros m; cbn [foldl]; [by left|].
    intros [Hm|(c' & ? & ?)]%IH; [|right; exists c'; split; [by right|done]].
    destruct (decide (basename (path e) = n)) as [<-|Hne].
    - rewrite lookup_insert_eq in Hm. injection Hm as <-.
      right. exists e. split; [by left|done].
    - rewrite lookup_insert_ne in Hm by done. by left. }
  intros [Hn|?]%Hm; [by rewrite lookup_empty in Hn|done].
Qed.

Lemma hash_entries_dom es e :
  e ∈ es → is_Some (hash_entries blake3 es !! basename (path e)).
Proof.
  unfold hash_entries.
  assert (∀ m : gmap string Hash, e ∈ es ∨ is_Some (m !! basename (path e)) →
    is_Some (foldl (λ m e, <[basename (path e) := hash_entry blake3 e]> m) m es
      !! basename (path e))) as Hm.
  { induction es as [|e' es IH]; intros m; cbn [foldl].
    { by intros [?%elem_of_nil|?]. }
    rewrite elem_of_cons. intros Hin. apply IH.
    rewrite lookup_insert_is_Some'. naive_solver. }
  intros He. apply Hm. by left.
Qed.
(** *** Two indexes with the same root *)

Lemma blake3_fits m : hash_fits (blake3 m).
Proof. apply Hlen. Qed.

Section OneIndex.
Context (include : Entry → bool) (es : gmap string Entry) (Hwf : index_wf es).
Context (t : TreeSnapshot) (Ht : tree_sound blake3 include es t).

Lemma node_lookup p n :
  nodes t !! p = Some n →
  n = make_node blake3 p (direct_entries blake3 include es p)
        (direct_children (nodes t) p).
Proof. apply (tree_sound_nodes _ _ _ _ Ht). Qed.

Lemma elem_of_entries_at k e p :
  e ∈ btree_values (entries_at include es p) ∧ path e = k ↔
  es !! k = Some e ∧ include e = true ∧ parent_path k = p.
Proof.
  rewrite elem_of_btree_values. unfold entries_at.
  setoid_rewrite map_lookup_filter_Some. simpl. split.
  - intros [(k' & Hk & Hi & Hp) <-]. by rewrite (index_keyed _ Hwf _ _ Hk) in *.
  - intros (Hk & Hi & Hp). pose proof (index_keyed _ Hwf _ _ Hk) as Hpath.
    split; [|done]. exists k. by rewrite Hpath.
Qed.

Lemma node_path_relative p : p ∈ node_paths include es → is_absolute p = false.
Proof.
  rewrite elem_of_node_paths. intros [->|(k & e & Hk & _ & He)]; [done|].
  pose proof (index_relative _ Hwf _ _ Hk) as Hrel.
  pose proof (index_keyed _ Hwf _ _ Hk) as Hpath.
  destruct He as [He|[_ ->]]; [|congruence].
  eapply is_absolute_ancestors; [|done]. congruence.
Qed.

Lemma node_path_fits p :
  p ∈ node_paths include es → str_fits p.
Proof.
  rewrite elem_of_node_paths. intros [->|(k & e & Hk & _ & He)]; [done|].
  pose proof (fits_path _ (index_fits _ Hwf _ _ Hk)) as Hfit.
  destruct He as [He|[_ ->]]; [|done]. unfold str_fits in *.
  destruct (decide (path e = "")) as [Hemp|Hne].
  - rewrite Hemp in He. cbn in He. apply list_elem_of_singleton in He as ->. done.
  - pose proof (ancestors_shorter _ _ He Hne). lia.
Qed.

Lemma elem_of_t_dom p : p ∈ dom (nodes t) → p ∈ node_paths include es.
Proof. apply (tree_sound_dom _ _ _ _ Ht). Qed.

(** A child's hash, looked up by name in its parent's node. *)
Lemma children_lookup c h :
  is_absolute c = false → c ≠ "" →
  direct_children (nodes t) (parent_path c) !! basename c = Some h ↔
  tn_hash <$> nodes t !! c = Some h.
Proof.
  intros Hrel Hne. unfold direct_children.
  assert (∀ c', c' ∈ child_list (dom (nodes t)) (parent_path c) →
    basename c' = basename c → c' = c) as Huniq.
  { intros c' (Hc' & _ & Hp)%elem_of_child_list Hb.
    apply elem_of_t_dom, node_path_relative in Hc'. by apply parent_basename_inj. }
  split.
  - intros (c' & Hc' & Hb & Hg)%collect_children_Some.
    by apply Huniq in Hb as ->.
  - intros Hh. apply collect_children_lookup; [done| |done].
    apply elem_of_child_list. split_and!; [|done..].
    apply elem_of_dom. destruct (nodes t !! c); [by eexists|done].
Qed.

Lemma entries_lookup_Some k h :
  is_absolute k = false →
  direct_entries blake3 include es (parent_path k) !! basename k = Some h →
  ∃ e, es !! k = Some e ∧ include e = true ∧ hash_entry blake3 e = h.
Proof.
  intros Hrel (e & He & Hb & Hh)%hash_entries_Some. exists e.
  assert (es !! path e = Some e ∧ include e = true ∧
    parent_path (path e) = parent_path k) as (Hk & Hi & Hp) by (by apply elem_of_entries_at).
  split; [|done]. rewrite <-Hk. f_equal. symmetry.
  apply parent_basename_inj; [|done..]. by eapply index_relative.
Qed.

Lemma entries_lookup k e :
  es !! k = Some e → include e = true →
  direct_entries blake3 include es (parent_path k) !! basename k =
    Some (hash_entry blake3 e).
Proof.
  intros Hk Hi. pose proof (index_relative _ Hwf _ _ Hk) as Hrel.
  assert (is_Some (direct_entries blake3 include es (parent_path k) !! basename k))
    as [h Hh].
  { pose proof (index_keyed _ Hwf _ _ Hk) as <-. apply hash_entries_dom.
    by eapply elem_of_entries_at. }
  rewrite Hh. apply entries_lookup_Some in Hh as (e' & Hk' & _ & <-); [|done].
  congruence.
Qed.
End OneIndex.
Section TwoIndexes.
Context (include : Entry → bool) (es1 es2 : gmap string Entry) (t1 t2 : TreeSnapshot).
Context (Hwf1 : index_wf es1) (Hwf2 : index_wf es2).
Context (Ht1 : tree_sound blake3 include es1 t1) (Ht2 : tree_sound blake3 include es2 t2).
Context (Hfree : collision_free (tree_messages include es1 t1 ++ tree_messages include es2 t2)).

Lemma direct_entries_fit es p :
  index_wf es → names_fit (direct_entries blake3 include es p).
Proof.
  intros Hwf n h (e & He & <- & <-)%hash_entries_Some.
  split; [|apply blake3_fits].
  apply elem_of_btree_values in He as [k [Hk _]%map_lookup_filter_Some].
  pose proof (fits_path _ (index_fits _ Hwf _ _ Hk)). unfold str_fits in *.
  destruct (path_cases (path e)) as [(_ & -> & _)|[Heq _]]; [done|].
  rewrite Heq in H. rewrite !strlen_append in H. lia.
Qed.

Lemma direct_children_fit es t p :
  index_wf es → tree_sound blake3 include es t → names_fit (direct_children (nodes t) p).
Proof.
  intros Hwf Ht n h (c & (Hc & _ & _)%elem_of_child_list & <- & Hg)%collect_children_Some.
  apply (elem_of_t_dom include es t Ht) in Hc. pose proof (node_path_fits _ _ Hwf _ Hc) as Hfit.
  apply fmap_Some in Hg as (m & Hm & ->).
  rewrite (node_lookup _ _ _ Ht _ _ Hm). split; [|apply blake3_fits].
  unfold str_fits in *. destruct (path_cases c) as [(_ & -> & _)|[Heq _]]; [done|].
  rewrite Heq in Hfit. rewrite !strlen_append in Hfit. lia.
Qed.

Lemma display_prefix_fits p :
  str_fits p → Z.of_nat (strlen (display_prefix p)) < u64_modulus.
Proof.
  unfold str_fits, display_prefix, u64_modulus. intros Hp. case_decide; [done|].
  rewrite !strlen_append. simpl. lia.
Qed.

Lemma node_message es t p n :
  nodes t !! p = Some n →
  node_preimage (tn_prefix n) (tn_entries n) (tn_children n) ∈ tree_messages include es t.
Proof.
  intros Hn. apply elem_of_app. left. apply list_elem_of_fmap. exists n.
  split; [done|]. apply elem_of_btree_values. by exists p.
Qed.

Lemma entry_message es t k e :
  es !! k = Some e → include e = true → entry_preimage e ∈ tree_messages include es t.
Proof.
  intros Hk Hi. apply elem_of_app. right. apply list_elem_of_fmap.
  exists e. split; [done|]. apply elem_of_btree_values. exists k.
  by apply map_lookup_filter_Some.
Qed.

(** Nodes of the two trees with equal hashes are equal. *)
Lemma same_hash_same_node p q n1 n2 :
  nodes t1 !! p = Some n1 → nodes t2 !! q = Some n2 →
  tn_hash n1 = tn_hash n2 → n1 = n2.
Proof.
  intros H1 H2 Hh.
  pose proof (node_lookup _ _ _ Ht1 _ _ H1) as E1.
  pose proof (node_lookup _ _ _ Ht2 _ _ H2) as E2.
  assert (node_preimage (tn_prefix n1) (tn_entries n1) (tn_children n1) =
    node_preimage (tn_prefix n2) (tn_entries n2) (tn_children n2)) as Hpre.
  { apply Hfree; [apply elem_of_app; left|apply elem_of_app; right|];
      [by eapply node_message..|].
    rewrite E1, E2 in Hh. simpl in Hh. rewrite E1, E2. exact Hh. }
  assert (p ∈ dom (nodes t1)) as Hp%(elem_of_t_dom _ _ _ Ht1) by by eapply elem_of_dom_2.
  assert (q ∈ dom (nodes t2)) as Hq%(elem_of_t_dom _ _ _ Ht2) by by eapply elem_of_dom_2.
  rewrite E1, E2 in Hpre |- *. simpl in Hpre.
  apply node_preimage_inj in Hpre as (Hdp & Hde & Hdc).
  - unfold make_node. by rewrite Hdp, Hde, Hdc.
  - by apply display_prefix_fits, (node_path_fits include es1).
  - by apply display_prefix_fits, (node_path_fits include es2).
  - by apply direct_entries_fit.
  - by apply direct_entries_fit.
  - by apply (direct_children_fit es1).
  - by apply (direct_children_fit es2).
Qed.

(** Entries a node of one tree and an equal node of the other stand for. *)
Lemma same_hash_same_entry k1 k2 e1 e2 :
  es1 !! k1 = Some e1 → es2 !! k2 = Some e2 → include e1 = true → include e2 = true →
  hash_entry blake3 e1 = hash_entry blake3 e2 → e1 = e2.
Proof.
  intros H1 H2 Hi1 Hi2 Hh. apply entry_preimage_inj;
    [apply (index_fits _ Hwf1 _ _ H1)|apply (index_fits _ Hwf2 _ _ H2)|].
  apply Hfree; [| |done]; apply elem_of_app; [left|right]; by eapply entry_message.
Qed.

(** The walk from a common node: below it, every node of one tree is a node of
    the other. *)
Lemma same_node_same_subtree p0 m0 p n :
  nodes t1 !! p0 = Some m0 → tn_hash <$> nodes t2 !! p0 = Some (tn_hash m0) →
  p = p0 ∨ p0 ∈ ancestors p → nodes t1 !! p = Some n → nodes t2 !! p = Some n.
Proof.
  intros H0 Hh0. revert n. remember (strlen p) as len eqn:Hl. revert p Hl.
  induction len as [len IH] using lt_wf_ind. intros p -> n Hp Hn.
  destruct (decide (p = p0)) as [->|Hpp].
  { apply fmap_Some in Hh0 as (n2 & Hn2 & Hh0). rewrite Hn2. f_equal. symmetry.
    eapply same_hash_same_node; eauto. congruence. }
  destruct Hp as [?|Hp]; [done|]. assert (p ≠ "") as Hne.
  { intros ->. apply Hpp. cbn in Hp. by apply list_elem_of_singleton in Hp as ->. }
  assert (p ∈ dom (nodes t1)) as Hd by by eapply elem_of_dom_2.
  pose proof (node_path_relative _ _ Hwf1 _ (elem_of_t_dom _ _ _ Ht1 _ Hd)) as Hrel.
  pose proof (tree_sound_parent _ _ _ _ _ Ht1 Hd) as [m Hm]%elem_of_dom.
  assert (parent_path p = p0 ∨ p0 ∈ ancestors (parent_path p)) as Hpar.
  { apply elem_of_ancestors_unfold in Hp as [->|[_ ?]]; auto. }
  pose proof (IH _ (parent_path_lt p Hne) _ eq_refl m Hpar Hm) as Hm2.
  assert (direct_children (nodes t2) (parent_path p) =
    direct_children (nodes t1) (parent_path p)) as Hdc.
  { pose proof (node_lookup _ _ _ Ht2 _ _ Hm2) as E2.
    rewrite (node_lookup _ _ _ Ht1 _ _ Hm) in E2. by apply (f_equal tn_children) in E2. }
  assert (tn_hash <$> nodes t2 !! p = Some (tn_hash n)) as Hh.
  { apply (children_lookup include es2 Hwf2 t2 Ht2); [done..|]. rewrite Hdc.
    apply (children_lookup include es1 Hwf1 t1 Ht1); [done..|]. by rewrite Hn. }
  apply fmap_Some in Hh as (n2 & Hn2 & Hh). rewrite Hn2. f_equal. symmetry.
  by eapply same_hash_same_node.
Qed.

(** And every entry below it is an entry of the other index. *)
Lemma same_node_same_entries p0 m0 k e :
  nodes t1 !! p0 = Some m0 → tn_hash <$> nodes t2 !! p0 = Some (tn_hash m0) →
  p0 ∈ ancestors k → es1 !! k = Some e → include e = true → es2 !! k = Some e.
Proof.
  intros H0 Hh0 Hp Hk Hi. pose proof (index_relative _ Hwf1 _ _ Hk) as Hrel.
  assert (parent_path k ∈ dom (nodes t1)) as [m Hm]%elem_of_dom.
  { apply (tree_sound_above _ _ _ _ Ht1 k e); [done..|].
    rewrite (index_keyed _ Hwf1 _ _ Hk). auto. }
  assert (parent_path k = p0 ∨ p0 ∈ ancestors (parent_path k)) as Hpar.
  { apply elem_of_ancestors_unfold in Hp as [->|[_ ?]]; auto. }
  pose proof (same_node_same_subtree _ _ _ _ H0 Hh0 Hpar Hm) as Hm2.
  pose proof (entries_lookup include es1 Hwf1 k e Hk Hi) as Hh.
  assert (direct_entries blake3 include es1 (parent_path k) =
    direct_entries blake3 include es2 (parent_path k)) as Heq.
  { pose proof (node_lookup _ _ _ Ht2 _ _ Hm2) as E2.
    rewrite (node_lookup _ _ _ Ht1 _ _ Hm) in E2. by apply (f_equal tn_entries) in E2. }
  rewrite Heq in Hh. apply entries_lookup_Some in Hh as (e2 & Hk2 & Hi2 & Hh); [|done..].
  rewrite Hk2. f_equal. symmetry. by eapply same_hash_same_entry.
Qed.

Lemma same_root_same_entries k e :
  root_hash t1 = root_hash t2 →
  es1 !! k = Some e → include e = true → es2 !! k = Some e.
Proof.
  intros Hroot Hk Hi.
  pose proof (tree_sound_root _ _ _ _ Ht1) as R1. pose proof (tree_sound_root _ _ _ _ Ht2) as R2.
  apply fmap_Some in R1 as (m0 & Hm0 & R1).
  eapply (same_node_same_entries "" m0); [done| |auto|done..].
  rewrite R2. f_equal. congruence.
Qed.
End TwoIndexes.
End Merkle.
