(* ===== verification/Samples.v ===== *)
(** * Concrete inputs

    A computable stand-in for BLAKE3 (a polynomial fold, 32 bytes long), one
    for serialisation and a few small indexes, used to instantiate the theorems
    at concrete inputs. *)

From stdpp Require Import countable.
From S2P Require Import Prelude Paths Bytes Utf8 Entries Tree TreeSpec TreeUpdate TreeHash.

(** ** Serialisation: a value is written as the binary digits of its counting *)

Fixpoint digits (p : positive) : string :=
  match p with xH => "" | xO p => String "0" (digits p) | xI p => String "1" (digits p) end.
Fixpoint of_digits (s : string) : option positive :=
  match s with
  | EmptyString => Some xH
  | String "0" s => xO <$> of_digits s
  | String "1" s => xI <$> of_digits s
  | String _ _ => None
  end.

Lemma of_digits_digits p : of_digits (digits p) = Some p.
Proof. induction p as [p IH|p IH|]; simpl; [by rewrite IH..|done]. Qed.

Definition count_ser {A} `{Countable A} (a : A) : option string := Some (digits (encode a)).
Definition count_de {A} `{Countable A} (s : string) : option A := of_digits s ≫= decode.

Lemma count_round_trip {A} `{Countable A} (a : A) : count_de (digits (encode a)) = Some a.
Proof. unfold count_de. rewrite of_digits_digits. apply decode_encode. Qed.

Lemma is_utf8_digits p : is_utf8 (digits p) = true.
Proof.
  unfold is_utf8, utf8_chunks. generalize (strlen (digits p)) as n.
  induction p as [p IH|p IH|]; intros [|n]; simpl; done || apply IH.
Qed.

(** ** Hashing *)

Fixpoint poly_hash (acc : Z) (s : string) : Z :=
  match s with
  | EmptyString => acc
  | String a s => poly_hash (Z.land (acc * 37 + byte_val a + 1) (Z.ones 40)) s
  end.

Definition toy_blake3 (m : string) : Hash := be_bytes 32 (poly_hash 7 m).

Lemma toy_blake3_len m : strlen (toy_blake3 m) = 32%nat.
Proof. apply strlen_be_bytes. Qed.

Definition ver (l : Z) (o : string) : Version := mkVersion l o.

Definition file_entry (p content : string) (v : Version) : Entry :=
  mkEntry p File (Some (toy_blake3 content)) None (Z.of_nat (strlen content))
    (Some 33188) v.
Definition dir_entry (p : string) (v : Version) : Entry :=
  mkEntry p Dir None None 0 (Some 16877) v.
Definition dead_entry (p : string) (v : Version) : Entry :=
  mkEntry p Tombstone None None 0 None v.

Definition index_of (l : list Entry) : gmap string Entry :=
  list_to_map ((λ e, (path e, e)) <$> l).

(** [docs/], [docs/a.txt] and [b.txt], before and after an edit of [docs/a.txt]. *)
Definition sample_old : gmap string Entry :=
  index_of [dir_entry "docs" (ver 1 "n1"); file_entry "docs/a.txt" "one" (ver 2 "n1");
            file_entry "b.txt" "bee" (ver 3 "n1")].
Definition sample_new : gmap string Entry :=
  <["docs/a.txt" := file_entry "docs/a.txt" "two" (ver 4 "n1")]> sample_old.

(** An index whose only entry is an empty directory. *)
Definition sample_empty_dir : gmap string Entry :=
  {[ "docs" := dir_entry "docs" (ver 1 "n1") ]}.

(** Case analysis on the entries of a concrete index. *)
Ltac lookup_cases H :=
  repeat match type of H with
  | <[_ := _]> _ !! _ = Some _ =>
      apply lookup_insert_Some in H as [[<- <-]|[_ H]]
  | {[_ := _]} !! _ = Some _ => apply lookup_singleton_Some in H as [<- <-]
  | ∅ !! _ = Some _ => by rewrite lookup_empty in H
  end.

Ltac decide_now := apply (bool_decide_unpack _); vm_compute; exact I.
