(* ===== verification/TreeProps.v ===== *)
(** * Properties of the Merkle tree *)

From S2P Require Import Prelude Paths Bytes Entries Tree TreeSpec TreeUpdate TreeHash Samples.

(** C9. The Merkle root determines the index: if the trees of two well-formed
    indexes have the same root hash, and BLAKE3 has no collision among the
    messages hashed for these two trees, then the (included) entries are the
    same - paths, kinds, content hashes, symlink targets, sizes, modes and
    versions. *)
Theorem root_hash_determines_index
    (blake3 : string → Hash) (Hlen : ∀ m, strlen (blake3 m) = 32%nat)
    (es1 es2 : gmap string Entry) (Hwf1 : index_wf es1) (Hwf2 : index_wf es2)
    (Hfree : collision_free blake3
       (hashed_messages blake3 include_all es1 ++ hashed_messages blake3 include_all es2)) :
  root_hash (derive_tree blake3 es1) = root_hash (derive_tree blake3 es2) →
  es1 = es2.
Proof.
  intros Hroot. apply map_eq. intros k. apply option_eq. intros e. split; intros Hk.
  - by eapply (same_root_same_entries blake3 Hlen include_all es1 es2 _ _ Hwf1 Hwf2
      (derive_tree_sound blake3 _ _) (derive_tree_sound blake3 _ _)).
  - eapply (same_root_same_entries blake3 Hlen include_all es2 es1 _ _ Hwf2 Hwf1
      (derive_tree_sound blake3 _ _) (derive_tree_sound blake3 _ _)); [|done..].
    intros x y Hx Hy. apply Hfree; rewrite elem_of_app in Hx, Hy |- *; tauto.
Qed.

(** C12. Incremental updates are exact: on the snapshot of the old index, with
    every changed key listed, [update_tree_snapshot] returns precisely the
    snapshot a full derivation of the new index would build - provided every
    included directory entry has an included descendant. *)
Theorem update_tree_snapshot_exact
    (blake3 : string → Hash) (include : Entry → bool) (old new : gmap string Entry)
    (changed : list string) (Hold : keyed old) (Hnew : keyed new)
    (Hagree : agree_outside changed old new) (Hdirs : no_empty_dirs include new) :
  update_tree_snapshot blake3 (derive_tree_with blake3 include old) new changed include =
    derive_tree_with blake3 include new.
Proof. by apply update_tree_snapshot_derive. Qed.

(** The proviso of the previous property is needed: a changed directory
    entry nothing included lies below has no node after [update_tree_snapshot],
    while the full derivation of the same index gives it one.  The two paths
    that maintain the tree therefore disagree on empty directories. *)
Theorem empty_dir_divergence
    (blake3 : string → Hash) (include : Entry → bool) (old new : gmap string Entry)
    (changed : list string) (d : string) (e : Entry)
    (Hold : keyed old) (Hnew : keyed new) (Hagree : agree_outside changed old new)
    (Hd : new !! d = Some e) (Hinc : include e = true) (Hkind : kind e = Dir)
    (Hempty : ∀ k e', new !! k = Some e' → include e' = true → d ∉ ancestors (path e'))
    (Hchanged : d ∈ changed) (Hroot : d ≠ "") :
  nodes (update_tree_snapshot blake3 (derive_tree_with blake3 include old) new changed
           include) !! d = None ∧
  is_Some (nodes (derive_tree_with blake3 include new) !! d).
Proof.
  split.
  - by apply update_drops_empty_dir.
  - apply (derive_keeps_empty_dir blake3 include new d e); try done.
    by apply Hnew.
Qed.

(** A derived snapshot is exactly what its name says: it has a node for the
    root, every ancestor of an included entry and every included directory, and
    no other; each node holds the hashes of its direct entries, the hashes of
    its child nodes and the hash of both; and the snapshot's root hash is the
    root node's.  No other snapshot has these properties. *)
Theorem derive_tree_with_spec
    (blake3 : string → Hash) (include : Entry → bool) (entries : gmap string Entry)
    (t : TreeSnapshot) :
  tree_ok blake3 include entries t ↔ t = derive_tree_with blake3 include entries.
Proof.
  split.
  - intros Hok. by eapply tree_ok_unique, derive_tree_with_ok.
  - intros ->. apply derive_tree_with_ok.
Qed.

(** ** Witnesses *)

Lemma sample_old_wf : index_wf sample_old.
Proof. apply index_wfb_sound. vm_compute. reflexivity. Qed.

Lemma root_hash_determines_index_witness :
  sample_old = index_of [file_entry "b.txt" "bee" (ver 3 "n1");
    file_entry "docs/a.txt" "one" (ver 2 "n1"); dir_entry "docs" (ver 1 "n1")].
Proof.
  apply (root_hash_determines_index toy_blake3 toy_blake3_len).
  - apply sample_old_wf.
  - apply index_wfb_sound. vm_compute. reflexivity.
  - apply collision_freeb_sound. vm_compute. reflexivity.
  - vm_compute. reflexivity.
Defined.

Lemma sample_no_empty_dirs : no_empty_dirs include_live sample_new.
Proof.
  intros k e Hk. unfold sample_new, sample_old, index_of in Hk. cbn in Hk.
  lookup_cases Hk; try done. intros _ _.
  exists "docs/a.txt", (file_entry "docs/a.txt" "two" (ver 4 "n1")).
  split_and!; [reflexivity|reflexivity|]. cbn. left.
Qed.

Lemma update_tree_snapshot_exact_witness :
  update_tree_snapshot toy_blake3 (derive_live_tree toy_blake3 sample_old) sample_new
    ["docs/a.txt"] include_live = derive_live_tree toy_blake3 sample_new.
Proof.
  apply (update_tree_snapshot_exact toy_blake3 include_live sample_old sample_new).
  - decide_now.
  - decide_now.
  - intros k Hk. unfold sample_new. rewrite lookup_insert_ne; [done|]. set_solver.
  - apply sample_no_empty_dirs.
Defined.

Lemma empty_dir_divergence_witness :
  nodes (update_tree_snapshot toy_blake3 (derive_tree toy_blake3 ∅) sample_empty_dir
           ["docs"] include_all) !! "docs" = None ∧
  is_Some (nodes (derive_tree toy_blake3 sample_empty_dir) !! "docs").
Proof.
  apply (empty_dir_divergence toy_blake3 include_all ∅ sample_empty_dir ["docs"] "docs"
    (dir_entry "docs" (ver 1 "n1"))).
  - decide_now.
  - decide_now.
  - intros k Hk. unfold sample_empty_dir. rewrite lookup_singleton_ne; [done|]. set_solver.
  - reflexivity.
  - reflexivity.
  - reflexivity.
  - intros k e Hk _. unfold sample_empty_dir in Hk. lookup_cases Hk. vm_compute.
    intros Hin. inversion Hin as [|? ? ? Hin']. by apply elem_of_nil in Hin'.
  - left.
  - discriminate.
Defined.

(** The divergence is visible in the root hashes the nodes exchange. *)
Example empty_dir_roots_differ :
  root_hash (update_tree_snapshot toy_blake3 (derive_tree toy_blake3 ∅) sample_empty_dir
               ["docs"] include_all)
  ≠ root_hash (derive_tree toy_blake3 sample_empty_dir).
Proof. vm_compute. discriminate. Qed.
