(* ===== verification/State.v ===== *)
(** * The folder state: [src/src/state.rs]

    [FolderState] is the authoritative sync state of one watched folder: the
    entry index, the two Merkle trees, the Lamport clock and the GC watermark.
    Operations on [&mut self] that touch the disk run in [M (World F)]: an early
    return with [?] keeps the mutations made before it.  Operations that only
    change the in-memory index are functions on the state. *)

From stdpp Require Import pretty.
From S2P Require Import Prelude Paths Bytes Utf8 Fs Ignore Entries Scan Tree.

Record LegacyEntry : Set := mkLegacy {
  le_path : string;
  le_kind : EntryKind;
  le_content_hash : option Hash;
  le_size : Z;
  le_mode : option Z;
  le_version : Version
}.

(** [LegacyEntry::into_entry]. *)
Definition into_entry (e : LegacyEntry) : Entry :=
  mkEntry (le_path e) (le_kind e) (le_content_hash e) None (le_size e) (le_mode e)
    (le_version e).

Record FolderState : Set := mkState {
  st_root : string;
  st_origin : string;
  st_lamport : Z;
  st_gc_watermark : GcWatermark;
  st_entries : gmap string Entry;
  st_tree : TreeSnapshot;
  st_live_tree : TreeSnapshot;
  st_scan_cache : ScanCache
}.

Definition set_lamport (l : Z) (s : FolderState) : FolderState :=
  mkState (st_root s) (st_origin s) l (st_gc_watermark s) (st_entries s) (st_tree s)
    (st_live_tree s) (st_scan_cache s).
Definition set_watermark (w : GcWatermark) (s : FolderState) : FolderState :=
  mkState (st_root s) (st_origin s) (st_lamport s) w (st_entries s) (st_tree s)
    (st_live_tree s) (st_scan_cache s).
Definition set_entries (es : gmap string Entry) (s : FolderState) : FolderState :=
  mkState (st_root s) (st_origin s) (st_lamport s) (st_gc_watermark s) es (st_tree s)
    (st_live_tree s) (st_scan_cache s).
Definition set_trees (t lt : TreeSnapshot) (s : FolderState) : FolderState :=
  mkState (st_root s) (st_origin s) (st_lamport s) (st_gc_watermark s) (st_entries s) t lt
    (st_scan_cache s).
Definition set_scan_cache (c : ScanCache) (s : FolderState) : FolderState :=
  mkState (st_root s) (st_origin s) (st_lamport s) (st_gc_watermark s) (st_entries s)
    (st_tree s) (st_live_tree s) c.

(** The [bincode] crate's encodings of the persisted values. *)
Class StateCodec := {
  cache_codec :: CacheCodec;
  ser_entries : gmap string Entry → option string;
  de_entries : string → option (gmap string Entry);
  de_legacy_entries : string → option (gmap string LegacyEntry);
  ser_watermark : GcWatermark → option string;
  de_watermark : string → option GcWatermark
}.

(** ** Validation *)

Definition bad_remote_component (c : string) : bool :=
  bool_decide (c = "") || bool_decide (c = ".") || bool_decide (c = "..")
  || should_ignore_component c.

Definition validate_remote_path (path : string) : IoResult () :=
  if decide (path = "") then Err InvalidInput
  else if contains "000"%char path || contains "092"%char path then Err InvalidInput
  else if existsb bad_remote_component (split_on slash path) then Err InvalidInput
  else if is_absolute path || existsb escaping_component (path_components path)
  then Err InvalidInput
  else Ok ().

(** [m & !0o6000] on [u32]. *)
Definition sanitize_remote_mode (m : option Z) : option Z :=
  (λ m, Z.land m (Z.lxor (Z.ones 32) 3072)) <$> m.

(** ** The index in memory *)

Definition is_version_gced (s : FolderState) (v : Version) : bool :=
  match st_gc_watermark s !! origin v with
  | Some l => lamport v <=? l
  | None => false
  end.

Definition should_accept_remote (s : FolderState) (remote : Entry) : bool :=
  if negb (is_ok (validate_remote_path (path remote))) then false
  else if bool_decide (kind remote = Tombstone) && is_version_gced s (version remote) then false
  else match st_entries s !! path remote with
       | Some local => version_gt (version remote) (version local)
       | None => true
       end.

(** [next_version]: the clock ticks, wrapping at [2^64]. *)
Definition next_version (s : FolderState) : FolderState * Version :=
  let l := add64 (st_lamport s) 1 in
  (set_lamport l s, mkVersion l (st_origin s)).

(** The state with the changes recorded so far: [&mut self, changes: &mut Vec<Change>]. *)
Abbreviation Acc := (FolderState * list Change)%type (only parsing).

(** The body shared by the three tombstoning loops.  The keys come from the
    index and no loop removes any, so the lookup does not fail. *)
Definition tombstone_path (p : string) (acc : Acc) : Acc :=
  let '(s, changes) := acc in
  match st_entries s !! p with
  | None => acc
  | Some old =>
      if decide (kind old = Tombstone) then acc
      else
        let '(s, v) := next_version s in
        let new := tombstone_entry p old v in
        (set_entries (<[p := new]> (st_entries s)) s, changes ++ [mkChange p (Some old) new])
  end.

Definition tombstone_all (ps : list string) (acc : Acc) : Acc :=
  foldl (λ acc p, tombstone_path p acc) acc ps.

Definition tombstone_descendants (relative : string) (acc : Acc) : Acc :=
  let prefix := relative +:+ "/" in
  tombstone_all
    (List.filter (λ p, bool_decide (p = relative) || starts_with prefix p)
       (btree_keys (st_entries acc.1))) acc.

Definition tombstone_child_descendants (relative : string) (acc : Acc) : Acc :=
  let prefix := relative +:+ "/" in
  tombstone_all (List.filter (starts_with prefix) (btree_keys (st_entries acc.1))) acc.

Definition with_version (e : Entry) (v : Version) : Entry :=
  mkEntry (path e) (kind e) (content_hash e) (symlink_target e) (size e) (mode e) v.

Definition update_entry (p : string) (live : Entry) (acc : Acc) : Acc :=
  let '(s, changes) := acc in
  let existing := st_entries s !! p in
  if match existing with Some o => same_observed_state o live | None => false end then acc
  else
    let replaces_dir_with_non_dir :=
      match existing with Some old => bool_decide (kind old = Dir) | None => false end
      && bool_decide (kind live ≠ Dir) in
    let '(s, v) := next_version s in
    let new := with_version live v in
    let acc := (set_entries (<[p := new]> (st_entries s)) s,
                changes ++ [mkChange p existing new]) in
    if replaces_dir_with_non_dir then tombstone_child_descendants p acc else acc.

Definition update_entries (live : list (string * Entry)) (acc : Acc) : Acc :=
  foldl (λ acc pe, update_entry pe.1 pe.2 acc) acc live.

(** The second loop of [rescan]: entries no longer on disk become tombstones. *)
Definition tombstone_unseen (seen : gset string) (ignore_patterns : list IgnorePattern)
    (acc : Acc) : Acc :=
  tombstone_all
    (List.filter (λ p, bool_decide (p ∉ seen) && negb (should_ignore p ignore_patterns))
       (btree_keys (st_entries acc.1))) acc.

#[global] Arguments tombstone_all : simpl never.
#[global] Arguments tombstone_descendants : simpl never.
#[global] Arguments tombstone_child_descendants : simpl never.
#[global] Arguments tombstone_unseen : simpl never.
#[global] Arguments update_entry : simpl never.
#[global] Arguments update_entries : simpl never.

(** One step of the loop of [merge_gc_watermark]. *)
Definition merge_watermark_step (acc : GcWatermark * bool) (item : string * Z)
  : GcWatermark * bool :=
  let '(w, changed) := acc in
  let local := default 0 (w !! item.1) in
  if item.2 >? local then (<[item.1 := item.2]> w, true) else (<[item.1 := local]> w, changed).

Definition merge_watermarks (w incoming : GcWatermark) : GcWatermark * bool :=
  foldl merge_watermark_step (w, false) (btree_items incoming).

(** The highest clock of the tombstones of each origin. *)
Definition tombstone_watermark_step (w : GcWatermark) (e : Entry) : GcWatermark :=
  if decide (kind e = Tombstone) then
    let l := default 0 (w !! origin (version e)) in
    <[origin (version e) := Z.max l (lamport (version e))]> w
  else w.
Definition tombstone_watermark (es : gmap string Entry) : GcWatermark :=
  foldl tombstone_watermark_step ∅ (btree_values es).

Definition covered (s : FolderState) (e : Entry) : bool :=
  bool_decide (kind e = Tombstone) && is_version_gced s (version e).

Section State.
Context {F : Type} `{FsOps F} (blake3 : string → Hash) `{StateCodec}.

Record World : Type := mkWorld { w_fs : F; w_st : FolderState }.

Definition on_fs {A} : M F A → M World A :=
  m_zoom w_fs (λ f w, mkWorld f (w_st w)).
Definition on_st (f : FolderState → FolderState) : M World () :=
  m_modify (λ w, mkWorld (w_fs w) (f (w_st w))).
Definition get_st : M World FolderState := m_gets w_st.
(** Run a function of the state and the changes. *)
Definition run_acc (f : Acc → Acc) (changes : list Change) : M World (list Change) :=
  λ w, let '(s, changes) := f (w_st w, changes) in (mkWorld (w_fs w) s, Ok changes).
(** Borrow the file system and the scan cache. *)
Definition on_cache {A} : M (F * ScanCache) A → M World A :=
  m_zoom (λ w, (w_fs w, st_scan_cache (w_st w)))
    (λ fc w, mkWorld fc.1 (set_scan_cache fc.2 (w_st w))).

Definition derive_trees (s : FolderState) : FolderState :=
  set_trees (derive_tree blake3 (st_entries s)) (derive_live_tree blake3 (st_entries s)) s.

Definition update_trees (changed : list string) (s : FolderState) : FolderState :=
  set_trees (update_tree_snapshot blake3 (st_tree s) (st_entries s) changed include_all)
    (update_tree_snapshot blake3 (st_live_tree s) (st_entries s) changed include_live) s.

(** *** Accessors *)

Definition node (s : FolderState) (prefix : string) : option TreeNode :=
  nodes (st_tree s) !! normalize_prefix prefix.

Definition entry (s : FolderState) (p : string) : option Entry :=
  st_entries s !! trim_matches slash p.

Definition object_file (s : FolderState) (hash : Hash) : option (string * Z) :=
  head (omap (λ e, if bool_decide (kind e = File) && bool_decide (content_hash e = Some hash)
                   then Some (path_join (st_root s) (path e), size e) else None)
             (btree_values (st_entries s))).

(** [tmp_recv_path]: [id] is the next value of the process-wide counter. *)
Definition tmp_recv_path (s : FolderState) (pid id : Z) (e : Entry) : string :=
  let path_hash := hex (blake3 (path e)) in
  path_join (path_join (st_root s) STATE_DIR)
    ("recv-" +:+ pretty pid +:+ "-" +:+ pretty id +:+ "-" +:+ pretty (lamport (version e))
       +:+ "-" +:+ String.substring 0 16 path_hash).

(** *** Persistence *)

Definition state_file (s : FolderState) (name : string) : string :=
  path_join (path_join (st_root s) STATE_DIR) name.

Definition save_lamport : M World () :=
  (s <- get_st ;;
   m_ignore (on_fs (write_atomic (state_file s "lamport") (le_bytes 8 (st_lamport s)))))%m.

Definition save_entries : M World () :=
  (s <- get_st ;;
   match ser_entries (st_entries s) with
   | Some bytes => m_ignore (on_fs (write_atomic (state_file s "entries.bin") bytes))
   | None => m_ret ()
   end)%m.

Definition save_gc_watermark : M World () :=
  (s <- get_st ;;
   match ser_watermark (st_gc_watermark s) with
   | Some bytes => m_ignore (on_fs (write_atomic (state_file s "gc-watermark.bin") bytes))
   | None => m_ret ()
   end)%m.

Definition load_saved_entries (state_dir : string) : M F (gmap string Entry) :=
  (r <- m_try (fs_read (path_join state_dir "entries.bin")) ;;
   match r with
   | Err NotFound => m_ret ∅
   | Err e => m_err e
   | Ok bytes =>
       match de_entries bytes with
       | Some entries => m_ret entries
       | None => match de_legacy_entries bytes with
                 | Some entries => m_ret (into_entry <$> entries)
                 | None => m_err OtherError
                 end
       end
   end)%m.

Definition load_stored_entries (root : string) : M F (gmap string Entry) :=
  load_saved_entries (path_join root STATE_DIR).

Definition load_saved_lamport (state_dir : string) : M F Z :=
  (r <- m_try (fs_read (path_join state_dir "lamport")) ;;
   m_ret (match r with
          | Ok b => if (strlen b =? 8)%nat then le_value b else 0
          | Err _ => 0
          end))%m.

Definition load_gc_watermark (state_dir : string) : M F GcWatermark :=
  (r <- m_try (fs_read (path_join state_dir "gc-watermark.bin")) ;;
   m_ret (match r with Ok bytes => default ∅ (de_watermark bytes) | Err _ => ∅ end))%m.

(** *** Changing the disk *)

Definition set_mode (p : string) (md : option Z) : M F () :=
  match md with Some md => fs_set_permissions p md | None => m_ret () end.

(** [make_dir_tree_writable]: the recursion is on the depth of the tree. *)
Fixpoint make_dir_tree_writable (fuel : nat) (p : string) : M F () :=
  match fuel with
  | O => m_err OtherError
  | S fuel =>
      (metadata <- fs_symlink_metadata p ;;
       if negb (is_dir metadata) then m_ret ()
       else
         set_mode p (Some (Z.lor (md_mode metadata) 448)) ;;
         children <- fs_read_dir p ;;
         m_for children (λ child,
           name <- m_lift child ;;
           let child_path := path_join p name in
           child_metadata <- fs_symlink_metadata child_path ;;
           if is_dir child_metadata then make_dir_tree_writable fuel child_path else m_ret ()))%m
  end.

Definition remove_dir_all_writable (p : string) : M F () :=
  (make_dir_tree_writable path_max p ;; fs_remove_dir_all p)%m.

Definition remove_path_if_exists (p : string) : M F () :=
  (r <- m_try (fs_symlink_metadata p) ;;
   match r with
   | Ok metadata => if is_dir metadata then remove_dir_all_writable p else fs_remove_file p
   | Err NotFound => m_ret ()
   | Err e => m_err e
   end)%m.

Definition cleanup_recv_files (state_dir : string) : M F () :=
  (r <- m_try (fs_read_dir state_dir) ;;
   match r with
   | Err _ => m_ret ()
   | Ok listing =>
       m_for listing (λ child,
         match child with
         | Err _ => m_ret ()
         | Ok name =>
             if starts_with "recv-" (to_string_lossy name)
             then m_ignore (remove_path_if_exists (path_join state_dir name))
             else m_ret ()
         end)
   end)%m.

(** The free function [install_remote_dir]. *)
Definition install_dir (p : string) : M F () :=
  (r <- m_try (fs_symlink_metadata p) ;;
   match r with
   | Ok metadata =>
       if is_dir metadata then m_ret ()
       else remove_path_if_exists p ;; fs_create_dir_all p
   | Err NotFound => fs_create_dir_all p
   | Err e => m_err e
   end)%m.

(** [if let Some(parent) = dest.parent() { fs::create_dir_all(parent)?; }] *)
Definition create_parent (dest : string) : M F () :=
  match path_parent dest with
  | Some parent => fs_create_dir_all parent
  | None => m_ret ()
  end.

Definition install_remote_file (root : string) (remote : Entry) (tmp_path : string) : M F () :=
  (let dest := path_join root (path remote) in
   create_parent dest ;;
   remove_path_if_exists dest ;;
   fs_rename tmp_path dest ;;
   match sanitize_remote_mode (mode remote) with
   | Some m => fs_set_permissions dest m
   | None => m_ret ()
   end)%m.

Definition install_remote_dir (root : string) (remote : Entry) : M F () :=
  (let dest := path_join root (path remote) in
   install_dir dest ;; set_mode dest (sanitize_remote_mode (mode remote)))%m.

Definition install_remote_symlink (root : string) (remote : Entry) : M F () :=
  (let dest := path_join root (path remote) in
   target <- m_lift (ok_or InvalidInput (symlink_target remote)) ;;
   m_lift (validate_symlink_target target) ;;
   create_parent dest ;;
   remove_path_if_exists dest ;;
   fs_symlink target dest)%m.

(** The [match remote.kind] of [apply_remote_entry_core]. *)
Definition install_remote (root : string) (remote : Entry) (tmp : option string) : M F () :=
  match kind remote with
  | File => (tmp <- m_lift (ok_or InvalidInput tmp) ;; install_remote_file root remote tmp)%m
  | Dir => install_remote_dir root remote
  | Symlink => install_remote_symlink root remote
  | Tombstone => remove_path_if_exists (path_join root (path remote))
  end.

(** *** Remote entries *)

(** What [apply_remote_entry_core] does to the index once the entry is
    installed on disk. *)
Definition record_remote (remote : Entry) (acc : Acc) : Acc :=
  let '(s, changes) := acc in
  let s := set_lamport (Z.max (st_lamport s) (lamport (version remote))) s in
  let old := st_entries s !! path remote in
  let s := set_entries (<[path remote := remote]> (st_entries s)) s in
  let changes := changes ++ [mkChange (path remote) old remote] in
  if decide (kind remote = Dir) then (s, changes)
  else tombstone_child_descendants (path remote) (s, changes).

(** [apply_remote_entry_core]: the changes made. *)
Definition apply_remote_entry_core (remote : Entry) (object_tmp_path : option string)
  : M World (list Change) :=
  (m_lift (validate_remote_path (path remote)) ;;
   s <- get_st ;;
   if negb (should_accept_remote s remote) then
     match object_tmp_path with
     | Some tmp => m_ignore (on_fs (fs_remove_file tmp))
     | None => m_ret ()
     end ;;
     m_ret []
   else
     on_fs (install_remote (st_root s) remote object_tmp_path) ;;
     run_acc (record_remote remote) [])%m.

(** [changed_paths] has the path of every change. *)
Definition apply_remote_entries (batch : list (Entry * option string)) : M World (list Change) :=
  (all_changes <- m_fold batch (λ item all_changes,
     changes <- apply_remote_entry_core item.1 item.2 ;;
     m_ret (all_changes ++ changes)) [] ;;
   match all_changes with
   | [] => m_ret ()
   | _ => on_st (update_trees (ch_path <$> all_changes)) ;; save_lamport ;; save_entries
   end ;;
   m_ret all_changes)%m.

(** *** Local changes *)

Definition save_scan_cache : M World () :=
  (s <- get_st ;;
   c <- on_fs (cache_save (path_join (st_root s) STATE_DIR) (st_scan_cache s)) ;;
   on_st (set_scan_cache c))%m.

Definition rescan : M World (list Change) :=
  (s <- get_st ;;
   ignore_patterns <- on_fs (load_ignore_patterns (st_root s)) ;;
   live <- on_cache (scan_folder blake3 (st_root s)) ;;
   let live_items := btree_items live.1 in
   let seen := live.2 ∪ dom live.1 in
   changes <- run_acc (update_entries live_items) [] ;;
   on_st (λ s, set_scan_cache (retain_paths seen (st_scan_cache s)) s) ;;
   save_scan_cache ;;
   changes <- run_acc (tombstone_unseen seen ignore_patterns) changes ;;
   on_st derive_trees ;;
   m_ret changes)%m.

Definition apply_one_path (abs_path relative : string) (ignore_patterns : list IgnorePattern)
    (changes : list Change) : M World (list Change) :=
  (if should_ignore relative ignore_patterns then m_ret changes
   else
     r <- on_fs (m_try (fs_symlink_metadata abs_path)) ;;
     match r with
     | Ok metadata =>
         if is_symlink metadata then
           target <- on_fs (read_supported_symlink abs_path) ;;
           match target with
           | Some target => run_acc (update_entry relative (live_symlink relative target)) changes
           | None => m_ret changes
           end
         else if is_file metadata then
           observed <- on_cache (observe_file_cached blake3 abs_path relative metadata true) ;;
           match observed with
           | Some o => run_acc (update_entry relative (live_file relative o)) changes
           | None => m_ret changes
           end
         else if is_dir metadata then
           changes <- run_acc (update_entry relative (live_dir relative (mode_of metadata)))
                        changes ;;
           s <- get_st ;;
           dir_entries <- on_cache (λ fc,
             let '(w, r) := scan_dir blake3 path_max (st_root s) abs_path ignore_patterns
                              (mkScanW fc.1 fc.2 ∅ ∅) in
             ((sw_fs w, sw_cache w), (λ _, sw_entries w) <$> r)) ;;
           run_acc (update_entries (btree_items dir_entries)) changes
         else m_ret changes
     | Err NotFound => run_acc (tombstone_descendants relative) changes
     | Err e => m_err e
     end)%m.

Definition apply_paths (abs_paths : list string) : M World (list Change) :=
  (canonical_paths <- on_fs (m_fold abs_paths (λ p acc,
     q <- normalize_event_path p ;;
     m_ret (match q with Some q => acc ++ [q] | None => acc end)) []) ;;
   s <- get_st ;;
   if existsb (path_eq (path_join (st_root s) IGNORE_FILE_NAME)) canonical_paths then rescan
   else
     ignore_patterns <- on_fs (load_ignore_patterns (st_root s)) ;;
     changes <- m_fold canonical_paths (λ abs_path changes,
       match relative_path (st_root s) abs_path with
       | Ok relative => if decide (relative = "") then m_ret changes
                        else apply_one_path abs_path relative ignore_patterns changes
       | Err _ => m_ret changes
       end) [] ;;
     save_scan_cache ;;
     match changes with
     | [] => m_ret ()
     | _ => on_st (update_trees (ch_path <$> changes)) ;; save_lamport ;; save_entries
     end ;;
     m_ret changes)%m.

(** *** Garbage collection *)

(** [prune_tombstones_covered_by_watermark]: the state and the number removed. *)
Definition prune_tombstones (s : FolderState) : FolderState * nat :=
  let to_remove := fst <$> List.filter (λ kv, covered s kv.2) (btree_items (st_entries s)) in
  match to_remove with
  | [] => (s, O)
  | _ => (derive_trees (set_entries (foldl (λ m k, delete k m) (st_entries s) to_remove) s),
          length to_remove)
  end.

Definition m_prune : M World nat :=
  λ w, let '(s, n) := prune_tombstones (w_st w) in (mkWorld (w_fs w) s, Ok n).

Definition merge_gc_watermark (incoming : GcWatermark) : M World (bool * nat) :=
  (s <- get_st ;;
   let '(w, changed) := merge_watermarks (st_gc_watermark s) incoming in
   on_st (set_watermark w) ;;
   (if changed : bool then
      save_gc_watermark ;;
      let own_watermark := default 0 (w !! st_origin s) in
      if st_lamport s <? own_watermark then on_st (set_lamport own_watermark) ;; save_lamport
      else m_ret ()
    else m_ret ()) ;;
   pruned <- m_prune ;;
   (if (0 <? pruned)%nat then
      on_st (λ s, set_lamport (add64 (st_lamport s) 1) s) ;; save_lamport
    else m_ret ()) ;;
   m_ret (changed, pruned))%m.

Definition gc_tombstones_for_converged_root : M World nat :=
  (s <- get_st ;;
   let watermark := tombstone_watermark (st_entries s) in
   if decide (watermark = ∅) then m_ret O
   else r <- merge_gc_watermark watermark ;; m_ret r.2)%m.

(** *** Construction *)

(** The clock [new] starts from. *)
Definition initial_lamport (saved : Z) (entries : gmap string Entry) (own_watermark : Z) : Z :=
  Z.max (Z.max saved (foldr (λ e m, Z.max (lamport (version e)) m) 0 (btree_values entries)))
    own_watermark.

Definition new_body : M World () :=
  (pruned <- m_prune ;;
   (if (0 <? pruned)%nat then save_entries else m_ret ()) ;;
   changes <- rescan ;;
   match changes with [] => m_ret () | _ => save_entries end ;;
   save_lamport)%m.

Definition new_state (root origin : string) : M F FolderState :=
  (root <- fs_canonicalize root ;;
   let state_dir := path_join root STATE_DIR in
   fs_create_dir_all state_dir ;;
   cleanup_recv_files state_dir ;;
   saved_lamport <- load_saved_lamport state_dir ;;
   gc_watermark <- load_gc_watermark state_dir ;;
   saved_entries <- load_saved_entries state_dir ;;
   scan_cache <- cache_load state_dir ;;
   let own_watermark := default 0 (gc_watermark !! origin) in
   let s := mkState root origin (initial_lamport saved_lamport saved_entries own_watermark)
              gc_watermark saved_entries (empty_snapshot blake3) (empty_snapshot blake3)
              scan_cache in
   λ f, let '(w, r) := new_body (mkWorld f s) in (w_fs w, (λ _, w_st w) <$> r))%m.

End State.

#[global] Arguments record_remote : simpl never.
#[global] Arguments install_remote : simpl never.
#[global] Arguments prune_tombstones : simpl never.
