(* ===== verification/StateLocal.v ===== *)
(** * Local changes as a step relation

    Every local change of the index - an observed file, a deletion, a directory
    replaced by a file - has the same shape: tick the clock, write one entry
    with the new version.  [local_changes s cs s'] says that [s'] is [s] after
    the changes [cs], in order.  Each in-memory operation of [State] is shown to
    be such a sequence, and the facts about clocks and versions are proved once,
    by induction on the relation. *)

From S2P Require Import Prelude Paths Bytes Utf8 Fs Ignore Entries Scan Tree TreeUpdate State.

Definition write_local (s : FolderState) (e : Entry) : FolderState * Entry :=
  let '(s', v) := next_version s in
  (set_entries (<[path e := with_version e v]> (st_entries s')) s', with_version e v).

Inductive local_changes : FolderState → list Change → FolderState → Prop :=
  | local_nil s : local_changes s [] s
  | local_cons s e cs s' :
      local_changes (write_local s e).1 cs s' →
      local_changes s (mkChange (path e) (st_entries s !! path e) (write_local s e).2 :: cs) s'.

Lemma with_version_with_version e v v' : with_version (with_version e v) v' = with_version e v'.
Proof. done. Qed.

Lemma tombstone_with_version p old v v' :
  with_version (tombstone_entry p old v) v' = tombstone_entry p old v'.
Proof. done. Qed.

Lemma local_changes_app s cs s1 cs' s2 :
  local_changes s cs s1 → local_changes s1 cs' s2 → local_changes s (cs ++ cs') s2.
Proof. induction 1; simpl; [done|]. intros. constructor. auto. Qed.

Lemma local_changes_one s e :
  local_changes s [mkChange (path e) (st_entries s !! path e) (write_local s e).2]
    (write_local s e).1.
Proof. repeat constructor. Qed.

(** An operation on the accumulator extends the changes by local changes. *)
Definition acc_local (f : FolderState * list Change → FolderState * list Change) : Prop :=
  ∀ s cs, ∃ ds s', f (s, cs) = (s', cs ++ ds) ∧ local_changes s ds s'.

Lemma acc_local_id : acc_local (λ acc, acc).
Proof. intros s cs. exists [], s. rewrite app_nil_r. split; [done|constructor]. Qed.

Lemma acc_local_compose f g : acc_local f → acc_local g → acc_local (λ acc, g (f acc)).
Proof.
  intros Hf Hg s cs. destruct (Hf s cs) as (ds & s1 & E & Hds).
  destruct (Hg s1 (cs ++ ds)) as (ds' & s2 & E' & Hds'). exists (ds ++ ds'), s2.
  rewrite E, E', app_assoc. split; [done|]. by eapply local_changes_app.
Qed.

Lemma acc_local_foldl {A} (f : A → FolderState * list Change → FolderState * list Change) l :
  (∀ a, a ∈ l → acc_local (f a)) → acc_local (λ acc, foldl (λ acc a, f a acc) acc l).
Proof.
  intros Hf.
  induction l as [|a l IH]; [apply acc_local_id|]. simpl.
  apply (acc_local_compose (f a) (λ acc, foldl (λ acc a, f a acc) acc l)).
  - apply Hf. left.
  - apply IH. intros b Hb. apply Hf. by right.
Qed.

Lemma tombstone_path_local p : acc_local (tombstone_path p).
Proof.
  intros s cs. unfold tombstone_path.
  destruct (st_entries s !! p) as [old|] eqn:E; [|apply acc_local_id].
  case_decide; [apply acc_local_id|].
  eexists _, _. split; [reflexivity|]. rewrite <-E.
  apply (local_changes_one s (tombstone_entry p old placeholder_version)).
Qed.

Lemma tombstone_all_local ps : acc_local (tombstone_all ps).
Proof.
  apply (acc_local_foldl tombstone_path). intros. apply tombstone_path_local.
Qed.

Lemma tombstone_descendants_local p : acc_local (tombstone_descendants p).
Proof. intros s cs. apply tombstone_all_local. Qed.

Lemma tombstone_child_descendants_local p : acc_local (tombstone_child_descendants p).
Proof. intros s cs. apply tombstone_all_local. Qed.

Lemma tombstone_unseen_local seen pats : acc_local (tombstone_unseen seen pats).
Proof. intros s cs. apply tombstone_all_local. Qed.

Lemma update_entry_local live : acc_local (update_entry (path live) live).
Proof.
  intros s cs. unfold update_entry.
  destruct (match st_entries s !! path live with
            | Some o => same_observed_state o live | None => false end);
    [apply acc_local_id|].
  pose proof (local_changes_one s live) as Hone.
  destruct (_ && _).
  - destruct (tombstone_child_descendants_local (path live) (write_local s live).1
      (cs ++ [mkChange (path live) (st_entries s !! path live) (write_local s live).2]))
      as (ds & s' & E & Hds).
    eexists (_ :: ds), s'. split; [|by apply (local_changes_app _ [_] _ ds _ Hone)].
    etrans; [exact E|]. by rewrite <-app_assoc.
  - eexists [_], _. split; [reflexivity|exact Hone].
Qed.

Lemma update_entries_local live :
  (∀ p e, (p, e) ∈ live → path e = p) → acc_local (update_entries live).
Proof.
  intros Hkeyed. apply (acc_local_foldl (λ pe : string * Entry, update_entry pe.1 pe.2)).
  intros [p e] Hin. apply Hkeyed in Hin as <-. apply update_entry_local.
Qed.

(** ** What a sequence of local changes does *)

Lemma local_changes_frame s cs s' :
  local_changes s cs s' →
  st_root s' = st_root s ∧ st_origin s' = st_origin s ∧
  st_gc_watermark s' = st_gc_watermark s ∧ st_tree s' = st_tree s ∧
  st_live_tree s' = st_live_tree s ∧ st_scan_cache s' = st_scan_cache s.
Proof. induction 1; [done|]. destruct_and!. by split_and!. Qed.

(** The clock counts the changes, modulo the width of the integer. *)
Lemma local_changes_lamport s cs s' :
  local_changes s cs s' → 0 ≤ st_lamport s < u64_modulus →
  st_lamport s' = wrap64 (st_lamport s + Z.of_nat (length cs)) ∧
  0 ≤ st_lamport s' < u64_modulus.
Proof.
  induction 1 as [s|s e cs s' _ IH]; intros Hr.
  - split; [|done]. rewrite Z.add_0_r. symmetry. by apply Z.mod_small.
  - destruct IH as [IH IH']; [apply add64_range|]. split; [|done]. rewrite IH.
    simpl. unfold wrap64, add64, wrap64. rewrite Zplus_mod_idemp_l. f_equal. lia.
Qed.

(** Replaying the changes gives the new index. *)
Definition replay (es : gmap string Entry) (cs : list Change) : gmap string Entry :=
  foldl (λ es c, <[ch_path c := ch_new c]> es) es cs.

Lemma local_changes_replay s cs s' :
  local_changes s cs s' → st_entries s' = replay (st_entries s) cs.
Proof. induction 1; [done|]. simpl. by rewrite IHlocal_changes. Qed.

Lemma replay_lookup es cs p e :
  replay es cs !! p = Some e →
  es !! p = Some e ∨ ∃ c, c ∈ cs ∧ ch_path c = p ∧ ch_new c = e.
Proof.
  revert es. induction cs as [|c cs IH]; intros es; simpl; [by left|].
  intros [Hes|(c' & Hin & Hp & He)]%IH.
  - apply lookup_insert_Some in Hes as [[Hp He]|[_ Hes]]; [|by left].
    right. exists c. split; [left|done].
  - right. exists c'. split; [by right|done].
Qed.

(** Without wrap-around each change carries a version above the old clock, not
    above the new one, of this node. *)
Lemma local_changes_versions s cs s' c :
  local_changes s cs s' → c ∈ cs →
  0 ≤ st_lamport s → st_lamport s + Z.of_nat (length cs) < u64_modulus →
  path (ch_new c) = ch_path c ∧ origin (version (ch_new c)) = st_origin s ∧
  st_lamport s < lamport (version (ch_new c)) ≤ st_lamport s'.
Proof.
  intros Hcs. revert c. induction Hcs as [s|s e cs s' Hcs IH]; intros c Hin H0 Hb.
  { by apply elem_of_nil in Hin. }
  simpl in Hb. assert (st_lamport (write_local s e).1 = st_lamport s + 1) as Hl
    by (apply add64_small; lia).
  destruct (local_changes_lamport _ _ _ Hcs) as [Hl' _]; [rewrite Hl; lia|].
  rewrite Hl in Hl'. unfold wrap64 in Hl'. rewrite Z.mod_small in Hl' by lia.
  apply elem_of_cons in Hin as [->|Hin].
  - split_and!; [done|done| |]; simpl; rewrite add64_small; lia.
  - destruct (IH c Hin) as (?&?&?); [rewrite Hl; lia..|].
    rewrite Hl in *. split_and!; [done|done|lia|lia].
Qed.

Lemma replay_keyed es cs :
  keyed es → Forall (λ c, path (ch_new c) = ch_path c) cs → keyed (replay es cs).
Proof.
  intros Hes Hcs. revert es Hes. induction Hcs as [|c cs Hc _ IH]; intros es Hes; [done|].
  simpl. apply IH. by apply map_Forall_insert_2.
Qed.

Lemma local_changes_keyed s cs s' :
  local_changes s cs s' → keyed (st_entries s) → keyed (st_entries s').
Proof.
  induction 1 as [|s e cs s' _ IH]; [done|]. intros Hk. apply IH. simpl.
  by apply map_Forall_insert_2.
Qed.

Lemma local_changes_paths s cs s' :
  local_changes s cs s' → Forall (λ c, path (ch_new c) = ch_path c) cs.
Proof. induction 1; by constructor. Qed.
