(* ===== verification/StateIndex.v ===== *)
(** * What the index operations do, path by path *)

From S2P Require Import Prelude Paths Bytes Utf8 Fs Ignore Entries Scan Tree.
From S2P Require Import TreeUpdate State StateLocal.

(** [new] is what became of [old] when path [p] was tombstoned by [s]'s node. *)
Definition tombstoned (s : FolderState) (p : string) (old new : option Entry) : Prop :=
  match old with
  | Some o => if decide (kind o = Tombstone) then new = old
              else ∃ v, origin v = st_origin s ∧ new = Some (tombstone_entry p o v)
  | None => new = None
  end.

Lemma tombstoned_dead s p old new :
  tombstoned s p old new → match new with Some e => kind e = Tombstone | None => old = None end.
Proof.
  unfold tombstoned. destruct old as [o|]; [|by intros ->].
  case_decide; [by intros ->|]. by intros (v & _ & ->).
Qed.

(** Tombstoning again changes nothing. *)
Lemma tombstoned_trans s s' p o1 o2 o3 :
  tombstoned s p o1 o2 → tombstoned s' p o2 o3 → tombstoned s p o1 o3.
Proof.
  intros H1 H2. pose proof (tombstoned_dead _ _ _ _ H1) as Hdead.
  unfold tombstoned in H2. destruct o2 as [e|]; [|by rewrite H2].
  rewrite decide_True in H2 by done. by rewrite H2.
Qed.

Lemma tombstone_path_spec p s cs :
  let r := tombstone_path p (s, cs) in
  st_origin r.1 = st_origin s ∧
  tombstoned s p (st_entries s !! p) (st_entries r.1 !! p) ∧
  (∀ q, q ≠ p → st_entries r.1 !! q = st_entries s !! q).
Proof.
  simpl. unfold tombstoned. destruct (st_entries s !! p) as [o|] eqn:E; [|done].
  case_decide; [done|]. simpl. split_and!; [done| |].
  - eexists. split; [|by rewrite lookup_insert_eq]. done.
  - intros q Hq. by rewrite lookup_insert_ne.
Qed.

Lemma tombstone_all_spec ps s cs :
  let r := tombstone_all ps (s, cs) in
  st_origin r.1 = st_origin s ∧
  (∀ q, q ∈ ps → tombstoned s q (st_entries s !! q) (st_entries r.1 !! q)) ∧
  (∀ q, q ∉ ps → st_entries r.1 !! q = st_entries s !! q).
Proof.
  revert s cs. induction ps as [|p ps IH]; intros s cs.
  { split_and!; [done| |done]. intros q Hq. by apply elem_of_nil in Hq. }
  change (tombstone_all (p :: ps) (s, cs)) with (tombstone_all ps (tombstone_path p (s, cs))).
  pose proof (tombstone_path_spec p s cs) as Hp.
  destruct (tombstone_path p (s, cs)) as [s1 cs1]. simpl in Hp.
  destruct Hp as (Ho & Hp & Hother).
  destruct (IH s1 cs1) as (Ho' & Hin & Hout). clear IH.
  destruct (tombstone_all ps (s1, cs1)) as [s2 cs2]. simpl in *.
  split_and!; [congruence| |].
  - intros q Hq. destruct (decide (q ∈ ps)) as [Hqs|Hqs].
    + specialize (Hin q Hqs). destruct (decide (q = p)) as [->|Hne].
      * pose proof (tombstoned_dead _ _ _ _ Hp) as Hdead. unfold tombstoned in Hin.
        destruct (st_entries s1 !! p) as [e|]; simpl in *.
        -- rewrite decide_True in Hin by done. rewrite Hin. done.
        -- rewrite Hin. done.
      * rewrite Hother in Hin by done. unfold tombstoned in *. by rewrite Ho in Hin.
    + apply elem_of_cons in Hq as [->|?]; [|done]. by rewrite Hout.
  - intros q [Hne Hq]%not_elem_of_cons. by rewrite Hout, Hother.
Qed.

Definition is_child (p q : string) : Prop := starts_with (p +:+ "/") q = true.

#[export] Instance is_child_dec p q : Decision (is_child p q).
Proof. unfold is_child. apply _. Defined.

Lemma elem_of_list_filter {A} (f : A → bool) l x :
  x ∈ List.filter f l ↔ x ∈ l ∧ f x = true.
Proof. rewrite !list_elem_of_In. apply filter_In. Qed.

(** Selecting keys of the index: a path outside the index is untouched anyway. *)
Lemma tombstone_keys_spec (f : string → bool) s cs q :
  let r := tombstone_all (List.filter f (btree_keys (st_entries s))) (s, cs) in
  (f q = true → tombstoned s q (st_entries s !! q) (st_entries r.1 !! q)) ∧
  (f q ≠ true → st_entries r.1 !! q = st_entries s !! q).
Proof.
  intros r. destruct (tombstone_all_spec (List.filter f (btree_keys (st_entries s))) s cs)
    as (_ & Hin & Hout). fold r in Hin, Hout.
  split; intros Ef.
  - destruct (decide (q ∈ btree_keys (st_entries s))) as [Hq|Hq].
    + apply Hin. by apply elem_of_list_filter.
    + rewrite Hout; [|rewrite elem_of_list_filter; tauto].
      rewrite elem_of_btree_keys, not_elem_of_dom in Hq. by rewrite Hq.
  - apply Hout. rewrite elem_of_list_filter. by intros [_ ?].
Qed.

Lemma tombstone_child_descendants_spec p s cs q :
  let r := tombstone_child_descendants p (s, cs) in
  if decide (is_child p q) then tombstoned s q (st_entries s !! q) (st_entries r.1 !! q)
  else st_entries r.1 !! q = st_entries s !! q.
Proof.
  destruct (tombstone_keys_spec (starts_with (p +:+ "/")) s cs q) as [Hin Hout].
  unfold tombstone_child_descendants. simpl. case_decide; [by apply Hin|by apply Hout].
Qed.

Lemma tombstone_descendants_spec p s cs q :
  let r := tombstone_descendants p (s, cs) in
  if decide (q = p ∨ is_child p q)
  then tombstoned s q (st_entries s !! q) (st_entries r.1 !! q)
  else st_entries r.1 !! q = st_entries s !! q.
Proof.
  destruct (tombstone_keys_spec
    (λ q, bool_decide (q = p) || starts_with (p +:+ "/") q) s cs q) as [Hin Hout].
  rewrite orb_true_iff, bool_decide_eq_true in Hin, Hout.
  unfold tombstone_descendants. simpl. case_decide; [by apply Hin|by apply Hout].
Qed.

Lemma tombstone_unseen_spec seen pats s cs q :
  let r := tombstone_unseen seen pats (s, cs) in
  if decide (q ∉ seen ∧ should_ignore q pats = false)
  then tombstoned s q (st_entries s !! q) (st_entries r.1 !! q)
  else st_entries r.1 !! q = st_entries s !! q.
Proof.
  destruct (tombstone_keys_spec
    (λ p, bool_decide (p ∉ seen) && negb (should_ignore p pats)) s cs q) as [Hin Hout].
  rewrite andb_true_iff, bool_decide_eq_true, negb_true_iff in Hin, Hout.
  unfold tombstone_unseen. simpl. case_decide; [by apply Hin|by apply Hout].
Qed.

(** ** Observed entries *)

Definition write_local_at (s : FolderState) (p : string) (e : Entry) : FolderState :=
  set_entries (<[p := with_version e (next_version s).2]> (st_entries s)) (next_version s).1.

(** [e] is recorded at [p]: an entry with the observed state of [e]. *)
Definition recorded (s : FolderState) (p : string) (e : Entry) : Prop :=
  ∃ o, st_entries s !! p = Some o ∧ same_observed_state o e = true.

Lemma same_observed_with_version e v : same_observed_state (with_version e v) e = true.
Proof. by apply same_observed_state_spec. Qed.

Lemma is_child_lt p q : is_child p q → str_lt p q.
Proof.
  unfold is_child. intros (r & ->)%starts_with_spec. rewrite append_assoc.
  apply str_lt_child.
Qed.

Lemma update_entry_origin p e s cs : st_origin (update_entry p e (s, cs)).1 = st_origin s.
Proof.
  unfold update_entry.
  destruct (match st_entries s !! p with
            | Some o => same_observed_state o e | None => false end); [done|].
  destruct (_ && _); [|done].
  by destruct (tombstone_all_spec (List.filter (starts_with (p +:+ "/"))
      (btree_keys (st_entries (write_local_at s p e)))) (write_local_at s p e)
      (cs ++ [mkChange p (st_entries s !! p) (with_version e (next_version s).2)])).
Qed.

(** [update_entry] records the entry and touches only what lies below it. *)
Lemma update_entry_spec p e s cs :
  let r := update_entry p e (s, cs) in
  recorded r.1 p e ∧
  (∀ q, q ≠ p →
     st_entries r.1 !! q = st_entries s !! q ∨
     (is_child p q ∧ kind e ≠ Dir ∧ (∃ o, st_entries s !! p = Some o ∧ kind o = Dir) ∧
      tombstoned s q (st_entries s !! q) (st_entries r.1 !! q))).
Proof.
  unfold update_entry, recorded.
  destruct (match st_entries s !! p with
            | Some o => same_observed_state o e | None => false end) eqn:Esame.
  { simpl. destruct (st_entries s !! p) as [o|]; [|done]. split; [by exists o|intros; by left]. }
  destruct (next_version s) as [s1 v] eqn:Ev.
  assert (st_entries s1 = st_entries s ∧ st_origin s1 = st_origin s) as [Hes Ho]
    by (unfold next_version in Ev; by simplify_eq).
  rewrite !Hes. destruct (_ && _) eqn:Erep; simpl.
  - pose proof (tombstone_child_descendants_spec p
      (set_entries (<[p:=with_version e v]> (st_entries s)) s1)
      (cs ++ [mkChange p (st_entries s !! p) (with_version e v)])) as Hspec.
    apply andb_true_iff in Erep as [Hold Hnew]. apply bool_decide_eq_true in Hnew.
    split.
    + specialize (Hspec p). rewrite decide_False in Hspec.
      * rewrite Hspec. simpl. rewrite lookup_insert_eq. eexists.
        split; [done|apply same_observed_with_version].
      * intros Hc%is_child_lt. by apply str_lt_irrefl in Hc.
    + intros q Hq. specialize (Hspec q). cbn [st_entries set_entries] in Hspec.
      rewrite lookup_insert_ne in Hspec by done. case_decide as Hc; [|by left].
      right. split_and!; [done|done| |].
      * destruct (st_entries s !! p) as [o|]; [|done]. exists o.
        by apply bool_decide_eq_true in Hold.
      * unfold tombstoned in *. simpl in Hspec. by rewrite Ho in Hspec.
  - split.
    + rewrite lookup_insert_eq. eexists. split; [done|apply same_observed_with_version].
    + intros q Hq. left. by rewrite lookup_insert_ne.
Qed.

Lemma str_le_lt_trans a b c : String.le a b → str_lt b c → str_lt a c.
Proof. intros [->|?]%str_le_lt_or_eq ?; [done|by eapply str_lt_trans]. Qed.

(** The observed entries are processed in key order, a directory before what
    lies below it, so an entry recorded earlier is not disturbed later. *)
Lemma update_entries_recorded live s cs :
  StronglySorted item_le live → NoDup live.*1 →
  let r := update_entries live (s, cs) in
  (∀ p e, (p, e) ∈ live → recorded r.1 p e) ∧
  (∀ q, Forall (λ pe, str_lt q pe.1) live → st_entries r.1 !! q = st_entries s !! q).
Proof.
  intros Hs. revert s cs. induction Hs as [|[p e] live Hs IH Hle]; intros s cs Hnd.
  { split; [|done]. intros p e Hin. by apply elem_of_nil in Hin. }
  apply NoDup_cons in Hnd as [Hp Hnd].
  change (update_entries ((p, e) :: live) (s, cs))
    with (update_entries live (update_entry p e (s, cs))).
  destruct (update_entry_spec p e s cs) as [Hrec Hother].
  destruct (update_entry p e (s, cs)) as [s1 cs1]. simpl in Hrec, Hother.
  destruct (IH s1 cs1 Hnd) as [IH1 IH2]. split.
  - intros p' e' [[= -> ->]|Hin]%elem_of_cons; [|by apply IH1].
    unfold recorded. rewrite IH2; [done|]. apply Forall_forall. intros [q f] Hin.
    rewrite Forall_forall in Hle. split; [by apply (Hle (q, f))|].
    simpl. intros ->. apply Hp, list_elem_of_fmap. by exists (q, f).
  - intros q [Hq Hqs]%Forall_cons. rewrite IH2 by done. simpl in Hq.
    destruct (Hother q) as [?|(Hc & _)]; [by intros ->; apply str_lt_irrefl in Hq|done|].
    apply is_child_lt in Hc. by destruct (str_lt_irrefl p), (str_lt_trans p q p).
Qed.

(** A path that is not observed keeps its entry, unless a file or symlink took
    the place of a directory above it. *)
Lemma update_entries_other live s cs q :
  q ∉ live.*1 →
  let r := update_entries live (s, cs) in
  st_entries r.1 !! q = st_entries s !! q ∨
  tombstoned s q (st_entries s !! q) (st_entries r.1 !! q) ∧
  ∃ p e, (p, e) ∈ live ∧ is_child p q ∧ kind e ≠ Dir.
Proof.
  revert s cs. induction live as [|[p e] live IH]; intros s cs Hq; [by left|].
  apply not_elem_of_cons in Hq as [Hne Hq].
  change (update_entries ((p, e) :: live) (s, cs))
    with (update_entries live (update_entry p e (s, cs))).
  destruct (update_entry_spec p e s cs) as [_ Hother]. specialize (Hother q Hne).
  pose proof (update_entry_origin p e s cs) as Ho.
  destruct (update_entry p e (s, cs)) as [s1 cs1]. simpl in Hother, Ho.
  cbv zeta in *. destruct (IH s1 cs1 Hq) as [IH'|(Ht & p' & e' & Hin & Hc & Hk)].
  - rewrite IH'. destruct Hother as [?|(Hc & Hk & _ & Ht)]; [by left|].
    right. split; [done|]. exists p, e. split; [left|done].
  - right. split; [|exists p', e'; split; [by right|done]].
    destruct Hother as [Heq|(_ & _ & _ & Ht')].
    + rewrite Heq in Ht. unfold tombstoned in *. by rewrite Ho in Ht.
    + by eapply tombstoned_trans.
Qed.
