(* ===== verification/StateTrack.v ===== *)
(** * The changes a monadic operation makes to the index

    [tracks c Q]: whatever the file system does, and also when [c] fails, what
    [c] does to the index and the clock is a sequence of local changes; on
    success it and the result satisfy [Q].  The rules follow the structure of
    the code, so the proofs for the operations of [FolderState] do too. *)

From S2P Require Import Prelude Paths Bytes Utf8 Fs Ignore Entries Scan Tree.
From S2P Require Import TreeUpdate State StateLocal.

(** States that agree on all but the trees and the scan cache. *)
Definition same_index (s s' : FolderState) : Prop :=
  st_root s = st_root s' ∧ st_origin s = st_origin s' ∧ st_lamport s = st_lamport s' ∧
  st_gc_watermark s = st_gc_watermark s' ∧ st_entries s = st_entries s'.

#[export] Instance same_index_equiv : Equivalence same_index.
Proof.
  split.
  - intros s. done.
  - intros s s' (?&?&?&?&?). done.
  - intros s s' s'' (?&?&?&?&?) (?&?&?&?&?). split_and!; congruence.
Qed.

Lemma write_local_proper s t e :
  same_index s t →
  (write_local s e).2 = (write_local t e).2 ∧
  same_index (write_local s e).1 (write_local t e).1.
Proof.
  intros (?&?&?&?&?). unfold write_local, next_version. simpl.
  split; [congruence|]. split_and!; simpl; congruence.
Qed.

Lemma local_changes_proper s t cs s' :
  same_index s t → local_changes s cs s' → ∃ t', local_changes t cs t' ∧ same_index s' t'.
Proof.
  intros Hst Hcs. revert t Hst. induction Hcs as [s|s e cs s' _ IH]; intros t Hst.
  { exists t. split; [constructor|done]. }
  destruct (write_local_proper s t e Hst) as [Heq Hw].
  destruct (IH _ Hw) as (t' & Ht' & Hs'). exists t'. split; [|done].
  destruct Hst as (_&_&_&_&He). rewrite Heq, He. by constructor.
Qed.

Definition index_changes (s : FolderState) (cs : list Change) (s' : FolderState) : Prop :=
  ∃ s0, local_changes s cs s0 ∧ same_index s0 s'.

Lemma index_changes_nil s s' : same_index s s' → index_changes s [] s'.
Proof. intros. exists s. split; [constructor|done]. Qed.

Lemma index_changes_app s cs s1 cs' s2 :
  index_changes s cs s1 → index_changes s1 cs' s2 → index_changes s (cs ++ cs') s2.
Proof.
  intros (s0 & H0 & H01) (s0' & H0' & H12).
  destruct (local_changes_proper s1 s0 cs' s0') as (t' & Ht' & Hs'); [done|done|].
  exists t'. split; [by eapply local_changes_app|]. by etrans.
Qed.

Lemma index_changes_replay s cs s' :
  index_changes s cs s' → st_entries s' = replay (st_entries s) cs.
Proof. intros (s0 & H0 & (_&_&_&_&<-)). by apply local_changes_replay. Qed.

Lemma index_changes_frame s cs s' :
  index_changes s cs s' →
  st_root s' = st_root s ∧ st_origin s' = st_origin s ∧ st_gc_watermark s' = st_gc_watermark s.
Proof.
  intros (s0 & H0 & (Hr&Ho&_&Hw&_)). apply local_changes_frame in H0. destruct_and!.
  split_and!; congruence.
Qed.

Lemma index_changes_lamport s cs s' :
  index_changes s cs s' → 0 ≤ st_lamport s → st_lamport s + Z.of_nat (length cs) < u64_modulus →
  st_lamport s' = st_lamport s + Z.of_nat (length cs).
Proof.
  intros (s0 & H0 & (_&_&Hl&_)) Hpos Hb.
  destruct (local_changes_lamport _ _ _ H0) as [Heq _]; [lia|].
  rewrite <-Hl, Heq. unfold wrap64. apply Z.mod_small. lia.
Qed.

Lemma index_changes_versions s cs s' c :
  index_changes s cs s' → c ∈ cs →
  0 ≤ st_lamport s → st_lamport s + Z.of_nat (length cs) < u64_modulus →
  path (ch_new c) = ch_path c ∧ origin (version (ch_new c)) = st_origin s ∧
  st_lamport s < lamport (version (ch_new c)) ≤ st_lamport s'.
Proof.
  intros (s0 & H0 & (_&_&Hl&_)) Hc Hpos Hb. rewrite <-Hl.
  by eapply local_changes_versions.
Qed.

Lemma index_changes_keyed s cs s' :
  index_changes s cs s' → keyed (st_entries s) → keyed (st_entries s').
Proof. intros (s0 & H0 & (_&_&_&_&<-)). by apply (local_changes_keyed _ _ _ H0). Qed.

Section Tracks.
Context {F : Type} `{FsOps F}.
Abbreviation World := (World (F:=F)) (only parsing).

Definition tracks {A} (c : M World A) (Q : A → list Change → Prop) : Prop :=
  ∀ w, ∃ ds, index_changes (w_st w) ds (w_st (c w).1) ∧
             match (c w).2 with Ok a => Q a ds | Err _ => True end.

Lemma tracks_mono {A} (c : M World A) Q Q' :
  tracks c Q → (∀ a ds, Q a ds → Q' a ds) → tracks c Q'.
Proof.
  intros Hc HQ w. destruct (Hc w) as (ds & Hds & Hr). exists ds. split; [done|].
  destruct (c w) as [w' [a|e]]; simpl in *; auto.
Qed.

(** Operations that leave the index alone. *)
Definition keeps_index {A} (c : M World A) : Prop :=
  ∀ w, same_index (w_st w) (w_st (c w).1).

Lemma tracks_keeps {A} (c : M World A) (Q : A → list Change → Prop) :
  keeps_index c → (∀ a, Q a []) → tracks c Q.
Proof.
  intros Hc HQ w. exists []. split; [by apply index_changes_nil|].
  destruct (c w) as [w' [a|e]]; simpl; auto.
Qed.

Lemma tracks_ret {A} (a : A) (Q : A → list Change → Prop) : Q a [] → tracks (m_ret a) Q.
Proof. intros HQ w. exists []. split; [by apply index_changes_nil|done]. Qed.

Lemma tracks_bind {A B} (c : M World A) (f : A → M World B) Q1 Q :
  tracks c Q1 →
  (∀ a ds1, Q1 a ds1 → tracks (f a) (λ b ds2, Q b (ds1 ++ ds2))) →
  tracks (m_bind c f) Q.
Proof.
  intros Hc Hf w. destruct (Hc w) as (ds1 & H1 & Hr). unfold m_bind.
  destruct (c w) as [w1 [a|e]]; simpl in *; [|by exists ds1].
  destruct (Hf a ds1 Hr w1) as (ds2 & H2 & Hr'). exists (ds1 ++ ds2).
  split; [by eapply index_changes_app|done].
Qed.

(** A step that keeps the index, and then the rest. *)
Lemma tracks_then {A B} (c : M World A) (f : A → M World B) Q :
  keeps_index c → (∀ a, tracks (f a) Q) → tracks (m_bind c f) Q.
Proof.
  intros Hc Hf. apply (tracks_bind _ _ (λ _ ds, ds = [])).
  - by apply tracks_keeps.
  - intros a ds ->. apply Hf.
Qed.

(** The changes so far, extended by those made. *)
Definition extends (changes : list Change) (changes' ds : list Change) : Prop :=
  changes' = changes ++ ds.

Lemma tracks_run_acc f changes :
  acc_local f → tracks (run_acc f changes) (extends changes).
Proof.
  intros Hf w. destruct (Hf (w_st w) changes) as (ds & s' & E & Hds).
  exists ds. unfold run_acc. rewrite E. split; [|done]. by exists s'.
Qed.

Lemma tracks_extends_bind (c : M World (list Change)) (f : list Change → M World (list Change))
    changes :
  tracks c (extends changes) → (∀ changes', tracks (f changes') (extends changes')) →
  tracks (m_bind c f) (extends changes).
Proof.
  intros Hc Hf. eapply tracks_bind; [exact Hc|]. intros a ds ->.
  eapply tracks_mono; [apply Hf|]. intros b ds' ->. unfold extends. by rewrite app_assoc.
Qed.

Lemma tracks_fold {A} (l : list A) (body : A → list Change → M World (list Change)) changes :
  (∀ a changes, a ∈ l → tracks (body a changes) (extends changes)) →
  tracks (m_fold l body changes) (extends changes).
Proof.
  intros Hb. revert changes. induction l as [|a l IH]; intros changes; simpl.
  { apply tracks_ret. unfold extends. by rewrite app_nil_r. }
  apply tracks_extends_bind; [apply Hb; left|]. intros changes'. apply IH.
  intros b changes'' Hin. apply Hb. by right.
Qed.

Lemma tracks_ret_changes changes : tracks (m_ret (S:=World) changes) (extends changes).
Proof. apply tracks_ret. unfold extends. by rewrite app_nil_r. Qed.

Lemma tracks_err_changes {A} e (Q : A → list Change → Prop) : tracks (m_err (S:=World) e) Q.
Proof. intros w. exists []. split; [by apply index_changes_nil|done]. Qed.

Lemma keeps_on_fs {A} (c : M F A) : keeps_index (on_fs c).
Proof. intros w. unfold on_fs, m_zoom. by destruct (c (w_fs w)). Qed.

Lemma keeps_on_cache {A} (c : M (F * ScanCache) A) : keeps_index (on_cache c).
Proof. intros w. unfold on_cache, m_zoom. by destruct (c _). Qed.

Lemma keeps_get_st : keeps_index (get_st (F:=F)).
Proof. by intros w. Qed.

Lemma keeps_ret {A} (a : A) : keeps_index (m_ret a).
Proof. by intros w. Qed.

Lemma keeps_err {A} e : keeps_index (m_err (A:=A) e).
Proof. by intros w. Qed.

Lemma keeps_lift {A} (r : IoResult A) : keeps_index (m_lift r).
Proof. by intros w. Qed.

Lemma keeps_on_st f : (∀ s, same_index s (f s)) → keeps_index (on_st (F:=F) f).
Proof. intros Hf w. apply Hf. Qed.

Lemma keeps_bind {A B} (c : M World A) (f : A → M World B) :
  keeps_index c → (∀ a, keeps_index (f a)) → keeps_index (m_bind c f).
Proof.
  intros Hc Hf w. unfold m_bind. specialize (Hc w).
  destruct (c w) as [w1 [a|e]]; simpl in *; [|done]. etrans; [exact Hc|apply Hf].
Qed.

Lemma keeps_ignore {A} (c : M World A) : keeps_index c → keeps_index (m_ignore c).
Proof. intros Hc w. specialize (Hc w). unfold m_ignore. by destruct (c w). Qed.

End Tracks.

Create HintDb keeps discriminated.
#[export] Hint Resolve keeps_on_fs keeps_on_cache keeps_get_st keeps_ret keeps_err keeps_lift
  keeps_ignore keeps_bind : keeps.

Section Operations.
Context {F : Type} `{FsOps F} (blake3 : string → Hash) `{StateCodec}.

Lemma keeps_save_lamport : keeps_index (save_lamport (F:=F)).
Proof. unfold save_lamport. auto with keeps. Qed.

Lemma keeps_save_entries : keeps_index (save_entries (F:=F)).
Proof. unfold save_entries. apply keeps_bind; [auto with keeps|]. intros s. case_match; auto with keeps. Qed.

Lemma keeps_save_gc_watermark : keeps_index (save_gc_watermark (F:=F)).
Proof.
  unfold save_gc_watermark. apply keeps_bind; [auto with keeps|].
  intros s. case_match; auto with keeps.
Qed.

Lemma keeps_update_trees ps : keeps_index (on_st (F:=F) (update_trees blake3 ps)).
Proof. by apply keeps_on_st. Qed.

Lemma keeps_derive_trees : keeps_index (on_st (F:=F) (derive_trees blake3)).
Proof. by apply keeps_on_st. Qed.

Lemma keeps_set_scan_cache f :
  keeps_index (on_st (F:=F) (λ s, set_scan_cache (f s) s)).
Proof. by apply keeps_on_st. Qed.

Lemma keeps_save_scan_cache : keeps_index (save_scan_cache (F:=F)).
Proof.
  unfold save_scan_cache. apply keeps_bind; [auto with keeps|]. intros s.
  apply keeps_bind; [auto with keeps|]. intros c.
  apply (keeps_set_scan_cache (λ _, c)).
Qed.

(** Saving after an operation that changed something. *)
Lemma keeps_finish {A} (cs : list A) ps :
  keeps_index (F:=F) (match cs with
                      | [] => m_ret ()
                      | _ => m_bind (on_st (update_trees blake3 ps)) (λ _,
                               m_bind save_lamport (λ _, save_entries))
                      end).
Proof.
  destruct cs; [auto with keeps|].
  auto using keeps_bind, keeps_update_trees, keeps_save_lamport, keeps_save_entries.
Qed.

Lemma btree_items_keyed (es : gmap string Entry) :
  keyed es → ∀ p e, (p, e) ∈ btree_items es → path e = p.
Proof. intros Hk p e Hin%elem_of_btree_items. by apply Hk. Qed.

End Operations.
#[export] Hint Resolve keeps_save_lamport keeps_save_entries keeps_save_gc_watermark
  keeps_update_trees keeps_derive_trees keeps_set_scan_cache keeps_save_scan_cache
  keeps_finish : keeps.
