(* ===== verification/StateOps.v ===== *)
(** * The operations of the folder state, refined to index changes

    [rescan] and [apply_paths] make local changes only, and return exactly the
    changes they made; [apply_remote_entries] installs remote entries, each with
    the local tombstones it implies.  All of it holds for any file system and
    also when an operation fails half way. *)

From S2P Require Import Prelude Paths Bytes Utf8 Fs Ignore Entries Scan ScanInv Tree.
From S2P Require Import TreeUpdate State StateLocal StateIndex StateTrack.

Section StateOps.
Context {F : Type} `{FsOps F} (blake3 : string → Hash) `{StateCodec}.
Abbreviation World := (World (F:=F)) (only parsing).

(** Like [tracks_then], when the rest relies on what the first step returned. *)
Lemma tracks_then_post {A B} (c : M World A) (f : A → M World B) (P : A → Prop) Q :
  keeps_index c → (∀ w w' a, c w = (w', Ok a) → P a) →
  (∀ a, P a → tracks (f a) Q) → tracks (m_bind c f) Q.
Proof.
  intros Hc HP Hf. apply (tracks_bind _ _ (λ a ds, P a ∧ ds = [])).
  - intros w. exists []. split; [by apply index_changes_nil|].
    specialize (HP w). destruct (c w) as [w' [a|e]] eqn:E; simpl; [|done].
    split; [by eapply HP|done].
  - intros a ds [Ha ->]. by apply Hf.
Qed.

Lemma on_cache_scan_keyed root w w' (live : gmap string Entry * gset string) :
  on_cache (scan_folder blake3 root) w = (w', Ok live) → keyed live.1.
Proof.
  unfold on_cache, m_zoom. destruct (scan_folder _ _ _) as [fc r] eqn:E.
  intros [= _ ->]. destruct live as [live unstable].
  apply scan_folder_ok in E as [pats Hok]. intros k e Hk. by apply Hok in Hk as (? & _).
Qed.

Lemma rescan_tracks : tracks (rescan blake3) (extends []).
Proof.
  unfold rescan. apply tracks_then; [auto with keeps|]. intros s.
  apply tracks_then; [auto with keeps|]. intros pats.
  apply (tracks_then_post _ _ (λ live, keyed live.1)); [auto with keeps| |].
  { intros w w' live. apply on_cache_scan_keyed. }
  intros live Hlive.
  apply tracks_extends_bind.
  { apply tracks_run_acc, update_entries_local, btree_items_keyed, Hlive. }
  intros changes. apply tracks_then; [by apply keeps_on_st|]. intros _.
  apply tracks_then; [auto with keeps|]. intros _.
  apply tracks_extends_bind; [apply tracks_run_acc, tombstone_unseen_local|]. intros changes'.
  apply tracks_then; [auto with keeps|]. intros _. apply tracks_ret_changes.
Qed.

Lemma apply_one_path_tracks abs_path relative pats changes :
  tracks (apply_one_path blake3 abs_path relative pats changes) (extends changes).
Proof.
  unfold apply_one_path. destruct (should_ignore relative pats); [apply tracks_ret_changes|].
  apply tracks_then; [auto with keeps|]. intros [md|[]];
    try (apply tracks_run_acc, tombstone_descendants_local);
    try (apply tracks_err_changes).
  destruct (is_symlink md).
  { apply tracks_then; [auto with keeps|]. intros [target|]; [|apply tracks_ret_changes].
    apply tracks_run_acc, (update_entry_local (live_symlink relative target)). }
  destruct (is_file md).
  { apply tracks_then; [auto with keeps|]. intros [o|]; [|apply tracks_ret_changes].
    apply tracks_run_acc, (update_entry_local (live_file relative o)). }
  destruct (is_dir md); [|apply tracks_ret_changes].
  apply tracks_extends_bind.
  { apply tracks_run_acc, (update_entry_local (live_dir relative (mode_of md))). }
  intros changes'. apply tracks_then; [auto with keeps|]. intros s.
  apply (tracks_then_post _ _ keyed); [auto with keeps| |].
  - intros w w' es. unfold on_cache, m_zoom.
    pose proof (scan_dir_ok blake3 path_max (st_root s) abs_path pats
      (mkScanW (w_fs w) (st_scan_cache (w_st w)) ∅ ∅) (scan_ok_empty pats)) as Hok.
    destruct (scan_dir _ _ _ _ _ _) as [sw [[]|e]]; [|done]. intros [= _ <-].
    intros k e Hk. by apply Hok in Hk as (? & _).
  - intros es Hes. apply tracks_run_acc, update_entries_local, btree_items_keyed, Hes.
Qed.

Lemma apply_paths_tracks paths : tracks (apply_paths blake3 paths) (extends []).
Proof.
  unfold apply_paths. apply tracks_then; [auto with keeps|]. intros canonical.
  apply tracks_then; [auto with keeps|]. intros s.
  destruct (existsb _ _); [apply rescan_tracks|].
  apply tracks_then; [auto with keeps|]. intros pats.
  apply tracks_extends_bind.
  { apply tracks_fold. intros abs_path changes _.
    destruct (relative_path _ _) as [relative|e]; [|apply tracks_ret_changes].
    case_decide; [apply tracks_ret_changes|apply apply_one_path_tracks]. }
  intros changes. apply tracks_then; [auto with keeps|]. intros _.
  apply tracks_then; [auto with keeps|]. intros _. apply tracks_ret_changes.
Qed.

(** ** Remote entries *)

(** The state once the entry itself is recorded. *)
Definition write_remote (s : FolderState) (remote : Entry) : FolderState :=
  set_entries (<[path remote := remote]> (st_entries s))
    (set_lamport (Z.max (st_lamport s) (lamport (version remote))) s).

Lemma record_remote_local remote s cs :
  ∃ ds s', record_remote remote (s, cs) =
             (s', (cs ++ [mkChange (path remote) (st_entries s !! path remote) remote]) ++ ds) ∧
           local_changes (write_remote s remote) ds s'.
Proof.
  unfold record_remote. case_decide.
  - exists [], (write_remote s remote). rewrite app_nil_r. split; [done|constructor].
  - apply tombstone_child_descendants_local.
Qed.

(** What one remote entry does: it fails, it is refused, or it is installed and
    recorded. *)
Lemma apply_remote_entry_core_cases remote tmp (w : World) :
  let r := apply_remote_entry_core remote tmp w in
  (∃ e, r.2 = Err e ∧ w_st r.1 = w_st w) ∨
  (r.2 = Ok [] ∧ should_accept_remote (w_st w) remote = false ∧ w_st r.1 = w_st w) ∨
  (should_accept_remote (w_st w) remote = true ∧
   r.2 = Ok (record_remote remote (w_st w, [])).2 ∧
   w_st r.1 = (record_remote remote (w_st w, [])).1).
Proof.
  unfold apply_remote_entry_core, m_bind, m_lift, get_st, m_gets. simpl.
  destruct (validate_remote_path (path remote)) as [[]|e]; [|left; by exists e].
  destruct (should_accept_remote (w_st w) remote) eqn:Ea; simpl.
  - unfold on_fs, m_zoom. destruct (install_remote _ _ _ _) as [f [[]|e]]; simpl.
    + right. right. unfold run_acc. simpl.
      by destruct (record_remote remote (w_st w, [])).
    + left. by exists e.
  - right. left. destruct tmp as [tmp|]; simpl; [|done].
    unfold m_ignore, on_fs, m_zoom. by destruct (fs_remove_file tmp (w_fs w)).
Qed.

End StateOps.
