(* ===== verification/StateInv.v ===== *)
(** * The invariant of the folder state

    [state_inv]: keys and entries agree, the clock is a [u64] no version in the
    index exceeds, it is not below the node's own GC watermark, and no tombstone
    in the index is covered by the watermark. *)

From S2P Require Import Prelude Paths Bytes Utf8 Fs Ignore Entries Scan Tree.
From S2P Require Import TreeUpdate State StateLocal StateIndex StateTrack StateOps.

Definition own_watermark (s : FolderState) : Z := default 0 (st_gc_watermark s !! st_origin s).

Record state_inv (s : FolderState) : Prop := {
  inv_keyed : keyed (st_entries s);
  inv_lamport : 0 ≤ st_lamport s < u64_modulus;
  inv_clock : ∀ p e, st_entries s !! p = Some e → 0 ≤ lamport (version e) ≤ st_lamport s;
  inv_own : own_watermark s ≤ st_lamport s;
  inv_gc : ∀ p e, st_entries s !! p = Some e → covered s e = false
}.

Lemma covered_false s e :
  covered s e = false ↔
    (kind e = Tombstone →
     ∀ l, st_gc_watermark s !! origin (version e) = Some l → l < lamport (version e)).
Proof.
  unfold covered, is_version_gced. destruct (decide (kind e = Tombstone)) as [Hk|Hk].
  - rewrite bool_decide_true by done. simpl.
    destruct (st_gc_watermark s !! _) as [l|]; [|naive_solver].
    rewrite Z.leb_gt. naive_solver.
  - rewrite bool_decide_false by done. naive_solver.
Qed.

Lemma state_inv_same_index s s' : same_index s s' → state_inv s → state_inv s'.
Proof.
  intros (Hr & Ho & Hl & Hw & He) [H1 H2 H3 H4 H5]. split; rewrite <-?He, <-?Hl; auto.
  - unfold own_watermark in *. by rewrite <-Hw, <-Ho.
  - intros p e Hp. specialize (H5 p e Hp). rewrite covered_false in *. by rewrite <-Hw.
Qed.

(** A version of this node above the clock is above its own watermark. *)
Lemma fresh_not_covered s e :
  own_watermark s ≤ st_lamport s → origin (version e) = st_origin s →
  st_lamport s < lamport (version e) → covered s e = false.
Proof.
  intros Hown Ho Hl. apply covered_false. intros _ l. rewrite Ho. intros Hw.
  unfold own_watermark in Hown. rewrite Hw in Hown. simpl in Hown. lia.
Qed.

Lemma local_changes_inv s cs s' :
  local_changes s cs s' → st_lamport s + Z.of_nat (length cs) < u64_modulus →
  state_inv s → state_inv s'.
Proof.
  intros Hcs Hb [H1 H2 H3 H4 H5].
  pose proof (local_changes_frame _ _ _ Hcs) as (_ & Ho & Hw & _).
  destruct (local_changes_lamport _ _ _ Hcs H2) as [Hl Hr].
  unfold wrap64 in Hl. rewrite Z.mod_small in Hl by lia.
  assert (∀ e, covered s' e = covered s e) as Hcov
    by (intros e; unfold covered, is_version_gced; by rewrite Hw).
  split; [by eapply local_changes_keyed|done| | |].
  - intros p e Hp. rewrite (local_changes_replay _ _ _ Hcs) in Hp.
    apply replay_lookup in Hp as [Hp|(c & Hc & _ & <-)].
    + specialize (H3 p e Hp). lia.
    + destruct (local_changes_versions _ _ _ c Hcs Hc) as (_ & _ & ?); lia.
  - unfold own_watermark in *. rewrite Hw, Ho. lia.
  - intros p e Hp. rewrite Hcov, (local_changes_replay _ _ _ Hcs) in *.
    apply replay_lookup in Hp as [Hp|(c & Hc & _ & <-)]; [by eapply H5|].
    destruct (local_changes_versions _ _ _ c Hcs Hc) as (_ & Hc' & ?); [lia..|].
    apply fresh_not_covered; [done|done|lia].
Qed.

Lemma index_changes_inv s cs s' :
  index_changes s cs s' → st_lamport s + Z.of_nat (length cs) < u64_modulus →
  state_inv s → state_inv s'.
Proof.
  intros (s0 & H0 & Hs) Hb Hinv. apply (state_inv_same_index s0); [done|].
  by eapply local_changes_inv.
Qed.

Lemma should_accept_remote_spec s remote :
  should_accept_remote s remote = true ↔
    validate_remote_path (path remote) = Ok () ∧ covered s remote = false ∧
    ∀ local, st_entries s !! path remote = Some local →
             version_lt (version local) (version remote).
Proof.
  unfold should_accept_remote.
  destruct (validate_remote_path (path remote)) as [[]|e]; simpl; [|naive_solver].
  fold (covered s remote). destruct (covered s remote); [naive_solver|].
  destruct (st_entries s !! path remote) as [l|]; [|naive_solver].
  rewrite version_gt_lt. naive_solver.
Qed.

Lemma write_remote_inv s remote :
  state_inv s → is_u64 (lamport (version remote)) = true → covered s remote = false →
  state_inv (write_remote s remote).
Proof.
  intros [H1 H2 H3 H4 H5] Hu%is_u64_spec Hc. unfold write_remote.
  split; simpl; [by apply map_Forall_insert_2|lia| | |].
  - intros p e [[<- <-]|[_ Hp]]%lookup_insert_Some; [lia|]. specialize (H3 p e Hp). lia.
  - unfold own_watermark in *. simpl. lia.
  - intros p e [[<- <-]|[_ Hp]]%lookup_insert_Some; [done|]. by apply (H5 p e).
Qed.

(** ** Counting the live entries

    A batch of remote entries can only tombstone what is live. *)
Definition live_count (s : FolderState) : nat :=
  base.size (filter (λ kv : string * Entry, kind kv.2 ≠ Tombstone) (st_entries s)).

Lemma size_filter_insert_dead (es : gmap string Entry) p e :
  kind e = Tombstone →
  base.size (filter (λ kv : string * Entry, kind kv.2 ≠ Tombstone) (<[p := e]> es)) =
  base.size (delete p (filter (λ kv : string * Entry, kind kv.2 ≠ Tombstone) es)).
Proof.
  intros Hk. f_equal. apply map_eq. intros q. apply option_eq. intros x.
  rewrite map_lookup_filter_Some, lookup_insert_Some, lookup_delete_Some,
    map_lookup_filter_Some. naive_solver.
Qed.

Lemma tombstone_path_live p s cs :
  let r := tombstone_path p (s, cs) in
  (live_count r.1 + length r.2 = live_count s + length cs)%nat.
Proof.
  simpl. destruct (st_entries s !! p) as [old|] eqn:Eold; [|done].
  case_decide as Hk; [done|]. simpl. unfold live_count. simpl.
  rewrite size_filter_insert_dead by done. rewrite length_app. simpl.
  set (m := filter _ _). assert (m !! p = Some old) as Hm
    by (by apply map_lookup_filter_Some).
  rewrite map_size_delete_Some by eauto. assert (base.size m ≠ 0%nat); [|lia].
  apply map_size_ne_0_lookup. eauto.
Qed.

Lemma tombstone_all_live ps s cs :
  let r := tombstone_all ps (s, cs) in
  (live_count r.1 + length r.2 = live_count s + length cs)%nat.
Proof.
  revert s cs. induction ps as [|p ps IH]; intros s cs; [done|].
  change (tombstone_all (p :: ps) (s, cs)) with (tombstone_all ps (tombstone_path p (s, cs))).
  pose proof (tombstone_path_live p s cs) as Hp.
  destruct (tombstone_path p (s, cs)) as [s1 cs1]. cbv zeta in *. simpl in Hp.
  rewrite IH. lia.
Qed.

Lemma live_count_write_remote s remote :
  (live_count (write_remote s remote) ≤ S (live_count s))%nat.
Proof.
  unfold live_count, write_remote. simpl. rewrite map_filter_insert.
  case_decide.
  - rewrite map_size_insert. case_match; unfold Datatypes.id; simpl; lia.
  - apply Nat.le_le_succ_r, map_subseteq_size, map_filter_subseteq_mono, delete_subseteq.
Qed.

(** What is left of the clock's range covers the tombstones a batch can make. *)
Definition headroom (B : Z) (n : nat) (s : FolderState) : Prop :=
  Z.max (st_lamport s) B + Z.of_nat (live_count s + n) < u64_modulus.

Lemma record_remote_inv s remote n B :
  state_inv s → should_accept_remote s remote = true →
  0 ≤ lamport (version remote) ≤ B → headroom B (S n) s →
  let r := record_remote remote (s, []) in state_inv r.1 ∧ headroom B n r.1.
Proof.
  intros Hinv (_ & Hcov & _)%should_accept_remote_spec Hl Hroom. unfold headroom in *.
  assert (state_inv (write_remote s remote)) as Hw.
  { apply write_remote_inv; [done|apply is_u64_spec; lia|done]. }
  pose proof (live_count_write_remote s remote) as Hlive.
  assert (Z.max (st_lamport (write_remote s remote)) B = Z.max (st_lamport s) B) as Hmax
    by (simpl; lia).
  unfold record_remote. case_decide.
  { change (state_inv (write_remote s remote) ∧
      Z.max (st_lamport (write_remote s remote)) B +
        Z.of_nat (live_count (write_remote s remote) + n) < u64_modulus).
    split; [done|]. rewrite Hmax. lia. }
  set (ch := mkChange (path remote) (st_entries s !! path remote) remote).
  change (let r := tombstone_child_descendants (path remote) (write_remote s remote, [] ++ [ch])
          in state_inv r.1 ∧ Z.max (st_lamport r.1) B + Z.of_nat (live_count r.1 + n)
             < u64_modulus).
  pose proof (tombstone_all_live (List.filter (starts_with (path remote +:+ "/"))
    (btree_keys (st_entries (write_remote s remote)))) (write_remote s remote) [ch]) as Hcount.
  destruct (tombstone_child_descendants_local (path remote) (write_remote s remote) [ch])
    as (ds & s' & E & Hds).
  unfold tombstone_child_descendants in *. cbn [fst] in *. cbv zeta in *.
  change ([] ++ [ch]) with [ch]. rewrite E in Hcount |- *. simpl in Hcount.
  assert (st_lamport (write_remote s remote) + Z.of_nat (length ds) < u64_modulus) by lia.
  split; [by eapply local_changes_inv|].
  destruct (local_changes_lamport _ _ _ Hds) as [Hl' _]; [apply Hw|].
  unfold wrap64 in Hl'. rewrite Z.mod_small in Hl' by (destruct Hw; lia).
  cbn [fst]. lia.
Qed.

Section Ops.
Context {F : Type} `{FsOps F} (blake3 : string → Hash) `{StateCodec}.
Abbreviation World := (World (F:=F)) (only parsing).

Definition batch_bounded (B : Z) (batch : list (Entry * option string)) : Prop :=
  Forall (λ item : Entry * option string, 0 ≤ lamport (version item.1) ≤ B) batch.

Lemma apply_fold_inv B batch n acc (w : World) :
  batch_bounded B batch → state_inv (w_st w) → headroom B (length batch + n) (w_st w) →
  let r := m_fold batch (λ item all_changes,
     (changes <- apply_remote_entry_core item.1 item.2 ;;
      m_ret (all_changes ++ changes))%m) acc w in
  state_inv (w_st r.1).
Proof.
  intros Hb. revert acc w. induction Hb as [|[remote tmp] batch Hl Hb IH]; intros acc w Hinv Hroom;
    [done|].
  simpl. unfold m_bind at 1 2.
  destruct (apply_remote_entry_core_cases remote tmp w)
    as [(e & Hr & Hst)|[(Hr & _ & Hst)|(Hacc & Hr & Hst)]];
    destruct (apply_remote_entry_core remote tmp w) as [w1 r]; simpl in Hr, Hst; subst r.
  - simpl. by rewrite Hst.
  - apply IH; rewrite Hst; [done|]. unfold headroom in *. simpl in Hroom. lia.
  - destruct (record_remote_inv (w_st w) remote (length batch + n) B) as [Hinv' Hroom']; auto.
    apply IH; by rewrite Hst.
Qed.

Lemma apply_remote_entries_inv B batch (w : World) :
  batch_bounded B batch → state_inv (w_st w) → headroom B (length batch) (w_st w) →
  state_inv (w_st (apply_remote_entries blake3 batch w).1).
Proof.
  intros Hb Hinv Hroom. unfold apply_remote_entries, m_bind at 1.
  pose proof (apply_fold_inv B batch 0 [] w Hb Hinv) as Hfold. rewrite Nat.add_0_r in Hfold.
  specialize (Hfold Hroom). cbv zeta in Hfold.
  destruct (m_fold _ _ _ w) as [w1 [cs|e]]; [|done].
  eapply state_inv_same_index; [|exact Hfold].
  apply (keeps_bind _ _ (keeps_finish blake3 cs _)). intros _. apply keeps_ret.
Qed.

End Ops.
