(* ===== verification/StateGc.v ===== *)
(** * Garbage collection: [merge_gc_watermark] and its callers

    The watermark is merged by pointwise maximum, covered tombstones are removed
    from the index and can not come back, and the invariant survives - also the
    start of the program, when index, clock and watermark are read from three
    files written at different times. *)

From S2P Require Import Prelude Paths Bytes Utf8 Fs Ignore Entries Scan Tree.
From S2P Require Import TreeUpdate State StateLocal StateIndex StateTrack StateOps.
From S2P Require Import StateInv.

(** ** Merging watermarks *)

Lemma merge_watermark_foldl l w b k :
  NoDup l.*1 →
  (foldl merge_watermark_step (w, b) l).1 !! k =
    match list_to_map (M:=gmap string Z) l !! k with
    | Some v => Some (Z.max (default 0 (w !! k)) v)
    | None => w !! k
    end ∧
  (foldl merge_watermark_step (w, b) l).2 =
    b || existsb (λ kv, kv.2 >? default 0 (w !! kv.1)) l.
Proof.
  revert w b. induction l as [|[j v] l IH]; intros w b Hnd; simpl.
  { rewrite lookup_empty, orb_false_r. done. }
  apply NoDup_cons in Hnd as [Hj Hnd].
  set (w' := <[j := Z.max (default 0 (w !! j)) v]> w).
  assert ((if v >? default 0 (w !! j) then (<[j := v]> w, true)
           else (<[j := default 0 (w !! j)]> w, b)) =
          (w', b || (v >? default 0 (w !! j)))) as ->.
  { unfold w'. rewrite Z.gtb_ltb. destruct (Z.ltb_spec (default 0 (w !! j)) v).
    - rewrite Z.max_r, orb_true_r by lia. done.
    - rewrite Z.max_l, orb_false_r by lia. done. }
  destruct (IH w' (b || (v >? default 0 (w !! j))) Hnd) as [-> ->].
  assert (∀ i, i ≠ j → w' !! i = w !! i) as Hw'
    by (intros i Hi; by apply lookup_insert_ne).
  split.
  - destruct (decide (k = j)) as [->|Hk].
    + rewrite lookup_insert_eq, not_elem_of_list_to_map_1 by done.
      apply lookup_insert_eq.
    + by rewrite lookup_insert_ne, Hw'.
  - rewrite <-orb_assoc. f_equal. f_equal.
    assert (∀ kv, kv ∈ l → kv.1 ≠ j) as Hne
      by (intros kv Hin Heq; apply Hj, list_elem_of_fmap; eauto).
    clear IH Hnd Hj. induction l as [|kv l IHl]; [done|]. simpl.
    rewrite Hw' by (apply Hne; left). f_equal. apply IHl. intros kv' Hin. apply Hne. by right.
Qed.

Lemma list_to_map_btree_items {V} (m : gmap string V) : list_to_map (btree_items m) = m.
Proof.
  apply map_eq. intros k. apply option_eq. intros v.
  rewrite <-elem_of_list_to_map by (rewrite fst_btree_items; apply NoDup_btree_keys).
  apply elem_of_btree_items.
Qed.

Lemma merge_watermarks_lookup w incoming k :
  (merge_watermarks w incoming).1 !! k =
    match incoming !! k with
    | Some v => Some (Z.max (default 0 (w !! k)) v)
    | None => w !! k
    end.
Proof.
  unfold merge_watermarks.
  destruct (merge_watermark_foldl (btree_items incoming) w false k) as [-> _].
  - rewrite fst_btree_items. apply NoDup_btree_keys.
  - by rewrite list_to_map_btree_items.
Qed.

(** [changed] says that some origin's bound went up. *)
Lemma merge_watermarks_changed w incoming :
  (merge_watermarks w incoming).2 = true ↔
    ∃ k v, incoming !! k = Some v ∧ default 0 (w !! k) < v.
Proof.
  unfold merge_watermarks.
  destruct (merge_watermark_foldl (btree_items incoming) w false "") as [_ ->].
  { rewrite fst_btree_items. apply NoDup_btree_keys. }
  rewrite orb_false_l, existsb_exists. setoid_rewrite <-list_elem_of_In. split.
  - intros ([k v] & Hin%elem_of_btree_items & Hgt). exists k, v.
    simpl in Hgt. apply Z.gtb_lt in Hgt. done.
  - intros (k & v & Hin & Hlt). exists (k, v). split; [by apply elem_of_btree_items|].
    by apply Z.gtb_lt.
Qed.

Lemma merge_watermarks_mono w incoming k :
  default 0 (w !! k) ≤ default 0 ((merge_watermarks w incoming).1 !! k).
Proof. rewrite merge_watermarks_lookup. destruct (incoming !! k); simpl; lia. Qed.

(** ** Pruning *)

Lemma foldl_delete_lookup {V} (m : gmap string V) ks k :
  foldl (λ m k, delete k m) m ks !! k = if decide (k ∈ ks) then None else m !! k.
Proof.
  revert m. induction ks as [|j ks IH]; intros m; [done|]. cbn [foldl].
  rewrite IH. destruct (decide (k = j)) as [->|Hk].
  - rewrite lookup_delete_eq. rewrite (decide_True (P:=j ∈ j :: ks)) by left. by case_decide.
  - rewrite lookup_delete_ne by done. apply decide_ext. set_solver.
Qed.

Definition to_prune (s : FolderState) : list string :=
  fst <$> List.filter (λ kv, covered s kv.2) (btree_items (st_entries s)).

Lemma elem_of_to_prune s k :
  k ∈ to_prune s ↔ ∃ e, st_entries s !! k = Some e ∧ covered s e = true.
Proof.
  unfold to_prune. rewrite list_elem_of_fmap. split.
  - intros ([k' e] & -> & [Hin Hc]%elem_of_list_filter). exists e.
    by apply elem_of_btree_items in Hin.
  - intros (e & Hk & Hc). exists (k, e). split; [done|]. apply elem_of_list_filter.
    by split; [apply elem_of_btree_items|].
Qed.

Definition prune_covered (s : FolderState) : gmap string Entry :=
  filter (λ kv : string * Entry, covered s kv.2 = false) (st_entries s).

Lemma foldl_delete_to_prune s :
  foldl (λ m k, delete k m) (st_entries s) (to_prune s) = prune_covered s.
Proof.
  apply map_eq. intros k. apply option_eq. intros e. unfold prune_covered.
  rewrite map_lookup_filter_Some, foldl_delete_lookup. case_decide as Hk.
  - apply elem_of_to_prune in Hk as (e' & He' & Hc). split; [done|].
    intros [He Hc']. simpl in Hc'. congruence.
  - rewrite elem_of_to_prune in Hk. split.
    + intros He. split; [done|]. simpl. destruct (covered s e) eqn:E; naive_solver.
    + by intros [? _].
Qed.

(** Pruning removes the covered tombstones and nothing else; the count is the
    number removed, and the trees are rebuilt exactly when it is positive. *)
Lemma prune_tombstones_spec blake3 s :
  let r := prune_tombstones blake3 s in
  st_entries r.1 = prune_covered s ∧
  st_root r.1 = st_root s ∧ st_origin r.1 = st_origin s ∧ st_lamport r.1 = st_lamport s ∧
  st_gc_watermark r.1 = st_gc_watermark s ∧ st_scan_cache r.1 = st_scan_cache s ∧
  (r.2 = length (to_prune s)) ∧
  (if decide (to_prune s = []) then r.1 = s
   else st_tree r.1 = derive_tree blake3 (prune_covered s) ∧
        st_live_tree r.1 = derive_live_tree blake3 (prune_covered s)).
Proof.
  unfold prune_tombstones. fold (to_prune s). rewrite <-foldl_delete_to_prune.
  destruct (to_prune s) as [|k ks]; [by rewrite decide_True|].
  rewrite decide_False by done. done.
Qed.

(** ** The watermark of the tombstones *)

Lemma tombstone_watermark_foldl es w o :
  let w' := foldl tombstone_watermark_step w es in
  (is_Some (w' !! o) ↔ is_Some (w !! o) ∨
     ∃ e, e ∈ es ∧ kind e = Tombstone ∧ origin (version e) = o) ∧
  (default 0 (w !! o) ≤ default 0 (w' !! o)) ∧
  (∀ e, e ∈ es → kind e = Tombstone → origin (version e) = o →
        lamport (version e) ≤ default 0 (w' !! o)) ∧
  (∀ B, 0 ≤ B → default 0 (w !! o) ≤ B →
        (∀ e, e ∈ es → lamport (version e) ≤ B) → default 0 (w' !! o) ≤ B).
Proof.
  revert w. induction es as [|e es IH]; intros w; simpl.
  { split_and!; [|lia| |lia].
    - split; [by left|]. intros [?|(e & Hin & _)]; [done|by apply elem_of_nil in Hin].
    - intros e Hin. by apply elem_of_nil in Hin. }
  destruct (IH (tombstone_watermark_step w e)) as (H1 & H2 & H3 & H4). clear IH.
  setoid_rewrite elem_of_cons.
  unfold tombstone_watermark_step in *. case_decide as Hk.
  - destruct (decide (origin (version e) = o)) as [<-|Ho].
    + rewrite lookup_insert_eq in H1, H2, H4. simpl in H2, H4. split_and!.
      * rewrite H1. naive_solver.
      * lia.
      * intros e' [->|Hin] Hk' Ho'; [lia|by apply H3].
      * intros B HB0 HB Hall. apply H4; [done| |naive_solver].
        specialize (Hall e (or_introl eq_refl)). lia.
    + rewrite lookup_insert_ne in H1, H2, H4 by done. split_and!.
      * rewrite H1. naive_solver.
      * done.
      * intros e' [->|Hin] Hk' Ho'; [done|by apply H3].
      * intros B HB0 HB Hall. apply H4; naive_solver.
  - split_and!.
    + rewrite H1. naive_solver.
    + done.
    + intros e' [->|Hin] Hk' Ho'; [done|by apply H3].
    + intros B HB0 HB Hall. apply H4; naive_solver.
Qed.

Lemma tombstone_watermark_covers es p e :
  es !! p = Some e → kind e = Tombstone →
  ∃ l, tombstone_watermark es !! origin (version e) = Some l ∧ lamport (version e) ≤ l.
Proof.
  intros Hp Hk.
  destruct (tombstone_watermark_foldl (btree_values es) ∅ (origin (version e)))
    as (H1 & _ & H3 & _).
  assert (e ∈ btree_values es) as Hin by (apply elem_of_btree_values; by exists p).
  destruct H1 as [_ [l Hl]]; [right; by exists e|]. unfold tombstone_watermark.
  exists l. split; [done|]. specialize (H3 e Hin Hk eq_refl). by rewrite Hl in H3.
Qed.

Lemma tombstone_watermark_bound es o B :
  0 ≤ B → (∀ p e, es !! p = Some e → lamport (version e) ≤ B) →
  default 0 (tombstone_watermark es !! o) ≤ B.
Proof.
  intros HB Hall.
  destruct (tombstone_watermark_foldl (btree_values es) ∅ o) as (_ & _ & _ & H4).
  apply H4; [done|by rewrite lookup_empty|].
  intros e [p Hp]%elem_of_btree_values. by eapply Hall.
Qed.

Lemma tombstone_watermark_empty es :
  tombstone_watermark es = ∅ ↔ ∀ p e, es !! p = Some e → kind e ≠ Tombstone.
Proof.
  split.
  - intros Hempty p e Hp Hk. destruct (tombstone_watermark_covers es p e Hp Hk) as (l & Hl & _).
    by rewrite Hempty, lookup_empty in Hl.
  - intros Hall. apply map_empty. intros o.
    destruct (tombstone_watermark_foldl (btree_values es) ∅ o) as (H1 & _).
    fold (tombstone_watermark es) in H1.
    destruct (tombstone_watermark es !! o) as [l|]; [|done]. exfalso.
    destruct H1 as [H1 _]. destruct H1 as [[? Hx]|(e & [p Hp]%elem_of_btree_values & Hk & _)];
      [by eexists|by rewrite lookup_empty in Hx|by eapply Hall].
Qed.

(** ** [merge_gc_watermark] without the disk *)

Definition raise_clock (s : FolderState) : FolderState :=
  if st_lamport s <? own_watermark s then set_lamport (own_watermark s) s else s.

Definition gc_merge (blake3 : string → Hash) (s : FolderState) (incoming : GcWatermark)
  : FolderState * (bool * nat) :=
  let '(w, changed) := merge_watermarks (st_gc_watermark s) incoming in
  let s := set_watermark w s in
  let s := if changed : bool then raise_clock s else s in
  let '(s, pruned) := prune_tombstones blake3 s in
  (if (0 <? pruned)%nat then set_lamport (add64 (st_lamport s) 1) s else s, (changed, pruned)).

Section Ops.
Context {F : Type} `{FsOps F} (blake3 : string → Hash) `{StateCodec}.
Abbreviation World := (World (F:=F)) (only parsing).

(** Saving changes neither the in-memory state nor the result. *)
Definition silent (c : M World ()) : Prop :=
  ∀ w, w_st (c w).1 = w_st w ∧ (c w).2 = Ok ().

Lemma silent_ignore_fs {A} (c : M F A) : silent (m_ignore (on_fs c)).
Proof. intros w. unfold m_ignore, on_fs, m_zoom. by destruct (c (w_fs w)). Qed.

Lemma save_lamport_silent : silent save_lamport.
Proof. intros w. apply (silent_ignore_fs _ w). Qed.

Lemma save_entries_silent : silent save_entries.
Proof.
  intros w. unfold save_entries, m_bind, get_st, m_gets.
  destruct (ser_entries _); [apply silent_ignore_fs|done].
Qed.

Lemma save_gc_watermark_silent : silent save_gc_watermark.
Proof.
  intros w. unfold save_gc_watermark, m_bind, get_st, m_gets.
  destruct (ser_watermark _); [apply silent_ignore_fs|done].
Qed.

Lemma bind_silent {A} (c : M World ()) (f : () → M World A) w :
  silent c → ∃ w1, w_st w1 = w_st w ∧ m_bind c f w = f () w1.
Proof.
  intros Hc. destruct (Hc w) as [Hst Hr]. exists (c w).1. split; [done|].
  unfold m_bind. destruct (c w) as [w1 r]. simpl in *. by subst r.
Qed.

(** The state and the result of [merge_gc_watermark] do not depend on the disk,
    and it does not fail. *)
Lemma merge_gc_watermark_pure incoming (w : World) :
  ∃ f, merge_gc_watermark blake3 incoming w =
    (mkWorld f (gc_merge blake3 (w_st w) incoming).1,
     Ok (gc_merge blake3 (w_st w) incoming).2).
Proof.
  unfold merge_gc_watermark, gc_merge. unfold m_bind at 1, get_st, m_gets.
  destruct (merge_watermarks (st_gc_watermark (w_st w)) incoming) as [wm changed].
  unfold m_bind at 1, on_st at 1, m_modify.
  set (w1 := mkWorld (w_fs w) (set_watermark wm (w_st w))).
  assert (∃ w2, w_st w2 = (if changed then raise_clock (w_st w1) else w_st w1) ∧
    (if changed : bool then
       (save_gc_watermark ;;
        let own := default 0 (wm !! st_origin (w_st w)) in
        if st_lamport (w_st w) <? own then on_st (set_lamport own) ;; save_lamport
        else m_ret ())%m
     else m_ret ()) w1 = (w2, Ok ())) as (w2 & Hw2 & E).
  { destruct changed; [|by exists w1].
    destruct (bind_silent save_gc_watermark (λ _ : (),
       let own := default 0 (wm !! st_origin (w_st w)) in
        if st_lamport (w_st w) <? own then (on_st (set_lamport own) ;; save_lamport)%m
        else m_ret ()) w1 save_gc_watermark_silent) as (w1' & Hw1' & ->).
    unfold raise_clock. change (own_watermark (w_st w1)) with (default 0 (wm !! st_origin (w_st w))).
    change (st_lamport (w_st w1)) with (st_lamport (w_st w)). cbv zeta.
    destruct (_ <? _).
    - unfold m_bind, on_st, m_modify.
      destruct (save_lamport_silent (mkWorld (w_fs w1')
        (set_lamport (default 0 (wm !! st_origin (w_st w))) (w_st w1')))) as [Hst Hr].
      eexists. split; [|by rewrite <-Hr; apply surjective_pairing].
      by rewrite Hst, <-Hw1'.
    - by exists w1'. }
  unfold m_bind at 1. cbv zeta in E |- *. rewrite E.
  change (set_watermark wm (w_st w)) with (w_st w1). rewrite <-Hw2. unfold m_bind at 1, m_prune.
  destruct (prune_tombstones blake3 (w_st w2)) as [s3 n]. cbv beta iota zeta.
  destruct (0 <? n)%nat; [|by exists (w_fs w2)].
  unfold m_bind at 1. unfold m_bind at 1, on_st, m_modify. simpl.
  destruct (save_lamport_silent (mkWorld (w_fs w2) (set_lamport (add64 (st_lamport s3) 1) s3)))
    as [Hst Hr].
  destruct (save_lamport _) as [[f4 s4] r]. simpl in *. subst r s4. by exists f4.
Qed.

End Ops.

(** ** What [gc_merge] does, summed up *)

Lemma raise_clock_entries s : st_entries (raise_clock s) = st_entries s.
Proof. unfold raise_clock. by destruct (_ <? _). Qed.

Lemma raise_clock_watermark s : st_gc_watermark (raise_clock s) = st_gc_watermark s.
Proof. unfold raise_clock. by destruct (_ <? _). Qed.

Lemma covered_same_watermark s s' :
  st_gc_watermark s = st_gc_watermark s' → ∀ e, covered s e = covered s' e.
Proof. intros Hw e. unfold covered, is_version_gced. by rewrite Hw. Qed.

Lemma gc_merge_spec blake3 s incoming :
  let s' := (gc_merge blake3 s incoming).1 in
  st_gc_watermark s' = (merge_watermarks (st_gc_watermark s) incoming).1 ∧
  st_entries s' = filter (λ kv : string * Entry, covered s' kv.2 = false) (st_entries s) ∧
  (gc_merge blake3 s incoming).2.2 =
    length (List.filter (λ kv : string * Entry, covered s' kv.2) (btree_items (st_entries s))) ∧
  (gc_merge blake3 s incoming).2.1 = (merge_watermarks (st_gc_watermark s) incoming).2.
Proof.
  unfold gc_merge. destruct (merge_watermarks _ _) as [w changed]. cbv zeta.
  set (s1 := if changed then _ else _).
  assert (st_gc_watermark s1 = w ∧ st_entries s1 = st_entries s) as [Hw1 He1].
  { unfold s1. destruct changed; [|done]. by rewrite raise_clock_watermark, raise_clock_entries. }
  destruct (prune_tombstones_spec blake3 s1) as (He & _ & _ & _ & Hw & _ & Hn & _).
  destruct (prune_tombstones blake3 s1) as [s2 n]. cbn [fst snd] in *.
  set (s3 := if (0 <? n)%nat then _ else s2).
  assert (st_gc_watermark s3 = w ∧ st_entries s3 = st_entries s2) as [Hw3 He3].
  { unfold s3. destruct (0 <? n)%nat; simpl; by rewrite Hw. }
  assert (∀ e, covered s1 e = covered s3 e) as Hcov
    by (apply covered_same_watermark; by rewrite Hw1).
  split_and!; [done| | |done].
  - rewrite He3, He. unfold prune_covered. rewrite He1.
    apply map_filter_ext. intros k e _. simpl. by rewrite Hcov.
  - rewrite Hn. unfold to_prune. rewrite length_fmap, He1. f_equal.
    apply List.filter_ext. intros kv. by rewrite Hcov.
Qed.

Lemma length_btree_items {V} (m : gmap string V) : length (btree_items m) = base.size m.
Proof.
  rewrite <-(length_fmap fst), fst_btree_items. unfold btree_keys.
  rewrite sort_keys_Permutation, length_fmap. apply length_map_to_list.
Qed.

Lemma list_filter_length {A} (f : A → bool) l :
  (length (List.filter f l) + length (filter (λ x, f x = false) l))%nat = length l.
Proof.
  induction l as [|x l IH]; [done|]. rewrite filter_cons. simpl.
  destruct (f x) eqn:E; [rewrite decide_False by congruence|rewrite decide_True by done];
    simpl; lia.
Qed.

(** Removed plus kept is all. *)
Lemma prune_size (f : Entry → bool) (m : gmap string Entry) :
  (length (List.filter (λ kv : string * Entry, f kv.2) (btree_items m))
   + base.size (filter (λ kv : string * Entry, f kv.2 = false) m) = base.size m)%nat.
Proof.
  rewrite <-!length_btree_items, <-filter_btree_items.
  apply (list_filter_length (λ kv : string * Entry, f kv.2)).
Qed.

(** After merging the watermark of its own tombstones, a state covers them all. *)
Lemma merged_own_covers blake3 s p e :
  st_entries s !! p = Some e → kind e = Tombstone →
  covered (gc_merge blake3 s (tombstone_watermark (st_entries s))).1 e = true.
Proof.
  intros Hp Hk.
  destruct (gc_merge_spec blake3 s (tombstone_watermark (st_entries s))) as (Hw & _).
  destruct (tombstone_watermark_covers _ _ _ Hp Hk) as (l & Hl & Hle).
  unfold covered, is_version_gced. rewrite bool_decide_true, Hw, merge_watermarks_lookup, Hl by done.
  simpl. apply Z.leb_le. lia.
Qed.

(** With no tombstone to prune, the clock ends at the larger of the two. *)
Lemma gc_merge_no_prune_lamport blake3 s v :
  own_watermark s ≤ st_lamport s → st_lamport s ≤ v →
  map_Forall (λ _ e, kind e ≠ Tombstone) (st_entries s) →
  st_lamport (gc_merge blake3 s {[st_origin s := v]}).1 = v.
Proof.
  intros Hown Hv Hlive. unfold gc_merge.
  pose proof (merge_watermarks_lookup (st_gc_watermark s) {[st_origin s := v]} (st_origin s)) as Hl.
  pose proof (merge_watermarks_changed (st_gc_watermark s) {[st_origin s := v]}) as Hc.
  rewrite lookup_singleton_eq in Hl.
  destruct (merge_watermarks _ _) as [w changed]. cbn [fst snd] in Hl, Hc.
  set (s1 := if changed then _ else _).
  assert (st_entries s1 = st_entries s ∧ st_lamport s1 = v) as [He1 Hl1].
  { unfold s1. unfold own_watermark in Hown. destruct changed.
    - rewrite raise_clock_entries. split; [done|]. unfold raise_clock, own_watermark. simpl.
      rewrite Hl. simpl. rewrite Z.max_r by lia. destruct (Z.ltb_spec (st_lamport s) v); simpl; lia.
    - split; [done|]. simpl. destruct (decide (st_lamport s = v)) as [|Hne]; [done|].
      exfalso. assert (false = true) by (apply Hc; exists (st_origin s), v;
        rewrite lookup_singleton_eq; split; [done|lia]). done. }
  assert (to_prune s1 = []) as Hp.
  { apply elem_of_nil_inv. intros k (e & Hk & Hcov)%elem_of_to_prune.
    rewrite He1 in Hk. specialize (Hlive k e Hk). unfold covered in Hcov.
    by rewrite bool_decide_false in Hcov. }
  unfold prune_tombstones. fold (to_prune s1). by rewrite Hp.
Qed.
