(* ===== verification/StateReach.v ===== *)
(** * Reachable folder states

    [run] is one operation on a started folder, as the daemon calls them; the
    side conditions only exclude clocks that pass [2^64 - 1].  Every reachable
    state satisfies [state_inv], and so does the state [new] starts from. *)

From S2P Require Import Prelude Paths Bytes Utf8 Fs Ignore Entries Scan Tree.
From S2P Require Import TreeUpdate State StateLocal StateIndex StateTrack StateOps.
From S2P Require Import StateInv StateGc.

Lemma prune_inv blake3 s :
  keyed (st_entries s) → 0 ≤ st_lamport s < u64_modulus →
  (∀ p e, st_entries s !! p = Some e → 0 ≤ lamport (version e) ≤ st_lamport s) →
  own_watermark s ≤ st_lamport s →
  state_inv (prune_tombstones blake3 s).1.
Proof.
  intros H1 H2 H3 H4. destruct (prune_tombstones_spec blake3 s) as (He & _ & Ho & Hl & Hw & _).
  split.
  - rewrite He. intros p e [Hp _]%map_lookup_filter_Some. by apply H1.
  - by rewrite Hl.
  - intros p e. rewrite He, Hl. intros [Hp _]%map_lookup_filter_Some. by eapply H3.
  - unfold own_watermark in *. by rewrite Hw, Ho, Hl.
  - intros p e. rewrite He. intros [_ Hc]%map_lookup_filter_Some. simpl in Hc.
    unfold covered, is_version_gced in *. by rewrite Hw.
Qed.

Lemma raise_clock_spec s :
  st_lamport (raise_clock s) = Z.max (st_lamport s) (own_watermark s) ∧
  st_entries (raise_clock s) = st_entries s ∧ own_watermark (raise_clock s) = own_watermark s ∧
  st_gc_watermark (raise_clock s) = st_gc_watermark s ∧ st_origin (raise_clock s) = st_origin s.
Proof. unfold raise_clock. destruct (Z.ltb_spec (st_lamport s) (own_watermark s)); simpl; split_and!; done || lia. Qed.

Lemma unchanged_own_watermark w incoming o :
  (merge_watermarks w incoming).2 = false →
  default 0 ((merge_watermarks w incoming).1 !! o) = default 0 (w !! o).
Proof.
  intros Hc. apply not_true_iff_false in Hc. rewrite merge_watermarks_changed in Hc.
  rewrite merge_watermarks_lookup. destruct (incoming !! o) as [v|] eqn:E; [|done].
  simpl. destruct (decide (default 0 (w !! o) < v)) as [Hlt|Hle]; [|lia].
  destruct Hc. by exists o, v.
Qed.

(** The state [merge_gc_watermark] prunes: the clock is not below the merged
    own watermark. *)
Definition before_prune (s : FolderState) (incoming : GcWatermark) : FolderState :=
  let s' := set_watermark (merge_watermarks (st_gc_watermark s) incoming).1 s in
  if (merge_watermarks (st_gc_watermark s) incoming).2 then raise_clock s' else s'.

Lemma before_prune_spec s incoming :
  own_watermark s ≤ st_lamport s →
  let s' := before_prune s incoming in
  st_lamport s' = Z.max (st_lamport s) (own_watermark s') ∧
  own_watermark s' = default 0 ((merge_watermarks (st_gc_watermark s) incoming).1 !! st_origin s) ∧
  st_entries s' = st_entries s ∧ st_origin s' = st_origin s ∧
  st_gc_watermark s' = (merge_watermarks (st_gc_watermark s) incoming).1.
Proof.
  intros Hown. unfold before_prune.
  destruct ((merge_watermarks (st_gc_watermark s) incoming).2) eqn:E.
  - destruct (raise_clock_spec
      (set_watermark (merge_watermarks (st_gc_watermark s) incoming).1 s))
      as (-> & -> & -> & -> & ->). done.
  - cbv zeta. split_and!; [|done..].
    unfold own_watermark in *. simpl. rewrite unchanged_own_watermark by done. lia.
Qed.

Lemma gc_merge_unfold blake3 s incoming :
  gc_merge blake3 s incoming =
    let r := prune_tombstones blake3 (before_prune s incoming) in
    (if (0 <? r.2)%nat then set_lamport (add64 (st_lamport r.1) 1) r.1 else r.1,
     ((merge_watermarks (st_gc_watermark s) incoming).2, r.2)).
Proof.
  unfold gc_merge, before_prune.
  destruct (merge_watermarks (st_gc_watermark s) incoming) as [w changed]. simpl.
  by destruct (prune_tombstones _ _).
Qed.

(** Ticking the clock keeps the invariant while it does not wrap. *)
Lemma tick_inv s : state_inv s → st_lamport s + 1 < u64_modulus →
  state_inv (set_lamport (add64 (st_lamport s) 1) s).
Proof.
  intros [H1 H2 H3 H4 H5] Hb. rewrite add64_small by lia.
  split; simpl; [done|lia| | |done].
  - intros p e Hp. specialize (H3 p e Hp). lia.
  - unfold own_watermark in *. simpl. lia.
Qed.

(** What a merged watermark must leave: one tick of the clock. *)
Definition watermark_bounded (s : FolderState) (incoming : GcWatermark) : Prop :=
  st_lamport s + 1 < u64_modulus ∧
  ∀ v, incoming !! st_origin s = Some v → v + 1 < u64_modulus.

Lemma gc_merge_inv blake3 s incoming :
  state_inv s → watermark_bounded s incoming →
  state_inv (gc_merge blake3 s incoming).1.
Proof.
  intros Hinv [Hb1 Hb2]. pose proof Hinv as [H1 H2 H3 H4 _].
  destruct (before_prune_spec s incoming H4) as (Hl & Hown & He & Ho & Hw).
  assert (own_watermark (before_prune s incoming) + 1 < u64_modulus) as Hb3.
  { rewrite Hown, merge_watermarks_lookup. unfold own_watermark in H4.
    destruct (incoming !! st_origin s) as [v|] eqn:Ev; simpl; [|lia].
    specialize (Hb2 v eq_refl). lia. }
  assert (state_inv (prune_tombstones blake3 (before_prune s incoming)).1) as Hp.
  { apply prune_inv; rewrite ?He, ?Hl; [done|lia| |lia].
    intros p e Hp. specialize (H3 p e Hp). lia. }
  rewrite gc_merge_unfold. cbv zeta.
  destruct (prune_tombstones_spec blake3 (before_prune s incoming)) as (_&_&_&Hl'&_).
  destruct (0 <? _)%nat; [|done]. apply tick_inv; [done|]. rewrite Hl', Hl. lia.
Qed.

Section Reach.
Context {F : Type} `{FsOps F} (blake3 : string → Hash) `{StateCodec}.
Abbreviation World := (World (F:=F)) (only parsing).

Lemma merge_gc_watermark_inv incoming (w : World) :
  state_inv (w_st w) → watermark_bounded (w_st w) incoming →
  state_inv (w_st (merge_gc_watermark blake3 incoming w).1).
Proof.
  intros Hinv Hb. destruct (merge_gc_watermark_pure blake3 incoming w) as [f ->].
  by apply gc_merge_inv.
Qed.

(** The node's own tombstones are below its clock, so collecting them needs no
    bound on the watermark. *)
Lemma gc_tombstones_inv (w : World) :
  state_inv (w_st w) → st_lamport (w_st w) + 1 < u64_modulus →
  state_inv (w_st (gc_tombstones_for_converged_root blake3 w).1).
Proof.
  intros Hinv Hb. unfold gc_tombstones_for_converged_root, m_bind at 1, get_st, m_gets.
  case_decide; [done|].
  pose proof (merge_gc_watermark_inv (tombstone_watermark (st_entries (w_st w))) w Hinv) as Hm.
  unfold m_bind. destruct (merge_gc_watermark _ _ w) as [w' [r|e]]; apply Hm;
    (split; [done|]); intros v Hv.
  all: pose proof (tombstone_watermark_bound (st_entries (w_st w)) (st_origin (w_st w))
    (st_lamport (w_st w))) as Hbound; rewrite Hv in Hbound; simpl in Hbound.
  all: enough (v ≤ st_lamport (w_st w)) by lia.
  all: destruct Hinv as [_ Hr Hclock _ _]; apply Hbound; [lia|]; intros p e' Hp;
    by apply (Hclock p e' Hp).
Qed.

(** One operation of a running node. *)
Inductive run : World → World → Prop :=
  | run_remote B batch w r w' :
      apply_remote_entries blake3 batch w = (w', r) →
      batch_bounded B batch → headroom B (length batch) (w_st w) →
      run w w'
  | run_paths paths ds w r w' :
      apply_paths blake3 paths w = (w', r) →
      index_changes (w_st w) ds (w_st w') →
      st_lamport (w_st w) + Z.of_nat (length ds) < u64_modulus →
      run w w'
  | run_rescan ds w r w' :
      rescan blake3 w = (w', r) →
      index_changes (w_st w) ds (w_st w') →
      st_lamport (w_st w) + Z.of_nat (length ds) < u64_modulus →
      run w w'
  | run_merge incoming w r w' :
      merge_gc_watermark blake3 incoming w = (w', r) →
      watermark_bounded (w_st w) incoming →
      run w w'
  | run_gc w r w' :
      gc_tombstones_for_converged_root blake3 w = (w', r) →
      st_lamport (w_st w) + 1 < u64_modulus →
      run w w'.

Lemma run_inv w w' : run w w' → state_inv (w_st w) → state_inv (w_st w').
Proof.
  destruct 1 as [B batch w r w' E Hb Hh|paths ds w r w' _ Hds Hb|ds w r w' _ Hds Hb
                |inc w r w' E Hb|w r w' E Hb]; intros Hinv.
  - replace w' with (apply_remote_entries blake3 batch w).1 by (by rewrite E).
    by eapply apply_remote_entries_inv.
  - by eapply index_changes_inv.
  - by eapply index_changes_inv.
  - replace w' with (merge_gc_watermark blake3 inc w).1 by (by rewrite E).
    by apply merge_gc_watermark_inv.
  - replace w' with (gc_tombstones_for_converged_root blake3 w).1 by (by rewrite E).
    by apply gc_tombstones_inv.
Qed.

Lemma reachable_inv w w' : rtc run w w' → state_inv (w_st w) → state_inv (w_st w').
Proof. induction 1; eauto using run_inv. Qed.

(** ** Starting *)

(** What the persisted files may decode to: an index keyed by its paths, with
    [u64] clocks. *)
Definition entries_sound (es : gmap string Entry) : Prop :=
  keyed es ∧ map_Forall (λ _ e, 0 ≤ lamport (version e) < u64_modulus) es.

Lemma foldr_max_lamport_le l e :
  e ∈ l → lamport (version e) ≤ foldr (λ e m, Z.max (lamport (version e)) m) 0 l.
Proof. induction l as [|e' l IH]; [by intros ?%elem_of_nil|]. intros [->|?%IH]%elem_of_cons; simpl; lia. Qed.

Lemma foldr_max_lamport_bound l B :
  0 < B → (∀ e, e ∈ l → 0 ≤ lamport (version e) < B) →
  0 ≤ foldr (λ e m, Z.max (lamport (version e)) m) 0 l < B.
Proof.
  intros HB. induction l as [|e l IH]; intros Hall; simpl; [lia|].
  assert (0 ≤ lamport (version e) < B) by (apply Hall; left).
  specialize (IH (λ e' He', Hall e' (list_elem_of_further _ _ _ He'))). lia.
Qed.

(** The initial clock is above every loaded version and the own watermark. *)
Lemma initial_lamport_spec saved es own :
  0 ≤ saved < u64_modulus → own < u64_modulus → entries_sound es →
  let l := initial_lamport saved es own in
  0 ≤ l < u64_modulus ∧ saved ≤ l ∧ own ≤ l ∧
  ∀ p e, es !! p = Some e → lamport (version e) ≤ l.
Proof.
  intros Hs Ho [_ Hes]. unfold initial_lamport.
  destruct (foldr_max_lamport_bound (btree_values es) u64_modulus) as [Hm0 Hm1].
  { apply u64_modulus_pos. }
  { intros e [p Hp]%elem_of_btree_values. by apply (Hes p). }
  split_and!; [lia..|].
  intros p e Hp. enough (lamport (version e) ≤
    foldr (λ e m, Z.max (lamport (version e)) m) 0 (btree_values es)) by lia.
  apply foldr_max_lamport_le, elem_of_btree_values. by exists p.
Qed.

(** The state after the files are loaded and the index pruned. *)
Definition started (root origin : string) (saved : Z) (wm : GcWatermark)
    (es : gmap string Entry) (cache : ScanCache) : FolderState :=
  (prune_tombstones blake3
     (mkState root origin (initial_lamport saved es (default 0 (wm !! origin))) wm es
        (empty_snapshot blake3) (empty_snapshot blake3) cache)).1.

Lemma started_inv root origin saved wm es cache :
  0 ≤ saved < u64_modulus → default 0 (wm !! origin) < u64_modulus → entries_sound es →
  state_inv (started root origin saved wm es cache).
Proof.
  intros Hs Ho Hes.
  destruct (initial_lamport_spec saved es (default 0 (wm !! origin)) Hs Ho Hes)
    as (Hl & _ & Hown & Hall).
  apply prune_inv; simpl; [apply Hes|done| |done].
  intros p e Hp. split; [by apply (proj2 Hes p e Hp)|by eapply Hall].
Qed.

Lemma le_value_range s : strlen s = 8%nat → 0 ≤ le_value s < u64_modulus.
Proof.
  intros Hlen. assert (∀ s, 0 ≤ le_value s < 256 ^ Z.of_nat (strlen s)) as Hr.
  { clear. induction s as [|a s IH]; [done|]. cbn [le_value strlen].
    assert (0 ≤ byte_val a < 256) by (apply byte_val_range).
    rewrite Nat2Z.inj_succ, Z.pow_succ_r by lia. lia. }
  specialize (Hr s). by rewrite Hlen in Hr.
Qed.

(** What the index file may decode to. *)
Definition stored_entries (es : gmap string Entry) : Prop :=
  es = ∅ ∨ ∃ bytes, de_entries bytes = Some es ∨
                    ∃ les, de_legacy_entries bytes = Some les ∧ es = into_entry <$> les.

Lemma load_saved_entries_stored state_dir (f f' : F) es :
  load_saved_entries state_dir f = (f', Ok es) → stored_entries es.
Proof.
  unfold load_saved_entries, m_bind, m_try, m_ret.
  destruct (fs_read _ f) as [f1 [b|[]]]; try done; [|intros [= _ <-]; by left].
  destruct (de_entries b) as [es'|] eqn:Ed.
  - intros [= _ <-]. right. exists b. by left.
  - destruct (de_legacy_entries b) as [les|] eqn:Edl; [|done].
    intros [= _ <-]. right. exists b. right. by exists les.
Qed.

Lemma load_saved_lamport_range state_dir (f f' : F) saved :
  load_saved_lamport state_dir f = (f', Ok saved) → 0 ≤ saved < u64_modulus.
Proof.
  unfold load_saved_lamport, m_bind, m_try, m_ret. pose proof u64_modulus_pos.
  destruct (fs_read _ f) as [f1 [b|e]]; intros [= _ <-]; [|done].
  destruct (Nat.eqb_spec (strlen b) 8); [by apply le_value_range|done].
Qed.

(** [new] loads the three files and hands the state over. *)
Lemma new_state_loaded root origin (f f' : F) s :
  new_state blake3 root origin f = (f', Ok s) →
  ∃ root' saved wm es cache f1 w,
    0 ≤ saved < u64_modulus ∧ stored_entries es ∧
    (wm = ∅ ∨ ∃ bytes, de_watermark bytes = Some wm) ∧
    new_body blake3 (mkWorld f1
      (mkState root' origin (initial_lamport saved es (default 0 (wm !! origin))) wm es
         (empty_snapshot blake3) (empty_snapshot blake3) cache)) = (w, Ok ()) ∧
    w_st w = s.
Proof.
  unfold new_state. intros (f1 & root' & _ & Hrun)%m_bind_inv. cbv zeta in Hrun.
  apply m_bind_inv in Hrun as (f2 & [] & _ & Hrun). apply m_bind_inv in Hrun as (f3 & [] & _ & Hrun).
  apply m_bind_inv in Hrun as (f4 & saved & Hl & Hrun). apply m_bind_inv in Hrun as (f5 & wm & Hw & Hrun).
  apply m_bind_inv in Hrun as (f6 & es & He & Hrun). apply m_bind_inv in Hrun as (f7 & cache & _ & Hrun).
  destruct (new_body _ _) as [w [[]|e]] eqn:Hb; [|done]. injection Hrun as _ <-.
  exists root', saved, wm, es, cache, f7, w. split_and!.
  - by eapply load_saved_lamport_range.
  - by eapply load_saved_lamport_range.
  - by eapply load_saved_entries_stored.
  - revert Hw. unfold load_gc_watermark, m_bind, m_try, m_ret.
    destruct (fs_read _ f4) as [f5' [b|e]]; intros [= _ <-]; [|by left].
    destruct (de_watermark b) as [wm'|] eqn:Ed; [|by left]. right. by exists b.
  - exact Hb.
  - done.
Qed.

(** It prunes and rescans. *)
Lemma new_state_decomposed root origin (f f' : F) s :
  new_state blake3 root origin f = (f', Ok s) →
  ∃ root' saved wm es cache ds,
    0 ≤ saved < u64_modulus ∧ stored_entries es ∧
    (wm = ∅ ∨ ∃ bytes, de_watermark bytes = Some wm) ∧
    index_changes (started root' origin saved wm es cache) ds s.
Proof.
  intros (root' & saved & wm & es & cache & f1 & w & Hs & Hes & Hwm & Hb & <-)%new_state_loaded.
  exists root', saved, wm, es, cache. revert Hb. set (s0 := mkState _ _ _ _ _ _ _ _).
  unfold started. fold s0. unfold new_body, m_bind at 1, m_prune. cbn [w_st w_fs].
  destruct (prune_tombstones blake3 s0) as [s1 n]. cbn [fst].
  assert (tracks (F:=F) (
     (if (0 <? n)%nat then save_entries else m_ret ()) ;;
     changes <- rescan blake3 ;;
     match changes with [] => m_ret () | _ => save_entries end ;;
     save_lamport)%m (λ _ _, True)) as Htr.
  { apply tracks_then; [destruct (0 <? _)%nat; auto with keeps|]. intros [].
    eapply tracks_bind; [apply rescan_tracks|]. intros cs ds1 _.
    apply tracks_keeps; [|done]. apply keeps_bind; [destruct cs; auto with keeps|].
    intros []. auto with keeps. }
  destruct (Htr (mkWorld f1 s1)) as (ds & Hds & _). intros Hb. exists ds.
  split_and!; [apply Hs|apply Hs|done|done|]. cbn [w_st] in Hds.
  by rewrite Hb in Hds.
Qed.

End Reach.
