(* ===== verification/StateSafety.v ===== *)
(** * What a peer can make this node do to its disk

    [apply_remote_entries] is driven by a peer's data.  Run on a file system
    that records every changing call, it only ever touches the received
    temporary files, the validated destinations below the synced folder (and
    what lies below a destination being replaced), and its own state files. *)

From S2P Require Import Prelude Paths Bytes Utf8 Fs Ignore Entries Scan Tree.
From S2P Require Import TreeUpdate State StateLocal StateIndex StateTrack StateOps.

(** ** Validated paths *)

Definition safe_component (c : string) : Prop :=
  c ≠ "" ∧ c ≠ "." ∧ c ≠ ".." ∧ should_ignore_component c = false.

Lemma bad_remote_component_false c : bad_remote_component c = false ↔ safe_component c.
Proof.
  unfold bad_remote_component, safe_component.
  rewrite !orb_false_iff, !bool_decide_eq_false. tauto.
Qed.

Lemma existsb_false_Forall {A} (f : A → bool) l :
  existsb f l = false ↔ Forall (λ x, f x = false) l.
Proof.
  induction l as [|x l IH]; simpl; [split; [constructor|done]|].
  by rewrite orb_false_iff, IH, Forall_cons.
Qed.

(** All parts are plain names: the path is relative and its components are its
    parts. *)
Lemma safe_components_normal p :
  Forall safe_component (split_on slash p) →
  is_absolute p = false ∧ path_components p = Normal <$> split_on slash p.
Proof.
  intros Hsafe. assert (is_absolute p = false) as Habs.
  { apply not_true_is_false. intros [r ->]%starts_with_spec.
    change ("/" +:+ r) with ("" +:+ String slash r) in Hsafe.
    rewrite (split_on_cons slash "" r) in Hsafe by done.
    by apply Forall_cons in Hsafe as [[? _] _]. }
  split; [done|]. unfold path_components. rewrite Habs.
  assert (∀ l, Forall safe_component l → omap part_component l = Normal <$> l) as Hmap.
  { induction 1 as [|c l (H1 & H2 & H3 & _) _ IH]; [done|]. simpl.
    unfold part_component. rewrite !decide_False by done. f_equal. apply IH. }
  destruct (split_on slash p) as [|c l] eqn:E; [done|].
  pose proof Hsafe as [(_ & Hdot & _) _]%Forall_cons.
  rewrite <-(Hmap (c :: l)) by done. repeat case_match; try done.
Qed.

Lemma existsb_escaping_normal l : existsb escaping_component (Normal <$> l) = false.
Proof. induction l; done. Qed.

(** [validate_remote_path] accepts exactly the paths made of plain, not reserved
    names; its second check, on [Path::components], never fires. *)
Lemma validate_remote_path_Ok p :
  validate_remote_path p = Ok () ↔
    contains "000"%char p = false ∧ contains "092"%char p = false ∧
    Forall safe_component (split_on slash p).
Proof.
  assert (Forall safe_component (split_on slash p) ↔
          existsb bad_remote_component (split_on slash p) = false) as Hex.
  { rewrite existsb_false_Forall. apply Forall_iff. intros c. symmetry.
    apply bad_remote_component_false. }
  unfold validate_remote_path. split.
  - case_decide; [done|]. destruct (contains _ p || _) eqn:E1; [done|].
    destruct (existsb bad_remote_component _) eqn:E2; [done|]. intros _.
    apply orb_false_iff in E1 as [-> ->]. by rewrite Hex.
  - intros (H1 & H2 & Hsafe). rewrite H1, H2. simpl.
    rewrite decide_False by (by intros ->; apply Forall_cons in Hsafe as [[? _] _]).
    apply Hex in Hsafe as Hbad. rewrite Hbad.
    destruct (safe_components_normal p Hsafe) as [-> ->].
    by rewrite existsb_escaping_normal.
Qed.

(** ** The calls of an installation *)

(** [q] is [p] or was reached from it by following directory entries. *)
Definition reached_from (p q : string) : Prop := ∃ names, q = foldl path_join p names.

Inductive install_call (dest : string) (tmp : option string) : FsCall → Prop :=
  | ic_parent p : path_parent dest = Some p → install_call dest tmp (CCreateDirAll p)
  | ic_mkdir : install_call dest tmp (CCreateDirAll dest)
  | ic_remove : install_call dest tmp (CRemoveFile dest)
  | ic_remove_all : install_call dest tmp (CRemoveDirAll dest)
  | ic_writable q m : reached_from dest q → Z.land m 448 = 448 →
                      install_call dest tmp (CSetPermissions q m)
  | ic_rename t : tmp = Some t → install_call dest tmp (CRename t dest)
  | ic_mode m : Z.land m 3072 = 0 → install_call dest tmp (CSetPermissions dest m)
  | ic_symlink target : validate_symlink_target target = Ok () →
                        install_call dest tmp (CSymlink target dest).

Lemma sanitize_clears m m' : sanitize_remote_mode m = Some m' → Z.land m' 3072 = 0.
Proof.
  unfold sanitize_remote_mode. destruct m as [m|]; [|done]. intros [= <-].
  rewrite <-Z.land_assoc. change (Z.land (Z.lxor (Z.ones 32) 3072) 3072) with 0.
  apply Z.land_0_r.
Qed.

Lemma owner_bits m : Z.land (Z.lor m 448) 448 = 448.
Proof. apply Z.bits_inj'. intros n _. rewrite Z.land_spec, Z.lor_spec.
  destruct (Z.testbit m n), (Z.testbit 448 n); done. Qed.

Section Calls.
Context {F : Type} `{FsOps F}.

Abbreviation calls P c := (only_calls (tr_log (F:=F)) P c) (only parsing).

Lemma make_writable_calls (dest : string) tmp fuel p :
  reached_from dest p →
  calls (install_call dest tmp) (make_dir_tree_writable fuel p).
Proof.
  revert p. induction fuel as [|fuel IH]; intros p Hp; simpl; [auto with calls|].
  apply only_calls_bind; [apply only_calls_pure|]. intros md.
  destruct (is_dir md); simpl; [|auto with calls].
  apply only_calls_bind.
  { apply only_calls_call. apply ic_writable; [done|apply owner_bits]. }
  intros _. apply only_calls_bind; [apply only_calls_pure|]. intros children.
  apply only_calls_for. intros child _.
  apply only_calls_bind; [auto with calls|]. intros name.
  apply only_calls_bind; [apply only_calls_pure|]. intros md'.
  destruct (is_dir md'); [|auto with calls]. apply IH.
  destruct Hp as [names ->]. exists (names ++ [name]). by rewrite foldl_app.
Qed.

Lemma remove_path_calls dest tmp :
  calls (install_call dest tmp) (remove_path_if_exists dest).
Proof.
  unfold remove_path_if_exists.
  apply only_calls_bind; [apply only_calls_try, only_calls_pure|].
  intros [md|[]]; try (auto with calls; fail).
  destruct (is_dir md).
  - apply only_calls_bind; [apply make_writable_calls; by exists []|]. intros _.
    apply only_calls_call. constructor.
  - apply only_calls_call. constructor.
Qed.

Lemma create_parent_calls dest tmp : calls (install_call dest tmp) (create_parent dest).
Proof.
  unfold create_parent. destruct (path_parent dest) eqn:E; [|auto with calls].
  apply only_calls_call. by constructor.
Qed.

Lemma install_dir_calls dest tmp : calls (install_call dest tmp) (install_dir dest).
Proof.
  unfold install_dir. apply only_calls_bind; [apply only_calls_try, only_calls_pure|].
  intros [md|[]]; try (auto with calls; fail).
  - destruct (is_dir md); [auto with calls|].
    apply only_calls_bind; [apply remove_path_calls|]. intros _.
    apply only_calls_call, ic_mkdir.
  - apply only_calls_call, ic_mkdir.
Qed.

Lemma set_remote_mode_calls dest tmp (md : option Z) :
  calls (install_call dest tmp) (set_mode dest (sanitize_remote_mode md)).
Proof.
  unfold set_mode. destruct (sanitize_remote_mode md) as [m|] eqn:E; [|auto with calls].
  apply only_calls_call. apply ic_mode. by eapply sanitize_clears.
Qed.

(** Installing an entry only makes the calls above. *)
Lemma install_remote_calls root remote tmp :
  calls (install_call (path_join root (path remote)) tmp) (install_remote root remote tmp).
Proof.
  unfold install_remote. destruct (kind remote).
  - apply only_calls_lift_bind. intros t Ht. unfold install_remote_file.
    apply only_calls_bind; [apply create_parent_calls|]. intros _.
    apply only_calls_bind; [apply remove_path_calls|]. intros _.
    apply only_calls_bind.
    { apply only_calls_call. apply ic_rename. destruct tmp; [by injection Ht as ->|done]. }
    intros _. apply (set_remote_mode_calls _ tmp (mode remote)).
  - apply only_calls_bind; [apply install_dir_calls|]. intros _. apply set_remote_mode_calls.
  - apply remove_path_calls.
  - unfold install_remote_symlink. apply only_calls_lift_bind. intros target _.
    apply only_calls_lift_bind. intros [] Hv.
    apply only_calls_bind; [apply create_parent_calls|]. intros _.
    apply only_calls_bind; [apply remove_path_calls|]. intros _.
    apply only_calls_call. by constructor.
Qed.

End Calls.

(** ** The calls of a batch *)

(** A write of one of the node's own state files: the temporary sibling, then
    the rename over the file. *)
Definition state_write (root : string) (k : FsCall) : Prop :=
  ∃ name, name ∈ ["lamport"; "entries.bin"] ∧
    let p := path_join (path_join root STATE_DIR) name in
    k = CWrite (with_extension p "tmp") ∨ k = CRename (with_extension p "tmp") p.

(** What a peer's entry can cause. *)
Definition entry_call (root : string) (item : Entry * option string) (k : FsCall) : Prop :=
  (∃ tmp, item.2 = Some tmp ∧ k = CRemoveFile tmp) ∨
  (validate_remote_path (path item.1) = Ok () ∧
   install_call (path_join root (path item.1)) item.2 k).

Section Batch.
Context {F : Type} `{FsOps F} (blake3 : string → Hash) `{StateCodec}.

Definition w_log (w : World (F:=Traced F)) : list FsCall := tr_log (w_fs w).

Lemma only_calls_on_fs {A} P (c : M (Traced F) A) :
  only_calls tr_log P c → only_calls w_log P (on_fs c).
Proof.
  intros Hc w. destruct (Hc (w_fs w)) as (l & Hl & HP). exists l.
  unfold on_fs, m_zoom, w_log. by destruct (c (w_fs w)).
Qed.

Lemma only_calls_same_fs {A} P (c : M (World (F:=Traced F)) A) :
  (∀ w, w_fs (c w).1 = w_fs w) → only_calls w_log P c.
Proof.
  intros Hc w. exists []. unfold w_log. rewrite Hc, app_nil_r. done.
Qed.

(** Calls made from a state whose folder is [root], which stays there. *)
Definition root_calls {A} (root : string) (P : FsCall → Prop)
    (c : M (World (F:=Traced F)) A) : Prop :=
  ∀ w, st_root (w_st w) = root →
    st_root (w_st (c w).1) = root ∧
    ∃ l, w_log (c w).1 = w_log w ++ l ∧ Forall P l.

Lemma root_calls_bind {A B} root P (c : M (World (F:=Traced F)) A)
    (f : A → M (World (F:=Traced F)) B) :
  root_calls root P c → (∀ a, root_calls root P (f a)) → root_calls root P (m_bind c f).
Proof.
  intros Hc Hf w Hw. destruct (Hc w Hw) as (Hr & l & Hl & HP). unfold m_bind.
  destruct (c w) as [w' [a|e]]; simpl in *; [|by eauto].
  destruct (Hf a w' Hr) as (Hr' & l' & Hl' & HP'). split; [done|]. exists (l ++ l').
  rewrite Hl', Hl, app_assoc. split; [done|]. by apply Forall_app.
Qed.

Lemma root_calls_get {A} root P (f : FolderState → M (World (F:=Traced F)) A) :
  (∀ s, st_root s = root → root_calls root P (f s)) → root_calls root P (m_bind get_st f).
Proof. intros Hf w Hw. by apply (Hf (w_st w)). Qed.

Lemma root_calls_keeps {A} root P (c : M (World (F:=Traced F)) A) :
  keeps_index c → only_calls w_log P c → root_calls root P c.
Proof. intros Hk Hc w Hw. split; [|apply Hc]. destruct (Hk w) as [<- _]. done. Qed.

Lemma root_calls_run_acc root P f changes :
  acc_local f → root_calls root P (run_acc (F:=Traced F) f changes).
Proof.
  intros Hf w Hw. unfold run_acc. destruct (Hf (w_st w) changes) as (ds & s' & -> & Hds).
  apply local_changes_frame in Hds as [Hr _]. simpl. split; [congruence|]. exists [].
  by rewrite app_nil_r.
Qed.

Lemma record_remote_root remote s cs : st_root (record_remote remote (s, cs)).1 = st_root s.
Proof.
  destruct (record_remote_local remote s cs) as (ds & s' & -> & Hds).
  by apply local_changes_frame in Hds as [Hr _].
Qed.

Lemma core_calls root item (P : FsCall → Prop) :
  (∀ k, entry_call root item k → P k) →
  root_calls root P (apply_remote_entry_core item.1 item.2).
Proof.
  intros HP w Hw. unfold apply_remote_entry_core.
  unfold m_bind at 1 3, m_lift at 1 2. cbn [fst snd].
  destruct (validate_remote_path (path item.1)) as [[]|e] eqn:Ev;
    [|simpl; split; [done|]; exists []; by rewrite app_nil_r].
  revert w Hw. apply root_calls_get. intros s Hs.
  destruct (should_accept_remote s item.1); simpl.
  - apply root_calls_bind.
    + apply root_calls_keeps; [apply keeps_on_fs|]. apply only_calls_on_fs. rewrite Hs.
      eapply only_calls_mono; [|apply install_remote_calls]. intros k Hk.
      apply HP. by right.
    + intros _ w Hw. unfold run_acc.
      pose proof (record_remote_root item.1 (w_st w) []) as Hr.
      destruct (record_remote item.1 (w_st w, [])) as [s' cs]. simpl in *.
      split; [congruence|]. exists []. by rewrite app_nil_r.
  - apply root_calls_keeps.
    + apply keeps_bind; [|intros; apply keeps_ret].
      destruct item.2; [apply keeps_ignore, keeps_on_fs|apply keeps_ret].
    + apply only_calls_bind; [|intros; apply only_calls_ret].
      destruct item.2 as [tmp|] eqn:Et; [|apply only_calls_ret].
      apply only_calls_ignore, only_calls_on_fs, only_calls_call. apply HP. left. by exists tmp.
Qed.

Lemma write_atomic_calls p bytes (P : FsCall → Prop) :
  P (CWrite (with_extension p "tmp")) → P (CRename (with_extension p "tmp") p) →
  only_calls (tr_log (F:=F)) P (write_atomic p bytes).
Proof.
  intros H1 H2. apply only_calls_bind; [by apply only_calls_call|].
  intros _. by apply only_calls_call.
Qed.

Lemma save_calls root (P : FsCall → Prop) name (bytes : FolderState → option string) :
  name ∈ ["lamport"; "entries.bin"] → (∀ k, state_write root k → P k) →
  root_calls root P (m_bind get_st (λ s, match bytes s with
    | Some b => m_ignore (on_fs (F:=Traced F) (write_atomic (state_file s name) b))
    | None => m_ret () end)).
Proof.
  intros Hname HP. apply root_calls_get. intros s Hs.
  apply root_calls_keeps; [destruct (bytes s); auto with keeps|].
  destruct (bytes s) as [b|]; [|apply only_calls_ret].
  apply only_calls_ignore, only_calls_on_fs. unfold state_file. rewrite Hs.
  apply write_atomic_calls; apply HP; exists name; auto.
Qed.

Lemma apply_remote_entries_root_calls root batch :
  root_calls root (λ k, (∃ item, item ∈ batch ∧ entry_call root item k) ∨ state_write root k)
    (apply_remote_entries blake3 batch).
Proof.
  set (P := λ k, _). unfold apply_remote_entries. apply root_calls_bind.
  - assert (∀ item, item ∈ batch → root_calls root P (apply_remote_entry_core item.1 item.2))
      as Hall.
    { intros item Hin. apply core_calls. intros k Hk. left. by exists item. }
    clearbody P. generalize (@nil Change). induction batch as [|item batch IH]; intros acc.
    { apply root_calls_keeps; [apply keeps_ret|apply only_calls_ret]. }
    simpl. apply root_calls_bind.
    + apply root_calls_bind; [apply Hall; left|]. intros cs.
      apply root_calls_keeps; [apply keeps_ret|apply only_calls_ret].
    + intros acc'. apply IH. intros item' Hin. apply Hall. by right.
  - intros cs. apply root_calls_bind.
    2:{ intros _. apply root_calls_keeps; [apply keeps_ret|apply only_calls_ret]. }
    destruct cs as [|c cs]; [apply root_calls_keeps; [apply keeps_ret|apply only_calls_ret]|].
    apply root_calls_bind.
    { apply root_calls_keeps; [by apply keeps_on_st|by apply only_calls_same_fs]. }
    intros _. apply root_calls_bind; [|intros _].
    + apply (save_calls root P "lamport" (λ s, Some (le_bytes 8 (st_lamport s)))); [left|].
      intros k Hk. by right.
    + apply (save_calls root P "entries.bin" (λ s, ser_entries (st_entries s)));
        [right; left|]. intros k Hk. by right.
Qed.

End Batch.
