(* ===== verification/StateRescan.v ===== *)
(** * Rescans

    [rescan_index] is what [FolderState::rescan] does to the index once it has
    read the patterns and the disk; [in_step] is what it establishes, and on an
    index that is in step it does nothing. *)

From S2P Require Import Prelude Paths Bytes Utf8 Fs Ignore Entries Scan ScanInv Tree.
From S2P Require Import TreeUpdate State StateLocal StateIndex StateTrack StateOps.

(** What a rescan from [w] reads: the patterns, the observed entries and the
    paths still changing, and the state after reading them. *)
Definition rescan_inputs {F : Type} `{FsOps F} (blake3 : string → Hash) (w : World (F:=F))
  : World (F:=F) * IoResult (list IgnorePattern * (gmap string Entry * gset string)) :=
  (s <- get_st ;;
   pats <- on_fs (load_ignore_patterns (st_root s)) ;;
   live <- on_cache (scan_folder blake3 (st_root s)) ;;
   m_ret (pats, live))%m w.

(** What a rescan does to the index, given what it read. *)
Definition rescan_index (pats : list IgnorePattern) (live : gmap string Entry)
    (unstable : gset string) (s : FolderState) : FolderState * list Change :=
  tombstone_unseen (unstable ∪ dom live) pats (update_entries (btree_items live) (s, [])).

(** The index of [s] agrees with what was read. *)
Definition in_step (pats : list IgnorePattern) (live : gmap string Entry)
    (unstable : gset string) (s : FolderState) : Prop :=
  (∀ p e, live !! p = Some e → recorded s p e) ∧
  (∀ q e, q ∉ unstable ∪ dom live → should_ignore q pats = false →
          st_entries s !! q = Some e → kind e = Tombstone).

Lemma tombstoned_proper s s' p o n : st_origin s = st_origin s' →
  tombstoned s p o n → tombstoned s' p o n.
Proof. intros Ho. unfold tombstoned. by rewrite Ho. Qed.

Lemma rescan_index_spec pats live unstable s :
  let r := rescan_index pats live unstable s in
  in_step pats live unstable r.1 ∧
  ∀ q, q ∉ dom live →
    (q ∈ unstable ∨ should_ignore q pats = true) →
    st_entries r.1 !! q = st_entries s !! q ∨
    ∃ p e, live !! p = Some e ∧ is_child p q ∧ kind e ≠ Dir ∧
           match st_entries r.1 !! q with Some e' => kind e' = Tombstone | None => True end.
Proof.
  unfold rescan_index. cbv zeta. set (seen := unstable ∪ dom live).
  destruct (update_entries_recorded (btree_items live) s []) as [Hrec _].
  { apply btree_items_sorted. }
  { rewrite fst_btree_items. apply NoDup_btree_keys. }
  pose proof (λ q Hq, update_entries_other (btree_items live) s [] q Hq) as Hother.
  destruct (update_entries (btree_items live) (s, [])) as [s1 cs1]. simpl in Hrec, Hother.
  pose proof (tombstone_unseen_spec seen pats s1 cs1) as Hun.
  destruct (tombstone_unseen seen pats (s1, cs1)) as [s2 cs2]. simpl in Hun |- *.
  assert (∀ q, q ∈ seen ∨ should_ignore q pats = true →
               st_entries s2 !! q = st_entries s1 !! q) as Hkeep.
  { intros q Hq. specialize (Hun q). rewrite decide_False in Hun; [done|].
    intros [Hns Hni]. destruct Hq as [?|Hi]; [done|congruence]. }
  split; [split|].
  - intros p e Hp. unfold recorded. rewrite Hkeep.
    + by apply Hrec, elem_of_btree_items.
    + left. apply elem_of_union_r, elem_of_dom. by exists e.
  - intros q e Hq Hi He. specialize (Hun q). rewrite decide_True in Hun by done.
    apply tombstoned_dead in Hun. by rewrite He in Hun.
  - intros q Hq Hui. rewrite Hkeep by (destruct Hui; [left; by apply elem_of_union_l|by right]).
    destruct (Hother q) as [?|(Ht & p & e & Hin & Hc & Hk)]; [|by left|].
    + rewrite fst_btree_items, elem_of_btree_keys. done.
    + right. exists p, e. split_and!; [by apply elem_of_btree_items|done|done|].
      apply tombstoned_dead in Ht. by destruct (st_entries s1 !! q).
Qed.

(** Nothing to do when the index agrees with the disk. *)
Lemma update_entries_noop live s cs :
  (∀ p e, (p, e) ∈ live → recorded s p e) → update_entries live (s, cs) = (s, cs).
Proof.
  induction live as [|[p e] live IH]; intros Hrec; [done|].
  change (update_entries ((p, e) :: live) (s, cs))
    with (update_entries live (update_entry p e (s, cs))).
  destruct (Hrec p e) as (o & Ho & Hsame); [left|].
  unfold update_entry at 1. rewrite Ho, Hsame. apply IH. intros q f Hin. apply Hrec. by right.
Qed.

Lemma tombstone_all_noop ps s cs :
  (∀ p e, p ∈ ps → st_entries s !! p = Some e → kind e = Tombstone) →
  tombstone_all ps (s, cs) = (s, cs).
Proof.
  induction ps as [|p ps IH]; intros Hdead; [done|].
  change (tombstone_all (p :: ps) (s, cs)) with (tombstone_all ps (tombstone_path p (s, cs))).
  unfold tombstone_path. destruct (st_entries s !! p) as [e|] eqn:E.
  - rewrite decide_True by (apply (Hdead p e); [left|done]).
    apply IH. intros q f Hq. apply Hdead. by right.
  - apply IH. intros q f Hq. apply Hdead. by right.
Qed.

Lemma rescan_index_noop pats live unstable s :
  in_step pats live unstable s → rescan_index pats live unstable s = (s, []).
Proof.
  intros [Hrec Hdead]. unfold rescan_index.
  rewrite update_entries_noop by (intros p e Hin; by apply Hrec, elem_of_btree_items).
  unfold tombstone_unseen. apply tombstone_all_noop.
  intros p e [_ Hf]%elem_of_list_filter. apply andb_true_iff in Hf as [Hs Hi].
  apply bool_decide_eq_true in Hs. apply negb_true_iff in Hi. by apply Hdead.
Qed.

Lemma tombstone_all_same_cache c ps s cs :
  tombstone_all ps (set_scan_cache c s, cs) =
    let r := tombstone_all ps (s, cs) in (set_scan_cache c r.1, r.2).
Proof.
  revert s cs. induction ps as [|p ps IH]; intros s cs; [done|].
  change (tombstone_all (p :: ps) ?a) with (tombstone_all ps (tombstone_path p a)).
  assert (tombstone_path p (set_scan_cache c s, cs) =
    let r := tombstone_path p (s, cs) in (set_scan_cache c r.1, r.2)) as ->.
  { unfold tombstone_path. simpl. destruct (st_entries s !! p); [case_decide|]; done. }
  cbv zeta. rewrite IH. by destruct (tombstone_path p (s, cs)).
Qed.

Section Rescan.
Context {F : Type} `{FsOps F} `{StateCodec} (blake3 : string → Hash).

Lemma save_scan_cache_Ok (w : World (F:=F)) :
  ∃ f c, save_scan_cache w = (mkWorld f (set_scan_cache c (w_st w)), Ok ()).
Proof.
  unfold save_scan_cache, m_bind, get_st, m_gets, on_st, m_modify, on_fs, m_zoom. simpl.
  unfold cache_save. destruct (sc_dirty _); [|by eexists _, _].
  destruct (ser_cache _); [|by eexists _, _].
  unfold m_bind, m_try, m_ret. destruct (write_atomic _ _ _). by eexists _, _.
Qed.

(** A rescan that reads its inputs does to the index what [rescan_index] says,
    returns those changes, and rebuilds both trees. *)
Lemma rescan_run (w w1 : World (F:=F)) pats live unstable :
  rescan_inputs blake3 w = (w1, Ok (pats, (live, unstable))) →
  ∃ w2, rescan blake3 w = (w2, Ok (rescan_index pats live unstable (w_st w1)).2) ∧
    same_index (rescan_index pats live unstable (w_st w1)).1 (w_st w2) ∧
    st_tree (w_st w2) = derive_tree blake3 (st_entries (w_st w2)) ∧
    st_live_tree (w_st w2) = derive_live_tree blake3 (st_entries (w_st w2)).
Proof.
  unfold rescan_inputs, rescan. intros Hin.
  apply m_bind_inv in Hin as (wa & s0 & [= <- <-] & Hin).
  apply m_bind_inv in Hin as (wa & pats' & Hpats & Hin).
  apply m_bind_inv in Hin as (wb & live' & Hlive & Hin).
  injection Hin as <- -> ->. unfold rescan_index.
  rewrite (m_bind_Ok get_st _ w w (w_st w)) by done.
  rewrite (m_bind_Ok _ _ _ _ _ Hpats), (m_bind_Ok _ _ _ _ _ Hlive). cbn [fst snd].
  destruct (update_entries (btree_items live) (w_st wb, [])) as [s1 cs1] eqn:Eu.
  rewrite (m_bind_Ok _ _ wb (mkWorld (w_fs wb) s1) cs1) by (unfold run_acc; by rewrite Eu).
  set (seen := unstable ∪ dom live).
  rewrite (m_bind_Ok _ _ _ (mkWorld (w_fs wb)
    (set_scan_cache (retain_paths seen (st_scan_cache s1)) s1)) tt) by done.
  destruct (save_scan_cache_Ok (mkWorld (w_fs wb)
    (set_scan_cache (retain_paths seen (st_scan_cache s1)) s1))) as (f & c & Esave).
  rewrite (m_bind_Ok _ _ _ _ _ Esave). cbn [w_st].
  change (set_scan_cache c (set_scan_cache _ s1)) with (set_scan_cache c s1).
  assert (tombstone_unseen seen pats (set_scan_cache c s1, cs1) =
    let r := tombstone_unseen seen pats (s1, cs1) in (set_scan_cache c r.1, r.2)) as Htu
    by (unfold tombstone_unseen; apply (tombstone_all_same_cache c)).
  destruct (tombstone_unseen seen pats (s1, cs1)) as [s2 cs2]. cbv zeta in Htu.
  rewrite (m_bind_Ok _ _ _ (mkWorld f (set_scan_cache c s2)) cs2)
    by (unfold run_acc; cbn [w_st w_fs]; by rewrite Htu).
  rewrite (m_bind_Ok _ _ _ (mkWorld f (derive_trees blake3 (set_scan_cache c s2))) tt) by done.
  eexists. split; [reflexivity|]. done.
Qed.

End Rescan.

(** Whether an index is in step depends on its entries only. *)
Lemma in_step_entries pats live unstable s s' :
  st_entries s = st_entries s' → in_step pats live unstable s → in_step pats live unstable s'.
Proof. intros He [H1 H2]. unfold in_step, recorded in *. rewrite <-He. by split. Qed.

(** Reading changes at most the scan cache. *)
Lemma rescan_inputs_same {F} `{FsOps F} `{StateCodec} blake3 (w : World (F:=F)) :
  same_index (w_st w) (w_st (rescan_inputs blake3 w).1).
Proof.
  unfold rescan_inputs. apply (keeps_bind get_st); [apply keeps_get_st|]. intros s.
  auto with keeps.
Qed.

(** When reading fails, so does the rescan. *)
Lemma rescan_failed {F} `{FsOps F} `{StateCodec} blake3 (w w1 : World (F:=F)) e :
  rescan_inputs blake3 w = (w1, Err e) →
  rescan blake3 w = (w1, Err e) ∧ same_index (w_st w) (w_st w1).
Proof.
  intros Hin. split.
  - revert Hin. unfold rescan_inputs, rescan, m_bind, get_st, m_gets.
    destruct (on_fs _ w) as [wa [pats|e1]]; [|by intros [= <- <-]].
    destruct (on_cache _ wa) as [wb [live|e1]]; [done|by intros [= <- <-]].
  - pose proof (rescan_inputs_same blake3 w) as Hk. by rewrite Hin in Hk.
Qed.
