(* ===== verification/StateTyped.v ===== *)
(** * What the index can hold

    [index_typed]: every entry is filed under its path, no component of the path
    is one of the built-in exclusions - the state directory with the node's
    private key among them -, files have a hash and symlinks an acceptable
    target.  Every operation of the folder state preserves it, whatever the file
    system answers and also when the operation fails. *)

From S2P Require Import Prelude Paths Bytes Utf8 Fs Ignore Entries Scan ScanInv Tree.
From S2P Require Import TreeUpdate State StateLocal StateIndex StateTrack StateOps StateInv StateGc StateReach.

(** ** Names that become an excluded name when converted lossily *)

Definition is_ascii (s : string) : bool := str_all (λ a, byte_val a <? 128) s.

Lemma concat_cons x l : String.concat "" (x :: l) = x +:+ String.concat "" l.
Proof. destruct l; [symmetry; apply append_nil_r|done]. Qed.

Lemma starts_with_split p x t :
  starts_with p (x +:+ t) = true →
  starts_with p x = true ∨ ∃ q, p = x +:+ q ∧ starts_with q t = true.
Proof.
  intros [r Hp]%starts_with_spec. revert p Hp. induction x as [|a x IH]; intros p Hp.
  { right. exists p. split; [done|]. apply starts_with_spec. by exists r. }
  destruct p as [|b p]; [left; by apply starts_with_spec; exists (String a x)|].
  rewrite !append_cons in Hp. injection Hp as -> Hp.
  destruct (IH p Hp) as [[r' ->]%starts_with_spec|(q & -> & Hq)].
  - left. apply starts_with_spec. by exists r'.
  - right. by exists q.
Qed.

Abbreviation lossy_chunk := (λ c : bool * string, if c.1 then c.2 else replacement).

Lemma lossy_prefix l p :
  is_ascii p = true → starts_with p (String.concat "" (lossy_chunk <$> l)) = true →
  starts_with p (String.concat "" l.*2) = true.
Proof.
  revert p. induction l as [|[ok x] l IH]; intros p Hp; [done|].
  rewrite !fmap_cons, !concat_cons. cbn [fst snd]. destruct ok.
  - intros [Hx|(q & -> & Hq)]%starts_with_split.
    + apply starts_with_spec in Hx as [r ->]. apply starts_with_spec. rewrite append_assoc. by eexists.
    + unfold is_ascii in Hp. rewrite str_all_app in Hp. apply andb_true_iff in Hp as [_ Hp].
      apply IH in Hq as [r ->]%starts_with_spec; [|done]. apply starts_with_spec. rewrite <-append_assoc. by eexists.
  - destruct p as [|a p]; [intros _; apply starts_with_spec; by eexists|].
    intros [r Hr]%starts_with_spec. injection Hr as <- _. done.
Qed.

Lemma lossy_equal l n :
  is_ascii n = true → String.concat "" (lossy_chunk <$> l) = n → String.concat "" l.*2 = n.
Proof.
  revert n. induction l as [|[ok x] l IH]; intros n Hn; [done|].
  rewrite !fmap_cons, !concat_cons. cbn [fst snd]. intros <-. destruct ok.
  - unfold is_ascii in Hn. rewrite str_all_app in Hn. apply andb_true_iff in Hn as [_ Hn].
    by rewrite (IH _ Hn eq_refl).
  - done.
Qed.

Lemma should_ignore_lossy c :
  should_ignore_component (to_string_lossy c) = true → should_ignore_component c = true.
Proof.
  assert (∀ n, is_ascii n = true → to_string_lossy c = n → c = n) as Heq.
  { intros n Hn Hl. rewrite <-(utf8_chunks_concat c). by apply lossy_equal. }
  assert (∀ l, forallb is_ascii l = true → to_string_lossy c ∈ l → c ∈ l) as Hin.
  { intros l Hl Hc. rewrite (Heq (to_string_lossy c)); [done| |done].
    rewrite forallb_forall in Hl. by apply Hl, list_elem_of_In. }
  unfold should_ignore_component. rewrite !orb_true_iff, !bool_decide_eq_true.
  intros [[[Hd|Hf]|Hp]|Hd]; [left; left; left|left; left; right|left; right|right].
  - by apply Heq.
  - by apply Hin.
  - apply existsb_exists in Hp as (p & Hp & Hs). apply existsb_exists. exists p. split; [done|].
    rewrite <-(utf8_chunks_concat c). apply lossy_prefix; [|done].
    assert (forallb is_ascii IGNORED_FILE_PREFIXES = true) as Ha by done.
    rewrite forallb_forall in Ha. by apply Ha.
  - by apply Hin.
Qed.

(** ** Paths *)

(** Not excluded, whatever the patterns of the folder. *)
Definition clean_path (p : string) : Prop := should_ignore p [] = false.

Lemma not_ignored_clean p pats : should_ignore p pats = false → clean_path p.
Proof.
  unfold clean_path, should_ignore. case_decide; [done|]. intros [-> _]%orb_false_iff. done.
Qed.

Lemma validated_clean p : validate_remote_path p = Ok () → clean_path p.
Proof.
  unfold validate_remote_path, clean_path, should_ignore. repeat case_match; try done. intros _.
  match goal with H : is_absolute p || _ = false |- _ => apply orb_false_iff in H as [Habs Hesc] end.
  match goal with H : existsb bad_remote_component _ = false |- _ => rename H into Hbad end.
  rewrite orb_false_r. apply not_true_is_false. intros (c & Hc & Hign)%existsb_exists.
  apply should_ignore_lossy in Hign.
  assert (∀ x, In x (split_on slash p) → bad_remote_component x = false) as Hgood.
  { intros x Hx. apply not_true_is_false. intros Hb. rewrite <-not_true_iff_false in Hbad. apply Hbad.
    apply existsb_exists. by exists x. }
  destruct c as [| | |name].
  1-3: by vm_compute in Hign.
  assert (In name (split_on slash p)) as Hin.
  { unfold path_components in Hc. rewrite Habs in Hc.
    assert (∀ l, In (Normal name) (omap part_component l) → In name l) as Homap.
    { intros l Hl. apply list_elem_of_In. apply list_elem_of_In in Hl.
      apply list_elem_of_omap in Hl as (x & Hx & Hp). unfold part_component in Hp.
      repeat case_decide; simplify_eq. done. }
    destruct (split_on slash p) as [|x l]; [done|].
    repeat case_match; subst; try (by apply Homap).
    all: destruct Hc as [|Hc]; [done|]; right; by apply Homap. }
  apply Hgood in Hin. unfold bad_remote_component in Hin. apply orb_false_iff in Hin as [_ Hin].
  cbn [component_name] in Hign. congruence.
Qed.

(** ** Entries *)

Definition typed (e : Entry) : Prop :=
  clean_path (path e) ∧
  match kind e with
  | File => is_Some (content_hash e)
  | Symlink => ∃ target, symlink_target e = Some target ∧ validate_symlink_target target = Ok ()
  | Dir | Tombstone => True
  end.

Definition entries_typed (es : gmap string Entry) : Prop :=
  map_Forall (λ k e, path e = k ∧ typed e) es.
Definition index_typed (s : FolderState) : Prop := entries_typed (st_entries s).

Lemma observed_typed e pats : observed e → should_ignore (path e) pats = false → typed e.
Proof.
  intros [_ He] Hp. split; [by eapply not_ignored_clean|].
  destruct (kind e); [by destruct He|done|done|]. destruct He as (t & Ht & Hv & _). by exists t.
Qed.

Lemma with_version_typed e v : typed e → typed (with_version e v).
Proof. done. Qed.

Lemma tombstone_typed p old v m :
  entries_typed m → m !! p = Some old → entries_typed (<[p := tombstone_entry p old v]> m).
Proof.
  intros Hm Hp. apply map_Forall_insert_2; [|done]. split; [done|]. split; [|done].
  by apply Hm in Hp as [<- [? _]].
Qed.

(** Functions of the state and the changes that keep a property of the index. *)
Definition acc_keeps (J : gmap string Entry → Prop)
    (f : FolderState * list Change → FolderState * list Change) : Prop :=
  ∀ s cs, J (st_entries s) → J (st_entries (f (s, cs)).1).
Abbreviation acc_typed := (acc_keeps entries_typed).

Lemma acc_keeps_foldl J {A} (f : A → FolderState * list Change → FolderState * list Change) l :
  (∀ a, a ∈ l → acc_keeps J (f a)) → acc_keeps J (λ acc, foldl (λ acc a, f a acc) acc l).
Proof.
  induction l as [|a l IH]; intros Hf s cs Hs; [done|]. simpl.
  rewrite (surjective_pairing (f a (s, cs))). apply IH; [|apply Hf; [by left|done]].
  intros b Hb. apply Hf. by right.
Qed.

Lemma tombstone_all_keeps J ps :
  (∀ p old v m, J m → m !! p = Some old → J (<[p := tombstone_entry p old v]> m)) →
  acc_keeps J (tombstone_all ps).
Proof.
  intros HJ. apply (acc_keeps_foldl J tombstone_path). intros p _ s cs Hs. unfold tombstone_path.
  destruct (st_entries s !! p) as [old|] eqn:E; [|done]. case_decide; [done|]. by apply HJ.
Qed.

Lemma tombstone_all_typed ps : acc_typed (tombstone_all ps).
Proof. apply tombstone_all_keeps. intros p old v m. apply tombstone_typed. Qed.

Lemma update_entry_typed e : typed e → acc_typed (update_entry (path e) e).
Proof.
  intros He s cs Hs. unfold update_entry.
  destruct (match st_entries s !! path e with Some o => same_observed_state o e | None => false end);
    [done|].
  assert (index_typed (write_local s e).1) as Hw.
  { apply map_Forall_insert_2; [|done]. split; [done|by apply with_version_typed]. }
  destruct (_ && _); [|exact Hw]. by apply tombstone_all_typed.
Qed.

Lemma update_entries_typed pats live :
  scan_ok pats live → acc_typed (update_entries (btree_items live)).
Proof.
  intros Hlive. apply (acc_keeps_foldl _ (λ pe : string * Entry, update_entry pe.1 pe.2)).
  intros [p e] Hin. apply elem_of_btree_items in Hin. apply Hlive in Hin as (<- & Ho & Hi).
  apply update_entry_typed. by eapply observed_typed.
Qed.

(** ** Operations *)

Section Operations.
Context {F : Type} `{FsOps F} (blake3 : string → Hash) `{StateCodec}.
Abbreviation World := (World (F:=F)) (only parsing).

Definition world_typed (w : World) : Prop := index_typed (w_st w).
Abbreviation keeps_typed c := (m_inv world_typed c).

Lemma typed_keeps {A} (c : M World A) : keeps_index c → keeps_typed c.
Proof. intros Hc w Hw. unfold world_typed, index_typed. by destruct (Hc w) as (_&_&_&_&<-). Qed.

Lemma typed_run_acc f changes : acc_typed f → keeps_typed (run_acc f changes).
Proof.
  intros Hf w Hw. unfold run_acc. specialize (Hf (w_st w) changes Hw).
  by destruct (f (w_st w, changes)).
Qed.

Lemma typed_on_st f : (∀ s, index_typed s → index_typed (f s)) → keeps_typed (on_st f).
Proof. intros Hf w Hw. by apply Hf. Qed.

Lemma m_inv_fold {S A B} (I : S → Prop) (l : list A) (body : A → B → M S B) b :
  (∀ a b, a ∈ l → m_inv I (body a b)) → m_inv I (m_fold l body b).
Proof.
  revert b. induction l as [|a l IH]; intros b Hb; simpl; [apply m_inv_ret|].
  apply m_inv_bind; [apply Hb; by left|]. intros b'. apply IH. intros. apply Hb. by right.
Qed.

Lemma typed_then {A B} (c : M World A) (f : A → M World B) :
  keeps_index c → (∀ a, keeps_typed (f a)) → keeps_typed (m_bind c f).
Proof. intros Hc Hf. apply m_inv_bind; [by apply typed_keeps|done]. Qed.

(** A step that reads the disk, and hands on what it found. *)
Lemma typed_then_post {A B} (P : A → Prop) (c : M World A) (f : A → M World B) :
  keeps_index c → (∀ w w' a, c w = (w', Ok a) → P a) → (∀ a, P a → keeps_typed (f a)) →
  keeps_typed (m_bind c f).
Proof. intros Hc HP Hf. eapply m_inv_bind_post; [by apply typed_keeps|exact HP|done]. Qed.

Lemma rescan_typed : keeps_typed (rescan blake3).
Proof.
  unfold rescan. apply typed_then; [auto with keeps|]. intros s.
  apply typed_then; [auto with keeps|]. intros pats.
  apply (typed_then_post (λ live, ∃ pats, scan_ok pats live.1)); [auto with keeps| |].
  { intros w w' [live unstable]. unfold on_cache, m_zoom.
    destruct (scan_folder _ _ _) as [fc r] eqn:E. intros [= _ ->]. by eapply scan_folder_ok. }
  intros live [pats' Hlive]. apply m_inv_bind; [by eapply typed_run_acc, update_entries_typed|].
  intros changes. apply typed_then; [by apply keeps_on_st|]. intros _.
  apply typed_then; [auto with keeps|]. intros _.
  apply m_inv_bind; [apply typed_run_acc; intros ???; by apply tombstone_all_typed|]. intros changes'.
  apply typed_then; [auto with keeps|]. intros _. apply m_inv_ret.
Qed.

Lemma apply_one_path_typed abs_path relative pats changes :
  keeps_typed (apply_one_path blake3 abs_path relative pats changes).
Proof.
  unfold apply_one_path. destruct (should_ignore relative pats) eqn:Hign; [apply m_inv_ret|].
  apply typed_then; [auto with keeps|]. intros [md|[]];
    try (apply m_inv_err);
    try (apply typed_run_acc; intros ???; by apply tombstone_all_typed).
  destruct (is_symlink md).
  { apply (typed_then_post (λ t, match t with Some t => validate_symlink_target t = Ok () | None => True end));
      [auto with keeps| |].
    { intros w w' [t|]; [|done]. unfold on_fs, m_zoom. destruct (read_supported_symlink _ _) as [f r] eqn:E.
      intros [= _ ->]. by apply read_supported_symlink_valid in E as [? _]. }
    intros [t|] Ht; [|apply m_inv_ret].
    apply typed_run_acc, (update_entry_typed (live_symlink relative t)).
    split; [by eapply not_ignored_clean|]. by exists t. }
  destruct (is_file md).
  { apply typed_then; [auto with keeps|]. intros [o|]; [|apply m_inv_ret].
    apply typed_run_acc, (update_entry_typed (live_file relative o)).
    split; [by eapply not_ignored_clean|]. by eexists. }
  destruct (is_dir md); [|apply m_inv_ret]. apply m_inv_bind.
  { apply typed_run_acc, (update_entry_typed (live_dir relative (mode_of md))).
    split; [by eapply not_ignored_clean|done]. }
  intros changes'. apply typed_then; [auto with keeps|]. intros s.
  apply (typed_then_post (scan_ok pats)); [auto with keeps| |].
  - intros w w' es. unfold on_cache, m_zoom.
    pose proof (scan_dir_ok blake3 path_max (st_root s) abs_path pats
      (mkScanW (w_fs w) (st_scan_cache (w_st w)) ∅ ∅) (scan_ok_empty pats)) as Hok.
    destruct (scan_dir _ _ _ _ _ _) as [sw [[]|e]]; [|done]. by intros [= _ <-].
  - intros es Hes. by eapply typed_run_acc, update_entries_typed.
Qed.

Lemma apply_paths_typed paths : keeps_typed (apply_paths blake3 paths).
Proof.
  unfold apply_paths. apply typed_then; [auto with keeps|]. intros canonical.
  apply typed_then; [auto with keeps|]. intros s.
  destruct (existsb _ _); [apply rescan_typed|].
  apply typed_then; [auto with keeps|]. intros pats. apply m_inv_bind.
  { apply m_inv_fold. intros abs_path changes _.
    destruct (relative_path _ _) as [relative|e]; [|apply m_inv_ret].
    case_decide; [apply m_inv_ret|apply apply_one_path_typed]. }
  intros changes. apply typed_then; [auto with keeps|]. intros _.
  apply typed_then; [auto with keeps|]. intros _. apply m_inv_ret.
Qed.

(** *** Remote entries *)

(** A file with a downloaded object carries the hash it was downloaded by. *)
Definition batch_typed (batch : list (Entry * option string)) : Prop :=
  ∀ e tmp, (e, Some tmp) ∈ batch → kind e = File → is_Some (content_hash e).

(** An entry that was installed is typed. *)
Lemma installed_typed root e tmp (f f' : F) :
  install_remote root e tmp f = (f', Ok ()) → validate_remote_path (path e) = Ok () →
  (∀ t, tmp = Some t → kind e = File → is_Some (content_hash e)) → typed e.
Proof.
  intros Hrun Hv Hh. split; [by apply validated_clean|]. unfold install_remote in Hrun.
  destruct (kind e); [|done|done|].
  - apply m_bind_inv in Hrun as (f1 & t & Ht & _). destruct tmp as [t'|]; [|done]. by apply (Hh t').
  - unfold install_remote_symlink in Hrun. apply m_bind_inv in Hrun as (f1 & t & Ht & Hrun).
    apply m_bind_inv in Hrun as (f2 & [] & Hvt & _). injection Ht as _ Ht. injection Hvt as _ Hvt.
    destruct (symlink_target e) as [t'|]; [|done]. injection Ht as ->. by exists t.
Qed.

Lemma record_remote_keeps J e :
  (∀ p old v m, J m → m !! p = Some old → J (<[p := tombstone_entry p old v]> m)) →
  (∀ m, J m → J (<[path e := e]> m)) → acc_keeps J (record_remote e).
Proof.
  intros Htomb He s cs Hs. unfold record_remote. apply He in Hs.
  case_decide; [exact Hs|]. by apply (tombstone_all_keeps J).
Qed.

(** A batch keeps what each of its entries keeps once it is installed. *)
Lemma apply_remote_entries_keeps (J : gmap string Entry → Prop) batch :
  (∀ e tmp root f f', (e, tmp) ∈ batch → install_remote root e tmp f = (f', Ok ()) →
     validate_remote_path (path e) = Ok () → acc_keeps J (record_remote e)) →
  m_inv (λ w : World, J (st_entries (w_st w))) (apply_remote_entries blake3 batch).
Proof.
  intros Hb.
  assert (∀ {A} (c : M World A), keeps_index c → m_inv (λ w : World, J (st_entries (w_st w))) c) as Hkeep.
  { intros A c Hc w Hw. by destruct (Hc w) as (_&_&_&_&<-). }
  unfold apply_remote_entries. apply m_inv_bind.
  2:{ intros all. apply m_inv_bind; [apply Hkeep; auto with keeps|]. intros _. apply m_inv_ret. }
  apply m_inv_fold. intros [e tmp] all Hin. cbn [fst snd].
  apply m_inv_bind; [|intros changes; apply m_inv_ret]. unfold apply_remote_entry_core.
  eapply (m_inv_bind_post _ (λ _, validate_remote_path (path e) = Ok ())); [by apply Hkeep; auto with keeps| |].
  { intros w w' []. by intros [= _ ->]. }
  intros _ Hv. apply m_inv_bind; [apply Hkeep; auto with keeps|]. intros s. destruct (negb _).
  { apply m_inv_bind; [apply Hkeep; destruct tmp; auto with keeps|]. intros _. apply m_inv_ret. }
  eapply (m_inv_bind_post _ (λ _, acc_keeps J (record_remote e))); [by apply Hkeep; auto with keeps| |].
  - intros w w' []. unfold on_fs, m_zoom. destruct (install_remote _ _ _ _) as [f r] eqn:E.
    intros [= _ ->]. by eapply Hb.
  - intros _ He w Hw. unfold run_acc. specialize (He (w_st w) [] Hw). by destruct (record_remote e _).
Qed.

Lemma apply_remote_entries_typed batch :
  batch_typed batch → keeps_typed (apply_remote_entries blake3 batch).
Proof.
  intros Hb. apply (apply_remote_entries_keeps entries_typed). intros e tmp root f f' Hin Hrun Hv.
  apply record_remote_keeps.
  - intros p old v m. apply tombstone_typed.
  - intros m Hm. apply map_Forall_insert_2; [|done]. split; [done|].
    eapply installed_typed; [done|done|]. intros t ->. by apply (Hb e t).
Qed.

(** A batch brings no path into the index that is not a valid remote path. *)
Lemma apply_remote_entries_valid batch p w :
  validate_remote_path p ≠ Ok () → st_entries (w_st w) !! p = None →
  st_entries (w_st (apply_remote_entries blake3 batch w).1) !! p = None.
Proof.
  intros Hp Hw. apply (apply_remote_entries_keeps (λ m, m !! p = None)); [|done].
  intros e tmp root f f' _ _ Hv. apply record_remote_keeps.
  - intros q old v m Hm Hq. rewrite lookup_insert_ne; [done|]. intros ->. congruence.
  - intros m Hm. rewrite lookup_insert_ne; [done|]. intros Heq. by rewrite Heq in Hv.
Qed.

(** *** Collection and construction *)

Lemma foldl_delete_typed (l : list string) (m : gmap string Entry) :
  entries_typed m → entries_typed (foldl (λ m k, delete k m) m l).
Proof. revert m. induction l as [|k l IH]; intros m Hm; [done|]. by apply IH, map_Forall_delete. Qed.

Lemma m_prune_typed : keeps_typed (m_prune blake3).
Proof.
  intros w Hw. unfold m_prune, prune_tombstones. destruct (fst <$> _) as [|k l]; [done|].
  apply (foldl_delete_typed (k :: l)). exact Hw.
Qed.

Lemma merge_gc_watermark_typed incoming : keeps_typed (merge_gc_watermark blake3 incoming).
Proof.
  unfold merge_gc_watermark. apply typed_then; [auto with keeps|]. intros s.
  destruct (merge_watermarks _ _) as [wm changed].
  assert (∀ l, keeps_typed (on_st (F:=F) (λ s, set_lamport (l s) s))) as Hclock
    by (intros l; by apply typed_on_st).
  apply m_inv_bind; [by apply typed_on_st|]. intros _. apply m_inv_bind.
  { destruct changed; [|apply m_inv_ret]. apply typed_then; [auto with keeps|]. intros _. cbv zeta.
    destruct (_ <? _); [|apply m_inv_ret]. apply m_inv_bind; [apply (Hclock (λ _, default 0 _))|].
    intros _. apply typed_keeps. auto with keeps. }
  intros _. apply m_inv_bind; [apply m_prune_typed|]. intros pruned. apply m_inv_bind.
  { destruct (_ <? _)%nat; [|apply m_inv_ret]. apply m_inv_bind; [apply (Hclock (λ s, add64 (st_lamport s) 1))|].
    intros _. apply typed_keeps. auto with keeps. }
  intros _. apply m_inv_ret.
Qed.

Lemma gc_tombstones_typed : keeps_typed (gc_tombstones_for_converged_root blake3).
Proof.
  unfold gc_tombstones_for_converged_root. apply typed_then; [auto with keeps|]. intros s.
  cbv zeta. case_decide; [apply m_inv_ret|]. apply m_inv_bind; [apply merge_gc_watermark_typed|].
  intros r. apply m_inv_ret.
Qed.

Lemma new_body_typed : keeps_typed (new_body blake3).
Proof.
  unfold new_body. apply m_inv_bind; [apply m_prune_typed|]. intros pruned.
  apply m_inv_bind; [apply typed_keeps; destruct (_ <? _)%nat; auto with keeps|]. intros _.
  apply m_inv_bind; [apply rescan_typed|]. intros changes.
  apply typed_then; [destruct changes; auto with keeps|]. intros _. apply typed_keeps. auto with keeps.
Qed.

(** [new] starts from a typed index when the index file holds one. *)
Lemma new_state_typed root origin (f f' : F) (s : FolderState) :
  (∀ es, stored_entries es → entries_typed es) →
  new_state blake3 root origin f = (f', Ok s) → index_typed s.
Proof.
  intros Hstored (root' & saved & wm & es & cache & f1 & w1 & _ & Hes & _ & Hb & <-)%new_state_loaded.
  assert (world_typed w1) as Hw1; [|exact Hw1].
  change w1 with (w1, Ok ()).1. rewrite <-Hb. apply new_body_typed. by apply Hstored.
Qed.

(** What a peer can be served. *)
Lemma object_file_clean s hash p n :
  index_typed s → object_file s hash = Some (p, n) →
  ∃ relative, p = path_join (st_root s) relative ∧ clean_path relative.
Proof.
  intros Hs Ho. unfold object_file in Ho.
  assert ((p, n) ∈ omap (λ e, if bool_decide (kind e = File) && bool_decide (content_hash e = Some hash)
            then Some (path_join (st_root s) (path e), size e) else None)
            (btree_values (st_entries s))) as Hin.
  { destruct (omap _ _); [done|]. injection Ho as ->. by left. }
  apply list_elem_of_omap in Hin as (e & [k He]%elem_of_btree_values & Hp).
  destruct (_ && _); [|done]. injection Hp as <- _. exists (path e). split; [done|].
  by apply Hs in He as (_ & ? & _).
Qed.
End Operations.
