(* ===== verification/StateProps.v ===== *)
(** * Properties of the folder state *)

From S2P Require Import Prelude Paths Bytes Utf8 Fs Ignore Entries Scan ScanInv Tree.
From S2P Require Import TreeSpec TreeUpdate TreeHash Samples State StateLocal.
From S2P Require Import StateIndex StateTrack StateOps StateInv StateGc StateReach.
From S2P Require Import StateSafety StateRescan.

(** [validate_remote_path] accepts exactly the
    paths that consist of plain names - no NUL, no backslash, no empty, ["."],
    [".."] or reserved part such as [.lil] - and such a path is relative, its
    components being its slash-separated parts. *)
Theorem validate_remote_path_spec (p : string) :
  validate_remote_path p = Ok () ↔
    contains "000"%char p = false ∧ contains "092"%char p = false ∧
    Forall safe_component (split_on slash p) ∧
    is_absolute p = false ∧ path_components p = Normal <$> split_on slash p.
Proof.
  rewrite validate_remote_path_Ok. split; [|tauto].
  intros (H1 & H2 & Hsafe). pose proof (safe_components_normal p Hsafe). tauto.
Qed.


(** What becomes of the index when [remote] is applied and accepted. *)
Definition superseded (s s' : FolderState) (remote : Entry) : Prop :=
  st_entries s' !! path remote = Some remote ∧
  ∀ q, q ≠ path remote →
    if decide (kind remote ≠ Dir ∧ is_child (path remote) q)
    then tombstoned s q (st_entries s !! q) (st_entries s' !! q)
    else st_entries s' !! q = st_entries s !! q.

Lemma record_remote_superseded s remote cs :
  superseded s (record_remote remote (s, cs)).1 remote.
Proof.
  unfold record_remote, superseded. case_decide as Hk.
  { simpl. split; [apply lookup_insert_eq|]. intros q Hq.
    rewrite decide_False by naive_solver. by apply lookup_insert_ne. }
  set (s1 := set_entries _ _). set (cs1 := cs ++ _).
  pose proof (λ q, tombstone_child_descendants_spec (path remote) s1 cs1 q) as Hspec.
  split.
  - specialize (Hspec (path remote)). cbv zeta in Hspec. rewrite decide_False in Hspec.
    + rewrite Hspec. apply lookup_insert_eq.
    + intros Hc%is_child_lt. by apply str_lt_irrefl in Hc.
  - intros q Hq. specialize (Hspec q). cbv zeta in Hspec.
    replace (st_entries s1 !! q) with (st_entries s !! q) in Hspec
      by (symmetry; by apply lookup_insert_ne).
    destruct (decide (is_child (path remote) q)) as [Hc|Hc].
    + rewrite decide_True by done. exact Hspec.
    + rewrite decide_False by naive_solver. exact Hspec.
Qed.




(** ** Local changes *)

Lemma tracks_result {F A} `{FsOps F} (c : M (World (F:=F)) A) Q w w' a :
  tracks c Q → c w = (w', Ok a) → ∃ ds, index_changes (w_st w) ds (w_st w') ∧ Q a ds.
Proof. intros Hc E. destruct (Hc w) as (ds & Hds & Hr). rewrite E in Hds, Hr. by exists ds. Qed.

(** C19. apply_paths_changes: the changes [apply_paths] returns are exactly those
    it made - replaying them on the old index gives the new one - and each
    carries a version of this node above its old clock, in a clock that counts
    them. *)
Theorem apply_paths_changes {F : Type} `{FsOps F} `{StateCodec} (blake3 : string → Hash)
    (paths : list string) (w w' : World (F:=F)) (changes : list Change)
    (Hrun : apply_paths blake3 paths w = (w', Ok changes))
    (Hpos : 0 ≤ st_lamport (w_st w))
    (Hbound : st_lamport (w_st w) + Z.of_nat (length changes) < u64_modulus) :
  st_entries (w_st w') = replay (st_entries (w_st w)) changes ∧
  st_lamport (w_st w') = st_lamport (w_st w) + Z.of_nat (length changes) ∧
  Forall (λ c, path (ch_new c) = ch_path c ∧
               origin (version (ch_new c)) = st_origin (w_st w) ∧
               st_lamport (w_st w) < lamport (version (ch_new c)) ≤ st_lamport (w_st w'))
    changes.
Proof.
  destruct (tracks_result _ _ _ _ _ (apply_paths_tracks blake3 paths) Hrun) as (ds & Hds & Heq).
  unfold extends in Heq. simpl in Heq. subst ds.
  split_and!; [by eapply index_changes_replay|by eapply index_changes_lamport|].
  apply Forall_forall. intros c Hc. by eapply index_changes_versions.
Qed.

(** C15. local_changes_win: in a state with the invariant, a change made by
    [apply_paths] is accepted by every peer that has seen nothing beyond the old
    clock at that path, even a deletion: no peer's watermark for this node that
    stems from it covers the new version. *)
Theorem local_changes_win {F : Type} `{FsOps F} `{StateCodec} (blake3 : string → Hash)
    (paths : list string) (w w' : World (F:=F)) (changes : list Change) (c : Change)
    (peer : FolderState)
    (Hrun : apply_paths blake3 paths w = (w', Ok changes))
    (Hinv : state_inv (w_st w))
    (Hbound : st_lamport (w_st w) + Z.of_nat (length changes) < u64_modulus)
    (Hc : c ∈ changes) (Hpath : validate_remote_path (ch_path c) = Ok ())
    (Hseen : ∀ e, st_entries peer !! ch_path c = Some e →
                  lamport (version e) ≤ st_lamport (w_st w))
    (Hwm : default 0 (st_gc_watermark peer !! st_origin (w_st w)) ≤ st_lamport (w_st w)) :
  should_accept_remote peer (ch_new c) = true.
Proof.
  destruct (tracks_result _ _ _ _ _ (apply_paths_tracks blake3 paths) Hrun) as (ds & Hds & Heq).
  unfold extends in Heq. simpl in Heq. subst ds.
  destruct (index_changes_versions _ _ _ c Hds Hc) as (Hp & Ho & Hl);
    [apply Hinv|done|]. apply should_accept_remote_spec. rewrite Hp. split_and!; [done| |].
  - apply covered_false. intros _ l. rewrite Ho. intros Hw. rewrite Hw in Hwm. simpl in Hwm. lia.
  - intros local Hlocal. left. specialize (Hseen local Hlocal). lia.
Qed.

(** ** Rescanning *)

(** C16. rescan_exact: a rescan brings the index in step with the disk.  If
    reading fails it changes nothing in the index; otherwise it succeeds, every
    observed path has an entry with the observed state, every path neither
    observed nor still changing nor ignored is a tombstone if it has an entry,
    the remaining paths keep their entries (unless a file or symlink has taken
    the place of a directory above them), the changes returned replay to the new
    index, and both trees are those of the new index. *)
Theorem rescan_exact {F : Type} `{FsOps F} `{StateCodec} (blake3 : string → Hash)
    (w : World (F:=F)) :
  match rescan_inputs blake3 w with
  | (w1, Err e) => rescan blake3 w = (w1, Err e) ∧ same_index (w_st w) (w_st w1)
  | (_, Ok (pats, (live, unstable))) =>
      ∃ w2 changes, rescan blake3 w = (w2, Ok changes) ∧
        in_step pats live unstable (w_st w2) ∧
        (∀ q, q ∉ dom live → q ∈ unstable ∨ should_ignore q pats = true →
           st_entries (w_st w2) !! q = st_entries (w_st w) !! q ∨
           ∃ p e, live !! p = Some e ∧ is_child p q ∧ kind e ≠ Dir ∧
             match st_entries (w_st w2) !! q with
             | Some e' => kind e' = Tombstone | None => True end) ∧
        st_entries (w_st w2) = replay (st_entries (w_st w)) changes ∧
        st_tree (w_st w2) = derive_tree blake3 (st_entries (w_st w2)) ∧
        st_live_tree (w_st w2) = derive_live_tree blake3 (st_entries (w_st w2))
  end.
Proof.
  destruct (rescan_inputs blake3 w) as [w1 [[pats [live unstable]]|e]] eqn:Ein.
  - destruct (rescan_run blake3 w w1 pats live unstable Ein) as (w2 & Hrun & Hsame & Ht & Hlt).
    pose proof (rescan_inputs_same blake3 w) as Hkeep. rewrite Ein in Hkeep.
    destruct (rescan_index_spec pats live unstable (w_st w1)) as [Hstep Hother].
    destruct (tracks_result _ _ _ _ _ (rescan_tracks blake3) Hrun) as (ds & Hds & Heq).
    unfold extends in Heq. simpl in Heq.
    destruct Hsame as (_ & _ & _ & _ & He). destruct Hkeep as (_ & _ & _ & _ & He1).
    simpl in He1.
    eexists w2, _. split; [exact Hrun|]. split_and!; [..|done|done].
    + by apply (in_step_entries _ _ _ _ _ He).
    + intros q. rewrite <-He, He1. apply Hother.
    + rewrite Heq. by eapply index_changes_replay.
  - by apply rescan_failed.
Qed.

(** When a second rescan reads what the first one read,
    it makes no change: index, clock and trees stay as they are. *)
Theorem rescan_idempotent {F : Type} `{FsOps F} `{StateCodec} (blake3 : string → Hash)
    (w w1 w2 w3 : World (F:=F)) (changes : list Change)
    (inputs : list IgnorePattern * (gmap string Entry * gset string))
    (Hread : rescan_inputs blake3 w = (w1, Ok inputs))
    (Hfirst : rescan blake3 w = (w2, Ok changes))
    (Hagain : rescan_inputs blake3 w2 = (w3, Ok inputs)) :
  ∃ w4, rescan blake3 w2 = (w4, Ok []) ∧ same_index (w_st w2) (w_st w4) ∧
        st_tree (w_st w4) = st_tree (w_st w2) ∧
        st_live_tree (w_st w4) = st_live_tree (w_st w2).
Proof.
  destruct inputs as [pats [live unstable]].
  destruct (rescan_run blake3 w w1 _ _ _ Hread) as (w2' & Hrun & Hsame & Ht & Hlt).
  rewrite Hrun in Hfirst. injection Hfirst as -> _.
  destruct (rescan_index_spec pats live unstable (w_st w1)) as [Hstep _].
  pose proof (rescan_inputs_same blake3 w2) as Hkeep. rewrite Hagain in Hkeep. simpl in Hkeep.
  destruct (rescan_run blake3 w2 w3 _ _ _ Hagain) as (w4 & Hrun4 & Hsame4 & Ht4 & Hlt4).
  rewrite rescan_index_noop in Hrun4, Hsame4.
  2, 3: apply (in_step_entries _ _ _ (w_st w2)); [by destruct Hkeep as (?&?&?&?&?)|];
    apply (in_step_entries _ _ _ _ _ (proj2 (proj2 (proj2 (proj2 Hsame))))), Hstep.
  simpl in Hrun4, Hsame4.
  assert (same_index (w_st w2) (w_st w4)) as Hall by (by etrans).
  exists w4. split_and!; [done|done| |].
  - rewrite Ht4, Ht. by destruct Hall as (_&_&_&_&->).
  - rewrite Hlt4, Hlt. by destruct Hall as (_&_&_&_&->).
Qed.

(** ** Garbage collection *)

(** C17. merge_gc_watermark_spec: merging a peer's watermark never fails; the
    new watermark is the pointwise maximum; exactly the tombstones it covers
    leave the index, every other entry stays, and the number reported is the
    number removed; a covered tombstone is never accepted again. *)
Theorem merge_gc_watermark_spec {F : Type} `{FsOps F} `{StateCodec} (blake3 : string → Hash)
    (incoming : GcWatermark) (w : World (F:=F)) :
  ∃ w' changed pruned,
    merge_gc_watermark blake3 incoming w = (w', Ok (changed, pruned)) ∧
    (∀ o, st_gc_watermark (w_st w') !! o =
       match incoming !! o with
       | Some v => Some (Z.max (default 0 (st_gc_watermark (w_st w) !! o)) v)
       | None => st_gc_watermark (w_st w) !! o
       end) ∧
    (changed = true ↔ ∃ o v, incoming !! o = Some v ∧
                             default 0 (st_gc_watermark (w_st w) !! o) < v) ∧
    (∀ p e, st_entries (w_st w') !! p = Some e ↔
            st_entries (w_st w) !! p = Some e ∧ covered (w_st w') e = false) ∧
    (pruned + base.size (st_entries (w_st w')) = base.size (st_entries (w_st w)))%nat ∧
    (∀ remote, covered (w_st w') remote = true → should_accept_remote (w_st w') remote = false).
Proof.
  destruct (merge_gc_watermark_pure blake3 incoming w) as [f ->].
  destruct (gc_merge_spec blake3 (w_st w) incoming) as (Hw & He & Hn & Hc).
  eexists _, _, _. split; [rewrite <-surjective_pairing; reflexivity|]. cbn [w_st].
  split_and!.
  - intros o. rewrite Hw. apply merge_watermarks_lookup.
  - rewrite Hc. apply merge_watermarks_changed.
  - intros p e. rewrite He, map_lookup_filter_Some. done.
  - rewrite Hn, He. apply prune_size.
  - intros remote Hcov. apply not_true_is_false.
    intros (_ & Hcov' & _)%should_accept_remote_spec. congruence.
Qed.

(** What collecting on a converged root makes of the state, and how much it removes. *)
Definition gc_result (blake3 : string → Hash) (s : FolderState) : FolderState * nat :=
  let watermark := tombstone_watermark (st_entries s) in
  if decide (watermark = ∅) then (s, O)
  else let r := gc_merge blake3 s watermark in (r.1, r.2.2).

Lemma gc_converged_pure {F : Type} `{FsOps F} `{StateCodec} (blake3 : string → Hash)
    (w : World (F:=F)) :
  ∃ f, gc_tombstones_for_converged_root blake3 w =
    (mkWorld f (gc_result blake3 (w_st w)).1, Ok (gc_result blake3 (w_st w)).2).
Proof.
  unfold gc_tombstones_for_converged_root, gc_result.
  rewrite (m_bind_Ok get_st _ w w (w_st w)) by done. cbv zeta. case_decide.
  { exists (w_fs w). by destruct w. }
  destruct (merge_gc_watermark_pure blake3 (tombstone_watermark (st_entries (w_st w))) w) as [f Hrun].
  exists f. by rewrite (m_bind_Ok _ _ _ _ _ Hrun).
Qed.

Lemma gc_result_entries blake3 s p e :
  st_entries (gc_result blake3 s).1 !! p = Some e ↔ st_entries s !! p = Some e ∧ kind e ≠ Tombstone.
Proof.
  unfold gc_result. cbv zeta. case_decide as Hempty.
  { rewrite tombstone_watermark_empty in Hempty. split; [|tauto]. intros Hp.
    split; [done|by eapply Hempty]. }
  destruct (gc_merge_spec blake3 s (tombstone_watermark (st_entries s))) as (_ & He & _). cbn [fst].
  rewrite He, map_lookup_filter_Some. simpl. split; intros [Hp Hc]; split; try done.
  - intros Hk. apply not_false_iff_true in Hc; [done|]. by eapply merged_own_covers.
  - apply covered_false. naive_solver.
Qed.

(** Collecting on a converged root removes every
    tombstone and no live entry, never fails, and never lowers the watermark. *)
Theorem gc_clears_tombstones {F : Type} `{FsOps F} `{StateCodec} (blake3 : string → Hash)
    (w : World (F:=F)) :
  ∃ w' n,
    gc_tombstones_for_converged_root blake3 w = (w', Ok n) ∧
    (∀ p e, st_entries (w_st w') !! p = Some e ↔
            st_entries (w_st w) !! p = Some e ∧ kind e ≠ Tombstone) ∧
    (n + base.size (st_entries (w_st w')) = base.size (st_entries (w_st w)))%nat ∧
    (∀ o, default 0 (st_gc_watermark (w_st w) !! o) ≤
          default 0 (st_gc_watermark (w_st w') !! o)).
Proof.
  destruct (gc_converged_pure blake3 w) as [f ->]. eexists _, _. split; [done|]. cbn [w_st].
  split; [apply gc_result_entries|]. unfold gc_result. cbv zeta. case_decide; [done|].
  destruct (gc_merge_spec blake3 (w_st w) (tombstone_watermark (st_entries (w_st w))))
    as (Hw & He & Hn & _). cbn [fst snd]. split.
  - rewrite Hn, He. apply prune_size.
  - intros o. rewrite Hw. apply merge_watermarks_mono.
Qed.

(** The watermark only blocks tombstones.  A live
    entry older than a tombstone is refused while the tombstone is in the index,
    and accepted once the tombstone has been collected. *)
Theorem stale_live_entry_returns (blake3 : string → Hash) (s : FolderState)
    (dead stale : Entry)
    (Hdead : st_entries s !! path stale = Some dead) (Hkind : kind dead = Tombstone)
    (Hlive : kind stale ≠ Tombstone) (Hold : version_lt (version stale) (version dead))
    (Hpath : validate_remote_path (path stale) = Ok ()) :
  should_accept_remote s stale = false ∧
  should_accept_remote
    (gc_merge blake3 s (tombstone_watermark (st_entries s))).1 stale = true.
Proof.
  split.
  - apply not_true_is_false. intros (_ & _ & Hnew)%should_accept_remote_spec.
    specialize (Hnew dead Hdead). by destruct (version_lt_irrefl (version dead));
      eapply version_lt_trans.
  - destruct (gc_merge_spec blake3 s (tombstone_watermark (st_entries s))) as (Hw & He & _).
    apply should_accept_remote_spec. split_and!; [done|apply covered_false; naive_solver|].
    intros local. rewrite He. intros [Hl Hc]%map_lookup_filter_Some.
    rewrite Hdead in Hl. injection Hl as <-. simpl in Hc.
    rewrite (merged_own_covers blake3 s (path stale) dead) in Hc; done.
Qed.

(** The 64-bit clock has no guard.  A watermark that names
    this node with the largest clock moves the local clock there, and the next
    deletion gets version 0, which even the peers holding the deleted entry
    refuse: it never propagates. *)
Theorem exhausted_clock (blake3 : string → Hash) (s : FolderState) (p : string) (old : Entry)
    (Hold : st_entries s !! p = Some old) (Hpos : 0 < lamport (version old))
    (Hbelow : own_watermark s ≤ st_lamport s ≤ u64_max)
    (Hnodead : map_Forall (λ _ e, kind e ≠ Tombstone) (st_entries s)) :
  let s' := (gc_merge blake3 s {[st_origin s := u64_max]}).1 in
  st_lamport s' = u64_max ∧
  ∃ new, st_entries (tombstone_path p (s', [])).1 !! p = Some new ∧
         kind new = Tombstone ∧ lamport (version new) = 0 ∧
         ∀ peer, path new = p → st_entries peer !! p = Some old →
                 should_accept_remote peer new = false.
Proof.
  intros s'. destruct (gc_merge_spec blake3 s {[st_origin s := u64_max]}) as (Hw & He & _).
  fold s' in Hw, He.
  assert (st_lamport s' = u64_max) as Hl.
  { apply gc_merge_no_prune_lamport; [lia|lia|done]. }
  split; [done|].
  assert (st_entries s' !! p = Some old) as Hold'.
  { rewrite He. apply map_lookup_filter_Some. split; [done|]. apply covered_false.
    intros Hk. by destruct (Hnodead p old Hold). }
  eexists. split_and!.
  - unfold tombstone_path. rewrite Hold', decide_False by (by apply (Hnodead p old)).
    simpl. apply lookup_insert_eq.
  - done.
  - simpl. rewrite Hl. reflexivity.
  - intros peer Hp Hpeer. apply not_true_is_false.
    intros (_ & _ & Hnew)%should_accept_remote_spec. rewrite Hp in Hnew.
    specialize (Hnew old Hpeer). simpl in Hnew. rewrite Hl in Hnew.
    destruct Hnew as [Hnew|[Hnew _]]; simpl in Hnew;
      change (add64 u64_max 1) with 0 in Hnew; lia.
Qed.
