(* ===== verification/StateWitness.v ===== *)
(** * The folder-state theorems at concrete inputs

    A node [n1] with the folder [/f] on an in-memory file system. *)

From S2P Require Import Prelude Paths Bytes Utf8 Fs Ignore Entries Scan ScanInv Tree.
From S2P Require Import TreeSpec TreeUpdate TreeHash Samples State StateLocal.
From S2P Require Import StateIndex StateTrack StateOps StateInv StateGc StateReach.
From S2P Require Import StateSafety StateRescan StateTyped StateProps.

(** Serialisation that keeps nothing. *)
#[export] Instance toy_codec : StateCodec := {|
  cache_codec := {| ser_cache := λ _, None; de_cache := λ _, None |};
  ser_entries := λ _, None;
  de_entries := λ _, None;
  de_legacy_entries := λ _, None;
  ser_watermark := λ _, None;
  de_watermark := λ _, None
|}.

Definition sample_fs : MemFs.t :=
  MemFs.mk (list_to_map [("/", MemFs.MDir 493); ("/f", MemFs.MDir 493);
    ("/f/b.txt", MemFs.MFile "bee" 420 0)]) (10 ^ 12).

Definition sample_state (es : gmap string Entry) (l : Z) (wm : GcWatermark) : FolderState :=
  mkState "/f" "n1" l wm es (empty_snapshot toy_blake3) (empty_snapshot toy_blake3) empty_cache.

Definition sample_world : World (F:=MemFs.t) := mkWorld sample_fs (sample_state ∅ 0 ∅).

(** An index with one live and one dead entry. *)
Definition sample_entries : gmap string Entry :=
  index_of [file_entry "b.txt" "bee" (ver 3 "n1"); dead_entry "old.txt" (ver 2 "n2")].

Lemma sample_state_inv : state_inv (sample_state sample_entries 3 ∅).
Proof.
  split.
  - decide_now.
  - done.
  - intros p e Hp. unfold sample_state, sample_entries, index_of in Hp. cbn in Hp.
    lookup_cases Hp; simpl; lia.
  - done.
  - intros p e _. apply covered_false. intros _ l Hl. by destruct (lookup_empty_Some _ _ Hl).
Qed.

Lemma sample_empty_inv : state_inv (sample_state ∅ 0 ∅).
Proof. split; try done; intros p e Hp; by destruct (lookup_empty_Some _ _ Hp). Qed.



(** The run used by the next two witnesses. *)
Definition sample_run := apply_paths toy_blake3 ["/f/b.txt"] sample_world.
Definition sample_changes : list Change :=
  match sample_run.2 with Ok cs => cs | Err _ => [] end.

Lemma sample_run_eq :
  apply_paths toy_blake3 ["/f/b.txt"] sample_world = (sample_run.1, Ok sample_changes).
Proof. vm_compute. reflexivity. Qed.

Lemma apply_paths_changes_witness :
  st_entries (w_st sample_run.1) = replay (st_entries (w_st sample_world)) sample_changes ∧
  st_lamport (w_st sample_run.1) =
    st_lamport (w_st sample_world) + Z.of_nat (length sample_changes) ∧
  Forall (λ c, path (ch_new c) = ch_path c ∧
               origin (version (ch_new c)) = st_origin (w_st sample_world) ∧
               st_lamport (w_st sample_world) < lamport (version (ch_new c))
                 ≤ st_lamport (w_st sample_run.1)) sample_changes.
Proof.
  apply (apply_paths_changes toy_blake3 ["/f/b.txt"]).
  - apply sample_run_eq.
  - done.
  - vm_compute. reflexivity.
Defined.

Lemma local_changes_win_witness :
  ∃ c, c ∈ sample_changes ∧
    should_accept_remote (sample_state ∅ 0 {["n1" := 0]}) (ch_new c) = true.
Proof.
  destruct sample_changes as [|c cs] eqn:E; [by vm_compute in E|].
  exists c. split; [left|].
  apply (local_changes_win toy_blake3 ["/f/b.txt"] sample_world sample_run.1 sample_changes).
  - apply sample_run_eq.
  - apply sample_empty_inv.
  - vm_compute. reflexivity.
  - rewrite E. left.
  - vm_compute in E. injection E as <- _. vm_compute. reflexivity.
  - intros e He. by destruct (lookup_empty_Some _ _ He).
  - vm_compute. discriminate.
Defined.

(** Reading the sample folder, before and after the first rescan. *)
Definition sample_rescan := rescan toy_blake3 sample_world.
Definition sample_inputs := rescan_inputs toy_blake3 sample_world.

Lemma rescan_idempotent_witness :
  ∃ w4, rescan toy_blake3 sample_rescan.1 = (w4, Ok []) ∧
        same_index (w_st sample_rescan.1) (w_st w4) ∧
        st_tree (w_st w4) = st_tree (w_st sample_rescan.1) ∧
        st_live_tree (w_st w4) = st_live_tree (w_st sample_rescan.1).
Proof.
  eapply (rescan_idempotent toy_blake3 sample_world sample_inputs.1 sample_rescan.1
    (rescan_inputs toy_blake3 sample_rescan.1).1
    match sample_rescan.2 with Ok cs => cs | Err _ => [] end
    match sample_inputs.2 with Ok i => i | Err _ => ([], (∅, ∅)) end).
  - vm_compute. reflexivity.
  - vm_compute. reflexivity.
  - vm_compute. reflexivity.
Defined.

Lemma stale_live_entry_returns_witness :
  should_accept_remote (sample_state sample_entries 3 ∅)
    (file_entry "old.txt" "zombie" (ver 1 "n2")) = false ∧
  should_accept_remote
    (gc_merge toy_blake3 (sample_state sample_entries 3 ∅)
       (tombstone_watermark (st_entries (sample_state sample_entries 3 ∅)))).1
    (file_entry "old.txt" "zombie" (ver 1 "n2")) = true.
Proof.
  apply (stale_live_entry_returns toy_blake3 _ (dead_entry "old.txt" (ver 2 "n2"))).
  - reflexivity.
  - reflexivity.
  - discriminate.
  - left. reflexivity.
  - reflexivity.
Defined.

Definition live_only : gmap string Entry :=
  {[ "b.txt" := file_entry "b.txt" "bee" (ver 3 "n1") ]}.

Lemma exhausted_clock_witness :
  let s' := (gc_merge toy_blake3 (sample_state live_only 3 ∅) {["n1" := u64_max]}).1 in
  st_lamport s' = u64_max ∧
  ∃ new, st_entries (tombstone_path "b.txt" (s', [])).1 !! "b.txt" = Some new ∧
         kind new = Tombstone ∧ lamport (version new) = 0 ∧
         ∀ peer, path new = "b.txt" →
                 st_entries peer !! "b.txt" = Some (file_entry "b.txt" "bee" (ver 3 "n1")) →
                 should_accept_remote peer new = false.
Proof.
  apply (exhausted_clock toy_blake3 (sample_state live_only 3 ∅)).
  - reflexivity.
  - reflexivity.
  - split; [discriminate|]. discriminate.
  - apply map_Forall_singleton. discriminate.
Defined.

(** ** A name peers refuse *)

Definition backslash_name : string := "a" +:+ String "092" "b.txt".
Definition backslash_fs : MemFs.t :=
  MemFs.mk (list_to_map [("/", MemFs.MDir 493); ("/f", MemFs.MDir 493);
    ("/f/" +:+ backslash_name, MemFs.MFile "bee" 420 0)]) (10 ^ 12).
Definition backslash_state : FolderState :=
  match (new_state toy_blake3 "/f" "n1" backslash_fs).2 with Ok s => s | Err _ => sample_state ∅ 0 ∅ end.

(** A file with a backslash in its name, which
    the file system allows, is indexed, advertised in the root and served by its
    node; but a path with a backslash is not a valid remote path, so no peer
    accepts the entry in any state, a batch with it fails, and no batch ever
    brings such a path into an index: the folders stay different. *)
Theorem backslash_never_replicated :
  (∃ e, st_entries backslash_state !! backslash_name = Some e ∧ kind e = File ∧
        is_Some (node backslash_state "") ∧ contains "092" (path e) = true) ∧
  (∀ (s : FolderState) e, contains "092" (path e) = true → should_accept_remote s e = false) ∧
  (∀ e tmp (w : World (F:=MemFs.t)), contains "092" (path e) = true →
     apply_remote_entries toy_blake3 [(e, tmp)] w = (w, Err InvalidInput)) ∧
  (∀ batch p (w : World (F:=MemFs.t)), contains "092" p = true → st_entries (w_st w) !! p = None →
     st_entries (w_st (apply_remote_entries toy_blake3 batch w).1) !! p = None).
Proof.
  assert (∀ p, contains "092" p = true → validate_remote_path p = Err InvalidInput) as Hv.
  { intros p Hp. unfold validate_remote_path. case_decide; [done|]. by rewrite Hp, orb_true_r. }
  split_and!.
  - vm_compute. eexists. split_and!; [reflexivity|done|by eexists|done].
  - intros s e He. unfold should_accept_remote. by rewrite Hv.
  - intros e tmp w He. unfold apply_remote_entries, m_bind at 1. cbn [m_fold fst snd].
    unfold m_bind, apply_remote_entry_core, m_bind, m_lift. by rewrite Hv.
  - intros batch p w Hp. apply apply_remote_entries_valid. by rewrite Hv.
Qed.

(** ** A file system that follows links

    The in-memory disk, with the symbolic links on the way to a file followed
    as POSIX does: [physical] follows all but the last component, [target_of]
    the last one too. *)
Module LinkFs.

Record t : Type := mk { disk : MemFs.t }.

Definition names (p : string) : list string := component_name <$> List.filter is_normal (path_components p).

(** Absolute links restart at the root; 40 links are too many. *)
Fixpoint walk (fuel : nat) (last : bool) (m : gmap string MemFs.MNode) (dir : string)
    (todo : list string) : string :=
  match fuel, todo with
  | S fuel, name :: rest =>
      let p := path_join dir name in
      match m !! p with
      | Some (MemFs.MLink target) =>
          if negb last && bool_decide (rest = []) then p
          else walk fuel last m (if is_absolute target then "/" else dir) (names target ++ rest)
      | _ => walk fuel last m p rest
      end
  | _, _ => dir
  end.
Definition physical (s : t) (p : string) : string := walk 4096 false (MemFs.files (disk s)) "/" (names p).
Definition target_of (s : t) (p : string) : string := walk 4096 true (MemFs.files (disk s)) "/" (names p).

Definition on_disk {A} (op : M MemFs.t A) : M t A :=
  λ s, let '(d, r) := op (disk s) in (mk d, r).

#[global] Instance ops : FsOps t := {|
  fs_symlink_metadata p := λ s, on_disk (MemFs.symlink_metadata (physical s p)) s;
  fs_read_dir p := λ s, on_disk (MemFs.read_dir (target_of s p)) s;
  fs_read p := λ s, on_disk (MemFs.read (target_of s p)) s;
  fs_read_link p := λ s, on_disk (MemFs.read_link (physical s p)) s;
  fs_canonicalize p := λ s, on_disk (MemFs.canonicalize (target_of s p)) s;
  fs_write p bytes := λ s, on_disk (MemFs.write (target_of s p) bytes) s;
  fs_rename a b := λ s, on_disk (MemFs.rename (physical s a) (physical s b)) s;
  fs_remove_file p := λ s, on_disk (MemFs.remove_file (physical s p)) s;
  fs_remove_dir_all p := λ s, on_disk (MemFs.remove_dir_all (physical s p)) s;
  fs_create_dir_all p := λ s, on_disk (MemFs.create_dir_all (target_of s p)) s;
  fs_set_permissions p md := λ s, on_disk (MemFs.set_permissions (target_of s p) md) s;
  fs_symlink target p := λ s, on_disk (MemFs.symlink target (physical s p)) s;
  fs_now := λ s, (s, MemFs.clock (disk s));
  fs_sleep := λ d s, mk (MemFs.mk (MemFs.files (disk s)) (MemFs.clock (disk s) + d))
|}.
End LinkFs.

(** The folder with its state directory, and an object a peer has sent. *)
Definition linked_fs : LinkFs.t :=
  LinkFs.mk (MemFs.mk (list_to_map [("/", MemFs.MDir 493); ("/f", MemFs.MDir 493);
    ("/f/.lil", MemFs.MDir 493); ("/f/.lil/private.key", MemFs.MFile "secret" 384 0);
    ("/f/.lil/recv-1", MemFs.MFile "chosen by the peer" 420 0)]) (10 ^ 12)).
Definition linked_world : World (F:=LinkFs.t) := mkWorld linked_fs (sample_state ∅ 0 ∅).

Definition link_to_state_dir : Entry :=
  mkEntry "notes" Symlink None (Some ".lil") 4 None (ver 1 "n2").
Definition key_below_link : Entry := file_entry "notes/private.key" "chosen by the peer" (ver 2 "n2").
Definition linked_run : World (F:=LinkFs.t) * IoResult (list Change) :=
  apply_remote_entries toy_blake3
    [(link_to_state_dir, None); (key_below_link, Some "/f/.lil/recv-1")] linked_world.

Lemma state_dir_refused rest : validate_remote_path (".lil/" +:+ rest) = Err InvalidInput.
Proof.
  unfold validate_remote_path. rewrite decide_False by done.
  replace (existsb bad_remote_component _) with true by (symmetry; reflexivity). by case_match.
Qed.

(** C8. symlink_reaches_state_dir: no entry for a path below [.lil] is accepted
    from a peer, in any state; but a symbolic link to [.lil] is a valid remote
    entry, and a file below the link's path is one too.  Applied one after the
    other on a file system that follows links, they succeed, leave an index
    without any excluded path, and replace the node's private key with bytes the
    peer chose. *)
Theorem symlink_reaches_state_dir :
  (∀ (s : FolderState) e rest, path e = ".lil/" +:+ rest → should_accept_remote s e = false) ∧
  (fs_read "/f/.lil/private.key" (w_fs linked_world)).2 = Ok "secret" ∧
  is_ok linked_run.2 = true ∧
  (fs_read "/f/.lil/private.key" (w_fs linked_run.1)).2 = Ok "chosen by the peer" ∧
  index_typed (w_st linked_run.1).
Proof.
  split_and!.
  - intros s e rest He. unfold should_accept_remote. rewrite He. by rewrite state_dir_refused.
  - vm_compute. reflexivity.
  - vm_compute. reflexivity.
  - vm_compute. reflexivity.
  - apply (apply_remote_entries_typed toy_blake3); [|done].
    intros e tmp He. repeat setoid_rewrite elem_of_cons in He. 
    destruct He as [[= -> ->]|[[= -> ->]|[]%elem_of_nil]]; by eexists.
Qed.
