(* ===== verification/Identity.v ===== *)
(** * Node identities: [src/src/identity.rs]

    A [NodeId] is the 32 bytes of an Ed25519 verifying key, printed as 64
    lower-case hexadecimal digits.  The signature scheme (the [ed25519_dalek]
    crate) and the source of randomness ([getrandom]) are parameters. *)

From S2P Require Import Prelude Paths Bytes Fs.

(** The operations of [ed25519_dalek] the program uses. *)
Class Ed25519 := {
  vk_from_bytes : string → bool;          (** [VerifyingKey::from_bytes(..).is_ok()] *)
  ed_verify : string → string → string → bool;
  ed_public : string → string;            (** the public key of a secret key *)
  ed_sign : string → string → string
}.

Abbreviation NodeId := string (only parsing).

(** The parser of [NodeId::from_str]: two digits a byte. *)
Fixpoint parse_hex_pairs (s : string) : IoResult string :=
  match s with
  | String a (String b rest) =>
      match u8_from_str_radix16 a b with
      | Some v => String (byte_of v) <$> parse_hex_pairs rest
      | None => Err InvalidInput
      end
  | _ => Ok ""
  end.

Definition node_id_from_str (value : string) : IoResult NodeId :=
  if negb (strlen value =? 64)%nat then Err InvalidInput else parse_hex_pairs value.

(** [Display for NodeId]. *)
Definition node_id_to_string (id : NodeId) : string := hex id.

Section Identity.
Context `{Ed25519}.

Definition node_id_verify (id : NodeId) (message signature : string) : IoResult () :=
  if negb (vk_from_bytes id) then Err OtherError
  else if ed_verify id message signature then Ok () else Err OtherError.

Record Identity : Set := mkIdentity { signing_key : string }.

Definition node_id (i : Identity) : NodeId := ed_public (signing_key i).
Definition sign (i : Identity) (message : string) : string := ed_sign (signing_key i) message.

(** [Identity::load_or_create]; [random] is what [getrandom] fills in. *)
Definition load_or_create {F} `{FsOps F} (p : string) (random : IoResult string)
  : M F Identity :=
  (r <- m_try (fs_read p) ;;
   match r with
   | Ok bytes => if (strlen bytes =? 32)%nat then m_ret (mkIdentity bytes)
                 else m_err OtherError
   | Err _ =>
       match path_parent p with
       | Some parent => fs_create_dir_all parent
       | None => m_ret ()
       end ;;
       bytes <- m_lift random ;;
       fs_write p bytes ;;
       m_ret (mkIdentity bytes)
   end)%m.

End Identity.

(** ** Lemmas *)

Lemma parse_hex_pairs_hex s : parse_hex_pairs (hex s) = Ok s.
Proof.
  induction s as [|a s IH]; [done|]. cbn [hex].
  destruct (hex_byte_parse a) as (x & y & -> & Hv).
  change ((String x (String y "")) +:+ hex s) with (String x (String y (hex s))).
  cbn [parse_hex_pairs]. rewrite Hv, IH. simpl. by rewrite byte_of_val.
Qed.

Lemma parse_hex_pairs_len n s id :
  strlen s = (2 * n)%nat → parse_hex_pairs s = Ok id → strlen id = n.
Proof.
  revert s id. induction n as [|n IH]; intros s id Hlen.
  - destruct s; [|done]. by intros [= <-].
  - destruct s as [|a [|b s]]; simpl in Hlen; [lia|lia|]. cbn [parse_hex_pairs].
    destruct (u8_from_str_radix16 a b); [|done].
    destruct (parse_hex_pairs s) as [r|] eqn:E; [|done]. intros [= <-]. simpl.
    f_equal. apply (IH s); [lia|done].
Qed.

Lemma node_id_round_trip id : strlen id = 32%nat →
  node_id_from_str (node_id_to_string id) = Ok id.
Proof.
  intros Hlen. unfold node_id_from_str, node_id_to_string. rewrite strlen_hex, Hlen.
  apply parse_hex_pairs_hex.
Qed.

Lemma node_id_from_str_len s id : node_id_from_str s = Ok id → strlen id = 32%nat.
Proof.
  unfold node_id_from_str. destruct (Nat.eqb_spec (strlen s) 64); [|done].
  by apply (parse_hex_pairs_len 32).
Qed.
