(* ===== verification/Ticket.v ===== *)
(** * Join tickets: the ticket half of [src/src/cli.rs]

    A ticket is the big-endian integer of [version, issuer, secret, endpoints]
    written in base 62.  [Vec<u8>] is a byte string; the arithmetic is the
    long-hand [u32] arithmetic of the source. *)

From S2P Require Import Prelude Paths Bytes Utf8 Entries Identity.

Record JoinTicket : Set := mkTicket {
  issuer : NodeId;
  secret : string;
  endpoints : list string
}.

Definition TICKET_VERSION : Z := 2.
Definition TICKET_MIN_BYTES : nat := 65.
Definition MAX_TICKET_ENDPOINT_BYTES : nat := 384.
Definition TICKET_MAX_BYTES : nat := TICKET_MIN_BYTES + MAX_TICKET_ENDPOINT_BYTES.
Definition TICKET_MAX_CHARS : nat := TICKET_MAX_BYTES * 8 / 5.

Definition BASE62_ALPHABET : string :=
  "0123456789ABCDEFGHIJKLMNOPQRSTUVWXYZabcdefghijklmnopqrstuvwxyz".

Definition b62_digit (d : Z) : ascii :=
  default "000"%char (String.get (Z.to_nat d) BASE62_ALPHABET).

(** [b62_divmod]: the remainder runs from the most significant byte. *)
Fixpoint b62_divmod (rem : Z) (bytes : string) : string * Z :=
  match bytes with
  | "" => ("", rem)
  | String b rest =>
      let val := rem * 256 + byte_val b in
      let '(rest', rem') := b62_divmod (val mod 62) rest in
      (String (byte_of (val / 62)) rest', rem')
  end.

Fixpoint all_zero (bytes : string) : bool :=
  match bytes with "" => true | String b rest => (byte_val b =? 0) && all_zero rest end.

(** The loop of [ticket_base62_encode]; the digits come out least significant
    first, [acc] is the reversed vector.  [encode_loop_value] shows that two
    iterations a byte and one more are enough. *)
Fixpoint encode_loop (fuel : nat) (n acc : string) : string :=
  match fuel with
  | O => acc
  | S fuel =>
      let '(n, rem) := b62_divmod 0 n in
      let acc := String (b62_digit rem) acc in
      if all_zero n then acc else encode_loop fuel n acc
  end.

Definition ticket_base62_encode (bytes : string) : string :=
  encode_loop (2 * strlen bytes + 1) bytes "".

(** [b62_mul_add]: from the least significant byte; returns the carry out. *)
Fixpoint mul_add_bytes (bytes : string) (digit : Z) : string * Z :=
  match bytes with
  | "" => ("", digit)
  | String b rest =>
      let '(rest', carry) := mul_add_bytes rest digit in
      let val := byte_val b * 62 + carry in
      (String (byte_of (Z.land val 255)) rest', Z.shiftr val 8)
  end.

(** [while carry > 0]: a [u32] carry has at most four bytes. *)
Fixpoint push_carry (fuel : nat) (carry : Z) (bytes : string) : string :=
  match fuel with
  | O => bytes
  | S fuel =>
      if carry >? 0
      then push_carry fuel (Z.shiftr carry 8) (String (byte_of (Z.land carry 255)) bytes)
      else bytes
  end.

Definition b62_mul_add (bytes : string) (digit : Z) : string :=
  let '(bytes, carry) := mul_add_bytes bytes digit in push_carry 4 carry bytes.

Definition b62_char_to_digit (ch : ascii) : IoResult Z :=
  let c := byte_val ch in
  if (48 <=? c) && (c <=? 57) then Ok (c - 48)
  else if (65 <=? c) && (c <=? 90) then Ok (c - 65 + 10)
  else if (97 <=? c) && (c <=? 122) then Ok (c - 97 + 36)
  else Err OtherError.

Fixpoint decode_loop (s result : string) : IoResult string :=
  match s with
  | "" => Ok result
  | String ch rest =>
      match b62_char_to_digit ch with
      | Ok digit => decode_loop rest (b62_mul_add result digit)
      | Err e => Err e
      end
  end.

Definition ticket_base62_decode (s : string) : IoResult string :=
  if decide (s = "") then Err OtherError
  else if (TICKET_MAX_CHARS <? strlen s)%nat then Err OtherError
  else decode_loop s "".

Definition encode_ticket (node_id secret_bytes : string) (endpoints : list string)
  : IoResult string :=
  let joined := join "," endpoints in
  if (MAX_TICKET_ENDPOINT_BYTES <? strlen joined)%nat then Err OtherError
  else Ok (ticket_base62_encode
             (String (byte_of TICKET_VERSION) (node_id +:+ secret_bytes +:+ joined))).

Definition parse_join_ticket (value : string) : IoResult JoinTicket :=
  match ticket_base62_decode value with
  | Err e => Err e
  | Ok bytes =>
      if (strlen bytes <? TICKET_MIN_BYTES)%nat then Err OtherError
      else if negb (bool_decide (String.substring 0 1 bytes = String (byte_of TICKET_VERSION) ""))
      then Err OtherError
      else
        let issuer := String.substring 1 32 bytes in
        let secret := hex (String.substring 33 32 bytes) in
        let endpoints_raw := String.substring 65 (strlen bytes - 65) bytes in
        if is_utf8 endpoints_raw
        then Ok (mkTicket issuer secret
                   (List.filter (λ s, bool_decide (s ≠ "")) (split_on ","%char endpoints_raw)))
        else Err OtherError
  end.

(** ** Base 62 *)

Lemma be_value_inj s t : strlen s = strlen t → be_value s = be_value t → s = t.
Proof.
  revert t. induction s as [|a s IH]; intros [|b t]; simpl; try done.
  intros [= Hlen]. rewrite !be_value_cons, Hlen. intros Heq.
  pose proof (be_value_range s) as Hs. pose proof (be_value_range t) as Ht. rewrite Hlen in Hs.
  pose proof (pow256_pos (strlen t)).
  assert (byte_val a = byte_val b) as Hab by nia.
  rewrite Hab in Heq. rewrite (IH t Hlen) by lia.
  f_equal. rewrite <-(byte_of_val a), Hab. apply byte_of_val.
Qed.

(** No leading zero byte. *)
Definition norm (s : string) : Prop :=
  match s with "" => True | String a _ => byte_val a ≠ 0 end.

Lemma norm_bound a s : norm (String a s) → 256 ^ Z.of_nat (strlen s) ≤ be_value (String a s).
Proof.
  simpl. intros Ha. rewrite be_value_cons. pose proof (byte_val_range a).
  pose proof (be_value_range s). pose proof (pow256_pos (strlen s)). nia.
Qed.

(** Without leading zeros the value determines the bytes. *)
Lemma norm_inj s t : norm s → norm t → be_value s = be_value t → s = t.
Proof.
  assert (∀ s t, norm s → be_value s = be_value t → (strlen s ≤ strlen t)%nat) as Hle.
  { clear. intros [|a s] t Hs Heq; [simpl; lia|]. simpl.
    apply norm_bound in Hs. pose proof (be_value_range t) as Ht. rewrite <-Heq in Ht.
    assert (256 ^ Z.of_nat (strlen s) < 256 ^ Z.of_nat (strlen t)) as Hlt by lia.
    apply Z.pow_lt_mono_r_iff in Hlt; lia. }
  intros Hs Ht Heq. apply be_value_inj; [|done].
  apply Nat.le_antisymm; by apply Hle.
Qed.

Lemma b62_divmod_spec rem bytes :
  0 ≤ rem < 62 →
  strlen (b62_divmod rem bytes).1 = strlen bytes ∧
  be_value (b62_divmod rem bytes).1 * 62 + (b62_divmod rem bytes).2 =
    rem * 256 ^ Z.of_nat (strlen bytes) + be_value bytes ∧
  0 ≤ (b62_divmod rem bytes).2 < 62.
Proof.
  revert rem. induction bytes as [|b bytes IH]; intros rem Hrem.
  { simpl. change (be_value "") with 0. lia. }
  cbn [b62_divmod]. set (val := rem * 256 + byte_val b).
  pose proof (byte_val_range b) as Hb.
  pose proof (Z.mod_pos_bound val 62 eq_refl) as Hm.
  destruct (IH (val mod 62) Hm) as (Hl & Hv & Hr).
  destruct (b62_divmod (val mod 62) bytes) as [q r]. simpl in Hl, Hv, Hr.
  cbn [fst snd strlen]. split; [by rewrite Hl|]. split; [|done].
  rewrite !be_value_cons, byte_val_of, pow256_succ, Hl.
  assert (0 ≤ val / 62 < 256) as Hq by (unfold val; split; [apply Z.div_pos|
    apply Z.div_lt_upper_bound]; lia).
  rewrite (Z.mod_small (val / 62)) by done.
  pose proof (Z.div_mod val 62 ltac:(done)) as Hdm.
  set (P := 256 ^ Z.of_nat (strlen bytes)) in *.
  replace (rem * (256 * P) + (byte_val b * P + be_value bytes))
    with (val * P + be_value bytes) by (unfold val; ring).
  rewrite Hdm at 2. nia.
Qed.

Lemma all_zero_value s : all_zero s = true ↔ be_value s = 0.
Proof.
  induction s as [|a s IH]; [done|]. cbn [all_zero]. rewrite be_value_cons.
  pose proof (byte_val_range a). pose proof (be_value_range s). pose proof (pow256_pos (strlen s)).
  rewrite andb_true_iff, Z.eqb_eq, IH. nia.
Qed.

(** The value of a numeral, from its first digit. *)
Fixpoint b62_value (acc : Z) (s : string) : IoResult Z :=
  match s with
  | "" => Ok acc
  | String ch rest =>
      match b62_char_to_digit ch with
      | Ok d => b62_value (acc * 62 + d) rest
      | Err e => Err e
      end
  end.

Lemma b62_digit_char d : 0 ≤ d < 62 → b62_char_to_digit (b62_digit d) = Ok d.
Proof.
  intros Hd. rewrite <-(Z2Nat.id d) by lia.
  assert (Z.to_nat d < 62)%nat as Hn by lia. revert Hn. generalize (Z.to_nat d). clear.
  intros n Hn. do 62 (destruct n as [|n]; [vm_compute; reflexivity|]). lia.
Qed.

Lemma b62_char_range ch d : b62_char_to_digit ch = Ok d → 0 ≤ d < 62.
Proof.
  unfold b62_char_to_digit. pose proof (byte_val_range ch). intros Hd.
  repeat case_match; simplify_eq; rewrite ?andb_true_iff, ?Z.leb_le in *; lia.
Qed.

(** [encode_loop] prepends the digits of the value. *)
Lemma encode_loop_value fuel n acc :
  be_value n < 62 ^ Z.of_nat fuel → (0 < fuel)%nat →
  ∃ D, encode_loop fuel n acc = D +:+ acc ∧ D ≠ "" ∧
       (∀ a, b62_value a D = Ok (a * 62 ^ Z.of_nat (strlen D) + be_value n)) ∧
       62 ^ (Z.of_nat (strlen D) - 1) ≤ Z.max 1 (be_value n).
Proof.
  revert n acc. induction fuel as [|fuel IH]; intros n acc Hv Hf; [lia|]. cbn [encode_loop].
  destruct (b62_divmod_spec 0 n ltac:(lia)) as (Hl & Hq & Hr).
  destruct (b62_divmod 0 n) as [q r]. cbn [fst snd] in *. rewrite Z.mul_0_l, Z.add_0_l in Hq.
  pose proof (be_value_range q) as Hq0.
  destruct (all_zero q) eqn:Ez.
  - apply all_zero_value in Ez. rewrite Ez in Hq. exists (String (b62_digit r) "").
    split_and!; [done|done| |simpl; lia].
    intros a. cbn [b62_value]. rewrite b62_digit_char by done. f_equal. simpl. lia.
  - assert (be_value q ≠ 0) as Hne by (intros Hz%all_zero_value; congruence).
    assert (be_value n < 62 * 62 ^ Z.of_nat fuel) as Hv'
      by (rewrite <-Z.pow_succ_r by lia; rewrite <-Nat2Z.inj_succ; done).
    destruct fuel as [|fuel]; [simpl in Hv'; lia|].
    destruct (IH q (String (b62_digit r) acc)) as (D & HD & HD0 & HDv & HDl); [lia|lia|].
    exists (D +:+ String (b62_digit r) ""). split_and!.
    + rewrite HD, append_assoc. done.
    + by destruct D.
    + intros a. rewrite strlen_append. simpl.
      assert (∀ s t a x, b62_value a s = Ok x → b62_value a (s +:+ t) = b62_value x t) as Happ.
      { clear. induction s as [|c s IHs]; intros t a x; simpl; [by intros [= ->]|].
        destruct (b62_char_to_digit c); [apply IHs|done]. }
      rewrite (Happ _ _ _ _ (HDv a)). cbn [b62_value]. rewrite b62_digit_char by done.
      f_equal. rewrite Nat2Z.inj_add, Z.pow_add_r by lia. simpl.
      change (62 ^ 1) with 62. lia.
    + rewrite strlen_append. simpl.
      replace (Z.of_nat (strlen D + 1) - 1) with (Z.succ (Z.of_nat (strlen D) - 1)) by lia.
      rewrite Z.pow_succ_r by (destruct D; [done|simpl; lia]). lia.
Qed.

Lemma mul_add_bytes_spec bytes digit :
  0 ≤ digit < 62 →
  strlen (mul_add_bytes bytes digit).1 = strlen bytes ∧
  (mul_add_bytes bytes digit).2 * 256 ^ Z.of_nat (strlen bytes)
    + be_value (mul_add_bytes bytes digit).1 = be_value bytes * 62 + digit ∧
  0 ≤ (mul_add_bytes bytes digit).2 < 62.
Proof.
  intros Hd. induction bytes as [|b bytes (Hl & Hv & Hc)].
  { simpl. change (be_value "") with 0. lia. }
  cbn [mul_add_bytes]. destruct (mul_add_bytes bytes digit) as [r c]. cbn [fst snd] in *.
  set (val := byte_val b * 62 + c). pose proof (byte_val_range b) as Hb.
  change 255 with (Z.ones 8). rewrite Z.land_ones, Z.shiftr_div_pow2 by lia.
  change (2 ^ 8) with 256. cbn [strlen]. split; [by rewrite Hl|].
  rewrite !be_value_cons, byte_val_of, pow256_succ, Hl, Z.mod_mod by lia.
  pose proof (Z.div_mod val 256 ltac:(done)) as Hdm.
  split.
  - set (P := 256 ^ Z.of_nat (strlen bytes)) in *.
    replace (val / 256 * (256 * P) + (val mod 256 * P + be_value r))
      with ((256 * (val / 256) + val mod 256) * P + be_value r) by ring.
    rewrite <-Hdm. unfold val. lia.
  - split; [apply Z.div_pos; unfold val; lia|]. apply Z.div_lt_upper_bound; unfold val; lia.
Qed.

Lemma b62_mul_add_spec bytes digit :
  0 ≤ digit < 62 → norm bytes →
  be_value (b62_mul_add bytes digit) = be_value bytes * 62 + digit ∧
  norm (b62_mul_add bytes digit).
Proof.
  intros Hd Hn. unfold b62_mul_add.
  destruct (mul_add_bytes_spec bytes digit Hd) as (Hl & Hv & Hc).
  destruct (mul_add_bytes bytes digit) as [r c] eqn:E. cbn [fst snd] in *.
  change (push_carry 4 c r) with
    (if c >? 0 then push_carry 3 (Z.shiftr c 8) (String (byte_of (Z.land c 255)) r) else r).
  rewrite Z.gtb_ltb. destruct (Z.ltb_spec 0 c) as [H0|H0].
  - rewrite Z.shiftr_div_pow2 by lia. rewrite (Z.div_small c) by (simpl; lia).
    change 255 with (Z.ones 8). rewrite Z.land_ones by lia. change (2 ^ 8) with 256.
    rewrite (Z.mod_small c) by lia. change (push_carry 3 0 ?b) with b.
    rewrite be_value_cons, byte_val_of, Hl, (Z.mod_small c) by lia.
    split; [lia|]. simpl. rewrite byte_val_of, (Z.mod_small c) by lia. lia.
  - assert (c = 0) as -> by lia. split; [lia|].
    destruct bytes as [|b bytes]; [injection E as <- _; done|].
    destruct r as [|b' r]; [done|]. change (byte_val b' ≠ 0). intros Hz.
    rewrite (be_value_cons b'), Hz in Hv. simpl in Hl. injection Hl as Hl.
    pose proof (be_value_range r) as Hr. rewrite Hl in Hr.
    pose proof (norm_bound b bytes Hn). lia.
Qed.

Lemma decode_loop_value s result v :
  norm result → b62_value (be_value result) s = Ok v →
  ∃ bytes, decode_loop s result = Ok bytes ∧ be_value bytes = v ∧ norm bytes.
Proof.
  revert result. induction s as [|ch s IH]; intros result Hn; cbn [decode_loop b62_value].
  { intros [= <-]. by exists result. }
  destruct (b62_char_to_digit ch) as [d|e] eqn:Ed; [|done]. intros Hv.
  apply b62_char_range in Ed. destruct (b62_mul_add_spec result d Ed Hn) as [Hval Hnorm].
  apply IH; [done|]. by rewrite Hval.
Qed.

(** A numeral of [n] bytes has at most [TICKET_MAX_CHARS] digits when [n] is at
    most [TICKET_MAX_BYTES]: [62^6 > 2^35]. *)
Lemma pow62_pow256 k n :
  62 ^ (Z.of_nat k - 1) ≤ Z.max 1 (256 ^ Z.of_nat n) → (35 * k ≤ 48 * n + 245)%nat.
Proof.
  intros Hle. destruct (Nat.le_gt_cases (35 * k) (48 * n + 245)) as [?|Hgt]; [done|]. exfalso.
  set (q := (Z.of_nat k - 1) / 6).
  assert (0 ≤ q) as Hq0 by (unfold q; apply Z.div_pos; lia).
  assert (6 * q ≤ Z.of_nat k - 1) as Hq1 by (apply Z.mul_div_le; lia).
  assert (8 * Z.of_nat n < 35 * q) as Hq2.
  { unfold q. pose proof (Z.mod_pos_bound (Z.of_nat k - 1) 6 eq_refl).
    pose proof (Z.div_mod (Z.of_nat k - 1) 6 ltac:(done)). lia. }
  assert (62 ^ (6 * q) ≤ 62 ^ (Z.of_nat k - 1)) by (apply Z.pow_le_mono_r; lia).
  assert (2 ^ (35 * q) ≤ 62 ^ (6 * q)).
  { rewrite !Z.pow_mul_r by lia. apply Z.pow_le_mono_l. split; [lia|]. by vm_compute. }
  assert (2 ^ (8 * Z.of_nat n) < 2 ^ (35 * q)) as Hlt by (apply Z.pow_lt_mono_r; lia).
  rewrite (Z.pow_mul_r 2 8) in Hlt by lia. change (2 ^ 8) with 256 in Hlt.
  pose proof (pow256_pos n). lia.
Qed.

Lemma base62_round_trip bytes :
  norm bytes → bytes ≠ "" → (strlen bytes ≤ TICKET_MAX_BYTES)%nat →
  ticket_base62_decode (ticket_base62_encode bytes) = Ok bytes.
Proof.
  intros Hn Hne Hlen. unfold ticket_base62_encode.
  destruct (encode_loop_value (2 * strlen bytes + 1) bytes "") as (D & -> & HD0 & HDv & HDl).
  { eapply Z.lt_le_trans; [apply be_value_range|].
    replace (Z.of_nat (2 * strlen bytes + 1)) with (2 * Z.of_nat (strlen bytes) + 1) by lia.
    rewrite Z.pow_add_r, Z.pow_mul_r by lia. change (62 ^ 1) with 62. change (62 ^ 2) with 3844.
    assert (256 ^ Z.of_nat (strlen bytes) ≤ 3844 ^ Z.of_nat (strlen bytes))
      by (apply Z.pow_le_mono_l; lia).
    pose proof (pow256_pos (strlen bytes)). lia. }
  { lia. }
  rewrite append_nil_r. unfold ticket_base62_decode. rewrite decide_False by done.
  assert (strlen D ≤ TICKET_MAX_CHARS)%nat as HDlen.
  { assert (35 * strlen D ≤ 48 * strlen bytes + 245)%nat as Hb.
    { apply pow62_pow256. etrans; [exact HDl|]. pose proof (be_value_range bytes). lia. }
    change TICKET_MAX_BYTES with 449%nat in Hlen. change TICKET_MAX_CHARS with 718%nat. lia. }
  destruct (Nat.ltb_spec TICKET_MAX_CHARS (strlen D)); [lia|].
  destruct (decode_loop_value D "" (be_value bytes)) as (bytes' & Hd & Hv & Hnorm).
  { done. }
  { rewrite HDv. f_equal. }
  rewrite Hd. f_equal. by apply norm_inj.
Qed.

Lemma substring_skip n m s t : strlen s = n →
  String.substring n m (s +:+ t) = String.substring 0 m t.
Proof. intros <-. induction s as [|a s IH]; [done|]. simpl. exact IH. Qed.

Lemma substring_take s t : String.substring 0 (strlen s) (s +:+ t) = s.
Proof. induction s as [|a s IH]; simpl; [by destruct t|]. by rewrite IH. Qed.

Lemma substring_all s : String.substring 0 (strlen s) s = s.
Proof. rewrite <-(append_nil_r s) at 2. apply substring_take. Qed.
