(* ===== verification/Group.v ===== *)
(** * Group membership: [src/src/group.rs]

    The membership ledger is a last-writer-wins map of [MemberEntry]s by id;
    invites are one-time secrets kept as hashes with an expiry.  Both live in
    JSON files; [serde_json] is a parameter. *)

From S2P Require Import Prelude Paths Bytes Utf8 Fs Identity.

Inductive MemberStatus : Set := Active | Removed.

#[export] Instance MemberStatus_eq_dec : EqDecision MemberStatus.
Proof. solve_decision. Defined.

Record MemberEntry : Set := mkMember {
  m_id : string;
  m_status : MemberStatus;
  m_lamport : Z
}.

#[export] Instance MemberEntry_eq_dec : EqDecision MemberEntry.
Proof. solve_decision. Defined.

Record PeersFile : Set := mkPeersFile {
  topic_id : option string;
  pf_members : list MemberEntry
}.

Record PendingInvite : Set := mkInvite {
  secret_hash : string;
  expires_at_ms : Z
}.

Record GroupState : Set := mkGroup {
  g_path : string;
  g_local_id : string;
  g_members : gmap string MemberEntry
}.

Record MemberMerge : Set := mkMerge {
  mm_changed : bool;
  mm_removed_self : bool;
  mm_active_peers : list NodeId
}.

(** [serde_json::to_string_pretty] and [from_str]. *)
Class GroupJson := {
  ser_peers : PeersFile → option string;
  de_peers : string → option PeersFile;
  ser_invites : list PendingInvite → option string;
  de_invites : string → option (list PendingInvite)
}.

Definition set_members (ms : gmap string MemberEntry) (g : GroupState) : GroupState :=
  mkGroup (g_path g) (g_local_id g) ms.

(** ** The ledger in memory *)

Definition next_lamport (ms : gmap string MemberEntry) : Z :=
  add64 (foldr (λ e m, Z.max (m_lamport e) m) 0 (btree_values ms)) 1.

Definition is_active (e : MemberEntry) : bool := bool_decide (m_status e = Active).

Definition members (g : GroupState) : list MemberEntry := btree_values (g_members g).

Definition parse_ok (id : string) : bool := is_ok (node_id_from_str id).

Definition active_peers_from_members (local_id : string) (ms : list MemberEntry) : list NodeId :=
  omap (λ e, match node_id_from_str (m_id e) with Ok id => Some id | Err _ => None end)
    (List.filter is_active (List.filter (λ e, bool_decide (m_id e ≠ local_id)) ms)).

Definition active_peers (g : GroupState) : list NodeId :=
  active_peers_from_members (g_local_id g) (members g).

Definition active_peer_ids (g : GroupState) : list string :=
  m_id <$> List.filter is_active
             (List.filter (λ e, bool_decide (m_id e ≠ g_local_id g)) (members g)).

Definition is_active_member (g : GroupState) (peer : NodeId) : bool :=
  match g_members g !! node_id_to_string peer with Some e => is_active e | None => false end.

Definition is_known_member (g : GroupState) (peer : NodeId) : bool :=
  bool_decide (is_Some (g_members g !! node_id_to_string peer)).

(** The change [add_active_peer] makes, if any. *)
Definition add_active_step (peer : NodeId) (g : GroupState) : option GroupState :=
  let id := node_id_to_string peer in
  let l := next_lamport (g_members g) in
  match g_members g !! id with
  | Some e => if is_active e then None
              else Some (set_members (<[id := mkMember (m_id e) Active l]> (g_members g)) g)
  | None => Some (set_members (<[id := mkMember id Active l]> (g_members g)) g)
  end.

(** One iteration of the loop of [merge_members]: members, [changed],
    [removed_self]. *)
Definition merge_member_step (local_id : string)
    (acc : gmap string MemberEntry * bool * bool) (e : MemberEntry)
  : gmap string MemberEntry * bool * bool :=
  let '(ms, changed, removed_self) := acc in
  if negb (parse_ok (m_id e)) then acc
  else
    let apply := match ms !! m_id e with
                 | None => true
                 | Some local => m_lamport e >? m_lamport local
                 end in
    if apply then
      (<[m_id e := e]> ms, true,
       removed_self || (bool_decide (m_id e = local_id) && bool_decide (m_status e = Removed)))
    else acc.

Definition merge_member_list (local_id : string) (ms : gmap string MemberEntry)
    (incoming : list MemberEntry) : gmap string MemberEntry * bool * bool :=
  foldl (merge_member_step local_id) (ms, false, false) incoming.

(** The rows of the file, later ones winning. *)
Definition members_of_rows (rows : list MemberEntry) : gmap string MemberEntry :=
  foldl (λ ms e, <[m_id e := e]> ms) ∅ rows.

(** ** Invites in memory *)

(** The closure of [retain] in [consume_invite]: what is left and whether the
    secret was found. *)
Definition consume_step (now : Z) (hash : string) (invites : list PendingInvite)
  : list PendingInvite * bool :=
  (List.filter (λ i, (now <? expires_at_ms i) && bool_decide (secret_hash i ≠ hash)) invites,
   existsb (λ i, (now <? expires_at_ms i) && bool_decide (secret_hash i = hash)) invites).

Section Group.
Context {F : Type} `{FsOps F} `{GroupJson} (blake3 : string → string).

(** The prelude of both save functions. *)
Definition create_parent_dir (p : string) : M F () :=
  match path_parent p with Some parent => fs_create_dir_all parent | None => m_ret () end.

(** The comparison of [sort_by] on ids. *)
Definition member_le (a b : MemberEntry) : Prop := String.le (m_id a) (m_id b).

#[export] Instance member_le_dec a b : Decision (member_le a b).
Proof. unfold member_le. apply _. Defined.

Definition save_peers_file (p : string) (ms : list MemberEntry) : M F () :=
  (create_parent_dir p ;;
   json <- m_lift (ok_or OtherError (ser_peers (mkPeersFile None (merge_sort member_le ms)))) ;;
   write_atomic p json)%m.

(** [GroupState::replace]. *)
Definition replace_members (p : string) (ms : list MemberEntry) : M F () :=
  save_peers_file p ms.

Definition persist (g : GroupState) : M F () := save_peers_file (g_path g) (members g).

Definition load_or_init (p : string) (local_id : NodeId) : M F GroupState :=
  (let local_id := node_id_to_string local_id in
   r <- m_try (fs_read_to_string p) ;;
   loaded <- match r with
             | Ok contents => match de_peers contents with
                              | Some file => m_ret (members_of_rows (pf_members file))
                              | None => m_err OtherError
                              end
             | Err NotFound => m_ret ∅
             | Err e => m_err e
             end ;;
   let ms := match loaded !! local_id with
             | Some _ => loaded
             | None => <[local_id := mkMember local_id Active (next_lamport loaded)]> loaded
             end in
   let g := mkGroup p local_id ms in
   persist g ;;
   m_ret g)%m.

(** The operations on [&mut self]: the disk and the ledger. *)
Definition GW : Type := F * GroupState.

Definition g_fs {A} : M F A → M GW A := m_zoom fst (λ f w, (f, w.2)).
Definition g_get : M GW GroupState := m_gets snd.
Definition g_put (g : GroupState) : M GW () := m_modify (λ w, (w.1, g)).
Definition g_persist : M GW () := (g <- g_get ;; g_fs (persist g))%m.

Definition add_active_peer (peer : NodeId) : M GW bool :=
  (g <- g_get ;;
   match add_active_step peer g with
   | Some g => g_put g ;; g_persist ;; m_ret true
   | None => m_ret false
   end)%m.

Definition remove_peer (target : string) : M GW (option string) :=
  (g <- g_get ;;
   match find (λ e, bool_decide (m_id e = target)) (members g) with
   | None => m_ret None
   | Some found =>
       let id := m_id found in
       if decide (id = g_local_id g) then m_err OtherError
       else
         let l := next_lamport (g_members g) in
         let entry := default found (g_members g !! id) in
         g_put (set_members (<[id := mkMember (m_id entry) Removed l]> (g_members g)) g) ;;
         g_persist ;;
         m_ret (Some id)
   end)%m.

Definition merge_members (incoming : list MemberEntry) : M GW MemberMerge :=
  (g <- g_get ;;
   let '(ms, changed, removed_self) :=
     merge_member_list (g_local_id g) (g_members g) incoming in
   g_put (set_members ms g) ;;
   (if changed : bool then g_persist else m_ret ()) ;;
   g <- g_get ;;
   m_ret (mkMerge changed removed_self (active_peers g)))%m.

(** ** Invites *)

Definition hash_secret (secret : string) : string := hex (blake3 secret).

(** [now_ms]: milliseconds since the epoch, truncated to [u64]. *)
Definition now_ms : M F Z :=
  (now <- m_now ;;
   if now <? 0 then m_err OtherError else m_ret (wrap64 (now / 1000000)))%m.

Definition load_invites (p : string) : M F (list PendingInvite) :=
  (r <- m_try (fs_read_to_string p) ;;
   match r with
   | Ok contents => m_lift (ok_or OtherError (de_invites contents))
   | Err NotFound => m_ret []
   | Err e => m_err e
   end)%m.

Definition save_invites (p : string) (invites : list PendingInvite) : M F () :=
  (create_parent_dir p ;;
   json <- m_lift (ok_or OtherError (ser_invites invites)) ;;
   write_atomic p json)%m.

Definition add_invite (p secret : string) (expires : Z) : M F () :=
  (invites <- load_invites p ;;
   now <- now_ms ;;
   save_invites p
     (List.filter (λ i, now <? expires_at_ms i) invites ++ [mkInvite (hash_secret secret) expires]))%m.

Definition consume_invite (p secret : string) : M F bool :=
  (invites <- load_invites p ;;
   now <- now_ms ;;
   let '(remaining, found) := consume_step now (hash_secret secret) invites in
   (if (length remaining =? length invites)%nat then m_ret () else save_invites p remaining) ;;
   m_ret found)%m.

End Group.
