(* ===== verification/GroupProps.v ===== *)
(** * Properties of identities, tickets and the membership ledger *)

From stdpp Require Import countable.
From S2P Require Import Prelude Paths Bytes Utf8 Fs Identity Ticket Group.

(** Printing a node id and parsing it back is the identity,
    parsing only ever yields 32 bytes, and two ids print alike only when they
    are equal. *)
Theorem node_id_text (id id' : NodeId) (s : string)
    (Hlen : strlen id = 32%nat) (Hparse : node_id_from_str s = Ok id') :
  node_id_from_str (node_id_to_string id) = Ok id ∧
  strlen id' = 32%nat ∧
  (node_id_to_string id = node_id_to_string id' → id = id').
Proof.
  split_and!; [by apply node_id_round_trip|by eapply node_id_from_str_len|apply hex_inj].
Qed.

Lemma node_id_text_witness :
  node_id_from_str (node_id_to_string (be_bytes 32 7)) = Ok (be_bytes 32 7) ∧
  strlen (be_bytes 32 9) = 32%nat ∧
  (node_id_to_string (be_bytes 32 7) = node_id_to_string (be_bytes 32 9) →
   be_bytes 32 7 = be_bytes 32 9).
Proof.
  apply (node_id_text _ _ (node_id_to_string (be_bytes 32 9))).
  - reflexivity.
  - vm_compute. reflexivity.
Defined.

Lemma list_filter_all {A} (f : A → bool) l : Forall (λ x, f x = true) l → List.filter f l = l.
Proof. induction 1 as [|x l Hx _ IH]; simpl; [done|]. by rewrite Hx, IH. Qed.

(** A ticket that [encode_ticket] produces is read back
    by [parse_join_ticket] with the same issuer, secret (in hexadecimal) and
    endpoints. *)
Theorem ticket_round_trip (id secret_bytes ticket : string) (eps : list string)
    (Hid : strlen id = 32%nat) (Hsecret : strlen secret_bytes = 32%nat)
    (Heps : Forall (λ e, e ≠ "" ∧ contains ","%char e = false) eps)
    (Hutf8 : is_utf8 (join "," eps) = true)
    (Henc : encode_ticket id secret_bytes eps = Ok ticket) :
  parse_join_ticket ticket = Ok (mkTicket id (hex secret_bytes) eps).
Proof.
  unfold encode_ticket in Henc. destruct (Nat.ltb_spec MAX_TICKET_ENDPOINT_BYTES
    (strlen (join "," eps))) as [?|Hmax]; [done|]. injection Henc as <-.
  set (body := String (byte_of TICKET_VERSION) (id +:+ secret_bytes +:+ join "," eps)).
  assert (strlen body = 65 + strlen (join "," eps))%nat as Hlen.
  { unfold body. cbn [strlen]. rewrite !strlen_append. lia. }
  unfold parse_join_ticket. rewrite base62_round_trip; [|done|done|].
  2:{ rewrite Hlen. unfold TICKET_MAX_BYTES, TICKET_MIN_BYTES. lia. }
  destruct (Nat.ltb_spec (strlen body) TICKET_MIN_BYTES) as [Hlt|_];
    [unfold TICKET_MIN_BYTES in Hlt; lia|].
  assert (String.substring 0 1 body = String (byte_of TICKET_VERSION) "") as ->
    by (unfold body; simpl; by destruct (id +:+ _)).
  rewrite bool_decide_true by done. cbn [negb].
  assert (String.substring 1 32 body = id) as ->.
  { change (String.substring 0 32 (id +:+ secret_bytes +:+ join "," eps) = id).
    rewrite <-Hid at 1. apply substring_take. }
  assert (String.substring 33 32 body = secret_bytes) as ->.
  { change (String.substring 32 32 (id +:+ secret_bytes +:+ join "," eps) = secret_bytes).
    rewrite (substring_skip 32) by done. rewrite <-Hsecret at 1. apply substring_take. }
  assert (String.substring 65 (strlen body - 65) body = join "," eps) as ->.
  { replace (strlen body - 65)%nat with (strlen (join "," eps)) by lia.
    change (String.substring 64 (strlen (join "," eps)) (id +:+ secret_bytes +:+ join "," eps) =
            join "," eps).
    rewrite <-append_assoc, (substring_skip 64) by (rewrite strlen_append; lia).
    apply substring_all. }
  rewrite Hutf8. do 2 f_equal. destruct eps as [|e eps]; [done|].
  rewrite split_on_join; [|done|].
  - apply list_filter_all. apply (Forall_impl _ _ _ Heps). intros x [Hx _].
    by apply bool_decide_eq_true.
  - intros x Hx. by apply (proj1 (Forall_forall _ _) Heps x Hx).
Qed.

Definition sample_ticket : string :=
  match encode_ticket (be_bytes 32 7) (be_bytes 32 9) ["10.0.0.1:4400"; "[fd00::1]:4400"] with
  | Ok t => t | Err _ => "" end.

Lemma ticket_round_trip_witness :
  parse_join_ticket sample_ticket =
    Ok (mkTicket (be_bytes 32 7) (hex (be_bytes 32 9)) ["10.0.0.1:4400"; "[fd00::1]:4400"]).
Proof.
  apply ticket_round_trip.
  - reflexivity.
  - reflexivity.
  - repeat constructor; done.
  - vm_compute. reflexivity.
  - vm_compute. reflexivity.
Defined.

(** ** The ledger *)

(** [final] is the last writer among the local entry and the incoming ones. *)
Definition last_writer (incoming : list MemberEntry) (id : string)
    (local final : option MemberEntry) : Prop :=
  (∀ e, e ∈ incoming → m_id e = id → parse_ok id = true →
        ∃ f, final = Some f ∧ m_lamport e ≤ m_lamport f) ∧
  (∀ l, local = Some l → ∃ f, final = Some f ∧ m_lamport l ≤ m_lamport f) ∧
  (final = local ∨
   ∃ f, final = Some f ∧ f ∈ incoming ∧ m_id f = id ∧ parse_ok id = true ∧
        ∀ l, local = Some l → m_lamport l < m_lamport f).

Lemma last_writer_refl id local : last_writer [] id local local.
Proof.
  split_and!; [|by eauto with lia|by left]. intros e He. by apply elem_of_nil in He.
Qed.

Lemma merge_foldl_spec local_id incoming ms changed removed :
  let r := foldl (merge_member_step local_id) (ms, changed, removed) incoming in
  (∀ id, last_writer incoming id (ms !! id) (r.1.1 !! id)) ∧
  (r.1.2 = true ↔ changed = true ∨ r.1.1 ≠ ms).
Proof.
  revert ms changed removed. induction incoming as [|e incoming IH]; intros ms changed removed.
  { simpl. split; [intros id; apply last_writer_refl|]. naive_solver. }
  cbn [foldl].
  destruct (merge_member_step local_id (ms, changed, removed) e) as [[ms1 ch1] rm1] eqn:E.
  destruct (IH ms1 ch1 rm1) as [Hlw Hch]. cbv zeta in *.
  set (r := foldl _ _ _) in *. clearbody r. clear IH.
  assert ((ms1 = ms ∧ ch1 = changed ∧
           (parse_ok (m_id e) = true → ∃ l, ms !! m_id e = Some l ∧ m_lamport e ≤ m_lamport l)) ∨
          (ms1 = <[m_id e := e]> ms ∧ ch1 = true ∧ parse_ok (m_id e) = true ∧
           ∀ l, ms !! m_id e = Some l → m_lamport l < m_lamport e)) as Hstep.
  { unfold merge_member_step in E. destruct (parse_ok (m_id e)); simpl in E.
    - destruct (ms !! m_id e) as [l|] eqn:El.
      + rewrite Z.gtb_ltb in E. destruct (Z.ltb_spec (m_lamport l) (m_lamport e)); simplify_eq.
        * right. split_and!; [done..|]. intros l' [= <-]. done.
        * left. split_and!; [done..|]. eauto.
      + simplify_eq. right. done.
    - simplify_eq. left. done. }
  destruct Hstep as [(-> & -> & Hold)|(-> & -> & Hok & Hnew)].
  - split; [|done]. intros id. destruct (Hlw id) as (H1 & H2 & H3). split_and!; [|done|].
    + intros e' [->|He']%elem_of_cons Hid Hp; [|by apply H1].
      rewrite <-Hid in *. destruct (Hold Hp) as (l & Hl & Hle).
      destruct (H2 l Hl) as (f & Hf & Hle'). exists f. split; [done|lia].
    + destruct H3 as [H3|(f & ? & ? & ?)]; [by left|]. right. exists f.
      split_and!; [done|by right|naive_solver..].
  - split.
    + intros id. destruct (Hlw id) as (H1 & H2 & H3). destruct (decide (id = m_id e)) as [->|Hne].
      * rewrite lookup_insert_eq in *. destruct (H2 e eq_refl) as (f & Hf & Hle).
        split_and!.
        -- intros e' [->|He']%elem_of_cons Hid Hp; [by exists f|by apply H1].
        -- intros l Hl. exists f. split; [done|]. specialize (Hnew l Hl). lia.
        -- right. destruct H3 as [H3|(f' & Hf' & Hin & Hid & Hp & Hlt)].
           ++ exists e. rewrite H3. split_and!; [done|left|done|done|done].
           ++ exists f'. split_and!; [done|by right|done|done|]. intros l Hl.
              specialize (Hnew l Hl). specialize (Hlt e eq_refl). lia.
      * rewrite lookup_insert_ne in * by done. split_and!; [|done|].
        -- intros e' [->|He']%elem_of_cons Hid Hp; [done|by apply H1].
        -- destruct H3 as [H3|(f & ? & ? & ?)]; [by left|]. right. exists f.
           split_and!; [done|by right|naive_solver..].
    + rewrite Hch. split; [|by left]. intros _. right. intros Hr.
      destruct (Hlw (m_id e)) as (_ & H2 & _). rewrite lookup_insert_eq in H2.
      destruct (H2 e eq_refl) as (f & Hf & Hle). rewrite Hr in Hf.
      specialize (Hnew f Hf). lia.
Qed.


(** The ledgers a node builds: keyed by well-formed ids. *)
Definition ledger (ms : gmap string MemberEntry) : Prop :=
  map_Forall (λ id e, m_id e = id ∧ parse_ok id = true) ms.

(** Merging a whole ledger: at each id the winner is one of the two entries. *)
Lemma merge_two local_id ms1 ms2 id :
  ledger ms1 → ledger ms2 →
  let r := (merge_member_list local_id ms1 (btree_values ms2)).1.1 !! id in
  match ms1 !! id, ms2 !! id with
  | Some e1, Some e2 =>
      ∃ f, r = Some f ∧ (f = e1 ∨ f = e2) ∧ m_lamport e1 ≤ m_lamport f ∧ m_lamport e2 ≤ m_lamport f
  | Some e1, None => r = Some e1
  | None, e2 => r = e2
  end.
Proof.
  intros Hk1 Hk2.
  destruct (merge_foldl_spec local_id (btree_values ms2) ms1 false false) as [Hlw _].
  specialize (Hlw id). fold (merge_member_list local_id ms1 (btree_values ms2)) in Hlw.
  cbv zeta in *. set (r := _.1.1 !! id) in *. clearbody r. destruct Hlw as (H1 & H2 & H3).
  assert (∀ e, ms2 !! id = Some e → ∃ f, r = Some f ∧ m_lamport e ≤ m_lamport f) as H1'.
  { intros e He. destruct (Hk2 id e He) as [Hi Hp].
    apply H1; [apply elem_of_btree_values; by exists id|done|done]. }
  assert (r = ms1 !! id ∨ ∃ f, r = Some f ∧ ms2 !! id = Some f) as H3'.
  { destruct H3 as [?|(f & Hf & [k Hk]%elem_of_btree_values & Hid & _)]; [by left|].
    right. exists f. split; [done|]. destruct (Hk2 k f Hk) as [<- _]. by rewrite <-Hid. }
  clear H1 H3. destruct (ms1 !! id) as [e1|], (ms2 !! id) as [e2|].
  - destruct (H1' e2 eq_refl) as (f & Hf & Hle2), (H2 e1 eq_refl) as (f' & Hf' & Hle1).
    exists f. naive_solver.
  - destruct H3' as [?|(f & _ & ?)]; done.
  - destruct (H1' e2 eq_refl) as (f & Hf & _). naive_solver.
  - destruct H3' as [?|(f & _ & ?)]; done.
Qed.

(** C25. exchanged_members_agree: two nodes that merge each other's ledgers end
    with the same one, provided entries with equal ids and clocks are equal. *)
Theorem exchanged_members_agree (id1 id2 : string) (ms1 ms2 : gmap string MemberEntry)
    (Hkey1 : ledger ms1) (Hkey2 : ledger ms2)
    (Hties : ∀ id e1 e2, ms1 !! id = Some e1 → ms2 !! id = Some e2 →
               m_lamport e1 = m_lamport e2 → e1 = e2) :
  (merge_member_list id1 ms1 (btree_values ms2)).1.1 =
  (merge_member_list id2 ms2 (btree_values ms1)).1.1.
Proof.
  apply map_eq. intros id. pose proof (merge_two id1 ms1 ms2 id Hkey1 Hkey2) as A.
  pose proof (merge_two id2 ms2 ms1 id Hkey2 Hkey1) as B. specialize (Hties id). cbv zeta in *.
  destruct (ms1 !! id) as [e1|], (ms2 !! id) as [e2|]; [|congruence..].
  destruct A as (f & -> & Hf & ? & ?), B as (g & -> & Hg & ? & ?). f_equal.
  specialize (Hties e1 e2 eq_refl eq_refl).
  destruct Hf as [-> | ->], Hg as [-> | ->]; try done; [|symmetry]; apply Hties; lia.
Qed.

(** ** Removal *)

Lemma foldr_max_member_le l e :
  e ∈ l → m_lamport e ≤ foldr (λ e m, Z.max (m_lamport e) m) 0 l.
Proof.
  induction l as [|e' l IH]; [by intros ?%elem_of_nil|].
  intros [->|?%IH]%elem_of_cons; simpl; lia.
Qed.

Lemma foldr_max_member_bound l B :
  0 ≤ B → (∀ e, e ∈ l → m_lamport e ≤ B) →
  0 ≤ foldr (λ e m, Z.max (m_lamport e) m) 0 l ≤ B.
Proof.
  intros HB. induction l as [|e l IH]; intros Hall; simpl; [lia|].
  assert (m_lamport e ≤ B) by (apply Hall; left).
  assert (∀ e', e' ∈ l → m_lamport e' ≤ B) as Hl by (intros; apply Hall; by right).
  specialize (IH Hl). lia.
Qed.

(** The next clock is above every clock in the ledger, unless it wraps. *)
Lemma next_lamport_above ms id e B :
  0 ≤ B → B + 1 < u64_modulus → (∀ k x, ms !! k = Some x → m_lamport x ≤ B) →
  ms !! id = Some e → m_lamport e < next_lamport ms.
Proof.
  intros HB0 HB Hall He. unfold next_lamport.
  destruct (foldr_max_member_bound (btree_values ms) B HB0) as [H0 H1].
  { intros x [k Hk]%elem_of_btree_values. by eapply Hall. }
  assert (m_lamport e ≤ foldr (λ e m, Z.max (m_lamport e) m) 0 (btree_values ms))
    by (apply foldr_max_member_le, elem_of_btree_values; by exists id).
  rewrite add64_small; lia.
Qed.

Lemma g_persist_ledger {F} `{FsOps F} `{GroupJson} (w w' : GW (F:=F)) a :
  g_persist w = (w', Ok a) → w'.2 = w.2.
Proof.
  unfold g_persist, m_bind, g_get, m_gets, g_fs, m_zoom. simpl.
  destruct (persist _ _) as [f r]. by intros [= <- _].
Qed.

(** After [remove_peer] succeeds the member is not
    this node, is known but not active, and any node that knew it with a clock
    this ledger had seen drops it when it merges the new ledger; other members
    are untouched. *)
Theorem removed_member_stays_out {F : Type} `{FsOps F} `{GroupJson}
    (target id : string) (w w' : GW (F:=F)) (B : Z) (peer : gmap string MemberEntry)
    (peer_id : string)
    (Hrun : remove_peer target w = (w', Ok (Some id)))
    (Hledger : ledger (g_members w.2)) (Hpeer : ledger peer)
    (Hbound : 0 ≤ B ∧ B + 1 < u64_modulus ∧
              ∀ k x, g_members w.2 !! k = Some x → m_lamport x ≤ B)
    (Hknown : ∀ x, peer !! id = Some x → m_lamport x ≤ B ∧
                   m_lamport x < next_lamport (g_members w.2)) :
  id = target ∧ id ≠ g_local_id w.2 ∧
  (∃ e, g_members w'.2 !! id = Some e ∧ m_status e = Removed ∧
        ∀ k x, g_members w.2 !! k = Some x → m_lamport x < m_lamport e) ∧
  (∀ k, k ≠ id → g_members w'.2 !! k = g_members w.2 !! k) ∧
  (∃ e, (merge_member_list peer_id peer (btree_values (g_members w'.2))).1.1 !! id = Some e ∧
        m_status e = Removed).
Proof.
  destruct Hbound as (HB0 & HB & Hall). unfold remove_peer in Hrun.
  rewrite (m_bind_Ok g_get _ w w w.2) in Hrun by done.
  destruct (find _ (members w.2)) as [found|] eqn:Ef; [|done].
  apply find_some in Ef as [Hin Hid]. apply bool_decide_eq_true in Hid.
  apply list_elem_of_In, elem_of_btree_values in Hin as [k Hk].
  destruct (Hledger k found Hk) as [Hkf Hp]. rewrite Hid in Hkf, Hrun. subst k.
  case_decide as Hloc; [done|]. rewrite Hk in Hrun.
  change (default found (Some found)) with found in Hrun. rewrite ?Hid in Hrun.
  set (dead := mkMember target Removed (next_lamport (g_members w.2))) in *.
  set (g := set_members (<[target := dead]> (g_members w.2)) w.2) in *.
  rewrite (m_bind_Ok (g_put g) _ w (w.1, g) tt) in Hrun by done.
  apply m_bind_inv in Hrun as (w1 & [] & Hpers & Hret). injection Hret as <- <-.
  apply g_persist_ledger in Hpers. rewrite Hpers. simpl.
  assert (∀ k x, g_members w.2 !! k = Some x → m_lamport x < m_lamport dead) as Habove.
  { intros k x Hx. by eapply (next_lamport_above _ k x B). }
  split_and!; [done|done| | |].
  - exists dead. by rewrite lookup_insert_eq.
  - intros k Hne. by apply lookup_insert_ne.
  - assert (ledger (<[target := dead]> (g_members w.2))) as Hl' by by apply map_Forall_insert_2.
    pose proof (merge_two peer_id peer _ target Hpeer Hl') as Hm. cbv zeta in Hm.
    rewrite lookup_insert_eq in Hm. destruct (peer !! target) as [x|] eqn:Ex.
    + destruct Hm as (f & Hf & [->| ->] & Hle & Hle'); [|by exists dead].
      destruct (Hknown x eq_refl) as [_ Hlt]. simpl in Hle'. lia.
    + by exists dead.
Qed.

(** ** Invites *)

(** What the invite functions rely on: reading back what was atomically
    written, and JSON text that parses to what was printed. *)
Class ReadBack (F : Type) `{FsOps F} : Prop :=
  write_atomic_read p bytes s s' :
    write_atomic p bytes s = (s', Ok ()) → ∃ s'', fs_read p s' = (s'', Ok bytes).

Lemma consume_step_gone now now' hash invites :
  existsb (λ i, (now' <? expires_at_ms i) && bool_decide (secret_hash i = hash))
    (consume_step now hash invites).1 = false.
Proof.
  unfold consume_step. cbn [fst]. induction invites as [|i invites IH]; [done|].
  cbn [List.filter]. destruct (_ && bool_decide (secret_hash i ≠ hash)) eqn:E; [|done].
  apply andb_true_iff in E as [_ Hne]. apply bool_decide_eq_true in Hne.
  simpl. rewrite (bool_decide_false (secret_hash i = hash)), andb_false_r by done. exact IH.
Qed.

Lemma filter_length_lt {A} (f g : A → bool) l :
  existsb g l = true → (∀ x, g x = true → f x = false) →
  (length (List.filter f l) < length l)%nat.
Proof.
  intros Hex Hfg. induction l as [|x l IH]; [done|]. simpl in Hex |- *.
  pose proof (List.filter_length_le f l).
  destruct (g x) eqn:Eg; [rewrite (Hfg x Eg); lia|]. simpl in Hex. specialize (IH Hex).
  destruct (f x); simpl; lia.
Qed.

(** Having found the secret, [consume_invite] has saved what is left. *)
Lemma consume_invite_saves {F} `{FsOps F} `{GroupJson} blake3 p secret (s s1 : F) :
  consume_invite blake3 p secret s = (s1, Ok true) →
  ∃ s0 now invites,
    save_invites p (consume_step now (hash_secret blake3 secret) invites).1 s0 = (s1, Ok ()).
Proof.
  unfold consume_invite. intros Hrun.
  apply m_bind_inv in Hrun as (sa & invites & _ & Hrun).
  apply m_bind_inv in Hrun as (sb & now & _ & Hrun).
  exists sb, now, invites. revert Hrun.
  set (hash := hash_secret blake3 secret).
  assert ((consume_step now hash invites).2 = true →
    length (consume_step now hash invites).1 ≠ length invites) as Hlen.
  { intros Hf. apply Nat.lt_neq. eapply filter_length_lt; [exact Hf|].
    intros i [_ Hi%bool_decide_eq_true]%andb_true_iff.
    by rewrite (bool_decide_false (secret_hash i ≠ hash)), andb_false_r by naive_solver. }
  destruct (consume_step now hash invites) as [remaining found]. cbn [fst snd] in *.
  intros Hrun. apply m_bind_inv in Hrun as (sc & [] & Hsave & Hret). injection Hret as <- ->.
  destruct (Nat.eqb_spec (length remaining) (length invites)); [|done].
  by destruct Hlen.
Qed.

Lemma bind_ret_false {S A} (c : M S A) s :
  ∃ s' r, m_bind c (λ _, m_ret false) s = (s', r) ∧ r ≠ Ok true.
Proof. unfold m_bind. destruct (c s) as [s' [a|e]]; eauto. Qed.

(** C23. invite_used_once: a secret [consume_invite] has accepted is not accepted
    again, whatever happens to the clock in between. *)
Theorem invite_used_once {F : Type} `{FsOps F} `{GroupJson} (blake3 : string → string)
    (Hback : ReadBack F)
    (Hjson : ∀ l, ∃ j, ser_invites l = Some j ∧ is_utf8 j = true ∧ de_invites j = Some l)
    (p secret : string) (s s1 : F)
    (Hfirst : consume_invite blake3 p secret s = (s1, Ok true)) :
  ∃ s2 r, consume_invite blake3 p secret s1 = (s2, r) ∧ r ≠ Ok true.
Proof.
  apply consume_invite_saves in Hfirst as (s0 & now & invites & Hsave).
  set (remaining := (consume_step now (hash_secret blake3 secret) invites).1) in *.
  unfold save_invites in Hsave. apply m_bind_inv in Hsave as (sa & [] & _ & Hsave).
  destruct (Hjson remaining) as (j & Hser & Hutf8 & Hde). rewrite Hser in Hsave.
  destruct (Hback p j _ _ Hsave) as [sr Hread].
  assert (load_invites p s1 = (sr, Ok remaining)) as Hload.
  { unfold load_invites, fs_read_to_string, m_bind, m_try, m_lift. rewrite Hread.
    unfold utf8_or_invalid. rewrite Hutf8. simpl. by rewrite Hde. }
  unfold consume_invite. rewrite (m_bind_Ok _ _ _ _ _ Hload). unfold m_bind at 1.
  destruct (now_ms sr) as [sn [now'|e]]; [|by eauto].
  pose proof (consume_step_gone now now' (hash_secret blake3 secret) invites) as Hgone.
  fold remaining in Hgone. unfold consume_step. rewrite Hgone. apply bind_ret_false.
Qed.
