(* ===== verification/GroupWitness.v ===== *)
(** * The ledger theorems at concrete inputs

    A stand-in for [serde_json], and ledgers of two or three members on an
    in-memory file system. *)

From stdpp Require Import countable.
From S2P Require Import Prelude Paths Bytes Utf8 Fs Identity Ticket Group GroupProps Samples.

#[export] Instance MemberStatus_countable : Countable MemberStatus.
Proof.
  apply (inj_countable' (λ s, match s with Active => true | Removed => false end)
    (λ b : bool, if b then Active else Removed)). by intros [].
Defined.

#[export] Instance MemberEntry_countable : Countable MemberEntry.
Proof.
  apply (inj_countable' (λ e, (m_id e, m_status e, m_lamport e))
    (λ '(i, s, l), mkMember i s l)). by intros [].
Defined.

#[export] Instance PendingInvite_eq_dec : EqDecision PendingInvite.
Proof. solve_decision. Defined.

#[export] Instance PendingInvite_countable : Countable PendingInvite.
Proof.
  apply (inj_countable' (λ e, (secret_hash e, expires_at_ms e)) (λ '(h, x), mkInvite h x)).
  by intros [].
Defined.

#[export] Instance toy_json : GroupJson := {|
  ser_peers := λ f, count_ser (pf_members f);
  de_peers := λ s, mkPeersFile None <$> count_de s;
  ser_invites := count_ser;
  de_invites := count_de
|}.

Lemma toy_json_invites (l : list PendingInvite) :
  ∃ j, ser_invites l = Some j ∧ is_utf8 j = true ∧ de_invites j = Some l.
Proof.
  eexists. split; [reflexivity|]. split; [apply is_utf8_digits|].
  apply count_round_trip.
Qed.

#[export] Instance MemFs_read_back : ReadBack MemFs.t.
Proof.
  intros p bytes s s' Hrun. unfold write_atomic in Hrun.
  apply m_bind_inv in Hrun as (s1 & [] & Hw & Hr). simpl in Hw, Hr.
  unfold MemFs.write in Hw. unfold MemFs.rename in Hr.
  assert (MemFs.files s1 !! with_extension p "tmp" =
    Some (MemFs.MFile bytes 420 (MemFs.clock s))) as Htmp.
  { clear Hr. repeat case_match; simplify_eq; apply lookup_insert_eq. }
  rewrite Htmp in Hr.
  assert (s' = MemFs.set_files (λ m, <[p := MemFs.MFile bytes 420 (MemFs.clock s)]>
    (delete (with_extension p "tmp") m)) s1) as -> by (repeat case_match; simplify_eq; done).
  exists (MemFs.set_files (λ m, <[p := MemFs.MFile bytes 420 (MemFs.clock s)]>
    (delete (with_extension p "tmp") m)) s1).
  simpl. unfold MemFs.read. simpl. by rewrite lookup_insert_eq.
Qed.

Definition id1 : string := node_id_to_string (be_bytes 32 1).
Definition id2 : string := node_id_to_string (be_bytes 32 (10 * 2 ^ 248)).
Definition ledger_of (l : list MemberEntry) : gmap string MemberEntry :=
  list_to_map ((λ e, (m_id e, e)) <$> l).

Definition ledger1 : gmap string MemberEntry :=
  ledger_of [mkMember id1 Active 1; mkMember id2 Active 2].
Definition ledger2 : gmap string MemberEntry :=
  ledger_of [mkMember id1 Active 1; mkMember id2 Removed 5].

Definition ledgerb (ms : gmap string MemberEntry) : bool :=
  forallb (λ kv : string * MemberEntry, bool_decide (m_id kv.2 = kv.1) && parse_ok kv.1)
    (map_to_list ms).

Lemma ledgerb_sound ms : ledgerb ms = true → ledger ms.
Proof.
  unfold ledgerb. rewrite forallb_forall. intros Hall k e Hk.
  specialize (Hall (k, e)). rewrite andb_true_iff, bool_decide_eq_true in Hall.
  apply Hall, list_elem_of_In, elem_of_map_to_list, Hk.
Qed.

Lemma exchanged_members_agree_witness :
  (merge_member_list id1 ledger1 (btree_values ledger2)).1.1 =
  (merge_member_list id2 ledger2 (btree_values ledger1)).1.1.
Proof.
  apply exchanged_members_agree.
  - apply ledgerb_sound. vm_compute. reflexivity.
  - apply ledgerb_sound. vm_compute. reflexivity.
  - intros id e1 e2 H1 H2 Hl. unfold ledger1, ledger2, ledger_of in *. cbn [fmap list_fmap] in *.
    simpl in H1, H2. apply lookup_insert_Some in H1 as [[<- <-]|[Hne H1]].
    + by apply lookup_insert_Some in H2 as [[_ <-]|[? _]].
    + apply lookup_insert_Some in H2 as [[? _]|[_ H2]]; [done|].
      apply lookup_insert_Some in H1 as [[<- <-]|[Hne' H1]];
        [|by destruct (lookup_empty_Some _ _ H1)].
      apply lookup_insert_Some in H2 as [[_ <-]|[? _]]; done.
Defined.

Definition group_fs : MemFs.t :=
  MemFs.mk (list_to_map [("/", MemFs.MDir 493); ("/g", MemFs.MDir 493)]) (10 ^ 15).
Definition sample_group : GW (F:=MemFs.t) := (group_fs, mkGroup "/g/peers.json" id1 ledger1).

Lemma removed_member_stays_out_witness :
  let w' := (remove_peer id2 sample_group).1 in
  id2 = id2 ∧ id2 ≠ g_local_id sample_group.2 ∧
  (∃ e, g_members w'.2 !! id2 = Some e ∧ m_status e = Removed ∧
        ∀ k x, g_members sample_group.2 !! k = Some x → m_lamport x < m_lamport e) ∧
  (∀ k, k ≠ id2 → g_members w'.2 !! k = g_members sample_group.2 !! k) ∧
  (∃ e, (merge_member_list id1 ledger1 (btree_values (g_members w'.2))).1.1 !! id2 = Some e ∧
        m_status e = Removed).
Proof.
  apply (removed_member_stays_out id2 id2 sample_group _ 2).
  - vm_compute. reflexivity.
  - apply ledgerb_sound. vm_compute. reflexivity.
  - apply ledgerb_sound. vm_compute. reflexivity.
  - split; [discriminate|]. split; [reflexivity|].
    intros k x Hx. change (g_members sample_group.2) with ledger1 in Hx.
    assert (map_Forall (λ _ e, m_lamport e ≤ 2) ledger1) as Hall
      by (apply (bool_decide_unpack _); vm_compute; exact I).
    by apply (Hall k x).
  - intros x Hx. assert (ledger1 !! id2 = Some (mkMember id2 Active 2)) as E
      by (vm_compute; reflexivity).
    rewrite E in Hx. injection Hx as <-. split; [discriminate|]. vm_compute. reflexivity.
Defined.

Definition toy_hash (s : string) : string := be_bytes 4 (Z.of_nat (strlen s)).
Definition invited : MemFs.t := (add_invite toy_hash "/g/invites.json" "secret" (10 ^ 12) group_fs).1.
Definition invite_consumed := consume_invite toy_hash "/g/invites.json" "secret" invited.

Lemma invite_used_once_witness :
  ∃ s2 r, consume_invite toy_hash "/g/invites.json" "secret" invite_consumed.1 = (s2, r) ∧
          r ≠ Ok true.
Proof.
  apply (invite_used_once toy_hash MemFs_read_back toy_json_invites "/g/invites.json" "secret"
    invited).
  vm_compute. reflexivity.
Defined.

(** ** A member under two names *)

(** The same id, its first digit written as a sign: ["+a"] for ["0a"]. *)
Definition alias_id : string := String "+" (String.substring 1 63 id2).

Definition aliased_rows : list MemberEntry := [mkMember id2 Active 2; mkMember alias_id Active 2].

(** Ids are compared as text but parsed leniently.  A
    member list that spells one id in two ways is accepted, and after the
    member is removed it is no longer an active member for access control, yet
    is still among the active peers this node connects to. *)
Theorem removed_member_alias :
  ∃ (w w' : GW (F:=MemFs.t)) (m : MemberMerge) (peer : NodeId),
    merge_members aliased_rows sample_group = (w, Ok m) ∧
    remove_peer (node_id_to_string peer) w = (w', Ok (Some (node_id_to_string peer))) ∧
    is_active_member w'.2 peer = false ∧
    peer ∈ active_peers w'.2.
Proof.
  exists (merge_members aliased_rows sample_group).1,
    (remove_peer id2 (merge_members aliased_rows sample_group).1).1,
    (mkMerge true false [be_bytes 32 (10 * 2 ^ 248); be_bytes 32 (10 * 2 ^ 248)]),
    (be_bytes 32 (10 * 2 ^ 248)).
  split_and!; [vm_compute; reflexivity..|].
  apply (bool_decide_unpack _). vm_compute. exact I.
Qed.
