(* ===== verification/Endpoints.v ===== *)
(** * The endpoint address book: [src/src/endpoints.rs]

    A map from node ids to the [host:port] endpoints a peer may be reached at.
    The addresses a node advertises for itself are in [Addresses]. *)

From stdpp Require Import pretty.
From S2P Require Import Prelude Paths Bytes Utf8 Fs Ignore Decimal Identity.

Definition ENDPOINTS_FILE : string := "endpoints.json".
Definition PORT_FILE : string := "port".
Definition MAX_ENDPOINTS_PER_PEER : nat := 8.

Record PeerInfo : Set := mkPeerInfo {
  pi_endpoints : list string;
  pi_name : option string
}.

#[export] Instance PeerInfo_eq_dec : EqDecision PeerInfo.
Proof. solve_decision. Defined.

(** The address book: keys are the 32 bytes of a [NodeId]. *)
Abbreviation AddressBook := (gmap string PeerInfo) (only parsing).

(** [serde_json] on the map by printed id; a [HashMap] is listed in some order. *)
Class BookJson := {
  ser_book : list (string * PeerInfo) → option string;
  de_book : string → option (list (string * PeerInfo))
}.

(** The loop of [merge_peer_endpoints]. *)
Definition push_endpoint (merged : list string) (e : string) : list string :=
  if bool_decide (e ∉ merged) && (length merged <? MAX_ENDPOINTS_PER_PEER)%nat
  then merged ++ [e] else merged.

Definition merged_endpoints (seen : option string) (advertised : list string) : list string :=
  foldl push_endpoint [] (option_list seen ++ advertised).

Definition merge_peer_endpoints (book : AddressBook) (peer : NodeId) (seen : option string)
    (advertised : list string) (name : option string) : AddressBook * bool :=
  let merged := merged_endpoints seen advertised in
  match merged with
  | [] => (book, false)
  | _ =>
      match book !! peer with
      | Some info =>
          if bool_decide (pi_endpoints info = merged) && bool_decide (pi_name info = name)
          then (book, false)
          else (<[peer := mkPeerInfo merged name]> book, true)
      | None => (<[peer := mkPeerInfo merged name]> book, true)
      end
  end.

Section Book.
Context {F : Type} `{FsOps F} `{BookJson}.

Definition load_address_book (state_dir : string) : M F AddressBook :=
  (r <- m_try (fs_read_to_string (path_join state_dir ENDPOINTS_FILE)) ;;
   m_ret (match r with
          | Err _ => ∅
          | Ok contents =>
              match de_book contents with
              | None => ∅
              | Some rows =>
                  foldl (λ book row, match node_id_from_str row.1 with
                                     | Ok id => <[id := row.2]> book
                                     | Err _ => book
                                     end) ∅ rows
              end
          end))%m.

Definition save_address_book (state_dir : string) (book : AddressBook) : M F () :=
  (json <- m_lift (ok_or OtherError
             (ser_book ((λ row, (node_id_to_string row.1, row.2)) <$> map_to_list book))) ;;
   let p := path_join state_dir ENDPOINTS_FILE in
   let tmp := path_join state_dir (ENDPOINTS_FILE +:+ ".tmp") in
   fs_write tmp json ;; fs_rename tmp p)%m.

Definition load_port (state_dir : string) : M F (option Z) :=
  (r <- m_try (fs_read_to_string (path_join state_dir PORT_FILE)) ;;
   m_ret (match r with Ok s => parse_u16 (trim s) | Err _ => None end))%m.

Definition save_port (state_dir : string) (port : Z) : M F () :=
  fs_write (path_join state_dir PORT_FILE) (pretty port).

End Book.

(** ** Merging *)

Lemma push_endpoint_foldl l merged :
  NoDup merged → (length merged ≤ MAX_ENDPOINTS_PER_PEER)%nat →
  let r := foldl push_endpoint merged l in
  NoDup r ∧ (length r ≤ MAX_ENDPOINTS_PER_PEER)%nat ∧ merged `prefix_of` r ∧
  (∀ e, e ∈ r → e ∈ merged ∨ e ∈ l) ∧
  ((length r < MAX_ENDPOINTS_PER_PEER)%nat → ∀ e, e ∈ l → e ∈ r).
Proof.
  revert merged. induction l as [|x l IH]; intros merged Hnd Hlen.
  { cbn. split_and!; [done|done|done|by left|]. intros _ e He. by apply elem_of_nil in He. }
  cbn [foldl]. destruct (IH (push_endpoint merged x)) as (H1 & H2 & H3 & H4 & H5).
  - unfold push_endpoint. destruct (bool_decide _ && _) eqn:E; [|done].
    apply andb_true_iff in E as [Hx%bool_decide_eq_true _].
    apply NoDup_app. split_and!; [done| |apply NoDup_singleton]. set_solver.
  - unfold push_endpoint. destruct (bool_decide _ && _) eqn:E; [|done].
    apply andb_true_iff in E as [_ Hl%Nat.ltb_lt]. rewrite length_app. simpl. lia.
  - cbv zeta in *. set (r := foldl push_endpoint _ l) in *. clearbody r. split_and!; [done|done| | |].
    + etrans; [|exact H3]. unfold push_endpoint. destruct (_ && _); [|done].
      by apply prefix_app_r.
    + intros e [He|He]%H4; [|right; by right].
      unfold push_endpoint in He. destruct (_ && _); [|by left].
      apply elem_of_app in He as [?|He]; [by left|]. apply list_elem_of_singleton in He as ->.
      right. left.
    + intros Hr e [->|He]%elem_of_cons; [|by apply H5].
      assert (x ∈ push_endpoint merged x) as Hx.
      { unfold push_endpoint. destruct (decide (x ∈ merged)) as [Hin|Hin].
        - rewrite bool_decide_false; [done|]. intros Hn. by apply Hn.
        - rewrite bool_decide_true by done.
          assert (length merged < MAX_ENDPOINTS_PER_PEER)%nat as Hm.
          { eapply Nat.le_lt_trans; [|exact Hr]. apply prefix_length. etrans; [|exact H3].
            unfold push_endpoint. destruct (_ && _); [by apply prefix_app_r|done]. }
          apply Nat.ltb_lt in Hm as ->. simpl. apply elem_of_app. right. left. }
      by eapply elem_of_prefix.
Qed.

(** Merging keeps at most eight different
    endpoints for a peer, the observed address first, all of them observed or
    advertised and all of those if there is room; it reports a change exactly
    when the book changes, and never touches another peer. *)
Theorem merge_peer_endpoints_spec (book : AddressBook) (peer : NodeId)
    (seen : option string) (advertised : list string) (name : option string) :
  let r := merge_peer_endpoints book peer seen advertised name in
  let merged := merged_endpoints seen advertised in
  NoDup merged ∧ (length merged ≤ 8)%nat ∧
  (∀ e, e ∈ merged → seen = Some e ∨ e ∈ advertised) ∧
  (∀ e, seen = Some e → head merged = Some e) ∧
  ((length merged < 8)%nat → ∀ e, e ∈ advertised → e ∈ merged) ∧
  (r.2 = true ↔ r.1 ≠ book) ∧
  (merged ≠ [] → r.1 !! peer = Some (mkPeerInfo merged name)) ∧
  (merged = [] → r.1 = book) ∧
  (∀ q, q ≠ peer → r.1 !! q = book !! q).
Proof.
  intros r merged.
  destruct (push_endpoint_foldl (option_list seen ++ advertised) [] (NoDup_nil_2)
    (Nat.le_0_l _)) as (H1 & H2 & _ & H4 & H5).
  fold merged in H1, H2, H4, H5. split_and!; [done|done| | | | | | |].
  - intros e [He|He]%H4; [by apply elem_of_nil in He|].
    apply elem_of_app in He as [He|?]; [|by right]. destruct seen as [s|]; [|by apply elem_of_nil in He].
    apply list_elem_of_singleton in He as ->. by left.
  - intros e ->. unfold merged, merged_endpoints. 
    change (head (foldl push_endpoint [e] advertised) = Some e).
    destruct (push_endpoint_foldl advertised [e] (NoDup_singleton e)) as (_ & _ & [k Hk] & _);
      [unfold MAX_ENDPOINTS_PER_PEER; simpl; lia|]. by rewrite Hk.
  - intros Hlt e He. apply H5; [done|]. apply elem_of_app. by right.
  - unfold r, merge_peer_endpoints. fold merged. destruct merged as [|x m] eqn:Em; [done|].
    destruct (book !! peer) as [info|] eqn:Eb.
    + destruct (bool_decide (pi_endpoints info = x :: m) && bool_decide (pi_name info = name)) eqn:E;
        [done|]. simpl. split; [|done]. intros _ Heq.
      rewrite <-Heq, lookup_insert_eq in Eb. injection Eb as <-. simpl in E.
      by rewrite !bool_decide_true in E.
    + simpl. split; [|done]. intros _ Heq. rewrite <-Heq, lookup_insert_eq in Eb. done.
  - unfold r, merge_peer_endpoints. fold merged. destruct merged as [|x m] eqn:Em; [done|].
    intros _. destruct (book !! peer) as [info|] eqn:Eb; [|apply lookup_insert_eq].
    destruct (_ && _) eqn:E; [|apply lookup_insert_eq]. simpl. rewrite Eb.
    apply andb_true_iff in E as [<-%bool_decide_eq_true <-%bool_decide_eq_true].
    by destruct info.
  - unfold r, merge_peer_endpoints. fold merged. by intros ->.
  - intros q Hq. unfold r, merge_peer_endpoints. fold merged. destruct merged; [done|].
    destruct (book !! peer); [destruct (_ && _); [done|]|]; by apply lookup_insert_ne.
Qed.
