(* ===== verification/Addresses.v ===== *)
(** * Socket addresses: the rest of [src/src/endpoints.rs]

    [IpAddr] and its printing follow the standard library.  The interfaces of
    the host come from a third-party package and are an argument. *)

From stdpp Require Import pretty.
From S2P Require Import Prelude Paths Bytes Utf8 Endpoints.

(** [std::net::IpAddr]: four octets, or eight 16-bit segments. *)
Inductive IpAddr : Set :=
  | V4 (octets : list Z)
  | V6 (segments : list Z).

#[export] Instance IpAddr_eq_dec : EqDecision IpAddr.
Proof. solve_decision. Defined.

Definition is_ipv6 (ip : IpAddr) : bool := match ip with V4 _ => false | V6 _ => true end.
Definition is_loopback (ip : IpAddr) : bool :=
  match ip with
  | V4 o => bool_decide (head o = Some 127)
  | V6 s => bool_decide (s = [0; 0; 0; 0; 0; 0; 0; 1])
  end.
Definition is_unspecified (ip : IpAddr) : bool :=
  match ip with
  | V4 o => bool_decide (o = [0; 0; 0; 0])
  | V6 s => bool_decide (s = [0; 0; 0; 0; 0; 0; 0; 0])
  end.

(** ** Printing *)

(** [{:x}] of a [u16]. *)
Definition hex_u16 (n : Z) : string :=
  let d i := String (hex_digit (n / 16 ^ i mod 16)) "" in
  (if 4096 <=? n then d 3 else "") +:+ (if 256 <=? n then d 2 else "") +:+
  (if 16 <=? n then d 1 else "") +:+ d 0.

Definition show_v4 (octets : list Z) : string := join "." (pretty <$> octets).

(** The first longest run of zero segments, as its start and length: [cur] is
    the run that ends at the current index, [best] the longest so far. *)
Fixpoint zero_run (i : nat) (cur best : nat * nat) (segments : list Z) : nat * nat :=
  match segments with
  | [] => best
  | s :: segments =>
      let cur := if s =? 0 then (if (snd cur =? 0)%nat then (i, 1)%nat else (fst cur, S (snd cur)))
                 else (0, 0)%nat in
      zero_run (S i) cur (if (snd best <? snd cur)%nat then cur else best) segments
  end.

Definition show_v6 (segments : list Z) : string :=
  match segments with
  | [0; 0; 0; 0; 0; 65535; ab; cd] =>
      "::ffff:" +:+ show_v4 [ab / 256; ab mod 256; cd / 256; cd mod 256]
  | _ =>
      let '(start, len) := zero_run 0 (0, 0)%nat (0, 0)%nat segments in
      if (1 <? len)%nat
      then join ":" (hex_u16 <$> take start segments) +:+ "::" +:+
           join ":" (hex_u16 <$> drop (start + len) segments)
      else join ":" (hex_u16 <$> segments)
  end.

Definition format_endpoint (ip : IpAddr) (port : Z) : string :=
  match ip with
  | V4 o => show_v4 o +:+ ":" +:+ pretty port
  | V6 s => "[" +:+ show_v6 s +:+ "]:" +:+ pretty port
  end.

(** ** What this node advertises *)

(** The interface addresses that are advertised. *)
Definition usable (ip : IpAddr) : bool :=
  negb (is_loopback ip) && negb (is_unspecified ip) &&
  match ip with
  | V4 _ => true
  | V6 s => negb (Z.land (default 0 (head s)) 65472 =? 65152)
  end.

(** [Vec::dedup]. *)
Definition dedup {A} `{EqDecision A} (l : list A) : list A :=
  dedup_by (λ a b, bool_decide (a = b)) l.

(** [local_endpoints]; [None] when the interfaces cannot be listed. *)
Definition local_endpoints (interfaces : option (list IpAddr)) (port : Z) : list string :=
  let addrs := List.filter usable (default [] interfaces) in
  let addrs := List.filter (λ ip, negb (is_ipv6 ip)) addrs ++ List.filter is_ipv6 addrs in
  (λ ip, format_endpoint ip port) <$> take MAX_ENDPOINTS_PER_PEER (dedup addrs).

(** ** The text of an endpoint

    The endpoints a node detects are printable ASCII without a comma, so a
    ticket that lists them is read back as it was written. *)

(** Printable, and not a comma. *)
Definition endpoint_char (a : ascii) : bool :=
  (33 <=? byte_val a) && (byte_val a <=? 126) && negb (byte_val a =? 44).

Lemma no_comma s : str_all endpoint_char s = true → contains ","%char s = false.
Proof.
  induction s as [|a s IH]; [done|]. simpl. intros [Ha Hs]%andb_true_iff. rewrite IH by done.
  rewrite orb_false_r. apply bool_decide_eq_false. intros ->. by vm_compute in Ha.
Qed.

(** ASCII is UTF-8. *)
Lemma ascii_utf8 s : str_all (in_range 0 127) s = true → is_utf8 s = true.
Proof.
  assert (∀ n s, (strlen s ≤ n)%nat → str_all (in_range 0 127) s = true →
    forallb fst (utf8_chunks_fuel n s) = true) as Hf; [|by apply Hf].
  clear s. induction n as [|n IH]; intros [|a s] Hn Hs; try done. simpl in Hn.
  simpl in Hs. apply andb_true_iff in Hs as [Ha Hs]. cbn [utf8_chunks_fuel]. unfold utf8_next.
  rewrite Ha. simpl. apply IH; [lia|done].
Qed.

(** ** Numbers *)

Lemma endpoint_char_digit x : endpoint_char (pretty_N_char x) = true.
Proof. unfold pretty_N_char. by repeat case_match. Qed.

Lemma str_all_pretty_N_go x s :
  str_all endpoint_char s = true → str_all endpoint_char (pretty_N_go x s) = true.
Proof.
  revert s. induction (N.lt_wf_0 x) as [x _ IH]. intros s Hs.
  destruct (decide (x = 0)%N) as [->|Hx]; [by rewrite pretty_N_go_0|].
  rewrite pretty_N_go_step by lia. apply IH; [apply N.div_lt; lia|].
  simpl. by rewrite endpoint_char_digit.
Qed.

Lemma str_all_pretty (z : Z) : str_all endpoint_char (pretty z) = true.
Proof.
  assert (∀ n : N, str_all endpoint_char (pretty n) = true) as HN.
  { intros n. unfold pretty, pretty_N. case_decide; [done|]. by apply str_all_pretty_N_go. }
  destruct z as [|p|p]; [done|apply HN|]. unfold pretty, pretty_Z.
  rewrite str_all_app. apply andb_true_iff. split; [done|apply HN].
Qed.

Lemma str_all_hex_digit n : endpoint_char (hex_digit (n mod 16)) = true.
Proof.
  pose proof (Z.mod_pos_bound n 16 ltac:(lia)). unfold hex_digit, endpoint_char.
  rewrite byte_val_of, Z.mod_small by (case_match; lia).
  case_match eqn:E; [apply Z.ltb_lt in E|apply Z.ltb_ge in E];
    rewrite !andb_true_iff, negb_true_iff, Z.eqb_neq, !Z.leb_le; lia.
Qed.

Lemma str_all_hex_u16 n : str_all endpoint_char (hex_u16 n) = true.
Proof.
  unfold hex_u16. rewrite !str_all_app.
  repeat case_match; simpl; rewrite ?str_all_hex_digit; done.
Qed.

Lemma str_all_v4 octets : str_all endpoint_char (show_v4 octets) = true.
Proof.
  apply str_all_join; [done|]. intros x (z & -> & _)%list_elem_of_fmap. apply str_all_pretty.
Qed.

Lemma str_all_segments l : str_all endpoint_char (join ":" (hex_u16 <$> l)) = true.
Proof.
  apply str_all_join; [done|]. intros x (z & -> & _)%list_elem_of_fmap. apply str_all_hex_u16.
Qed.

Lemma str_all_v6 segments : str_all endpoint_char (show_v6 segments) = true.
Proof.
  unfold show_v6. destruct (zero_run 0 _ _ segments) as [start len].
  assert (str_all endpoint_char (if (1 <? len)%nat
    then join ":" (hex_u16 <$> take start segments) +:+ "::" +:+ join ":" (hex_u16 <$> drop (start + len) segments)
    else join ":" (hex_u16 <$> segments)) = true) as Hgen.
  { case_match; [|apply str_all_segments]. by rewrite !str_all_app, !str_all_segments. }
  repeat first [exact Hgen
    | match goal with |- str_all _ (match ?x with _ => _ end) = _ => destruct x end].
  by rewrite str_all_app, str_all_v4.
Qed.

Lemma format_endpoint_text ip port :
  str_all endpoint_char (format_endpoint ip port) = true ∧ format_endpoint ip port ≠ "".
Proof.
  assert (∀ s t, s +:+ ":" +:+ t ≠ "") as Hne by (intros [|a s] t; done).
  destruct ip as [o|s]; simpl.
  - rewrite !str_all_app, str_all_v4, str_all_pretty. split; [done|apply Hne].
  - split; [|done]. change (str_all endpoint_char ("[" +:+ show_v6 s +:+ "]:" +:+ pretty port) = true).
    by rewrite !str_all_app, str_all_v6, str_all_pretty.
Qed.

Lemma local_endpoints_text interfaces port e :
  e ∈ local_endpoints interfaces port → str_all endpoint_char e = true ∧ e ≠ "".
Proof. intros (ip & -> & _)%list_elem_of_fmap. apply format_endpoint_text. Qed.
