(* ===== verification/Transport.v ===== *)
(** * The encrypted transport: [src/src/transport.rs]

    Length-prefixed encrypted frames over a byte stream, blobs of many frames,
    and the Ed25519 authentication that follows the Noise handshake.  The Noise
    protocol (the [snow] crate), the signatures and JSON are parameters.  A
    connection holds the bytes still to be read, the bytes written, the cipher
    state and the buffer of decrypted bytes; a read at the end of the input
    fails with [UnexpectedEof], as on a closed socket. *)

From S2P Require Import Prelude Paths Bytes Utf8 Identity.

Definition MAX_HANDSHAKE_BYTES : Z := 4096.
Definition MAX_BLOB_BYTES : Z := 16 * 1024 * 1024.
Definition MAX_PLAINTEXT_CHUNK : Z := 16 * 1024.
Definition MAX_CIPHERTEXT_CHUNK : Z := MAX_PLAINTEXT_CHUNK + 16.

Definition slen (s : string) : Z := Z.of_nat (strlen s).

(** [snow]: handshake states and transport states. *)
Class Noise (N HS : Type) := {
  hs_initiator : option HS;
  hs_responder : option HS;
  hs_write : HS → option (string * HS);
  hs_read : HS → string → option HS;
  hs_hash : HS → string;
  hs_transport : HS → option N;
  noise_write : N → string → option (string * N);
  noise_read : N → string → option (string * N)
}.

(** The two halves of a session: what one writes the other reads, in order. *)
Class NoisePaired (N HS : Type) `{Noise N HS} (paired : N → N → Prop) : Prop := {
  paired_write a b m :
    paired a b → slen m ≤ MAX_PLAINTEXT_CHUNK → is_Some (noise_write a m);
  paired_read a b m c a' :
    paired a b → noise_write a m = Some (c, a') →
    slen c = slen m + 16 ∧ ∃ b', noise_read b c = Some (m, b') ∧ paired a' b'
}.

Record AuthPayload : Set := mkAuth { ap_node_id : string; ap_signature : string }.

Class AuthJson := {
  ser_auth : AuthPayload → option string;
  de_auth : string → option AuthPayload
}.

(** [TcpStream]: [stalled] says that the peer lets the timeout pass. *)
Record Stream : Set := mkStream { inp : string; outp : string; stalled : bool }.

Record Conn (N : Type) : Type := mkConn {
  stream : Stream;
  noise : N;
  conn_peer : NodeId;
  read_buf : string
}.
Arguments mkConn {N} _ _ _ _.
Arguments stream {N} _.
Arguments noise {N} _.
Arguments conn_peer {N} _.
Arguments read_buf {N} _.

(** ** Frames *)

Definition stream_read (n : nat) : M Stream string :=
  λ s, if (strlen (inp s) <? n)%nat then (mkStream "" (outp s) (stalled s), Err UnexpectedEof)
       else (mkStream (str_drop n (inp s)) (outp s) (stalled s), Ok (str_take n (inp s))).

Definition stream_write (bytes : string) : M Stream () :=
  λ s, (mkStream (inp s) (outp s +:+ bytes) (stalled s), Ok ()).

(** [write_u32] is big-endian; the length is truncated to 32 bits. *)
Definition write_plain_frame (bytes : string) : M Stream () :=
  (stream_write (be32 (slen bytes)) ;; stream_write bytes)%m.

Definition read_plain_frame (max_len : Z) : M Stream string :=
  (header <- stream_read 4 ;;
   let len := be_value header in
   if len >? max_len then m_err InvalidData else stream_read (Z.to_nat len))%m.

Definition read_plain_frame_timeout (max_len : Z) : M Stream string :=
  λ s, if stalled s then (s, Err TimedOut) else read_plain_frame max_len s.

Section Transport.
Context {N HS : Type} `{Noise N HS} `{Ed25519} `{AuthJson}.

Definition on_stream {A} : M Stream A → M (Conn N) A :=
  m_zoom stream (λ s c, mkConn s (noise c) (conn_peer c) (read_buf c)).
Definition set_noise (n : N) : M (Conn N) () :=
  m_modify (λ c, mkConn (stream c) n (conn_peer c) (read_buf c)).
Definition set_buf (b : string) : M (Conn N) () :=
  m_modify (λ c, mkConn (stream c) (noise c) (conn_peer c) b).

(** ** Chunks *)

Definition send_plain_chunk (chunk : string) : M (Conn N) () :=
  (if slen chunk >? MAX_PLAINTEXT_CHUNK then m_err InvalidInput
   else
     n <- m_gets noise ;;
     match noise_write n chunk with
     | None => m_err OtherError
     | Some (encrypted, n) => set_noise n ;; on_stream (write_plain_frame encrypted)
     end)%m.

Definition recv_plain_chunk : M (Conn N) string :=
  (encrypted <- on_stream (read_plain_frame MAX_CIPHERTEXT_CHUNK) ;;
   n <- m_gets noise ;;
   match noise_read n encrypted with
   | None => m_err OtherError
   | Some (plain, n) => set_noise n ;; m_ret plain
   end)%m.

(** [recv_plain_exact]: the bytes that fill the buffer.  Every round but the
    first consumes a frame, so the input's length bounds the rounds. *)
Fixpoint recv_exact_loop (fuel need : nat) : M (Conn N) string :=
  match need with
  | O => m_ret ""
  | _ =>
      match fuel with
      | O => m_err OtherError
      | S fuel =>
          (buf <- m_gets read_buf ;;
           (if decide (buf = "") then chunk <- recv_plain_chunk ;; set_buf chunk else m_ret ()) ;;
           buf <- m_gets read_buf ;;
           let take := Nat.min need (strlen buf) in
           set_buf (str_drop take buf) ;;
           rest <- recv_exact_loop fuel (need - take) ;;
           m_ret (str_take take buf +:+ rest))%m
      end
  end.

Definition recv_plain_exact (need : nat) : M (Conn N) string :=
  λ c, recv_exact_loop (S (S (strlen (inp (stream c))))) need c.

(** ** Blobs *)

(** [bytes.chunks(n)]. *)
Fixpoint chunks_fuel (fuel n : nat) (s : string) : list string :=
  match fuel, s with
  | _, "" | O, _ => []
  | S fuel, _ => str_take n s :: chunks_fuel fuel n (str_drop n s)
  end.
Definition str_chunks (n : nat) (s : string) : list string := chunks_fuel (strlen s) n s.

Definition send_blob (bytes : string) : M (Conn N) () :=
  (if slen bytes >? MAX_BLOB_BYTES then m_err InvalidInput
   else
     send_plain_chunk (be64 (slen bytes)) ;;
     m_for (str_chunks (Z.to_nat MAX_PLAINTEXT_CHUNK) bytes) send_plain_chunk)%m.

Definition recv_blob (max_len : Z) : M (Conn N) string :=
  (len_buf <- recv_plain_exact 8 ;;
   let len := be_value len_buf in
   if len >? max_len then m_err InvalidData else recv_plain_exact (Z.to_nat len))%m.

(** [send_json], [recv_json] at a type with its codec. *)
Definition send_json {T} (ser : T → option string) (value : T) : M (Conn N) () :=
  (bytes <- m_lift (ok_or OtherError (ser value)) ;; send_blob bytes)%m.
Definition recv_json {T} (de : string → option T) : M (Conn N) T :=
  (bytes <- recv_blob MAX_BLOB_BYTES ;; m_lift (ok_or OtherError (de bytes)))%m.

(** ** Authentication *)

Definition auth_message (id : NodeId) (handshake_hash : string) : string :=
  "lilsync-noise-auth-v1" +:+ id +:+ handshake_hash.

Definition send_auth (i : Identity) (handshake_hash : string) : M (Conn N) () :=
  let message := auth_message (node_id i) handshake_hash in
  send_json ser_auth (mkAuth (node_id_to_string (node_id i)) (sign i message)).

Definition recv_auth (handshake_hash : string) : M (Conn N) NodeId :=
  (payload <- recv_json de_auth ;;
   id <- m_lift (node_id_from_str (ap_node_id payload)) ;;
   if negb (strlen (ap_signature payload) =? 64)%nat then m_err InvalidData
   else
     m_lift (node_id_verify id (auth_message id handshake_hash) (ap_signature payload)) ;;
     m_ret id)%m.

(** ** Connecting *)

Definition lift_opt {A} (o : option A) : M Stream A := m_lift (ok_or OtherError o).

(** The handshake of [connect], up to the transport mode. *)
Definition initiator_handshake : M Stream (string * N) :=
  (hs <- lift_opt hs_initiator ;;
   out <- lift_opt (hs_write hs) ;;
   write_plain_frame out.1 ;;
   msg <- read_plain_frame_timeout MAX_HANDSHAKE_BYTES ;;
   hs <- lift_opt (hs_read out.2 msg) ;;
   n <- lift_opt (hs_transport hs) ;;
   m_ret (hs_hash hs, n))%m.

Definition responder_handshake : M Stream (string * N) :=
  (hs <- lift_opt hs_responder ;;
   msg <- read_plain_frame_timeout MAX_HANDSHAKE_BYTES ;;
   hs <- lift_opt (hs_read hs msg) ;;
   out <- lift_opt (hs_write hs) ;;
   write_plain_frame out.1 ;;
   n <- lift_opt (hs_transport out.2) ;;
   m_ret (hs_hash out.2, n))%m.

(** [NoiseConnection::connect] on an open stream: the connection, or the error. *)
Definition connect (i : Identity) (s : Stream) : IoResult (Conn N) :=
  match initiator_handshake s with
  | (_, Err e) => Err e
  | (s, Ok (hash, n)) =>
      match (send_auth i hash ;; recv_auth hash)%m (mkConn s n (be_bytes 32 0) "") with
      | (_, Err e) => Err e
      | (c, Ok peer) => Ok (mkConn (stream c) (noise c) peer (read_buf c))
      end
  end.

(** [NoiseConnection::accept]. *)
Definition accept (i : Identity) (s : Stream) : IoResult (Conn N) :=
  match responder_handshake s with
  | (_, Err e) => Err e
  | (s, Ok (hash, n)) =>
      match (peer <- recv_auth hash ;; send_auth i hash ;; m_ret peer)%m
              (mkConn s n (be_bytes 32 0) "") with
      | (_, Err e) => Err e
      | (c, Ok peer) => Ok (mkConn (stream c) (noise c) peer (read_buf c))
      end
  end.

End Transport.
