(* ===== verification/TransportProps.v ===== *)
(** * The transport delivers

    Blobs survive the framing and the cipher, receiving is bounded and never
    depends on the fuel of the model, and a connection is handed out only after
    its peer signed this very handshake. *)

From S2P Require Import Prelude Paths Bytes Identity Transport.

(** ** Chunks *)

Fixpoint str_concat (l : list string) : string :=
  match l with [] => "" | s :: l => s +:+ str_concat l end.

Lemma chunks_fuel_spec fuel n s : (0 < n)%nat → (strlen s ≤ fuel)%nat →
  str_concat (chunks_fuel fuel n s) = s ∧
  Forall (λ c, c ≠ "" ∧ (strlen c ≤ n)%nat) (chunks_fuel fuel n s).
Proof.
  intros Hn. revert s. induction fuel as [|fuel IH]; intros s Hs.
  { destruct s; simpl in *; [by split|lia]. }
  destruct s as [|a s]; [by split|]. remember (String a s) as t eqn:Et.
  assert (chunks_fuel (S fuel) n t = str_take n t :: chunks_fuel fuel n (str_drop n t)) as ->
    by (by subst t).
  destruct (IH (str_drop n t)) as [Hc Hf].
  { rewrite strlen_str_drop. lia. }
  simpl str_concat. rewrite Hc, str_take_drop. split; [done|].
  constructor; [|done]. split.
  - intros Hnil%(f_equal strlen). rewrite strlen_str_take in Hnil. subst t. simpl in Hnil. lia.
  - rewrite strlen_str_take. lia.
Qed.

Lemma str_chunks_spec n s : (0 < n)%nat →
  str_concat (str_chunks n s) = s ∧ Forall (λ c, c ≠ "" ∧ (strlen c ≤ n)%nat) (str_chunks n s).
Proof. intros Hn. by apply chunks_fuel_spec. Qed.

Lemma length_chunks fuel n s : (length (chunks_fuel fuel n s) ≤ fuel)%nat.
Proof.
  revert s. induction fuel as [|fuel IH]; intros [|a s]; simpl; [lia..|].
  specialize (IH (str_drop n (String a s))). simpl in IH. lia.
Qed.

(** ** Frames *)

Definition frame (bytes : string) : string := be32 (slen bytes) +:+ bytes.

Lemma slen_append s t : slen (s +:+ t) = slen s + slen t.
Proof. unfold slen. rewrite strlen_append. lia. Qed.

Lemma write_plain_frame_eq bytes s :
  write_plain_frame bytes s = (mkStream (inp s) (outp s +:+ frame bytes) (stalled s), Ok ()).
Proof.
  unfold write_plain_frame, m_bind, stream_write, frame. simpl.
  by rewrite append_assoc.
Qed.

Lemma stream_read_eq x rest o b :
  stream_read (strlen x) (mkStream (x +:+ rest) o b) = (mkStream rest o b, Ok x).
Proof.
  unfold stream_read. simpl inp. simpl outp. simpl stalled.
  rewrite strlen_append. destruct (Nat.ltb_spec (strlen x + strlen rest) (strlen x)); [lia|].
  by rewrite str_take_append, str_drop_append.
Qed.

Lemma read_plain_frame_eq max bytes rest o b :
  slen bytes ≤ max → max < 2 ^ 32 →
  read_plain_frame max (mkStream (frame bytes +:+ rest) o b) = (mkStream rest o b, Ok bytes).
Proof.
  intros Hle Hmax. unfold read_plain_frame, frame. rewrite append_assoc.
  assert (strlen (be32 (slen bytes)) = 4%nat) as E by apply strlen_be_bytes.
  rewrite <-E. erewrite m_bind_Ok by apply stream_read_eq. unfold be32.
  rewrite be_value_bytes, Z.mod_small by (unfold slen in *; lia).
  destruct (Z.gtb_spec (slen bytes) max); [lia|].
  unfold slen. rewrite Nat2Z.id. apply stream_read_eq.
Qed.

Lemma stream_read_inv n s s' bytes :
  stream_read n s = (s', Ok bytes) →
  (strlen (inp s') + n = strlen (inp s))%nat ∧ strlen bytes = n.
Proof.
  unfold stream_read. destruct (Nat.ltb_spec (strlen (inp s)) n); [done|].
  intros [= <- <-]. cbn [inp]. rewrite strlen_str_take, strlen_str_drop. lia.
Qed.

Lemma read_plain_frame_inv max s s' bytes :
  read_plain_frame max s = (s', Ok bytes) →
  (strlen (inp s') + 4 ≤ strlen (inp s))%nat ∧ slen bytes ≤ max.
Proof.
  unfold read_plain_frame. intros (s1 & h & Hh & Hk)%m_bind_inv.
  apply stream_read_inv in Hh as [Hh _]. revert Hk. cbv zeta.
  destruct (Z.gtb_spec (be_value h) max) as [|Hle]; [done|]. intros Hk.
  apply stream_read_inv in Hk as [Hk Hlen]. pose proof (be_value_range h).
  unfold slen. lia.
Qed.

(** ** Receiving terminates: the fuel of the model never matters *)

Section Fuel.
Context {N HS : Type} `{Noise N HS}.
Implicit Types c : Conn N.

Lemma recv_plain_chunk_inv c c' chunk :
  recv_plain_chunk c = (c', Ok chunk) →
  (strlen (inp (stream c')) + 4 ≤ strlen (inp (stream c)))%nat ∧ read_buf c' = read_buf c.
Proof.
  unfold recv_plain_chunk. intros (c1 & enc & Hf & Hk)%m_bind_inv.
  unfold on_stream, m_zoom in Hf.
  destruct (read_plain_frame _ (stream c)) as [s1 r] eqn:E. injection Hf as <- ->.
  apply read_plain_frame_inv in E as [E _].
  unfold m_bind, m_gets in Hk. simpl in Hk.
  destruct (noise_read (noise c) enc) as [[plain n']|]; [|done].
  injection Hk as <- <-. by split.
Qed.

(** What is still to be read, counting the buffer as one. *)
Definition pending c : nat :=
  (strlen (inp (stream c)) + (if decide (read_buf c = "") then 0 else 1))%nat.

(** The refill of [read_buf] at the top of the loop. *)
Definition refill : M (Conn N) () :=
  (buf <- m_gets read_buf ;;
   if decide (buf = "") then chunk <- recv_plain_chunk ;; set_buf chunk else m_ret ())%m.

Definition with_buf (b : string) c : Conn N := mkConn (stream c) (noise c) (conn_peer c) b.

Lemma recv_exact_loop_S f n c :
  recv_exact_loop (S f) (S n) c =
  match refill c with
  | (c1, Err e) => (c1, Err e)
  | (c1, Ok _) =>
      let buf := read_buf c1 in
      let take := Nat.min (S n) (strlen buf) in
      match recv_exact_loop f (S n - take) (with_buf (str_drop take buf) c1) with
      | (c2, Err e) => (c2, Err e)
      | (c2, Ok rest) => (c2, Ok (str_take take buf +:+ rest))
      end
  end.
Proof.
  cbn [recv_exact_loop]. unfold refill, m_bind, m_gets, set_buf, m_modify, m_ret.
  by destruct (decide (read_buf c = "")); [destruct (recv_plain_chunk c) as [? []]|].
Qed.

Lemma refill_inv c c1 :
  refill c = (c1, Ok ()) →
  (strlen (inp (stream c1)) < pending c)%nat.
Proof.
  unfold refill, pending, m_bind, m_gets, set_buf, m_modify, m_ret.
  destruct (decide (read_buf c = "")) as [Hb|Hb].
  - destruct (recv_plain_chunk c) as [c2 [chunk|e]] eqn:Er; [|done].
    apply recv_plain_chunk_inv in Er as [Hlen _]. intros [= <-]. simpl. lia.
  - intros [= <-]. lia.
Qed.

Lemma recv_exact_loop_0 f c : recv_exact_loop f 0 c = (c, Ok "").
Proof. by destruct f. Qed.

Lemma recv_exact_fuel_irrelevant f1 f2 need c :
  (pending c < f1)%nat → (pending c < f2)%nat →
  recv_exact_loop f1 need c = recv_exact_loop f2 need c.
Proof.
  revert f2 need c. induction f1 as [|f1 IH]; intros f2 need c H1 H2; [lia|].
  destruct f2 as [|f2]; [lia|]. destruct need as [|need]; [done|].
  rewrite !recv_exact_loop_S. destruct (refill c) as [c1 [[]|e]] eqn:Er; [|done].
  apply refill_inv in Er. cbv zeta. set (take := Nat.min _ _).
  destruct (decide (S need - take = 0)%nat) as [->|Hmore].
  { by rewrite !recv_exact_loop_0. }
  assert (take = strlen (read_buf c1)) as -> by lia. rewrite str_drop_all.
  assert (pending (with_buf "" c1) = strlen (inp (stream c1))) as Hp.
  { unfold pending. simpl. lia. }
  rewrite (IH f2); [done|lia..].
Qed.

Lemma recv_exact_loop_len f need c c' bytes :
  recv_exact_loop f need c = (c', Ok bytes) → strlen bytes = need.
Proof.
  revert need c c' bytes. induction f as [|f IH]; intros [|need] c c' bytes.
  - by intros [= _ <-].
  - done.
  - by intros [= _ <-].
  - rewrite recv_exact_loop_S. destruct (refill c) as [c1 [[]|e]]; [|done]. cbv zeta.
    set (take := Nat.min _ _).
    destruct (recv_exact_loop f _ _) as [c2 [rest|e]] eqn:E; [|done].
    intros [= _ <-]. apply IH in E. rewrite strlen_append, strlen_str_take. lia.
Qed.

Lemma pending_bound c : (pending c < S (S (strlen (inp (stream c)))))%nat.
Proof. unfold pending. case_decide; lia. Qed.
End Fuel.

(** ** Blobs over a paired session *)

Section Delivery.
Context {N HS : Type} `{Noise N HS} (paired : N → N → Prop) `{!NoisePaired N HS paired}.
Implicit Types c d : Conn N.

(** [chunks] travel on [wire] from the cipher state [b] to [b']. *)
Inductive delivers : N → string → list string → N → Prop :=
  | delivers_nil b : delivers b "" [] b
  | delivers_cons b enc chunk b1 wire chunks b' :
      slen enc ≤ MAX_CIPHERTEXT_CHUNK → chunk ≠ "" →
      noise_read b enc = Some (chunk, b1) →
      delivers b1 wire chunks b' →
      delivers b (frame enc +:+ wire) (chunk :: chunks) b'.

(** A connection after it wrote [wire], or read up to [rest]. *)
Definition wrote (wire : string) (n : N) c : Conn N :=
  mkConn (mkStream (inp (stream c)) (outp (stream c) +:+ wire) (stalled (stream c))) n
    (conn_peer c) (read_buf c).
Definition at_input (rest : string) (n : N) c : Conn N :=
  mkConn (mkStream rest (outp (stream c)) (stalled (stream c))) n (conn_peer c) (read_buf c).

(** What [send] writes at the cipher state [a], whatever else the connection holds. *)
Definition sends (send : M (Conn N) ()) (a : N) (wire : string) (a' : N) : Prop :=
  ∀ c, noise c = a → send c = (wrote wire a' c, Ok ()).

Lemma send_plain_chunk_paired a b chunk :
  paired a b → slen chunk ≤ MAX_PLAINTEXT_CHUNK → chunk ≠ "" →
  ∃ wire n' b', sends (send_plain_chunk chunk) a wire n' ∧
    delivers b wire [chunk] b' ∧ paired n' b'.
Proof.
  intros Hp Hlen Hne. destruct (paired_write _ _ _ Hp Hlen) as [[enc n'] Hw].
  destruct (paired_read _ _ _ _ _ Hp Hw) as (Henc & b' & Hr & Hp').
  exists (frame enc), n', b'. split_and!; [| |done].
  - intros c <-. unfold send_plain_chunk. destruct (Z.gtb_spec (slen chunk) MAX_PLAINTEXT_CHUNK); [lia|].
    unfold m_bind, m_gets. rewrite Hw. unfold set_noise, m_modify, on_stream, m_zoom.
    cbn [stream noise conn_peer read_buf]. rewrite write_plain_frame_eq. reflexivity.
  - rewrite <-(append_nil_r (frame enc)). econstructor; [|done|done|constructor].
    unfold MAX_CIPHERTEXT_CHUNK. lia.
Qed.

Lemma delivers_app b w1 cs1 b1 w2 cs2 b2 :
  delivers b w1 cs1 b1 → delivers b1 w2 cs2 b2 → delivers b (w1 +:+ w2) (cs1 ++ cs2) b2.
Proof.
  intros H1 H2. induction H1; [done|]. rewrite append_assoc. simpl. econstructor; eauto.
Qed.

Lemma sends_seq s1 s2 a w1 n1 w2 n2 :
  sends s1 a w1 n1 → sends s2 n1 w2 n2 → sends (s1 ;; s2)%m a (w1 +:+ w2) n2.
Proof.
  intros H1 H2 c Hc. erewrite m_bind_Ok by (by apply H1). rewrite (H2 (wrote w1 n1 c) eq_refl).
  unfold wrote. cbn [stream inp outp stalled conn_peer read_buf]. by rewrite append_assoc.
Qed.

Lemma send_chunks_paired a b chunks :
  paired a b →
  Forall (λ s, s ≠ "" ∧ (strlen s ≤ Z.to_nat MAX_PLAINTEXT_CHUNK)%nat) chunks →
  ∃ wire n' b', sends (m_for chunks send_plain_chunk) a wire n' ∧
    delivers b wire chunks b' ∧ paired n' b'.
Proof.
  intros Hp Hall. revert a b Hp. induction Hall as [|chunk chunks [Hne Hlen] _ IH]; intros a b Hp.
  { exists "", a, b. split_and!; [|constructor|done].
    intros [[] ? ? ?] <-. unfold wrote. simpl. by rewrite append_nil_r. }
  destruct (send_plain_chunk_paired a b chunk Hp) as (w1 & n1 & b1 & Hs & Hd & Hp1);
    [assert (0 ≤ MAX_PLAINTEXT_CHUNK) by done; unfold slen; lia|done|].
  destruct (IH n1 b1 Hp1) as (w2 & n2 & b2 & Hs2 & Hd2 & Hp2).
  exists (w1 +:+ w2), n2, b2. split_and!;
    [by apply sends_seq with n1|by apply (delivers_app _ _ [chunk] _ _ _ _ Hd Hd2)|done].
Qed.

Lemma recv_plain_chunk_eq d enc chunk b1 rest :
  slen enc ≤ MAX_CIPHERTEXT_CHUNK → noise_read (noise d) enc = Some (chunk, b1) →
  inp (stream d) = frame enc +:+ rest →
  recv_plain_chunk d = (at_input rest b1 d, Ok chunk).
Proof.
  intros Hlen Hr Hin. destruct d as [[i o s] n p buf]. simpl in *. subst i.
  unfold recv_plain_chunk, m_bind at 1, on_stream, m_zoom. cbn [stream].
  rewrite read_plain_frame_eq by done. unfold m_bind, m_gets. simpl. by rewrite Hr.
Qed.

Lemma str_concat_app l1 l2 : str_concat (l1 ++ l2) = str_concat l1 +:+ str_concat l2.
Proof. induction l1 as [|s l1 IH]; [done|]. simpl. by rewrite IH, append_assoc. Qed.

Lemma recv_exact_loop_delivers b wire chunks b' : delivers b wire chunks b' →
  ∀ fuel d rest,
    (length chunks < fuel)%nat → noise d = b → read_buf d = "" →
    inp (stream d) = wire +:+ rest →
    recv_exact_loop fuel (strlen (str_concat chunks)) d =
      (at_input rest b' d, Ok (str_concat chunks)).
Proof.
  induction 1 as [b|b enc chunk b1 wire chunks b' Henc Hne Hr _ IH];
    intros fuel d rest Hf Hn Hbuf Hin.
  { simpl. rewrite recv_exact_loop_0. destruct d as [[] ? ? ?]. unfold at_input. simpl in *.
    by subst. }
  destruct fuel as [|fuel]; [simpl in Hf; lia|]. simpl str_concat. rewrite strlen_append.
  rewrite append_assoc in Hin. subst b.
  destruct (strlen chunk + strlen (str_concat chunks))%nat as [|k] eqn:Ek.
  { assert (chunk = "") by (apply strlen_0; lia). done. }
  rewrite recv_exact_loop_S. unfold refill, m_bind, m_gets, set_buf, m_modify.
  rewrite Hbuf, decide_True by done. rewrite (recv_plain_chunk_eq d enc chunk b1 _ Henc Hr Hin).
  cbn [read_buf stream noise conn_peer].
  rewrite (Nat.min_r (S k)) by lia. rewrite str_drop_all, str_take_all.
  replace (S k - strlen chunk)%nat with (strlen (str_concat chunks)) by lia.
  erewrite IH by (simpl in *; (lia || done)).
  unfold at_input, with_buf. cbn. by rewrite Hbuf.
Qed.

Lemma delivers_length b wire chunks b' : delivers b wire chunks b' →
  (length chunks ≤ strlen wire)%nat.
Proof.
  induction 1; [done|]. cbn [length]. unfold frame. rewrite !strlen_append.
  change (strlen (be32 _)) with 4%nat. lia.
Qed.

Lemma recv_plain_exact_delivers b wire chunks b' d rest :
  delivers b wire chunks b' → noise d = b → read_buf d = "" →
  inp (stream d) = wire +:+ rest →
  recv_plain_exact (strlen (str_concat chunks)) d =
    (at_input rest b' d, Ok (str_concat chunks)).
Proof.
  intros Hd Hn Hb Hin. unfold recv_plain_exact.
  apply (recv_exact_loop_delivers _ _ _ _ Hd); [|done..].
  apply delivers_length in Hd. rewrite Hin, strlen_append. lia.
Qed.

Lemma send_blob_delivers a b bytes :
  paired a b → slen bytes ≤ MAX_BLOB_BYTES →
  ∃ wire n' b',
    sends (send_blob bytes) a wire n' ∧ paired n' b' ∧
    ∀ d rest, noise d = b → read_buf d = "" → inp (stream d) = wire +:+ rest →
      ∀ max, slen bytes ≤ max → recv_blob max d = (at_input rest b' d, Ok bytes).
Proof.
  intros Hp Hlen.
  destruct (send_plain_chunk_paired a b (be64 (slen bytes)) Hp) as (w1 & n1 & b1 & Hs1 & Hd1 & Hp1).
  { unfold slen, be64. rewrite strlen_be_bytes. done. }
  { intros Hnil%(f_equal strlen). unfold be64 in Hnil. by rewrite strlen_be_bytes in Hnil. }
  destruct (str_chunks_spec (Z.to_nat MAX_PLAINTEXT_CHUNK) bytes) as [Hcat Hall]; [vm_compute; lia|].
  destruct (send_chunks_paired n1 b1 _ Hp1 Hall) as (w2 & n2 & b2 & Hs2 & Hd2 & Hp2).
  exists (w1 +:+ w2), n2, b2. split_and!; [|done|].
  - intros c Hc. unfold send_blob. destruct (Z.gtb_spec (slen bytes) MAX_BLOB_BYTES); [lia|].
    by apply sends_seq with (n1 := n1) (a := a).
  - intros d rest Hn Hb Hin max Hmax. rewrite append_assoc in Hin. unfold recv_blob.
    pose proof (recv_plain_exact_delivers _ _ _ _ d _ Hd1 Hn Hb Hin) as Hr1.
    simpl str_concat in Hr1. rewrite append_nil_r in Hr1. unfold be64 in Hr1 at 1.
    rewrite strlen_be_bytes in Hr1. erewrite m_bind_Ok by exact Hr1. cbv zeta.
    unfold be64. rewrite be_value_bytes, Z.mod_small
      by (unfold MAX_BLOB_BYTES in Hlen; unfold slen in *; change (256 ^ Z.of_nat 8) with (2 ^ 64); lia).
    destruct (Z.gtb_spec (slen bytes) max); [lia|]. unfold slen. rewrite Nat2Z.id.
    rewrite <-Hcat at 1.
    erewrite (recv_plain_exact_delivers _ _ _ _ _ rest Hd2); [by rewrite Hcat|done..].
Qed.
End Delivery.

(** ** What a session promises *)

(** What the program relies on of a completed Noise NN handshake, of the
    signature scheme and of JSON. *)
Class HandshakePaired (N HS : Type) `{Noise N HS} (paired : N → N → Prop) : Prop :=
  handshake_paired : ∃ hi m1 hi1 hr hr1 m2 hr2 hi2 a b,
    hs_initiator = Some hi ∧ hs_write hi = Some (m1, hi1) ∧
    hs_responder = Some hr ∧ hs_read hr m1 = Some hr1 ∧
    hs_write hr1 = Some (m2, hr2) ∧ hs_read hi1 m2 = Some hi2 ∧
    hs_hash hi2 = hs_hash hr2 ∧ hs_transport hi2 = Some a ∧ hs_transport hr2 = Some b ∧
    slen m1 ≤ MAX_HANDSHAKE_BYTES ∧ slen m2 ≤ MAX_HANDSHAKE_BYTES ∧ paired a b.

Class SignaturesVerify `{Ed25519} : Prop := {
  ed_public_len sk : strlen (ed_public sk) = 32%nat;
  ed_public_valid sk : vk_from_bytes (ed_public sk) = true;
  ed_sign_len sk m : strlen (ed_sign sk m) = 64%nat;
  ed_sign_verifies sk m : ed_verify (ed_public sk) m (ed_sign sk m) = true
}.

Class AuthJsonRoundTrip `{AuthJson} : Prop :=
  auth_json_round_trip p :
    strlen (ap_node_id p) = 64%nat → strlen (ap_signature p) = 64%nat →
    ∃ j, ser_auth p = Some j ∧ de_auth j = Some p ∧ slen j ≤ MAX_BLOB_BYTES.

Section Auth.
Context {N HS : Type} `{Noise N HS} `{Ed25519} `{AuthJson}.

Lemma recv_auth_inv hash (c c' : Conn N) id :
  recv_auth hash c = (c', Ok id) →
  strlen id = 32%nat ∧ vk_from_bytes id = true ∧
  ∃ signature, strlen signature = 64%nat ∧ ed_verify id (auth_message id hash) signature = true.
Proof.
  unfold recv_auth. intros (c1 & p & _ & Hk)%m_bind_inv.
  apply m_bind_inv in Hk as (c2 & id' & Hid & Hk). unfold m_lift in Hid. injection Hid as -> Hid.
  destruct (strlen (ap_signature p) =? 64)%nat eqn:Elen; [|done]. simpl in Hk.
  apply m_bind_inv in Hk as (c3 & [] & Hv & Hr). unfold m_ret in Hr. injection Hr as -> ->.
  apply Nat.eqb_eq in Elen. unfold m_lift, node_id_verify in Hv. injection Hv as _ Hv.
  destruct (vk_from_bytes id) eqn:Evk; [|done]. simpl in Hv.
  destruct (ed_verify _ _ _) eqn:Ev; [|done].
  split; [by apply node_id_from_str_len in Hid|]. split; [done|]. eauto.
Qed.

Lemma auth_message_inj id1 id2 h1 h2 :
  strlen id1 = 32%nat → strlen id2 = 32%nat →
  auth_message id1 h1 = auth_message id2 h2 → id1 = id2 ∧ h1 = h2.
Proof.
  unfold auth_message. intros Hl1 Hl2 [_ Heq]%append_inj_len; [|done].
  apply append_inj_len in Heq; [done|congruence].
Qed.

Section Session.
Context (paired : N → N → Prop) `{!NoisePaired N HS paired} `{!SignaturesVerify}
  `{!AuthJsonRoundTrip}.

Lemma send_auth_delivers i hash (a b : N) :
  paired a b →
  ∃ wire n' b', sends (send_auth i hash) a wire n' ∧ paired n' b' ∧
    ∀ d rest, noise d = b → read_buf d = "" → inp (stream d) = wire +:+ rest →
      recv_auth hash d = (at_input rest b' d, Ok (node_id i)).
Proof.
  intros Hp. set (p := mkAuth (node_id_to_string (node_id i))
    (sign i (auth_message (node_id i) hash))).
  destruct (auth_json_round_trip p) as (j & Hj & Hd & Hlen).
  { simpl. unfold node_id_to_string, node_id. by rewrite strlen_hex, ed_public_len. }
  { simpl. apply ed_sign_len. }
  destruct (send_blob_delivers paired a b j Hp Hlen) as (wire & n' & b' & Hs & Hp' & Hr).
  exists wire, n', b'. split_and!; [|done|].
  - intros c Hc. unfold send_auth, send_json. fold p. unfold m_lift, m_bind. rewrite Hj.
    by apply Hs.
  - intros d rest Hn Hb Hin. unfold recv_auth, recv_json. unfold m_bind at 1, m_bind at 1.
    rewrite (Hr d rest Hn Hb Hin _ Hlen). unfold m_lift at 1. rewrite Hd.
    subst p. unfold m_bind, m_lift. cbn [ok_or ap_node_id ap_signature].
    unfold node_id at 1. rewrite node_id_round_trip by apply ed_public_len.
    unfold sign, node_id_verify, node_id. rewrite ed_sign_len, ed_public_valid, ed_sign_verifies.
    reflexivity.
Qed.
End Session.
End Auth.

(** [n] blobs, one after the other. *)
Fixpoint recv_blobs {N HS} `{Noise N HS} (n : nat) : M (Conn N) (list string) :=
  match n with
  | O => m_ret []
  | S n => (b <- recv_blob MAX_BLOB_BYTES ;; l <- recv_blobs n ;; m_ret (b :: l))%m
  end.

(** C21. blobs_round_trip: messages of up to 16 MiB, sent one after the other on
    one end of a session, are received unchanged and in order on the other end,
    however they are cut into frames; what follows them on the wire stays unread
    and both ends stay in step. *)
Theorem blobs_round_trip {N HS : Type} `{Noise N HS} (paired : N → N → Prop)
    (Hpaired : NoisePaired N HS paired) (blobs : list string) (c d : Conn N)
    (Hp : paired (noise c) (noise d)) (Hbuf : read_buf d = "")
    (Hlen : Forall (λ b, slen b ≤ MAX_BLOB_BYTES) blobs) :
  ∃ wire n', m_for blobs send_blob c = (wrote wire n' c, Ok ()) ∧
    ∀ rest, inp (stream d) = wire +:+ rest →
      ∃ m', recv_blobs (length blobs) d = (at_input rest m' d, Ok blobs) ∧ paired n' m'.
Proof.
  revert c d Hp Hbuf. induction Hlen as [|b blobs Hb _ IH]; intros c d Hp Hbuf.
  { exists "", (noise c). split.
    - destruct c as [[] ? ? ?]. unfold wrote. simpl. by rewrite append_nil_r.
    - intros rest Hin. exists (noise d). split; [|done]. destruct d as [[] ? ? ?].
      simpl in Hin. by subst. }
  destruct (send_blob_delivers paired _ _ b Hp Hb) as (w1 & n1 & b1 & Hs & Hp1 & Hr).
  specialize (Hs c eq_refl).
  destruct (IH (wrote w1 n1 c) (at_input "" b1 d)) as (w2 & n2 & Hs2 & _); [done..|].
  exists (w1 +:+ w2), n2. split.
  - cbn [m_for]. erewrite m_bind_Ok by exact Hs. rewrite Hs2. unfold wrote. cbn.
    by rewrite append_assoc.
  - intros rest Hin. rewrite append_assoc in Hin.
    pose proof (Hr d _ eq_refl Hbuf Hin _ Hb) as Hr1.
    destruct (IH (wrote w1 n1 c) (at_input (w2 +:+ rest) b1 d)) as (w2' & n2' & Hs2' & Hr2);
      [done..|].
    rewrite Hs2 in Hs2'. unfold wrote in Hs2'. injection Hs2' as Ew En.
    cbn [stream outp] in Ew. apply append_inj_len in Ew as [_ <-]; [|done]. subst n2'.
    destruct (Hr2 rest eq_refl) as (m' & Hm & Hp2). exists m'. split; [|done].
    cbn [recv_blobs length]. erewrite m_bind_Ok by exact Hr1. erewrite m_bind_Ok by exact Hm.
    reflexivity.
Qed.

(** C26. receive_bounded: whatever the peer and the cipher do, receiving ends
    (every frame consumes input, so the model's fuel never runs out), fills
    exactly the buffer asked for, never hands out a blob longer than the limit,
    and rejects a frame by its header; a blob over the limit is not sent at
    all. *)
Theorem receive_bounded {N HS : Type} `{Noise N HS} :
  (∀ (c : Conn N) need fuel, (pending c < fuel)%nat →
     recv_plain_exact need c = recv_exact_loop fuel need c) ∧
  (∀ (c c' : Conn N) need bytes, recv_plain_exact need c = (c', Ok bytes) → strlen bytes = need) ∧
  (∀ (c c' : Conn N) max bytes, recv_blob max c = (c', Ok bytes) → slen bytes ≤ max) ∧
  (∀ max len rest o st, 0 ≤ len < 2 ^ 32 → max < len →
     read_plain_frame max (mkStream (be32 len +:+ rest) o st) =
       (mkStream rest o st, Err InvalidData)) ∧
  (∀ (c : Conn N) bytes, MAX_BLOB_BYTES < slen bytes → send_blob bytes c = (c, Err InvalidInput)).
Proof.
  split_and!.
  - intros c need fuel Hf. apply recv_exact_fuel_irrelevant; [apply pending_bound|done].
  - intros c c' need bytes. apply recv_exact_loop_len.
  - intros c c' max bytes. unfold recv_blob. intros (c1 & h & _ & Hk)%m_bind_inv. revert Hk.
    cbv zeta. destruct (Z.gtb_spec (be_value h) max) as [|Hle]; [done|]. intros Hk.
    apply recv_exact_loop_len in Hk. pose proof (be_value_range h). unfold slen. lia.
  - intros max len rest o st Hlen Hmax. unfold read_plain_frame.
    replace 4%nat with (strlen (be32 len)) by apply strlen_be_bytes.
    erewrite m_bind_Ok by apply stream_read_eq. unfold be32. rewrite be_value_bytes.
    rewrite Z.mod_small by done. cbv zeta. destruct (Z.gtb_spec len max); [done|lia].
  - intros c bytes Hlen. unfold send_blob.
    by destruct (Z.gtb_spec (slen bytes) MAX_BLOB_BYTES); [|lia].
Qed.

(** C20. connection_authenticated: [connect] and [accept] hand out a connection
    only when the handshake completed and the peer presented a signature, valid
    for its id, of a message that determines both that id and this handshake's
    hash, so that no signature serves for another id or another handshake. *)
Theorem connection_authenticated {N HS : Type} `{Noise N HS} `{Ed25519} `{AuthJson}
    (i : Identity) (s : Stream) (c : Conn N)
    (Hopen : connect i s = Ok c ∨ accept i s = Ok c) :
  strlen (conn_peer c) = 32%nat ∧ vk_from_bytes (conn_peer c) = true ∧
  ∃ s' hash n signature,
    (initiator_handshake s = (s', Ok (hash, n)) ∨ responder_handshake s = (s', Ok (hash, n))) ∧
    strlen signature = 64%nat ∧
    ed_verify (conn_peer c) (auth_message (conn_peer c) hash) signature = true ∧
    ∀ id h, strlen id = 32%nat → auth_message id h = auth_message (conn_peer c) hash →
      id = conn_peer c ∧ h = hash.
Proof.
  assert (∃ s' hash n c1 c2,
    (initiator_handshake s = (s', Ok (hash, n)) ∨ responder_handshake s = (s', Ok (hash, n))) ∧
    recv_auth hash c1 = (c2, Ok (conn_peer c))) as (s' & hash & n & c1 & c2 & Hh & Hr).
  { destruct Hopen as [Hopen|Hopen]; revert Hopen.
    - unfold connect. destruct (initiator_handshake s) as [s' [[hash n]|e]]; [|done].
      destruct (m_bind _ _ _) as [c2 [peer|e]] eqn:E; [|done]. intros [= <-].
      apply m_bind_inv in E as (c1 & [] & _ & E). exists s', hash, n, c1, c2. auto.
    - unfold accept. destruct (responder_handshake s) as [s' [[hash n]|e]]; [|done].
      destruct (m_bind _ _ _) as [c2 [peer|e]] eqn:E; [|done]. intros [= <-].
      apply m_bind_inv in E as (c1 & p & Hr & E). apply m_bind_inv in E as (c3 & [] & _ & E).
      injection E as -> ->. exists s', hash, n, (mkConn s' n (be_bytes 32 0) ""), c1. auto. }
  apply recv_auth_inv in Hr as (Hlen & Hvk & signature & Hsig & Hv).
  split; [done|]. split; [done|]. exists s', hash, n, signature. split_and!; [done..|].
  intros id h Hid. by apply auth_message_inj.
Qed.

Lemma handshake_frame (msg rest o : string) st :
  slen msg ≤ MAX_HANDSHAKE_BYTES →
  read_plain_frame_timeout MAX_HANDSHAKE_BYTES (mkStream (frame msg +:+ rest) o st) =
    if st then (mkStream (frame msg +:+ rest) o st, Err TimedOut) else (mkStream rest o st, Ok msg).
Proof.
  intros Hlen. unfold read_plain_frame_timeout. simpl stalled. destruct st; [done|].
  by rewrite read_plain_frame_eq.
Qed.

(** C24. sessions_meet: when the network delivers, [connect] on one side and
    [accept] on the other complete: the two byte streams exist that each side
    writes when it reads the other's, each side learns the other's node id, and
    the session is ready with nothing left in the buffers. *)
Theorem sessions_meet {N HS : Type} `{Noise N HS} `{Ed25519} `{AuthJson}
    (paired : N → N → Prop) (Hpaired : NoisePaired N HS paired)
    (Hsym : ∀ a b, paired a b → paired b a)
    (Hhs : HandshakePaired N HS paired) (Hsig : SignaturesVerify)
    (Hjson : AuthJsonRoundTrip) (ia ib : Identity) :
  ∃ wa wb (ca cb : Conn N),
    connect ia (mkStream wb "" false) = Ok ca ∧ outp (stream ca) = wa ∧
    accept ib (mkStream wa "" false) = Ok cb ∧ outp (stream cb) = wb ∧
    conn_peer ca = node_id ib ∧ conn_peer cb = node_id ia ∧
    paired (noise ca) (noise cb) ∧
    inp (stream ca) = "" ∧ inp (stream cb) = "" ∧ read_buf ca = "" ∧ read_buf cb = "".
Proof.
  destruct Hhs as (hi & m1 & hi1 & hr & hr1 & m2 & hr2 & hi2 & a & b & Ei & Ewi & Er & Err & Ewr &
    Eri & Ehash & Eta & Etb & Hm1 & Hm2 & Hp).
  destruct (send_auth_delivers paired ia (hs_hash hi2) a b Hp) as (w1 & a1 & b1 & Hs1 & Hp1 & Hr1).
  destruct (send_auth_delivers paired ib (hs_hash hr2) b1 a1 (Hsym _ _ Hp1))
    as (w2 & b2 & a2 & Hs2 & Hp2 & Hr2).
  set (sa := λ rest o, mkStream rest (frame m1 +:+ o) false).
  set (sb := λ rest o, mkStream rest (frame m2 +:+ o) false).
  exists (frame m1 +:+ w1), (frame m2 +:+ w2), (mkConn (sa "" w1) a2 (node_id ib) ""),
    (mkConn (sb "" w2) b2 (node_id ia) "").
  split_and!; try done; [| |by apply Hsym].
  - assert (initiator_handshake (mkStream (frame m2 +:+ w2) "" false) =
      (sa w2 "", Ok (hs_hash hi2, a))) as E.
    { unfold initiator_handshake, lift_opt, m_lift. unfold m_bind. rewrite Ei. cbn [ok_or].
      rewrite Ewi. cbn [ok_or fst snd]. rewrite write_plain_frame_eq. cbn [inp outp stalled].
      rewrite handshake_frame by done. rewrite Eri. cbn [ok_or]. rewrite Eta.
      unfold sa. by rewrite append_nil_r. }
    unfold connect. rewrite E. erewrite m_bind_Ok by (by apply Hs1). rewrite Ehash.
    erewrite (Hr2 _ ""); [|done|done|cbn; by rewrite append_nil_r].
    cbn. unfold sa. by rewrite append_nil_r.
  - assert (responder_handshake (mkStream (frame m1 +:+ w1) "" false) =
      (sb w1 "", Ok (hs_hash hr2, b))) as E.
    { unfold responder_handshake, lift_opt, m_lift. unfold m_bind. rewrite Er. cbn [ok_or].
      rewrite handshake_frame by done. rewrite Err. cbn [ok_or]. rewrite Ewr. cbn [ok_or fst snd].
      rewrite write_plain_frame_eq. cbn [inp outp stalled]. rewrite Etb.
      unfold sb. by rewrite append_nil_r. }
    unfold accept. rewrite E, <-Ehash.
    erewrite m_bind_Ok; [|apply (Hr1 _ "")]; [|done|done|cbn; by rewrite append_nil_r].
    rewrite Ehash. erewrite m_bind_Ok by (by apply Hs2). cbn. unfold sb. by rewrite append_nil_r.
Qed.
