(* ===== verification/TransportWitness.v ===== *)
(** * The transport theorems at a concrete session

    A toy cipher that appends a 16-byte sequence number, a toy handshake of two
    messages, a toy signature scheme and a toy encoding of the authentication
    message, and the transport's theorems at them. *)

From S2P Require Import Prelude Paths Bytes Identity Samples Transport TransportProps.

Definition toy_tag (n : nat) : string := be_bytes 16 (Z.of_nat n).

(** The cipher state: how many chunks were written and read. *)
Definition toy_paired (a b : nat * nat) : Prop := a.1 = b.2 ∧ a.2 = b.1.

#[export] Instance toy_noise : Noise (nat * nat) nat := {|
  hs_initiator := Some 0%nat;
  hs_responder := Some 1%nat;
  hs_write := λ h, match h with
                   | 0%nat => Some ("e", 2%nat)
                   | 3%nat => Some ("ee", 4%nat)
                   | _ => None
                   end;
  hs_read := λ h m, match h with
                    | 1%nat => if decide (m = "e") then Some 3%nat else None
                    | 2%nat => if decide (m = "ee") then Some 5%nat else None
                    | _ => None
                    end;
  hs_hash := λ _, "session hash";
  hs_transport := λ h, if (4 <=? h)%nat then Some (0%nat, 0%nat) else None;
  noise_write := λ s m, Some (m +:+ toy_tag s.1, (S s.1, s.2));
  noise_read := λ s c,
    let n := (strlen c - 16)%nat in
    if decide (str_drop n c = toy_tag s.2) then Some (str_take n c, (s.1, S s.2)) else None
|}.

Lemma toy_noise_paired : NoisePaired (nat * nat) nat toy_paired.
Proof.
  split; [by eexists|]. intros [t r] [t' r'] m c a' [Ht Hr] Hw. simpl in *. subst.
  injection Hw as <- <-. assert (strlen (toy_tag r') = 16%nat) as El by apply strlen_be_bytes.
  split; [unfold slen; rewrite strlen_append, El; lia|].
  exists (t', S r'). rewrite strlen_append, El, Nat.add_sub, str_drop_append, decide_True by done.
  by rewrite str_take_append.
Qed.

Lemma toy_handshake : HandshakePaired (nat * nat) nat toy_paired.
Proof.
  exists 0%nat, "e", 2%nat, 1%nat, 3%nat, "ee", 4%nat, 5%nat, (0%nat, 0%nat), (0%nat, 0%nat).
  by split_and!.
Qed.

#[export] Instance toy_ed25519 : Ed25519 := {|
  vk_from_bytes := λ id, (strlen id =? 32)%nat;
  ed_public := λ sk, toy_blake3 sk;
  ed_sign := λ sk m, toy_blake3 sk +:+ toy_blake3 m;
  ed_verify := λ pk m signature, bool_decide (signature = pk +:+ toy_blake3 m)
|}.

Lemma toy_signatures : SignaturesVerify.
Proof.
  split; intros sk; intros; cbn [ed_public vk_from_bytes ed_sign ed_verify toy_ed25519].
  - apply toy_blake3_len.
  - by rewrite toy_blake3_len.
  - by rewrite strlen_append, !toy_blake3_len.
  - by apply bool_decide_eq_true.
Qed.

#[export] Instance toy_auth_json : AuthJson := {|
  ser_auth := λ p, Some (ap_node_id p +:+ ap_signature p);
  de_auth := λ s, Some (mkAuth (str_take 64 s) (str_drop 64 s))
|}.

Lemma toy_auth_round_trip : AuthJsonRoundTrip.
Proof.
  intros [i s] Hi Hs. simpl in Hi, Hs. eexists. split; [reflexivity|].
  cbn [de_auth toy_auth_json ap_node_id ap_signature].
  rewrite <-Hi, str_take_append, str_drop_append. split; [done|].
  unfold slen. rewrite strlen_append, Hi, Hs. unfold MAX_BLOB_BYTES. lia.
Qed.

Definition toy_conn : Conn (nat * nat) := mkConn (mkStream "" "" false) (0%nat, 0%nat) "" "".

Lemma blobs_round_trip_witness :
  ∃ wire n', m_for ["ping"; ""; "a longer message"] send_blob toy_conn =
    (wrote wire n' toy_conn, Ok ()) ∧
    ∀ rest, inp (stream toy_conn) = wire +:+ rest →
      ∃ m', recv_blobs 3 toy_conn = (at_input rest m' toy_conn, Ok ["ping"; ""; "a longer message"])
        ∧ toy_paired n' m'.
Proof.
  apply (blobs_round_trip toy_paired toy_noise_paired ["ping"; ""; "a longer message"]
    toy_conn toy_conn); [done|done|].
  repeat constructor; vm_compute; discriminate.
Defined.

Definition alice : Identity := mkIdentity "alice".
Definition bob : Identity := mkIdentity "bob".

(** What the initiator reads in a session of the two. *)
Definition bob_sends : string :=
  let n := (0%nat, 0%nat) in
  match send_auth bob "session hash" (mkConn (mkStream "" "" false) n "" "") with
  | (c, _) => frame "ee" +:+ outp (stream c)
  end.
Definition alice_session : Conn (nat * nat) :=
  match connect alice (mkStream bob_sends "" false) with
  | Ok c => c
  | Err _ => toy_conn
  end.

Lemma connection_authenticated_witness :
  conn_peer alice_session = node_id bob ∧
  strlen (conn_peer alice_session) = 32%nat.
Proof.
  split; [vm_compute; reflexivity|].
  apply (connection_authenticated alice (mkStream bob_sends "" false) alice_session).
  left. vm_compute. reflexivity.
Defined.

Lemma sessions_meet_witness :
  ∃ wa wb (ca cb : Conn (nat * nat)),
    connect alice (mkStream wb "" false) = Ok ca ∧ outp (stream ca) = wa ∧
    accept bob (mkStream wa "" false) = Ok cb ∧ outp (stream cb) = wb ∧
    conn_peer ca = node_id bob ∧ conn_peer cb = node_id alice ∧
    toy_paired (noise ca) (noise cb) ∧
    inp (stream ca) = "" ∧ inp (stream cb) = "" ∧ read_buf ca = "" ∧ read_buf cb = "".
Proof.
  apply (sessions_meet toy_paired toy_noise_paired); [|exact toy_handshake|
    exact toy_signatures|exact toy_auth_round_trip].
  intros a b [? ?]. by split.
Defined.
