(* ===== verification/Download.v ===== *)
(** * Shared downloads: [DownloadCoordinator] of [src/src/sync.rs]

    Several tasks of one reconciliation may want the same object: the first to
    arrive downloads it, the others wait for the result, and each target is
    materialised by one of them.  The coordinator's three operations are pure
    functions on its maps; [fetch_object_once] is a state machine whose steps
    are the stretches of code between two locks or [await]s, so that every
    interleaving of the tasks is an execution of the model.

    [Arc]s are numbers; a temporary file is its path.  [get_object_to_file] is a
    step that succeeds and leaves the file, or fails and leaves none
    ([src/src/rpc.rs], [stream_to_file] and the clean-up of its caller); linking
    a file fails when the source is missing, and may fail otherwise.  The
    semaphore of [reconcile_entries] only delays the first step of a task and is
    left out, so the model has more interleavings than the program, not fewer. *)

From stdpp Require Import countable.
From S2P Require Import Prelude Paths Bytes Entries.

Record DownloadTarget : Set := mkTarget {
  t_path : string;
  t_lamport : Z;
  t_origin : string
}.

#[export] Instance DownloadTarget_eq_dec : EqDecision DownloadTarget.
Proof. solve_decision. Defined.
#[export] Instance DownloadTarget_countable : Countable DownloadTarget.
Proof.
  apply (inj_countable' (λ t, (t_path t, t_lamport t, t_origin t))
    (λ '(p, l, o), mkTarget p l o)). by intros [].
Defined.

Definition from_entry (e : Entry) : DownloadTarget :=
  mkTarget (path e) (lamport (version e)) (origin (version e)).

(** [DownloadState] under its lock; the error of a download is its message. *)
Record DownloadState : Set := mkDownload {
  waiters : nat;
  claimed_targets : gset DownloadTarget;
  result : option (IoResult string)
}.

(** The coordinator: the map of active downloads and the heap of slots. *)
Record Coordinator : Set := mkCoord {
  active : gmap Hash nat;
  slots : gmap nat DownloadState;
  next_slot : nat
}.

Definition empty_coordinator : Coordinator := mkCoord ∅ ∅ 0.

Definition set_slot (s : nat) (d : DownloadState) (c : Coordinator) : Coordinator :=
  mkCoord (active c) (<[s := d]> (slots c)) (next_slot c).

Definition slot_state (c : Coordinator) (s : nat) : DownloadState :=
  default (mkDownload 0 ∅ None) (slots c !! s).

(** [DownloadCoordinator::acquire]: the slot, and whether the caller leads. *)
Definition acquire (h : Hash) (c : Coordinator) : Coordinator * (nat * bool) :=
  match active c !! h with
  | Some s =>
      let d := slot_state c s in
      (set_slot s (mkDownload (S (waiters d)) (claimed_targets d) (result d)) c, (s, false))
  | None =>
      let s := next_slot c in
      (mkCoord (<[h := s]> (active c)) (<[s := mkDownload 1 ∅ None]> (slots c)) (S s), (s, true))
  end.

(** [DownloadCoordinator::claim_target]. *)
Definition claim_target (s : nat) (e : Entry) (c : Coordinator) : Coordinator * bool :=
  let d := slot_state c s in
  let target := from_entry e in
  (set_slot s (mkDownload (waiters d) ({[target]} ∪ claimed_targets d) (result d)) c,
   bool_decide (target ∉ claimed_targets d)).

(** [DownloadCoordinator::release]: the shared file, handed to the last holder. *)
Definition release (h : Hash) (s : nat) (c : Coordinator) : Coordinator * option string :=
  let d := slot_state c s in
  let d := mkDownload (pred (waiters d)) (claimed_targets d) (result d) in
  let c := set_slot s d c in
  if negb (waiters d =? 0)%nat then (c, None)
  else if bool_decide (active c !! h = Some s)
  then (mkCoord (delete h (active c)) (slots c) (next_slot c),
        match result d with Some (Ok p) => Some p | _ => None end)
  else (c, None).

(** [slot.state.lock().result = Some(result)]. *)
Definition set_result (s : nat) (r : IoResult string) (c : Coordinator) : Coordinator :=
  let d := slot_state c s in
  set_slot s (mkDownload (waiters d) (claimed_targets d) (Some r)) c.

(** ** [fetch_object_once] *)

(** Where a task is: the slot it holds, and the paths it works on. *)
Inductive Pc : Set :=
  | Start
  | Fetching (s : nat) (shared : string)     (** the leader awaits [get_object_to_file] *)
  | Stored (s : nat)                         (** the result is stored, nobody notified yet *)
  | Looking (s : nat)                        (** at the top of the waiting loop *)
  | Missed (s : nat)                         (** read [None], has not called [notified()] yet *)
  | Sleeping (s : nat)                       (** awaits the [Notified] future *)
  | Failing (s : nat)                        (** read an error *)
  | Ready (s : nat) (shared : string)        (** read a path *)
  | Duplicate (s : nat)                      (** the target was claimed by another task *)
  | Copying (s : nat) (shared own : string)  (** awaits [materialize_shared_object] *)
  | Copied (s : nat) (own : string) (ok : bool)
  | Removing (files : list string) (r : IoResult (option string))
  | Finished (r : IoResult (option string)).

(** A task of the [JoinSet]; dropping the set aborts it at an [await]. *)
Record Task : Set := mkTask {
  t_entry : Entry;
  t_hash : Hash;
  pc : Pc;
  aborted : bool
}.

Record Downloads : Set := mkDownloads {
  coord : Coordinator;
  tasks : gmap nat Task;
  disk : gset string;
  next_recv_id : N
}.

Definition at_pc (p : Pc) (t : Task) : Task := mkTask (t_entry t) (t_hash t) p (aborted t).

(** The suspension points, where a task can be aborted. *)
Definition awaiting (p : Pc) : bool :=
  match p with
  | Start | Fetching _ _ | Sleeping _ | Copying _ _ _ | Removing _ _ => true
  | _ => false
  end.

(** [notify_waiters]: wakes the futures that exist now, and no later one. *)
Definition wake (s : nat) (t : Task) : Task :=
  match pc t with
  | Sleeping s' => if bool_decide (s' = s) then at_pc (Looking s) t else t
  | _ => t
  end.

(** What the outside decides: an operation works, an operation fails, the task
    is aborted. *)
Inductive Choice : Set := Works | Fails | Aborts.

Section Fetch.
(** [FolderState::tmp_recv_path] with the counter's value. *)
Context (recv_path : N → Entry → string).

Definition move (i : nat) (p : Pc) (w : Downloads) : Downloads :=
  mkDownloads (coord w) (alter (at_pc p) i (tasks w)) (disk w) (next_recv_id w).
Definition with_coord (c : Coordinator) (w : Downloads) : Downloads :=
  mkDownloads c (tasks w) (disk w) (next_recv_id w).
Definition with_disk (d : gset string) (w : Downloads) : Downloads :=
  mkDownloads (coord w) (tasks w) d (next_recv_id w).
Definition bump_id (w : Downloads) : Downloads :=
  mkDownloads (coord w) (tasks w) (disk w) (N.succ (next_recv_id w)).

(** The calls of [release] and the clean-up that follows each. *)
Definition let_go (i : nat) (h : Hash) (s : nat) (own : list string)
    (r : IoResult (option string)) (w : Downloads) : Downloads :=
  let '(c, shared) := release h s (coord w) in
  move i (Removing (option_list shared ++ own) r) (with_coord c w).

Definition run_task (ch : Choice) (i : nat) (t : Task) (w : Downloads) : option Downloads :=
  match pc t, ch with
  | Start, Works =>
      let '(c, (s, leader)) := acquire (t_hash t) (coord w) in
      let w := with_coord c w in
      Some (if leader then move i (Fetching s (recv_path (next_recv_id w) (t_entry t))) (bump_id w)
            else move i (Looking s) w)
  | Fetching s shared, Works =>
      Some (move i (Stored s) (with_coord (set_result s (Ok shared) (coord w))
              (with_disk ({[shared]} ∪ disk w) w)))
  | Fetching s shared, Fails =>
      Some (move i (Stored s) (with_coord (set_result s (Err OtherError) (coord w))
              (with_disk (disk w ∖ {[shared]}) w)))
  | Stored s, Works =>
      Some (move i (Looking s) (mkDownloads (coord w) (wake s <$> tasks w) (disk w)
              (next_recv_id w)))
  | Looking s, Works =>
      Some (move i (match result (slot_state (coord w) s) with
                    | Some (Ok path) => Ready s path
                    | Some (Err _) => Failing s
                    | None => Missed s
                    end) w)
  | Missed s, Works => Some (move i (Sleeping s) w)
  | Failing s, Works => Some (let_go i (t_hash t) s [] (Err OtherError) w)
  | Ready s shared, Works =>
      let '(c, fresh) := claim_target s (t_entry t) (coord w) in
      let w := with_coord c w in
      Some (if fresh
            then move i (Copying s shared (recv_path (next_recv_id w) (t_entry t))) (bump_id w)
            else move i (Duplicate s) w)
  | Duplicate s, Works => Some (let_go i (t_hash t) s [] (Ok None) w)
  | Copying s shared own, Works =>
      if bool_decide (shared ∈ disk w)
      then Some (move i (Copied s own true) (with_disk ({[own]} ∪ disk w) w)) else None
  | Copying s _ own, Fails =>
      Some (move i (Copied s own false) (with_disk ({[own]} ∪ disk w) w))
  | Copied s own ok, Works =>
      Some (if ok then let_go i (t_hash t) s [] (Ok (Some own)) w
            else let_go i (t_hash t) s [own] (Err OtherError) w)
  | Removing files r, Works =>
      Some (move i (Finished r) (with_disk (disk w ∖ list_to_set files) w))
  | _, _ => None
  end.

(** One step of task [i].  An aborted download or copy may leave its partial
    file, and so may a copy that fails. *)
Definition step (ch : Choice) (i : nat) (w : Downloads) : option Downloads :=
  match tasks w !! i with
  | None => None
  | Some t =>
      if aborted t then None
      else match ch with
           | Aborts =>
               if awaiting (pc t)
               then Some (mkDownloads (coord w)
                            (<[i := mkTask (t_entry t) (t_hash t) (pc t) true]> (tasks w))
                            (match pc t with
                             | Fetching _ p | Copying _ _ p => {[p]} ∪ disk w
                             | _ => disk w
                             end) (next_recv_id w))
               else None
           | _ => run_task ch i t w
           end
  end.

Definition run_schedule (l : list (Choice * nat)) (w : Downloads) : option Downloads :=
  foldl (λ ow '(ch, i), w ← ow; step ch i w) (Some w) l.

(** A reconciliation hands entries to the coordinator at any time. *)
Inductive dstep : Downloads → Downloads → Prop :=
  | dstep_task ch i w w' : step ch i w = Some w' → dstep w w'
  | dstep_spawn i e h w :
      tasks w !! i = None → content_hash e = Some h →
      dstep w (mkDownloads (coord w) (<[i := mkTask e h Start false]> (tasks w)) (disk w)
                 (next_recv_id w)).

End Fetch.

Definition no_downloads : Downloads := mkDownloads empty_coordinator ∅ ∅ 0%N.
