(* ===== verification/DownloadInv.v ===== *)
(** * Invariants of shared downloads *)

From S2P Require Import Prelude Paths Bytes Entries Download.

(** ** Reference counting

    The coordinator's own promise, about any set of clients: [v] gives for each
    client its object and the slot it holds. *)

Definition holds (p : Pc) : option nat :=
  match p with
  | Start | Removing _ _ | Finished _ => None
  | Fetching s _ | Stored s | Looking s | Missed s | Sleeping s | Failing s | Ready s _
  | Duplicate s | Copying s _ _ | Copied s _ _ => Some s
  end.

Abbreviation View := (gmap nat (Hash * option nat)) (only parsing).

Definition task_view (t : Task) : Hash * option nat := (t_hash t, holds (pc t)).
Definition view (ts : gmap nat Task) : View := task_view <$> ts.

Definition holders (v : View) (s : nat) : nat :=
  base.size (filter (λ kv : nat * (Hash * option nat), kv.2.2 = Some s) v).

Record Counted (v : View) (c : Coordinator) : Prop := {
  counted_active i h s : v !! i = Some (h, Some s) → active c !! h = Some s;
  counted_waiters h s : active c !! h = Some s →
    ∃ d, slots c !! s = Some d ∧ waiters d = holders v s ∧ (0 < waiters d)%nat;
  counted_inj h1 h2 s : active c !! h1 = Some s → active c !! h2 = Some s → h1 = h2;
  counted_next h s : active c !! h = Some s → (s < next_slot c)%nat
}.

Definition bit (P : Prop) `{Decision P} : nat := if decide P then 1 else 0.

Lemma holders_insert v i x y s : v !! i = Some x →
  (holders (<[i := y]> v) s + bit (x.2 = Some s) = holders v s + bit (y.2 = Some s))%nat.
Proof.
  intros Hi. unfold holders, bit.
  rewrite <-(insert_delete_id v i x) at 2 by done.
  rewrite <-(insert_delete_eq v i y).
  set (u := delete i v).
  assert (u !! i = None) as Hu by apply lookup_delete_eq.
  assert (∀ z, base.size (filter (λ kv : nat * (Hash * option nat), kv.2.2 = Some s) (<[i := z]> u)) =
    (base.size (filter (λ kv : nat * (Hash * option nat), kv.2.2 = Some s) u) +
     if decide (z.2 = Some s) then 1 else 0)%nat) as Hz.
  { intros z. destruct (decide (z.2 = Some s)).
    - rewrite map_filter_insert_True by done. rewrite map_size_insert_None; [lia|].
      apply map_lookup_filter_None. by left.
    - rewrite map_filter_insert_False by done. rewrite delete_id by done. lia. }
  rewrite !Hz. lia.
Qed.

Lemma holders_pos v i h s : v !! i = Some (h, Some s) → (0 < holders v s)%nat.
Proof.
  intros Hi. unfold holders. apply Nat.neq_0_lt_0. intros Hz%map_size_empty_inv.
  assert (filter (λ kv : nat * (Hash * option nat), kv.2.2 = Some s) v !! i = Some (h, Some s))
    as Hl by (by apply map_lookup_filter_Some).
  rewrite Hz in Hl. by rewrite lookup_empty in Hl.
Qed.

Lemma slot_state_eq c s d : slots c !! s = Some d → slot_state c s = d.
Proof. unfold slot_state. by intros ->. Qed.

(** A coordinator that keeps its maps and its counts. *)
Lemma Counted_same v c c' :
  active c' = active c → next_slot c' = next_slot c →
  (∀ s d, slots c !! s = Some d → ∃ d', slots c' !! s = Some d' ∧ waiters d' = waiters d) →
  Counted v c → Counted v c'.
Proof.
  intros Ha Hn Hs [H1 H2 H3 H4]. split; rewrite ?Ha, ?Hn; [done| |done|done].
  intros h s Hh. destruct (H2 h s Hh) as (d & Hd & Hw & Hp). destruct (Hs s d Hd) as (d' & ? & ?).
  exists d'. split; [done|]. lia.
Qed.

Lemma Counted_acquire v c i h c' s leader :
  Counted v c → v !! i = Some (h, None) → acquire h c = (c', (s, leader)) →
  Counted (<[i := (h, Some s)]> v) c' ∧ active c' !! h = Some s ∧
  (leader = true → active c !! h = None ∧ s = next_slot c).
Proof.
  intros [H1 H2 H3 H4] Hi. unfold acquire. destruct (active c !! h) as [s0|] eqn:Eh.
  - intros [= <- <- <-]. split_and!; [|done|done].
    destruct (H2 h s0 Eh) as (d & Hd & Hw & Hp). rewrite (slot_state_eq _ _ _ Hd).
    split; cbn [active slots next_slot set_slot].
    + intros j h' s [[<- [= <- <-]]|[_ Hj]]%lookup_insert_Some; [done|]. by apply (H1 j).
    + intros h' s Hs. pose proof (holders_insert v i _ (h, Some s0) s Hi) as Hc.
      unfold bit in Hc. simpl in Hc. destruct (decide (s = s0)) as [->|Hne].
      * eexists. rewrite lookup_insert_eq. split; [done|]. cbn [waiters].
        rewrite decide_True in Hc by done. lia.
      * rewrite lookup_insert_ne by done. destruct (H2 h' s Hs) as (d' & Hd' & Hw' & Hp').
        exists d'. rewrite decide_False in Hc by congruence. split_and!; [done|lia|done].
    + done.
    + done.
  - intros [= <- <- <-]. set (s0 := next_slot c).
    assert (∀ h', active c !! h' ≠ Some s0) as Hfresh.
    { intros h' Hh'. apply H4 in Hh'. unfold s0 in Hh'. lia. }
    assert (holders v s0 = 0%nat) as Hnone.
    { unfold holders. apply map_size_empty_iff, map_empty. intros j.
      apply map_lookup_filter_None. right. intros [h' o] Hj Ho. simpl in Ho. subst o.
      by apply H1, Hfresh in Hj. }
    split_and!; cbn [active]; [|apply lookup_insert_eq|done]. split; cbn [active slots next_slot].
    + intros j h' s [[<- [= <- <-]]|[_ Hj]]%lookup_insert_Some; [apply lookup_insert_eq|].
      pose proof (H1 _ _ _ Hj) as Hact. rewrite lookup_insert_ne; [done|]. congruence.
    + intros h' s Hs. pose proof (holders_insert v i _ (h, Some s0) s Hi) as Hc.
      unfold bit in Hc. simpl in Hc. apply lookup_insert_Some in Hs as [[<- <-]|[Hne Hs]].
      * eexists. rewrite lookup_insert_eq. split; [done|]. cbn [waiters].
        rewrite decide_True in Hc by done. lia.
      * destruct (H2 h' s Hs) as (d' & Hd' & Hw' & Hp'). exists d'.
        assert (s ≠ s0) by (intros ->; by apply Hfresh in Hs).
        rewrite lookup_insert_ne by done. rewrite decide_False in Hc by congruence.
        split_and!; [done|lia|done].
    + intros h1 h2 s Hs1 Hs2. apply lookup_insert_Some in Hs1 as [[<- <-]|[Hn1 Hs1]],
        Hs2 as [[<- Hs2]|[Hn2 Hs2]]; [done|by apply Hfresh in Hs2| |by apply (H3 h1 h2 s)].
      subst s. by apply Hfresh in Hs1.
    + intros h' s [[<- <-]|[_ Hs%H4]]%lookup_insert_Some; lia.
Qed.

Lemma Counted_release v c i h s c' shared :
  Counted v c → v !! i = Some (h, Some s) → release h s c = (c', shared) →
  let d := slot_state c s in
  Counted (<[i := (h, None)]> v) c' ∧
  next_slot c' = next_slot c ∧
  slots c' = <[s := mkDownload (pred (waiters d)) (claimed_targets d) (result d)]> (slots c) ∧
  ((holders (<[i := (h, None)]> v) s = 0%nat ∧ active c' = delete h (active c) ∧
    shared = match result d with Some (Ok p) => Some p | _ => None end) ∨
   ((0 < holders (<[i := (h, None)]> v) s)%nat ∧ active c' = active c ∧ shared = None)).
Proof.
  intros [H1 H2 H3 H4] Hi Hrel d. pose proof (H1 _ _ _ Hi) as Hact.
  destruct (H2 _ _ Hact) as (d0 & Hd & Hw & Hp). unfold d. unfold release in Hrel.
  rewrite (slot_state_eq _ _ _ Hd) in Hrel |- *. clear d. cbn [waiters] in Hrel.
  assert (∀ s', (holders (<[i := (h, None)]> v) s' + bit (s' = s) = holders v s')%nat) as Hc.
  { intros s'. pose proof (holders_insert v i _ (h, None) s' Hi) as Hc. unfold bit in *.
    simpl in Hc. destruct (decide (s' = s)) as [->|]; [rewrite decide_True in Hc by done; lia|].
    rewrite decide_False in Hc by congruence. lia. }
  pose proof (Hc s) as Hcs. unfold bit in Hcs. rewrite decide_True in Hcs by done.
  assert (∀ h' s', active c !! h' = Some s' → s' ≠ s → ∃ d',
    <[s := mkDownload (pred (waiters d0)) (claimed_targets d0) (result d0)]> (slots c) !! s' = Some d'
    ∧ waiters d' = holders (<[i := (h, None)]> v) s' ∧ (0 < waiters d')%nat) as Hother.
  { intros h' s' Hs' Hne. rewrite lookup_insert_ne by done.
    destruct (H2 _ _ Hs') as (d' & ? & ? & ?). exists d'. pose proof (Hc s') as Hc'.
    unfold bit in Hc'. rewrite decide_False in Hc' by done. split_and!; [done|lia|done]. }
  destruct (Nat.eqb_spec (pred (waiters d0)) 0) as [Hz|Hnz]; simpl in Hrel.
  - rewrite bool_decide_eq_true_2 in Hrel by done. injection Hrel as <- <-.
    split_and!; [|done|done|left; split_and!; [lia|done|done]].
    split; cbn [active slots next_slot set_slot].
    + intros j h' s' Hj. apply lookup_insert_Some in Hj as [[_ ?]|[Hne Hj]]; [done|].
      pose proof (H1 _ _ _ Hj) as Hact'. apply lookup_delete_Some. split; [|done].
      intros <-. assert (s' = s) as -> by congruence.
      assert (0 < holders (<[i := (h, None)]> v) s)%nat; [|lia].
      apply (holders_pos _ j h). by rewrite lookup_insert_ne.
    + intros h' s' [Hne Hs']%lookup_delete_Some. apply (Hother h'); [done|]. intros ->.
      by apply Hne, (H3 _ _ s).
    + intros h1 h2 s' [_ Ha]%lookup_delete_Some [_ Hb]%lookup_delete_Some. by apply (H3 _ _ s').
    + intros h' s' [_ Hs']%lookup_delete_Some. by apply (H4 h').
  - injection Hrel as <- <-. split_and!; [|done|done|right; split_and!; [lia|done|done]].
    split; cbn [active slots next_slot set_slot].
    + intros j h' s' Hj. apply lookup_insert_Some in Hj as [[_ ?]|[Hne Hj]]; [done|].
      by apply (H1 j).
    + intros h' s' Hs'. destruct (decide (s' = s)) as [->|Hne]; [|by apply (Hother h')].
      rewrite lookup_insert_eq. eexists. split; [done|]. cbn [waiters]. lia.
    + done.
    + done.
Qed.

(** ** The phases of a download *)

(** What a task may be doing, given the result stored in its slot. *)
Definition fits (r : option (IoResult string)) (p : Pc) : Prop :=
  match r, p with
  | None, (Fetching _ _ | Looking _ | Missed _ | Sleeping _) => True
  | None, _ => False
  | Some _, Fetching _ _ => False
  | Some r, Failing _ => ∃ e, r = Err e
  | Some r, (Ready _ q | Copying _ q _) => r = Ok q
  | Some r, (Duplicate _ | Copied _ _ _) => ∃ q, r = Ok q
  | Some _, _ => True
  end.

(** The slot in which the task has claimed its target. *)
Definition claims (p : Pc) : option nat :=
  match p with Copying s _ _ | Copied s _ _ => Some s | _ => None end.

Definition fetching (p : Pc) : option nat :=
  match p with Fetching s _ => Some s | _ => None end.

Record Inv (w : Downloads) : Prop := {
  inv_counted : Counted (view (tasks w)) (coord w);
  inv_fits i t s : tasks w !! i = Some t → holds (pc t) = Some s →
    fits (result (slot_state (coord w) s)) (pc t);
  inv_leader h s : active (coord w) !! h = Some s → result (slot_state (coord w) s) = None →
    ∃ i t, tasks w !! i = Some t ∧ fetching (pc t) = Some s;
  inv_one i j t t' s : tasks w !! i = Some t → tasks w !! j = Some t' →
    fetching (pc t) = Some s → fetching (pc t') = Some s → i = j;
  inv_claimed i t s : tasks w !! i = Some t → claims (pc t) = Some s →
    from_entry (t_entry t) ∈ claimed_targets (slot_state (coord w) s);
  inv_distinct i j t t' s : tasks w !! i = Some t → tasks w !! j = Some t' →
    claims (pc t) = Some s → claims (pc t') = Some s →
    from_entry (t_entry t) = from_entry (t_entry t') → i = j
}.

Lemma fetching_holds p s : fetching p = Some s → holds p = Some s.
Proof. by destruct p. Qed.
Lemma claims_holds p s : claims p = Some s → holds p = Some s.
Proof. by destruct p. Qed.

Lemma alter_at_pc (ts : gmap nat Task) i t p :
  ts !! i = Some t → alter (at_pc p) i ts = <[i := at_pc p t]> ts.
Proof.
  intros Hi. apply map_eq. intros j. destruct (decide (i = j)) as [<-|Hne].
  - by rewrite lookup_alter_eq, lookup_insert_eq, Hi.
  - by rewrite lookup_alter_ne, lookup_insert_ne.
Qed.

Lemma view_insert ts i t : view (<[i := t]> ts) = <[i := task_view t]> (view ts).
Proof. apply fmap_insert. Qed.

Lemma view_lookup ts i t : ts !! i = Some t → view ts !! i = Some (task_view t).
Proof. intros Hi. unfold view. by rewrite lookup_fmap, Hi. Qed.

Lemma wake_cases s t :
  wake s t = t ∨ pc t = Sleeping s ∧ wake s t = at_pc (Looking s) t.
Proof.
  unfold wake. destruct (pc t) eqn:E; try (by left). case_bool_decide; [|by left].
  subst. by right.
Qed.

Lemma view_wake s ts : view (wake s <$> ts) = view ts.
Proof.
  unfold view. rewrite <-map_fmap_compose. apply map_fmap_ext. intros i t _. simpl.
  destruct (wake_cases s t) as [->|[E ->]]; [done|]. unfold task_view. simpl. by rewrite E.
Qed.

Lemma wake_lookup s (ts : gmap nat Task) i t : (wake s <$> ts) !! i = Some t →
  ∃ t0, ts !! i = Some t0 ∧ t_entry t = t_entry t0 ∧
    (t = t0 ∨ pc t0 = Sleeping s ∧ pc t = Looking s).
Proof.
  rewrite lookup_fmap. intros (t0 & Hi & ->)%fmap_Some. exists t0.
  destruct (wake_cases s t0) as [->|[E ->]]; naive_solver.
Qed.

Definition with_tasks (ts : gmap nat Task) (w : Downloads) : Downloads :=
  mkDownloads (coord w) ts (disk w) (next_recv_id w).

Lemma Inv_wake s w : Inv w → Inv (with_tasks (wake s <$> tasks w) w).
Proof.
  intros [H1 H2 H3 H4 H5 H6]. split; simpl.
  - by rewrite view_wake.
  - intros i t s' (t0 & Hi & _ & [->|[E0 E1]])%wake_lookup Hh; [by eapply H2|].
    rewrite E1 in Hh |- *. injection Hh as <-. pose proof (H2 _ _ s Hi) as Hf.
    rewrite E0 in Hf. specialize (Hf eq_refl). by destruct (result _).
  - intros h s' Ha Hr. destruct (H3 h s' Ha Hr) as (i & t & Hi & Hf). exists i, t.
    split; [|done]. rewrite lookup_fmap, Hi. simpl. f_equal. unfold wake.
    by destruct (pc t).
  - intros i j t t' s' (t0 & Hi & _ & [->|[_ E]])%wake_lookup
      (t0' & Hj & _ & [->|[_ E']])%wake_lookup Hf Hf'; [by eapply H4|
      try rewrite E in Hf; try rewrite E' in Hf'; done..].
  - intros i t s' (t0 & Hi & _ & [->|[_ E]])%wake_lookup Hc; [by eapply H5|].
    by rewrite E in Hc.
  - intros i j t t' s' (t0 & Hi & _ & [->|[_ E]])%wake_lookup
      (t0' & Hj & _ & [->|[_ E']])%wake_lookup Hf Hf'; [by eapply H6|
      try rewrite E in Hf; try rewrite E' in Hf'; done..].
Qed.

(** A move of one task that leaves the results alone. *)
Lemma Inv_quiet w i t q c' d n :
  Inv w → tasks w !! i = Some t →
  fetching (pc t) = None → fetching q = None →
  Counted (<[i := (t_hash t, holds q)]> (view (tasks w))) c' →
  (∀ s, result (slot_state c' s) = result (slot_state (coord w) s)) →
  (∀ s, claimed_targets (slot_state (coord w) s) ⊆ claimed_targets (slot_state c' s)) →
  (∀ h s, active c' !! h = Some s → active (coord w) !! h = Some s) →
  (∀ s, holds q = Some s → fits (result (slot_state (coord w) s)) q) →
  (∀ s, claims q = Some s → claims (pc t) = Some s ∨
     from_entry (t_entry t) ∈ claimed_targets (slot_state c' s) ∧
     from_entry (t_entry t) ∉ claimed_targets (slot_state (coord w) s)) →
  Inv (mkDownloads c' (alter (at_pc q) i (tasks w)) d n).
Proof.
  intros [H1 H2 H3 H4 H5 H6] Hi Hnf Hnq Hc Hres Hcl Hact Hfit Hclaim.
  rewrite (alter_at_pc _ _ _ _ Hi). split; cbn [tasks coord].
  - by rewrite view_insert.
  - intros j t' s [[<- <-]|[_ Hj]]%lookup_insert_Some Hh; rewrite Hres; [by apply Hfit|].
    by eapply H2.
  - intros h s Ha Hr. rewrite Hres in Hr. destruct (H3 h s (Hact _ _ Ha) Hr) as (j & t' & Hj & Hf).
    exists j, t'. split; [|done]. rewrite lookup_insert_ne; [done|]. congruence.
  - intros j k t1 t2 s [[<- <-]|[_ Hj]]%lookup_insert_Some [[<- <-]|[_ Hk]]%lookup_insert_Some;
      cbn [at_pc pc]; [congruence..|by apply (H4 j k t1 t2 s)].
  - intros j t' s [[<- <-]|[_ Hj]]%lookup_insert_Some Hcs.
    + destruct (Hclaim s Hcs) as [Hold|[? _]]; [|done]. by apply Hcl, (H5 i t s).
    + by apply Hcl, (H5 j t' s).
  - intros j k t1 t2 s [[<- <-]|[Hj' Hj]]%lookup_insert_Some [[<- <-]|[Hk' Hk]]%lookup_insert_Some;
      cbn [at_pc pc t_entry]; [done|..]; intros C1 C2 E.
    + destruct (Hclaim s C1) as [Hold|[_ Hnew]]; [by apply (H6 i k t t2 s)|].
      exfalso. apply Hnew. rewrite E. by apply (H5 k t2 s).
    + destruct (Hclaim s C2) as [Hold|[_ Hnew]]; [by apply (H6 j i t1 t s)|].
      exfalso. apply Hnew. rewrite <-E. by apply (H5 j t1 s).
    + by apply (H6 j k t1 t2 s).
Qed.

(** ** The steps *)

Lemma slot_state_set s s' d c :
  slot_state (set_slot s d c) s' = if decide (s' = s) then d else slot_state c s'.
Proof.
  unfold slot_state, set_slot. simpl. destruct (decide (s' = s)) as [->|Hne].
  - by rewrite lookup_insert_eq.
  - by rewrite lookup_insert_ne.
Qed.

(** Storing a slot with the same number of holders. *)
Lemma Counted_set_slot v c i h s cl r :
  Counted v c → v !! i = Some (h, Some s) →
  Counted v (set_slot s (mkDownload (waiters (slot_state c s)) cl r) c).
Proof.
  intros Hc Hi. apply (Counted_same v c); [done|done| |done]. intros s' d Hd. simpl.
  destruct (decide (s' = s)) as [->|Hne].
  - rewrite lookup_insert_eq. eexists. split; [done|]. simpl. by rewrite (slot_state_eq _ _ _ Hd).
  - rewrite lookup_insert_ne by done. by eexists.
Qed.

Lemma insert_view_same ts i t o : ts !! i = Some t → holds (pc t) = o →
  <[i := (t_hash t, o)]> (view ts) = view ts.
Proof. intros Hi <-. apply insert_id. by rewrite (view_lookup _ _ _ Hi). Qed.

Section Steps.
Context (recv_path : N → Entry → string).

Lemma Inv_let_go w i t s own r :
  Inv w → tasks w !! i = Some t → holds (pc t) = Some s → fetching (pc t) = None →
  Inv (let_go i (t_hash t) s own r w).
Proof.
  intros Hinv Hi Hh Hf. unfold let_go.
  destruct (release (t_hash t) s (coord w)) as [c shared] eqn:Er.
  pose proof (view_lookup _ _ _ Hi) as Hv. unfold task_view in Hv. rewrite Hh in Hv.
  destruct (Counted_release _ _ _ _ _ _ _ (inv_counted w Hinv) Hv Er)
    as (Hc & Hn & Hs & Hcase).
  assert (∀ s', slot_state c s' = if decide (s' = s)
    then mkDownload (pred (waiters (slot_state (coord w) s)))
           (claimed_targets (slot_state (coord w) s)) (result (slot_state (coord w) s))
    else slot_state (coord w) s') as Hss.
  { intros s'. unfold slot_state at 1. rewrite Hs. destruct (decide (s' = s)) as [->|Hne].
    - by rewrite lookup_insert_eq.
    - by rewrite lookup_insert_ne. }
  apply (Inv_quiet w i t (Removing (option_list shared ++ own) r)); try done.
  - intros s'. rewrite Hss. case_decide; by subst.
  - intros s'. rewrite Hss. case_decide; by subst.
  - intros h s' Ha. cbn in Ha. destruct Hcase as [(_ & Hdel & _)|(_ & Heq & _)]; [|by rewrite <-Heq].
    rewrite Hdel in Ha. by apply lookup_delete_Some in Ha as [_ Ha].
Qed.

(** A step that only moves the task. *)
Lemma Inv_move w i t q d n :
  Inv w → tasks w !! i = Some t → holds q = holds (pc t) →
  fetching (pc t) = None → fetching q = None →
  (∀ s, holds q = Some s → fits (result (slot_state (coord w) s)) q) →
  (∀ s, claims q = Some s → claims (pc t) = Some s) →
  Inv (mkDownloads (coord w) (alter (at_pc q) i (tasks w)) d n).
Proof.
  intros Hinv Hi Hh Hf Hq Hfit Hcl. apply (Inv_quiet w i t); auto.
  rewrite Hh, (insert_view_same _ _ _ _ Hi) by done. apply Hinv.
Qed.

Lemma Inv_start w i t :
  Inv w → tasks w !! i = Some t → pc t = Start →
  ∀ w', run_task recv_path Works i t w = Some w' → Inv w'.
Proof.
  intros Hinv Hi Hpc w'. unfold run_task. rewrite Hpc.
  destruct (acquire (t_hash t) (coord w)) as [c [s leader]] eqn:Ea. intros [= <-].
  pose proof (view_lookup _ _ _ Hi) as Hv. unfold task_view in Hv. rewrite Hpc in Hv.
  destruct (Counted_acquire _ _ _ _ _ _ _ (inv_counted w Hinv) Hv Ea) as (Hc & Hact & Hnew).
  unfold acquire in Ea. destruct (active (coord w) !! t_hash t) as [s0|] eqn:Eh.
  - injection Ea as <- <- <-. unfold move, with_coord. simpl.
    apply (Inv_quiet w i t (Looking s0)); try done; try (by rewrite Hpc).
    + intros s. rewrite slot_state_set. case_decide; by subst.
    + intros s. rewrite slot_state_set. case_decide; by subst.
    + intros s [= <-]. destruct (result _); done.
  - injection Ea as <- <- <-. unfold move, with_coord, bump_id. simpl.
    set (s0 := next_slot (coord w)) in *. destruct Hinv as [H1 H2 H3 H4 H5 H6].
    assert (∀ j t' , tasks w !! j = Some t' → holds (pc t') ≠ Some s0) as Hfresh.
    { intros j t' Hj Hh. pose proof (view_lookup _ _ _ Hj) as Hvj. unfold task_view in Hvj.
      rewrite Hh in Hvj. apply (counted_active _ _ H1) in Hvj.
      apply (counted_next _ _ H1) in Hvj. unfold s0 in Hvj. lia. }
    assert (∀ s, s ≠ s0 → slot_state (mkCoord (<[t_hash t := s0]> (active (coord w)))
      (<[s0 := mkDownload 1 ∅ None]> (slots (coord w))) (S s0)) s = slot_state (coord w) s) as Hss.
    { intros s Hne. unfold slot_state. simpl. by rewrite lookup_insert_ne. }
    rewrite (alter_at_pc _ _ _ _ Hi). split; cbn [tasks coord].
    + by rewrite view_insert.
    + intros j t' s [[<- <-]|[_ Hj]]%lookup_insert_Some Hh.
      * injection Hh as <-. unfold slot_state. simpl. by rewrite lookup_insert_eq.
      * rewrite Hss by (intros ->; by eapply Hfresh). by eapply H2.
    + intros h s Ha Hr. cbn [active] in Ha.
      apply lookup_insert_Some in Ha as [[<- <-]|[Hne Ha]].
      { eexists i, _. split; [apply lookup_insert_eq|done]. }
      assert (s ≠ s0). { intros ->. apply (counted_next _ _ H1) in Ha. unfold s0 in Ha. lia. }
      rewrite Hss in Hr by done. destruct (H3 h s Ha Hr) as (j & t' & Hj & Hf). exists j, t'.
      split; [|done]. rewrite lookup_insert_ne; [done|]. intros <-. rewrite Hi in Hj.
      injection Hj as <-. by rewrite Hpc in Hf.
    + intros j k t1 t2 s [[<- <-]|[_ Hj]]%lookup_insert_Some [[<- <-]|[_ Hk]]%lookup_insert_Some;
        [done|..|by apply (H4 j k t1 t2 s)].
      * intros [= <-] Hf%fetching_holds. by apply Hfresh in Hk.
      * intros Hf%fetching_holds [= <-]. by apply Hfresh in Hj.
    + intros j t' s [[<- <-]|[_ Hj]]%lookup_insert_Some Hcl; [done|].
      rewrite Hss; [by apply (H5 j t' s)|]. intros ->. by apply (Hfresh j t'), claims_holds.
    + intros j k t1 t2 s [[<- <-]|[_ Hj]]%lookup_insert_Some [[<- <-]|[_ Hk]]%lookup_insert_Some;
        try done. by apply (H6 j k t1 t2 s).
Qed.

(** The leader's download ends: the result is stored. *)
Lemma Inv_fetched w i t s shared r d :
  Inv w → tasks w !! i = Some t → pc t = Fetching s shared →
  Inv (mkDownloads (set_result s r (coord w)) (alter (at_pc (Stored s)) i (tasks w)) d
         (next_recv_id w)).
Proof.
  intros [H1 H2 H3 H4 H5 H6] Hi Hpc.
  pose proof (view_lookup _ _ _ Hi) as Hv. unfold task_view in Hv. rewrite Hpc in Hv.
  pose proof (H2 i t s Hi) as Hnone. rewrite Hpc in Hnone. specialize (Hnone eq_refl).
  destruct (result (slot_state (coord w) s)) as [|] eqn:Er; [done|]. clear Hnone.
  rewrite (alter_at_pc _ _ _ _ Hi). unfold set_result. split; cbn [tasks coord].
  - rewrite view_insert. change (task_view (at_pc (Stored s) t)) with (t_hash t, Some s).
    rewrite (insert_view_same _ _ _ _ Hi) by (by rewrite Hpc). by apply (Counted_set_slot _ _ i (t_hash t)).
  - intros j t' s' Hj Hh. rewrite slot_state_set.
    apply lookup_insert_Some in Hj as [[<- <-]|[Hne Hj]].
    { injection Hh as <-. by rewrite decide_True. }
    case_decide as Hs; [subst s'|by eapply H2]. cbn [result].
    pose proof (H2 j t' s Hj Hh) as Hf. rewrite Er in Hf. destruct (pc t') eqn:Ep; try done.
    injection Hh as ->. exfalso. apply Hne. apply (H4 i j t t' s Hi Hj); [by rewrite Hpc|by rewrite Ep].
  - intros h s' Ha. rewrite slot_state_set. case_decide as Hs; [done|]. intros Hr.
    destruct (H3 h s' Ha Hr) as (j & t' & Hj & Hf). exists j, t'. split; [|done].
    rewrite lookup_insert_ne; [done|]. intros <-. rewrite Hi in Hj. injection Hj as <-.
    rewrite Hpc in Hf. by injection Hf.
  - intros j k t1 t2 s' [[<- <-]|[_ Hj]]%lookup_insert_Some [[<- <-]|[_ Hk]]%lookup_insert_Some;
      try done. by apply (H4 j k t1 t2 s').
  - intros j t' s' [[<- <-]|[_ Hj]]%lookup_insert_Some Hcl; [done|]. rewrite slot_state_set.
    case_decide as Hs; [subst s'|]; by apply (H5 j t').
  - intros j k t1 t2 s' [[<- <-]|[_ Hj]]%lookup_insert_Some [[<- <-]|[_ Hk]]%lookup_insert_Some;
      try done. by apply (H6 j k t1 t2 s').
Qed.

Lemma Inv_ready w i t s shared :
  Inv w → tasks w !! i = Some t → pc t = Ready s shared →
  ∀ w', run_task recv_path Works i t w = Some w' → Inv w'.
Proof.
  intros Hinv Hi Hpc w'. unfold run_task. rewrite Hpc. unfold claim_target.
  set (d := slot_state (coord w) s). set (tg := from_entry (t_entry t)).
  set (c := set_slot s _ (coord w)).
  pose proof (view_lookup _ _ _ Hi) as Hv. unfold task_view in Hv. rewrite Hpc in Hv.
  pose proof (inv_fits w Hinv i t s Hi) as Hfit. rewrite Hpc in Hfit. specialize (Hfit eq_refl).
  assert (∀ q, holds q = Some s → fetching q = None →
    fits (result (slot_state (coord w) s)) q →
    (claims q = None ∨ tg ∉ claimed_targets d) →
    ∀ n, Inv (mkDownloads c (alter (at_pc q) i (tasks w)) (disk w) n)) as Hgo.
  { intros q Hq Hnq Hfq Hcl n. apply (Inv_quiet w i t); try done; try (by rewrite Hpc).
    - rewrite Hq, (insert_view_same _ _ _ _ Hi) by (by rewrite Hpc).
      by apply (Counted_set_slot _ _ i (t_hash t)), Hv; apply Hinv.
    - intros s'. unfold c. rewrite slot_state_set. case_decide; by subst.
    - intros s'. unfold c. rewrite slot_state_set. case_decide; [|done]. subst. cbn. clear. set_solver.
    - intros s' Hs'. assert (s' = s) as -> by congruence. done.
    - intros s' Hs'. pose proof (claims_holds _ _ Hs') as Hh. assert (s' = s) as -> by congruence.
      right. unfold c. rewrite slot_state_set, decide_True by done. cbn [claimed_targets].
      destruct Hcl as [Hcl|Hcl]; [congruence|]. split; [|done].
      apply elem_of_union_l, elem_of_singleton. reflexivity. }
  destruct (result (slot_state (coord w) s)) as [r|] eqn:Er; [|done]. simpl in Hfit. subst r.
  case_bool_decide as Hfresh; intros [= <-]; apply Hgo; try done; [by right|by eexists|by left].
Qed.

Lemma Inv_run_task w ch i t w' :
  Inv w → tasks w !! i = Some t → ch ≠ Aborts → run_task recv_path ch i t w = Some w' → Inv w'.
Proof.
  intros Hinv Hi Hch Hrun. pose proof (inv_fits w Hinv i t) as Hfit.
  destruct (pc t) eqn:Hpc, ch; try done; try (by eapply Inv_start); try (by eapply Inv_ready);
    unfold run_task in Hrun; rewrite Hpc in Hrun; try done.
  - injection Hrun as <-. exact (Inv_fetched w i t s shared _ _ Hinv Hi Hpc).
  - injection Hrun as <-. exact (Inv_fetched w i t s shared _ _ Hinv Hi Hpc).
  - injection Hrun as <-. apply (Inv_wake s) in Hinv.
    apply (Inv_move _ i t (Looking s) _ _ Hinv); try done; try (by rewrite Hpc).
    + simpl. rewrite lookup_fmap, Hi. simpl. unfold wake. by rewrite Hpc.
    + simpl. intros s' [= <-]. specialize (Hfit s Hi eq_refl). by destruct (result _).
  - injection Hrun as <-.
    apply (Inv_move _ i t _ _ _ Hinv Hi); rewrite ?Hpc;
      destruct (result (slot_state (coord w) s)) as [[]|] eqn:Er; try done;
      intros s' [= <-]; rewrite Er; simpl; eauto.
  - injection Hrun as <-. apply (Inv_move _ i t _ _ _ Hinv Hi); rewrite ?Hpc; try done.
    intros s' [= <-]. specialize (Hfit s Hi eq_refl). by destruct (result _).
  - injection Hrun as <-. apply Inv_let_go; by rewrite ?Hpc.
  - injection Hrun as <-. apply Inv_let_go; by rewrite ?Hpc.
  - case_bool_decide; [|done]. injection Hrun as <-.
    apply (Inv_move _ i t _ _ _ Hinv Hi); rewrite ?Hpc; try done.
    intros s' [= <-]. specialize (Hfit s Hi eq_refl). destruct (result _); [|done]. simpl. eauto.
  - injection Hrun as <-. apply (Inv_move _ i t _ _ _ Hinv Hi); rewrite ?Hpc; try done.
    intros s' [= <-]. specialize (Hfit s Hi eq_refl). destruct (result _); [|done]. simpl. eauto.
  - injection Hrun as <-. destruct ok; apply Inv_let_go; by rewrite ?Hpc.
  - injection Hrun as <-. by apply (Inv_move _ i t _ _ _ Hinv Hi); rewrite ?Hpc.
Qed.

Lemma Inv_same_pcs w ts d :
  Inv w →
  (∀ i, (λ t, (t_entry t, t_hash t, pc t)) <$> ts !! i =
        (λ t, (t_entry t, t_hash t, pc t)) <$> tasks w !! i) →
  Inv (mkDownloads (coord w) ts d (next_recv_id w)).
Proof.
  intros [H1 H2 H3 H4 H5 H6] Hts.
  assert (∀ i t, ts !! i = Some t → ∃ t0, tasks w !! i = Some t0 ∧ t_entry t0 = t_entry t ∧
    t_hash t0 = t_hash t ∧ pc t0 = pc t) as Hb.
  { intros i t Hi. specialize (Hts i). rewrite Hi in Hts. destruct (tasks w !! i) as [t0|]; [|done].
    exists t0. by injection Hts as -> -> ->. }
  split; cbn [tasks coord].
  - replace (view ts) with (view (tasks w)); [done|]. apply map_eq. intros i. unfold view.
    rewrite !lookup_fmap. specialize (Hts i). destruct (ts !! i) as [t|], (tasks w !! i) as [t0|];
      try done. injection Hts as _ E1 E2. unfold task_view. simpl. by rewrite E1, E2.
  - intros i t s (t0 & Hi & He & Hh & Hp)%Hb. rewrite <-Hp. by apply H2 with i.
  - intros h s Ha Hr. destruct (H3 h s Ha Hr) as (i & t & Hi & Hf). specialize (Hts i).
    rewrite Hi in Hts. destruct (ts !! i) as [t'|] eqn:Ei; [|done]. injection Hts as _ _ E.
    exists i, t'. split; [done|]. by rewrite E.
  - intros i j t t' s (t0 & Hi & _ & _ & Hp)%Hb (t0' & Hj & _ & _ & Hp')%Hb.
    rewrite <-Hp, <-Hp'. by apply (H4 i j).
  - intros i t s (t0 & Hi & He & _ & Hp)%Hb. rewrite <-Hp, <-He. by apply (H5 i).
  - intros i j t t' s (t0 & Hi & He & _ & Hp)%Hb (t0' & Hj & He' & _ & Hp')%Hb.
    rewrite <-Hp, <-Hp', <-He, <-He'. by apply (H6 i j).
Qed.

Lemma Inv_spawn w i e h :
  Inv w → tasks w !! i = None →
  Inv (mkDownloads (coord w) (<[i := mkTask e h Start false]> (tasks w)) (disk w) (next_recv_id w)).
Proof.
  intros [H1 H2 H3 H4 H5 H6] Hi. split; cbn [tasks coord].
  - rewrite view_insert. unfold task_view. simpl. destruct H1 as [C1 C2 C3 C4].
    assert (view (tasks w) !! i = None) as Hv by (unfold view; by rewrite lookup_fmap, Hi).
    split; [|intros h' s Hs; destruct (C2 h' s Hs) as (d & ? & Hw & ?)|done|done].
    + intros j h' s [[_ [=]]|[_ Hj]]%lookup_insert_Some. by apply (C1 j).
    + exists d. split_and!; [done| |done]. rewrite Hw. unfold holders.
      rewrite map_filter_insert_False by done. by rewrite delete_id.
  - intros j t s [[<- <-]|[_ Hj]]%lookup_insert_Some; [done|]. by apply (H2 j).
  - intros h' s Ha Hr. destruct (H3 h' s Ha Hr) as (j & t & Hj & Hf). exists j, t. split; [|done].
    rewrite lookup_insert_ne; [done|]. congruence.
  - intros j k t t' s [[<- <-]|[_ Hj]]%lookup_insert_Some [[<- <-]|[_ Hk]]%lookup_insert_Some;
      try done. by apply (H4 j k t t' s).
  - intros j t s [[<- <-]|[_ Hj]]%lookup_insert_Some; [done|]. by apply (H5 j).
  - intros j k t t' s [[<- <-]|[_ Hj]]%lookup_insert_Some [[<- <-]|[_ Hk]]%lookup_insert_Some;
      try done. by apply (H6 j k t t' s).
Qed.

Lemma Inv_dstep w w' : Inv w → dstep recv_path w w' → Inv w'.
Proof.
  intros Hinv Hstep. destruct Hstep as [ch i w w' Hs|i e h w Hi Hc]; [|by apply Inv_spawn].
  unfold step in Hs. destruct (tasks w !! i) as [t|] eqn:Hi; [|done].
  destruct (aborted t) eqn:Hab; [done|].
  destruct ch; [by apply (Inv_run_task w Works i t)|by apply (Inv_run_task w Fails i t)|].
  destruct (awaiting (pc t)); [|done]. injection Hs as <-. apply Inv_same_pcs; [done|].
  intros j. destruct (decide (i = j)) as [<-|Hne].
  - by rewrite lookup_insert_eq, Hi.
  - by rewrite lookup_insert_ne.
Qed.

Lemma Inv_empty : Inv no_downloads.
Proof. by split; [split|..]. Qed.

Lemma Inv_reachable w : rtc (dstep recv_path) no_downloads w → Inv w.
Proof.
  intros Hr. assert (Inv no_downloads) as H0 by apply Inv_empty. revert H0.
  induction Hr as [w|x y z Hxy _ IH]; [done|]. intros Hx. by apply IH, (Inv_dstep x).
Qed.
End Steps.
