(* ===== verification/DownloadFiles.v ===== *)
(** * The temporary files of shared downloads

    Every temporary file belongs to exactly one task or slot; a shared file is
    on disk as long as its slot is active, and is removed once, by the last
    holder. *)

From S2P Require Import Prelude Paths Bytes Entries Download DownloadInv.

Definition returned (r : IoResult (option string)) : list string :=
  match r with Ok (Some q) => [q] | _ => [] end.

(** The files a task works on, apart from the shared one. *)
Definition owned_pc (p : Pc) : list string :=
  match p with
  | Fetching _ q => [q]
  | Copying _ _ own | Copied _ own _ => [own]
  | Removing files r => files ++ returned r
  | Finished r => returned r
  | _ => []
  end.

(** The file a task has got for its caller. *)
Definition gives (p : Pc) : option string :=
  match p with
  | Copied _ own true => Some own
  | Removing _ (Ok (Some own)) | Finished (Ok (Some own)) => Some own
  | _ => None
  end.

(** A task or a slot. *)
Abbreviation Owner := (nat + nat)%type (only parsing).

Definition owns (w : Downloads) (o : Owner) (q : string) : Prop :=
  match o with
  | inl i => ∃ t, tasks w !! i = Some t ∧ q ∈ owned_pc (pc t)
  | inr s => (∃ h, active (coord w) !! h = Some s) ∧
             result (slot_state (coord w) s) = Some (Ok q)
  end.

Lemma disk_unchanged (D : gset string) p :
  p ∈ D ↔ (p ∈ D ∨ p ∈ (∅ : gset string)) ∧ p ∉ (∅ : gset string).
Proof. set_solver. Qed.

Lemma disk_added (D A : gset string) p :
  p ∈ D ∨ p ∈ A ↔ (p ∈ D ∨ p ∈ A) ∧ p ∉ (∅ : gset string).
Proof. set_solver. Qed.

Lemma disk_nothing_added (D : gset string) p : p ∈ D ↔ p ∈ D ∨ p ∈ (∅ : gset string).
Proof. set_solver. Qed.

Section Files.
Context (recv_path : N → Entry → string).
Context (recv_path_inj : ∀ i j e e', recv_path i e = recv_path j e' → i = j).

Record Owned (P : Owner → string → Prop) (n : N) : Prop := {
  owned_one o1 o2 q : P o1 q → P o2 q → o1 = o2;
  owned_name o q : P o q → ∃ k e, (k < n)%N ∧ q = recv_path k e
}.

Lemma Owned_sub (P P' : Owner → string → Prop) n :
  Owned P n → (∀ o q, P' o q → P o q) → Owned P' n.
Proof. intros [H1 H2] Hsub. split; [intros o1 o2 q ? ?; apply (H1 o1 o2 q)|intros o q ?; apply (H2 o q)]; auto. Qed.

Lemma Owned_fresh (P P' : Owner → string → Prop) n b e :
  Owned P n → (∀ o q, P' o q → P o q ∨ o = b ∧ q = recv_path n e) → Owned P' (N.succ n).
Proof.
  intros [H1 H2] Hsub.
  assert (∀ o, ¬ P o (recv_path n e)) as Hnew.
  { intros o Ho. destruct (H2 _ _ Ho) as (k & e' & Hk & Heq). apply recv_path_inj in Heq. lia. }
  split.
  - intros o1 o2 q Ho1 Ho2.
    destruct (Hsub _ _ Ho1) as [Hp1|[-> ->]], (Hsub _ _ Ho2) as [Hp2|[-> Hq]];
      [by apply (H1 o1 o2 q)|subst; by apply Hnew in Hp1|by apply Hnew in Hp2|done].
  - intros o q Ho. destruct (Hsub _ _ Ho) as [Hp|[-> ->]].
    + destruct (H2 _ _ Hp) as (k & e' & Hk & ->). exists k, e'. split; [lia|done].
    + exists n, e. split; [lia|done].
Qed.

Lemma Owned_transfer (P P' : Owner → string → Prop) n a b :
  Owned P n → (∀ o q, P' o q → P o q ∧ o ≠ a ∨ o = b ∧ P a q) → Owned P' n.
Proof.
  intros [H1 H2] Hsub. split.
  - intros o1 o2 q Ho1 Ho2.
    destruct (Hsub _ _ Ho1) as [[Hp1 Hn1]|[-> Hp1]], (Hsub _ _ Ho2) as [[Hp2 Hn2]|[-> Hp2]];
      [by apply (H1 o1 o2 q)|by destruct Hn1; apply (H1 o1 a q)|
       by destruct Hn2; apply (H1 o2 a q)|done].
  - intros o q Ho. destruct (Hsub _ _ Ho) as [[Hp _]|[_ Hp]]; by apply (H2 _ _ Hp).
Qed.

Record Files (w : Downloads) : Prop := {
  files_owned : Owned (owns w) (next_recv_id w);
  files_disk q : q ∈ disk w → ∃ o, owns w o q;
  files_shared s q : owns w (inr s) q → q ∈ disk w;
  files_given i t q : tasks w !! i = Some t → gives (pc t) = Some q → q ∈ disk w;
  files_apart i t fs r q : tasks w !! i = Some t → pc t = Removing fs r → q ∈ fs →
    q ∉ returned r
}.

Lemma gives_owned p q : gives p = Some q → q ∈ owned_pc p.
Proof.
  destruct p as [| | | | | | | | | |s own []|fs [[]|]|[[]|]]; try done; intros [= ->]; simpl;
    set_solver.
Qed.

(** ** How a step changes the owners *)

Section Move.
Context (w : Downloads) (i : nat) (t : Task) (q : Pc) (c : Coordinator) (d : gset string) (n : N).
Context (Hi : tasks w !! i = Some t).

Definition moved : Downloads := mkDownloads c (alter (at_pc q) i (tasks w)) d n.

Lemma owns_moved_task j p : owns moved (inl j) p →
  j = i ∧ p ∈ owned_pc q ∨ j ≠ i ∧ owns w (inl j) p.
Proof.
  simpl. rewrite (alter_at_pc _ _ _ _ Hi). intros (t' & Hj & Hp).
  apply lookup_insert_Some in Hj as [[<- <-]|[Hne Hj]]; [by left|right]. split; [done|]. eauto.
Qed.

Lemma owns_moved_here p : p ∈ owned_pc q → owns moved (inl i) p.
Proof.
  intros Hp. simpl. rewrite (alter_at_pc _ _ _ _ Hi). eexists. rewrite lookup_insert_eq. by split.
Qed.

Lemma owns_moved_other j p : j ≠ i → owns w (inl j) p → owns moved (inl j) p.
Proof.
  intros Hne (t' & Hj & Hp). simpl. rewrite (alter_at_pc _ _ _ _ Hi). exists t'.
  by rewrite lookup_insert_ne.
Qed.

Lemma moved_task j t' : tasks moved !! j = Some t' →
  j = i ∧ pc t' = q ∨ j ≠ i ∧ tasks w !! j = Some t'.
Proof.
  simpl. rewrite (alter_at_pc _ _ _ _ Hi).
  intros [[<- <-]|[Hne Hj]]%lookup_insert_Some; [by left|by right].
Qed.

Lemma Files_moved (add rem : gset string) :
  Files w →
  (∀ p, p ∈ d ↔ (p ∈ disk w ∨ p ∈ add) ∧ p ∉ rem) →
  Owned (owns moved) n →
  (∀ p, p ∈ add → ∃ o, owns moved o p) →
  (∀ p, p ∈ rem → owns w (inl i) p) →
  (∀ o p, owns w o p → p ∉ rem → ∃ o', owns moved o' p) →
  (∀ s p, owns moved (inr s) p → owns w (inr s) p ∨ p ∈ add ∧ p ∉ rem) →
  (∀ p, gives q = Some p → (p ∈ disk w ∨ p ∈ add) ∧ p ∉ rem) →
  (∀ fs r p, q = Removing fs r → p ∈ fs → p ∉ returned r) →
  Files moved.
Proof.
  intros [F1 F2 F3 F4 F5] Hd Hown Hadd Hrem Hkeep Hslot Hgive Hapart.
  assert (∀ o p, owns w o p → o ≠ inl i → p ∉ rem) as Hnot.
  { intros o p Ho Hne Hp. by apply Hne, (owned_one _ _ F1 o (inl i) p), Hrem. }
  split; cbn [disk next_recv_id].
  - done.
  - intros p [[Hp|Hp] Hr]%Hd; [|by apply Hadd]. destruct (F2 p Hp) as [o Ho]. by apply (Hkeep o).
  - intros s p Ho. apply Hd. destruct (Hslot s p Ho) as [Hw|[? ?]]; [|by auto].
    split; [left; by apply (F3 s)|by apply (Hnot (inr s))].
  - intros j t' p [[-> <-]|[Hne Hj]]%moved_task Hg; apply Hd; [by apply Hgive|].
    split; [left; by apply (F4 j t')|]. apply (Hnot (inl j)); [|congruence].
    exists t'. split; [done|]. by apply gives_owned.
  - intros j t' fs r p [[-> Heq]|[Hne Hj]]%moved_task Hpc; [by apply Hapart; rewrite <-Heq|].
    by apply (F5 j t').
Qed.

(** The slots own what they owned. *)
Definition slots_kept : Prop :=
  ∀ s p, owns moved (inr s) p ↔ owns w (inr s) p.

(** Moves that touch no shared file: the task's files are the same ones, or a
    fresh one more. *)
Lemma Files_same_slots (add : gset string) :
  Files w → slots_kept → n = next_recv_id w →
  (∀ p, p ∈ owned_pc q ↔ p ∈ owned_pc (pc t)) →
  (∀ p, p ∈ d ↔ p ∈ disk w ∨ p ∈ add) →
  (∀ p, p ∈ add → p ∈ owned_pc q) →
  (∀ p, gives q = Some p → p ∈ disk w ∨ p ∈ add) →
  (∀ fs r p, q = Removing fs r → p ∈ fs → p ∉ returned r) →
  Files moved.
Proof.
  intros HF Hs Hn Hq Hd Hadd Hg Ha.
  assert (∀ o p, owns moved o p ↔ owns w o p) as Hown.
  { intros [j|s] p; [|apply Hs]. split.
    - intros [[-> Hp]|[_ Ho]]%owns_moved_task; [|done]. exists t. split; [done|]. by apply Hq.
    - intros Ho. destruct (decide (j = i)) as [->|Hne]; [|by apply owns_moved_other].
      apply owns_moved_here. destruct Ho as (t' & Hj & Hp). rewrite Hi in Hj. injection Hj as <-.
      by apply Hq. }
  apply (Files_moved add ∅); try done.
  - intros p. rewrite Hd. apply disk_added.
  - rewrite Hn. apply (Owned_sub (owns w)); [apply HF|]. intros o p. apply Hown.
  - intros p Hp. exists (inl i). by apply owns_moved_here, Hadd.
  - intros o p Ho _. exists o. by apply Hown.
  - intros s p Ho. left. by apply Hs.
  - intros p Hp. split; [by apply Hg|apply not_elem_of_empty].
Qed.

Lemma Files_fresh e s :
  Files w → slots_kept → n = N.succ (next_recv_id w) → d = disk w →
  owned_pc (pc t) = [] → gives q = None → owned_pc q = [recv_path (next_recv_id w) e] →
  holds q = Some s → Files moved.
Proof.
  intros HF Hs Hn Hd Ht Hg Hq Hh. apply (Files_moved ∅ ∅); try done.
  - intros p. rewrite Hd. apply disk_unchanged.
  - rewrite Hn. apply (Owned_fresh (owns w) _ _ (inl i) e); [apply HF|]. intros [j|s'] p.
    + intros [[-> Hp]|[_ Ho]]%owns_moved_task; [right|by left]. rewrite Hq in Hp.
      split; [done|]. by apply list_elem_of_singleton.
    + intros Ho. left. by apply Hs.
  - intros [j|s'] p Ho _; [|exists (inr s'); by apply Hs]. exists (inl j).
    destruct (decide (j = i)) as [->|Hne]; [|by apply owns_moved_other].
    destruct Ho as (t' & Hj & Hp). rewrite Hi in Hj. injection Hj as <-. rewrite Ht in Hp.
    by apply not_elem_of_nil in Hp.
  - intros s' p Ho. left. by apply Hs.
  - intros p Hp. congruence.
  - intros fs r p ->. done.
Qed.
End Move.

Lemma slots_kept_same w i q c d n :
  active c = active (coord w) →
  (∀ s, result (slot_state c s) = result (slot_state (coord w) s)) →
  slots_kept w i q c d n.
Proof. intros Ha Hr s p. unfold owns, moved. cbn [coord]. by rewrite Ha, Hr. Qed.

Lemma result_set_slot w s d s' :
  result d = result (slot_state (coord w) s) →
  result (slot_state (set_slot s d (coord w)) s') = result (slot_state (coord w) s').
Proof. intros Hd. rewrite slot_state_set. case_decide; by subst. Qed.

Lemma Files_let_go w i t s own r :
  Inv w → Files w → tasks w !! i = Some t → holds (pc t) = Some s →
  (∀ p, p ∈ own ++ returned r ↔ p ∈ owned_pc (pc t)) →
  (∀ p, r = Ok (Some p) → gives (pc t) = Some p) →
  (∀ p, p ∈ own → p ∉ returned r) →
  Files (let_go i (t_hash t) s own r w).
Proof.
  intros Hinv HF Hi Hh Hown Hg Hapart. unfold let_go.
  destruct (release (t_hash t) s (coord w)) as [c shared] eqn:Er.
  pose proof (view_lookup _ _ _ Hi) as Hv. unfold task_view in Hv. rewrite Hh in Hv.
  pose proof (counted_active _ _ (inv_counted w Hinv) _ _ _ Hv) as Hact.
  destruct (Counted_release _ _ _ _ _ _ _ (inv_counted w Hinv) Hv Er) as (_ & _ & Hs & Hcase).
  assert (∀ s', result (slot_state c s') = result (slot_state (coord w) s')) as Hres.
  { intros s'. unfold slot_state at 1. rewrite Hs. destruct (decide (s' = s)) as [->|Hne].
    - by rewrite lookup_insert_eq.
    - by rewrite lookup_insert_ne. }
  assert (∀ fs p, gives (Removing fs r) = Some p → p ∈ disk w) as Hgive.
  { intros fs p Hp. apply (files_given w HF i t p Hi), Hg. destruct r as [[x|]|]; try done.
    by injection Hp as ->. }
  destruct Hcase as [(_ & Ha & ->)|(_ & Ha & ->)].
  - set (sh := match _ with Some (Ok p) => Some p | _ => None end).
    assert (∀ p, p ∈ option_list sh ↔ owns w (inr s) p) as Hsh.
    { intros p. simpl. unfold sh. destruct (result _) as [[x|]|]; simpl; [|set_solver..].
      rewrite list_elem_of_singleton. split; [intros ->; by eauto|by intros [_ [= ->]]]. }
    apply (Files_moved w i t _ c _ _ Hi ∅ ∅); try done.
    + intros p. apply disk_unchanged.
    + apply (Owned_transfer (owns w) _ _ (inr s) (inl i)); [apply HF|]. intros [j|s'] p.
      * intros [[-> Hp]|[Hne Ho]]%(owns_moved_task w i t _ c _ _ Hi); [|by left].
        cbn [owned_pc] in Hp. rewrite <-app_assoc in Hp. apply elem_of_app in Hp as [Hp|Hp].
        { right. split; [done|]. by apply Hsh. }
        left. split; [|done]. exists t. split; [done|]. by apply Hown.
      * intros [[h Hh'] Hr]. cbn [coord moved] in Hh', Hr. rewrite Ha in Hh'.
        apply lookup_delete_Some in Hh' as [Hne Hh']. rewrite Hres in Hr. left.
        split; [split; [by eauto|done]|]. intros [= ->].
        by apply Hne, (counted_inj _ _ (inv_counted w Hinv) _ _ s).
    + intros [j|s'] p Ho _.
      * exists (inl j). destruct (decide (j = i)) as [->|Hne]; [|by apply (owns_moved_other w i t)].
        apply (owns_moved_here w i t _ _ _ _ Hi). destruct Ho as (t' & Hj & Hp). rewrite Hi in Hj.
        injection Hj as <-. cbn [owned_pc]. rewrite <-app_assoc. apply elem_of_app. right.
        by apply Hown.
      * destruct (decide (s' = s)) as [->|Hne].
        { exists (inl i). apply (owns_moved_here w i t _ _ _ _ Hi). cbn [owned_pc].
          rewrite <-app_assoc. apply elem_of_app. left. by apply Hsh. }
        exists (inr s'). destruct Ho as [[h Hh'] Hr]. split; cbn [coord moved]; [|by rewrite Hres].
        exists h. rewrite Ha. apply lookup_delete_Some. split; [|done]. congruence.
    + intros s' p [[h Hh'] Hr]. cbn [coord moved] in Hh', Hr. rewrite Hres in Hr. left.
      rewrite Ha in Hh'. apply lookup_delete_Some in Hh' as [_ Hh']. split; [by eauto|done].
    + intros p Hp. split; [left; by eapply Hgive|apply not_elem_of_empty].
    + intros fs r' p [= <- <-] [Hp|Hp]%elem_of_app; [|by apply Hapart]. intros Hp'.
      assert (inr s = inl i :> nat + nat); [|done].
      apply (owned_one _ _ (files_owned w HF) _ _ p); [by apply Hsh|]. exists t. split; [done|].
      apply Hown, elem_of_app. by right.
  - apply (Files_same_slots w i t _ c _ _ Hi ∅); try done.
    + by apply slots_kept_same.
    + intros p. apply disk_nothing_added.
    + intros p Hp. left. by eapply Hgive.
    + intros fs r' p [= <- <-]. apply Hapart.
Qed.

Lemma Files_quiet w i t q c d n :
  Files w → tasks w !! i = Some t →
  active c = active (coord w) →
  (∀ s, result (slot_state c s) = result (slot_state (coord w) s)) →
  n = next_recv_id w → d = disk w →
  owned_pc (pc t) = [] → owned_pc q = [] → gives q = None →
  Files (mkDownloads c (alter (at_pc q) i (tasks w)) d n).
Proof.
  intros HF Hi Ha Hr Hn -> Ht Hq Hg. apply (Files_same_slots w i t q c _ _ Hi ∅); try done.
  - by apply slots_kept_same.
  - intros p. by rewrite Hq, Ht.
  - intros p. apply disk_nothing_added.
  - intros p Hp. congruence.
  - intros fs r p -> Hp. cbn [owned_pc] in Hq. apply app_eq_nil in Hq as [-> _].
    by apply not_elem_of_nil in Hp.
Qed.

Lemma Files_fetched w i t s shared r :
  Inv w → Files w → tasks w !! i = Some t → pc t = Fetching s shared →
  r = Ok shared ∨ (∃ e, r = Err e) →
  Files (mkDownloads (set_result s r (coord w)) (alter (at_pc (Stored s)) i (tasks w))
    (match r with Ok _ => {[shared]} ∪ disk w | Err _ => disk w ∖ {[shared]} end)
    (next_recv_id w)).
Proof.
  intros Hinv HF Hi Hpc Hr.
  pose proof (view_lookup _ _ _ Hi) as Hv. unfold task_view in Hv. rewrite Hpc in Hv.
  pose proof (counted_active _ _ (inv_counted w Hinv) _ _ _ Hv) as Hact.
  pose proof (inv_fits w Hinv i t s Hi) as Hnone. rewrite Hpc in Hnone. specialize (Hnone eq_refl).
  destruct (result (slot_state (coord w) s)) eqn:Er; [done|]. clear Hnone.
  assert (∀ p, owns w (inl i) p ↔ p = shared) as Hi_owns.
  { intros p. simpl. rewrite Hi. split.
    - intros (t' & [= <-] & Hp). rewrite Hpc in Hp. by apply list_elem_of_singleton.
    - intros ->. exists t. split; [done|]. rewrite Hpc. by left. }
  assert (∀ p, ¬ owns w (inr s) p) as Hs_owns by (intros p [_ Hp]; congruence).
  set (d := match r with Ok _ => _ | Err _ => _ end).
  assert (∀ s' p, owns (moved w i (Stored s) (set_result s r (coord w)) d (next_recv_id w)) (inr s') p ↔
    owns w (inr s') p ∨ s' = s ∧ r = Ok p) as Hslots.
  { intros s' p. unfold owns, moved, set_result. cbn [coord active set_slot].
    rewrite slot_state_set. case_decide as Hs; [subst s'|naive_solver]. cbn [result].
    split; [intros [_ [= ->]]; by right|]. intros [[_ ?]|[_ ->]]; [congruence|]. by eauto. }
  assert (∀ j p, owns (moved w i (Stored s) (set_result s r (coord w)) d (next_recv_id w)) (inl j) p ↔
    owns w (inl j) p ∧ j ≠ i) as Htasks.
  { intros j p. split.
    - intros [[_ Hp]|[Hne Ho]]%(owns_moved_task w i t _ _ _ _ Hi); [|done].
      by apply not_elem_of_nil in Hp.
    - intros [Ho Hne]. by apply (owns_moved_other w i t). }
  apply (Files_moved w i t _ _ _ _ Hi (match r with Ok _ => {[shared]} | Err _ => ∅ end)
    (match r with Ok _ => ∅ | Err _ => {[shared]} end)); try done.
  - intros p. unfold d. destruct r; set_solver.
  - apply (Owned_transfer (owns w) _ _ (inl i) (inr s)); [apply HF|]. intros [j|s'] p.
    + intros [Ho Hne]%Htasks. left. split; [done|]. congruence.
    + intros [Ho|[-> ->]]%Hslots; [by left|]. right. split; [done|]. apply Hi_owns.
      destruct Hr as [[= ->]|[e [=]]]; done.
  - intros p Hp. exists (inr s). apply Hslots. right. split; [done|].
    destruct Hr as [->|[e ->]]; set_solver.
  - intros p Hp. apply Hi_owns. destruct r; set_solver.
  - intros [j|s'] p Ho Hnr; [|exists (inr s'); apply Hslots; by left].
    destruct (decide (j = i)) as [->|Hne]; [|exists (inl j); by apply Htasks].
    apply Hi_owns in Ho as ->. exists (inr s). apply Hslots. right.
    destruct Hr as [->|[e ->]]; [done|]. set_solver.
  - intros s' p [Ho|[-> Hp]]%Hslots; [by left|right]. subst r. destruct Hr as [[= ->]|[e [=]]].
    set_solver.
Qed.

(** Tasks replaced by tasks with the same files. *)
Lemma Files_same_tasks w ts :
  Files w →
  (∀ i, (λ t, (owned_pc (pc t), gives (pc t))) <$> ts !! i =
        (λ t, (owned_pc (pc t), gives (pc t))) <$> tasks w !! i) →
  (∀ i t fs r, ts !! i = Some t → pc t = Removing fs r →
     ∃ t0, tasks w !! i = Some t0 ∧ pc t0 = Removing fs r) →
  Files (with_tasks ts w).
Proof.
  intros [F1 F2 F3 F4 F5] Hts Hrm.
  assert (∀ o q, owns (with_tasks ts w) o q ↔ owns w o q) as Hown.
  { intros [j|s] q; [|done]. simpl. specialize (Hts j). split; intros (t & Hj & Hq);
      rewrite Hj in Hts; [destruct (tasks w !! j) as [t0|]|destruct (ts !! j) as [t0|]]; try done;
      exists t0; (split; [done|]); injection Hts as E _; congruence. }
  split; cbn [disk next_recv_id with_tasks].
  - apply (Owned_sub (owns w)); [done|]. intros o q. apply Hown.
  - intros q [o Ho]%F2. exists o. by apply Hown.
  - intros s q Ho. apply (F3 s). by apply (Hown (inr s)).
  - intros j t q Hj Hg. specialize (Hts j). change (ts !! j = Some t) in Hj. rewrite Hj in Hts.
    destruct (tasks w !! j) as [t0|] eqn:E; [|done]. injection Hts as _ E'.
    apply (F4 j t0); congruence.
  - intros j t fs r q Hj Hpc. destruct (Hrm j t fs r Hj Hpc) as (t0 & Hj0 & Hp0).
    by apply (F5 j t0).
Qed.

Lemma Files_wake s w : Files w → Files (with_tasks (wake s <$> tasks w) w).
Proof.
  intros HF. apply Files_same_tasks; [done|..].
  - intros i. rewrite lookup_fmap. destruct (tasks w !! i) as [t|]; [|done]. simpl.
    destruct (wake_cases s t) as [->|[E ->]]; [done|]. simpl. by rewrite E.
  - intros i t fs r (t0 & Hi & _ & [->|[_ E]])%wake_lookup Hpc; [by eauto|congruence].
Qed.

Lemma Files_start w i t :
  Inv w → Files w → tasks w !! i = Some t → pc t = Start →
  ∀ w', run_task recv_path Works i t w = Some w' → Files w'.
Proof.
  intros Hinv HF Hi Hpc w'. unfold run_task. rewrite Hpc. unfold acquire.
  destruct (active (coord w) !! t_hash t) as [s0|] eqn:Eh; intros [= <-].
  - apply (Files_quiet w i t); rewrite ?Hpc; try done. intros s. by apply result_set_slot.
  - apply (Files_fresh w i t _ _ _ _ Hi (t_entry t) (next_slot (coord w)));
      rewrite ?Hpc; try done.
    set (s0 := next_slot (coord w)). intros s q. unfold owns, moved, slot_state. simpl.
    destruct (decide (s = s0)) as [->|Hne].
    + rewrite lookup_insert_eq. split; [by intros [_ ?]|]. intros [[h Hh] _].
      apply (counted_next _ _ (inv_counted w Hinv)) in Hh. unfold s0 in Hh. lia.
    + rewrite lookup_insert_ne by done. split; intros [[h Hh] Hr]; (split; [|done]); exists h.
      * apply lookup_insert_Some in Hh as [[_ ?]|[_ Hh]]; [|done]. by destruct Hne.
      * rewrite lookup_insert_ne; [done|]. congruence.
Qed.

Lemma Files_ready w i t s shared :
  Files w → tasks w !! i = Some t → pc t = Ready s shared →
  ∀ w', run_task recv_path Works i t w = Some w' → Files w'.
Proof.
  intros HF Hi Hpc w'. unfold run_task. rewrite Hpc. unfold claim_target.
  case_bool_decide; intros [= <-].
  - apply (Files_fresh w i t _ _ _ _ Hi (t_entry t) s); rewrite ?Hpc; try done.
    apply slots_kept_same; [done|]. intros s'. by apply result_set_slot.
  - apply (Files_quiet w i t); rewrite ?Hpc; try done. intros s'. by apply result_set_slot.
Qed.

Lemma Files_copied w i t s shared own ok :
  Files w → tasks w !! i = Some t → pc t = Copying s shared own →
  Files (move i (Copied s own ok) (with_disk ({[own]} ∪ disk w) w)).
Proof.
  intros HF Hi Hpc. apply (Files_same_slots w i t _ _ _ _ Hi {[own]}); rewrite ?Hpc; try done.
  - intros p. set_solver.
  - intros p ->%elem_of_singleton. by left.
  - intros p Hg. right. destruct ok; [|done]. injection Hg as ->. by apply elem_of_singleton.
Qed.

Lemma Files_removed w i t fs r :
  Files w → tasks w !! i = Some t → pc t = Removing fs r →
  Files (move i (Finished r) (with_disk (disk w ∖ list_to_set fs) w)).
Proof.
  intros HF Hi Hpc.
  assert (slots_kept w i (Finished r) (coord w) (disk w ∖ list_to_set fs) (next_recv_id w)) as Hs
    by (by apply slots_kept_same).
  apply (Files_moved w i t _ _ _ _ Hi ∅ (list_to_set fs)); try done.
  - intros p. set_solver.
  - apply (Owned_sub (owns w)); [apply HF|]. intros [j|s] p; [|apply Hs].
    intros [[-> Hp]|[_ Ho]]%(owns_moved_task w i t _ _ _ _ Hi); [|done]. exists t.
    split; [done|]. rewrite Hpc. apply elem_of_app. by right.
  - intros p Hp%elem_of_list_to_set. exists t. split; [done|]. rewrite Hpc. apply elem_of_app.
    by left.
  - intros [j|s] p Ho Hn; [|exists (inr s); by apply Hs]. exists (inl j).
    destruct (decide (j = i)) as [->|Hne]; [|by apply (owns_moved_other w i t)].
    apply (owns_moved_here w i t _ _ _ _ Hi). destruct Ho as (t' & Hj & Hp). rewrite Hi in Hj.
    injection Hj as <-. rewrite Hpc in Hp. apply elem_of_app in Hp as [Hp|Hp]; [|done].
    by destruct Hn; apply elem_of_list_to_set.
  - intros s p Ho. left. by apply Hs.
  - intros p Hg. assert (p ∈ returned r) as Hp by (by apply (gives_owned (Finished r))).
    split.
    + left. apply (files_given w HF i t p Hi). rewrite Hpc. by destruct r as [[]|].
    + intros Hin%elem_of_list_to_set. by apply (files_apart w HF i t fs r p).
Qed.

Lemma Files_run_task w ch i t w' :
  Inv w → Files w → tasks w !! i = Some t → run_task recv_path ch i t w = Some w' → Files w'.
Proof.
  intros Hinv HF Hi Hrun.
  destruct (pc t) eqn:Hpc, ch; try (by eapply Files_start); try (by eapply Files_ready);
    unfold run_task in Hrun; rewrite Hpc in Hrun; try done.
  - injection Hrun as <-. apply (Files_fetched w i t s shared (Ok shared)); auto.
  - injection Hrun as <-. apply (Files_fetched w i t s shared (Err OtherError)); eauto.
  - injection Hrun as <-. apply (Files_wake s) in HF.
    apply (Files_quiet _ i t (Looking s) _ _ _ HF); rewrite ?Hpc; try done.
    simpl. rewrite lookup_fmap, Hi. simpl. unfold wake. by rewrite Hpc.
  - injection Hrun as <-. apply (Files_quiet w i t); rewrite ?Hpc; try done;
      by destruct (result _) as [[]|].
  - injection Hrun as <-. by apply (Files_quiet w i t); rewrite ?Hpc.
  - injection Hrun as <-. apply Files_let_go; rewrite ?Hpc; try done; intros; apply not_elem_of_nil.
  - injection Hrun as <-. apply Files_let_go; rewrite ?Hpc; try done; intros; apply not_elem_of_nil.
  - case_bool_decide; [|done]. injection Hrun as <-. by apply (Files_copied w i t s shared).
  - injection Hrun as <-. by apply (Files_copied w i t s shared).
  - injection Hrun as <-. destruct ok; apply Files_let_go; rewrite ?Hpc; try done.
    + by intros p [= ->].
    + by intros p Hp%not_elem_of_nil.
    + intros p _. apply not_elem_of_nil.
  - injection Hrun as <-. by apply (Files_removed w i t).
Qed.

Lemma Files_abort w i t :
  Files w → tasks w !! i = Some t →
  Files (mkDownloads (coord w) (<[i := mkTask (t_entry t) (t_hash t) (pc t) true]> (tasks w))
    (match pc t with Fetching _ p | Copying _ _ p => {[p]} ∪ disk w | _ => disk w end)
    (next_recv_id w)).
Proof.
  intros HF Hi. set (t' := mkTask _ _ _ true).
  assert (Files (with_tasks (<[i := t']> (tasks w)) w)) as [F1 F2 F3 F4 F5].
  { apply Files_same_tasks; [done|..].
    - intros j. destruct (decide (i = j)) as [<-|Hne]; [by rewrite lookup_insert_eq, Hi|].
      by rewrite lookup_insert_ne.
    - intros j t0 fs r [[<- <-]|[_ Hj]]%lookup_insert_Some Hpc; eauto. }
  set (d := match pc t with Fetching _ p | Copying _ _ p => _ | _ => _ end).
  assert (∀ p, p ∈ disk w → p ∈ d) as Hsub by (intros p Hp; unfold d; destruct (pc t); set_solver).
  split; cbn [disk next_recv_id]; [done| |by intros s q Ho; apply Hsub, (F3 s)|
    by intros j t0 q Hj Hg; apply Hsub, (F4 j t0)|done].
  intros q Hq. assert (q ∈ disk w ∨ q ∈ owned_pc (pc t)) as [Hd|Ho].
  { unfold d in Hq. destruct (pc t); set_solver. }
  - destruct (F2 q Hd) as [o Ho]. by exists o.
  - exists (inl i), t'. split; [apply lookup_insert_eq|done].
Qed.

Lemma Files_spawn w i e h :
  Files w → tasks w !! i = None →
  Files (mkDownloads (coord w) (<[i := mkTask e h Start false]> (tasks w)) (disk w) (next_recv_id w)).
Proof.
  intros [F1 F2 F3 F4 F5] Hi. set (w' := mkDownloads _ _ _ _).
  assert (∀ o q, owns w' o q ↔ owns w o q) as Hown.
  { intros [j|s] q; [|done]. simpl. split; intros (t & Hj & Hq).
    - apply lookup_insert_Some in Hj as [[<- <-]|[_ Hj]]; [|by eauto].
      by apply not_elem_of_nil in Hq.
    - exists t. split; [|done]. rewrite lookup_insert_ne; [done|congruence]. }
  split; cbn [disk next_recv_id w'].
  - apply (Owned_sub (owns w)); [done|]. intros o q. apply Hown.
  - intros q [o Ho]%F2. exists o. by apply Hown.
  - intros s q Ho. apply (F3 s). by apply (Hown (inr s)).
  - intros j t q Hj Hg. unfold w' in Hj. cbn [tasks] in Hj.
    apply lookup_insert_Some in Hj as [[<- <-]|[_ Hj]]; [done|]. by apply (F4 j t).
  - intros j t fs r q Hj Hpc. unfold w' in Hj. cbn [tasks] in Hj.
    apply lookup_insert_Some in Hj as [[<- <-]|[_ Hj]]; [done|]. by apply (F5 j t fs).
Qed.

Lemma Files_dstep w w' : Inv w → Files w → dstep recv_path w w' → Files w'.
Proof.
  intros Hinv HF Hstep. destruct Hstep as [ch i w w' Hs|i e h w Hi Hc]; [|by apply Files_spawn].
  unfold step in Hs. destruct (tasks w !! i) as [t|] eqn:Hi; [|done].
  destruct (aborted t) eqn:Hab; [done|].
  destruct ch; [by apply (Files_run_task w Works i t)|by apply (Files_run_task w Fails i t)|].
  destruct (awaiting (pc t)); [|done]. injection Hs as <-. by apply Files_abort.
Qed.

Lemma Files_reachable w : rtc (dstep recv_path) no_downloads w → Inv w ∧ Files w.
Proof.
  intros Hr. assert (Inv no_downloads ∧ Files no_downloads) as H0.
  { split; [apply Inv_empty|]. split; try done; [|by intros s q [[h Hh] _]].
    split; [by intros [i|s] o q; [intros (t & Hi & _)|intros [[h Hh] _]]|].
    by intros [i|s] q; [intros (t & Hi & _)|intros [[h Hh] _]]. }
  revert H0. induction Hr as [w|x y z Hxy _ IH]; [done|]. intros [Hi Hf].
  apply IH. split; [by apply (Inv_dstep recv_path x)|by apply (Files_dstep x)].
Qed.
End Files.
