(* ===== verification/DownloadProps.v ===== *)
(** * What shared downloads promise, and where they do not keep it *)

From stdpp Require Import pretty.
From S2P Require Import Prelude Paths Bytes Fs Entries Samples State Download DownloadInv.
From S2P Require Import DownloadFiles.

(** ** The names of temporary files never repeat *)

Lemma append_sep_inj c s1 s2 t1 t2 :
  contains c s1 = false → contains c s2 = false →
  s1 +:+ String c t1 = s2 +:+ String c t2 → s1 = s2.
Proof.
  revert s2. induction s1 as [|a s1 IH]; intros [|b s2] H1 H2 Heq; [done|..].
  - rewrite append_nil_l, append_cons in Heq. injection Heq as <- _. simpl in H2.
    by rewrite bool_decide_eq_true_2 in H2.
  - rewrite append_nil_l, append_cons in Heq. injection Heq as -> _. simpl in H1.
    by rewrite bool_decide_eq_true_2 in H1.
  - rewrite !append_cons in Heq. injection Heq as <- Heq. simpl in H1, H2.
    apply orb_false_iff in H1 as [_ H1], H2 as [_ H2]. f_equal. by apply IH.
Qed.

Lemma pretty_N_no_dash (n : N) : contains "-"%char (pretty n) = false.
Proof.
  unfold pretty, pretty_N. case_decide; [done|].
  assert (∀ x s, contains "-"%char s = false → contains "-"%char (pretty_N_go x s) = false) as Hgo.
  { intros x. induction (N.lt_wf_0 x) as [x _ IH]. intros s Hs.
    assert (x = 0 ∨ 0 < x)%N as [->|Hx] by lia; [by rewrite pretty_N_go_0|].
    rewrite pretty_N_go_step by done. apply IH; [by apply N.div_lt|]. simpl. rewrite Hs, orb_false_r.
    apply bool_decide_eq_false. assert (x `mod` 10 < 10)%N as Hm by (by apply N.mod_lt).
    unfold pretty_N_char. repeat case_match; done. }
  by apply Hgo.
Qed.

Lemma pretty_Z_of_N (n : N) : pretty (Z.of_N n) = pretty n.
Proof. by destruct n. Qed.

Lemma append_inj_l s t1 t2 : s +:+ t1 = s +:+ t2 → t1 = t2.
Proof. intros Heq. by apply append_inj_len in Heq as [_ ?]. Qed.

Lemma path_join_inj_r base s t :
  is_absolute s = false → is_absolute t = false →
  path_join base s = path_join base t → s = t.
Proof.
  unfold path_join. intros -> ->. repeat case_match; intros Heq; repeat apply append_inj_l in Heq; done.
Qed.

(** [FolderState::tmp_recv_path] by the value of the process's counter. *)
Definition recv_name (blake3 : string → Hash) (s : FolderState) (pid : Z) (id : N) (e : Entry)
  : string := tmp_recv_path blake3 s pid (Z.of_N id) e.

Lemma recv_name_inj blake3 s pid i j e e' :
  recv_name blake3 s pid i e = recv_name blake3 s pid j e' → i = j.
Proof.
  unfold recv_name, tmp_recv_path. intros Heq%path_join_inj_r; [|done..].
  do 3 apply append_inj_l in Heq.
  rewrite !pretty_Z_of_N in Heq. apply append_sep_inj in Heq; [|apply pretty_N_no_dash..].
  by apply (inj pretty).
Qed.

(** ** Coordination *)

Section Props.
Context (blake3 : string → Hash) (s0 : FolderState) (pid : Z).
Abbreviation reachable := (rtc (dstep (recv_name blake3 s0 pid)) no_downloads).

(** How many tasks hold a slot, the aborted ones included. *)
Definition holding (w : Downloads) (s : nat) : nat :=
  base.size (filter (λ it : nat * Task, holds (pc it.2) = Some s) (tasks w)).

Lemma holding_view w s : holders (view (tasks w)) s = holding w s.
Proof. unfold holding, holders, view. by rewrite map_filter_fmap, map_size_fmap. Qed.

Lemma reachable_active w i t s :
  reachable w → tasks w !! i = Some t → holds (pc t) = Some s →
  active (coord w) !! t_hash t = Some s.
Proof.
  intros Hr Hi Hh. apply Inv_reachable in Hr as [H1 _ _ _ _ _].
  apply (counted_active _ _ H1 i). rewrite (view_lookup _ _ _ Hi). unfold task_view. by rewrite Hh.
Qed.

Lemma reachable_files w : reachable w → Files (recv_name blake3 s0 pid) w.
Proof. intros Hr. eapply Files_reachable; [|done]. apply recv_name_inj. Qed.




(** ** A leader that was aborted *)

(** The slot's leader is gone and the slot is still active. *)
Record Orphaned (w : Downloads) (i : nat) (h : Hash) (s : nat) : Prop := {
  orphan_task : ∃ t p, tasks w !! i = Some t ∧ aborted t = true ∧ t_hash t = h ∧
                       pc t = Fetching s p;
  orphan_result : result (slot_state (coord w) s) = None
}.

Lemma Orphaned_active w i h s : Inv w → Orphaned w i h s → active (coord w) !! h = Some s.
Proof.
  intros HI [(t & p & Hi & _ & <- & Hp) _]. apply (counted_active _ _ (inv_counted w HI) i).
  rewrite (view_lookup _ _ _ Hi). unfold task_view. by rewrite Hp.
Qed.

(** What can hold an orphaned slot. *)
Lemma Orphaned_holders w i h s j t :
  Inv w → Orphaned w i h s → tasks w !! j = Some t → holds (pc t) = Some s →
  aborted t = true ∧ j = i ∨ pc t = Looking s ∨ pc t = Missed s ∨ pc t = Sleeping s.
Proof.
  intros HI [(t0 & p & Hi & Hab & _ & Hp) Hr] Hj Hh.
  pose proof (inv_fits w HI j t s Hj Hh) as Hf. rewrite Hr in Hf.
  destruct (pc t) eqn:Hpc; try done; injection Hh as ->; auto. left.
  assert (j = i) as -> by (apply (inv_one w HI j i t t0 s); by rewrite ?Hpc, ?Hp).
  split; [congruence|done].
Qed.

Lemma Orphaned_no_leader w i h s j t q :
  Inv w → Orphaned w i h s → tasks w !! j = Some t → aborted t = false → pc t = Fetching s q →
  False.
Proof.
  intros HI HO Hj Hab Hp.
  assert (holds (pc t) = Some s) as Hh by (by rewrite Hp).
  destruct (Orphaned_holders w i h s j t HI HO Hj Hh) as [[? _]|[?|[?|?]]]; congruence.
Qed.

Lemma result_release h s' c c' shared s :
  release h s' c = (c', shared) → result (slot_state c' s) = result (slot_state c s).
Proof.
  assert (∀ d, result d = result (slot_state c s') →
    result (slot_state (set_slot s' d c) s) = result (slot_state c s)) as Hset.
  { intros d Hd. rewrite slot_state_set. destruct (decide (s = s')) as [->|]; done. }
  unfold release. intros Hrel.
  repeat case_match; simplify_eq; by apply (Hset (mkDownload _ _ _)).
Qed.

Lemma result_acquire h c c' s' leader s :
  acquire h c = (c', (s', leader)) → s ≠ next_slot c →
  result (slot_state c' s) = result (slot_state c s).
Proof.
  unfold acquire. destruct (active c !! h) as [s1|]; intros [= <- <- <-] Hne.
  - rewrite slot_state_set. destruct (decide (s = s1)) as [->|]; done.
  - unfold slot_state. simpl. by rewrite lookup_insert_ne.
Qed.

Lemma Orphaned_step w w' i h s ch j :
  Inv w → Orphaned w i h s → step (recv_name blake3 s0 pid) ch j w = Some w' → Orphaned w' i h s.
Proof.
  intros HI HO Hstep. pose proof HO as [(t0 & p & Hi & Hab & Hh & Hp) Hr].
  unfold step in Hstep. destruct (tasks w !! j) as [t|] eqn:Hj; [|done].
  destruct (aborted t) eqn:Habt; [done|]. assert (j ≠ i) as Hne by congruence.
  assert (∀ q c d n, result (slot_state c s) = None →
    Orphaned (mkDownloads c (alter (at_pc q) j (tasks w)) d n) i h s) as Hmove.
  { intros q c d n Hres. split; [|done]. exists t0, p. cbn [tasks].
    by rewrite lookup_alter_ne. }
  assert (∀ own r, Orphaned (let_go j (t_hash t) (default 0%nat (holds (pc t))) own r w) i h s) as Hlet.
  { intros own r. unfold let_go. destruct (release _ _ _) as [c sh] eqn:Er. apply Hmove.
    by rewrite (result_release _ _ _ _ _ _ Er). }
  destruct ch; [| |destruct (awaiting (pc t)); [|done]; injection Hstep as <-; split; [|done];
    exists t0, p; cbn [tasks]; by rewrite lookup_insert_ne].
  all: unfold run_task in Hstep;
    destruct (pc t) as [|s1 q1|s1|s1|s1|s1|s1|s1 q1|s1|s1 q1 own|s1 own ok|fs r|r] eqn:Hpc; try done.
  all: try (injection Hstep as <-; by apply Hmove).
  all: try (injection Hstep as <-; by apply Hlet).
  - destruct (acquire (t_hash t) (coord w)) as [c [s1 leader]] eqn:Ea.
    assert (result (slot_state c s) = None) as Hres.
    { rewrite (result_acquire _ _ _ _ _ _ Ea); [done|].
      pose proof (counted_next _ _ (inv_counted w HI) h s (Orphaned_active w i h s HI HO)). lia. }
    injection Hstep as <-. by destruct leader; apply Hmove.
  - assert (s1 ≠ s) as Hs by (by intros ->; apply (Orphaned_no_leader w i h s j t q1 HI HO)).
    injection Hstep as <-. apply (Hmove _ (set_result s1 (Ok q1) (coord w))). unfold set_result.
    by rewrite slot_state_set, decide_False.
  - injection Hstep as <-. split; [|done]. exists t0, p. cbn [move tasks].
    rewrite lookup_alter_ne by done. rewrite lookup_fmap, Hi. simpl. unfold wake. by rewrite Hp.
  - unfold claim_target in Hstep. set (c := set_slot s1 _ _) in Hstep.
    assert (result (slot_state c s) = None) as Hc.
    { unfold c. rewrite slot_state_set. destruct (decide (s = s1)) as [<-|]; done. }
    injection Hstep as <-. by case_bool_decide; apply (Hmove _ c).
  - case_bool_decide; [|done]. injection Hstep as <-. by apply Hmove.
  - injection Hstep as <-. destruct ok; apply Hlet.
  - assert (s1 ≠ s) as Hs by (by intros ->; apply (Orphaned_no_leader w i h s j t q1 HI HO)).
    injection Hstep as <-. apply (Hmove _ (set_result s1 (Err OtherError) (coord w))).
    unfold set_result. by rewrite slot_state_set, decide_False.
Qed.

Lemma Orphaned_dstep w w' i h s :
  Inv w → Orphaned w i h s → dstep (recv_name blake3 s0 pid) w w' → Orphaned w' i h s.
Proof.
  intros HI HO Hs. destruct Hs as [ch j w w' Hs|j e h' w Hj Hc]; [by eapply Orphaned_step|].
  destruct HO as [(t0 & p & Hi & Hrest) Hr]. split; [|done]. exists t0, p. cbn [tasks].
  rewrite lookup_insert_ne; [done|congruence].
Qed.

(** The task has not begun, or waits in the slot. *)
Definition pending (h : Hash) (s : nat) (t : Task) : Prop :=
  t_hash t = h → pc t = Start ∨ holds (pc t) = Some s.

Lemma run_task_moves w w' ch j t :
  tasks w !! j = Some t → run_task (recv_name blake3 s0 pid) ch j t w = Some w' →
  (∃ t', tasks w' !! j = Some t' ∧ t_hash t' = t_hash t) ∧
  ∀ k u', k ≠ j → tasks w' !! k = Some u' →
    ∃ u, tasks w !! k = Some u ∧ t_hash u' = t_hash u ∧ holds (pc u') = holds (pc u) ∧
         (pc u = Start → pc u' = Start).
Proof.
  intros Hj Hrun.
  assert (∀ ts q c d n, w' = mkDownloads c (alter (at_pc q) j ts) d n →
    (ts = tasks w ∨ ∃ s, pc t = Stored s ∧ ts = wake s <$> tasks w) →
    (∃ t', tasks w' !! j = Some t' ∧ t_hash t' = t_hash t) ∧
    ∀ k u', k ≠ j → tasks w' !! k = Some u' →
      ∃ u, tasks w !! k = Some u ∧ t_hash u' = t_hash u ∧ holds (pc u') = holds (pc u) ∧
           (pc u = Start → pc u' = Start)) as Hgo.
  { intros ts q c d n -> Hts. cbn [tasks] in *. split.
    - rewrite lookup_alter_eq. destruct Hts as [->|(s & Hp & ->)]; [rewrite Hj; by eexists|].
      rewrite lookup_fmap, Hj. eexists. split; [reflexivity|]. simpl.
      by destruct (wake_cases s t) as [->|[_ ->]].
    - intros k u' Hk Hu. rewrite lookup_alter_ne in Hu by done.
      destruct Hts as [->|(s & _ & ->)]; [by eauto|].
      rewrite lookup_fmap in Hu. destruct (tasks w !! k) as [u|]; [|done]. injection Hu as <-.
      exists u. split; [done|]. destruct (wake_cases s u) as [->|[E ->]]; [done|]. simpl.
      by rewrite E. }
  unfold run_task in Hrun.
  destruct (pc t) as [|s q|s|s|s|s|s|s q|s|s q own|s own ok|fs r|r] eqn:Hp, ch; try done;
    unfold let_go in Hrun; repeat case_match; try done; injection Hrun as <-;
    (eapply Hgo; [reflexivity|]); auto; right; by exists s.
Qed.

(** A task that begins or waits in an orphaned slot stays there. *)
Lemma pending_run w w' i h s ch j t t' :
  Inv w → Orphaned w i h s → tasks w !! j = Some t → aborted t = false → t_hash t = h →
  pc t = Start ∨ holds (pc t) = Some s →
  run_task (recv_name blake3 s0 pid) ch j t w = Some w' → tasks w' !! j = Some t' →
  holds (pc t') = Some s.
Proof.
  intros HI HO Hj Hab Hh Hp Hrun Hj'. pose proof (Orphaned_active w i h s HI HO) as Hact.
  assert (∀ q c d n, w' = mkDownloads c (alter (at_pc q) j (tasks w)) d n → pc t' = q) as Hq.
  { intros q c d n ->. cbn [tasks] in Hj'. rewrite lookup_alter_eq, Hj in Hj'.
    by injection Hj' as <-. }
  unfold run_task in Hrun. destruct Hp as [Hp|Hp].
  - rewrite Hp in Hrun. destruct ch; try done. unfold acquire in Hrun. rewrite Hh, Hact in Hrun.
    injection Hrun as <-. by rewrite (Hq (Looking s) _ _ _ eq_refl).
  - destruct (Orphaned_holders w i h s j t HI HO Hj Hp) as [[? _]|[E|[E|E]]]; [congruence|..];
      rewrite E in Hrun; destruct ch; try done; injection Hrun as <-.
    + rewrite (Hq _ _ _ _ eq_refl). by rewrite (orphan_result _ _ _ _ HO).
    + by rewrite (Hq _ _ _ _ eq_refl).
Qed.

(** Every task for the object [h], apart from [old] ones, has not begun or waits. *)
Definition all_pending (old : nat → Prop) (h : Hash) (s : nat) (w : Downloads) : Prop :=
  ∀ j t, ¬ old j → tasks w !! j = Some t → t_hash t = h → pc t = Start ∨ holds (pc t) = Some s.

Lemma pending_dstep old w w' i h s :
  Inv w → Orphaned w i h s → dstep (recv_name blake3 s0 pid) w w' →
  all_pending old h s w → all_pending old h s w'.
Proof.
  intros HI HO Hs Hp j t' Hold Hj' Hh. destruct Hs as [ch k w w' Hs|k e h' w Hk Hc].
  - unfold step in Hs. destruct (tasks w !! k) as [t|] eqn:Hk; [|done].
    destruct (aborted t) eqn:Hab; [done|].
    assert (run_task (recv_name blake3 s0 pid) ch k t w = Some w' →
      pc t' = Start ∨ holds (pc t') = Some s) as Hrun.
    { intros Hrun. destruct (run_task_moves _ _ _ _ _ Hk Hrun) as [(u & Hu & E) Hothers].
      destruct (decide (j = k)) as [->|Hne].
      - right. eapply pending_run; eauto; [congruence|]. apply (Hp k t Hold Hk). congruence.
      - destruct (Hothers j t' Hne Hj') as (u0 & Hu0 & E1 & E2 & E3). rewrite E1 in Hh.
        destruct (Hp j u0 Hold Hu0 Hh) as [?|?]; [left; auto|right; congruence]. }
    destruct ch; [by apply Hrun|by apply Hrun|].
    destruct (awaiting (pc t)); [|done]. injection Hs as <-. cbn [tasks] in Hj'.
    apply lookup_insert_Some in Hj' as [[<- <-]|[_ Hj']]; [by apply (Hp k t Hold Hk)|by apply (Hp j)].
  - cbn [tasks] in Hj'. apply lookup_insert_Some in Hj' as [[<- <-]|[_ Hj']]; [by left|].
    by apply (Hp j).
Qed.

(** C34. aborted_leader_blocks: when the task that downloads an object is aborted
    (as happens to all of a directory's downloads when one of them fails), the
    coordinator keeps its slot for ever: no task that wants the object, whether
    it waits already or asks at any later time, ever gets an answer. *)
Theorem aborted_leader_blocks (w w' : Downloads) (i : nat) (t : Task) (s : nat) (p : string)
    (Hw : reachable w) (Hi : tasks w !! i = Some t) (Hab : aborted t = true)
    (Hp : pc t = Fetching s p) (Hrun : rtc (dstep (recv_name blake3 s0 pid)) w w') :
  active (coord w') !! t_hash t = Some s ∧ result (slot_state (coord w') s) = None ∧
  ∀ j t', tasks w' !! j = Some t' → t_hash t' = t_hash t →
    (∀ r, pc t' = Finished r → ∃ t0, tasks w !! j = Some t0 ∧ holds (pc t0) = None ∧
                                     pc t0 ≠ Start).
Proof.
  set (old := λ j, ∃ t0, tasks w !! j = Some t0 ∧ holds (pc t0) = None ∧ pc t0 ≠ Start).
  pose proof (Inv_reachable _ w Hw) as HI. set (h := t_hash t).
  assert (Orphaned w i h s) as HO.
  { split; [by exists t, p|]. pose proof (inv_fits w HI i t s Hi) as Hf. rewrite Hp in Hf.
    specialize (Hf eq_refl). by destruct (result _). }
  assert (all_pending old h s w) as Hall.
  { intros j t0 Hnew Hj Hh. destruct (holds (pc t0)) as [s1|] eqn:Ehold.
    - right. pose proof (reachable_active w j t0 s1 Hw Hj Ehold) as Ha. rewrite Hh in Ha.
      rewrite (Orphaned_active w i h s HI HO) in Ha. congruence.
    - left. destruct (pc t0) eqn:Ep; try done; exfalso; apply Hnew; exists t0; by rewrite Ep. }
  assert (∀ j, old j ∨ ¬ old j) as Hdec.
  { intros j. unfold old. destruct (tasks w !! j) as [t0|]; [|right; by intros (? & ? & _)].
    destruct (holds (pc t0)) eqn:E; [right; intros (? & [= <-] & ? & _); congruence|].
    destruct (pc t0) eqn:E'; try done; [right; intros (? & [= <-] & _ & ?); congruence|..];
      left; exists t0; by rewrite E'. }
  assert (Orphaned w' i h s ∧ Inv w' ∧ all_pending old h s w') as (HO' & HI' & Hall').
  { clear Hi Hab Hp Hw Hdec. clearbody old. induction Hrun as [w|w w1 w' Hs _ IH]; [done|].
    apply IH; [by eapply Inv_dstep|by eapply Orphaned_dstep|by eapply pending_dstep]. }
  split_and!; [by apply (Orphaned_active w' i)|apply HO'|].
  intros j t' Hj Hh r Hr. destruct (Hdec j) as [Hold|Hnew]; [done|].
  destruct (Hall' j t' Hnew Hj Hh) as [E|E]; rewrite Hr in E; done.
Qed.
End Props.
