(* ===== verification/DownloadWitness.v ===== *)
(** * Runs of shared downloads

    Two tasks that want one object under two names, on concrete schedules. *)

From S2P Require Import Prelude Paths Bytes Fs Entries Tree TreeSpec Scan Samples State StateWitness.
From S2P Require Import Download DownloadInv DownloadFiles DownloadProps.

Definition folder : FolderState := sample_state ∅ 0 ∅.
Definition names : N → Entry → string := recv_name toy_blake3 folder 7.

Definition entry_a : Entry := file_entry "a.txt" "same" (ver 1 "n2").
Definition entry_b : Entry := file_entry "b.txt" "same" (ver 2 "n2").
Definition object_hash : Hash := toy_blake3 "same".

Definition spawn (i : nat) (e : Entry) (w : Downloads) : Downloads :=
  mkDownloads (coord w) (<[i := mkTask e object_hash Start false]> (tasks w)) (disk w)
    (next_recv_id w).

Definition two_tasks : Downloads := spawn 1 entry_b (spawn 0 entry_a no_downloads).

Lemma two_tasks_reachable : rtc (dstep names) no_downloads two_tasks.
Proof.
  eapply rtc_l; [apply (dstep_spawn names 0%nat entry_a object_hash); [done|reflexivity]|].
  eapply rtc_l; [apply (dstep_spawn names 1%nat entry_b object_hash); [done|reflexivity]|].
  apply rtc_refl.
Qed.

Lemma run_schedule_reachable l w w' :
  run_schedule names l w = Some w' → rtc (dstep names) w w'.
Proof.
  unfold run_schedule. revert w. induction l as [|[ch i] l IH]; intros w; simpl.
  - intros [= <-]. apply rtc_refl.
  - destruct (step names ch i w) as [w1|] eqn:E.
    + intros Hl. eapply rtc_l; [by eapply dstep_task|]. by apply IH.
    + assert (foldl (λ ow '(ch0, i0), w0 ← ow; step names ch0 i0 w0) None l = None) as ->; [|done].
      clear. induction l as [|[ch i] l IH]; [done|]. exact IH.
Qed.

Definition steps_of (i : nat) (n : nat) : list (Choice * nat) := replicate n (Works, i).

(** Task 1 reads that there is no result yet; before it goes to sleep, task 0
    stores the result and wakes everybody. *)
Definition losing_schedule : list (Choice * nat) :=
  steps_of 0 1 ++ steps_of 1 2 ++ steps_of 0 2 ++ steps_of 1 1 ++ steps_of 0 5.

(** Task 1 is asleep in time, and both finish. *)
Definition good_schedule : list (Choice * nat) :=
  steps_of 0 1 ++ steps_of 1 3 ++ steps_of 0 7 ++ steps_of 1 5.

Definition lost : Downloads := default no_downloads (run_schedule names losing_schedule two_tasks).
Definition good : Downloads := default no_downloads (run_schedule names good_schedule two_tasks).

Lemma good_finished :
  (pc <$> tasks good !! 0%nat, pc <$> tasks good !! 1%nat) =
  (Some (Finished (Ok (Some (names 1 entry_a)))), Some (Finished (Ok (Some (names 2 entry_b))))).
Proof. vm_compute. reflexivity. Qed.

Lemma lost_state :
  (pc <$> tasks lost !! 0%nat, pc <$> tasks lost !! 1%nat) =
  (Some (Finished (Ok (Some (names 1 entry_a)))), Some (Sleeping 0)).
Proof. vm_compute. reflexivity. Qed.

Lemma good_reachable : rtc (dstep names) no_downloads good.
Proof.
  etrans; [apply two_tasks_reachable|]. apply (run_schedule_reachable good_schedule).
  vm_compute. reflexivity.
Qed.

Lemma lost_reachable : rtc (dstep names) no_downloads lost.
Proof.
  etrans; [apply two_tasks_reachable|]. apply (run_schedule_reachable losing_schedule).
  vm_compute. reflexivity.
Qed.

Definition is_none {A} (o : option A) : bool := match o with Some _ => false | None => true end.

(** No task of a finite world can go on, and none was aborted. *)
Definition blocked (w : Downloads) : bool :=
  forallb (λ it : nat * Task, negb (aborted it.2) && is_none (step names Works it.1 w)
             && is_none (step names Fails it.1 w)) (map_to_list (tasks w)).

Lemma blocked_sound w : blocked w = true →
  (∀ i t, tasks w !! i = Some t → aborted t = false) ∧
  (∀ ch i, ch ≠ Aborts → step names ch i w = None).
Proof.
  unfold blocked. rewrite forallb_forall. intros Hall.
  assert (∀ i t, tasks w !! i = Some t → aborted t = false ∧ step names Works i w = None ∧
    step names Fails i w = None) as Hone.
  { intros i t Hi. specialize (Hall (i, t)). simpl in Hall.
    rewrite !andb_true_iff in Hall. destruct Hall as [[H1 H2] H3].
    - by apply list_elem_of_In, elem_of_map_to_list.
    - split; [by destruct (aborted t)|]. by destruct (step names Works i w), (step names Fails i w). }
  split; [intros i t Hi; by apply (Hone i t)|].
  intros ch i Hch. destruct (tasks w !! i) as [t|] eqn:Hi.
  - destruct (Hone i t Hi) as (_ & H1 & H2). by destruct ch.
  - unfold step. by rewrite Hi.
Qed.

(** C33. lost_wakeup: a task that reads the empty result just before the leader
    stores it, and asks to be notified just after the leader has notified,
    sleeps for ever although the object is there: nobody was aborted, everybody
    else has finished, and nothing can run. *)
Theorem lost_wakeup :
  ∃ (w : Downloads) (t0 t1 : Task) (own shared : string),
    rtc (dstep (recv_name toy_blake3 folder 7)) no_downloads w ∧
    (∀ i t, tasks w !! i = Some t → aborted t = false) ∧
    (∀ ch i, ch ≠ Aborts → step (recv_name toy_blake3 folder 7) ch i w = None) ∧
    tasks w !! 0%nat = Some t0 ∧ pc t0 = Finished (Ok (Some own)) ∧
    tasks w !! 1%nat = Some t1 ∧ pc t1 = Sleeping 0 ∧
    result (slot_state (coord w) 0) = Some (Ok shared) ∧ shared ∈ disk w.
Proof.
  destruct (blocked_sound lost) as [Hlive Hstuck]; [vm_compute; reflexivity|].
  exists lost, (mkTask entry_a object_hash (Finished (Ok (Some (names 1 entry_a)))) false),
    (mkTask entry_b object_hash (Sleeping 0) false), (names 1 entry_a), (names 0 entry_a).
  split; [apply lost_reachable|]. split; [done|]. split; [done|].
  split_and!; vm_compute; reflexivity.
Qed.




(** The leader is aborted while it downloads; later the object is asked for again. *)
Definition orphaned : Downloads :=
  default no_downloads (run_schedule names (steps_of 0 1 ++ [(Aborts, 0%nat)]) two_tasks).
Definition asked_again : Downloads :=
  default no_downloads (run_schedule names (steps_of 1 3) orphaned).

Lemma orphaned_reachable : rtc (dstep (recv_name toy_blake3 folder 7)) no_downloads orphaned.
Proof.
  etrans; [apply two_tasks_reachable|].
  apply (run_schedule_reachable (steps_of 0 1 ++ [(Aborts, 0%nat)])). vm_compute. reflexivity.
Qed.

Lemma asked_again_reachable : rtc (dstep (recv_name toy_blake3 folder 7)) orphaned asked_again.
Proof. apply (run_schedule_reachable (steps_of 1 3)). vm_compute. reflexivity. Qed.

Lemma aborted_leader_blocks_witness :
  active (coord asked_again) !! object_hash = Some 0%nat ∧
  result (slot_state (coord asked_again) 0) = None.
Proof.
  assert (tasks orphaned !! 0%nat = Some (mkTask entry_a object_hash
    (Fetching 0 (recv_name toy_blake3 folder 7 0 entry_a)) true)) as Hi by (vm_compute; reflexivity).
  destruct (aborted_leader_blocks toy_blake3 folder 7 orphaned asked_again _ _ _ _
    orphaned_reachable Hi eq_refl eq_refl asked_again_reachable) as (Ha & Hr & _).
  exact (conj Ha Hr).
Defined.
