(* ===== verification/StateMerge.v ===== *)
(** * Applying remote entries as a merge

    [grows s s']: the index of [s'] is that of [s] with some entries replaced by
    later versions and some added.  It is a preorder, and an entry a state
    refuses is refused by every later state.  A batch applied without error
    leaves nothing of the batch to accept, and keeps the invariant, the
    well-formedness of the index and the soundness of the trees. *)

From S2P Require Import Prelude Paths Bytes Utf8 Fs Ignore Entries Scan Tree TreeSpec.
From S2P Require Import TreeUpdate TreeHash State StateLocal StateIndex StateTrack StateOps.
From S2P Require Import StateInv StateSafety StateProps.

(** ** The order *)

Definition grows (s s' : FolderState) : Prop :=
  st_root s' = st_root s ∧ st_origin s' = st_origin s ∧
  st_gc_watermark s' = st_gc_watermark s ∧
  ∀ p l, st_entries s !! p = Some l →
    ∃ l', st_entries s' !! p = Some l' ∧ (l' = l ∨ version_lt (version l) (version l')).

#[export] Instance grows_preorder : PreOrder grows.
Proof.
  split.
  - intros s. split_and!; [done..|]. intros p l Hp. exists l. auto.
  - intros s1 s2 s3 (Hr1 & Ho1 & Hw1 & H1) (Hr2 & Ho2 & Hw2 & H2).
    split_and!; [congruence..|]. intros p l Hp.
    destruct (H1 p l Hp) as (l1 & Hp1 & Hl1). destruct (H2 p l1 Hp1) as (l2 & Hp2 & Hl2).
    exists l2. split; [done|]. destruct Hl1 as [->|Hl1]; [done|]. right.
    destruct Hl2 as [->|Hl2]; [done|]. by etrans.
Qed.

(** Nothing left to accept at this entry. *)
Definition handled (s : FolderState) (e : Entry) : Prop := should_accept_remote s e = false.

Lemma not_handled s e : ¬ handled s e ↔ should_accept_remote s e = true.
Proof. unfold handled. by destruct (should_accept_remote s e). Qed.

Lemma handled_grows s s' e : grows s s' → handled s e → handled s' e.
Proof.
  intros (_ & _ & Hw & Hg) Hh. unfold handled in *.
  destruct (should_accept_remote s' e) eqn:E; [|done].
  apply should_accept_remote_spec in E as (Hv & Hc & Hl). rewrite <-Hh. symmetry.
  apply should_accept_remote_spec. split_and!; [done| |].
  - unfold covered, is_version_gced in *. by rewrite Hw in Hc.
  - intros local Hlocal. destruct (Hg _ _ Hlocal) as (l' & Hl' & Hle).
    specialize (Hl l' Hl'). destruct Hle as [->|Hle]; [done|]. by etrans.
Qed.

Lemma handled_present s e : st_entries s !! path e = Some e → handled s e.
Proof.
  intros Hp. unfold handled. destruct (should_accept_remote s e) eqn:E; [|done].
  apply should_accept_remote_spec in E as (_ & _ & Hl).
  by destruct (version_lt_irrefl (version e) (Hl e Hp)).
Qed.

Lemma grows_same_index s s' : same_index s s' → grows s s'.
Proof. intros (Hr & Ho & _ & Hw & He). split_and!; [done..|]. rewrite <-He. eauto. Qed.

(** *** Local changes *)

Lemma replay_is_Some es cs p : is_Some (es !! p) → is_Some (replay es cs !! p).
Proof.
  revert es. induction cs as [|c cs IH]; intros es Hp; [done|]. simpl. apply IH.
  by apply lookup_insert_is_Some'; right.
Qed.

Lemma local_changes_grows s cs s' :
  local_changes s cs s' → state_inv s →
  st_lamport s + Z.of_nat (length cs) < u64_modulus → grows s s'.
Proof.
  intros Hcs Hinv Hb. pose proof (local_changes_frame _ _ _ Hcs) as (Hr & Ho & Hw & _).
  split_and!; [done..|]. intros p l Hp. rewrite (local_changes_replay _ _ _ Hcs).
  destruct (replay_is_Some (st_entries s) cs p) as [l' Hl']; [by eexists|].
  exists l'. split; [done|]. apply replay_lookup in Hl' as [Hl'|(c & Hc & _ & <-)].
  - left. congruence.
  - right. destruct (local_changes_versions _ _ _ c Hcs Hc) as (_ & _ & Hl); [apply Hinv|done|].
    pose proof (inv_clock _ Hinv p l Hp). left. lia.
Qed.

Lemma index_changes_grows s cs s' :
  index_changes s cs s' → state_inv s →
  st_lamport s + Z.of_nat (length cs) < u64_modulus → grows s s'.
Proof.
  intros (s0 & H0 & Hs) Hinv Hb. etrans; [by eapply local_changes_grows|by apply grows_same_index].
Qed.

(** ** One remote entry *)

Lemma write_remote_grows s remote :
  should_accept_remote s remote = true → grows s (write_remote s remote).
Proof.
  intros (_ & _ & Hl)%should_accept_remote_spec. split_and!; [done..|].
  intros p l Hp. simpl. destruct (decide (p = path remote)) as [->|Hne].
  - exists remote. rewrite lookup_insert_eq. auto.
  - exists l. rewrite lookup_insert_ne by done. auto.
Qed.

Lemma record_remote_grows s remote n B :
  state_inv s → should_accept_remote s remote = true →
  0 ≤ lamport (version remote) ≤ B → headroom B (S n) s →
  grows s (record_remote remote (s, [])).1.
Proof.
  intros Hinv Hacc Hl Hroom. etrans; [by apply write_remote_grows|].
  pose proof (proj1 (should_accept_remote_spec s remote) Hacc) as (_ & Hcov & _).
  unfold headroom in Hroom. assert (state_inv (write_remote s remote)) as Hw.
  { apply write_remote_inv; [done|apply is_u64_spec; lia|done]. }
  unfold record_remote. case_decide; [done|].
  set (ch := mkChange (path remote) (st_entries s !! path remote) remote).
  pose proof (tombstone_all_live (List.filter (starts_with (path remote +:+ "/"))
    (btree_keys (st_entries (write_remote s remote)))) (write_remote s remote) [ch]) as Hcount.
  destruct (tombstone_child_descendants_local (path remote) (write_remote s remote) [ch])
    as (ds & s' & E & Hds).
  change (grows (write_remote s remote)
    (tombstone_child_descendants (path remote) (write_remote s remote, [] ++ [ch])).1).
  change ([] ++ [ch]) with [ch]. rewrite E. simpl.
  unfold tombstone_child_descendants in E. cbn [fst] in E. rewrite E in Hcount.
  cbv zeta in Hcount. simpl in Hcount. pose proof (live_count_write_remote s remote) as Hlive.
  eapply local_changes_grows; [done..|]. simpl. lia.
Qed.

(** *** Well-formed indexes *)

Definition state_wf (s : FolderState) : Prop := index_wf (st_entries s) ∧ str_fits (st_origin s).

Lemma valid_relative p : validate_remote_path p = Ok () → is_absolute p = false.
Proof.
  unfold validate_remote_path. repeat case_match; try done. intros _.
  by match goal with H : is_absolute p || _ = false |- _ => apply orb_false_iff in H as [? _] end.
Qed.

Lemma tombstone_entry_fits q o v :
  entry_fits o → str_fits q → 0 ≤ lamport v < u64_modulus → str_fits (origin v) →
  entry_fits (tombstone_entry q o v).
Proof. intros [_ _ _ _ Hm _ _] Hq Hv Ho. by split. Qed.

Lemma record_remote_wf s remote :
  state_wf s → entry_fits remote → validate_remote_path (path remote) = Ok () →
  state_inv (record_remote remote (s, [])).1 →
  st_origin (record_remote remote (s, [])).1 = st_origin s →
  state_wf (record_remote remote (s, [])).1.
Proof.
  intros [[Hk Hr Hf] Ho] Hfit Hval Hinv Horig. pose proof (record_remote_superseded s remote []) as [Hp Hq].
  set (s' := (record_remote remote (s, [])).1) in *.
  split; [|by rewrite Horig]. split; [apply Hinv| |].
  - intros k e He. destruct (decide (k = path remote)) as [->|Hne]; [by apply valid_relative|].
    specialize (Hq k Hne). case_decide; [|rewrite Hq in He; by eapply Hr].
    destruct (st_entries s !! k) as [o|] eqn:Eo; [by eapply Hr|]. simpl in Hq. congruence.
  - intros k e He. destruct (decide (k = path remote)) as [->|Hne]; [congruence|].
    specialize (Hq k Hne). case_decide; [|rewrite Hq in He; by eapply Hf].
    destruct (st_entries s !! k) as [o|] eqn:Eo; simpl in Hq; [|congruence].
    case_decide; [rewrite Hq in He; injection He as <-; by eapply Hf|].
    destruct Hq as (v & Hv & Hq). pose proof (inv_clock _ Hinv k e He) as Hc.
    pose proof (inv_lamport _ Hinv). rewrite Hq in He. injection He as <-. simpl in Hc.
    apply tombstone_entry_fits; [by eapply Hf| |lia|by rewrite Hv].
    pose proof (Hf k o Eo) as Hfo. by rewrite <-(Hk k o Eo); destruct Hfo.
Qed.

(** ** What an entry changes *)

Lemma replay_other es cs p : p ∉ ch_path <$> cs → replay es cs !! p = es !! p.
Proof.
  revert es. induction cs as [|c cs IH]; intros es Hp; [done|].
  rewrite fmap_cons, not_elem_of_cons in Hp. destruct Hp as [Hne Hp].
  simpl. rewrite IH by done. by rewrite lookup_insert_ne.
Qed.

Lemma replay_app es cs cs' : replay es (cs ++ cs') = replay (replay es cs) cs'.
Proof. apply foldl_app. Qed.

Lemma replay_agrees es cs : agree_outside (ch_path <$> cs) es (replay es cs).
Proof. intros p Hp. by rewrite replay_other. Qed.

(** The changes of [record_remote] replay it, and it touches nothing else. *)
Lemma record_remote_replay s remote :
  let r := record_remote remote (s, []) in
  st_entries r.1 = replay (st_entries s) r.2 ∧
  st_origin r.1 = st_origin s ∧ st_gc_watermark r.1 = st_gc_watermark s ∧
  st_tree r.1 = st_tree s ∧ st_live_tree r.1 = st_live_tree s.
Proof.
  destruct (record_remote_local remote s []) as (ds & s' & E & Hds). cbv zeta.
  rewrite E. simpl. pose proof (local_changes_frame _ _ _ Hds) as (_ & Ho & Hw & Ht & Hl & _).
  split_and!; [by rewrite (local_changes_replay _ _ _ Hds)|done..].
Qed.

(** The trees match the index. *)
Definition trees_sound (blake3 : string → Hash) (s : FolderState) : Prop :=
  tree_sound blake3 include_all (st_entries s) (st_tree s) ∧
  tree_sound blake3 include_live (st_entries s) (st_live_tree s).

Lemma trees_sound_update blake3 s es cs :
  trees_sound blake3 s → keyed (st_entries s) → keyed es →
  agree_outside (ch_path <$> cs) (st_entries s) es →
  trees_sound blake3 (update_trees blake3 (ch_path <$> cs) (set_entries es s)).
Proof.
  intros [Ht Hl] Hk Hk' Ha.
  split; [exact (update_tree_snapshot_sound blake3 include_all _ _ _ _ Hk Hk' Ha Ht)|
          exact (update_tree_snapshot_sound blake3 include_live _ _ _ _ Hk Hk' Ha Hl)].
Qed.

Section Batch.
Context {F : Type} `{FsOps F} (blake3 : string → Hash) `{StateCodec}.
Abbreviation World := (World (F:=F)) (only parsing).

(** The entries of a batch as a peer sends them. *)
Definition batch_ok (B : Z) (batch : list (Entry * option string)) : Prop :=
  Forall (λ item : Entry * option string,
    0 ≤ lamport (version item.1) ≤ B ∧ entry_fits item.1) batch.

(** What holds all along. *)
Record merging (B : Z) (n : nat) (s : FolderState) : Prop := {
  merging_inv : state_inv s;
  merging_wf : state_wf s;
  merging_room : headroom B n s
}.

Lemma merging_weaken B n m s : (m ≤ n)%nat → merging B n s → merging B m s.
Proof. intros Hle [? ? Hr]. split; [done..|]. unfold headroom in *. lia. Qed.

Lemma merging_record B n s remote :
  merging B (S n) s → should_accept_remote s remote = true →
  0 ≤ lamport (version remote) ≤ B → entry_fits remote →
  merging B n (record_remote remote (s, [])).1.
Proof.
  intros [Hinv Hwf Hroom] Hacc Hl Hfit.
  destruct (record_remote_inv s remote n B) as [Hinv' Hroom']; [done..|].
  split; [done| |done]. apply record_remote_wf; [done|done| |done|].
  - by apply should_accept_remote_spec in Hacc as [? _].
  - apply record_remote_replay.
Qed.

Abbreviation fold_body :=
  (λ item all_changes, (changes <- apply_remote_entry_core item.1 item.2 ;;
                        m_ret (all_changes ++ changes))%m).

Lemma apply_fold_ok B batch n acc (w w' : World) acc' :
  batch_ok B batch → merging B (length batch + n) (w_st w) →
  m_fold batch fold_body acc w = (w', Ok acc') →
  ∃ cs, acc' = acc ++ cs ∧ merging B n (w_st w') ∧ grows (w_st w) (w_st w') ∧
    Forall (λ item, handled (w_st w') item.1) batch ∧
    st_entries (w_st w') = replay (st_entries (w_st w)) cs ∧
    st_tree (w_st w') = st_tree (w_st w) ∧ st_live_tree (w_st w') = st_live_tree (w_st w).
Proof.
  intros Hb. revert acc w. induction Hb as [|[remote tmp] batch [Hl Hfit] Hb IH]; intros acc w Hm Hrun.
  { injection Hrun as <- <-. exists []. rewrite app_nil_r. by split_and!. }
  simpl in Hrun, Hm, Hl, Hfit. unfold m_bind at 1 2 in Hrun.
  destruct (apply_remote_entry_core_cases remote tmp w)
    as [(e & Hr & Hst)|[(Hr & Hacc & Hst)|(Hacc & Hr & Hst)]];
    destruct (apply_remote_entry_core remote tmp w) as [w1 r]; simpl in Hr, Hst; subst r; [done|..].
  - assert (merging B (length batch + n) (w_st w1)) as Hm1.
    { rewrite Hst. eapply merging_weaken; [|done]. lia. }
    destruct (IH _ w1 Hm1 Hrun) as (cs & -> & Hm' & Hg & Hall & Hes & Ht & Hlt).
    rewrite app_nil_r, Hst in *. exists cs. split_and!; try done.
    constructor; [|done]. by eapply handled_grows.
  - pose proof (merging_record B _ _ _ Hm Hacc Hl Hfit) as Hm1.
    pose proof (record_remote_grows _ _ _ _ (merging_inv _ _ _ Hm) Hacc Hl (merging_room _ _ _ Hm)) as Hg1.
    pose proof (record_remote_replay (w_st w) remote) as (He1 & _ & _ & Ht1 & Hlt1).
    pose proof (record_remote_superseded (w_st w) remote []) as [Hp _].
    rewrite <-Hst in *. destruct (IH _ w1 Hm1 Hrun) as (cs & -> & Hm' & Hg & Hall & Hes & Ht & Hlt).
    eexists. rewrite <-app_assoc. split; [done|]. split_and!; [done|by etrans| | |congruence..].
    + constructor; [|done]. eapply handled_grows; [done|]. by apply handled_present.
    + rewrite replay_app, <-He1. done.
Qed.

Lemma save_lamport_st (w w' : World) r : save_lamport w = (w', r) → w_st w' = w_st w ∧ Ok () = r.
Proof.
  unfold save_lamport, m_bind, get_st, m_gets, m_ignore, on_fs, m_zoom.
  destruct (write_atomic _ _ _) as [f ?]. by intros [= <- <-].
Qed.

Lemma save_entries_st (w w' : World) r : save_entries w = (w', r) → w_st w' = w_st w ∧ Ok () = r.
Proof.
  unfold save_entries, m_bind, get_st, m_gets. destruct (ser_entries _); [|by intros [= <- <-]].
  unfold m_ignore, on_fs, m_zoom. destruct (write_atomic _ _ _) as [f ?]. by intros [= <- <-].
Qed.

(** *** When a batch fails *)

(** Installing an entry of the batch on disk failed. *)
Definition install_failed (root : string) (batch : list (Entry * option string)) (e : ErrorKind) : Prop :=
  ∃ item (f f' : F), item ∈ batch ∧ install_remote root item.1 item.2 f = (f', Err e).

Lemma core_err remote tmp (w w' : World) e :
  validate_remote_path (path remote) = Ok () →
  apply_remote_entry_core remote tmp w = (w', Err e) →
  ∃ f f', install_remote (st_root (w_st w)) remote tmp f = (f', Err e).
Proof.
  unfold apply_remote_entry_core, m_bind, m_lift, get_st, m_gets. intros ->.
  destruct (should_accept_remote (w_st w) remote); simpl.
  - unfold on_fs, m_zoom. destruct (install_remote _ _ _ _) as [f [[]|e']] eqn:E; simpl.
    + unfold run_acc. by destruct (record_remote _ _).
    + intros [= _ <-]. eauto.
  - destruct tmp as [tmp|]; simpl; [|done]. unfold m_ignore, on_fs, m_zoom.
    by destruct (fs_remove_file tmp (w_fs w)).
Qed.

Lemma apply_fold_err batch acc (w w' : World) e :
  Forall (λ item : Entry * option string, validate_remote_path (path item.1) = Ok ()) batch →
  m_fold batch fold_body acc w = (w', Err e) → install_failed (st_root (w_st w)) batch e.
Proof.
  intros Hb. revert acc w. induction Hb as [|[remote tmp] batch Hv Hb IH]; intros acc w Hrun; [done|].
  simpl in Hrun, Hv. unfold m_bind at 1 2 in Hrun.
  destruct (apply_remote_entry_core remote tmp w) as [w1 [cs|e1]] eqn:E.
  - assert (st_root (w_st w1) = st_root (w_st w)) as Hroot.
    { pose proof (apply_remote_entry_core_cases remote tmp w) as Hc. rewrite E in Hc. simpl in Hc.
      destruct Hc as [(? & ? & ->)|[(_ & _ & ->)|(_ & _ & ->)]]; [done..|apply record_remote_root]. }
    apply IH in Hrun as (item & f & f' & Hin & Hi). rewrite Hroot in Hi.
    exists item, f, f'. split; [by right|done].
  - injection Hrun as _ ->. apply core_err in E as (f & f' & Hi); [|done].
    exists (remote, tmp), f, f'. split; [by left|done].
Qed.

Lemma apply_remote_entries_err batch (w w' : World) e :
  Forall (λ item : Entry * option string, validate_remote_path (path item.1) = Ok ()) batch →
  apply_remote_entries blake3 batch w = (w', Err e) → install_failed (st_root (w_st w)) batch e.
Proof.
  intros Hv Hrun. unfold apply_remote_entries, m_bind at 1 in Hrun.
  destruct (m_fold batch _ [] w) as [w1 [cs|e1]] eqn:Hf;
    [|injection Hrun as _ ->; by eapply apply_fold_err].
  exfalso. revert Hrun. destruct cs; [done|]. unfold m_bind, on_st, m_modify.
  destruct (save_lamport _) as [w2 r2] eqn:E2. apply save_lamport_st in E2 as [_ <-].
  destruct (save_entries _) as [w3 r3] eqn:E3. apply save_entries_st in E3 as [_ <-]. done.
Qed.

(** A batch that was applied without error. *)
Lemma apply_remote_entries_ok B batch n (w w' : World) cs :
  batch_ok B batch → merging B (length batch + n) (w_st w) → trees_sound blake3 (w_st w) →
  apply_remote_entries blake3 batch w = (w', Ok cs) →
  merging B n (w_st w') ∧ trees_sound blake3 (w_st w') ∧ grows (w_st w) (w_st w') ∧
  Forall (λ item, handled (w_st w') item.1) batch.
Proof.
  intros Hb Hm Ht Hrun. unfold apply_remote_entries in Hrun.
  apply m_bind_inv in Hrun as (w1 & cs1 & Hfold & Hrun).
  apply (apply_fold_ok B batch n) in Hfold as (cs2 & -> & Hm1 & Hg & Hall & Hes & Ht1 & Hlt1); [|done..].
  rewrite app_nil_l in Hrun. apply m_bind_inv in Hrun as (w2 & [] & Hfin & [= <- <-]).
  assert (same_index (w_st w1) (w_st w2)) as Hsame.
  { pose proof (keeps_finish blake3 cs2 (ch_path <$> cs2) w1) as Hk. by rewrite Hfin in Hk. }
  assert (trees_sound blake3 (w_st w2)) as Ht2.
  { assert (keyed (st_entries (w_st w1))) as Hk1 by apply Hm1.
    assert (w_st w2 = match cs2 with [] => w_st w1
                      | _ => update_trees blake3 (ch_path <$> cs2) (w_st w1) end) as ->.
    { destruct cs2; [by injection Hfin as <-|]. revert Hfin. unfold m_bind at 1, on_st, m_modify.
      unfold m_bind. destruct (save_lamport _) as [w3 r3] eqn:E3. apply save_lamport_st in E3 as [E3 <-].
      intros E4. apply save_entries_st in E4 as [-> _]. exact E3. }
    assert (w_st w1 = set_entries (st_entries (w_st w1)) (w_st w1)) as Hset by (by destruct (w_st w1)).
    assert (trees_sound blake3 (update_trees blake3 (ch_path <$> cs2) (w_st w1))) as Hup.
    { destruct Ht as [Ht Hlt]. pose proof (replay_agrees (st_entries (w_st w)) cs2) as Ha.
      rewrite <-Hes in Ha. rewrite <-Ht1 in Ht. rewrite <-Hlt1 in Hlt.
      assert (keyed (st_entries (w_st w))) as Hk by apply Hm.
      split; simpl; [exact (update_tree_snapshot_sound blake3 include_all _ _ _ _ Hk Hk1 Ha Ht)|
        exact (update_tree_snapshot_sound blake3 include_live _ _ _ _ Hk Hk1 Ha Hlt)]. }
    destruct cs2; [|exact Hup]. unfold trees_sound. by rewrite Hes, Ht1, Hlt1. }
  split_and!; [|done|etrans; [done|by apply grows_same_index]|].
  - destruct Hm1 as [Hi [Hw Ho] Hr]. split; [by eapply state_inv_same_index| |].
    + destruct Hsame as (_ & Eo & _ & _ & Ee). split; [by rewrite <-Ee|by rewrite <-Eo].
    + destruct Hsame as (_ & _ & El & _ & Ee). unfold headroom, live_count in *. by rewrite <-Ee, <-El.
  - eapply Forall_impl; [exact Hall|]. intros item Hh. eapply handled_grows; [|exact Hh].
    by apply grows_same_index.
Qed.
End Batch.
