(* ===== verification/Messages.v ===== *)
(** * Messages: [src/src/message.rs] and [src/src/protocol.rs]

    The gossip broadcast between peers and the requests and responses of the
    RPC protocol.  Their encoding is [serde_json] and is not modelled. *)

From S2P Require Import Prelude Paths Bytes Entries Tree Identity Group Addresses.

Record TreeHint : Set := mkHint { truncated : bool; hint_nodes : list TreeNode }.

Inductive GossipMessage : Set :=
  | SyncState (g_origin : string) (state_root live_root : Hash) (g_lamport : Z)
      (state_nodes live_nodes : Z) (gc_watermark : GcWatermark)
  | FilesystemChanged (g_origin : string) (state_root live_root : Hash) (g_lamport : Z)
      (hint : option TreeHint)
  | PeersGossip (g_origin : string) (g_members : list MemberEntry)
  | EndpointsGossip (g_origin : string) (listen_port : Z) (endpoints : list string)
      (name : option string).

(** [GossipMessage::origin]. *)
Definition message_origin (m : GossipMessage) : string :=
  match m with
  | SyncState o _ _ _ _ _ _ | FilesystemChanged o _ _ _ _ | PeersGossip o _
  | EndpointsGossip o _ _ _ => o
  end.

Inductive RequestMessage : Set :=
  | Join (request_id : Z) (secret joiner_id : string)
  | GetRoot (request_id : Z)
  | GetPeers (request_id : Z)
  | GetNode (request_id : Z) (prefix : string)
  | GetEntries (request_id : Z) (prefix : string)
  | GetObject (request_id : Z) (object : Hash)
  | Announce (request_id : Z) (message : GossipMessage).

Inductive ResponseMessage : Set :=
  | JoinAccepted (request_id : Z) (r_members : list MemberEntry)
  | RespOk (request_id : Z)
  | JoinRejected (request_id : Z) (reason : string)
  | Root (request_id : Z) (state_root live_root : Hash) (r_lamport : Z)
  | Peers (request_id : Z) (r_members : list MemberEntry)
  | Node (request_id : Z) (r_node : option TreeNode)
  | RespEntries (request_id : Z) (r_entries : list Entry)
  | ObjectHeader (request_id : Z) (r_size : Z)
  | RespError (request_id : Z) (text : string).

(** The events the server hands to the daemon. *)
Inductive RpcEvent : Set :=
  | PeerJoined (peer : NodeId)
  | Announcement (peer : NodeId) (message : GossipMessage) (source_ip : IpAddr).
