(* ===== verification/Rpc.v ===== *)
(** * RPC: [src/src/rpc.rs]

    The server's handlers over the node's state, ledger and disk; the client's
    reading of responses, its pool of idle connections, and the download of an
    object.  [accept] and [connect] are those of [Transport]; JSON and the text
    of [io::Error]s are parameters. *)

From S2P Require Import Prelude Paths Bytes Utf8 Fs Identity Group Entries Scan Tree State.
From S2P Require Import Addresses Transport Messages.

(** ** The server *)

Section Server.
Context {F : Type} `{FsOps F} `{GroupJson} (blake3 : string → Hash).
(** [Display for io::Error]. *)
Context (err_text : ErrorKind → string).

(** What is written to the connection: a message, or a piece of an object. *)
Inductive Sent : Set :=
  | SentJson (r : ResponseMessage)
  | SentChunk (bytes : string).

(** What the handlers share: the disk, the folder, the ledger, and the events
    sent to the daemon; and what this connection has been sent. *)
Record Server : Type := mkServer {
  sv_fs : F;
  sv_state : FolderState;
  sv_group : GroupState;
  sv_events : list RpcEvent;
  sv_sent : list Sent
}.

Definition sv_disk {A} : M F A → M Server A :=
  m_zoom sv_fs (λ f s, mkServer f (sv_state s) (sv_group s) (sv_events s) (sv_sent s)).
Definition sv_ledger {A} : M (GW (F:=F)) A → M Server A :=
  m_zoom (λ s, (sv_fs s, sv_group s))
    (λ w s, mkServer w.1 (sv_state s) w.2 (sv_events s) (sv_sent s)).
Definition send_event (e : RpcEvent) : M Server () :=
  m_modify (λ s, mkServer (sv_fs s) (sv_state s) (sv_group s) (sv_events s ++ [e]) (sv_sent s)).
Definition send_all (l : list Sent) : M Server () :=
  m_modify (λ s, mkServer (sv_fs s) (sv_state s) (sv_group s) (sv_events s) (sv_sent s ++ l)).
Definition send_response (r : ResponseMessage) : M Server () := send_all [SentJson r].

Definition not_a_member (request_id : Z) : ResponseMessage :=
  RespError request_id "peer is not a group member".

(** [check_member], [check_known_member]: the response to return early. *)
Definition check_member (g : GroupState) (peer : NodeId) (request_id : Z) : option ResponseMessage :=
  if is_active_member g peer then None else Some (not_a_member request_id).
Definition check_known_member (g : GroupState) (peer : NodeId) (request_id : Z)
  : option ResponseMessage :=
  if is_known_member g peer then None else Some (not_a_member request_id).

(** The [Join] arm of [handle_request]. *)
Definition handle_join (peer : NodeId) (invites_path : string) (request_id : Z)
    (secret joiner_id : string) : M Server ResponseMessage :=
  (if bool_decide (joiner_id ≠ node_id_to_string peer)
   then m_ret (JoinRejected request_id "joiner id does not match RPC peer")
   else
     consumed <- m_try (sv_disk (consume_invite blake3 invites_path secret)) ;;
     match consumed with
     | Ok true =>
         added <- m_try (sv_ledger (add_active_peer peer)) ;;
         match added with
         | Ok _ =>
             send_event (PeerJoined peer) ;;
             g <- m_gets sv_group ;;
             m_ret (JoinAccepted request_id (members g))
         | Err err => m_ret (JoinRejected request_id ("could not add peer: " +:+ err_text err))
         end
     | Ok false => m_ret (JoinRejected request_id "invalid or expired ticket")
     | Err err => m_ret (JoinRejected request_id ("could not validate ticket: " +:+ err_text err))
     end)%m.

(** The entries of the node at a prefix. *)
Definition entries_of_node (s : FolderState) (prefix : string) : list Entry :=
  match node s prefix with
  | None => []
  | Some n =>
      omap (λ name,
        let prefix := trim_matches slash prefix in
        entry s (if decide (prefix = "") then name else prefix +:+ "/" +:+ name))
        (btree_keys (tn_entries n))
  end.

(** [GetObject] does not reach [handle_request]: the caller has dealt with it. *)
Definition handle_request (request : RequestMessage) (peer : NodeId) (source_ip : IpAddr)
    (invites_path : string) : M Server ResponseMessage :=
  (g <- m_gets sv_group ;;
   s <- m_gets sv_state ;;
   let checked (check : option ResponseMessage) (answer : M Server ResponseMessage) :=
     match check with Some e => m_ret e | None => answer end in
   match request with
   | Join request_id secret joiner_id =>
       handle_join peer invites_path request_id secret joiner_id
   | GetRoot request_id =>
       checked (check_member g peer request_id)
         (m_ret (Root request_id (root_hash (st_tree s)) (root_hash (st_live_tree s))
                   (st_lamport s)))
   | GetPeers request_id =>
       checked (check_known_member g peer request_id) (m_ret (Peers request_id (members g)))
   | GetNode request_id prefix =>
       checked (check_member g peer request_id) (m_ret (Node request_id (node s prefix)))
   | GetEntries request_id prefix =>
       checked (check_member g peer request_id)
         (m_ret (RespEntries request_id (entries_of_node s prefix)))
   | Announce request_id message =>
       checked (check_member g peer request_id)
         (send_event (Announcement peer message source_ip) ;; m_ret (RespOk request_id))
   | GetObject _ _ => m_err OtherError
   end)%m.

(** Opening a file: the length in its metadata and the bytes it then yields. *)
Context (open_file : string → M F (Z * string)).

Definition handle_get_object (request_id : Z) (object : Hash) (peer : NodeId) : M Server () :=
  (g <- m_gets sv_group ;;
   if negb (is_active_member g peer) then send_response (not_a_member request_id)
   else
     s <- m_gets sv_state ;;
     match object_file s object with
     | None => send_response (RespError request_id ("object " +:+ hex object +:+ " not found"))
     | Some (path, expected_size) =>
         file <- sv_disk (open_file path) ;;
         let '(size, bytes) := file in
         if bool_decide (size ≠ expected_size) then
           send_response (RespError request_id ("object " +:+ hex object +:+
             " changed before transfer: expected " +:+ pretty.pretty expected_size +:+
             " bytes, got " +:+ pretty.pretty size))
         else
           send_response (ObjectHeader request_id size) ;;
           send_all (SentChunk <$> str_chunks (Z.to_nat MAX_PLAINTEXT_CHUNK) bytes)
     end)%m.

(** The body of the loop of [handle_connection]: one request. *)
Definition handle_one (request : RequestMessage) (peer : NodeId) (source_ip : IpAddr)
    (invites_path : string) : M Server () :=
  match request with
  | GetObject request_id object => handle_get_object request_id object peer
  | _ => (response <- handle_request request peer source_ip invites_path ;;
          send_response response)%m
  end.

(** [handle_connection] on the requests it reads; [fin] is the error that ends
    the stream, [others n] what other tasks do while the [n]-th request is
    awaited. *)
Fixpoint handle_connection (others : nat → Server → Server) (n : nat)
    (requests : list RequestMessage) (fin : ErrorKind) (peer : NodeId) (source_ip : IpAddr)
    (invites_path : string) : M Server () :=
  (m_modify (others n) ;;
   match requests with
   | [] => if bool_decide (fin = UnexpectedEof) then m_ret () else m_err fin
   | request :: requests =>
       handle_one request peer source_ip invites_path ;;
       handle_connection others (S n) requests fin peer source_ip invites_path
   end)%m.
End Server.

(** ** The client *)

Definition POOL_SIZE : nat := 8.

(** What each call accepts as the answer to its request; an [Error] response, an
    answer to another request and any other response are errors. *)
Definition answer {A} (request_id : Z) (pick : ResponseMessage → option (Z * A))
    (response : ResponseMessage) : IoResult A :=
  match pick response with
  | Some (actual, a) => if actual =? request_id then Ok a else Err OtherError
  | None => Err OtherError
  end.

Definition pick_root (r : ResponseMessage) : option (Z * (Hash * Hash * Z)) :=
  match r with Root id state_root live_root l => Some (id, (state_root, live_root, l)) | _ => None end.
Definition pick_peers (r : ResponseMessage) : option (Z * list MemberEntry) :=
  match r with Peers id ms => Some (id, ms) | _ => None end.
Definition pick_node (r : ResponseMessage) : option (Z * option TreeNode) :=
  match r with Node id n => Some (id, n) | _ => None end.
Definition pick_entries (r : ResponseMessage) : option (Z * list Entry) :=
  match r with RespEntries id es => Some (id, es) | _ => None end.
Definition pick_joined (r : ResponseMessage) : option (Z * list MemberEntry) :=
  match r with JoinAccepted id ms => Some (id, ms) | _ => None end.
Definition pick_ok (r : ResponseMessage) : option (Z * ()) :=
  match r with RespOk id => Some (id, ()) | _ => None end.
Definition pick_header (r : ResponseMessage) : option (Z * Z) :=
  match r with ObjectHeader id size => Some (id, size) | _ => None end.

(** What the client uses of a connection: [NoiseConnection]'s [peer],
    [send_json], [recv_json] and [recv_plain_exact], the reads within their
    timeouts. *)
Class RpcConn (C : Type) := {
  conn_id : C → NodeId;
  send_request : RequestMessage → M C ();
  read_response : M C ResponseMessage;
  recv_exact : nat → M C string
}.

(** What it relies on: the peer is a field that no operation changes, and a
    buffer is filled or nothing is returned. *)
Class RpcConnLaws (C : Type) `{RpcConn C} : Prop := {
  send_keeps request (c : C) : conn_id (send_request request c).1 = conn_id c;
  read_keeps (c : C) : conn_id (read_response c).1 = conn_id c;
  recv_keeps n (c : C) : conn_id (recv_exact n c).1 = conn_id c;
  recv_fills n (c c' : C) b : recv_exact n c = (c', Ok b) → strlen b = n
}.

Section Client.
(** [C] is a connection, [X] the rest of the world; [F] the disk.  [dial] is
    [NoiseConnection::connect] within its timeout; [book] is the address book at
    each poll. *)
Context {X C F : Type} `{FsOps F} `{RpcConn C} (blake3 : string → Hash).
Context (dial : string → M X C) (book : nat → NodeId → list string).

Record Client : Type := mkClient {
  pool : gmap string (list C);
  net : X;
  next_request_id : Z;
  cl_fs : F
}.

(** [ConnPool::checkout]. *)
Definition checkout (peer : NodeId) : M Client (option C) :=
  λ w, match pool w !! peer with
       | Some (c :: q) => (mkClient (<[peer := q]> (pool w)) (net w) (next_request_id w) (cl_fs w), Ok (Some c))
       | _ => (w, Ok None)
       end.

(** [ConnPool::checkin]: a ninth idle connection is dropped. *)
Definition checkin (peer : NodeId) (c : C) : M Client () :=
  λ w, let queue := default [] (pool w !! peer) in
       let queue := if (length queue <? POOL_SIZE)%nat then queue ++ [c] else queue in
       (mkClient (<[peer := queue]> (pool w)) (net w) (next_request_id w) (cl_fs w), Ok ()).

Definition new_request_id : M Client Z :=
  λ w, (mkClient (pool w) (net w) (add64 (next_request_id w) 1) (cl_fs w), Ok (next_request_id w)).

Definition on_net {A} : M X A → M Client A :=
  m_zoom net (λ x w, mkClient (pool w) x (next_request_id w) (cl_fs w)).
Definition on_disk {A} : M F A → M Client A :=
  m_zoom cl_fs (λ f w, mkClient (pool w) (net w) (next_request_id w) f).

(** A computation on a connection that is not in the pool: the connection it
    leaves, and the result. *)
Definition with_conn {A} (c : C) (m : M C A) : M Client (C * IoResult A) :=
  m_ret (m c).

Definition call (request : RequestMessage) : M C ResponseMessage :=
  (send_request request ;; read_response)%m.

(** [wait_for_endpoints]: 30 seconds in steps of 250 ms. *)
Definition DISCOVERY_POLLS : nat := 120.
Fixpoint wait_for_endpoints (polls n : nat) (peer : NodeId) : IoResult (list string) :=
  match book n peer with
  | [] => match polls with
          | O => Err TimedOut
          | S polls => wait_for_endpoints polls (S n) peer
          end
  | endpoints => Ok endpoints
  end.

(** The loop of [RpcClient::connect]. *)
Fixpoint try_endpoints (peer : NodeId) (endpoints : list string) (last_err : ErrorKind) : M X C :=
  match endpoints with
  | [] => m_err last_err
  | endpoint :: endpoints =>
      (r <- m_try (dial endpoint) ;;
       match r with
       | Ok c => if bool_decide (conn_id c = peer) then m_ret c
                 else try_endpoints peer endpoints OtherError
       | Err e => try_endpoints peer endpoints e
       end)%m
  end.

Definition rpc_connect (peer : NodeId) : M Client C :=
  (endpoints <- m_lift (wait_for_endpoints DISCOVERY_POLLS 0 peer) ;;
   on_net (try_endpoints peer endpoints OtherError))%m.

Definition round_trip (peer : NodeId) (request : RequestMessage) : M Client ResponseMessage :=
  (let fresh :=
     c <- rpc_connect peer ;;
     r <- with_conn c (call request) ;;
     match r with
     | (c, Ok response) => checkin peer c ;; m_ret response
     | (_, Err e) => m_err e
     end in
   pooled <- checkout peer ;;
   match pooled with
   | Some c =>
       r <- with_conn c (call request) ;;
       match r with
       | (c, Ok response) => checkin peer c ;; m_ret response
       | (_, Err _) => fresh
       end
   | None => fresh
   end)%m.

Definition get_root (peer : NodeId) : M Client (Hash * Hash * Z) :=
  (id <- new_request_id ;; r <- round_trip peer (GetRoot id) ;; m_lift (answer id pick_root r))%m.
Definition get_peers (peer : NodeId) : M Client (list MemberEntry) :=
  (id <- new_request_id ;; r <- round_trip peer (GetPeers id) ;; m_lift (answer id pick_peers r))%m.
Definition get_node (peer : NodeId) (prefix : string) : M Client (option TreeNode) :=
  (id <- new_request_id ;; r <- round_trip peer (GetNode id prefix) ;;
   m_lift (answer id pick_node r))%m.
Definition get_entries (peer : NodeId) (prefix : string) : M Client (list Entry) :=
  (id <- new_request_id ;; r <- round_trip peer (GetEntries id prefix) ;;
   m_lift (answer id pick_entries r))%m.
Definition join_group (peer : NodeId) (secret : string) (joiner_id : NodeId)
  : M Client (list MemberEntry) :=
  (id <- new_request_id ;;
   r <- round_trip peer (Join id secret (node_id_to_string joiner_id)) ;;
   m_lift (answer id pick_joined r))%m.
Definition announce (peer : NodeId) (message : GossipMessage) : M Client () :=
  (id <- new_request_id ;; r <- round_trip peer (Announce id message) ;;
   m_lift (answer id pick_ok r))%m.

(** The loop of [stream_to_file]: [written] is in the file, [remaining] bytes
    are to come. *)
Fixpoint stream_loop (fuel : nat) (dest written : string) (remaining : Z) : M (C * F) string :=
  if remaining <=? 0 then m_ret written
  else
    match fuel with
    | O => m_err OtherError
    | S fuel =>
        (let to_read := Z.to_nat (Z.min remaining MAX_PLAINTEXT_CHUNK) in
         bytes <- m_zoom fst (λ c w, (c, w.2)) (recv_exact to_read) ;;
         m_zoom snd (λ f w, (w.1, f)) (fs_write dest (written +:+ bytes)) ;;
         stream_loop fuel dest (written +:+ bytes) (remaining - Z.of_nat to_read))%m
    end.

(** Every round but the last takes a whole chunk. *)
Definition stream_fuel (size : Z) : nat := S (Z.to_nat (size / MAX_PLAINTEXT_CHUNK)).

Definition stream_to_file (size : Z) (expected_hash : Hash) (dest : string) : M (C * F) () :=
  (m_zoom snd (λ f w, (w.1, f)) (fs_write dest "") ;;
   written <- stream_loop (stream_fuel size) dest "" size ;;
   if bool_decide (blake3 written = expected_hash) then m_ret () else m_err OtherError)%m.

Definition get_object_to_file (peer : NodeId) (object : Hash) (expected_size : Z) (dest : string)
  : M Client () :=
  (id <- new_request_id ;;
   pooled <- checkout peer ;;
   c <- match pooled with Some c => m_ret c | None => rpc_connect peer end ;;
   header <- with_conn c (call (GetObject id object)) ;;
   let '(c, header) := header in
   response <- m_lift header ;;
   size <- m_lift (answer id pick_header response) ;;
   if bool_decide (size ≠ expected_size) then m_err OtherError
   else
     result <- (λ w, let '((c, f), r) := stream_to_file size object dest (c, cl_fs w) in
                     (mkClient (pool w) (net w) (next_request_id w) f, Ok (c, r))) ;;
     match result with
     | (c, Ok _) => checkin peer c
     | (_, Err e) => m_ignore (on_disk (fs_remove_file dest)) ;; m_err e
     end)%m.
End Client.
