(* ===== verification/RpcProps.v ===== *)
(** * What the RPC server and client guarantee

    Access control of the server: what a request of a peer outside the group
    does, in any state and along a whole connection. *)

From S2P Require Import Prelude Paths Bytes Utf8 Fs Identity Group Entries Scan Tree State.
From S2P Require Import Transport Messages Rpc.

Definition request_id_of (request : RequestMessage) : Z :=
  match request with
  | Join id _ _ | GetRoot id | GetPeers id | GetNode id _ | GetEntries id _
  | GetObject id _ | Announce id _ => id
  end.

Section ServerProps.
Context {F : Type} `{FsOps F} `{GroupJson} (blake3 : string → Hash).
Context (err_text : ErrorKind → string) (open_file : string → M F (Z * string)).
Implicit Types w : Server (F:=F).

Abbreviation handle_one := (handle_one blake3 err_text open_file).
Abbreviation handle_connection := (handle_connection blake3 err_text open_file).

Lemma is_active_known g peer : is_active_member g peer = true → is_known_member g peer = true.
Proof. unfold is_active_member, is_known_member. by case_match. Qed.

(** The state after one more response. *)
Definition responded (w : Server (F:=F)) (resp : ResponseMessage) : Server :=
  mkServer (sv_fs w) (sv_state w) (sv_group w) (sv_events w) (sv_sent w ++ [SentJson resp]).

Definition set_ledger (g : GroupState) (f : F) (es : list RpcEvent) (w : Server (F:=F)) : Server :=
  mkServer f (sv_state w) g (sv_events w ++ es) (sv_sent w).

(** Only the row of the peer changes. *)
Definition admits (peer : NodeId) (g g' : GroupState) : Prop :=
  is_active_member g' peer = true ∧
  ∀ id, id ≠ node_id_to_string peer → g_members g' !! id = g_members g !! id.

Lemma add_active_step_None peer g :
  add_active_step peer g = None → is_active_member g peer = true.
Proof.
  unfold add_active_step, is_active_member. destruct (g_members g !! _) as [e|]; [|done].
  destruct (is_active e); [done|discriminate].
Qed.

Lemma add_active_step_Some peer g g' :
  add_active_step peer g = Some g' → admits peer g g'.
Proof.
  unfold add_active_step, admits, is_active_member. intros Hs.
  assert (∃ e, is_active e = true ∧
    g_members g' = <[node_id_to_string peer := e]> (g_members g)) as (e & He & ->).
  { destruct (g_members g !! _) as [e|]; [destruct (is_active e); [done|]|];
      injection Hs as <-; (eexists; split; [|reflexivity]; reflexivity). }
  split; [by rewrite lookup_insert_eq|]. intros id Hid. by rewrite lookup_insert_ne.
Qed.

(** Whether or not the file is saved, the ledger in memory has the peer. *)
Lemma add_active_peer_admits peer (x x' : GW (F:=F)) r :
  add_active_peer peer x = (x', r) → admits peer x.2 x'.2.
Proof.
  destruct x as [f g]. unfold add_active_peer, m_bind at 1, g_get, m_gets. simpl.
  destruct (add_active_step peer g) as [g'|] eqn:Hs.
  - apply add_active_step_Some in Hs. unfold g_persist, g_put, g_fs, m_modify, g_get, m_gets, m_bind,
      m_zoom. simpl. destruct (persist g' f) as [f' [[]|e]]; intros Heq; injection Heq as <- _; exact Hs.
  - apply add_active_step_None in Hs. intros [= <- _]. by split.
Qed.

(** What a [Join] can do. *)
Definition join_outcome (peer : NodeId) (id : Z) (secret joiner invites_path : string)
    (w w' : Server (F:=F)) (resp : ResponseMessage) : Prop :=
  (∃ reason f, resp = JoinRejected id reason ∧ w' = set_ledger (sv_group w) f [] w) ∨
  (joiner = node_id_to_string peer ∧
   (∃ f, consume_invite blake3 invites_path secret (sv_fs w) = (f, Ok true)) ∧
   ∃ g f, admits peer (sv_group w) g ∧
     ((resp = JoinAccepted id (members g) ∧ w' = set_ledger g f [PeerJoined peer] w) ∨
      (∃ reason, resp = JoinRejected id reason ∧ w' = set_ledger g f [] w))).

Lemma set_ledger_same w : set_ledger (sv_group w) (sv_fs w) [] w = w.
Proof. destruct w. unfold set_ledger. simpl. by rewrite app_nil_r. Qed.

Lemma handle_join_outcome peer id secret joiner invites_path w w' r :
  handle_join blake3 err_text peer invites_path id secret joiner w = (w', r) →
  ∃ resp, r = Ok resp ∧ join_outcome peer id secret joiner invites_path w w' resp.
Proof.
  unfold handle_join. case_bool_decide as Hj.
  { intros [= <- <-]. eexists. split; [done|]. left. eexists _, (sv_fs w). split; [done|].
    by rewrite set_ledger_same. }
  unfold m_bind at 1, m_try at 1, sv_disk, m_zoom.
  destruct (consume_invite blake3 invites_path secret (sv_fs w)) as [f consumed] eqn:Hc.
  assert (mkServer f (sv_state w) (sv_group w) (sv_events w) (sv_sent w)
    = set_ledger (sv_group w) f [] w) as Hsame by (unfold set_ledger; by rewrite app_nil_r).
  destruct consumed as [[]|e].
  - unfold m_bind at 1, m_try, sv_ledger, m_zoom. cbn [sv_fs sv_group].
    destruct (add_active_peer peer (f, sv_group w)) as [[f' g'] added] eqn:Ha.
    pose proof (add_active_peer_admits _ _ _ _ Ha) as Hadm.
    destruct added as [b|e]; intros [= <- <-]; (eexists; split; [done|]); right;
      (split; [done|]); (split; [by exists f|]); exists g', f'; (split; [exact Hadm|]).
    + by left.
    + right. eexists. split; [done|]. unfold set_ledger. by rewrite app_nil_r.
  - intros [= <- <-]. eexists. split; [done|]. left. eexists _, f. by rewrite <- Hsame.
  - intros [= <- <-]. eexists. split; [done|]. left. eexists _, f. by rewrite <- Hsame.
Qed.

(** The requests that need an active member. *)
Definition member_only (request : RequestMessage) : bool :=
  match request with Join _ _ _ | GetPeers _ => false | _ => true end.

Lemma handle_one_member_only request peer source_ip invites_path w :
  member_only request = true → is_active_member (sv_group w) peer = false →
  handle_one request peer source_ip invites_path w
  = (responded w (not_a_member (request_id_of request)), Ok ()).
Proof.
  intros Hm Hp. destruct request; try discriminate Hm;
    unfold Rpc.handle_one, handle_get_object, handle_request, check_member, m_bind, m_gets;
    rewrite ?Hp; reflexivity.
Qed.

Lemma handle_one_join peer id secret joiner source_ip invites_path w w' r :
  handle_one (Join id secret joiner) peer source_ip invites_path w = (w', r) →
  ∃ w1 resp, r = Ok () ∧ w' = responded w1 resp ∧
    join_outcome peer id secret joiner invites_path w w1 resp.
Proof.
  unfold Rpc.handle_one, handle_request, m_bind, m_gets. simpl.
  destruct (handle_join blake3 err_text peer invites_path id secret joiner w) as [w1 r1] eqn:Hj.
  apply handle_join_outcome in Hj as (resp & -> & Ho). intros [= <- <-]. by exists w1, resp.
Qed.

Lemma handle_one_peers peer id source_ip invites_path w :
  handle_one (GetPeers id) peer source_ip invites_path w
  = (responded w (if is_known_member (sv_group w) peer
                  then Peers id (members (sv_group w)) else not_a_member id), Ok ()).
Proof.
  unfold Rpc.handle_one, handle_request, check_known_member, m_bind, m_gets.
  by destruct (is_known_member _ _).
Qed.

(** No request changes the folder's index. *)
Lemma handle_one_state request peer source_ip invites_path w w' r :
  handle_one request peer source_ip invites_path w = (w', r) → sv_state w' = sv_state w.
Proof.
  destruct request as [id secret joiner|id|id|id prefix|id prefix|id object|id message].
  - intros (w1 & resp & -> & -> & Ho)%handle_one_join. by destruct Ho as [(? & ? & _ & ->)|(_ & _ & ? & ? & _ & [[_ ->]|(? & _ & ->)])].
  - unfold Rpc.handle_one, handle_request, m_bind, m_gets. destruct (check_member _ _ _); by intros [= <- _].
  - rewrite handle_one_peers. by intros [= <- _].
  - unfold Rpc.handle_one, handle_request, m_bind, m_gets. destruct (check_member _ _ _); by intros [= <- _].
  - unfold Rpc.handle_one, handle_request, m_bind, m_gets. destruct (check_member _ _ _); by intros [= <- _].
  - unfold Rpc.handle_one, handle_get_object, m_bind, m_gets, sv_disk, m_zoom.
    destruct (negb _); [by intros [= <- _]|]. destruct (object_file _ _) as [[p size]|]; [|by intros [= <- _]].
    destruct (open_file p (sv_fs w)) as [f [[size' bytes]|e]]; [|by intros [= <- _]].
    case_bool_decide; by intros [= <- _].
  - unfold Rpc.handle_one, handle_request, m_bind, m_gets. destruct (check_member _ _ _); by intros [= <- _].
Qed.

(** What a request of a peer that is not an active member does. *)
Definition outsider_outcome (peer : NodeId) (invites_path : string) (request : RequestMessage)
    (w w' : Server (F:=F)) : Prop :=
  match request with
  | Join id secret joiner => ∃ w1 resp,
      w' = responded w1 resp ∧ join_outcome peer id secret joiner invites_path w w1 resp
  | GetPeers id =>
      w' = responded w (if is_known_member (sv_group w) peer
                        then Peers id (members (sv_group w)) else not_a_member id)
  | _ => w' = responded w (not_a_member (request_id_of request))
  end.

Lemma handle_one_outsider request peer source_ip invites_path w w' r :
  handle_one request peer source_ip invites_path w = (w', r) →
  is_active_member (sv_group w) peer = false →
  r = Ok () ∧ outsider_outcome peer invites_path request w w'.
Proof.
  intros Hrun Hp. destruct (member_only request) eqn:Hm.
  - rewrite handle_one_member_only in Hrun by done. injection Hrun as <- <-.
    split; [done|]. by destruct request.
  - destruct request as [id secret joiner| |id| | | |]; try discriminate Hm.
    + apply handle_one_join in Hrun as (w1 & resp & -> & -> & Ho). split; [done|]. by exists w1, resp.
    + rewrite handle_one_peers in Hrun. by injection Hrun as <- <-.
Qed.

(** C28. rpc_access_control: no request changes the folder's index; a request of
    a peer that is not an active member is answered by one response: every
    request but [Join] and [GetPeers] is refused and changes nothing else, the
    member list goes to known members only, and a [Join] changes the ledger only
    for a peer that names itself and pays with a pending invite, which makes
    that peer active and touches no other row. *)
Theorem rpc_access_control request peer source_ip invites_path w w' r
    (Hrun : handle_one request peer source_ip invites_path w = (w', r)) :
  sv_state w' = sv_state w ∧
  (is_active_member (sv_group w) peer = false →
   r = Ok () ∧ outsider_outcome peer invites_path request w w').
Proof. split; [by eapply handle_one_state|]. by eapply handle_one_outsider. Qed.

(** ** A whole connection *)

(** What a connection tells a peer outside the group. *)
Definition outsider_may_see (s : Sent) : Prop :=
  match s with
  | SentJson (RespError _ text) => text = "peer is not a group member"%string
  | SentJson (JoinRejected _ _) | SentJson (Peers _ _) => True
  | _ => False
  end.

(** A run that kept the peer out: what it sent, and what it did not do. *)
Definition kept_out (peer : NodeId) (w w' : Server (F:=F)) : Prop :=
  is_active_member (sv_group w') peer = false ∧
  (∃ l, sv_sent w' = sv_sent w ++ l ∧ Forall outsider_may_see l) ∧
  (∀ m ip, Announcement peer m ip ∈ sv_events w' → Announcement peer m ip ∈ sv_events w).

Lemma kept_out_trans peer w1 w2 w3 : kept_out peer w1 w2 → kept_out peer w2 w3 → kept_out peer w1 w3.
Proof.
  intros (_ & (l1 & H1 & Hl1) & He1) (Ha & (l2 & H2 & Hl2) & He2). split; [done|].
  split; [|by auto]. exists (l1 ++ l2). rewrite H2, H1, <-app_assoc. split; [done|]. by apply Forall_app.
Qed.

Lemma kept_out_responded peer w resp :
  is_active_member (sv_group w) peer = false → outsider_may_see (SentJson resp) →
  kept_out peer w (responded w resp).
Proof. intros Hp Hs. split; [done|]. split; [|done]. exists [SentJson resp]. split; [done|]. by constructor. Qed.

(** The invite of a [Join] that names its sender is pending in this state. *)
Definition pays (peer : NodeId) (invites_path : string) (request : RequestMessage)
    (w : Server (F:=F)) : Prop :=
  ∃ id secret f, request = Join id secret (node_id_to_string peer) ∧
    consume_invite blake3 invites_path secret (sv_fs w) = (f, Ok true).

Lemma handle_one_kept_out request peer source_ip invites_path w :
  is_active_member (sv_group w) peer = false →
  pays peer invites_path request w ∨
  ∃ w', handle_one request peer source_ip invites_path w = (w', Ok ()) ∧ kept_out peer w w'.
Proof.
  intros Hp. destruct (handle_one request peer source_ip invites_path w) as [w' r] eqn:Hrun.
  apply handle_one_outsider in Hrun as [-> Hw']; [|done].
  destruct (member_only request) eqn:Hm.
  - right. exists w'. split; [done|].
    assert (w' = responded w (not_a_member (request_id_of request))) as -> by (by destruct request).
    by apply kept_out_responded.
  - destruct request as [id secret joiner| |id| | | |]; try discriminate Hm.
    + destruct Hw' as (w1 & resp & -> & [(reason & f & -> & ->)|(-> & [f Hf] & _)]).
      * right. eexists. split; [done|]. split; [done|]. split.
        -- exists [SentJson (JoinRejected id reason)]. split; [done|]. by repeat constructor.
        -- intros m ip. simpl. by rewrite app_nil_r.
      * left. by exists id, secret, f.
    + right. simpl in Hw'. subst w'. eexists. split; [done|]. apply kept_out_responded; [done|]. by destruct (is_known_member _ _).
Qed.

(** Along a connection of a peer that is not an active
    member, whatever it sends and whatever other tasks do short of admitting it,
    either one of its requests pays with an invite that is pending in the state
    that request is handled in, or everything it is sent is a refusal or the
    member list, nothing it says is announced, and it is still outside. *)
Theorem outsider_connection others n requests fin peer source_ip invites_path w w' r
    (Hout : is_active_member (sv_group w) peer = false)
    (Hothers : ∀ n s, is_active_member (sv_group s) peer = false → kept_out peer s (others n s))
    (Hrun : handle_connection others n requests fin peer source_ip invites_path w = (w', r)) :
  (∃ i request, requests !! i = Some request ∧
     pays peer invites_path request
       (handle_connection others n (take i requests) UnexpectedEof peer source_ip invites_path w).1) ∨
  kept_out peer w w'.
Proof.
  revert n w Hout Hrun. induction requests as [|request requests IH]; intros n w Hout Hrun;
    simpl in Hrun; unfold m_bind at 1, m_modify in Hrun; pose proof (Hothers n w Hout) as Hk.
  { right. case_bool_decide; by injection Hrun as <- _. }
  destruct (handle_one_kept_out request peer source_ip invites_path (others n w)) as [Hpay|(w1 & H1 & Hk1)].
  - by destruct Hk.
  - left. by exists O, request.
  - rewrite (m_bind_Ok _ _ _ _ _ H1) in Hrun.
    assert (is_active_member (sv_group w1) peer = false) as Hout1 by (by destruct Hk1).
    destruct (IH (S n) w1 Hout1 Hrun) as [(i & req & Hi & Hpay)|Hk2].
    + left. exists (S i), req. split; [done|]. simpl. unfold m_bind at 1, m_modify.
      by rewrite (m_bind_Ok _ _ _ _ _ H1).
    + right. eapply kept_out_trans; [done|]. by eapply kept_out_trans.
Qed.
End ServerProps.

(** ** The client *)

Section ClientProps.
Context {X C F : Type} `{FsOps F} `{RpcConnLaws C} (blake3 : string → Hash).
Context (dial : string → M X C) (book : nat → NodeId → list string).
Implicit Types w : Client (X:=X) (C:=C) (F:=F).

Abbreviation round_trip := (round_trip dial book).
Abbreviation get_object_to_file := (get_object_to_file blake3 dial book).
Abbreviation stream_loop := (stream_loop (C:=C) (F:=F)).
Abbreviation call := (call (C:=C)).

(** Every idle connection is with the peer it is kept for, and they are few. *)
Definition pool_ok (pool : gmap string (list C)) : Prop :=
  ∀ peer q, pool !! peer = Some q → (length q ≤ POOL_SIZE)%nat ∧ Forall (λ c, conn_id c = peer) q.

Lemma call_keeps request c : conn_id (call request c).1 = conn_id c.
Proof.
  unfold Rpc.call, m_bind. pose proof (send_keeps request c) as Hs.
  destruct (send_request request c) as [c1 [[]|e]]; simpl in *; [|done]. by rewrite read_keeps.
Qed.

Lemma checkout_ok peer w w' r :
  pool_ok (pool w) → checkout peer w = (w', r) →
  pool_ok (pool w') ∧ cl_fs w' = cl_fs w ∧ ∃ o, r = Ok o ∧ ∀ c, o = Some c → conn_id c = peer.
Proof.
  intros Hp. unfold checkout. destruct (pool w !! peer) as [[|c q]|] eqn:Hq.
  - intros [= <- <-]. split_and!; [done..|]. by exists None.
  - intros [= <- <-]. destruct (Hp _ _ Hq) as [Hlen [Hc Hall]%Forall_cons]. split_and!; [|done|].
    + intros p q'. simpl. rewrite lookup_insert_Some. intros [[<- <-]|[_ Hl]]; [|by apply Hp].
      split; [simpl in Hlen; lia|done].
    + exists (Some c). split; [done|]. by intros ? [= <-].
  - intros [= <- <-]. split_and!; [done..|]. by exists None.
Qed.

Lemma checkin_ok peer c w :
  pool_ok (pool w) → conn_id c = peer → pool_ok (pool (checkin peer c w).1).
Proof.
  intros Hp Hc p q. unfold checkin. simpl. rewrite lookup_insert_Some. intros [[<- <-]|[_ Hl]]; [|by apply Hp].
  assert (length (default [] (pool w !! peer)) ≤ POOL_SIZE ∧
    Forall (λ c, conn_id c = peer) (default [] (pool w !! peer)))%nat as [Hlen Hall].
  { destruct (pool w !! peer) as [q|] eqn:Hq; simpl; [by apply Hp|]. split; [lia|done]. }
  destruct (Nat.ltb_spec (length (default [] (pool w !! peer))) POOL_SIZE); [|done].
  rewrite length_app, Forall_app. simpl. split; [lia|]. split; [done|by constructor].
Qed.

Lemma try_endpoints_id peer endpoints e x x' c :
  try_endpoints dial peer endpoints e x = (x', Ok c) → conn_id c = peer.
Proof.
  revert e x. induction endpoints as [|endpoint endpoints IH]; intros e x; simpl; [done|].
  unfold m_bind, m_try. destruct (dial endpoint x) as [x1 [c1|e1]]; [|by apply IH].
  case_bool_decide; [|by apply IH]. by intros [= _ <-].
Qed.

Lemma rpc_connect_ok peer w w' r :
  rpc_connect dial book peer w = (w', r) →
  pool w' = pool w ∧ cl_fs w' = cl_fs w ∧ ∀ c, r = Ok c → conn_id c = peer.
Proof.
  unfold rpc_connect, m_bind, m_lift, on_net, m_zoom. destruct (wait_for_endpoints _ _ _ _) as [eps|e].
  - destruct (try_endpoints dial peer eps OtherError (net w)) as [x [c|e]] eqn:Ht;
      intros [= <- <-]; (split_and!; [done..|]); intros ? [= <-]. by eapply try_endpoints_id.
  - intros [= <- <-]. by split_and!.
Qed.

(** A call on a connection to [peer] that, on success, goes back to the pool. *)
Lemma call_and_return peer request c w w' r :
  pool_ok (pool w) → conn_id c = peer →
  (let '(c', r) := call request c in
   match r with
   | Ok resp => (checkin peer c' ;; m_ret resp)%m w
   | Err e => (w, Err e)
   end) = (w', r) →
  pool_ok (pool w') ∧ cl_fs w' = cl_fs w ∧
  ∀ resp, r = Ok resp → ∃ c', call request c = (c', Ok resp).
Proof.
  intros Hp Hc. pose proof (call_keeps request c) as Hk.
  destruct (call request c) as [c' [resp|e]] eqn:Hcall; simpl in Hk.
  - intros [= <- <-]. split_and!; [|done|].
    + apply (checkin_ok peer c' w); [done|congruence].
    + intros ? [= <-]. by exists c'.
  - intros [= <- <-]. by split_and!.
Qed.

Lemma round_trip_ok peer request w w' r :
  pool_ok (pool w) → round_trip peer request w = (w', r) →
  pool_ok (pool w') ∧ cl_fs w' = cl_fs w ∧
  ∀ resp, r = Ok resp → ∃ c c', conn_id c = peer ∧ call request c = (c', Ok resp).
Proof.
  intros Hp. unfold Rpc.round_trip.
  set (fresh := (c <- rpc_connect dial book peer;; _)%m).
  assert (∀ w0 w1 r, pool_ok (pool w0) → cl_fs w0 = cl_fs w → fresh w0 = (w1, r) →
    pool_ok (pool w1) ∧ cl_fs w1 = cl_fs w ∧
    ∀ resp, r = Ok resp → ∃ c c', conn_id c = peer ∧ call request c = (c', Ok resp)) as Hfresh.
  { intros w0 w1 r0 Hp0 Hf0. unfold fresh, m_bind at 1.
    destruct (rpc_connect dial book peer w0) as [w2 r2] eqn:Hcon.
    apply rpc_connect_ok in Hcon as (Hpool & Hf & Hid). rewrite <-Hpool in Hp0.
    destruct r2 as [c|e]; [|intros [= <- <-]; split_and!; [done|congruence|done]].
    intros Hrun. destruct (call_and_return peer request c w2 w1 r0 Hp0 (Hid c eq_refl)) as (? & Hf' & Hr).
    { rewrite <-Hrun. unfold m_bind at 2, with_conn, m_ret. by destruct (call request c) as [c' [?|?]]. }
    split_and!; [done|congruence|]. intros resp [c' Hc']%Hr. exists c, c'. split; [by apply Hid|done]. }
  unfold m_bind at 1. destruct (checkout peer w) as [w1 r1] eqn:Hco.
  apply checkout_ok in Hco as (Hp1 & Hf1 & [c|] & -> & Hid); [|intros Hrun; by apply (Hfresh w1 w' r)|done].
  unfold m_bind at 1, with_conn, m_ret. pose proof (Hid c eq_refl) as Hc.
  pose proof (call_and_return peer request c w1) as Hcr.
  destruct (call request c) as [c' [resp|e]] eqn:Hcall; [|intros Hrun; by apply (Hfresh w1 w' r)].
  intros Hrun. destruct (Hcr w' r Hp1 Hc Hrun) as (? & ? & Hr).
  split_and!; [done|congruence|]. intros resp' [c2 Hc2]%Hr. exists c, c2. rewrite Hcall. by split.
Qed.

(** ** The object stream *)

Lemma chunk_pos : 0 < MAX_PLAINTEXT_CHUNK.
Proof. by vm_compute. Qed.

(** The fuel is enough: more rounds change nothing. *)
Lemma stream_loop_fuel fuel dest written remaining x :
  remaining / MAX_PLAINTEXT_CHUNK < Z.of_nat fuel →
  stream_loop fuel dest written remaining x = stream_loop (S fuel) dest written remaining x.
Proof.
  pose proof chunk_pos as Hpos. revert written remaining x.
  induction fuel as [|fuel IH]; intros written remaining x Hf; cbn [Rpc.stream_loop];
    (destruct (Z.leb_spec remaining 0) as [|Hr]; [done|]).
  { assert (0 ≤ remaining / MAX_PLAINTEXT_CHUNK) by (apply Z.div_pos; lia). lia. }
  unfold m_bind. destruct (m_zoom fst _ _ x) as [x1 [b|e]]; [|done].
  destruct (m_zoom snd _ _ x1) as [x2 [[]|e]]; [|done].
  destruct (Z.le_gt_cases remaining MAX_PLAINTEXT_CHUNK) as [Hle|Hgt].
  - rewrite Z.min_l by lia. rewrite Z2Nat.id, Z.sub_diag by lia. by destruct fuel.
  - apply IH. rewrite Z.min_r by lia. rewrite Z2Nat.id by lia.
    replace (remaining - MAX_PLAINTEXT_CHUNK) with (remaining + (-1) * MAX_PLAINTEXT_CHUNK) by lia.
    rewrite Z.div_add by lia. lia.
Qed.

Lemma stream_loop_enough k dest size x :
  stream_loop (stream_fuel size + k) dest "" size x = stream_loop (stream_fuel size) dest "" size x.
Proof.
  induction k as [|k IH]; [by rewrite Nat.add_0_r|]. rewrite Nat.add_succ_r, <-IH.
  symmetry. apply stream_loop_fuel. unfold stream_fuel. lia.
Qed.

Lemma stream_loop_spec fuel dest written remaining c f c' f' r :
  0 ≤ remaining → stream_loop fuel dest written remaining (c, f) = ((c', f'), r) →
  conn_id c' = conn_id c ∧
  ∀ bytes, r = Ok bytes → Z.of_nat (strlen bytes) = Z.of_nat (strlen written) + remaining ∧
    (∀ f0, fs_write dest written f0 = (f, Ok ()) → ∃ f1, fs_write dest bytes f1 = (f', Ok ())).
Proof.
  pose proof chunk_pos as Hpos. revert written remaining c f.
  induction fuel as [|fuel IH]; intros written remaining c f Hr; simpl;
    (destruct (Z.leb_spec remaining 0) as [|Hrem];
       [intros [= <- <- <-]; split; [done|]; intros ? [= <-]; split; [lia|by eexists]|]).
  { intros [= <- <- <-]. by split. }
  unfold m_bind, m_zoom. simpl. pose proof (recv_keeps (Z.to_nat (Z.min remaining MAX_PLAINTEXT_CHUNK)) c) as Hk.
  destruct (recv_exact _ c) as [c1 [b|e]] eqn:Hrecv; simpl in *; [|by intros [= <- <- <-]].
  destruct (fs_write dest (written +:+ b) f) as [f1 [[]|e]] eqn:Hw; [|by intros [= <- <- <-]].
  intros Hrun. apply recv_fills in Hrecv. apply IH in Hrun as [Hid Hok]; [|lia].
  split; [congruence|]. intros bytes Hb. destruct (Hok bytes Hb) as [Hlen Hlast]. split.
  - rewrite Hlen, strlen_append. lia.
  - intros _ _. by apply (Hlast f).
Qed.

Lemma stream_to_file_spec size hash dest c f c' f' r :
  0 ≤ size → stream_to_file blake3 size hash dest (c, f) = ((c', f'), r) →
  conn_id c' = conn_id c ∧
  (r = Ok () → ∃ bytes f1, fs_write dest bytes f1 = (f', Ok ()) ∧
     Z.of_nat (strlen bytes) = size ∧ blake3 bytes = hash).
Proof.
  intros Hs. unfold stream_to_file, m_bind, m_zoom. cbn [fst snd].
  destruct (fs_write dest "" f) as [f1 [[]|e]] eqn:Hw; [|by intros [= <- <- <-]].
  destruct (stream_loop (stream_fuel size) dest "" size (c, f1)) as [[c2 f2] r2] eqn:Hl.
  apply stream_loop_spec in Hl as [Hid Hok]; [|done].
  destruct r2 as [bytes|e]; [|by intros [= <- <- <-]].
  destruct (Hok bytes eq_refl) as [Hlen Hlast]. case_bool_decide as Hh; unfold m_ret, m_err; intros [= <- <- <-]; (split; [done|]); [|done].
  intros _. destruct (Hlast f Hw) as [f3 Hf3]. exists bytes, f3. by split_and!.
Qed.

(** How [get_object_to_file] can leave the disk. *)
Definition object_outcome (object : Hash) (size : Z) (dest : string) (f f' : F)
    (r : IoResult ()) : Prop :=
  match r with
  | Ok _ => ∃ bytes f1, fs_write dest bytes f1 = (f', Ok ()) ∧
      Z.of_nat (strlen bytes) = size ∧ blake3 bytes = object
  | Err _ => f' = f ∨ ∃ f1, (fs_remove_file dest f1).1 = f'
  end.

Lemma get_object_ok peer object size dest w w' r :
  0 ≤ size → pool_ok (pool w) → get_object_to_file peer object size dest w = (w', r) →
  pool_ok (pool w') ∧ object_outcome object size dest (cl_fs w) (cl_fs w') r.
Proof.
  intros Hs Hp. unfold Rpc.get_object_to_file, m_bind at 1, new_request_id at 1.
  set (w0 := mkClient _ _ _ _). unfold m_bind at 1.
  destruct (checkout peer w0) as [w1 r1] eqn:Hco.
  apply checkout_ok in Hco as (Hp1 & Hf1 & o & -> & Hid); [|done].
  unfold m_bind at 1.
  assert (∃ w2 r2, match o with Some c => m_ret c | None => rpc_connect dial book peer end w1
    = (w2, r2) ∧ pool_ok (pool w2) ∧ cl_fs w2 = cl_fs w ∧ ∀ c, r2 = Ok c → conn_id c = peer)
    as (w2 & r2 & -> & Hp2 & Hf2 & Hid2).
  { destruct o as [c|].
    - exists w1, (Ok c). split_and!; [done|done|done|]. intros ? [= <-]. by apply Hid.
    - destruct (rpc_connect dial book peer w1) as [w2 r2] eqn:Hcon.
      apply rpc_connect_ok in Hcon as (Hpool & Hf & Hid2). exists w2, r2. rewrite Hpool.
      split_and!; [done|done|by rewrite Hf|done]. }
  destruct r2 as [c|e]; [|intros [= <- <-]; split; [done|by left]].
  pose proof (Hid2 c eq_refl) as Hc. unfold m_bind, with_conn, m_ret, m_lift, m_err, m_ignore, on_disk, m_zoom.
  match goal with |- context [call ?req c] => pose proof (call_keeps req c) as Hk; destruct (call req c) as [c1 header] end.
  simpl in Hk. destruct header as [resp|e]; [|intros [= <- <-]; split; [done|by left]].
  destruct (answer _ pick_header resp) as [size'|e]; [|intros [= <- <-]; split; [done|by left]].
  case_bool_decide as Hsize; [intros [= <- <-]; split; [done|by left]|].
  subst size'.
  destruct (stream_to_file blake3 size object dest (c1, cl_fs w2)) as [[c3 f3] r3] eqn:Hst.
  apply stream_to_file_spec in Hst as [Hk3 Hok]; [|done].
  destruct r3 as [[]|e].
  - intros Hrun. split.
    + replace w' with (w', r).1 by done. rewrite <-Hrun. apply checkin_ok; [done|congruence].
    + injection Hrun as <- <-. by apply Hok.
  - cbn [cl_fs]. destruct (fs_remove_file dest f3) as [f4 r4] eqn:Hrm. intros [= <- <-].
    split; [done|]. right. exists f3. by rewrite Hrm.
Qed.

(** ** Calls *)

Lemma on_net_keeps_pool {A} (m : M X A) w : pool (on_net m w).1 = pool w.
Proof. unfold on_net, m_zoom. by destruct (m (net w)). Qed.

(** Every typed call numbers its request, makes one round trip, and reads what
    the answer carries. *)
Definition numbered {A} (peer : NodeId) (request : Z → RequestMessage)
    (pick : ResponseMessage → option (Z * A)) : M (Client (X:=X) (C:=C) (F:=F)) A :=
  (id <- new_request_id ;; r <- round_trip peer (request id) ;; m_lift (answer id pick r))%m.

Lemma answer_Ok {A} id (pick : ResponseMessage → option (Z * A)) response a :
  answer id pick response = Ok a → pick response = Some (id, a).
Proof.
  unfold answer. destruct (pick response) as [[actual a']|]; [|done].
  destruct (Z.eqb_spec actual id) as [->|]; [|done]. by intros [= ->].
Qed.

Lemma numbered_ok {A} peer request (pick : ResponseMessage → option (Z * A)) w w' r :
  pool_ok (pool w) → numbered peer request pick w = (w', r) →
  pool_ok (pool w') ∧ cl_fs w' = cl_fs w ∧
  ∀ a, r = Ok a → ∃ c c' response, conn_id c = peer ∧
    call (request (next_request_id w)) c = (c', Ok response) ∧
    pick response = Some (next_request_id w, a).
Proof.
  intros Hp. unfold numbered, m_bind at 1, new_request_id at 1. set (w0 := mkClient _ _ _ _).
  unfold m_bind. destruct (round_trip peer _ w0) as [w1 r1] eqn:Hrt.
  apply round_trip_ok in Hrt as (Hp1 & Hf1 & Hr1); [|done].
  destruct r1 as [response|e]; unfold m_lift; intros [= <- <-]; (split_and!; [done|done|]); [|done].
  intros a Ha%answer_Ok. destruct (Hr1 response eq_refl) as (c & c' & Hc & Hcall).
  by exists c, c', response.
Qed.

Ltac typed_call request pick :=
  intros * Hrun; apply (numbered_ok _ request pick) in Hrun as (? & ? & Hr); [|done];
  split_and!; [done..|]; intros * Hn; destruct (Hr _ Hn) as (c & c' & resp & ? & ? & Hpick);
  exists c, c'; destruct resp; try discriminate Hpick; injection Hpick; intros; by subst.

(** C31. calls_reach_their_peer: a call returns only what a connection
    authenticated as the peer it was meant for answered to this very request,
    under its number; and however calls succeed and fail, every idle connection
    stays filed under the peer it authenticated, at most eight for each. *)
Theorem calls_reach_their_peer peer prefix w (Hpool : pool_ok (pool w)) :
  (∀ w' r, get_node dial book peer prefix w = (w', r) →
     pool_ok (pool w') ∧ cl_fs w' = cl_fs w ∧
     ∀ n, r = Ok n → ∃ c c', conn_id c = peer ∧
       call (GetNode (next_request_id w) prefix) c = (c', Ok (Node (next_request_id w) n))) ∧
  (∀ w' r, get_entries dial book peer prefix w = (w', r) →
     pool_ok (pool w') ∧ cl_fs w' = cl_fs w ∧
     ∀ es, r = Ok es → ∃ c c', conn_id c = peer ∧
       call (GetEntries (next_request_id w) prefix) c
       = (c', Ok (RespEntries (next_request_id w) es))) ∧
  (∀ w' r, get_root dial book peer w = (w', r) →
     pool_ok (pool w') ∧ cl_fs w' = cl_fs w ∧
     ∀ state_root live_root l, r = Ok (state_root, live_root, l) → ∃ c c', conn_id c = peer ∧
       call (GetRoot (next_request_id w)) c
       = (c', Ok (Root (next_request_id w) state_root live_root l))) ∧
  (∀ message w' r, announce dial book peer message w = (w', r) →
     pool_ok (pool w') ∧ cl_fs w' = cl_fs w ∧
     (r = Ok () → ∃ c c', conn_id c = peer ∧
       call (Announce (next_request_id w) message) c = (c', Ok (RespOk (next_request_id w))))).
Proof.
  split_and!.
  - typed_call (λ id, GetNode id prefix) pick_node.
  - typed_call (λ id, GetEntries id prefix) pick_entries.
  - typed_call GetRoot pick_root.
  - intros message. typed_call (λ id, Announce id message) pick_ok.
Qed.

(** C29. object_verified: when an object's download succeeds, the last thing
    written on disk is the destination with exactly the expected number of bytes,
    and they hash to the object asked for; when it fails, the disk is as before
    or the last thing done was to remove the destination.  The transfer's loop
    is bounded: more rounds than the size allows for change nothing. *)
Theorem object_verified peer object expected_size dest w w' r
    (Hsize : 0 ≤ expected_size) (Hpool : pool_ok (pool w))
    (Hrun : get_object_to_file peer object expected_size dest w = (w', r)) :
  pool_ok (pool w') ∧
  match r with
  | Ok _ => ∃ bytes f1, fs_write dest bytes f1 = (cl_fs w', Ok ()) ∧
      Z.of_nat (strlen bytes) = expected_size ∧ blake3 bytes = object
  | Err _ => cl_fs w' = cl_fs w ∨ ∃ f1, (fs_remove_file dest f1).1 = cl_fs w'
  end ∧
  (∀ k x, stream_loop (stream_fuel expected_size + k) dest "" expected_size x
          = stream_loop (stream_fuel expected_size) dest "" expected_size x).
Proof.
  apply get_object_ok in Hrun as [Hp Ho]; [|done..]. split; [done|]. split; [exact Ho|].
  intros k x. apply stream_loop_enough.
Qed.
End ClientProps.
