(* ===== verification/Serve.v ===== *)
(** * The accept loop: [spawn_server] of [src/src/rpc.rs]

    Every accepted stream is served by a task of its own, which authenticates
    its peer and then runs the loop of [handle_connection].  The tasks are
    interleaved at the requests; what the rest of the daemon does to the shared
    state is a step as well.  (Where inside a request two tasks still meet is
    the subject of [InviteRace].) *)

From S2P Require Import Prelude Paths Bytes Utf8 Fs Identity Group Entries Scan Tree State.
From S2P Require Import Addresses Transport Messages Rpc RpcProps.

(** ** The tasks *)

Inductive Phase : Set := Handshaking | Serving (peer : NodeId) | Over (peer : option NodeId).

(** The task of one stream, and what has been written to the stream. *)
Record Connection : Set := mkConnection { cn_addr : IpAddr; cn_phase : Phase; cn_sent : list Sent }.

(** Whom the stream of a task belongs to, or belonged to. *)
Definition cn_peer (c : Connection) : option NodeId :=
  match cn_phase c with Handshaking => None | Serving p => Some p | Over p => p end.

Section Serve.
Context {F : Type} `{FsOps F} `{GroupJson} (blake3 : string → Hash).
Context (err_text : ErrorKind → string) (open_file : string → M F (Z * string)).
Context (invites_path : string).
Abbreviation Server := (Server (F:=F)).

(** What the tasks share, whose [sv_sent] belongs to the task that runs. *)
Record Listening : Type := mkListening { l_shared : Server; l_tasks : list Connection }.

Definition with_sent (l : list Sent) (w : Server) : Server :=
  mkServer (sv_fs w) (sv_state w) (sv_group w) (sv_events w) l.

Inductive Step : Type :=
  | AcceptFails                                        (** the loop goes on *)
  | Accepts (addr : IpAddr)                            (** a task is spawned *)
  | Authenticates (i : nat) (r : IoResult NodeId)      (** [NoiseConnection::accept] returns *)
  | Requests (i : nat) (request : RequestMessage)      (** a request is read and handled *)
  | HangsUp (i : nat)                                  (** [recv_json] fails *)
  | Elsewhere (f : Server → Server).                   (** another part of the daemon *)

Definition end_of (c : Connection) : Connection := mkConnection (cn_addr c) (Over (cn_peer c)) (cn_sent c).

(** The task [i] handles one request; an error ends it and is only logged. *)
Definition serve_request (i : nat) (c : Connection) (peer : NodeId) (request : RequestMessage)
    (w : Listening) : Listening :=
  let '(s, r) := handle_one blake3 err_text open_file request peer (cn_addr c) invites_path
                   (with_sent (cn_sent c) (l_shared w)) in
  let c := mkConnection (cn_addr c) (Serving peer) (sv_sent s) in
  mkListening s (<[i := match r with Ok _ => c | Err _ => end_of c end]> (l_tasks w)).

(** [None] where the step is not possible. *)
Definition serve_step (st : Step) (w : Listening) : option Listening :=
  match st with
  | AcceptFails => Some w
  | Accepts addr => Some (mkListening (l_shared w) (l_tasks w ++ [mkConnection addr Handshaking []]))
  | Authenticates i r =>
      c ← l_tasks w !! i;
      match cn_phase c with
      | Handshaking =>
          let phase := match r with Ok peer => Serving peer | Err _ => Over None end in
          Some (mkListening (l_shared w) (<[i := mkConnection (cn_addr c) phase (cn_sent c)]> (l_tasks w)))
      | _ => None
      end
  | Requests i request =>
      c ← l_tasks w !! i;
      match cn_phase c with
      | Serving peer => Some (serve_request i c peer request w)
      | _ => None
      end
  | HangsUp i =>
      c ← l_tasks w !! i;
      match cn_phase c with
      | Serving _ => Some (mkListening (l_shared w) (<[i := end_of c]> (l_tasks w)))
      | _ => None
      end
  | Elsewhere f => Some (mkListening (f (l_shared w)) (l_tasks w))
  end.

Fixpoint serve (steps : list Step) (w : Listening) : option Listening :=
  match steps with
  | [] => Some w
  | st :: steps => serve_step st w ≫= serve steps
  end.

(** [spawn_server]: the port, and the loop before its first stream.  [bind] is
    [TcpListener::bind] and [local_addr]. *)
Definition spawn_server {K} (bind : Z → M K Z) (port : Z) (shared : Server) : M K (Z * Listening) :=
  (port <- bind port ;; m_ret (port, mkListening shared []))%m.

Lemma serve_app pre post w : serve (pre ++ post) w = serve pre w ≫= serve post.
Proof.
  revert w. induction pre as [|st pre IH]; intros w; [done|]. simpl.
  destruct (serve_step st w); simpl; [apply IH|done].
Qed.

(** ** A connection of the model of [Rpc] is a task of this one *)

(** The run of a connection whose peer sends [requests] and goes away, as long
    as no request fails. *)
Lemma connection_served others n requests fin peer addr i w w' tasks :
  (∀ n l s, others n (with_sent l s) = with_sent l (others n s)) →
  (i < length tasks)%nat →
  handle_connection blake3 err_text open_file others n requests fin peer addr invites_path w = (w', Ok ()) →
  ∃ steps,
    serve steps (mkListening w (<[i := mkConnection addr (Serving peer) (sv_sent w)]> tasks))
      = Some (mkListening w' (<[i := mkConnection addr (Over (Some peer)) (sv_sent w')]> tasks)) ∧
    (∀ f, Elsewhere f ∈ steps → ∃ m, f = others m).
Proof.
  intros Hothers Hi. assert (∀ n w, with_sent (sv_sent w) (others n w) = others n w) as Hsame.
  { intros m s. rewrite <-Hothers. by destruct s. }
  revert n w. induction requests as [|request requests IH]; intros n w Hrun;
    simpl in Hrun; unfold m_bind at 1, m_modify in Hrun.
  - assert (Hw' : w' = others n w) by (case_bool_decide; [by injection Hrun|done]). subst w'.
    exists [Elsewhere (others n); HangsUp i]. split.
    + simpl. rewrite list_lookup_insert_eq by done. simpl. rewrite list_insert_insert_eq.
      unfold end_of. simpl.
      by rewrite <-(Hsame n w) at 3.
    + intros f Hf. apply list_elem_of_In in Hf as [[= <-]|[?|[]]]; [by exists n|done].
  - apply m_bind_inv in Hrun as (w1 & [] & H1 & Hrun).
    destruct (IH (S n) w1 Hrun) as (steps & Hsteps & Hels).
    exists (Elsewhere (others n) :: Requests i request :: steps). split.
    + simpl. rewrite list_lookup_insert_eq by done. simpl. unfold serve_request. simpl.
      rewrite Hsame, H1, list_insert_insert_eq. exact Hsteps.
    + intros f Hf. apply elem_of_cons in Hf as [[= ->]|[?|Hf]%elem_of_cons]; [by exists n|done|by apply Hels].
Qed.

(** ** Who gets in *)

(** A request that is refused or answered without an effect. *)
Ltac checked Hsame :=
  unfold handle_one, handle_request, m_bind, m_gets;
  destruct (check_member _ _ _); intros [= <- _]; by apply Hsame.

(** What a request of [q] can do to the ledger and to the daemon's events. *)
Lemma handle_one_own_row request q addr w w' r :
  handle_one blake3 err_text open_file request q addr invites_path w = (w', r) →
  (∀ id, id ≠ node_id_to_string q → g_members (sv_group w') !! id = g_members (sv_group w) !! id) ∧
  (∀ p m ip, p ≠ q → Announcement p m ip ∈ sv_events w' → Announcement p m ip ∈ sv_events w).
Proof.
  assert (∀ v : Server, sv_group v = sv_group w → sv_events v = sv_events w →
    (∀ id, id ≠ node_id_to_string q → g_members (sv_group v) !! id = g_members (sv_group w) !! id) ∧
    (∀ p m ip, p ≠ q → Announcement p m ip ∈ sv_events v → Announcement p m ip ∈ sv_events w))
    as Hsame by (intros v -> ->; done).
  destruct request as [id secret joiner|id|id|id prefix|id prefix|id object|id message].
  - intros (w1 & resp & -> & -> & Ho)%handle_one_join.
    destruct Ho as [(? & f & _ & ->)|(_ & _ & g & f & [_ Hadm] & [[_ ->]|(? & _ & ->)])]; simpl;
      (split; [done|]); rewrite ?app_nil_r; try done.
    intros p m ip _. rewrite elem_of_app. intros [?|[?|[]]%list_elem_of_In]; done.
  - checked Hsame.
  - rewrite handle_one_peers. intros [= <- _]. by apply Hsame.
  - checked Hsame.
  - checked Hsame.
  - unfold handle_one, handle_get_object, m_bind, m_gets, sv_disk, m_zoom.
    destruct (negb _); [intros [= <- _]; by apply Hsame|].
    destruct (object_file _ _) as [[p size]|]; [|intros [= <- _]; by apply Hsame].
    destruct (open_file p (sv_fs w)) as [f [[size' bytes]|e]]; [|intros [= <- _]; by apply Hsame].
    case_bool_decide; intros [= <- _]; by apply Hsame.
  - unfold handle_one, handle_request, m_bind, m_gets.
    destruct (check_member _ _ _); intros [= <- _]; [by apply Hsame|].
    split; [done|]. intros p m ip Hp. simpl. rewrite elem_of_app.
    intros [?|[[= ? ? ?]|[]]%list_elem_of_In]; [done|congruence].
Qed.

Lemma is_active_row g g' p :
  g_members g' !! node_id_to_string p = g_members g !! node_id_to_string p →
  is_active_member g' p = is_active_member g p.
Proof. unfold is_active_member. by intros ->. Qed.

(** The rest of the daemon does not admit [peer]. *)
Definition stays_out (peer : NodeId) (w w' : Server) : Prop :=
  is_active_member (sv_group w') peer = false ∧
  (∀ m ip, Announcement peer m ip ∈ sv_events w' → Announcement peer m ip ∈ sv_events w).

(** The state in which [peer], since [start], has got nothing. *)
Record kept_outside (peer : NodeId) (start : Server) (w : Listening) : Prop := {
  out_of_group : is_active_member (sv_group (l_shared w)) peer = false;
  out_of_streams c : c ∈ l_tasks w → cn_peer c = Some peer → Forall outsider_may_see (cn_sent c);
  out_of_handshake c : c ∈ l_tasks w → cn_phase c = Handshaking → cn_sent c = [];
  out_of_events m ip :
    Announcement peer m ip ∈ sv_events (l_shared w) → Announcement peer m ip ∈ sv_events start
}.

(** A request by which [peer] pays with a pending invite. *)
Definition pays_at (peer : NodeId) (st : Step) (w : Listening) : Prop :=
  ∃ i c request, st = Requests i request ∧ l_tasks w !! i = Some c ∧ cn_phase c = Serving peer ∧
    pays blake3 peer invites_path request (l_shared w).

Lemma elem_of_insert_list {A} (l : list A) i (a b : A) :
  b ∈ <[i := a]> l → b = a ∨ b ∈ l.
Proof.
  intros [j Hj]%list_elem_of_lookup.
  apply list_lookup_insert_Some in Hj as [(<- & <- & _)|[_ Hj]]; [by left|].
  right. by eapply list_elem_of_lookup_2.
Qed.

(** A task that is replaced by one that has heard no more, or nothing else. *)
Lemma kept_task peer start w i c c' :
  kept_outside peer start w → l_tasks w !! i = Some c →
  cn_phase c' ≠ Handshaking → cn_sent c' = cn_sent c →
  cn_phase c = Handshaking ∨ cn_peer c' = cn_peer c →
  kept_outside peer start (mkListening (l_shared w) (<[i := c']> (l_tasks w))).
Proof.
  intros [Hg Hs Hh He] Hi Hph Hsent Hp. apply list_elem_of_lookup_2 in Hi. split; [exact Hg| | |exact He].
  - intros d [->|Hd]%elem_of_insert_list Hpeer; [|by apply Hs]. rewrite Hsent.
    destruct Hp as [Hp|Hp]; [by rewrite (Hh c)|]. apply (Hs c); congruence.
  - intros d [->|Hd]%elem_of_insert_list Hd'; [done|by apply Hh].
Qed.

Lemma serve_request_kept peer start w i c q request :
  kept_outside peer start w → l_tasks w !! i = Some c → cn_phase c = Serving q →
  pays_at peer (Requests i request) w ∨ kept_outside peer start (serve_request i c q request w).
Proof.
  intros [Hg Hs Hh He] Hi Hph. unfold serve_request.
  destruct (handle_one _ _ _ _ _ _ _ (with_sent (cn_sent c) (l_shared w))) as [s r] eqn:Hrun.
  pose proof (handle_one_own_row _ _ _ _ _ _ Hrun) as [Hrow Hev].
  assert (Hin := Hi). apply list_elem_of_lookup_2 in Hin.
  destruct (decide (q = peer)) as [->|Hne].
  - destruct (handle_one_kept_out blake3 err_text open_file request peer (cn_addr c) invites_path
      (with_sent (cn_sent c) (l_shared w)) Hg) as [Hpay|(s' & Hrun' & Ha & (l & Hl & Hsee) & Hann)].
    { left. exists i, c, request. by split_and!. }
    right. rewrite Hrun in Hrun'. injection Hrun' as <- ->. simpl in *. split; simpl.
    + exact Ha.
    + intros d [->|Hd]%elem_of_insert_list Hpeer; [|by apply Hs]. simpl. rewrite Hl.
      apply Forall_app. split; [|done]. apply (Hs c); [done|]. unfold cn_peer. by rewrite Hph.
    + intros d [->|Hd]%elem_of_insert_list Hd'; [done|by apply Hh].
    + intros m ip Hm. by apply He, Hann.
  - right. split; simpl.
    + rewrite <-Hg. apply is_active_row, Hrow. by intros Heq%hex_inj.
    + intros d [->|Hd]%elem_of_insert_list Hpeer; [|by apply Hs].
      assert (Some q = Some peer) as [= ->] by (by destruct r). done.
    + intros d [->|Hd]%elem_of_insert_list Hd'; [by destruct r|by apply Hh].
    + intros m ip Hm. apply He. by apply (Hev peer m ip) in Hm.
Qed.

Lemma serve_step_kept peer start st w w' :
  kept_outside peer start w → serve_step st w = Some w' →
  (∀ f, st = Elsewhere f → ∀ s, is_active_member (sv_group s) peer = false → stays_out peer s (f s)) →
  pays_at peer st w ∨ kept_outside peer start w'.
Proof.
  intros Hk Hst Hels. destruct st as [|addr|i r|i request|i|f]; simpl in Hst.
  - injection Hst as <-. by right.
  - injection Hst as <-. right. destruct Hk as [Hg Hs Hh He]. split; simpl; [done| | |done].
    + intros c [Hc|[<-|[]]%list_elem_of_In]%elem_of_app Hp; [by apply Hs|done].
    + intros c [Hc|[<-|[]]%list_elem_of_In]%elem_of_app Hp; [by apply Hh|done].
  - destruct (l_tasks w !! i) as [c|] eqn:Hi; [|done]. simpl in Hst.
    destruct (cn_phase c) eqn:Hph; [|done|done]. injection Hst as <-. right.
    eapply kept_task; [done..| |done|by left]. by destruct r.
  - destruct (l_tasks w !! i) as [c|] eqn:Hi; [|done]. simpl in Hst.
    destruct (cn_phase c) as [|q|] eqn:Hph; [done| |done]. injection Hst as <-. by apply serve_request_kept.
  - destruct (l_tasks w !! i) as [c|] eqn:Hi; [|done]. simpl in Hst.
    destruct (cn_phase c) as [|q|] eqn:Hph; [done| |done]. injection Hst as <-. right.
    eapply kept_task; [done..|]. by right.
  - injection Hst as <-. right. destruct Hk as [Hg Hs Hh He].
    destruct (Hels f eq_refl _ Hg) as [Ha Hann]. split; simpl; [done..|]. intros m ip Hm. by apply He, Hann.
Qed.

End Serve.
