(* ===== verification/RpcTransport.v ===== *)
(** * [NoiseConnection] is a connection for the RPC client

    The operations of [Transport] on a connection satisfy the interface the
    client's theorems are proved against. *)

From S2P Require Import Prelude Paths Bytes Utf8 Fs Identity Group Entries Scan Tree State.
From S2P Require Import Transport TransportProps Messages Rpc.

(** The JSON of requests and responses. *)
Class RpcJson := {
  ser_request : RequestMessage → option string;
  de_response : string → option ResponseMessage
}.

Create HintDb conn.

Section Instance_.
Context {N HS : Type} `{Noise N HS} `{RpcJson}.

#[export] Instance noise_conn : RpcConn (Conn N) := {
  conn_id := conn_peer;
  send_request := send_json ser_request;
  read_response := recv_json de_response;
  recv_exact := recv_plain_exact
}.

(** An operation that leaves the authenticated peer alone. *)
Definition keeps_peer {A} (m : M (Conn N) A) : Prop := ∀ c, conn_peer (m c).1 = conn_peer c.

Lemma peer_kept_ret {A} (a : A) : keeps_peer (m_ret a).
Proof. done. Qed.
Lemma peer_kept_err {A} e : keeps_peer (A:=A) (m_err e).
Proof. done. Qed.
Lemma peer_kept_lift {A} (r : IoResult A) : keeps_peer (m_lift r).
Proof. done. Qed.
Lemma peer_kept_gets {A} (f : Conn N → A) : keeps_peer (m_gets f).
Proof. done. Qed.
Lemma peer_kept_set_noise n : keeps_peer (set_noise n).
Proof. done. Qed.
Lemma peer_kept_set_buf b : keeps_peer (set_buf b).
Proof. done. Qed.
Lemma peer_kept_on_stream {A} (m : M Stream A) : keeps_peer (on_stream m).
Proof. intros c. unfold on_stream, m_zoom. by destruct (m _). Qed.
Lemma peer_kept_bind {A B} (m : M (Conn N) A) (f : A → M (Conn N) B) :
  keeps_peer m → (∀ a, keeps_peer (f a)) → keeps_peer (m_bind m f).
Proof.
  intros Hm Hf c. unfold m_bind. pose proof (Hm c) as Hc.
  destruct (m c) as [c1 [a|e]]; [|done]. simpl in Hc. by rewrite (Hf a c1).
Qed.

#[local] Hint Resolve peer_kept_ret peer_kept_err peer_kept_lift peer_kept_gets peer_kept_set_noise peer_kept_set_buf
  peer_kept_on_stream : conn.

(** Follows the structure of a program. *)
Ltac keeps :=
  repeat first [ progress eauto with conn nocore
               | apply peer_kept_bind; [|intros ?]
               | match goal with |- keeps_peer (match ?x with _ => _ end) => destruct x end
               | match goal with |- keeps_peer (let _ := _ in _) => cbv zeta end ].

Lemma peer_kept_send_plain_chunk chunk : keeps_peer (send_plain_chunk chunk).
Proof. unfold send_plain_chunk. keeps. Qed.
Lemma peer_kept_recv_plain_chunk : keeps_peer recv_plain_chunk.
Proof. unfold recv_plain_chunk. keeps. Qed.
#[local] Hint Resolve peer_kept_send_plain_chunk peer_kept_recv_plain_chunk : conn.

Lemma peer_kept_for {A} (l : list A) (body : A → M (Conn N) ()) :
  (∀ a, keeps_peer (body a)) → keeps_peer (m_for l body).
Proof. intros Hb. induction l as [|a l IH]; simpl; keeps. Qed.

Lemma peer_kept_send_blob bytes : keeps_peer (send_blob bytes).
Proof. unfold send_blob. keeps. apply peer_kept_for. intros ?. apply peer_kept_send_plain_chunk. Qed.

Lemma peer_kept_recv_exact_loop fuel need : keeps_peer (recv_exact_loop fuel need).
Proof.
  revert need. induction fuel as [|fuel IH]; intros [|need]; simpl; keeps.
Qed.

Lemma peer_kept_recv_plain_exact need : keeps_peer (recv_plain_exact need).
Proof. intros c. apply peer_kept_recv_exact_loop. Qed.
#[local] Hint Resolve peer_kept_send_blob peer_kept_recv_plain_exact : conn.

Lemma peer_kept_recv_blob max : keeps_peer (recv_blob max).
Proof. unfold recv_blob. keeps. Qed.
#[local] Hint Resolve peer_kept_recv_blob : conn.

#[export] Instance noise_conn_laws : RpcConnLaws (Conn N).
Proof.
  constructor; simpl.
  - intros request. change (keeps_peer (send_json ser_request request)). unfold send_json. keeps.
  - change (keeps_peer (recv_json de_response)). unfold recv_json. keeps.
  - intros n. apply peer_kept_recv_plain_exact.
  - intros n c c' b Hr. by apply recv_exact_loop_len in Hr.
Qed.
End Instance_.
