(* ===== verification/RpcWitness.v ===== *)
(** * The RPC theorems at concrete inputs

    A server of two members with one pending invite, and a client whose toy
    connections answer from a list. *)

From S2P Require Import Prelude Paths Bytes Utf8 Fs Identity Group Entries Scan Tree State.
From S2P Require Import Addresses Samples StateWitness GroupWitness Transport TransportProps Messages Rpc RpcProps Serve.

Definition stranger : NodeId := be_bytes 32 5.
Definition toy_ip : IpAddr := V4 [10; 0; 0; 1].
Definition toy_err_text (e : ErrorKind) : string := "an error".
Definition toy_open (p : string) : M MemFs.t (Z * string) :=
  (bytes <- fs_read p ;; m_ret (Z.of_nat (strlen bytes), bytes))%m.

Definition toy_server (f : MemFs.t) (ledger_path : string) : Server (F:=MemFs.t) :=
  mkServer f (sample_state sample_entries 9 ∅) (mkGroup ledger_path id1 ledger1) [] [].

Definition join_request : RequestMessage := Join 7 "secret" (node_id_to_string stranger).
Abbreviation toy_one r w :=
  (handle_one toy_hash toy_err_text toy_open r stranger toy_ip "/g/invites.json" w).

Definition open_server : Server := toy_server invited "/g/peers.json".

Lemma rpc_access_control_witness :
  sv_state (toy_one join_request open_server).1 = sv_state open_server ∧
  (is_active_member (sv_group open_server) stranger = false ∧
   (toy_one join_request open_server).2 = Ok () ∧
   outsider_outcome toy_hash stranger "/g/invites.json" join_request open_server
     (toy_one join_request open_server).1).
Proof.
  destruct (rpc_access_control toy_hash toy_err_text toy_open join_request stranger toy_ip
    "/g/invites.json" open_server (toy_one join_request open_server).1
    (toy_one join_request open_server).2) as [Hs Ho].
  - apply surjective_pairing.
  - split; [exact Hs|]. split; [vm_compute; reflexivity|]. apply Ho. vm_compute. reflexivity.
Defined.

(** The invite is spent, the stranger is a member, and is told so. *)
Example join_accepted :
  is_active_member (sv_group (toy_one join_request open_server).1) stranger = true ∧
  sv_events (toy_one join_request open_server).1 = [PeerJoined stranger].
Proof. vm_compute. by split. Qed.

(** ** A join that is rejected and takes effect

    The ledger's file cannot be written; the response says so, but the peer is
    an active member of the ledger in memory. *)
Theorem rejected_join_admits :
  ∃ w : Server (F:=MemFs.t),
    is_active_member (sv_group w) stranger = false ∧
    sv_sent (toy_one join_request w).1 = [SentJson (JoinRejected 7 "could not add peer: an error")] ∧
    sv_events (toy_one join_request w).1 = [] ∧
    is_active_member (sv_group (toy_one join_request w).1) stranger = true.
Proof.
  exists (toy_server (MemFs.set_files (insert "/file" (MemFs.MFile "" 420 0)) invited) "/file/peers.json").
  vm_compute. by split_and!.
Qed.

Definition hostile_requests : list RequestMessage :=
  [GetRoot 1; GetObject 2 (toy_blake3 "x"); Announce 3 (PeersGossip "x" []); Join 4 "guess" "me"].

Lemma outsider_connection_witness :
  let run := handle_connection toy_hash toy_err_text toy_open (λ _ s, s) 0 hostile_requests
    UnexpectedEof stranger toy_ip "/g/invites.json" open_server in
  kept_out stranger open_server run.1.
Proof.
  intros run.
  destruct (outsider_connection toy_hash toy_err_text toy_open (λ _ s, s) 0 hostile_requests
    UnexpectedEof stranger toy_ip "/g/invites.json" open_server run.1 run.2) as [(i & req & Hi & Hp)|Hk].
  - vm_compute. reflexivity.
  - intros n s Hs. split; [exact Hs|]. split; [|intros m ip Hin; exact Hin]. exists []. split; [|constructor].
    symmetry. apply app_nil_r.
  - apply surjective_pairing.
  - destruct Hp as (id & secret & f & -> & Hc).
    destruct i as [|[|[|[|i]]]]; discriminate Hi.
  - exact Hk.
Defined.

(** The stranger and another node on two streams at once. *)
Definition neighbour : NodeId := be_bytes 32 8.
Definition two_streams : list (Step (F:=MemFs.t)) :=
  [Accepts toy_ip; AcceptFails; Accepts (V4 [10; 0; 0; 2]); Authenticates 0 (Ok stranger);
   Elsewhere (λ s, s); Authenticates 1 (Ok neighbour)] ++
  (Requests 0 <$> hostile_requests) ++ [Requests 1 (GetPeers 5); HangsUp 0; Requests 1 (GetRoot 6)].
Abbreviation toy_serve :=
  (serve toy_hash toy_err_text toy_open "/g/invites.json" two_streams (mkListening open_server [])).
Definition served : Listening := default (mkListening open_server []) toy_serve.


(** Both streams were answered. *)
Example both_served :
  (λ c, (cn_peer c, length (cn_sent c))) <$> l_tasks served = [(Some stranger, 4%nat); (Some neighbour, 2%nat)].
Proof. vm_compute. reflexivity. Qed.

(** ** The client *)

Record ToyConn : Type := mkToy { tc_peer : NodeId; tc_answers : list ResponseMessage; tc_bytes : string }.

#[export] Instance toy_rpc_conn : RpcConn ToyConn := {
  conn_id := tc_peer;
  send_request := λ _, m_ret ();
  read_response := λ c, match tc_answers c with
                        | [] => (c, Err UnexpectedEof)
                        | a :: l => (mkToy (tc_peer c) l (tc_bytes c), Ok a)
                        end;
  recv_exact := λ n c, if decide (n ≤ strlen (tc_bytes c))%nat
                       then (mkToy (tc_peer c) (tc_answers c) (str_drop n (tc_bytes c)),
                             Ok (str_take n (tc_bytes c)))
                       else (c, Err UnexpectedEof)
}.

#[export] Instance toy_rpc_conn_laws : RpcConnLaws ToyConn.
Proof.
  split; simpl; [done|..].
  - intros c. by destruct (tc_answers c).
  - intros n c. by case_decide.
  - intros n c c' b. case_decide; [|done]. intros [= _ <-]. rewrite strlen_str_take. lia.
Qed.

(** Two addresses of a peer; somebody else answers at the first. *)
Definition toy_dial (answers : list ResponseMessage) (bytes endpoint : string) : M () ToyConn :=
  m_ret (mkToy (if decide (endpoint = "a:1") then stranger else be_bytes 32 1) answers bytes).
Definition toy_book (n : nat) (peer : NodeId) : list string := ["a:1"; "b:2"]%string.
Definition toy_client : Client (X:=()) (C:=ToyConn) (F:=MemFs.t) := mkClient ∅ () 1 group_fs.

Lemma empty_pool_ok : pool_ok (C:=ToyConn) ∅.
Proof. intros peer q Hq. by rewrite lookup_empty in Hq. Qed.

Lemma calls_reach_their_peer_witness :
  ∃ c c' : ToyConn, conn_id c = be_bytes 32 1 ∧
    call (GetNode 1 "docs") c = (c', Ok (Node 1 None)).
Proof.
  destruct (calls_reach_their_peer (toy_dial [Node 1 None] "") toy_book (be_bytes 32 1) "docs"
    toy_client empty_pool_ok) as [H _].
  destruct (H (get_node (toy_dial [Node 1 None] "") toy_book (be_bytes 32 1) "docs" toy_client).1
    (Ok None)) as (_ & _ & Hr).
  - vm_compute. reflexivity.
  - exact (Hr None eq_refl).
Defined.

Definition toy_download :=
  get_object_to_file toy_blake3 (toy_dial [ObjectHeader 1 3] "one") toy_book (be_bytes 32 1)
    (toy_blake3 "one") 3 "/g/tmp" toy_client.

Lemma object_verified_witness :
  ∃ bytes f1, fs_write "/g/tmp" bytes f1 = (cl_fs toy_download.1, Ok ()) ∧
    Z.of_nat (strlen bytes) = 3 ∧ toy_blake3 bytes = toy_blake3 "one".
Proof.
  destruct (object_verified toy_blake3 (toy_dial [ObjectHeader 1 3] "one") toy_book (be_bytes 32 1)
    (toy_blake3 "one") 3 "/g/tmp" toy_client toy_download.1 (Ok ())) as (_ & Ho & _).
  - discriminate.
  - exact empty_pool_ok.
  - vm_compute. reflexivity.
  - exact Ho.
Defined.
