(* ===== verification/InviteRace.v ===== *)
(** * Two joins at the same time

    [consume_invite] reads the invites file and writes it back, with no lock
    held, and every connection is served by a task of its own.  Here it is cut
    in two where the other task can run, and two joins are interleaved. *)

From S2P Require Import Prelude Paths Bytes Utf8 Fs Identity Group GroupWitness Entries Scan Tree State.
From S2P Require Import Addresses Samples StateWitness Messages Rpc RpcWitness.

Section Cut.
Context {F : Type} `{FsOps F} `{GroupJson} (blake3 : string → string).
Context (err_text : ErrorKind → string).

(** What is written, if anything, and whether the secret was found. *)
Definition Plan : Type := option (list PendingInvite) * bool.

Definition consume_read (p secret : string) : M F Plan :=
  (invites <- load_invites p ;;
   now <- now_ms ;;
   let '(remaining, found) := consume_step now (hash_secret blake3 secret) invites in
   m_ret (if (length remaining =? length invites)%nat then None else Some remaining, found))%m.
Definition consume_write (p : string) (plan : Plan) : M F bool :=
  (match plan.1 with Some remaining => save_invites p remaining | None => m_ret () end ;;
   m_ret plan.2)%m.

Lemma consume_invite_cut p secret f :
  consume_invite blake3 p secret f = (plan <- consume_read p secret ;; consume_write p plan)%m f.
Proof.
  unfold consume_invite, consume_read, consume_write, m_bind.
  destruct (load_invites p f) as [f1 [invites|e]]; [|done].
  destruct (now_ms f1) as [f2 [now|e]]; [|done]. destruct (consume_step _ _ _) as [remaining found].
  unfold m_ret at 4. cbn [fst snd]. by destruct (length remaining =? length invites)%nat.
Qed.

(** A join up to the moment the file has been read, and the rest. *)
Definition join_begin (invites_path secret : string) : M (Server (F:=F)) (IoResult Plan) :=
  m_try (sv_disk (consume_read invites_path secret)).
Definition join_end (peer : NodeId) (invites_path : string) (request_id : Z) (plan : IoResult Plan)
  : M (Server (F:=F)) ResponseMessage :=
  (consumed <- match plan with
               | Ok plan => m_try (sv_disk (consume_write invites_path plan))
               | Err err => m_ret (Err err)
               end ;;
   match consumed with
   | Ok true =>
       added <- m_try (sv_ledger (add_active_peer peer)) ;;
       match added with
       | Ok _ =>
           send_event (PeerJoined peer) ;;
           g <- m_gets sv_group ;;
           m_ret (JoinAccepted request_id (members g))
       | Err err => m_ret (JoinRejected request_id ("could not add peer: " +:+ err_text err))
       end
   | Ok false => m_ret (JoinRejected request_id "invalid or expired ticket")
   | Err err => m_ret (JoinRejected request_id ("could not validate ticket: " +:+ err_text err))
   end)%m.

Lemma handle_join_cut peer p id secret (w : Server (F:=F)) :
  handle_join blake3 err_text peer p id secret (node_id_to_string peer) w =
  (plan <- join_begin p secret ;; join_end peer p id plan)%m w.
Proof.
  unfold handle_join. rewrite bool_decide_false by (intros Hne; by apply Hne).
  unfold join_begin, join_end, m_bind at 1 5 6, m_try at 1 3, sv_disk at 1 2, m_zoom at 1 2.
  rewrite consume_invite_cut. unfold m_bind at 1.
  destruct (consume_read p secret (sv_fs w)) as [f1 [plan|e]]; [|done].
  cbn [fst snd]. unfold m_try, sv_disk, m_zoom. cbn [sv_fs sv_state sv_group sv_events sv_sent].
  by destruct (consume_write p plan f1) as [f2 r2].
Qed.
End Cut.

(** ** One ticket, two members *)

Definition rival : NodeId := be_bytes 32 6.
Definition invites_file : string := "/g/invites.json".

(** The stranger and the rival redeem the same secret. *)
Definition one_after_the_other : M (Server (F:=MemFs.t)) (ResponseMessage * ResponseMessage) :=
  (first <- handle_join toy_hash toy_err_text stranger invites_file 7 "secret" (node_id_to_string stranger) ;;
   second <- handle_join toy_hash toy_err_text rival invites_file 8 "secret" (node_id_to_string rival) ;;
   m_ret (first, second))%m.
Definition at_the_same_time : M (Server (F:=MemFs.t)) (ResponseMessage * ResponseMessage) :=
  (first <- join_begin toy_hash invites_file "secret" ;;
   second <- join_begin toy_hash invites_file "secret" ;;
   first <- join_end toy_err_text stranger invites_file 7 first ;;
   second <- join_end toy_err_text rival invites_file 8 second ;;
   m_ret (first, second))%m.

Definition accepted (r : ResponseMessage) : bool :=
  match r with JoinAccepted _ _ => true | _ => false end.
Definition outcome (run : M (Server (F:=MemFs.t)) (ResponseMessage * ResponseMessage)) : (bool * bool) * (bool * bool) :=
  let '(w, r) := run open_server in
  (match r with Ok (a, b) => (accepted a, accepted b) | Err _ => (false, false) end,
   (is_active_member (sv_group w) stranger, is_active_member (sv_group w) rival)).

(** An invite made by the command line while a join is between its two halves. *)
Definition invite_meanwhile : M MemFs.t (bool * bool) :=
  (plan <- consume_read toy_hash invites_file "secret" ;;
   add_invite toy_hash invites_file "another secret" (10 ^ 12) ;;
   joined <- consume_write invites_file plan ;;
   valid <- consume_invite toy_hash invites_file "another secret" ;;
   m_ret (joined, valid))%m.

(** C40. invite_redeemed_twice: [handle_join] is its two halves, the first of
    which ends when the invites file has been read; nothing keeps the task of
    another connection from running in between.  One after the other, only the
    first of two joins with one secret is accepted; interleaved there, both are,
    and both joiners become active members.  And an invite that the command line
    adds in between is lost: its secret is not accepted. *)
Theorem invite_redeemed_twice :
  (∀ peer p id secret (w : Server (F:=MemFs.t)),
     handle_join toy_hash toy_err_text peer p id secret (node_id_to_string peer) w =
     (plan <- join_begin toy_hash p secret ;; join_end toy_err_text peer p id plan)%m w) ∧
  outcome one_after_the_other = ((true, false), (true, false)) ∧
  outcome at_the_same_time = ((true, true), (true, true)) ∧
  ((add_invite toy_hash invites_file "another secret" (10 ^ 12) ;;
    consume_invite toy_hash invites_file "another secret")%m invited).2 = Ok true ∧
  (invite_meanwhile invited).2 = Ok (true, false).
Proof.
  split; [by intros; apply handle_join_cut|]. vm_compute. by split_and!.
Qed.
