(* ===== verification/Sync.v ===== *)
(** * Reconciliation: [src/src/sync.rs]

    One reconciliation walks the peer's Merkle tree from its advertised root,
    fetches the entries of the nodes that differ, and applies them to the folder
    state.  It runs beside other tasks: at every [await] the state may change,
    so the shared state is handed to [others] there, and the peer's answers and
    the outcome of downloads are read from an environment by the number of the
    await.  The coordination of downloads is modelled in [Download]. *)

From S2P Require Import Prelude Paths Bytes Utf8 Fs Entries Scan Tree State Messages.

Definition MAX_CONCURRENT_FETCHES : nat := 8.

Record RemoteRoot : Set := mkRemoteRoot {
  rr_state_root : Hash;
  rr_live_root : Hash;
  rr_lamport : Z;
  rr_hint : option TreeHint
}.

(** [queue_changed_children]: the top of the stack is the head of the list. *)
Definition queue_changed_children (prefix : string) (local_node : option TreeNode)
    (remote_node : TreeNode) (stack : list (string * Hash)) : list (string * Hash) :=
  foldl (λ stack item,
    let '(name, remote_hash) := item in
    if bool_decide ((n ← local_node; tn_children n !! name) = Some remote_hash) then stack
    else (join_path prefix name, remote_hash) :: stack) stack (btree_items (tn_children remote_node)).

(** [HashMap::from_iter] on the entries of a response: later ones win. *)
Definition entries_by_path (es : list Entry) : gmap string Entry :=
  list_to_map (reverse ((λ e, (path e, e)) <$> es)).

Section Reconcile.
Context {F : Type} `{FsOps F} (blake3 : string → Hash) `{StateCodec}.
Abbreviation World := (World (F:=F)) (only parsing).

(** ** Hints *)

(** [HintedNodes]: the nodes of a hint that hash to the hash they claim. *)
Definition hinted_nodes (hint : option TreeHint) : gmap string TreeNode :=
  foldl (λ m n, if bool_decide (tree_node_hash blake3 n = tn_hash n)
                then <[trim_matches slash (tn_prefix n) := n]> m else m)
    ∅ (match hint with Some h => hint_nodes h | None => [] end).

(** [HintedNodes::get]. *)
Definition hinted_get (m : gmap string TreeNode) (prefix : string) (expected : Hash)
  : option TreeNode :=
  n ← m !! trim_matches slash prefix;
  if bool_decide (tn_hash n = expected) then Some n else None.

(** ** The environment *)

(** What the outside does at the [n]-th await: the other tasks; the peer's
    answers; the order in which the downloads of a batch complete, and the
    temporary file of each. *)
Record Env : Type := mkEnv {
  others : nat → World → World;
  peer_root : nat → IoResult (Hash * Hash * Z);
  peer_node : nat → string → IoResult (option TreeNode);
  peer_entries : nat → string → IoResult (list Entry);
  completion : nat → list Entry → list Entry;
  download : nat → Entry → IoResult (option string)
}.
Context (env : Env).

Record RW : Type := mkRW { rw_world : World; rw_tick : nat }.

Definition await {A} (answer : nat → A) : M RW A :=
  λ w, (mkRW (others env (rw_tick w) (rw_world w)) (S (rw_tick w)), Ok (answer (rw_tick w))).
Definition ask {A} (answer : nat → IoResult A) : M RW A :=
  (r <- await answer ;; m_lift r)%m.

(** [state.read().await] and [state.write().await]. *)
Definition read_state : M RW FolderState :=
  (await (λ _, ()) ;; m_gets (λ w, w_st (rw_world w)))%m.
Definition write_state {A} (c : M World A) : M RW A :=
  (await (λ _, ()) ;; m_zoom rw_world (λ x w, mkRW x (rw_tick w)) c)%m.

(** ** One node *)

(** The first loop of [reconcile_entries]: is the entry applied? *)
Definition select_entry (prefix : string) (local_node : option TreeNode)
    (all_remote : gmap string Entry) (item : string * Hash) (to_apply : list Entry)
  : M RW (list Entry) :=
  (let '(name, remote_hash) := item in
   if bool_decide ((n ← local_node; tn_entries n !! name) = Some remote_hash) then m_ret to_apply
   else
     remote_entry <- m_lift (ok_or OtherError (all_remote !! join_path prefix name)) ;;
     if bool_decide (hash_entry blake3 remote_entry ≠ remote_hash) then m_err OtherError
     else
       s <- read_state ;;
       m_ret (if should_accept_remote s remote_entry then to_apply ++ [remote_entry] else to_apply))%m.

(** The second loop: files to download, and the others. *)
Definition sort_entry (entry : Entry) (batches : list Entry * list (Entry * option string))
  : M RW (list Entry * list (Entry * option string)) :=
  let '(files, non_files) := batches in
  if decide (kind entry = File) then
    match content_hash entry with
    | None => m_err OtherError
    | Some _ => m_ret (files ++ [entry], non_files)
    end
  else m_ret (files, non_files ++ [(entry, None)]).

(** The third: the downloads as they complete; the first failure ends it. *)
Definition collect_download (result : Entry * IoResult (option string))
    (file_batch : list (Entry * option string)) : M RW (list (Entry * option string)) :=
  (tmp_path <- m_lift result.2 ;;
   match tmp_path with
   | None => m_ret file_batch
   | Some tmp => m_ret (file_batch ++ [(result.1, Some tmp)])
   end)%m.

Definition apply_batch (batch : list (Entry * option string)) (changes : list Change)
  : M RW (list Change) :=
  match batch with
  | [] => m_ret changes
  | _ => (applied <- write_state (apply_remote_entries blake3 batch) ;;
          m_ret (changes ++ applied))%m
  end.

Definition reconcile_entries (prefix : string) (local_node : option TreeNode)
    (remote_node : TreeNode) (changes : list Change) : M RW (list Change) :=
  (es <- ask (λ n, peer_entries env n prefix) ;;
   to_apply <- m_fold (btree_items (tn_entries remote_node))
                 (select_entry prefix local_node (entries_by_path es)) [] ;;
   batches <- m_fold to_apply sort_entry ([], []) ;;
   let '(files, non_files) := batches in
   changes <- apply_batch non_files changes ;;
   results <- await (λ n, (λ e, (e, download env n e)) <$> completion env n files) ;;
   file_batch <- m_fold results collect_download [] ;;
   apply_batch file_batch changes)%m.

Definition reconcile_node (hinted : gmap string TreeNode) (prefix : string)
    (expected_remote_hash : Hash) (changes : list Change) (stack : list (string * Hash))
  : M RW (list Change * list (string * Hash)) :=
  (s <- read_state ;;
   let local_node := node s prefix in
   if bool_decide (tn_hash <$> local_node = Some expected_remote_hash) then m_ret (changes, stack)
   else
     remote_node <- match hinted_get hinted prefix expected_remote_hash with
                    | Some n => m_ret n
                    | None => n <- ask (λ n, peer_node env n prefix) ;; m_lift (ok_or OtherError n)
                    end ;;
     if bool_decide (tn_hash remote_node ≠ expected_remote_hash) then m_err OtherError
     else
       changes <- reconcile_entries prefix local_node remote_node changes ;;
       m_ret (changes, queue_changed_children prefix local_node remote_node stack))%m.

(** ** The walk *)

(** The [while let] loop.  A peer that keeps making up new nodes can keep it
    going, so the fuel is part of the statement: [None] says it ran out. *)
Fixpoint reconcile_loop (fuel : nat) (hinted : gmap string TreeNode) (changes : list Change)
    (stack : list (string * Hash)) : M RW (option (list Change)) :=
  match stack with
  | [] => m_ret (Some changes)
  | (prefix, remote_hash) :: stack =>
      match fuel with
      | O => m_ret None
      | S fuel =>
          (r <- reconcile_node hinted prefix remote_hash changes stack ;;
           reconcile_loop fuel hinted r.1 r.2)%m
      end
  end.

(** The paths handed to the sweep. *)
Definition tombstoned_paths (s : FolderState) (changes : list Change) : list string :=
  (λ c, path_join (st_root s) (ch_path c)) <$>
    List.filter (λ c, bool_decide (kind (ch_new c) = Tombstone)) changes.

(** The end of [reconcile_with_advertised_root]: the sweep and the save. *)
Definition sweep (changes : list Change) : M RW () :=
  (s <- read_state ;;
   match tombstoned_paths s changes with
   | [] => m_ret ()
   | tombstoned => m_ignore (write_state (apply_paths blake3 tombstoned))
   end ;;
   match changes with [] => m_ret () | _ => write_state save_entries end)%m.

Definition reconcile_with_advertised_root (fuel : nat) (remote : RemoteRoot)
  : M RW (option (list Change)) :=
  (s <- read_state ;;
   if bool_decide (root_hash (st_tree s) = rr_state_root remote) then m_ret (Some [])
   else
     r <- reconcile_loop fuel (hinted_nodes (rr_hint remote)) [] [("", rr_state_root remote)] ;;
     match r with
     | None => m_ret None
     | Some changes => sweep changes ;; m_ret (Some changes)
     end)%m.

Definition reconcile_with_peer (fuel : nat) : M RW (option (list Change)) :=
  (root <- ask (peer_root env) ;;
   let '(state_root, live_root, l) := root in
   reconcile_with_advertised_root fuel (mkRemoteRoot state_root live_root l None))%m.

End Reconcile.
