(* ===== verification/SyncWalk.v ===== *)
(** * What a reconciliation preserves

    The structure of [reconcile_loop] as one proof rule: an invariant of the
    folder state that the other tasks keep, and that batches of the entries the
    peer sends keep, is kept by the whole walk, whatever fails. *)

From S2P Require Import Prelude Paths Bytes Utf8 Fs Entries Scan Tree State Messages Sync.

Section SyncWalk.
Context {F : Type} `{FsOps F} (blake3 : string → Hash) `{StateCodec}.
Abbreviation World := (World (F:=F)) (only parsing).
Abbreviation Env := (Env (F:=F)) (only parsing).
Context (env : Env) (J : World → Prop).

(** [c] keeps the invariant, and what it returns satisfies [P]. *)
Definition keeps {A} (c : M (RW (F:=F)) A) (P : A → Prop) : Prop :=
  ∀ w, J (rw_world w) → J (rw_world (c w).1) ∧ ∀ a, (c w).2 = Ok a → P a.

Lemma keeps_ret' {A} (a : A) (P : A → Prop) : P a → keeps (m_ret a) P.
Proof. intros Ha w Hw. split; [done|]. by intros ? [= <-]. Qed.
Lemma keeps_err' {A} e (P : A → Prop) : keeps (m_err e) P.
Proof. by intros w Hw. Qed.
Lemma keeps_lift' {A} (r : IoResult A) (P : A → Prop) : (∀ a, r = Ok a → P a) → keeps (m_lift r) P.
Proof. by intros Hr w Hw. Qed.
Lemma keeps_bind' {A B} (c : M RW A) (f : A → M RW B) (P : A → Prop) (Q : B → Prop) :
  keeps c P → (∀ a, P a → keeps (f a) Q) → keeps (m_bind c f) Q.
Proof.
  intros Hc Hf w Hw. destruct (Hc w Hw) as [Hc1 Hc2]. unfold m_bind.
  destruct (c w) as [w' [a|e]]; [|by split]. apply Hf; [by apply Hc2|done].
Qed.
Lemma keeps_weaken' {A} (c : M RW A) (P Q : A → Prop) : keeps c P → (∀ a, P a → Q a) → keeps c Q.
Proof. intros Hc HPQ w Hw. destruct (Hc w Hw) as [? Hr]. split; [done|]. intros a Ha. auto. Qed.
Lemma keeps_fold' {A B} (l : list A) (body : A → B → M RW B) (P : B → Prop) b :
  P b → (∀ a b, a ∈ l → P b → keeps (body a b) P) → keeps (m_fold l body b) P.
Proof.
  revert b. induction l as [|a l IH]; intros b Hb Hbody; simpl; [by apply keeps_ret'|].
  apply (keeps_bind' _ _ P); [apply Hbody; [by left|done]|]. intros b' Hb'. apply IH; [done|].
  intros a' b'' Hin. apply Hbody. by right.
Qed.
Lemma keeps_ignore' {A} (c : M RW A) (P : A → Prop) : keeps c P → keeps (m_ignore c) (λ _, True).
Proof. intros Hc w Hw. destruct (Hc w Hw) as [Hi _]. unfold m_ignore. by destruct (c w). Qed.

(** ** The other tasks, and access to the state *)

Context (Hothers : ∀ n w, J w → J (others env n w)).

Lemma keeps_await {A} (answer : nat → A) (P : A → Prop) :
  (∀ n, P (answer n)) → keeps (await env answer) P.
Proof. intros HP w Hw. split; [by apply Hothers|]. by intros a [= <-]. Qed.
Lemma keeps_ask {A} (answer : nat → IoResult A) (P : A → Prop) :
  (∀ n a, answer n = Ok a → P a) → keeps (ask env answer) P.
Proof.
  intros HP. apply (keeps_bind' _ _ (λ r, ∀ a, r = Ok a → P a)); [apply keeps_await; intros n a; apply HP|].
  intros r Hr. by apply keeps_lift'.
Qed.
Lemma keeps_read : keeps (read_state env) (λ _, True).
Proof. apply (keeps_bind' _ _ (λ _, True)); [by apply keeps_await|]. by intros [] _ w Hw. Qed.
Lemma keeps_write {A} (c : M World A) (P : A → Prop) :
  (∀ w, J w → J (c w).1 ∧ ∀ a, (c w).2 = Ok a → P a) → keeps (write_state env c) P.
Proof.
  intros Hc. apply (keeps_bind' _ _ (λ _, True)); [by apply keeps_await|]. intros [] _ w Hw.
  unfold m_zoom. specialize (Hc (rw_world w) Hw). by destruct (c (rw_world w)) as [x r].
Qed.

(** ** The walk *)

(** What is known of the entries the peer sends, and of the changes made. *)
Context (G : Entry → Prop) (C : Change → Prop).
Context (Hcompletion : ∀ n l e, e ∈ completion env n l → e ∈ l).
Context (Hpeer : ∀ n p es e, peer_entries env n p = Ok es → e ∈ es → G e).

(** An entry of a batch; a file has been hashed. *)
Definition batch_item (e : Entry) : Prop := G e ∧ (kind e = File → is_Some (content_hash e)).
Context (Hbatch : ∀ batch : list (Entry * option string),
  (∀ item, item ∈ batch → batch_item item.1) →
  ∀ w, J w → J (apply_remote_entries blake3 batch w).1 ∧
    ∀ cs, (apply_remote_entries blake3 batch w).2 = Ok cs → Forall C cs).

Lemma apply_batch_keeps batch changes :
  (∀ item, item ∈ batch → batch_item item.1) → Forall C changes →
  keeps (apply_batch blake3 env batch changes) (Forall C).
Proof.
  intros Hb Hc. unfold apply_batch. destruct batch as [|x l]; [by apply keeps_ret'|].
  apply (keeps_bind' _ _ (Forall C)); [by apply keeps_write, Hbatch|].
  intros applied Ha. apply keeps_ret'. by apply Forall_app.
Qed.

Definition sorted_ok (b : list Entry * list (Entry * option string)) : Prop :=
  (∀ e, e ∈ b.1 → batch_item e) ∧ (∀ item, item ∈ b.2 → batch_item item.1).

Lemma sort_entry_keeps e b : G e → sorted_ok b → keeps (sort_entry (F:=F) e b) sorted_ok.
Proof.
  destruct b as [files others]. intros He [Hf Ho]. unfold sort_entry. case_decide as Hk.
  - destruct (content_hash e) as [h|] eqn:E; [|apply keeps_err']. apply keeps_ret'. split; [|done].
    intros e' [?|Hin]%elem_of_app; [by apply Hf|]. apply list_elem_of_singleton in Hin as ->.
    split; [done|]. by rewrite E.
  - apply keeps_ret'. split; [done|]. intros item [?|Hin]%elem_of_app; [by apply Ho|].
    apply list_elem_of_singleton in Hin as ->. by split.
Qed.

Lemma select_entry_keeps prefix local_node es item acc :
  (∀ e, e ∈ es → G e) → (∀ e, e ∈ acc → G e) →
  keeps (select_entry blake3 env prefix local_node (entries_by_path es) item acc) (λ l, ∀ e, e ∈ l → G e).
Proof.
  intros Hes Hacc. destruct item as [name h]. unfold select_entry. case_match; [by apply keeps_ret'|].
  apply (keeps_bind' _ _ G).
  { apply keeps_lift'. intros e. destruct (entries_by_path es !! _) as [e'|] eqn:E; intros [= <-].
    apply Hes. apply elem_of_list_to_map_2 in E. rewrite elem_of_reverse, list_elem_of_fmap in E.
    by destruct E as (x & [= _ ->] & ?). }
  intros e He. case_match; [apply keeps_err'|].
  apply (keeps_bind' _ _ (λ _, True)); [apply keeps_read|]. intros s _. apply keeps_ret'.
  destruct (should_accept_remote s e); [|done]. intros e' [?|Hin]%elem_of_app; [by apply Hacc|].
  by apply list_elem_of_singleton in Hin as ->.
Qed.

Lemma reconcile_entries_keeps prefix local_node remote_node changes :
  Forall C changes →
  keeps (reconcile_entries blake3 env prefix local_node remote_node changes) (Forall C).
Proof.
  intros Hc. unfold reconcile_entries. apply (keeps_bind' _ _ (λ es, ∀ e, e ∈ es → G e)).
  { apply keeps_ask. intros n es Hes e. by eapply Hpeer. }
  intros es Hes. apply (keeps_bind' _ _ (λ l, ∀ e, e ∈ l → G e)).
  { apply keeps_fold'; [by intros ? ?%elem_of_nil|]. intros item acc _ Hacc. by apply select_entry_keeps. }
  intros to_apply Hsel. apply (keeps_bind' _ _ sorted_ok).
  { apply keeps_fold'; [by split; intros ? ?%elem_of_nil|]. intros e b He. by apply sort_entry_keeps, Hsel. }
  intros [files non_files] [Hf Hn].
  apply (keeps_bind' _ _ (Forall C)); [by apply apply_batch_keeps|]. intros changes' Hc'.
  apply (keeps_bind' _ _ (λ results, ∀ r, r ∈ results → batch_item r.1)).
  { apply keeps_await. intros n r (e & -> & He)%list_elem_of_fmap. by eapply Hf, Hcompletion. }
  intros results Hresults. apply (keeps_bind' _ _ (λ batch, ∀ item, item ∈ batch → batch_item item.1)).
  { apply keeps_fold'; [by intros ? ?%elem_of_nil|]. intros r b Hr Hb. unfold collect_download.
    apply (keeps_bind' _ _ (λ _, True)); [by apply keeps_lift'|]. intros [tmp|] _; [|by apply keeps_ret'].
    apply keeps_ret'. intros item [?|Hin]%elem_of_app; [by apply Hb|].
    apply list_elem_of_singleton in Hin as ->. by apply Hresults. }
  intros file_batch Hb. by apply apply_batch_keeps.
Qed.

Lemma reconcile_node_keeps hinted prefix h changes stack :
  Forall C changes →
  keeps (reconcile_node blake3 env hinted prefix h changes stack) (λ r, Forall C r.1).
Proof.
  intros Hc. unfold reconcile_node. apply (keeps_bind' _ _ (λ _, True)); [apply keeps_read|].
  intros s _. cbv zeta. case_match; [by apply keeps_ret'|]. apply (keeps_bind' _ _ (λ _, True)).
  { destruct (hinted_get _ _ _); [by apply keeps_ret'|].
    apply (keeps_bind' _ _ (λ _, True)); [by apply keeps_ask|]. intros n _. by apply keeps_lift'. }
  intros n _. case_match; [apply keeps_err'|].
  apply (keeps_bind' _ _ (Forall C)); [by apply reconcile_entries_keeps|]. intros c Hc'. by apply keeps_ret'.
Qed.

Lemma reconcile_loop_keeps fuel hinted changes stack :
  Forall C changes →
  keeps (reconcile_loop blake3 env fuel hinted changes stack) (λ o, ∀ cs, o = Some cs → Forall C cs).
Proof.
  revert changes stack. induction fuel as [|fuel IH]; intros changes [|[p h] stack] Hc; simpl.
  1, 3: apply keeps_ret'; by intros ? [= <-].
  { by apply keeps_ret'. }
  apply (keeps_bind' _ _ (λ r, Forall C r.1)); [by apply reconcile_node_keeps|]. intros r Hr. by apply IH.
Qed.

(** ** The whole reconciliation *)

(** What the sweep does: scanning paths, and saving. *)
Context (Hpaths : ∀ paths w, J w → J (apply_paths blake3 paths w).1).
Context (Hsave : ∀ w, J w → J (save_entries w).1).

Lemma sweep_keeps changes : keeps (sweep blake3 env changes) (λ _, True).
Proof.
  unfold sweep. apply (keeps_bind' _ _ (λ _, True)); [apply keeps_read|]. intros s _.
  apply (keeps_bind' _ _ (λ _, True)).
  - destruct (tombstoned_paths s changes) as [|x l]; [by apply keeps_ret'|].
    apply (keeps_ignore' _ (λ _, True)), keeps_write. intros w Hw. split; [by apply Hpaths|done].
  - intros _ _. destruct changes; [by apply keeps_ret'|].
    apply keeps_write. intros w Hw. split; [by apply Hsave|done].
Qed.

Lemma reconcile_with_advertised_root_keeps fuel remote :
  keeps (reconcile_with_advertised_root blake3 env fuel remote) (λ o, ∀ cs, o = Some cs → Forall C cs).
Proof.
  unfold reconcile_with_advertised_root. apply (keeps_bind' _ _ (λ _, True)); [apply keeps_read|]. intros s _.
  case_match; [apply keeps_ret'; by intros ? [= <-]|].
  eapply keeps_bind'; [by apply reconcile_loop_keeps|].
  intros [changes|] Hc; [|by apply keeps_ret'].
  apply (keeps_bind' _ _ (λ _, True)); [apply sweep_keeps|]. intros _ _. by apply keeps_ret'.
Qed.

Lemma reconcile_with_peer_keeps fuel :
  keeps (reconcile_with_peer blake3 env fuel) (λ o, ∀ cs, o = Some cs → Forall C cs).
Proof.
  unfold reconcile_with_peer. apply (keeps_bind' _ _ (λ _, True)); [by apply keeps_ask|]. intros [[sr lr] l] _.
  apply reconcile_with_advertised_root_keeps.
Qed.
End SyncWalk.
