(* ===== verification/Subtree.v ===== *)
(** * Sums over subtrees of prefixes

    The measure of the walk: what lies at or below a prefix splits into the
    prefix itself and disjoint parts at or below its children. *)

From S2P Require Import Prelude Paths.

Definition at_or_below (p q : string) : Prop := q = p ∨ p ∈ ancestors q.
#[export] Instance at_or_below_dec p q : Decision (at_or_below p q).
Proof. unfold at_or_below. apply _. Defined.

Lemma at_or_below_len p q : at_or_below p q → (strlen p ≤ strlen q)%nat.
Proof.
  intros [->|Hp]; [done|]. destruct (decide (q = "")) as [->|Hq].
  - cbn in Hp. by apply list_elem_of_singleton in Hp as ->.
  - pose proof (ancestors_shorter _ _ Hp Hq). lia.
Qed.

Lemma at_or_below_parent c q : at_or_below c q → parent_path c ∈ ancestors q.
Proof. intros [->|Hc]; [auto|]. eapply ancestors_trans; [|exact Hc]. auto. Qed.

(** A prefix is at or below one child of [p] only. *)
Lemma at_or_below_unique c1 c2 q :
  c1 ≠ "" → c2 ≠ "" → parent_path c1 = parent_path c2 →
  at_or_below c1 q → at_or_below c2 q → c1 = c2.
Proof.
  intros H1 H2 Heq. pose proof (parent_path_lt c1 H1). pose proof (parent_path_lt c2 H2).
  induction q as [q IH] using ancestors_ind.
  assert (∀ c c', c' ≠ "" → parent_path c = parent_path c' → at_or_below c' c → c = c') as Hself.
  { intros c c' Hc' Hp [?|Hin]; [done|]. apply elem_of_ancestors_unfold in Hin as [->|[_ Hin]].
    - pose proof (parent_path_lt (parent_path c) Hc') as Hlt. rewrite <-Hp in Hlt. lia.
    - rewrite Hp in Hin. pose proof (at_or_below_len c' (parent_path c') (or_intror Hin)).
      pose proof (parent_path_lt c' Hc'). lia. }
  intros [->|Hq1] Hq2; [by apply Hself|].
  destruct Hq2 as [->|Hq2]; [symmetry; apply Hself; [done..|by right]|].
  apply elem_of_ancestors_unfold in Hq1 as [E1|[Hne Hq1]];
    apply elem_of_ancestors_unfold in Hq2 as [E2|[Hne' Hq2]].
  - congruence.
  - apply IH; [done|by left|by right].
  - apply IH; [done|by right|by left].
  - apply IH; [done|by right..].
Qed.

Section Weight.
Context (f : string → nat) (d : gset string).

Definition subtree (p : string) : list string := filter (at_or_below p) (elements d).
Definition weight (p : string) : nat := sum_list_with f (subtree p).

Lemma elem_of_subtree p q : q ∈ subtree p ↔ at_or_below p q ∧ q ∈ d.
Proof. unfold subtree. by rewrite list_elem_of_filter, elem_of_elements. Qed.

Lemma NoDup_subtree p : NoDup (subtree p).
Proof. apply NoDup_filter, NoDup_elements. Qed.

Lemma sum_list_with_submseteq l l' : l ⊆+ l' → (sum_list_with f l ≤ sum_list_with f l')%nat.
Proof.
  intros [k ->]%submseteq_Permutation. rewrite sum_list_with_app. lia.
Qed.

Lemma weight_children p cs :
  p ∈ d → NoDup cs → (∀ c, c ∈ cs → c ≠ "" ∧ parent_path c = p) →
  (f p + sum_list_with weight cs ≤ weight p)%nat.
Proof.
  intros Hp Hnd Hcs.
  assert (sum_list_with weight cs = sum_list_with f (mjoin (subtree <$> cs))) as ->.
  { clear. induction cs as [|c cs IH]; [done|]. simpl. rewrite sum_list_with_app, IH. done. }
  change (sum_list_with f (p :: mjoin (subtree <$> cs)) ≤ weight p)%nat.
  apply sum_list_with_submseteq, NoDup_submseteq.
  - apply NoDup_cons. split.
    + intros (l & Hl & (c & -> & Hc)%list_elem_of_fmap)%list_elem_of_join.
      apply elem_of_subtree in Hl as [Hl%at_or_below_len _]. destruct (Hcs c Hc) as [Hne <-].
      pose proof (parent_path_lt c Hne). lia.
    + induction Hnd as [|c cs Hc Hnd IH]; [constructor|]. simpl. apply NoDup_app. split_and!.
      * apply NoDup_subtree.
      * intros q [Hq _]%elem_of_subtree (l & Hl & (c' & -> & Hc')%list_elem_of_fmap)%list_elem_of_join.
        apply elem_of_subtree in Hl as [Hl _].
        destruct (Hcs c) as [Hne Hpc]; [by left|]. destruct (Hcs c') as [Hne' Hpc']; [by right|].
        assert (c = c') as -> by (eapply (at_or_below_unique c c' q); congruence). done.
      * apply IH. intros x Hx. apply Hcs. by right.
  - intros q. rewrite elem_of_cons. intros [->|Hq].
    + apply elem_of_subtree. split; [by left|done].
    + apply list_elem_of_join in Hq as (l & Hl & (c & -> & Hc)%list_elem_of_fmap).
      apply elem_of_subtree in Hl as [Hl Hd]. apply elem_of_subtree. split; [|done].
      destruct (Hcs c Hc) as [_ <-]. right. by apply at_or_below_parent.
Qed.
End Weight.
