(* ===== verification/SyncLemmas.v ===== *)
(** * Reconciling with an honest, quiet peer: one node

    The peer answers from one folder state whose tree is sound, nothing else
    touches the local state, and every download succeeds.  What one node of the
    walk does: the peer's entries below it are handled or below one of the
    children it queues. *)

From S2P Require Import Prelude Paths Bytes Utf8 Fs Ignore Entries Scan Tree TreeSpec.
From S2P Require Import TreeUpdate TreeHash State StateLocal StateIndex StateTrack StateOps.
From S2P Require Import StateInv StateProps StateMerge Identity Group Messages Rpc Sync.

(** ** Paths *)

(** No slash at either end, of the path and of every prefix. *)
Definition tidy (k : string) : Prop :=
  trim_matches slash k = k ∧ Forall (λ p, trim_matches slash p = p) (ancestors k).

Lemma join_path_parts c :
  is_absolute c = false → trim_matches slash (parent_path c) = parent_path c →
  join_path (parent_path c) (basename c) = c.
Proof.
  intros Hrel Ht. unfold join_path. rewrite Ht.
  destruct (path_cases c) as [(Hp & Hb & _)|[Hc _]].
  - by rewrite Hp, Hb, decide_True.
  - case_decide as Hp; [|by rewrite Hc at 3]. rewrite Hp in Hc.
    rewrite Hc in Hrel. by destruct (basename c).
Qed.

(** ** The peer *)

Record peer_wf (blake3 : string → Hash) (rs : FolderState) : Prop := {
  peer_index : index_wf (st_entries rs);
  peer_tidy : ∀ k e, st_entries rs !! k = Some e → tidy k;
  peer_tree : tree_sound blake3 include_all (st_entries rs) (st_tree rs);
  peer_objects : ∀ k e, st_entries rs !! k = Some e → kind e = File → is_Some (content_hash e)
}.

Section Peer.
Context (blake3 : string → Hash) (Hlen : ∀ m, strlen (blake3 m) = 32%nat).
Context (rs : FolderState) (Hrs : peer_wf blake3 rs).

Lemma peer_prefix p : p ∈ dom (nodes (st_tree rs)) → is_absolute p = false ∧ trim_matches slash p = p.
Proof.
  intros Hp%(tree_sound_dom _ _ _ _ (peer_tree _ _ Hrs)).
  split; [by eapply node_path_relative, Hp; apply Hrs|].
  apply elem_of_node_paths in Hp as [->|(k & e & Hk & _ & He)]; [done|].
  pose proof (peer_tidy _ _ Hrs k e Hk) as [Ht Ha].
  pose proof (index_keyed _ (peer_index _ _ Hrs) k e Hk) as Hpath. simpl in Hpath.
  destruct He as [He|[_ ->]]; [|by rewrite Hpath].
  rewrite Forall_forall in Ha. apply Ha. by rewrite <-Hpath.
Qed.

Lemma peer_node_at p n :
  nodes (st_tree rs) !! p = Some n →
  node rs p = Some n ∧
  n = make_node blake3 p (direct_entries blake3 include_all (st_entries rs) p)
        (direct_children (nodes (st_tree rs)) p).
Proof.
  intros Hn. pose proof (elem_of_dom_2 _ _ _ Hn) as [_ Ht]%peer_prefix.
  split; [|by apply (tree_sound_nodes _ _ _ _ (peer_tree _ _ Hrs))].
  unfold node, normalize_prefix. by rewrite Ht.
Qed.

(** A child listed by a node is a node below it. *)
Lemma peer_child p n name h :
  nodes (st_tree rs) !! p = Some n → tn_children n !! name = Some h →
  let c := join_path p name in
  c ≠ "" ∧ parent_path c = p ∧ basename c = name ∧ tn_hash <$> nodes (st_tree rs) !! c = Some h.
Proof.
  intros Hn Hc. apply peer_node_at in Hn as [_ ->]. simpl in Hc.
  apply collect_children_Some in Hc as (c & (Hd & Hne & <-)%elem_of_child_list & <- & Hh).
  pose proof (peer_prefix c Hd) as [Hrel _].
  pose proof (tree_sound_parent _ _ _ _ _ (peer_tree _ _ Hrs) Hd) as [_ Ht]%peer_prefix.
  cbv zeta. rewrite join_path_parts by done. done.
Qed.

(** An entry listed by a node is an entry of the index, under its parent. *)
Lemma peer_entry p n name h :
  nodes (st_tree rs) !! p = Some n → tn_entries n !! name = Some h →
  ∃ e, st_entries rs !! join_path p name = Some e ∧ path e = join_path p name ∧
       parent_path (path e) = p ∧ basename (path e) = name ∧ hash_entry blake3 e = h.
Proof.
  intros Hn He. pose proof (elem_of_dom_2 _ _ _ Hn) as [_ Ht]%peer_prefix.
  apply peer_node_at in Hn as [_ ->]. simpl in He.
  apply hash_entries_Some in He as (e & He & <- & <-). exists e.
  apply elem_of_btree_values in He as [k (Hk & _ & Hp)%map_lookup_filter_Some]. simpl in Hp. subst p.
  pose proof (index_keyed _ (peer_index _ _ Hrs) k e Hk) as Hpath. simpl in Hpath. subst k.
  rewrite join_path_parts by (done || by eapply index_relative, Hk; apply Hrs). done.
Qed.

(** Every entry is listed by the node of its parent. *)
Lemma peer_listed k e :
  st_entries rs !! k = Some e →
  ∃ n, nodes (st_tree rs) !! parent_path k = Some n ∧
       tn_entries n !! basename k = Some (hash_entry blake3 e).
Proof.
  intros Hk. assert (parent_path k ∈ dom (nodes (st_tree rs))) as [n Hn]%elem_of_dom.
  { apply (tree_sound_above _ _ _ _ (peer_tree _ _ Hrs) k e); [done..|].
    pose proof (index_keyed _ (peer_index _ _ Hrs) k e Hk) as Hpath. simpl in Hpath.
    rewrite Hpath. auto. }
  exists n. split; [done|]. apply peer_node_at in Hn as [_ ->]. simpl.
  by apply entries_lookup; [apply Hrs|..].
Qed.

(** An entry strictly below a node's own entries is below one of its children. *)
Lemma peer_below p n k e :
  nodes (st_tree rs) !! p = Some n → st_entries rs !! k = Some e → p ∈ ancestors k →
  parent_path k = p ∨
  ∃ name h, tn_children n !! name = Some h ∧ join_path p name ∈ ancestors k.
Proof.
  intros Hn Hk Hp. destruct (ancestors_child _ _ Hp) as [->|(c & Hc & Hne & <-)]; [by left|]. right.
  assert (c ∈ dom (nodes (st_tree rs))) as Hd.
  { apply (tree_sound_above _ _ _ _ (peer_tree _ _ Hrs) k e); [done..|].
    pose proof (index_keyed _ (peer_index _ _ Hrs) k e Hk) as Hpath. simpl in Hpath. by rewrite Hpath. }
  pose proof (peer_prefix c Hd) as [Hrel _].
  pose proof (elem_of_dom_2 _ _ _ Hn) as [_ Ht]%peer_prefix.
  apply elem_of_dom in Hd as [m Hm]. exists (basename c), (tn_hash m).
  rewrite join_path_parts by done. split; [|done].
  apply peer_node_at in Hn as [_ ->]. simpl.
  apply (children_lookup blake3 include_all (st_entries rs) (peer_index _ _ Hrs) _ (peer_tree _ _ Hrs));
    [done..|]. by rewrite Hm.
Qed.

(** What the peer serves for a node. *)
Lemma served_entries p n name h :
  nodes (st_tree rs) !! p = Some n → tn_entries n !! name = Some h →
  ∃ e, entries_by_path (entries_of_node rs p) !! join_path p name = Some e ∧
       st_entries rs !! join_path p name = Some e ∧ hash_entry blake3 e = h.
Proof.
  intros Hn Hname. destruct (peer_entry p n name h Hn Hname) as (e & Hk & Hpath & _ & _ & Hh).
  exists e. split; [|done].
  assert (∀ e', e' ∈ entries_of_node rs p → st_entries rs !! path e' = Some e') as Hserved.
  { intros e'. unfold entries_of_node. destruct (node rs p); [|by intros ?%elem_of_nil].
    intros (x & _ & Hx)%list_elem_of_omap. unfold entry in Hx.
    pose proof (index_keyed _ (peer_index _ _ Hrs) _ _ Hx) as Hp'. simpl in Hp'. by rewrite Hp'. }
  assert (e ∈ entries_of_node rs p) as Hin.
  { unfold entries_of_node. rewrite (proj1 (peer_node_at p n Hn)).
    apply list_elem_of_omap. exists name. split.
    - apply elem_of_btree_keys, elem_of_dom. by exists h.
    - change (entry rs (join_path p name) = Some e). unfold entry.
      destruct (peer_tidy _ _ Hrs _ _ Hk) as [-> _]. done. }
  unfold entries_by_path.
  destruct (list_to_map (reverse ((λ e, (path e, e)) <$> entries_of_node rs p)) !! join_path p name)
    as [e'|] eqn:E.
  - apply elem_of_list_to_map_2 in E. rewrite elem_of_reverse, list_elem_of_fmap in E.
    destruct E as (x & [= Hx ->] & Hx'). apply Hserved in Hx'. rewrite <-Hx, Hk in Hx'. congruence.
  - apply not_elem_of_list_to_map_2 in E. destruct E. rewrite fmap_reverse, elem_of_reverse.
    rewrite <-list_fmap_compose. apply list_elem_of_fmap. by exists e.
Qed.
End Peer.

(** ** A quiet environment *)

Lemma m_fold_cons {S A B} a (l : list A) (body : A → B → M S B) b s :
  m_fold (a :: l) body b s =
    match body a b s with (s', Ok b') => m_fold l body b' s' | (s', Err e) => (s', Err e) end.
Proof. done. Qed.

(** The peer answers from [rs], downloads succeed, and nothing else happens. *)
Record honest {F} (rs : FolderState) (env : Env (F:=F)) : Prop := {
  honest_others n w : others env n w = w;
  honest_node n p : peer_node env n p = Ok (node rs p);
  honest_entries n p : peer_entries env n p = Ok (entries_of_node rs p);
  honest_completion n l : completion env n l ≡ₚ l;
  honest_download n e : ∃ tmp, download env n e = Ok (Some tmp)
}.

Section Quiet.
Context {F : Type} `{FsOps F} (blake3 : string → Hash) `{StateCodec}.
Context (rs : FolderState) (env : Env (F:=F)) (Henv : honest rs env).
Abbreviation World := (World (F:=F)) (only parsing).
Implicit Types w : RW (F:=F).

Abbreviation state w := (w_st (rw_world w)).

Lemma quiet_await {A} (answer : nat → A) w :
  await env answer w = (mkRW (rw_world w) (S (rw_tick w)), Ok (answer (rw_tick w))).
Proof. unfold await. by rewrite (honest_others _ _ Henv). Qed.

Lemma quiet_read w :
  read_state env w = (mkRW (rw_world w) (S (rw_tick w)), Ok (state w)).
Proof. unfold read_state, m_bind. by rewrite quiet_await. Qed.

Lemma quiet_write {A} (c : M World A) w :
  write_state env c w =
    let '(x, r) := c (rw_world w) in (mkRW x (S (rw_tick w)), r).
Proof. unfold write_state, m_bind. rewrite quiet_await. unfold m_zoom. by destruct (c _). Qed.

(** *** Selecting *)

Section Select.
Context (prefix : string) (local_node : option TreeNode) (all : gmap string Entry).

(** The local node has the entry with this hash. *)
Definition listed_locally (name : string) (h : Hash) : Prop :=
  (n ← local_node; tn_entries n !! name) = Some h.

Lemma select_quiet items acc w :
  (∀ name h, (name, h) ∈ items → ∃ e, all !! join_path prefix name = Some e ∧ hash_entry blake3 e = h) →
  ∃ t sel,
    m_fold items (select_entry blake3 env prefix local_node all) acc w
      = (mkRW (rw_world w) t, Ok (acc ++ sel)) ∧
    (length sel ≤ length items)%nat ∧
    (∀ e, e ∈ sel → ∃ name h, (name, h) ∈ items ∧ all !! join_path prefix name = Some e ∧
                       should_accept_remote (state w) e = true) ∧
    (∀ name h e, (name, h) ∈ items → all !! join_path prefix name = Some e →
       listed_locally name h ∨ handled (state w) e ∨ e ∈ sel).
Proof.
  revert acc w. induction items as [|[name h] items IH]; intros acc w Hall.
  { exists (rw_tick w), []. rewrite app_nil_r. split_and!; [by destruct w|done|..];
      [by intros ? ?%elem_of_nil|by intros ??? ?%elem_of_nil]. }
  destruct (Hall name h) as (e & He & Hh); [by left|]. rewrite m_fold_cons. unfold select_entry at 1.
  assert (∀ name h, (name, h) ∈ items → ∃ e, all !! join_path prefix name = Some e ∧ hash_entry blake3 e = h)
    as Hall' by (intros ???; apply Hall; by right).
  case_bool_decide as Hloc.
  { unfold m_ret at 1. simpl. destruct (IH acc w Hall') as (t & sel & -> & Hlen & Hsel & Hdone).
    exists t, sel. split_and!; [done|simpl; lia| |].
    - intros e' (n & h' & ? & ?)%Hsel. exists n, h'. split; [by right|done].
    - intros n h' e' [[= -> ->]|Hin]%elem_of_cons He'; [by left|by eapply Hdone]. }
  unfold m_bind, m_lift. rewrite He. simpl. rewrite bool_decide_false by (intros Hn; by apply Hn).
  rewrite (honest_others _ _ Henv). unfold m_ret at 1.
  set (w1 := mkRW (rw_world w) (S (rw_tick w))).
  destruct (should_accept_remote (state w) e) eqn:Hacc.
  - destruct (IH (acc ++ [e]) w1 Hall') as (t & sel & -> & Hlen & Hsel & Hdone).
    exists t, (e :: sel). rewrite <-app_assoc. split_and!; [done|simpl; lia| |].
    + intros e' [->|Hin]%elem_of_cons; [exists name, h; split; [by left|done]|].
      destruct (Hsel e' Hin) as (n & h' & ? & ?). exists n, h'. split; [by right|done].
    + intros n h' e' [[= -> ->]|Hin]%elem_of_cons He'.
      * right; right. assert (e' = e) as -> by congruence. by left.
      * destruct (Hdone n h' e' Hin He') as [?|[?|?]]; [by left|by right; left|right; right; by right].
  - destruct (IH acc w1 Hall') as (t & sel & -> & Hlen & Hsel & Hdone).
    exists t, sel. split_and!; [done|simpl; lia| |].
    + intros e' (n & h' & ? & ?)%Hsel. exists n, h'. split; [by right|done].
    + intros n h' e' [[= -> ->]|Hin]%elem_of_cons He'; [|by eapply Hdone].
      right; left. by assert (e' = e) as -> by congruence.
Qed.
End Select.

(** *** Sorting and collecting *)

Lemma sort_quiet to_apply files nons w :
  (∀ e, e ∈ to_apply → kind e = File → is_Some (content_hash e)) →
  ∃ fs ns, m_fold to_apply sort_entry (files, nons) w = (w, Ok (files ++ fs, nons ++ ns)) ∧
    (length fs + length ns = length to_apply)%nat ∧
    (∀ e, e ∈ fs → e ∈ to_apply) ∧ (∀ item, item ∈ ns → item.1 ∈ to_apply) ∧
    (∀ e, e ∈ to_apply → e ∈ fs ∨ e ∈ ns.*1).
Proof.
  revert files nons. induction to_apply as [|e to_apply IH]; intros files nons Hobj.
  { exists [], []. rewrite !app_nil_r. split_and!; [done|done|by intros ? ?%elem_of_nil..]. }
  rewrite m_fold_cons. unfold sort_entry at 1.
  assert (∀ e, e ∈ to_apply → kind e = File → is_Some (content_hash e)) as Hobj'
    by (intros ??; apply Hobj; by right).
  case_decide as Hk.
  - destruct (Hobj e) as [h ->]; [by left|done|]. unfold m_ret.
    destruct (IH (files ++ [e]) nons Hobj') as (fs & ns & -> & Hlen & Hf & Hn & Hall).
    exists (e :: fs), ns. rewrite <-app_assoc. split_and!; [done|simpl; lia|..].
    + intros x [->|Hx]%elem_of_cons; [by left|right; auto].
    + intros x Hx. right. auto.
    + intros x [->|Hx]%elem_of_cons; [left; by left|]. destruct (Hall x Hx); [left; by right|by right].
  - unfold m_ret. destruct (IH files (nons ++ [(e, None)]) Hobj') as (fs & ns & -> & Hlen & Hf & Hn & Hall).
    exists fs, ((e, None) :: ns). rewrite <-app_assoc. split_and!; [done|simpl; lia|..].
    + intros x Hx. right. auto.
    + intros x [->|Hx]%elem_of_cons; [by left|right; auto].
    + intros x [->|Hx]%elem_of_cons; [right; by left|]. destruct (Hall x Hx); [by left|right; by right].
Qed.

Lemma collect_quiet n l batch w :
  ∃ fs, m_fold ((λ e, (e, download env n e)) <$> l) collect_download batch w = (w, Ok (batch ++ fs)) ∧
    fs.*1 = l.
Proof.
  revert batch. induction l as [|e l IH]; intros batch.
  { exists []. by rewrite app_nil_r. }
  rewrite fmap_cons, m_fold_cons. unfold collect_download at 1, m_bind, m_lift. simpl.
  destruct (honest_download _ _ Henv n e) as [tmp ->]. unfold m_ret.
  destruct (IH (batch ++ [(e, Some tmp)])) as (fs & -> & <-).
  exists ((e, Some tmp) :: fs). by rewrite <-app_assoc.
Qed.
End Quiet.
