(* ===== verification/SyncConverge.v ===== *)
(** * Reconciliation converges

    With an honest, quiet peer the walk ends within as many steps as the peer's
    tree has nodes, and leaves nothing of the peer's index to accept - unless
    installing one of its entries on the local disk fails. *)

From S2P Require Import Prelude Paths Bytes Utf8 Fs Ignore Entries Scan Tree TreeSpec.
From S2P Require Import TreeUpdate TreeHash State StateLocal StateIndex StateTrack StateOps.
From S2P Require Import StateInv StateProps StateMerge Messages Rpc Sync Subtree SyncLemmas.

Section Converge.
Context {F : Type} `{FsOps F} (blake3 : string → Hash) `{StateCodec}.
Context (Hlen : ∀ m, strlen (blake3 m) = 32%nat).
Context (rs : FolderState) (Hrs : peer_wf blake3 rs).
Context (env : Env (F:=F)) (Henv : honest rs env).
Context (B : Z) (HB : ∀ k e, st_entries rs !! k = Some e → 0 ≤ lamport (version e) ≤ B).
Implicit Types w : RW (F:=F).
Abbreviation state w := (w_st (rw_world w)).
Abbreviation tr := (st_tree rs).

(** No two messages hashed by the two trees collide. *)
Definition no_collision (s : FolderState) : Prop :=
  collision_free blake3 (tree_messages include_all (st_entries rs) tr ++
                         tree_messages include_all (st_entries s) (st_tree s)).

(** What the walk keeps: room for [n] more entries. *)
Record walking (n : nat) (s : FolderState) : Prop := {
  walking_merging : merging B n s;
  walking_trees : trees_sound blake3 s
}.

(** An installation of one of the peer's entries failed. *)
Definition peer_install_failed (root : string) (e : ErrorKind) : Prop :=
  ∃ batch : list (Entry * option string),
    (∀ item, item ∈ batch → st_entries rs !! path item.1 = Some item.1) ∧
    install_failed (F:=F) root batch e.

Lemma apply_batch_quiet batch n changes w w' r :
  (∀ item, item ∈ batch → st_entries rs !! path item.1 = Some item.1 ∧
     validate_remote_path (path item.1) = Ok ()) →
  walking (length batch + n) (state w) →
  apply_batch blake3 env batch changes w = (w', r) →
  match r with
  | Ok _ => walking n (state w') ∧ grows (state w) (state w') ∧
      ∀ item, item ∈ batch → handled (state w') item.1
  | Err e => peer_install_failed (st_root (state w)) e
  end.
Proof.
  intros Hb [Hm Ht] Hrun. unfold apply_batch in Hrun. destruct batch as [|item batch].
  { injection Hrun as <- <-. split_and!; [done|done|by intros ? ?%elem_of_nil]. }
  set (b := item :: batch) in *. unfold m_bind in Hrun. rewrite (quiet_write rs env Henv) in Hrun.
  destruct (apply_remote_entries blake3 b (rw_world w)) as [x [cs|e]] eqn:Ha.
  - injection Hrun as <- <-.
    apply (apply_remote_entries_ok blake3 B b n) in Ha as (Hm' & Ht' & Hg & Hall); [|..|done|done].
    + split_and!; [done|done|]. by rewrite Forall_forall in Hall.
    + apply Forall_forall. intros i Hi. destruct (Hb i Hi) as [Hk _]. split; [by eapply HB|].
      by eapply index_fits, Hk; apply Hrs.
  - injection Hrun as <- <-. exists b. split; [by intros i [? _]%Hb|].
    eapply apply_remote_entries_err; [|done]. apply Forall_forall. by intros i [_ ?]%Hb.
Qed.

(** *** One node's entries *)

Lemma reconcile_entries_quiet p n changes k w w' r :
  nodes tr !! p = Some n → walking (base.size (tn_entries n) + k) (state w) →
  reconcile_entries blake3 env p (node (state w) p) n changes w = (w', r) →
  match r with
  | Ok _ => walking k (state w') ∧ grows (state w) (state w') ∧
      ∀ name h e, tn_entries n !! name = Some h → st_entries rs !! join_path p name = Some e →
        listed_locally (node (state w) p) name h ∨ handled (state w') e
  | Err e => peer_install_failed (st_root (state w)) e
  end.
Proof.
  intros Hn Hw Hrun. unfold reconcile_entries in Hrun. unfold ask, m_bind at 1 2 in Hrun.
  rewrite (quiet_await rs env Henv), (honest_entries _ _ Henv) in Hrun. unfold m_lift in Hrun.
  set (w1 := mkRW (rw_world w) (S (rw_tick w))) in *.
  unfold m_bind at 1 in Hrun.
  destruct (select_quiet blake3 rs env Henv p (node (state w) p) (entries_by_path (entries_of_node rs p))
    (btree_items (tn_entries n)) [] w1) as (t & sel & Hsel & Hlsel & Hsound & Hdone).
  { intros name h Hin%elem_of_btree_items.
    destruct (served_entries blake3 rs Hrs p n name h Hn Hin) as (e & He & _ & Hh). by exists e. }
  rewrite Hsel in Hrun. clear Hsel. rewrite app_nil_l in Hrun.
  assert (∀ name h, tn_entries n !! name = Some h → ∃ e,
    entries_by_path (entries_of_node rs p) !! join_path p name = Some e ∧
    st_entries rs !! join_path p name = Some e) as Hserved.
  { intros name h Hin. destruct (served_entries blake3 rs Hrs p n name h Hn Hin) as (e & ? & ? & _). by exists e. }
  assert (∀ e, e ∈ sel → st_entries rs !! path e = Some e ∧ validate_remote_path (path e) = Ok ()) as Hpeer.
  { intros e He. destruct (Hsound e He) as (name & h & Hin%elem_of_btree_items & Hall & Hacc).
    destruct (Hserved name h Hin) as (e' & He' & Hk). assert (e' = e) as -> by congruence.
    pose proof (index_keyed _ (peer_index _ _ Hrs) _ _ Hk) as Hp. simpl in Hp. rewrite Hp.
    split; [done|]. apply should_accept_remote_spec in Hacc as [Hv _]. by rewrite <-Hp. }
  set (w2 := mkRW (rw_world w1) t) in *. unfold m_bind at 1 in Hrun.
  destruct (sort_quiet sel [] [] w2) as (fs & ns & Hsort & Hls & Hfs & Hns & Hcover).
  { intros e He Hk. destruct (Hpeer e He) as [Hke _]. by eapply peer_objects. }
  rewrite Hsort in Hrun. clear Hsort. rewrite !app_nil_l in Hrun.
  assert (length sel ≤ base.size (tn_entries n))%nat as Hsize.
  { etrans; [exact Hlsel|]. rewrite <-(length_fmap fst), fst_btree_items. unfold btree_keys, sort_keys.
    rewrite merge_sort_Permutation, length_fmap, length_map_to_list. done. }
  unfold m_bind at 1 in Hrun.
  destruct (apply_batch blake3 env ns changes w2) as [w3 r3] eqn:Hb1.
  apply (apply_batch_quiet ns (length fs + k)) in Hb1.
  2:{ intros item Hi. by apply Hpeer, Hns. }
  2:{ destruct Hw as [Hm Ht]. split; [|done]. eapply merging_weaken; [|exact Hm]. simpl. lia. }
  destruct r3 as [changes1|e]; [|by injection Hrun as <- <-].
  destruct Hb1 as (Hw3 & Hg1 & Hh1).
  unfold m_bind at 1 in Hrun. rewrite (quiet_await rs env Henv) in Hrun.
  set (w4 := mkRW (rw_world w3) (S (rw_tick w3))) in *.
  destruct (collect_quiet rs env Henv (rw_tick w3) (completion env (rw_tick w3) fs) [] w4)
    as (fb & Hcol & Hfb).
  unfold m_bind at 1 in Hrun. rewrite Hcol in Hrun. clear Hcol. rewrite app_nil_l in Hrun.
  pose proof (honest_completion _ _ Henv (rw_tick w3) fs) as Hperm. rewrite <-Hfb in Hperm.
  assert (length fb = length fs) as Hlfb by (by rewrite <-Hperm, length_fmap).
  apply (apply_batch_quiet fb k) in Hrun.
  2:{ intros item Hi. apply Hpeer, Hfs. rewrite <-Hperm. apply list_elem_of_fmap. by exists item. }
  2:{ by rewrite Hlfb. }
  assert (st_root (state w4) = st_root (state w)) as Hroot by (simpl; by destruct Hg1 as [-> _]).
  destruct r as [cs|e]; [|by rewrite <-Hroot].
  destruct Hrun as (Hw' & Hg2 & Hh2). split_and!; [done|by etrans|].
  intros name h e Hin Hk. destruct (Hserved name h Hin) as (e' & Hall & Hk').
  assert (e' = e) as -> by congruence.
  destruct (Hdone name h e) as [?|[Hh|Hs]]; [by apply elem_of_btree_items|done|by left|..]; right.
  - do 2 (eapply handled_grows; [done|]). done.
  - destruct (Hcover e Hs) as [Hf|Hf].
    + rewrite <-Hperm in Hf. apply list_elem_of_fmap in Hf as (item & -> & Hi). by apply Hh2.
    + apply list_elem_of_fmap in Hf as (item & -> & Hi). eapply handled_grows; [done|]. by apply Hh1.
Qed.

(** *** What the local tree says of the peer's *)

Section Local.
Context (s : FolderState) (Hwf : state_wf s) (Ht : trees_sound blake3 s) (Hfree : no_collision s).

Lemma local_node_at p ln :
  trim_matches slash p = p → node s p = Some ln → nodes (st_tree s) !! p = Some ln.
Proof. unfold node, normalize_prefix. by intros ->. Qed.

(** Below a prefix where the hashes agree, the peer's entries are here. *)
Lemma local_subtree p n k e :
  nodes tr !! p = Some n → tn_hash <$> nodes (st_tree s) !! p = Some (tn_hash n) →
  p ∈ ancestors k → st_entries rs !! k = Some e → handled s e.
Proof.
  intros Hn Hh Hp Hk. pose proof (index_keyed _ (peer_index _ _ Hrs) k e Hk) as Hpath. simpl in Hpath.
  apply handled_present. rewrite Hpath.
  by eapply (same_node_same_entries blake3 Hlen include_all (st_entries rs) (st_entries s) tr (st_tree s)
    (peer_index _ _ Hrs) (proj1 Hwf) (peer_tree _ _ Hrs) (proj1 Ht) Hfree).
Qed.

Lemma local_listed p n name h e :
  nodes tr !! p = Some n → tn_entries n !! name = Some h →
  st_entries rs !! join_path p name = Some e → listed_locally (node s p) name h → handled s e.
Proof.
  intros Hn Hname Hk Hl. destruct (peer_entry blake3 rs Hrs p n name h Hn Hname) as (e' & Hk' & Hpath & Hpar & Hb & Hh).
  assert (e' = e) as -> by congruence.
  pose proof (peer_prefix blake3 rs Hrs p (elem_of_dom_2 _ _ _ Hn)) as [_ Htrim].
  unfold listed_locally in Hl. destruct (node s p) as [ln|] eqn:Eln; [|done]. simpl in Hl.
  apply local_node_at in Eln; [|done]. apply (tree_sound_nodes _ _ _ _ (proj1 Ht)) in Eln. subst ln. simpl in Hl.
  rewrite <-Hpar, <-Hb in Hl. pose proof (index_relative _ (peer_index _ _ Hrs) _ _ Hk) as Hrel.
  rewrite <-Hpath in Hrel, Hk.
  apply (entries_lookup_Some blake3 include_all (st_entries s) (proj1 Hwf)) in Hl as (l & Hlk & _ & Hlh); [|done].
  apply handled_present. rewrite Hlk. f_equal. symmetry.
  eapply (same_hash_same_entry blake3 include_all (st_entries rs) (st_entries s) tr (st_tree s)
    (peer_index _ _ Hrs) (proj1 Hwf) Hfree); [done..|congruence].
Qed.

Lemma local_child p n name h k e :
  nodes tr !! p = Some n → tn_children n !! name = Some h →
  (ln ← node s p; tn_children ln !! name) = Some h →
  join_path p name ∈ ancestors k → st_entries rs !! k = Some e → handled s e.
Proof.
  intros Hn Hname Hl Hanc Hk.
  destruct (peer_child blake3 rs Hrs p n name h Hn Hname) as (Hne & Hpar & Hb & Hh).
  set (c := join_path p name) in *. apply fmap_Some in Hh as (m & Hm & ->).
  pose proof (peer_prefix blake3 rs Hrs p (elem_of_dom_2 _ _ _ Hn)) as [_ Htrim].
  pose proof (peer_prefix blake3 rs Hrs c (elem_of_dom_2 _ _ _ Hm)) as [Hrel _].
  destruct (node s p) as [ln|] eqn:Eln; [|done]. simpl in Hl.
  apply local_node_at in Eln; [|done]. apply (tree_sound_nodes _ _ _ _ (proj1 Ht)) in Eln. subst ln. simpl in Hl.
  rewrite <-Hpar, <-Hb in Hl.
  apply (children_lookup blake3 include_all (st_entries s) (proj1 Hwf) _ (proj1 Ht)) in Hl; [|done..].
  by eapply local_subtree.
Qed.
End Local.

(** *** One node *)

Lemma queue_changed_spec p ln n stack :
  let pushed := reverse ((λ item, (join_path p item.1, item.2)) <$>
    filter (λ item : string * Hash, (l ← ln; tn_children l !! item.1) ≠ Some item.2)
      (btree_items (tn_children n))) in
  queue_changed_children p ln n stack = pushed ++ stack.
Proof.
  unfold queue_changed_children. revert stack. generalize (btree_items (tn_children n)) as items.
  induction items as [|[name h] items IH]; intros stack; [done|]. simpl.
  rewrite IH, filter_cons. case_bool_decide as Hc.
  - rewrite decide_False by (intros Hx; exact (Hx Hc)). done.
  - rewrite decide_True by exact Hc. cbn [fmap list_fmap]. rewrite reverse_cons, <-app_assoc. done.
Qed.

Lemma reconcile_node_quiet hinted p n changes stack k w w' r :
  nodes tr !! p = Some n → (∀ m, hinted_get hinted p (tn_hash n) = Some m → m = n) →
  walking (base.size (tn_entries n) + k) (state w) → no_collision (state w) →
  reconcile_node blake3 env hinted p (tn_hash n) changes stack w = (w', r) →
  match r with
  | Ok (_, stack') => walking k (state w') ∧ grows (state w) (state w') ∧
      ∃ pushed, stack' = pushed ++ stack ∧ NoDup (pushed.*1) ∧
        (∀ c h, (c, h) ∈ pushed → c ≠ "" ∧ parent_path c = p ∧ tn_hash <$> nodes tr !! c = Some h) ∧
        (∀ q e, st_entries rs !! q = Some e → p ∈ ancestors q →
           handled (state w') e ∨ ∃ c h, (c, h) ∈ pushed ∧ c ∈ ancestors q)
  | Err e => peer_install_failed (st_root (state w)) e
  end.
Proof.
  intros Hn Hhint Hw Hfree Hrun. unfold reconcile_node, m_bind at 1 in Hrun.
  rewrite (quiet_read rs env Henv) in Hrun. set (w1 := mkRW (rw_world w) (S (rw_tick w))) in *.
  assert (state_wf (state w)) as Hwf by apply Hw.
  pose proof (walking_trees _ _ Hw) as Ht.
  pose proof (peer_prefix blake3 rs Hrs p (elem_of_dom_2 _ _ _ Hn)) as [_ Htrim].
  case_bool_decide as Hsame.
  { injection Hrun as <- <-. split.
    { destruct Hw as [Hm ?]. split; [|done]. eapply merging_weaken; [|exact Hm]. lia. }
    split; [done|]. exists []. split_and!; [done|constructor|by intros ?? ?%elem_of_nil|].
    intros q e Hk Hp. left. apply (local_subtree (state w) Hwf Ht Hfree p n q e Hn); [|done..].
    rewrite <-Hsame. unfold node, normalize_prefix. simpl. by rewrite Htrim. }
  unfold m_bind at 1 in Hrun.
  assert (∃ w2, (match hinted_get hinted p (tn_hash n) with
    | Some m => m_ret m
    | None => m_bind (ask env (λ i, peer_node env i p)) (λ m, m_lift (ok_or OtherError m))
    end : M RW TreeNode) w1 = (w2, Ok n) ∧ rw_world w2 = rw_world w) as (w2 & Hask & Hw2).
  { destruct (hinted_get hinted p (tn_hash n)) as [m|] eqn:Eh.
    - rewrite (Hhint m eq_refl). by exists w1.
    - unfold ask, m_bind. rewrite (quiet_await rs env Henv), (honest_node _ _ Henv).
      rewrite (proj1 (peer_node_at blake3 rs Hrs p n Hn)). by eexists. }
  rewrite Hask in Hrun. clear Hask. rewrite bool_decide_false in Hrun by (intros Hx; by apply Hx).
  cbv iota beta in Hrun.
  unfold m_bind in Hrun.
  destruct (reconcile_entries blake3 env p (node (state w) p) n changes w2) as [w3 [cs|e]] eqn:Hre.
  2:{ injection Hrun as <- <-. replace (node (state w) p) with (node (state w2) p) in Hre by (by rewrite Hw2).
      apply (reconcile_entries_quiet p n _ k) in Hre; [|done|by rewrite Hw2]. by rewrite Hw2 in Hre. }
  injection Hrun as <- <-. replace (node (state w) p) with (node (state w2) p) in Hre by (by rewrite Hw2).
  apply (reconcile_entries_quiet p n _ k) in Hre as (Hw3 & Hg & Hdone); [|done|by rewrite Hw2].
  rewrite Hw2 in Hg, Hdone. split_and!; [done|done|].
  eexists. split; [apply queue_changed_spec|].
  set (changed := filter _ (btree_items (tn_children n))).
  assert (∀ c h, (c, h) ∈ reverse ((λ item : string * Hash, (join_path p item.1, item.2)) <$> changed) ↔
    ∃ name, c = join_path p name ∧ tn_children n !! name = Some h ∧
            (l ← node (state w) p; tn_children l !! name) ≠ Some h) as Hin.
  { intros c h. rewrite elem_of_reverse, list_elem_of_fmap. unfold changed. split.
    - intros ([name h'] & [= -> ->] & [Hc Hi%elem_of_btree_items]%list_elem_of_filter). by exists name.
    - intros (name & -> & Hi & Hc). exists (name, h). split; [done|].
      apply list_elem_of_filter. split; [done|]. by apply elem_of_btree_items. }
  split_and!.
  - rewrite fmap_reverse, reverse_Permutation, <-list_fmap_compose.
    apply (NoDup_fmap_1 basename). rewrite <-list_fmap_compose.
    assert (NoDup (changed.*1)) as Hnd.
    { eapply sublist_NoDup; [apply (NoDup_btree_keys (tn_children n))|].
      rewrite <-fst_btree_items. apply fmap_sublist, sublist_filter. }
    replace ((basename ∘ _) <$> changed) with (changed.*1); [done|].
    apply list_fmap_ext. intros i [name h] Hi%list_elem_of_lookup_2. simpl.
    apply list_elem_of_filter in Hi as [_ Hi%elem_of_btree_items].
    by destruct (peer_child blake3 rs Hrs p n name h Hn Hi) as (_ & _ & -> & _).
  - intros c h (name & -> & Hi & _)%Hin.
    by destruct (peer_child blake3 rs Hrs p n name h Hn Hi) as (? & ? & _ & ?).
  - intros q e Hk Hp. destruct (peer_below blake3 rs Hrs p n q e Hn Hk Hp) as [<-|(name & h & Hi & Hanc)].
    + left. destruct (peer_listed blake3 rs Hrs q e Hk) as (n' & Hn' & Hl).
      assert (n' = n) as -> by congruence.
      destruct (peer_entry blake3 rs Hrs _ n _ _ Hn Hl) as (e' & Hk' & Hpath & Hpar & Hb & _).
      assert (join_path (parent_path q) (basename q) = q) as Hj.
      { apply join_path_parts; [by eapply index_relative, Hk; apply Hrs|done]. }
      destruct (Hdone (basename q) (hash_entry blake3 e) e) as [Hll|?]; [done|by rewrite Hj| |done].
      eapply handled_grows; [exact Hg|]. eapply local_listed; [done..|by rewrite Hj|done].
    + destruct (decide ((l ← node (state w) p; tn_children l !! name) = Some h)) as [Hloc|Hloc].
      * left. eapply handled_grows; [exact Hg|]. by eapply local_child.
      * right. exists (join_path p name), h. split; [|done]. apply Hin. by exists name.
Qed.

(** *** The walk *)

(** How many nodes, and how many listed entries, are at or below a prefix. *)
Definition nodes_below : string → nat := weight (λ _, 1%nat) (dom (nodes tr)).
Definition listed (p : string) : nat :=
  match nodes tr !! p with Some n => base.size (tn_entries n) | None => 0 end.
Definition listed_below : string → nat := weight listed (dom (nodes tr)).

Definition stack_sum (f : string → nat) (stack : list (string * Hash)) : nat :=
  sum_list_with f (stack.*1).

Lemma stack_sum_cons f p h stack : stack_sum f ((p, h) :: stack) = (f p + stack_sum f stack)%nat.
Proof. done. Qed.
Lemma stack_sum_app f s1 s2 : stack_sum f (s1 ++ s2) = (stack_sum f s1 + stack_sum f s2)%nat.
Proof. unfold stack_sum. by rewrite fmap_app, sum_list_with_app. Qed.

Definition on_tree (stack : list (string * Hash)) : Prop :=
  ∀ p h, (p, h) ∈ stack → tn_hash <$> nodes tr !! p = Some h.

(** A hint never replaces a node of the peer by another. *)
Definition hints_ok (hinted : gmap string TreeNode) : Prop :=
  ∀ p n m, nodes tr !! p = Some n → hinted_get hinted p (tn_hash n) = Some m → m = n.

Lemma pushed_weight f p n pushed :
  nodes tr !! p = Some n → NoDup (pushed.*1) →
  (∀ c h, (c, h) ∈ pushed → c ≠ "" ∧ parent_path c = p ∧ tn_hash <$> nodes tr !! c = Some h) →
  (f p + stack_sum (weight f (dom (nodes tr))) pushed ≤ weight f (dom (nodes tr)) p)%nat.
Proof.
  intros Hn Hnd Hp. apply weight_children; [by eapply elem_of_dom_2|done|].
  intros c ([c' h] & -> & Hc)%list_elem_of_fmap. by destruct (Hp c' h Hc) as (? & ? & _).
Qed.

Lemma node_weight f p n : nodes tr !! p = Some n → (f p ≤ weight f (dom (nodes tr)) p)%nat.
Proof.
  intros Hn. pose proof (pushed_weight f p n [] Hn NoDup_nil_2) as Hw.
  rewrite Nat.add_0_r in Hw. apply Hw. by intros ?? ?%elem_of_nil.
Qed.

Lemma reconcile_loop_quiet hinted fuel changes stack w w' r :
  hints_ok hinted → on_tree stack → (stack_sum nodes_below stack ≤ fuel)%nat →
  walking (stack_sum listed_below stack) (state w) →
  (∀ k, no_collision (state (reconcile_loop blake3 env k hinted changes stack w).1)) →
  reconcile_loop blake3 env fuel hinted changes stack w = (w', r) →
  match r with
  | Ok o => (∃ cs, o = Some cs) ∧ walking 0 (state w') ∧ grows (state w) (state w') ∧
      ∀ q e p h, st_entries rs !! q = Some e → (p, h) ∈ stack → p ∈ ancestors q → handled (state w') e
  | Err e => peer_install_failed (st_root (state w)) e
  end.
Proof.
  intros Hhints. revert changes stack w. induction fuel as [|fuel IH];
    intros changes [|[p h] stack] w Hon Hfuel Hw Hfree Hrun; rewrite ?stack_sum_cons in Hfuel, Hw.
  1, 3: injection Hrun as <- <-; split_and!; [by eexists|done|done|by intros ???? _ ?%elem_of_nil].
  - exfalso. destruct (fmap_Some_1 _ _ _ (Hon p h ltac:(left))) as (n & Hn & _).
    pose proof (node_weight (λ _, 1%nat) p n Hn) as Hone.
    fold nodes_below in Hone. cbv beta in Hone. lia.
  - destruct (fmap_Some_1 _ _ _ (Hon p h ltac:(left))) as (n & Hn & ->).
    cbn [reconcile_loop] in Hrun. unfold m_bind in Hrun.
    destruct (reconcile_node blake3 env hinted p (tn_hash n) changes stack w) as [w1 r1] eqn:Hnode.
    assert (∀ k, reconcile_loop blake3 env (S k) hinted changes ((p, tn_hash n) :: stack) w =
      match r1 with
      | Ok a => reconcile_loop blake3 env k hinted a.1 a.2 w1
      | Err e => (w1, Err e)
      end) as Hstep by (intros k; cbn [reconcile_loop]; unfold m_bind; by rewrite Hnode).
    apply (reconcile_node_quiet hinted p n changes stack
      (stack_sum listed_below stack + (listed_below p - base.size (tn_entries n)))) in Hnode;
      [|done|intros m; by apply (Hhints p n m Hn)|..].
    2:{ destruct Hw as [Hm ?]. split; [|done]. eapply merging_weaken; [|exact Hm].
        pose proof (node_weight listed p n Hn) as Hone. fold listed_below in Hone.
        unfold listed at 1 in Hone. rewrite Hn in Hone. lia. }
    2:{ exact (Hfree O). }
    destruct r1 as [[changes' stack']|e]; [|by injection Hrun as <- <-].
    destruct Hnode as (Hw1 & Hg1 & pushed & -> & Hnd & Hpushed & Hcover).
    pose proof (pushed_weight (λ _, 1%nat) p n pushed Hn Hnd Hpushed) as Hcnt.
    pose proof (pushed_weight listed p n pushed Hn Hnd Hpushed) as Hroom.
    unfold listed at 1 in Hroom. rewrite Hn in Hroom.
    fold nodes_below in Hcnt. fold listed_below in Hroom. cbv beta in Hcnt.
    cbn [fst snd] in Hrun. apply IH in Hrun.
    + destruct r as [o|e].
      * destruct Hrun as (Ho & Hw' & Hg' & Hall). split_and!; [done|done|by etrans|].
        intros q e p' h' Hk [[= -> ->]|Hin]%elem_of_cons Hanc.
        -- destruct (Hcover q e Hk Hanc) as [Hh|(c & hc & Hc & Hcanc)];
             [by eapply handled_grows|]. eapply Hall; [done| |done]. apply elem_of_app. by left.
        -- eapply Hall; [done| |done]. apply elem_of_app. by right.
      * destruct Hg1 as [<- _]. done.
    + intros c hc [Hc|Hc]%elem_of_app; [by apply (Hpushed c hc Hc)|apply Hon; by right].
    + rewrite stack_sum_app. lia.
    + destruct Hw1 as [Hm ?]. split; [|done]. eapply merging_weaken; [|exact Hm].
      rewrite stack_sum_app. lia.
    + intros k. specialize (Hfree (S k)). rewrite Hstep in Hfree. exact Hfree.
Qed.

(** More fuel changes nothing once the walk is over. *)
Lemma reconcile_loop_stable fuel k hinted changes stack w :
  match (reconcile_loop blake3 env fuel hinted changes stack w).2 with
  | Ok None => false
  | _ => true
  end = true →
  reconcile_loop blake3 env (fuel + k) hinted changes stack w =
  reconcile_loop blake3 env fuel hinted changes stack w.
Proof.
  revert changes stack w. induction fuel as [|fuel IH]; intros changes [|[p h] stack] w; try done.
  - by destruct k.
  - cbn [Nat.add reconcile_loop]. unfold m_bind.
    destruct (reconcile_node _ _ _ _ _ _ _ _) as [w1 [r|e]]; [apply IH|done].
Qed.

(** *** The whole reconciliation *)

(** Nothing of the peer's index is newer here: each of its entries, unless its
    path is refused or it is a collected tombstone, has a local entry that is
    not older. *)
Definition caught_up (s : FolderState) : Prop :=
  ∀ k e, st_entries rs !! k = Some e → validate_remote_path k = Ok () → covered s e = false →
    ∃ l, st_entries s !! k = Some l ∧ ¬ version_lt (version l) (version e).

Lemma handled_caught_up s :
  (∀ k e, st_entries rs !! k = Some e → handled s e) → caught_up s.
Proof.
  intros Hall k e Hk Hv Hc. specialize (Hall k e Hk).
  pose proof (index_keyed _ (peer_index _ _ Hrs) k e Hk) as Hpath. simpl in Hpath. subst k.
  unfold handled in Hall. destruct (st_entries s !! path e) as [l|] eqn:El.
  - exists l. split; [done|]. intros Hlt. rewrite <-not_true_iff_false in Hall. destruct Hall.
    apply should_accept_remote_spec. split_and!; [done|done|]. intros l' Hl'. congruence.
  - rewrite <-not_true_iff_false in Hall. destruct Hall.
    apply should_accept_remote_spec. split_and!; [done|done|]. congruence.
Qed.

(** A hint of the peer's own nodes. *)
Definition hint_honest (hint : option TreeHint) : Prop :=
  ∀ h n, hint = Some h → n ∈ hint_nodes h → ∃ p, nodes tr !! p = Some n.

Lemma hinted_nodes_from hint x m :
  hinted_nodes blake3 hint !! x = Some m → ∃ h, hint = Some h ∧ m ∈ hint_nodes h.
Proof.
  unfold hinted_nodes. destruct hint as [h|]; [|simpl; by rewrite lookup_empty].
  assert (∀ l (acc : gmap string TreeNode), foldl (λ m n, if bool_decide (tree_node_hash blake3 n = tn_hash n)
      then <[trim_matches slash (tn_prefix n) := n]> m else m) acc l !! x = Some m →
    acc !! x = Some m ∨ m ∈ l) as Hl.
  { induction l as [|n l IH]; intros acc; simpl; [by left|].
    intros [Hacc|?]%IH; [|right; by right]. case_bool_decide; [|by left].
    apply lookup_insert_Some in Hacc as [[_ ->]|[_ ?]]; [right; by left|by left]. }
  intros [He|Hm]%Hl; [by rewrite lookup_empty in He|]. by exists h.
Qed.

Lemma hints_ok_honest s hint :
  no_collision s → hint_honest hint → hints_ok (hinted_nodes blake3 hint).
Proof.
  intros Hfree Hh p n m Hn Hget. unfold hinted_get in Hget.
  destruct (hinted_nodes blake3 hint !! trim_matches slash p) as [m'|] eqn:E; [|done]. simpl in Hget.
  case_bool_decide as Heq; [|done]. injection Hget as ->.
  apply hinted_nodes_from in E as (h & -> & Hin). destruct (Hh h m eq_refl Hin) as [q Hq].
  eapply (same_hash_same_node blake3 Hlen include_all (st_entries rs) (st_entries rs) tr tr
    (peer_index _ _ Hrs) (peer_index _ _ Hrs) (peer_tree _ _ Hrs) (peer_tree _ _ Hrs)); [|done..].
  intros x y Hx Hy. apply Hfree; apply elem_of_app; left.
  - by apply elem_of_app in Hx as [?|?].
  - by apply elem_of_app in Hy as [?|?].
Qed.

Lemma sweep_quiet changes w w' r :
  sweep blake3 env changes w = (w', r) →
  r = Ok () ∧ ∃ ds, index_changes (state w) ds (state w').
Proof.
  intros Hrun. unfold sweep, m_bind at 1 in Hrun. rewrite (quiet_read rs env Henv) in Hrun.
  set (w1 := mkRW (rw_world w) (S (rw_tick w))) in *. unfold m_bind in Hrun.
  assert (∃ w2 ds, (match tombstoned_paths (state w) changes with
      | [] => m_ret ()
      | tombstoned => m_ignore (write_state env (apply_paths blake3 tombstoned))
      end : M RW ()) w1 = (w2, Ok ()) ∧ index_changes (state w) ds (state w2)) as (w2 & ds & E & Hds).
  { destruct (tombstoned_paths (state w) changes) as [|t ts].
    - exists w1, []. split; [done|]. by apply index_changes_nil.
    - unfold m_ignore. rewrite (quiet_write rs env Henv).
      destruct (apply_paths_tracks blake3 (t :: ts) (rw_world w1)) as (ds & Hds & _).
      destruct (apply_paths blake3 (t :: ts) (rw_world w1)) as [x rx]. by exists (mkRW x (S (rw_tick w1))), ds. }
  change (state w1) with (state w) in Hrun. rewrite E in Hrun. destruct changes as [|c cs].
  - injection Hrun as <- <-. split; [done|]. by exists ds.
  - rewrite (quiet_write rs env Henv) in Hrun. destruct (save_entries (rw_world w2)) as [x rx] eqn:Es.
    apply save_entries_st in Es as [Es <-]. injection Hrun as <- <-. split; [done|]. exists ds. simpl. by rewrite Es.
Qed.

(** The walk of a reconciliation that ends: nothing when the roots are equal,
    otherwise the loop, and then the sweep over its changes. *)
Definition walked fuel hint w w' (changes : list Change) w2 : Prop :=
  (changes = [] ∧ rw_world w2 = rw_world w ∧ rw_world w' = rw_world w) ∨
  (reconcile_loop blake3 env fuel (hinted_nodes blake3 hint) [] [("", root_hash tr)]
     (mkRW (rw_world w) (S (rw_tick w))) = (w2, Ok (Some changes)) ∧
   sweep blake3 env changes w2 = (w', Ok ())).

Lemma reconcile_walk fuel hint live l w w' r :
  hint_honest hint → (stack_sum nodes_below [("", root_hash tr)] ≤ fuel)%nat →
  walking (listed_below "") (state w) →
  (∀ k, no_collision (state (reconcile_loop blake3 env k (hinted_nodes blake3 hint) []
                               [("", root_hash tr)] (mkRW (rw_world w) (S (rw_tick w)))).1)) →
  reconcile_with_advertised_root blake3 env fuel (mkRemoteRoot (root_hash tr) live l hint) w = (w', r) →
  match r with
  | Ok o => ∃ changes w2, o = Some changes ∧ walked fuel hint w w' changes w2 ∧
      walking 0 (state w2) ∧ grows (state w) (state w2) ∧
      ∀ k e, st_entries rs !! k = Some e → handled (state w2) e
  | Err e => peer_install_failed (st_root (state w)) e
  end.
Proof.
  intros Hh Hfuel Hw Hfree Hrun. unfold reconcile_with_advertised_root, m_bind at 1 in Hrun.
  rewrite (quiet_read rs env Henv) in Hrun. set (w1 := mkRW (rw_world w) (S (rw_tick w))) in *.
  pose proof (Hfree O) as Hfree0. cbn in Hfree0.
  destruct (fmap_Some_1 _ _ _ (tree_sound_root _ _ _ _ (peer_tree _ _ Hrs))) as (n0 & Hn0 & Hroot).
  cbn [rr_state_root rr_hint] in Hrun. case_bool_decide as Hsame.
  { injection Hrun as <- <-. exists [], w1. split_and!; [done|by left| |done|].
    - destruct Hw as [Hm ?]. split; [|done]. eapply merging_weaken; [|exact Hm]. lia.
    - intros k e Hk. destruct Hw as [Hm Ht].
      apply (local_subtree (state w) (merging_wf _ _ _ Hm) Ht Hfree0 "" n0 k e Hn0); [|auto|done].
      rewrite (tree_sound_root _ _ _ _ (proj1 Ht)). by rewrite <-Hroot, <-Hsame. }
  unfold m_bind in Hrun. destruct (reconcile_loop _ _ _ _ _ _ w1) as [w2 r2] eqn:Hloop.
  pose proof Hloop as Hwalk. apply (reconcile_loop_quiet (hinted_nodes blake3 hint)) in Hloop.
  2:{ by eapply hints_ok_honest. }
  2:{ intros p h [= -> ->]%list_elem_of_singleton. by rewrite Hn0, Hroot. }
  2:{ exact Hfuel. }
  2:{ rewrite stack_sum_cons. unfold stack_sum. simpl. by rewrite Nat.add_0_r. }
  2:{ exact Hfree. }
  destruct r2 as [o|e]; [|by injection Hrun as <- <-].
  destruct Hloop as ([cs ->] & Hw2 & Hg & Hall).
  destruct (sweep blake3 env cs w2) as [w3 r3] eqn:Hsw. pose proof (sweep_quiet _ _ _ _ Hsw) as [-> _].
  injection Hrun as <- <-. exists cs, w2. split_and!; [done|by right|done|done|].
  intros k e Hk. eapply Hall; [done|by left|auto].
Qed.

Lemma reconcile_quiet fuel hint live l w w' r :
  hint_honest hint → (stack_sum nodes_below [("", root_hash tr)] ≤ fuel)%nat →
  walking (listed_below "") (state w) →
  (∀ k, no_collision (state (reconcile_loop blake3 env k (hinted_nodes blake3 hint) []
                               [("", root_hash tr)] (mkRW (rw_world w) (S (rw_tick w)))).1)) →
  reconcile_with_advertised_root blake3 env fuel (mkRemoteRoot (root_hash tr) live l hint) w = (w', r) →
  match r with
  | Ok o => (∃ changes, o = Some changes) ∧ ∃ s1 ds,
      state_inv s1 ∧ grows (state w) s1 ∧ caught_up s1 ∧ index_changes s1 ds (state w') ∧
      (st_lamport s1 + Z.of_nat (length ds) < u64_modulus → grows s1 (state w') ∧ caught_up (state w'))
  | Err e => peer_install_failed (st_root (state w)) e
  end.
Proof.
  intros Hh Hfuel Hw Hfree Hrun. apply reconcile_walk in Hrun; [|done..].
  destruct r as [o|e]; [|done]. destruct Hrun as (cs & w2 & -> & Hwalked & Hw2 & Hg & Hall).
  split; [by eexists|].
  assert (∃ ds, index_changes (state w2) ds (state w')) as [ds Hds].
  { destruct Hwalked as [(_ & Ew2 & ->)|[_ Hsw]]; [|by apply sweep_quiet in Hsw as [_ ?]].
    rewrite <-Ew2. exists []. by apply index_changes_nil. }
  exists (state w2), ds. split_and!; [apply Hw2|done|by apply handled_caught_up|done|].
  intros Hb. pose proof (index_changes_grows _ _ _ Hds ltac:(apply Hw2) Hb) as Hgs.
  split; [done|]. apply handled_caught_up. intros k e Hk. eapply handled_grows; [done|]. by eapply Hall.
Qed.
End Converge.
