(* ===== verification/SyncVouch.v ===== *)
(** * What any peer can make a reconciliation write

    Nothing is assumed of the peer, of the disk or of the other tasks: an entry
    is written, and a change reported, only for an entry the advertised root
    vouches for through a chain of nodes the peer gave, or for what such an
    entry displaces.  The proof follows the structure of the code: [safe c Q]
    says that [c] writes nothing else, also when it fails, and that its result
    satisfies [Q]. *)

From S2P Require Import Prelude Paths Bytes Utf8 Fs Ignore Entries Scan Tree.
From S2P Require Import TreeUpdate State StateLocal StateIndex StateTrack StateOps.
From S2P Require Import StateMerge Messages Sync.

(** ** The changes of a batch *)

(** What applying a remote entry may write: itself, and tombstones below it. *)
Definition made_by (e : Entry) (k : string) (v : Entry) : Prop :=
  k = path e ∧ v = e ∨ kind e ≠ Dir ∧ kind v = Tombstone ∧ is_child (path e) k.

(** The new entries of [s'] are good, and it is the state of the same node. *)
Definition adds (good : string → Entry → Prop) (s s' : FolderState) : Prop :=
  st_origin s' = st_origin s ∧
  ∀ k v, st_entries s' !! k = Some v → st_entries s !! k = Some v ∨ good k v.

#[export] Instance adds_preorder good : PreOrder (adds good).
Proof.
  split; [split; [done|by left]|]. intros s1 s2 s3 [Ho1 H1] [Ho2 H2].
  split; [congruence|]. intros k v [Hk|?]%H2; [by apply H1|by right].
Qed.

Lemma adds_mono good good' s s' :
  (∀ k v, good k v → good' k v) → adds good s s' → adds good' s s'.
Proof. intros Hg [Ho H]. split; [done|]. intros k v [?|?]%H; auto. Qed.

Lemma adds_same_index good s s' : same_index s s' → adds good s s'.
Proof. intros (_ & Ho & _ & _ & He). split; [done|]. rewrite He. by left. Qed.

Lemma adds_replay good s s' cs :
  st_origin s' = st_origin s → st_entries s' = replay (st_entries s) cs →
  (∀ c, c ∈ cs → good (ch_path c) (ch_new c)) → adds good s s'.
Proof.
  intros Ho He Hcs. split; [done|]. rewrite He.
  intros k v [?|(c & Hc & <- & <-)]%replay_lookup; [by left|right; by apply Hcs].
Qed.

Lemma tombstone_all_changes ps s cs c :
  c ∈ (tombstone_all ps (s, cs)).2 → c ∈ cs ∨ kind (ch_new c) = Tombstone ∧ ch_path c ∈ ps.
Proof.
  revert s cs. induction ps as [|p ps IH]; intros s cs; [by left|].
  change (tombstone_all (p :: ps) (s, cs)) with (tombstone_all ps (tombstone_path p (s, cs))).
  destruct (tombstone_path p (s, cs)) as [s1 cs1] eqn:E.
  intros [Hc|[? ?]]%IH; [|right; split; [done|by right]].
  unfold tombstone_path in E. destruct (st_entries s !! p) as [old|]; [|injection E as <- <-; by left].
  case_decide; [injection E as <- <-; by left|]. injection E as <- <-.
  apply elem_of_app in Hc as [?|Hc]; [by left|]. apply list_elem_of_singleton in Hc as ->.
  right. split; [done|by left].
Qed.

Lemma record_remote_changes remote s c :
  c ∈ (record_remote remote (s, [])).2 → made_by remote (ch_path c) (ch_new c).
Proof.
  unfold record_remote. case_decide as Hk.
  - intros Hc. apply list_elem_of_singleton in Hc as ->. by left.
  - unfold tombstone_child_descendants. cbn [fst].
    intros [Hc|[Ht Hp]]%tombstone_all_changes.
    + apply list_elem_of_singleton in Hc as ->. by left.
    + right. split_and!; [done|done|]. by apply elem_of_list_filter in Hp as [_ ?].
Qed.

(** The sweep writes this node's own entries. *)
Definition own (o : string) (k : string) (v : Entry) : Prop := origin (version v) = o.

Lemma local_changes_own s cs s' c :
  local_changes s cs s' → c ∈ cs → own (st_origin s) (ch_path c) (ch_new c).
Proof.
  induction 1 as [|s e cs s' _ IH]; [by intros ?%elem_of_nil|]. by intros [->|Hc%IH]%elem_of_cons.
Qed.

Lemma index_changes_own s cs s' : index_changes s cs s' → adds (own (st_origin s)) s s'.
Proof.
  intros (s0 & H0 & Hs). etrans; [|by apply adds_same_index].
  eapply adds_replay; [apply (local_changes_frame _ _ _ H0)|by apply local_changes_replay|].
  intros c Hc. by eapply local_changes_own.
Qed.

Section Vouch.
Context {F : Type} `{FsOps F} (blake3 : string → Hash) `{StateCodec}.
Abbreviation World := (World (F:=F)) (only parsing).

(** A batch item's changes. *)
Definition made_by_batch (batch : list (Entry * option string)) (k : string) (v : Entry) : Prop :=
  ∃ item, item ∈ batch ∧ made_by item.1 k v.
Definition change_by_batch (batch : list (Entry * option string)) (c : Change) : Prop :=
  made_by_batch batch (ch_path c) (ch_new c).

Lemma apply_fold_adds batch acc (w w' : World) r :
  m_fold batch (λ (item : Entry * option string) all_changes,
    (changes <- apply_remote_entry_core item.1 item.2 ;; m_ret (all_changes ++ changes))%m) acc w
    = (w', r) →
  adds (made_by_batch batch) (w_st w) (w_st w') ∧
  ∀ cs c, r = Ok cs → c ∈ cs → c ∈ acc ∨ change_by_batch batch c.
Proof.
  revert acc w. induction batch as [|[remote tmp] batch IH]; intros acc w Hrun.
  { injection Hrun as <- <-. split; [done|]. intros ?? [= <-]. by left. }
  assert (∀ k v, made_by_batch batch k v → made_by_batch ((remote, tmp) :: batch) k v) as Hmore
    by (intros k v (i & ? & ?); exists i; split; [by right|done]).
  simpl in Hrun. unfold m_bind at 1 2 in Hrun.
  destruct (apply_remote_entry_core_cases remote tmp w)
    as [(e & Hr & Hst)|[(Hr & _ & Hst)|(_ & Hr & Hst)]];
    destruct (apply_remote_entry_core remote tmp w) as [w1 r1]; simpl in Hr, Hst; subst r1.
  - injection Hrun as <- <-. rewrite Hst. done.
  - apply IH in Hrun as [Hadds Hcs]. rewrite app_nil_r, Hst in *. split; [by eapply adds_mono|].
    intros cs c Hcs' Hc. destruct (Hcs cs c Hcs' Hc) as [?|?]; [by left|right; by apply Hmore].
  - pose proof (record_remote_changes remote (w_st w)) as Hrec.
    pose proof (record_remote_replay (w_st w) remote) as (He & Ho & _).
    assert (∀ c, c ∈ (record_remote remote (w_st w, [])).2 → change_by_batch ((remote, tmp) :: batch) c)
      as Hmade by (intros c Hc%Hrec; exists (remote, tmp); split; [by left|done]).
    apply IH in Hrun as [Hadds Hcs]. rewrite Hst in Hadds. split.
    + etrans; [by eapply adds_replay|by eapply adds_mono].
    + intros cs c Hcs' Hc. destruct (Hcs cs c Hcs' Hc) as [[?|?]%elem_of_app|?];
        [by left|right; by apply Hmade|right; by apply Hmore].
Qed.

Lemma apply_remote_entries_adds batch (w w' : World) r :
  apply_remote_entries blake3 batch w = (w', r) →
  adds (made_by_batch batch) (w_st w) (w_st w') ∧
  ∀ cs c, r = Ok cs → c ∈ cs → change_by_batch batch c.
Proof.
  intros Hrun. unfold apply_remote_entries, m_bind at 1 in Hrun.
  destruct (m_fold batch _ [] w) as [w1 [cs1|e]] eqn:Hfold; apply apply_fold_adds in Hfold as [Ha Hcs].
  2:{ injection Hrun as <- <-. done. }
  pose proof (keeps_bind _ (λ _, m_ret cs1) (keeps_finish blake3 cs1 (ch_path <$> cs1))
    (λ _, keeps_ret cs1) w1) as Hk.
  revert Hrun Hk. match goal with |- ?x = _ → _ → _ => destruct x as [w2 r2] eqn:E end.
  intros [= -> ->] Hk. split; [etrans; [exact Ha|by apply adds_same_index]|].
  assert (r = Ok cs1 ∨ ∃ e, r = Err e) as Hr.
  { by apply m_bind_ret_inv in E. }
  intros cs c -> Hc. destruct Hr as [[= ->]|[? ?]]; [|done].
  by destruct (Hcs cs1 c eq_refl Hc) as [?%elem_of_nil|?].
Qed.

(** ** Where the entries come from *)

Context (env : Env (F:=F)) (hinted : gmap string TreeNode) (root : Hash).

(** A node with hash [h] the peer gave for prefix [p]: in its hint, or asked for. *)
Definition given (p : string) (h : Hash) (n : TreeNode) : Prop :=
  tn_hash n = h ∧ (hinted_get hinted p h = Some n ∨ ∃ tick, peer_node env tick p = Ok (Some n)).

(** The hashes the advertised root leads to. *)
Inductive vouched : string → Hash → Prop :=
  | vouched_root : vouched "" root
  | vouched_child p h n name h' :
      vouched p h → given p h n → tn_children n !! name = Some h' → vouched (join_path p name) h'.

(** An entry the peer sent for a node it vouches for, listed there with the
    hash of the entry; its object, if it is a file, was downloaded. *)
Definition offered (e : Entry) : Prop :=
  (∃ p h n name tick es, vouched p h ∧ given p h n ∧
     tn_entries n !! name = Some (hash_entry blake3 e) ∧
     peer_entries env tick p = Ok es ∧ entries_by_path es !! join_path p name = Some e) ∧
  (kind e = File → is_Some (content_hash e) ∧ ∃ tick tmp, download env tick e = Ok (Some tmp)).

Lemma entries_by_path_sound es k e : entries_by_path es !! k = Some e → path e = k ∧ e ∈ es.
Proof.
  intros Hk%elem_of_list_to_map_2. rewrite elem_of_reverse, list_elem_of_fmap in Hk.
  by destruct Hk as (x & [= -> ->] & ?).
Qed.

(** ** Computations that write nothing else *)

(** [o] is this node's origin; other tasks write what satisfies [elsewhere]. *)
Context (o : string) (elsewhere : string → Entry → Prop).
Context (Hothers : ∀ n w, adds elsewhere (w_st w) (w_st (others env n w))).
Context (Hcompletion : ∀ n l e, e ∈ completion env n l → e ∈ l).
Implicit Types w : RW (F:=F).
Abbreviation state w := (w_st (rw_world w)).

Definition good (k : string) (v : Entry) : Prop := elsewhere k v ∨ ∃ e, offered e ∧ made_by e k v.
Definition good_change (c : Change) : Prop := ∃ e, offered e ∧ made_by e (ch_path c) (ch_new c).

Definition safe {A} (good : string → Entry → Prop) (c : M RW A) (Q : A → Prop) : Prop :=
  ∀ w w' r, st_origin (state w) = o → c w = (w', r) →
    adds good (state w) (state w') ∧ ∀ a, r = Ok a → Q a.

Section Rules.
Context (g : string → Entry → Prop).

Lemma safe_ret {A} (a : A) (Q : A → Prop) : Q a → safe g (m_ret a) Q.
Proof. intros Ha w w' r _ [= <- <-]. split; [done|]. by intros ? [= <-]. Qed.

Lemma safe_lift {A} (x : IoResult A) (Q : A → Prop) : (∀ a, x = Ok a → Q a) → safe g (m_lift x) Q.
Proof. by intros Hx w w' r _ [= <- <-]. Qed.

Lemma safe_err {A} e (Q : A → Prop) : safe g (m_err e) Q.
Proof. by intros w w' r _ [= <- <-]. Qed.

Lemma safe_bind {A B} (c : M RW A) (f : A → M RW B) (P : A → Prop) Q :
  safe g c P → (∀ a, P a → safe g (f a) Q) → safe g (m_bind c f) Q.
Proof.
  intros Hc Hf w w' r Ho Hrun. unfold m_bind in Hrun. destruct (c w) as [w1 [a|e]] eqn:E.
  - apply Hc in E as [Hg Ha]; [|done]. apply Hf in Hrun as [Hg' Hq]; [|by apply Ha|].
    + split; [by etrans|done].
    + by rewrite (proj1 Hg).
  - injection Hrun as <- <-. apply Hc in E as [Hg _]; [|done]. done.
Qed.

Lemma safe_weaken {A} (c : M RW A) (P Q : A → Prop) : safe g c P → (∀ a, P a → Q a) → safe g c Q.
Proof. intros Hc Hpq w w' r Ho Hrun. apply Hc in Hrun as [? Hp]; [|done]. split; [done|]. auto. Qed.

Lemma safe_fold {A B} (l : list A) (body : A → B → M RW B) (I : B → Prop) b :
  I b → (∀ a b, a ∈ l → I b → safe g (body a b) I) → safe g (m_fold l body b) I.
Proof.
  revert b. induction l as [|a l IH]; intros b Hb Hbody; [by apply safe_ret|].
  cbn [m_fold]. apply (safe_bind _ _ I); [apply Hbody; [by left|done]|].
  intros b' Hb'. apply IH; [done|]. intros a' b'' Ha'. apply Hbody. by right.
Qed.

Lemma safe_ignore {A} (c : M RW A) (P : A → Prop) : safe g c P → safe g (m_ignore c) (λ _, True).
Proof.
  intros Hc w w' r Ho. unfold m_ignore. destruct (c w) as [w1 r1] eqn:E. intros [= <- <-].
  apply Hc in E as [? _]; done.
Qed.
End Rules.

Lemma safe_mono {A} (g g' : string → Entry → Prop) (c : M RW A) Q :
  (∀ k v, g k v → g' k v) → safe g c Q → safe g' c Q.
Proof.
  intros Hg Hc w w' r Ho Hrun. apply Hc in Hrun as [Ha ?]; [|done].
  split; [by eapply adds_mono|done].
Qed.

Lemma safe_await {A} (answer : nat → A) : safe elsewhere (await env answer) (λ a, ∃ n, answer n = a).
Proof. intros w w' r Ho [= <- <-]. split; [apply Hothers|]. intros a [= <-]. by eexists. Qed.

Lemma safe_ask {A} (answer : nat → IoResult A) :
  safe elsewhere (ask env answer) (λ a, ∃ n, answer n = Ok a).
Proof.
  eapply safe_bind; [apply safe_await|]. intros r [n Hn]. apply safe_lift. intros a ->. by exists n.
Qed.

Lemma safe_read : safe elsewhere (read_state env) (λ _, True).
Proof.
  eapply safe_bind; [apply safe_await|]. intros [] _ w w' r _ [= <- <-]. done.
Qed.

Lemma safe_write {A} (c : M World A) (g : string → Entry → Prop) (Q : A → Prop) :
  (∀ k v, elsewhere k v → g k v) →
  (∀ x x' r, st_origin (w_st x) = o → c x = (x', r) →
     adds g (w_st x) (w_st x') ∧ ∀ a, r = Ok a → Q a) →
  safe g (write_state env c) Q.
Proof.
  intros Hg Hc. eapply safe_bind; [eapply safe_mono; [exact Hg|apply safe_await]|].
  intros [] _ w w' r Ho. unfold m_zoom. destruct (c (rw_world w)) as [x rx] eqn:E.
  intros [= <- <-]. by apply Hc in E.
Qed.

(** ** The reconciliation *)

(** The pieces of [offered] the loops over a response gather. *)
Definition listed_as (p : string) (h : Hash) (e : Entry) : Prop :=
  ∃ n name tick es, given p h n ∧ tn_entries n !! name = Some (hash_entry blake3 e) ∧
    peer_entries env tick p = Ok es ∧ entries_by_path es !! join_path p name = Some e.
Definition fetched (e : Entry) : Prop :=
  kind e = File → is_Some (content_hash e) ∧ ∃ tick tmp, download env tick e = Ok (Some tmp).

Lemma offered_intro p h e : vouched p h → listed_as p h e → fetched e → offered e.
Proof. intros Hv (n & name & tick & es & ?) Hf. split; [|done]. by exists p, h, n, name, tick, es. Qed.

Lemma safe_elsewhere {A} (c : M RW A) Q : safe elsewhere c Q → safe good c Q.
Proof. apply safe_mono. by left. Qed.

Lemma select_entry_safe p h n local_node tick es item acc :
  given p h n → peer_entries env tick p = Ok es → item ∈ btree_items (tn_entries n) →
  Forall (listed_as p h) acc →
  safe elsewhere (select_entry blake3 env p local_node (entries_by_path es) item acc)
    (Forall (listed_as p h)).
Proof.
  destruct item as [name eh]. intros Hn Hes Hin%elem_of_btree_items Hacc. unfold select_entry.
  case_bool_decide; [by apply safe_ret|].
  eapply safe_bind; [apply (safe_lift _ _ (λ e, entries_by_path es !! join_path p name = Some e))|].
  { intros e. by destruct (entries_by_path es !! join_path p name) eqn:E; intros [= <-]. }
  intros e He. case_bool_decide as Hh; [apply safe_err|].
  eapply safe_bind; [apply safe_read|]. intros s _. apply safe_ret.
  destruct (should_accept_remote s e); [|done].
  apply Forall_app. split; [done|]. apply Forall_singleton. exists n, name, tick, es.
  split_and!; [done| |done|done]. rewrite Hin. f_equal. symmetry.
  by destruct (decide (hash_entry blake3 e = eh)); [|destruct Hh].
Qed.

(** What the second loop makes of the entries. *)
Definition sorted_ok (P : Entry → Prop) (b : list Entry * list (Entry * option string)) : Prop :=
  Forall (λ e, P e ∧ is_Some (content_hash e)) b.1 ∧ Forall (λ item, P item.1 ∧ kind item.1 ≠ File) b.2.

Lemma sort_entry_safe (P : Entry → Prop) e b :
  P e → sorted_ok P b → safe elsewhere (sort_entry e b) (sorted_ok P).
Proof.
  intros He [Hf Hn]. destruct b as [files nons]. unfold sort_entry. simpl in *. case_decide.
  - destruct (content_hash e) as [c|] eqn:Ec; [|apply safe_err]. apply safe_ret. split; [|done].
    apply Forall_app. split; [done|]. apply Forall_singleton. by rewrite Ec.
  - apply safe_ret. split; [done|]. apply Forall_app. split; [done|]. by apply Forall_singleton.
Qed.

Lemma collect_download_safe (P : Entry → Prop) n e acc :
  P e → Forall (λ item : Entry * option string, P item.1 ∧ ∃ tick tmp, download env tick item.1 = Ok (Some tmp)) acc →
  safe elsewhere (collect_download (e, download env n e) acc)
    (Forall (λ item, P item.1 ∧ ∃ tick tmp, download env tick item.1 = Ok (Some tmp))).
Proof.
  intros He Hacc. eapply safe_bind; [apply (safe_lift _ _ (λ t, download env n e = Ok t)); done|].
  intros [tmp|] Ht; apply safe_ret; [|done]. apply Forall_app. split; [done|].
  apply Forall_singleton. eauto.
Qed.

Lemma apply_batch_safe batch changes :
  Forall (λ item, offered item.1) batch → Forall good_change changes →
  safe good (apply_batch blake3 env batch changes) (Forall good_change).
Proof.
  intros Hb Hc. assert (∀ k v, made_by_batch batch k v → ∃ e, offered e ∧ made_by e k v) as Hgood.
  { intros k v (item & Hi & ?). rewrite Forall_forall in Hb. eauto. }
  unfold apply_batch. destruct batch as [|item batch]; [by apply safe_ret|].
  eapply safe_bind; [apply (safe_write _ good (Forall good_change)); [by left|]|].
  - intros x x' r _ Hrun. apply apply_remote_entries_adds in Hrun as [Ha Hcs].
    split; [eapply adds_mono; [|exact Ha]; intros; right; by apply Hgood|].
    intros cs ->. apply Forall_forall. intros c Hin. eapply Hgood, (Hcs cs c); done.
  - intros cs Hcs. apply safe_ret. by apply Forall_app.
Qed.

Lemma reconcile_entries_safe p h n local_node changes :
  vouched p h → given p h n → Forall good_change changes →
  safe good (reconcile_entries blake3 env p local_node n changes) (Forall good_change).
Proof.
  intros Hv Hn Hc. eapply safe_bind; [apply safe_elsewhere, safe_ask|]. intros es [tick Hes].
  eapply safe_bind; [apply safe_elsewhere, (safe_fold _ _ _ (Forall (listed_as p h))); [done|]|].
  { intros item acc Hi Hacc. by eapply select_entry_safe. }
  intros sel Hsel. rewrite Forall_forall in Hsel.
  eapply safe_bind; [apply safe_elsewhere, (safe_fold _ _ _ (sorted_ok (listed_as p h))); [done|]|].
  { intros e b He Hb. apply sort_entry_safe; [by apply Hsel|done]. }
  intros [files nons] [Hf Hns]. simpl in Hf, Hns. rewrite Forall_forall in Hf.
  eapply safe_bind; [apply apply_batch_safe; [|exact Hc]|].
  { eapply Forall_impl; [exact Hns|]. intros item [? ?]. by eapply offered_intro; [..|intros ?]. }
  intros changes1 Hc1. eapply safe_bind; [apply safe_elsewhere, safe_await|]. intros results [tick' <-].
  set (P e := listed_as p h e ∧ is_Some (content_hash e)).
  eapply safe_bind; [apply safe_elsewhere, (safe_fold _ _ _ (Forall (λ item : Entry * option string,
    P item.1 ∧ ∃ tick tmp, download env tick item.1 = Ok (Some tmp)))); [done|]|].
  { intros x acc (e & -> & He%Hcompletion)%list_elem_of_fmap Hacc.
    apply collect_download_safe; [by apply Hf|done]. }
  intros fb Hfb. apply apply_batch_safe; [|done].
  eapply Forall_impl; [exact Hfb|]. intros item [[? ?] ?]. by eapply offered_intro.
Qed.

Definition stack_ok (stack : list (string * Hash)) : Prop := Forall (λ x, vouched x.1 x.2) stack.

Lemma queue_changed_ok p h n local_node stack :
  vouched p h → given p h n → stack_ok stack → stack_ok (queue_changed_children p local_node n stack).
Proof.
  intros Hv Hn. unfold queue_changed_children.
  assert (∀ items, (∀ x, x ∈ items → tn_children n !! x.1 = Some x.2) → stack_ok stack →
    stack_ok (foldl (λ stack item, let '(name, remote_hash) := item in
      if bool_decide ((n ← local_node; tn_children n !! name) = Some remote_hash) then stack
      else (join_path p name, remote_hash) :: stack) stack items)) as Hind.
  { intros items. revert stack. induction items as [|[name ch] items IH]; intros stack Hi Hs; [done|].
    cbn [foldl]. apply IH; [intros x ?; apply Hi; by right|]. case_bool_decide; [done|].
    apply Forall_cons. split; [|done]. eapply vouched_child; [done..|].
    apply (Hi (name, ch)). by left. }
  apply Hind. intros [name ch]. apply elem_of_btree_items.
Qed.

Lemma reconcile_node_safe p h changes stack :
  vouched p h → Forall good_change changes → stack_ok stack →
  safe good (reconcile_node blake3 env hinted p h changes stack)
    (λ r, Forall good_change r.1 ∧ stack_ok r.2).
Proof.
  intros Hv Hc Hs. eapply safe_bind; [apply safe_elsewhere, safe_read|]. intros s _. cbv zeta.
  case_bool_decide; [by apply safe_ret|].
  eapply (safe_bind _ _ _ (λ n, hinted_get hinted p h = Some n ∨ ∃ tick, peer_node env tick p = Ok (Some n))).
  { apply safe_elsewhere. destruct (hinted_get hinted p h) as [n|]; [apply safe_ret; by left|].
    eapply safe_bind; [apply safe_ask|]. intros n [tick Ht]. apply safe_lift.
    intros m. destruct n as [n|]; intros [= <-]. right. by exists tick. }
  intros n Hn. case_bool_decide as Hh; [apply safe_err|].
  assert (given p h n) as Hg.
  { split; [|done]. by destruct (decide (tn_hash n = h)); [|destruct Hh]. }
  eapply safe_bind; [by eapply reconcile_entries_safe|]. intros changes1 Hc1. apply safe_ret.
  split; [done|]. by eapply queue_changed_ok.
Qed.

Lemma reconcile_loop_safe fuel changes stack :
  Forall good_change changes → stack_ok stack →
  safe good (reconcile_loop blake3 env fuel hinted changes stack)
    (λ o, ∀ cs, o = Some cs → Forall good_change cs).
Proof.
  revert changes stack. induction fuel as [|fuel IH]; intros changes [|[p h] stack] Hc Hs;
    cbn [reconcile_loop].
  1, 3: apply safe_ret; by intros ? [= <-].
  { by apply safe_ret. }
  apply Forall_cons in Hs as [Hv Hs].
  eapply safe_bind; [by apply reconcile_node_safe|]. intros r [? ?]. by apply IH.
Qed.

(** The sweep writes this node's own entries only. *)
Definition swept (k : string) (v : Entry) : Prop := elsewhere k v ∨ own o k v.

Lemma sweep_safe changes : safe swept (sweep blake3 env changes) (λ _, True).
Proof.
  assert (∀ {A} (c : M RW A) Q, safe elsewhere c Q → safe swept c Q) as Hsw.
  { intros A c Q. apply safe_mono. by left. }
  eapply safe_bind; [apply Hsw, safe_read|]. intros s _.
  eapply (safe_bind _ _ _ (λ _, True)).
  - destruct (tombstoned_paths s changes) as [|t ts]; [by apply safe_ret|].
    eapply safe_ignore, (safe_write _ _ (λ _, True)); [by left|].
    intros x x' r Ho Hrun. split; [|done].
    destruct (apply_paths_tracks blake3 (t :: ts) x) as (ds & Hds & _). rewrite Hrun in Hds.
    eapply adds_mono; [|by eapply index_changes_own]. intros k v Hv. right. by rewrite <-Ho.
  - intros [] _. destruct changes as [|c cs]; [by apply safe_ret|].
    apply safe_write; [by left|]. intros x x' r _ Hrun.
    apply save_entries_st in Hrun as [-> _]. done.
Qed.

Definition written (k : string) (v : Entry) : Prop :=
  elsewhere k v ∨ own o k v ∨ ∃ e, offered e ∧ made_by e k v.

Lemma reconcile_safe fuel remote :
  rr_state_root remote = root → hinted_nodes blake3 (rr_hint remote) = hinted →
  safe written (reconcile_with_advertised_root blake3 env fuel remote)
    (λ r, ∀ cs, r = Some cs → Forall good_change cs).
Proof.
  intros Hroot Hhint.
  assert (∀ k v, good k v → written k v) as Hgood by (intros k v [?|?]; [by left|by right; right]).
  assert (∀ k v, swept k v → written k v) as Hswept by (intros k v [?|?]; [by left|by right; left]).
  eapply safe_bind; [eapply safe_mono; [|apply safe_read]; by left|]. intros s _. cbv zeta.
  rewrite Hroot, Hhint. case_bool_decide; [apply safe_ret; by intros ? [= <-]|].
  eapply safe_bind; [eapply safe_mono; [exact Hgood|apply reconcile_loop_safe; [done|]]|].
  { apply Forall_singleton, vouched_root. }
  intros [cs|] Hcs; [|by apply safe_ret].
  eapply safe_bind; [eapply safe_mono; [exact Hswept|apply sweep_safe]|].
  intros [] _. apply safe_ret. intros ? [= <-]. by apply Hcs.
Qed.
End Vouch.
