(* ===== verification/SyncProps.v ===== *)
(** * What reconciliation guarantees *)

From S2P Require Import Prelude Paths Bytes Utf8 Fs Ignore Entries Scan Tree TreeSpec.
From S2P Require Import TreeUpdate TreeHash State StateLocal StateIndex StateTrack StateOps.
From S2P Require Import StateInv StateGc StateProps StateMerge Messages Rpc Sync Subtree SyncLemmas SyncConverge SyncVouch.

(** ** Counting the entries a tree lists *)

Lemma sum_filter_le {A B} `{EqDecision B} (g : A → B) (l : list A) (qs : list B) :
  NoDup qs → (sum_list_with (λ q, length (filter (λ x, g x = q) l)) qs ≤ length l)%nat.
Proof.
  intros Hnd. induction l as [|x l IH].
  { clear Hnd. induction qs as [|q qs IHq]; [done|]. simpl in *. done. }
  assert (∀ qs, sum_list_with (λ q, length (filter (λ y, g y = q) (x :: l))) qs =
    (sum_list_with (λ q, if decide (g x = q) then 1 else 0) qs +
     sum_list_with (λ q, length (filter (λ y, g y = q) l)) qs)%nat) as Hsum.
  { clear. induction qs as [|q qs IHq]; [done|]. simpl. rewrite IHq, filter_cons.
    case_decide; simpl; lia. }
  assert (sum_list_with (λ q, if decide (g x = q) then 1 else 0) qs ≤ 1)%nat as Hone.
  { clear -Hnd. induction Hnd as [|q qs Hq Hnd IHq]; [simpl; lia|]. simpl. case_decide as Hx; [|lia].
    assert (sum_list_with (λ q, if decide (g x = q) then 1 else 0) qs = 0)%nat as ->; [|lia].
    subst q. clear -Hq. induction qs as [|q qs IHq]; [done|]. apply not_elem_of_cons in Hq as [Hne Hq].
    simpl. rewrite decide_False by done. auto. }
  rewrite Hsum. simpl. lia.
Qed.

Lemma hash_entries_size blake3 es : (base.size (hash_entries blake3 es) ≤ length es)%nat.
Proof.
  unfold hash_entries.
  assert (∀ m : gmap string Hash,
    base.size (foldl (λ m e, <[basename (path e) := hash_entry blake3 e]> m) m es) ≤
    base.size m + length es)%nat as Hm.
  { induction es as [|e es IH]; intros m; simpl; [lia|]. etrans; [apply IH|].
    rewrite map_size_insert. case_match; unfold Datatypes.id; lia. }
  etrans; [apply Hm|]. by rewrite map_size_empty.
Qed.

Lemma listed_entries blake3 (rs : FolderState) (Hrs : peer_wf blake3 rs) :
  (listed_below rs "" ≤ base.size (st_entries rs))%nat.
Proof.
  unfold listed_below, weight. rewrite <-(length_btree_items (st_entries rs)).
  etrans; [|apply (sum_filter_le (λ item : string * Entry, parent_path (path item.2))
    (btree_items (st_entries rs)) (subtree (dom (nodes (st_tree rs))) "")), NoDup_subtree].
  induction (subtree (dom (nodes (st_tree rs))) "") as [|q qs IH]; [done|]. simpl.
  apply Nat.add_le_mono; [|done]. unfold listed.
  destruct (nodes (st_tree rs) !! q) as [n|] eqn:Hn; [|lia].
  apply (peer_node_at blake3 rs Hrs) in Hn as [_ ->]. simpl. unfold direct_entries.
  etrans; [apply hash_entries_size|]. unfold btree_values, entries_at.
  rewrite length_fmap, <-filter_btree_items.
  apply Nat.eq_le_incl. f_equal. apply list_filter_iff.
  intros [k e]. simpl. unfold include_all. by split; [intros [_ ?]|intros ?; split].
Qed.

Lemma nodes_count (rs : FolderState) :
  (stack_sum (nodes_below rs) [("", root_hash (st_tree rs))] ≤ base.size (nodes (st_tree rs)))%nat.
Proof.
  rewrite stack_sum_cons. unfold stack_sum. simpl. rewrite Nat.add_0_r.
  unfold nodes_below, weight. assert (∀ l : list string, sum_list_with (λ _, 1%nat) l = length l) as ->.
  { induction l as [|x l IH]; [done|]. simpl. by rewrite IH. }
  unfold subtree. etrans; [apply length_filter|]. rewrite <-size_dom. done.
Qed.

(** ** Convergence *)

(** C4. reconcile_converges: reconciling with an honest, quiet peer whose tree
    is sound - whether derived in full or maintained incrementally - ends within
    as many rounds as that tree has nodes, and then nothing in the peer's index
    is newer than here: the local index only grew, to a state [s1] that has
    caught up with the peer, and the final sweep made local changes to it, which
    undo none of this unless the 64-bit clock wraps.  The one way to fail is
    that installing an entry of the peer on the local disk fails.  BLAKE3 is
    assumed not to collide on the messages of the two trees met on the way. *)
Theorem reconcile_converges {F : Type} `{FsOps F} `{StateCodec} (blake3 : string → Hash)
    (Hlen : ∀ m, strlen (blake3 m) = 32%nat) (rs : FolderState) (Hrs : peer_wf blake3 rs)
    (env : Env (F:=F)) (Henv : honest rs env) (B : Z) (fuel : nat) (hint : option TreeHint)
    (live_root : Hash) (l : Z) (w w' : RW (F:=F)) (r : IoResult (option (list Change)))
    (HB : ∀ k e, st_entries rs !! k = Some e → 0 ≤ lamport (version e) ≤ B)
    (Hhint : hint_honest rs hint)
    (Hinv : state_inv (w_st (rw_world w))) (Hwf : state_wf (w_st (rw_world w)))
    (Htrees : trees_sound blake3 (w_st (rw_world w)))
    (Hroom : headroom B (base.size (st_entries rs)) (w_st (rw_world w)))
    (Hfree : ∀ k, no_collision blake3 rs (w_st (rw_world
       (reconcile_loop blake3 env k (hinted_nodes blake3 hint) []
          [("", root_hash (st_tree rs))] (mkRW (rw_world w) (S (rw_tick w)))).1)))
    (Hfuel : (base.size (nodes (st_tree rs)) ≤ fuel)%nat)
    (Hrun : reconcile_with_advertised_root blake3 env fuel
              (mkRemoteRoot (root_hash (st_tree rs)) live_root l hint) w = (w', r)) :
  match r with
  | Ok o => (∃ changes, o = Some changes) ∧ ∃ s1 ds,
      state_inv s1 ∧ grows (w_st (rw_world w)) s1 ∧ caught_up rs s1 ∧
      index_changes s1 ds (w_st (rw_world w')) ∧
      (st_lamport s1 + Z.of_nat (length ds) < u64_modulus →
       grows s1 (w_st (rw_world w')) ∧ caught_up rs (w_st (rw_world w')))
  | Err e => ∃ batch : list (Entry * option string),
      (∀ item, item ∈ batch → st_entries rs !! path item.1 = Some item.1) ∧
      install_failed (F:=F) (st_root (w_st (rw_world w))) batch e
  end.
Proof.
  eapply (reconcile_quiet blake3 Hlen rs Hrs env Henv B); [done..| | |done|done].
  - etrans; [apply nodes_count|done].
  - split; [|done]. split; [done|done|]. unfold headroom in *.
    pose proof (listed_entries blake3 rs Hrs). lia.
Qed.

(** ** Any peer *)

(** C10. reconcile_writes_vouched: whatever the peer answers, whatever the other
    tasks do meanwhile and however the reconciliation ends, an index entry it
    leaves behind was there before, was written by another task, is this node's
    own (the sweep), or is an entry the peer offered - or a tombstone below
    one: listed with its own hash by a node that the advertised root leads to
    through nodes the peer gave, and, for a file, with its object downloaded.
    Every reported change is of the last kind.  (A node fetched by a request is
    taken at the hash it claims: only hinted nodes are hashed again.) *)
Theorem reconcile_writes_vouched {F : Type} `{FsOps F} `{StateCodec} (blake3 : string → Hash)
    (env : Env (F:=F)) (elsewhere : string → Entry → Prop)
    (Hothers : ∀ n w, adds elsewhere (w_st w) (w_st (others env n w)))
    (Hcompletion : ∀ n l e, e ∈ completion env n l → e ∈ l)
    (fuel : nat) (remote : RemoteRoot) (w w' : RW (F:=F)) (r : IoResult (option (list Change)))
    (Hrun : reconcile_with_advertised_root blake3 env fuel remote w = (w', r)) :
  let offered := offered blake3 env (hinted_nodes blake3 (rr_hint remote)) (rr_state_root remote) in
  (∀ k v, st_entries (w_st (rw_world w')) !! k = Some v →
     st_entries (w_st (rw_world w)) !! k = Some v ∨ elsewhere k v ∨
     origin (version v) = st_origin (w_st (rw_world w)) ∨ ∃ e, offered e ∧ made_by e k v) ∧
  (∀ changes c, r = Ok (Some changes) → c ∈ changes →
     ∃ e, offered e ∧ made_by e (ch_path c) (ch_new c)).
Proof.
  cbv zeta. destruct (reconcile_safe blake3 env (hinted_nodes blake3 (rr_hint remote))
    (rr_state_root remote) (st_origin (w_st (rw_world w))) elsewhere Hothers Hcompletion fuel remote
    eq_refl eq_refl w w' r eq_refl Hrun) as [[_ Hadds] Hcs].
  split; [exact Hadds|]. intros changes c Hr Hc. specialize (Hcs _ Hr _ eq_refl).
  rewrite Forall_forall in Hcs. by apply Hcs.
Qed.
