(* ===== verification/SyncJoin.v ===== *)
(** * Reconciliation as a join of indexes

    The abstract specification of a reconciliation: the index afterwards is, at
    every path, the newer of the two entries.  It is exact when the peer's index
    holds no news of deletions and no entry would displace another
    ([peaceful]).  First, what it means for two nodes to have caught up with each
    other, and their agreement. *)

From S2P Require Import Prelude Paths Bytes Utf8 Fs Ignore Entries Scan Tree TreeSpec.
From S2P Require Import TreeUpdate TreeHash State StateLocal StateIndex StateTrack StateOps.
From S2P Require Import StateInv StateGc StateProps StateMerge Messages Rpc Sync SyncWalk Subtree.
From S2P Require Import SyncLemmas SyncConverge SyncProps.

(** ** Replicas that have caught up with each other *)

(** A version is given to one entry of a path only. *)
Definition versions_unique (a b : FolderState) : Prop :=
  ∀ k e e', st_entries a !! k = Some e → st_entries b !! k = Some e' →
    version e = version e' → e = e'.

Definition valid_paths (s : FolderState) : Prop :=
  ∀ k e, st_entries s !! k = Some e → validate_remote_path k = Ok ().

(** Every entry of [c] was in [a] or in [b]. *)
Definition only_from (a b c : FolderState) : Prop :=
  ∀ k e, st_entries c !! k = Some e → st_entries a !! k = Some e ∨ st_entries b !! k = Some e.

Lemma caught_up_at rs s k e :
  caught_up rs s → valid_paths rs → state_inv rs → st_gc_watermark s = st_gc_watermark rs →
  st_entries rs !! k = Some e →
  ∃ l, st_entries s !! k = Some l ∧ ¬ version_lt (version l) (version e).
Proof.
  intros Hc Hv Hinv Hw Hk. apply (Hc k e Hk); [by eapply Hv|].
  rewrite (covered_same_watermark s rs Hw). by eapply inv_gc.
Qed.

(** [c] is what [b] became after it caught up with [a], which had caught up
    with [b]. *)
Lemma caught_up_agree a b c :
  state_inv a → state_inv b → valid_paths a → valid_paths b → versions_unique a c →
  st_gc_watermark a = st_gc_watermark b → st_gc_watermark c = st_gc_watermark a →
  caught_up b a → caught_up a c → only_from b a c → st_entries a = st_entries c.
Proof.
  intros Ha Hb Hva Hvb Hu Hw Hw' Hba Hac Hfrom. apply map_eq. intros k.
  destruct (st_entries c !! k) as [v|] eqn:Hv.
  - destruct (Hfrom k v Hv) as [Hk|Hk]; [|done].
    destruct (caught_up_at b a k v Hba Hvb Hb Hw Hk) as (l & Hl & Hlv).
    destruct (caught_up_at a c k l Hac Hva Ha Hw' Hl) as (v' & Hv' & Hvl).
    assert (v' = v) as -> by congruence. rewrite Hl. f_equal. apply (Hu k); [done..|].
    by destruct (version_lt_total (version l) (version v)) as [?|[?|?]].
  - destruct (st_entries a !! k) as [l|] eqn:Hl; [|done].
    destruct (caught_up_at a c k l Hac Hva Ha Hw' Hl) as (v' & Hv' & _). congruence.
Qed.

(** ** One reconciliation *)

Section Agree.
Context {F : Type} `{FsOps F} `{StateCodec} (blake3 : string → Hash).
Context (Hlen : ∀ m, strlen (blake3 m) = 32%nat).
Implicit Types w : RW (F:=F).
Abbreviation state w := (w_st (rw_world w)).

(** The node of [w] reconciles with an honest, quiet peer of state [rs]. *)
Record session (rs : FolderState) (env : Env (F:=F)) (hint : option TreeHint) (fuel : nat) w : Prop := {
  ses_peer : peer_wf blake3 rs;
  ses_honest : honest rs env;
  ses_hint : hint_honest rs hint;
  ses_inv : state_inv (state w);
  ses_wf : state_wf (state w);
  ses_trees : trees_sound blake3 (state w);
  ses_room : ∃ B, (∀ k e, st_entries rs !! k = Some e → 0 ≤ lamport (version e) ≤ B) ∧
               headroom B (base.size (st_entries rs)) (state w);
  ses_free : ∀ k, no_collision blake3 rs (state
     (reconcile_loop blake3 env k (hinted_nodes blake3 hint) [] [("", root_hash (st_tree rs))]
        (mkRW (rw_world w) (S (rw_tick w)))).1);
  ses_fuel : (base.size (nodes (st_tree rs)) ≤ fuel)%nat
}.

(** The reconciliation [w], which ends in [w']. *)
Definition reconciles (rs : FolderState) (env : Env (F:=F)) (hint : option TreeHint) (fuel : nat)
    (w w' : RW (F:=F)) : Prop :=
  ∃ live l o, reconcile_with_advertised_root blake3 env fuel
    (mkRemoteRoot (root_hash (st_tree rs)) live l hint) w = (w', Ok o).

(** After it the node has caught up, unless its final sweep, the changes [ds],
    wrapped the clock. *)
Lemma session_caught_up rs env hint fuel w w' :
  session rs env hint fuel w → reconciles rs env hint fuel w w' →
  ∃ s1 ds, index_changes s1 ds (state w') ∧
    (st_lamport s1 + Z.of_nat (length ds) < u64_modulus →
     state_inv (state w') ∧ caught_up rs (state w') ∧
     st_gc_watermark (state w') = st_gc_watermark (state w)).
Proof.
  intros [Hrs Henv Hh Hinv Hwf Ht (B & HB & Hroom) Hfree Hfuel] (live & l & o & Hrun).
  pose proof (reconcile_quiet blake3 Hlen rs Hrs env Henv B HB fuel hint live l w w' (Ok o) Hh) as Hq.
  destruct Hq as (_ & s1 & ds & Hs1 & Hg1 & _ & Hds & Hb); [|split| |done|].
  - etrans; [apply nodes_count|done].
  - split; [done|done|]. unfold headroom in *. pose proof (listed_entries blake3 rs Hrs). lia.
  - done.
  - done.
  - exists s1, ds. split; [done|]. intros Hnw. destruct (Hb Hnw) as [Hg2 Hc].
    split_and!; [by eapply index_changes_inv|done|].
    destruct Hg1 as (_ & _ & Hw1 & _), Hg2 as (_ & _ & Hw2 & _). by rewrite Hw2.
Qed.
End Agree.

(** Let one node reconcile with another at rest, and then
    the other with it, both without failing.  If the second reconciliation left
    no entry that neither node had before - it displaced nothing and its sweep
    found nothing - the two hold the same index, unless one of the sweeps
    wrapped its 64-bit clock.  The nodes start with the same GC watermark, hold
    paths a peer may send, and no two entries of a path share a version. *)
Theorem two_nodes_agree {F : Type} `{FsOps F} `{StateCodec} (blake3 : string → Hash)
    (Hlen : ∀ m, strlen (blake3 m) = 32%nat)
    (env_a env_b : Env (F:=F)) (hint_a hint_b : option TreeHint) (fuel_a fuel_b : nat)
    (wa wa' wb wb' : RW (F:=F))
    (Hsession_a : session blake3 (w_st (rw_world wb)) env_a hint_a fuel_a wa)
    (Ha : reconciles blake3 (w_st (rw_world wb)) env_a hint_a fuel_a wa wa')
    (Hsession_b : session blake3 (w_st (rw_world wa')) env_b hint_b fuel_b wb)
    (Hb : reconciles blake3 (w_st (rw_world wa')) env_b hint_b fuel_b wb wb')
    (Hwatermark : st_gc_watermark (w_st (rw_world wa)) = st_gc_watermark (w_st (rw_world wb)))
    (Hpaths : valid_paths (w_st (rw_world wa')) ∧ valid_paths (w_st (rw_world wb)))
    (Hunique : versions_unique (w_st (rw_world wa')) (w_st (rw_world wb')))
    (Hfrom : only_from (w_st (rw_world wb)) (w_st (rw_world wa')) (w_st (rw_world wb'))) :
  ∃ sa ds_a sb ds_b,
    index_changes sa ds_a (w_st (rw_world wa')) ∧ index_changes sb ds_b (w_st (rw_world wb')) ∧
    (st_lamport sa + Z.of_nat (length ds_a) < u64_modulus →
     st_lamport sb + Z.of_nat (length ds_b) < u64_modulus →
     st_entries (w_st (rw_world wa')) = st_entries (w_st (rw_world wb'))).
Proof.
  destruct (session_caught_up blake3 Hlen _ _ _ _ _ _ Hsession_a Ha) as (sa & ds_a & Hds_a & Hca).
  destruct (session_caught_up blake3 Hlen _ _ _ _ _ _ Hsession_b Hb) as (sb & ds_b & Hds_b & Hcb).
  exists sa, ds_a, sb, ds_b. split_and!; [done|done|]. intros Hna Hnb.
  destruct (Hca Hna) as (Hinv_a & Hcaught_a & Hw_a). destruct (Hcb Hnb) as (_ & Hcaught_b & Hw_b).
  destruct Hpaths as [Hva Hvb].
  apply (caught_up_agree _ (w_st (rw_world wb))); try done; [apply Hsession_b|..]; congruence.
Qed.

(** ** The join *)

Abbreviation Index := (gmap string Entry).

Definition newer (l r : Entry) : Entry := if version_gt (version r) (version l) then r else l.
Definition lww_join (a b : Index) : Index := union_with (λ l r, Some (newer l r)) a b.

(** At every path the newest of the entries of a family of indexes. *)
Definition newest {N : Type} (family : N → Index) (among : N → Prop) (s : Index) : Prop :=
  ∀ k, match s !! k with
       | Some e => (∃ i, among i ∧ family i !! k = Some e) ∧
           ∀ i e', among i → family i !! k = Some e' → ¬ version_lt (version e) (version e')
       | None => ∀ i, among i → family i !! k = None
       end.

(** No two entries of one path share a version. *)
Definition unique_versions {N : Type} (family : N → Index) : Prop :=
  ∀ i j k e e', family i !! k = Some e → family j !! k = Some e' → version e = version e' → e = e'.

Lemma not_lt_trans a b c : ¬ version_lt a b → ¬ version_lt b c → ¬ version_lt a c.
Proof.
  intros Hab Hbc Hac. destruct (version_lt_total a b) as [?|[->|Hba]]; [done|done|].
  by eapply Hbc, version_lt_trans.
Qed.

Lemma newer_cases l r :
  newer l r = r ∧ version_lt (version l) (version r) ∨
  newer l r = l ∧ ¬ version_lt (version l) (version r).
Proof.
  unfold newer. destruct (version_gt _ _) eqn:E; [left|right]; (split; [done|]).
  - by apply version_gt_lt.
  - by rewrite <-version_gt_lt, E.
Qed.

Lemma newest_join {N} (family : N → Index) (P Q : N → Prop) a b :
  newest family P a → newest family Q b → newest family (λ i, P i ∨ Q i) (lww_join a b).
Proof.
  intros Ha Hb k. specialize (Ha k). specialize (Hb k). unfold lww_join. rewrite lookup_union_with.
  destruct (a !! k) as [l|], (b !! k) as [r|]; simpl.
  - destruct Ha as [(i & Hi & Hl) Ha], Hb as [(j & Hj & Hr) Hb].
    destruct (newer_cases l r) as [[-> Hlt]|[-> Hnlt]].
    + split; [exists j; auto|]. intros i' e' [Hi'|Hi'] He'; [|by eapply Hb].
      intros Hr'. eapply (Ha i' e'); [done..|]. by eapply version_lt_trans.
    + split; [exists i; auto|]. intros i' e' [Hi'|Hi'] He'; [by eapply Ha|].
      eapply not_lt_trans; [done|]. by eapply Hb.
  - destruct Ha as [(i & Hi & Hl) Ha]. split; [exists i; auto|].
    intros i' e' [Hi'|Hi'] He'; [by eapply Ha|]. by rewrite Hb in He'.
  - destruct Hb as [(j & Hj & Hr) Hb]. split; [exists j; auto|].
    intros i' e' [Hi'|Hi'] He'; [by rewrite Ha in He'|by eapply Hb].
  - intros i [?|?]; auto.
Qed.

Lemma newest_unique {N} (family : N → Index) (P Q : N → Prop) a b :
  unique_versions family → (∀ i, P i ↔ Q i) → newest family P a → newest family Q b → a = b.
Proof.
  intros Hu HPQ Ha Hb. apply map_eq. intros k. specialize (Ha k). specialize (Hb k).
  destruct (a !! k) as [l|], (b !! k) as [r|]; [| | |done].
  - destruct Ha as [(i & Hi & Hl) Ha], Hb as [(j & Hj & Hr) Hb]. f_equal.
    apply (Hu i j k); [done..|]. apply HPQ in Hi. apply HPQ in Hj.
    pose proof (Ha j r Hj Hr). pose proof (Hb i l Hi Hl).
    by destruct (version_lt_total (version l) (version r)) as [?|[?|?]].
  - destruct Ha as [(i & Hi%HPQ & Hl) _]. by rewrite (Hb i Hi) in Hl.
  - destruct Hb as [(i & Hi%HPQ & Hl) _]. by rewrite (Ha i Hi) in Hl.
Qed.

Lemma newest_from {N} (family : N → Index) P s k e :
  newest family P s → s !! k = Some e → ∃ i, P i ∧ family i !! k = Some e.
Proof. intros Hs Hk. specialize (Hs k). rewrite Hk in Hs. by destruct Hs. Qed.

Lemma newest_covers {N} (family : N → Index) (P : N → Prop) s i k e :
  newest family P s → P i → family i !! k = Some e →
  ∃ l, s !! k = Some l ∧ ¬ version_lt (version l) (version e).
Proof.
  intros Hs Hi Hk. specialize (Hs k). destruct (s !! k) as [l|]; [|by rewrite Hs in Hk].
  exists l. split; [done|]. by eapply Hs.
Qed.

(** ** Indexes that only join *)

(** No live entry of either index is below a file or a symlink of either, and
    the peer knows of no deletion the node has not seen. *)
Record peaceful (a b : Index) : Prop := {
  no_displacement k e q v :
    a !! k = Some e ∨ b !! k = Some e → kind e = File ∨ kind e = Symlink →
    a !! q = Some v ∨ b !! q = Some v → is_child k q → kind v = Tombstone;
  no_new_deletion k e : b !! k = Some e → kind e = Tombstone →
    ∃ l, a !! k = Some l ∧ ¬ version_lt (version l) (version e)
}.

Lemma tombstone_all_idle ps s cs :
  (∀ p e, p ∈ ps → st_entries s !! p = Some e → kind e = Tombstone) →
  tombstone_all ps (s, cs) = (s, cs).
Proof.
  induction ps as [|p ps IH]; intros Hps; [done|].
  change (tombstone_all (p :: ps) (s, cs)) with (tombstone_all ps (tombstone_path p (s, cs))).
  assert (tombstone_path p (s, cs) = (s, cs)) as ->.
  { unfold tombstone_path. destruct (st_entries s !! p) as [e|] eqn:E; [|done].
    rewrite decide_True; [done|]. apply (Hps p e); [by left|done]. }
  apply IH. intros q e Hq. apply Hps. by right.
Qed.

Section Calm.
Context (a b : Index) (Hpeace : peaceful a b).

(** What holds during the walk. *)
Definition calm (s : FolderState) : Prop :=
  (∀ k v, st_entries s !! k = Some v → a !! k = Some v ∨ b !! k = Some v) ∧
  (∀ k e, b !! k = Some e → kind e = Tombstone →
     ∃ l, st_entries s !! k = Some l ∧ ¬ version_lt (version l) (version e)).

Definition of_peer (e : Entry) : Prop := b !! path e = Some e.
Definition no_deletion (c : Change) : Prop := kind (ch_new c) ≠ Tombstone.

Lemma calm_start s : st_entries s = a → calm s.
Proof. intros Hs. unfold calm. rewrite Hs. split; [by left|]. by apply Hpeace. Qed.

Lemma record_remote_calm s e cs :
  calm s → of_peer e → should_accept_remote s e = true → Forall no_deletion cs →
  calm (record_remote e (s, cs)).1 ∧ Forall no_deletion (record_remote e (s, cs)).2.
Proof.
  intros [Hfrom Hdel] He (_ & _ & Hnew)%should_accept_remote_spec Hcs.
  assert (kind e ≠ Tombstone) as Hlive.
  { intros Ht. destruct (Hdel _ _ He Ht) as (l & Hl & Hnlt). by apply Hnlt, Hnew. }
  set (s1 := set_entries (<[path e := e]> (st_entries s)) (set_lamport (Z.max (st_lamport s) (lamport (version e))) s)).
  assert (calm s1) as Hs1.
  { split; simpl.
    - intros k v [[<- <-]|[_ Hk]]%lookup_insert_Some; [by right|by apply Hfrom].
    - intros k e' Hk Ht. destruct (Hdel k e' Hk Ht) as (l & Hl & Hnlt).
      destruct (decide (k = path e)) as [->|Hne].
      + unfold of_peer in He. by simplify_eq.
      + exists l. by rewrite lookup_insert_ne. }
  assert (record_remote e (s, cs) = (s1, cs ++ [mkChange (path e) (st_entries s !! path e) e])) as ->.
  { unfold record_remote. fold s1. case_decide as Hk; [done|]. unfold tombstone_child_descendants.
    apply tombstone_all_idle. intros q v [_ Hq]%elem_of_list_filter Hv.
    apply (no_displacement _ _ Hpeace (path e) e q v); [by right| |by apply Hs1|done].
    by destruct (kind e); auto. }
  split; [done|]. apply Forall_app. split; [done|]. by apply Forall_singleton.
Qed.
End Calm.

(** ** Batches and walks *)

Section Walk.
Context {F : Type} `{FsOps F} `{StateCodec} (blake3 : string → Hash).
Abbreviation World := (World (F:=F)) (only parsing).
Implicit Types w : RW (F:=F).
Abbreviation state w := (w_st (rw_world w)).
Context (a b : Index) (Hpeace : peaceful a b).

Lemma apply_fold_calm batch acc (x : World) :
  (∀ item, item ∈ batch → of_peer b item.1) → calm a b (w_st x) → Forall no_deletion acc →
  let r := m_fold batch (λ (item : Entry * option string) all_changes,
    (changes <- apply_remote_entry_core item.1 item.2 ;; m_ret (all_changes ++ changes))%m) acc x in
  calm a b (w_st r.1) ∧ ∀ cs, r.2 = Ok cs → Forall no_deletion cs.
Proof.
  revert acc x. induction batch as [|[e tmp] batch IH]; intros acc x Hb Hx Hacc.
  { split; [done|]. by intros cs [= <-]. }
  cbv zeta. cbn [m_fold fst snd]. unfold m_bind at 1 2 4 5.
  assert (∀ item, item ∈ batch → of_peer b item.1) as Hb' by (intros item ?; apply Hb; by right).
  pose proof (apply_remote_entry_core_cases e tmp x) as Hcases.
  destruct (apply_remote_entry_core e tmp x) as [x1 r1]. cbv zeta in Hcases. cbn [fst snd] in Hcases.
  destruct Hcases as [(err & -> & Hst)|[(-> & _ & Hst)|(Hacc' & -> & Hst)]].
  - cbn [fst snd]. by rewrite Hst.
  - apply IH; [done|by rewrite Hst|by rewrite app_nil_r].
  - destruct (record_remote_calm a b Hpeace (w_st x) e [] Hx (Hb _ ltac:(by left)) Hacc' ltac:(done)).
    apply IH; [done|by rewrite Hst|by apply Forall_app].
Qed.

Lemma apply_remote_entries_calm batch (x : World) :
  (∀ item, item ∈ batch → of_peer b item.1) → calm a b (w_st x) →
  calm a b (w_st (apply_remote_entries blake3 batch x).1) ∧
  ∀ cs, (apply_remote_entries blake3 batch x).2 = Ok cs → Forall no_deletion cs.
Proof.
  intros Hb Hx. pose proof (apply_fold_calm batch [] x Hb Hx ltac:(done)) as Hfold. cbv zeta in Hfold.
  destruct (apply_remote_entries blake3 batch x) as [x2 r2] eqn:Hrun. cbn [fst snd].
  unfold apply_remote_entries, m_bind at 1 in Hrun.
  destruct (m_fold batch _ [] x) as [x1 [cs1|e]]; [|by injection Hrun as <- <-].
  destruct Hfold as [Hx1 Hcs1].
  pose proof (keeps_bind _ (λ _, m_ret cs1) (keeps_finish blake3 cs1 (ch_path <$> cs1))
    (λ _, keeps_ret cs1) x1) as (_ & _ & _ & _ & Hes).
  revert Hrun Hes. match goal with |- ?c = _ → _ → _ => destruct c as [x3 r3] eqn:E end.
  intros [= -> ->]. cbn [fst]. intros Hes. split; [unfold calm in *; by rewrite <-Hes|].
  intros cs ->. apply m_bind_ret_inv in E as [[= ->]|[? [=]]]. by apply Hcs1.
Qed.

(** The walk with an honest peer of index [b] stays calm. *)
Lemma walk_calm rs env fuel hinted stack w :
  st_entries rs = b → peer_wf blake3 rs → honest rs env → calm a b (state w) →
  calm a b (state (reconcile_loop blake3 env fuel hinted [] stack w).1) ∧
  ∀ o cs, (reconcile_loop blake3 env fuel hinted [] stack w).2 = Ok o → o = Some cs → Forall no_deletion cs.
Proof.
  intros Hb Hrs Henv Hw.
  destruct (reconcile_loop_keeps blake3 env (λ x, calm a b (w_st x))
    ltac:(intros n x; by rewrite (honest_others _ _ Henv)) (of_peer b) no_deletion
    ltac:(intros n l e; by rewrite (honest_completion _ _ Henv n l))) with (fuel := fuel)
    (hinted := hinted) (changes := @nil Change) (stack := stack) (w := w) as [Hc Hcs]; [..|done|done|].
  - intros n p es e Hes He. rewrite (honest_entries _ _ Henv) in Hes. injection Hes as <-.
    unfold entries_of_node in He. destruct (node rs p); [|by apply elem_of_nil in He].
    apply list_elem_of_omap in He as (x & _ & Hx). unfold entry in Hx. unfold of_peer. rewrite <-Hb.
    pose proof (index_keyed _ (peer_index _ _ Hrs) _ _ Hx) as Hp. simpl in Hp. by rewrite Hp.
  - intros batch Hitems x Hx. apply apply_remote_entries_calm; [|done]. intros item Hi. by apply Hitems.
  - split; [done|]. intros o cs Ho. by apply Hcs.
Qed.

(** A sweep over changes without deletions only saves. *)
Lemma sweep_idle rs env changes w w' r :
  honest rs env → Forall no_deletion changes → sweep blake3 env changes w = (w', r) →
  state w' = state w.
Proof.
  intros Henv Hcs Hrun. unfold sweep, m_bind at 1 in Hrun. rewrite (quiet_read rs env Henv) in Hrun.
  assert (tombstoned_paths (state w) changes = []) as Hnil.
  { unfold tombstoned_paths. clear Hrun. induction Hcs as [|c cs Hc _ IH]; [done|]. simpl.
    rewrite bool_decide_false by exact Hc. exact IH. }
  rewrite Hnil in Hrun. unfold m_bind, m_ret at 1 in Hrun.
  destruct changes as [|c cs]; [by injection Hrun as <- <-|].
  rewrite (quiet_write rs env Henv) in Hrun.
  destruct (save_entries _) as [x rx] eqn:Es. apply save_entries_st in Es as [Es _].
  injection Hrun as <- <-. exact Es.
Qed.
End Walk.

(** ** One reconciliation *)

Section Joins.
Context {F : Type} `{FsOps F} `{StateCodec} (blake3 : string → Hash).
Context (Hlen : ∀ m, strlen (blake3 m) = 32%nat).
Implicit Types w : RW (F:=F).
Abbreviation state w := (w_st (rw_world w)).

Lemma session_joins rs env hint fuel w w' :
  session blake3 rs env hint fuel w → reconciles blake3 rs env hint fuel w w' →
  peaceful (st_entries (state w)) (st_entries rs) → valid_paths rs →
  st_entries (state w') = lww_join (st_entries (state w)) (st_entries rs) ∧ grows (state w) (state w').
Proof.
  intros [Hrs Henv Hh Hinv Hwf Ht (B & HB & Hroom) Hfree Hfuel] (live & l & o & Hrun) Hpeace Hv.
  apply (reconcile_walk blake3 Hlen rs Hrs env Henv B HB fuel hint live l w w' (Ok o)) in Hrun;
    [|done|etrans; [apply nodes_count|done]| |done].
  2:{ split; [|done]. split; [done|done|]. unfold headroom in *.
      pose proof (listed_entries blake3 rs Hrs). lia. }
  destruct Hrun as (cs & w2 & _ & Hwalked & _ & Hg & Hall).
  set (a := st_entries (state w)) in *. set (b := st_entries rs) in *.
  assert (calm a b (state w2) ∧ state w' = state w2) as [Hcalm ->].
  { destruct Hwalked as [(_ & E2 & E')|[Hloop Hsw]].
    - rewrite E2, E'. split; [by apply calm_start|done].
    - destruct (walk_calm blake3 a b Hpeace rs env fuel (hinted_nodes blake3 hint)
        [("", root_hash (st_tree rs))] (mkRW (rw_world w) (S (rw_tick w)))) as [Hc Hcs];
        [done..|by apply calm_start|]. rewrite Hloop in Hc, Hcs.
      split; [exact Hc|]. eapply sweep_idle; [done| |done]. by eapply Hcs. }
  split; [|done]. destruct Hcalm as [Hfrom Hdel]. destruct Hg as (_ & _ & _ & Hgrow).
  assert (∀ k e, b !! k = Some e →
    ∃ v, st_entries (state w2) !! k = Some v ∧ ¬ version_lt (version v) (version e)) as Hcover.
  { intros k e Hk. destruct (decide (kind e = Tombstone)) as [Hd|Hd]; [by apply Hdel|].
    apply (handled_caught_up blake3 rs Hrs) in Hall. apply (Hall k e Hk); [by eapply Hv|].
    unfold covered. by rewrite bool_decide_false. }
  apply map_eq. intros k. unfold lww_join. rewrite lookup_union_with.
  destruct (a !! k) as [x|] eqn:Ea, (b !! k) as [y|] eqn:Eb; simpl.
  - destruct (Hgrow k x Ea) as (v & Hk & Hxv). rewrite Hk. f_equal.
    destruct (Hcover k y Eb) as (v' & Hk' & Hnlt). assert (v' = v) as -> by congruence.
    destruct (newer_cases x y) as [[-> Hlt]|[-> Hnlt']].
    + destruct (Hfrom k v Hk) as [Hx|Hy]; [|congruence].
      assert (v = x) as -> by congruence. done.
    + destruct (Hfrom k v Hk) as [Hx|Hy]; [congruence|].
      assert (v = y) as -> by congruence. by destruct Hxv as [->|?].
  - destruct (Hgrow k x Ea) as (v & Hk & _). rewrite Hk. f_equal.
    destruct (Hfrom k v Hk); congruence.
  - destruct (Hcover k y Eb) as (v & Hk & _). rewrite Hk. f_equal.
    destruct (Hfrom k v Hk); congruence.
  - destruct (st_entries (state w2) !! k) as [v|] eqn:Hk; [|done].
    destruct (Hfrom k v Hk); congruence.
Qed.
End Joins.

