(* ===== verification/Gossip.v ===== *)
(** * A group of nodes converges

    Nodes reconcile pairwise, in any order.  [heard] is the bookkeeping of who
    has, through however many others, the entries of whom; nodes that have heard
    of the same nodes hold the same index. *)

From stdpp Require Import sets functions.
From S2P Require Import Prelude Paths Bytes Utf8 Fs Ignore Entries Scan Tree TreeSpec.
From S2P Require Import TreeUpdate TreeHash State StateLocal StateIndex StateTrack StateOps.
From S2P Require Import StateInv StateGc StateProps StateMerge Messages Rpc Sync Subtree.
From S2P Require Import SyncLemmas SyncConverge SyncProps SyncJoin.

Section Gossip.
Context {F : Type} `{FsOps F} `{StateCodec} (blake3 : string → Hash).
Context {N : Type} `{Countable N}.

(** The nodes of the group: the folder state and the disk of each. *)
Abbreviation Nodes := (N → World (F:=F)).
Definition index_at (g : Nodes) (i : N) : Index := st_entries (w_st (g i)).

(** [gossips g meetings g']: the [meetings] took place, in this order; in each
    the first node reconciled with the second, which was at rest, and did not
    fail.  Other programs may change the disks meanwhile. *)
Inductive gossips (g : Nodes) : list (N * N) → Nodes → Prop :=
  | gossips_nil : gossips g [] g
  | gossips_meet meetings g' i j env hint fuel w' :
      gossips g meetings g' →
      session blake3 (w_st (g' j)) env hint fuel (mkRW (g' i) 0) →
      reconciles blake3 (w_st (g' j)) env hint fuel (mkRW (g' i) 0) w' →
      gossips g (meetings ++ [(i, j)]) (<[i := rw_world w']> g')
  | gossips_disk meetings g' i f :
      gossips g meetings g' → gossips g meetings (<[i := mkWorld f (w_st (g' i))]> g').

(** Whose entries a node has. *)
Definition hear (h : N → gset N) (meeting : N * N) : N → gset N :=
  <[meeting.1 := h meeting.1 ∪ h meeting.2]> h.
Definition heard (meetings : list (N * N)) : N → gset N := foldl hear (λ i, {[i]}) meetings.

Lemma heard_snoc meetings m : heard (meetings ++ [m]) = hear (heard meetings) m.
Proof. unfold heard. by rewrite foldl_app. Qed.

Lemma heard_self meetings i : i ∈ heard meetings i.
Proof.
  induction meetings as [|[j k] meetings IH] using rev_ind; [set_solver|].
  rewrite heard_snoc. unfold hear. simpl.
  destruct (decide (i = j)) as [->|Hne]; [rewrite fn_lookup_insert; set_solver|].
  by rewrite fn_lookup_insert_ne.
Qed.

(** ** The group at the start *)

Record at_peace (g : Nodes) : Prop := {
  peace_versions : unique_versions (index_at g);
  peace_pairs i j : peaceful (index_at g i) (index_at g j);
  peace_paths i : valid_paths (w_st (g i))
}.

Section Run.
Context (Hlen : ∀ m, strlen (blake3 m) = 32%nat).
Context (g : Nodes) (Hpeace : at_peace g).

Definition holds_newest (meetings : list (N * N)) (g' : Nodes) : Prop :=
  ∀ i, newest (index_at g) (.∈ heard meetings i) (index_at g' i).

(** Entries that all come from the start are at peace with each other. *)
Lemma newest_peaceful (P Q : N → Prop) a b i :
  newest (index_at g) P a → newest (index_at g) Q b → P i → peaceful a b.
Proof.
  intros Ha Hb Hi.
  assert (∀ k e, a !! k = Some e ∨ b !! k = Some e → ∃ j, index_at g j !! k = Some e) as Hfrom.
  { intros k e [Hk|Hk]; [apply (newest_from _ _ _ _ _ Ha) in Hk|apply (newest_from _ _ _ _ _ Hb) in Hk];
      destruct Hk as (j & _ & ?); by exists j. }
  split.
  - intros k e q v (j & Hj)%Hfrom Hk (j' & Hj')%Hfrom Hc.
    eapply (no_displacement _ _ (peace_pairs _ Hpeace j j')); [by left|done|by right|done].
  - intros k e Hk Hd. destruct (newest_from _ _ _ _ _ Hb Hk) as (j & _ & Hj).
    destruct (no_new_deletion _ _ (peace_pairs _ Hpeace i j) k e Hj Hd) as (l & Hl & Hnlt).
    destruct (newest_covers _ _ _ _ _ _ Ha Hi Hl) as (l' & Hl' & Hnlt'). exists l'. split; [done|].
    by eapply not_lt_trans.
Qed.

Lemma newest_valid (P : N → Prop) s :
  newest (index_at g) P (st_entries s) → valid_paths s.
Proof.
  intros Hs k e Hk. destruct (newest_from _ _ _ _ _ Hs Hk) as (j & _ & Hj).
  by eapply (peace_paths _ Hpeace j).
Qed.

Lemma gossips_newest meetings g' : gossips g meetings g' → holds_newest meetings g'.
Proof.
  induction 1 as [|meetings g' i j env hint fuel w' _ IH Hs Hr|meetings g' i f _ IH].
  - intros i k. unfold heard. simpl. destruct (index_at g i !! k) as [e|] eqn:Hk.
    + split; [exists i; set_solver|]. intros j e' ->%elem_of_singleton He'.
      assert (e' = e) as -> by congruence. apply version_lt_irrefl.
    + by intros j ->%elem_of_singleton.
  - intros k. rewrite heard_snoc. unfold hear. cbn [fst snd].
    destruct (decide (k = i)) as [->|Hne].
    + unfold index_at at 2. rewrite !fn_lookup_insert.
      destruct (session_joins blake3 Hlen _ _ _ _ _ _ Hs Hr) as [-> _].
      * eapply newest_peaceful; [exact (IH i)|exact (IH j)|apply heard_self].
      * eapply newest_valid, IH.
      * intros p. pose proof (newest_join _ _ _ _ _ (IH i) (IH j) p) as Hj. unfold index_at in Hj at 2 3.
        simpl. destruct (lww_join _ _ !! p) as [e|]; [|set_solver].
        destruct Hj as [(x & Hx & Hxe) Hall]. split; [exists x; set_solver|].
        intros y e' Hy. apply Hall. set_solver.
    + unfold index_at at 2. rewrite !fn_lookup_insert_ne by done. apply IH.
  - intros k. unfold index_at at 2. destruct (decide (k = i)) as [->|Hne].
    + rewrite fn_lookup_insert. apply IH.
    + rewrite fn_lookup_insert_ne by done. apply IH.
Qed.
End Run.
End Gossip.

