(* ===== verification/SyncTyped.v ===== *)
(** * What the index can hold, across all operations of a node

    The operations of the folder state and whole reconciliations keep the index
    typed ([StateTyped]): the batches a reconciliation applies are typed,
    because it refuses files without a hash. *)

From S2P Require Import Prelude Paths Bytes Utf8 Fs Ignore Entries Scan ScanInv Tree.
From S2P Require Import State StateTrack StateReach StateTyped Messages Sync SyncWalk.

Section SyncTyped.
Context {F : Type} `{FsOps F} (blake3 : string → Hash) `{StateCodec}.
Abbreviation World := (World (F:=F)) (only parsing).
Abbreviation Env := (Env (F:=F)) (only parsing).

(** The other tasks keep the index typed, and the downloads that complete are
    some of those that were started. *)
Definition env_typed (env : Env) : Prop :=
  (∀ n w, world_typed w → world_typed (others env n w)) ∧
  (∀ n l e, e ∈ completion env n l → e ∈ l).

(** The rule of [SyncWalk] with this invariant: a batch is typed because
    reconciliation refuses files without a hash. *)
Section Walk.
Context (env : Env) (Henv : env_typed env).

Lemma typed_batch (batch : list (Entry * option string)) w :
  (∀ item, item ∈ batch → batch_item (λ _, True) item.1) → world_typed w →
  world_typed (apply_remote_entries blake3 batch w).1 ∧
  ∀ cs, (apply_remote_entries blake3 batch w).2 = Ok cs → Forall (λ _, True) cs.
Proof.
  intros Hb Hw. split; [|by intros; apply Forall_true]. apply apply_remote_entries_typed; [|done].
  intros e tmp Hin. by destruct (Hb _ Hin).
Qed.

Lemma reconcile_root_typed fuel remote (w : RW (F:=F)) :
  world_typed (rw_world w) →
  world_typed (rw_world (reconcile_with_advertised_root blake3 env fuel remote w).1).
Proof.
  apply (reconcile_with_advertised_root_keeps blake3 env world_typed (proj1 Henv) (λ _, True) (λ _, True)
    (proj2 Henv)); auto using typed_batch.
  - intros paths w'. apply apply_paths_typed.
  - intros w'. apply typed_keeps. auto with keeps.
Qed.

Lemma reconcile_peer_typed fuel (w : RW (F:=F)) :
  world_typed (rw_world w) → world_typed (rw_world (reconcile_with_peer blake3 env fuel w).1).
Proof.
  apply (reconcile_with_peer_keeps blake3 env world_typed (proj1 Henv) (λ _, True) (λ _, True)
    (proj2 Henv)); auto using typed_batch.
  - intros paths w'. apply apply_paths_typed.
  - intros w'. apply typed_keeps. auto with keeps.
Qed.
End Walk.

(** One operation of a node, whatever its outcome, and whatever other programs
    did to the disk before it. *)
Inductive folder_step : World → World → Prop :=
  | step_reconcile env fuel remote w : env_typed env →
      folder_step w (rw_world (reconcile_with_advertised_root blake3 env fuel remote (mkRW w 0)).1)
  | step_reconcile_peer env fuel w : env_typed env →
      folder_step w (rw_world (reconcile_with_peer blake3 env fuel (mkRW w 0)).1)
  | step_paths paths w : folder_step w (apply_paths blake3 paths w).1
  | step_rescan w : folder_step w (rescan blake3 w).1
  | step_merge incoming w : folder_step w (merge_gc_watermark blake3 incoming w).1
  | step_gc w : folder_step w (gc_tombstones_for_converged_root blake3 w).1
  | step_save w : folder_step w (save_entries w).1
  | step_disk f w : folder_step w (mkWorld f (w_st w)).

Lemma folder_step_typed w w' : folder_step w w' → world_typed w → world_typed w'.
Proof.
  destruct 1; intros Hw.
  - by apply (reconcile_root_typed env ltac:(done) fuel remote (mkRW w 0)).
  - by apply (reconcile_peer_typed env ltac:(done) fuel (mkRW w 0)).
  - by apply apply_paths_typed.
  - by apply rescan_typed.
  - by apply merge_gc_watermark_typed.
  - by apply gc_tombstones_typed.
  - apply typed_keeps; auto with keeps.
  - done.
Qed.

End SyncTyped.
