(* ===== verification/SyncWitness.v ===== *)
(** * The reconciliation theorems at concrete inputs

    A peer with the folder of [Samples], and a node whose folder is empty. *)

From S2P Require Import Prelude Paths Bytes Utf8 Fs Ignore Entries Scan Tree TreeSpec.
From S2P Require Import TreeUpdate TreeHash TreeProps Samples State StateLocal StateIndex StateTrack.
From S2P Require Import StateOps StateInv StateProps StateWitness StateMerge Messages Rpc.
From S2P Require Import StateReach StateTyped Sync Subtree SyncLemmas SyncConverge SyncVouch SyncProps SyncTyped.

(** A state whose trees were derived from its index. *)
Definition derived_for (o : string) (es : gmap string Entry) (l : Z) : FolderState :=
  mkState "/f" o l ∅ es (derive_tree_with toy_blake3 include_all es)
    (derive_tree_with toy_blake3 include_live es) empty_cache.
Definition derived_state : gmap string Entry → Z → FolderState := derived_for "n9".

Lemma derived_trees_sound es l : trees_sound toy_blake3 (derived_state es l).
Proof. split; apply derive_tree_sound. Qed.

Lemma derived_empty_inv : state_inv (derived_state ∅ 0).
Proof.
  split; cbn [derived_state st_entries st_lamport].
  - intros p e Hp. by destruct (lookup_empty_Some _ _ Hp).
  - done.
  - intros p e Hp. by destruct (lookup_empty_Some _ _ Hp).
  - change (0 ≤ 0). lia.
  - intros p e Hp. by destruct (lookup_empty_Some _ _ Hp).
Qed.

Definition peer_state : FolderState := derived_state sample_old 3.

Lemma peer_state_wf : peer_wf toy_blake3 peer_state.
Proof.
  split.
  - apply sample_old_wf.
  - intros k e Hk. unfold peer_state, derived_state, sample_old, index_of in Hk. cbn in Hk.
    lookup_cases Hk; (split; [vm_compute; reflexivity|decide_now]).
  - apply derive_tree_sound.
  - intros k e Hk. unfold peer_state, derived_state, sample_old, index_of in Hk. cbn in Hk.
    lookup_cases Hk; intros Hf; first [discriminate Hf|by eexists].
Qed.

(** The downloads of the two files are on disk already. *)
Definition sync_fs : MemFs.t :=
  MemFs.mk (list_to_map [("/", MemFs.MDir 493); ("/f", MemFs.MDir 493); ("/t", MemFs.MDir 493);
    ("/t/a.txt", MemFs.MFile "one" 420 0); ("/t/b.txt", MemFs.MFile "bee" 420 0)]) (10 ^ 12).

Definition quiet_env : Env (F:=MemFs.t) :=
  mkEnv (λ _ w, w) (λ _, Ok (root_hash (st_tree peer_state), root_hash (st_live_tree peer_state), 3))
    (λ _ p, Ok (node peer_state p)) (λ _ p, Ok (entries_of_node peer_state p)) (λ _ l, l)
    (λ _ e, Ok (Some ("/t/" +:+ basename (path e)))).

Lemma quiet_env_honest : honest peer_state quiet_env.
Proof. split; try done. intros n e. by eexists. Qed.

Definition fresh_node : RW (F:=MemFs.t) := mkRW (mkWorld sync_fs (derived_state ∅ 0)) 0.
Definition peer_advert : RemoteRoot :=
  mkRemoteRoot (root_hash (st_tree peer_state)) (root_hash (st_live_tree peer_state)) 3 None.
Definition sync_run := reconcile_with_advertised_root toy_blake3 quiet_env 2 peer_advert fresh_node.

Example sync_run_result :
  is_ok sync_run.2 = true ∧ st_entries (w_st (rw_world sync_run.1)) = sample_old.
Proof. split; vm_compute; reflexivity. Qed.

(** The walk of that run, with any fuel from 2 on. *)
Definition sync_walk (k : nat) :=
  reconcile_loop toy_blake3 quiet_env k (hinted_nodes toy_blake3 None) []
    [("", root_hash (st_tree peer_state))] (mkRW (rw_world fresh_node) (S (rw_tick fresh_node))).

Lemma sync_walk_ends k : sync_walk (S (S k)) = sync_walk 2.
Proof. apply (reconcile_loop_stable toy_blake3 quiet_env 2 k). vm_compute. reflexivity. Qed.

(** It meets no collision. *)
Definition walk_free (k : nat) : Prop :=
  no_collision toy_blake3 peer_state (w_st (rw_world (sync_walk k).1)).

Lemma walk_free_0 : walk_free 0.
Proof. apply collision_freeb_sound. vm_compute. reflexivity. Qed.
Lemma walk_free_1 : walk_free 1.
Proof. apply collision_freeb_sound. vm_compute. reflexivity. Qed.
Lemma walk_free_2 : walk_free 2.
Proof. apply collision_freeb_sound. vm_compute. reflexivity. Qed.

Lemma sync_walk_free k : walk_free k.
Proof.
  destruct k as [|[|k]]; [apply walk_free_0|apply walk_free_1|].
  unfold walk_free. rewrite (sync_walk_ends k). exact walk_free_2.
Qed.

Lemma reconcile_converges_witness :
  match sync_run.2 with
  | Ok o => ∃ s1, grows (w_st (rw_world fresh_node)) s1 ∧ caught_up peer_state s1
  | Err e => False
  end.
Proof.
  pose proof (reconcile_converges toy_blake3 toy_blake3_len peer_state peer_state_wf quiet_env
    quiet_env_honest 3 2 None (root_hash (st_live_tree peer_state)) 3 fresh_node sync_run.1 sync_run.2) as H.
  assert (is_ok sync_run.2 = true) as Hok by (vm_compute; reflexivity).
  destruct sync_run.2 as [o|e] eqn:E; [clear Hok|discriminate Hok].
  destruct H as (_ & s1 & ds & _ & Hg & Hc & _).
  - intros k e Hk. unfold peer_state, derived_state, sample_old, index_of in Hk. cbn in Hk.
    lookup_cases Hk; simpl; lia.
  - intros h n [=].
  - apply derived_empty_inv.
  - split; [|done]. apply index_wfb_sound. vm_compute. reflexivity.
  - apply derived_trees_sound.
  - vm_compute. reflexivity.
  - exact sync_walk_free.
  - vm_compute. lia.
  - rewrite <-E. apply surjective_pairing.
  - exists s1. exact (conj Hg Hc).
Defined.

(** A peer that also sends an entry no node lists: it is not among the changes. *)
Definition pushy_env : Env (F:=MemFs.t) :=
  mkEnv (others quiet_env) (peer_root quiet_env) (peer_node quiet_env)
    (λ _ p, Ok (dead_entry "docs/planted" (ver 9 "n2") :: entries_of_node peer_state p))
    (completion quiet_env) (download quiet_env).
Definition pushy_run := reconcile_with_advertised_root toy_blake3 pushy_env 2 peer_advert fresh_node.

Lemma reconcile_writes_vouched_witness :
  is_ok pushy_run.2 = true ∧
  ∀ k v, st_entries (w_st (rw_world pushy_run.1)) !! k = Some v →
    origin (version v) = "n9" ∨
    ∃ e, offered toy_blake3 pushy_env ∅ (root_hash (st_tree peer_state)) e ∧ made_by e k v.
Proof.
  split; [vm_compute; reflexivity|].
  destruct (reconcile_writes_vouched toy_blake3 pushy_env (λ _ _, False)
    ltac:(intros; done) ltac:(intros; done) 2 peer_advert fresh_node pushy_run.1 pushy_run.2) as [Hw _].
  - apply surjective_pairing.
  - intros k v Hk. destruct (Hw k v Hk) as [He|[[]|Ho]]; [|exact Ho].
    by destruct (lookup_empty_Some _ _ He).
Defined.

Example planted_ignored :
  st_entries (w_st (rw_world pushy_run.1)) !! "docs/planted" = None.
Proof. vm_compute. reflexivity. Qed.

(** ** Types *)

Definition started_run : MemFs.t * IoResult FolderState := new_state toy_blake3 "/f" "n2" sync_fs.
Definition started_folder : FolderState :=
  match started_run.2 with Ok s => s | Err _ => derived_state ∅ 0 end.
Definition typed_run : World (F:=MemFs.t) :=
  rw_world (reconcile_with_advertised_root toy_blake3 quiet_env 2 peer_advert
    (mkRW (mkWorld started_run.1 started_folder) 0)).1.

