(* ===== verification/AgreeWitness.v ===== *)
(** * Two nodes agree: a concrete exchange

    A node [n8] with the file [c.txt] and the node [n9] with the folder of
    [Samples] reconcile with each other. *)

From stdpp Require Import functions.
From S2P Require Import Prelude Paths Bytes Utf8 Fs Ignore Entries Scan Tree TreeSpec.
From S2P Require Import TreeUpdate TreeHash TreeProps Samples State StateLocal StateIndex StateTrack.
From S2P Require Import StateOps StateInv StateGc StateProps StateWitness StateMerge Messages Rpc.
From S2P Require Import Sync Subtree SyncLemmas SyncConverge SyncProps SyncJoin Gossip SyncWitness.

(** The environment of a peer at rest; objects have been downloaded to [/t]. *)
Definition env_of (rs : FolderState) : Env (F:=MemFs.t) :=
  mkEnv (λ _ w, w) (λ _, Ok (root_hash (st_tree rs), root_hash (st_live_tree rs), st_lamport rs))
    (λ _ p, Ok (node rs p)) (λ _ p, Ok (entries_of_node rs p)) (λ _ l, l)
    (λ _ e, Ok (Some ("/t/" +:+ basename (path e)))).

Lemma env_of_honest rs : honest rs (env_of rs).
Proof. split; try done. intros n e. by eexists. Qed.

Definition file_c : Entry := file_entry "c.txt" "sea" (ver 1 "n8").
Definition disk_of (own : list (string * string)) (objects : list (string * string)) : MemFs.t :=
  let file '(p, c) := (p, MemFs.MFile c 420 0) in
  MemFs.mk (list_to_map ([("/", MemFs.MDir 493); ("/f", MemFs.MDir 493); ("/t", MemFs.MDir 493)]
    ++ (file <$> own) ++ (file <$> objects))) (10 ^ 12).

Definition node_a : RW (F:=MemFs.t) :=
  mkRW (mkWorld (disk_of [("/f/c.txt", "sea")] [("/t/a.txt", "one"); ("/t/b.txt", "bee")])
         (derived_for "n8" {["c.txt" := file_c]} 1)) 0.
Definition node_b : RW (F:=MemFs.t) :=
  mkRW (mkWorld (disk_of [("/f/docs/a.txt", "one"); ("/f/b.txt", "bee")] [("/t/c.txt", "sea")])
         peer_state) 0.

(** [w] reconciles with [rs]. *)
Definition meet (rs : FolderState) (w : RW) : RW * IoResult (option (list Change)) :=
  reconcile_with_advertised_root toy_blake3 (env_of rs) 2
    (mkRemoteRoot (root_hash (st_tree rs)) (root_hash (st_live_tree rs)) (st_lamport rs) None) w.
Definition met_a : RW := (meet peer_state node_a).1.
Definition state_a : FolderState := w_st (rw_world met_a).
Definition met_b : RW := (meet state_a node_b).1.
Definition state_b : FolderState := w_st (rw_world met_b).

Example exchange_result :
  is_ok (meet peer_state node_a).2 = true ∧ is_ok (meet state_a node_b).2 = true ∧
  btree_keys (st_entries state_a) = ["b.txt"; "c.txt"; "docs"; "docs/a.txt"] ∧
  root_hash (st_tree state_a) = root_hash (st_tree state_b).
Proof. vm_compute. by split_and!. Qed.

Lemma meet_reconciles rs w :
  is_ok (meet rs w).2 = true → reconciles toy_blake3 rs (env_of rs) None 2 w (meet rs w).1.
Proof.
  intros Hok. exists (root_hash (st_live_tree rs)), (st_lamport rs). unfold meet in *.
  destruct (reconcile_with_advertised_root _ _ _ _ _) as [w' [o|e]]; [by exists o|discriminate Hok].
Qed.

(** ** Conditions that can be evaluated *)

Lemma peer_wf_check rs :
  index_wfb (st_entries rs) = true →
  map_Forall (λ k e, (trim_matches slash k = k ∧ Forall (λ p, trim_matches slash p = p) (ancestors k)) ∧
                     (kind e = File → is_Some (content_hash e))) (st_entries rs) →
  tree_sound toy_blake3 include_all (st_entries rs) (st_tree rs) → peer_wf toy_blake3 rs.
Proof.
  intros Hwf Hall Ht. split; [by apply index_wfb_sound| |done|].
  - intros k e Hk. by apply Hall in Hk as [? _].
  - intros k e Hk. by apply Hall in Hk as [_ ?].
Qed.

(** Below watermark nothing: with an empty watermark nothing is covered. *)
Lemma state_inv_check s :
  map_Forall (λ k e, path e = k ∧ 0 ≤ lamport (version e) ≤ st_lamport s) (st_entries s) →
  0 ≤ st_lamport s < u64_modulus → st_gc_watermark s = ∅ → state_inv s.
Proof.
  intros Hall Hl Hw. split; [by intros k e [? _]%Hall|done|by intros k e [_ ?]%Hall| |].
  - unfold own_watermark. rewrite Hw, lookup_empty. simpl. lia.
  - intros k e _. apply covered_false. rewrite Hw. by intros _ l Hl'%lookup_empty_Some.
Qed.

Lemma session_check rs w B :
  peer_wf toy_blake3 rs → state_inv (w_st (rw_world w)) → state_wf (w_st (rw_world w)) →
  trees_sound toy_blake3 (w_st (rw_world w)) →
  map_Forall (λ _ e, 0 ≤ lamport (version e) ≤ B) (st_entries rs) →
  headroom B (base.size (st_entries rs)) (w_st (rw_world w)) →
  (base.size (nodes (st_tree rs)) ≤ 2)%nat →
  let walk k := reconcile_loop toy_blake3 (env_of rs) k ∅ [] [("", root_hash (st_tree rs))]
                  (mkRW (rw_world w) (S (rw_tick w))) in
  (match (walk 2%nat).2 with Ok None => false | _ => true end) = true →
  Forall (λ k, no_collision toy_blake3 rs (w_st (rw_world (walk k).1))) [0; 1; 2]%nat →
  session toy_blake3 rs (env_of rs) None 2 w.
Proof.
  intros Hp Hinv Hwf Ht HB Hroom Hn walk Hend Hfree.
  split; [done|by apply env_of_honest|by intros h n|done|done|done|by exists B| |done].
  rewrite Forall_forall in Hfree. intros k. change (no_collision toy_blake3 rs (w_st (rw_world (walk k).1))).
  destruct (decide (k ≤ 2)%nat).
  - apply Hfree. repeat rewrite elem_of_cons. lia.
  - replace k with (2 + (k - 2))%nat by lia. unfold walk.
    rewrite (reconcile_loop_stable toy_blake3 (env_of rs) 2 (k - 2)) by exact Hend.
    apply Hfree. repeat rewrite elem_of_cons. lia.
Qed.

Lemma collision_check rs s :
  collision_freeb toy_blake3
    (tree_messages include_all (st_entries rs) (st_tree rs) ++
     tree_messages include_all (st_entries s) (st_tree s)) = true →
  no_collision toy_blake3 rs s.
Proof. apply collision_freeb_sound. Qed.

Lemma valid_paths_check s :
  map_Forall (λ k _, validate_remote_path k = Ok ()) (st_entries s) → valid_paths s.
Proof. intros Hall k e Hk. by apply (Hall k e). Qed.

Definition versions_uniqueb (a b : FolderState) : bool :=
  bool_decide (map_Forall (λ k e, match st_entries b !! k with
                                  | Some e' => bool_decide (version e = version e') && bool_decide (e ≠ e')
                                  | None => false
                                  end = false) (st_entries a)).

Lemma versions_unique_check a b : versions_uniqueb a b = true → versions_unique a b.
Proof.
  intros Hall%bool_decide_eq_true k e e' Hk Hk' Hv. specialize (Hall k e Hk). simpl in Hall.
  rewrite Hk', bool_decide_true in Hall by done. apply bool_decide_eq_false in Hall.
  by destruct (decide (e = e')).
Qed.

Definition only_fromb (a b c : FolderState) : bool :=
  bool_decide (map_Forall (λ k e, st_entries a !! k = Some e ∨ st_entries b !! k = Some e) (st_entries c)).

Lemma only_from_check a b c : only_fromb a b c = true → only_from a b c.
Proof. intros Hall%bool_decide_eq_true k e Hk. by apply (Hall k e). Qed.

Lemma session_a : session toy_blake3 peer_state (env_of peer_state) None 2 node_a.
Proof.
  apply (session_check _ _ 3).
  - exact peer_state_wf.
  - apply state_inv_check; [decide_now|done|done].
  - split; [|done]. apply index_wfb_sound. vm_compute. reflexivity.
  - split; apply derive_tree_sound.
  - decide_now.
  - vm_compute. reflexivity.
  - vm_compute. lia.
  - vm_compute. reflexivity.
  - repeat constructor; apply collision_check; vm_compute; reflexivity.
Qed.

Lemma session_b : session toy_blake3 state_a (env_of state_a) None 2 node_b.
Proof.
  apply (session_check _ _ 3).
  - apply peer_wf_check; [vm_compute; reflexivity|decide_now|].
    replace (st_tree state_a) with (derive_tree_with toy_blake3 include_all (st_entries state_a))
      by (vm_compute; reflexivity).
    apply derive_tree_sound.
  - apply state_inv_check; [decide_now|done|done].
  - split; [|done]. apply index_wfb_sound. vm_compute. reflexivity.
  - split; apply derive_tree_sound.
  - decide_now.
  - vm_compute. reflexivity.
  - vm_compute. lia.
  - vm_compute. reflexivity.
  - repeat constructor; apply collision_check; vm_compute; reflexivity.
Qed.

Lemma two_nodes_agree_witness :
  ∃ sa ds_a sb ds_b, index_changes sa ds_a state_a ∧ index_changes sb ds_b state_b ∧
    (st_lamport sa + Z.of_nat (length ds_a) < u64_modulus →
     st_lamport sb + Z.of_nat (length ds_b) < u64_modulus → st_entries state_a = st_entries state_b).
Proof.
  apply (two_nodes_agree toy_blake3 toy_blake3_len (env_of peer_state) (env_of state_a) None None 2 2
    node_a met_a node_b met_b).
  - exact session_a.
  - apply meet_reconciles. vm_compute. reflexivity.
  - exact session_b.
  - apply meet_reconciles. vm_compute. reflexivity.
  - reflexivity.
  - split; apply valid_paths_check; decide_now.
  - apply versions_unique_check. vm_compute. reflexivity.
  - apply only_from_check. vm_compute. reflexivity.
Defined.

(** ** The join, and the group *)

Definition peacefulb (a b : Index) : bool :=
  let all := map_to_list a ++ map_to_list b in
  forallb (λ x : string * Entry, forallb (λ y : string * Entry,
    negb (bool_decide (kind x.2 = File ∨ kind x.2 = Symlink) && bool_decide (is_child x.1 y.1))
    || bool_decide (kind y.2 = Tombstone)) all) all &&
  forallb (λ y : string * Entry, negb (bool_decide (kind y.2 = Tombstone)) ||
    match a !! y.1 with Some l => negb (version_gt (version y.2) (version l)) | None => false end)
    (map_to_list b).

Lemma peaceful_check a b : peacefulb a b = true → peaceful a b.
Proof.
  intros [Hd Hn]%andb_true_iff.
  assert (∀ k e, a !! k = Some e ∨ b !! k = Some e → In (k, e) (map_to_list a ++ map_to_list b)) as Hin.
  { intros k e Hk. apply list_elem_of_In, elem_of_app. by rewrite !elem_of_map_to_list. }
  rewrite !forallb_forall in Hd. rewrite forallb_forall in Hn. split.
  - intros k e q v Hk He Hq Hc. specialize (Hd _ (Hin k e Hk)). rewrite forallb_forall in Hd.
    specialize (Hd _ (Hin q v Hq)). cbn [fst snd] in Hd.
    rewrite !(bool_decide_true) in Hd by done. apply orb_true_iff in Hd as [?|Hd]; [done|].
    by apply bool_decide_eq_true in Hd.
  - intros k e Hk Ht. specialize (Hn (k, e)). cbn [fst snd] in Hn.
    rewrite bool_decide_true in Hn by done.
    destruct (a !! k) as [l|]; [|discriminate Hn; by apply list_elem_of_In, elem_of_map_to_list].
    exists l. split; [done|]. rewrite <-version_gt_lt. apply not_true_iff_false, negb_true_iff.
    apply Hn. by apply list_elem_of_In, elem_of_map_to_list.
Qed.

Definition pair_of_nodes (first : bool) : World (F:=MemFs.t) :=
  if first then rw_world node_a else rw_world node_b.

Lemma pair_at_peace : at_peace pair_of_nodes.
Proof.
  assert (∀ i j, versions_unique (w_st (pair_of_nodes i)) (w_st (pair_of_nodes j))) as Hu.
  { intros i j. apply versions_unique_check. destruct i, j; vm_compute; reflexivity. }
  split.
  - intros i j k e e'. apply Hu.
  - intros i j. apply peaceful_check. destruct i, j; vm_compute; reflexivity.
  - intros i. apply valid_paths_check. destruct i; decide_now.
Qed.


Definition both_ways : list (bool * bool) := [(true, false); (false, true)].

Lemma pair_gossips :
  gossips toy_blake3 pair_of_nodes both_ways
    (<[false := rw_world met_b]> (<[true := rw_world met_a]> pair_of_nodes)).
Proof.
  apply (gossips_meet toy_blake3 pair_of_nodes [(true, false)] (<[true := rw_world met_a]> pair_of_nodes)
    false true (env_of state_a) None 2).
  - apply (gossips_meet toy_blake3 pair_of_nodes [] pair_of_nodes true false (env_of peer_state) None 2).
    + apply gossips_nil.
    + exact session_a.
    + apply meet_reconciles. vm_compute. reflexivity.
  - rewrite fn_lookup_insert, fn_lookup_insert_ne by done. exact session_b.
  - rewrite fn_lookup_insert, fn_lookup_insert_ne by done. apply meet_reconciles. vm_compute. reflexivity.
Qed.


