(* ===== verification/Daemon.v ===== *)
(** * The daemon: [src/src/daemon.rs]

    The handlers of the main loop and the task a remote root starts, over the
    state the daemon's tasks share.  They run beside each other and beside the
    RPC server: before each lock, and before each access to an atomic flag, the
    other tasks may change the shared state, which is what [others] does by the
    number of the step.  What runs under one lock is one step.  Log lines and
    the terminal output are left out; an announcement is handed to the publisher
    in [d_sent], and the tasks spawned for it do not touch the shared state. *)

From S2P Require Import Prelude Paths Bytes Utf8 Fs Identity Group Endpoints Addresses.
From S2P Require Import Entries Scan Tree State Messages Sync.

Definition MAX_FILESYSTEM_CHANGED_BYTES : Z := 3000.
Definition SYNC_STATE_HEARTBEAT_SECS : Z := 60.
Definition PEERS_HEARTBEAT_SECS : Z := 300.

(** ** Snapshots *)

Record StateSnapshot : Set := mkSnapshot {
  ss_state_root : Hash;
  ss_live_root : Hash;
  ss_lamport : Z;
  ss_state_nodes : Z;
  ss_live_nodes : Z;
  ss_gc_watermark : GcWatermark
}.

(** [StateSnapshot::from_state]. *)
Definition from_state (s : FolderState) : StateSnapshot :=
  mkSnapshot (root_hash (st_tree s)) (root_hash (st_live_tree s)) (st_lamport s)
    (Z.of_nat (base.size (nodes (st_tree s)))) (Z.of_nat (base.size (nodes (st_live_tree s))))
    (st_gc_watermark s).

(** ** When to publish *)

Record SyncPublishMarker : Set := mkSyncMarker {
  sm_state_root : Hash;
  sm_live_root : Hash;
  sm_lamport : Z;
  sm_gc_watermark : GcWatermark
}.
#[export] Instance SyncPublishMarker_eq_dec : EqDecision SyncPublishMarker.
Proof. solve_decision. Defined.

Definition from_snapshot (s : StateSnapshot) : SyncPublishMarker :=
  mkSyncMarker (ss_state_root s) (ss_live_root s) (ss_lamport s) (ss_gc_watermark s).

Record PeerPublishMarker : Set := mkPeerMarker {
  pm_id : string;
  pm_status : MemberStatus;
  pm_lamport : Z
}.
#[export] Instance PeerPublishMarker_eq_dec : EqDecision PeerPublishMarker.
Proof. solve_decision. Defined.

Definition peer_publish_marker (ms : list MemberEntry) : list PeerPublishMarker :=
  (λ m, mkPeerMarker (m_id m) (m_status m) (m_lamport m)) <$> ms.

(** An [Instant] is a number of nanoseconds. *)
Record PublishTracker : Set := mkTracker {
  last_sync : option SyncPublishMarker;
  last_sync_at : option Z;
  last_peers : option (list PeerPublishMarker);
  last_peers_at : option Z
}.
Definition empty_tracker : PublishTracker := mkTracker None None None None.

(** [at.is_none_or(|at| at.elapsed() >= Duration::from_secs(secs))]. *)
Definition is_due (now : Z) (at_ : option Z) (secs : Z) : bool :=
  match at_ with None => true | Some t => secs * 10 ^ 9 <=? Z.max 0 (now - t) end.

Definition should_publish_sync (now : Z) (t : PublishTracker) (s : StateSnapshot) : bool :=
  bool_decide (last_sync t ≠ Some (from_snapshot s)) ||
  is_due now (last_sync_at t) SYNC_STATE_HEARTBEAT_SECS.
Definition mark_sync (now : Z) (t : PublishTracker) (s : StateSnapshot) : PublishTracker :=
  mkTracker (Some (from_snapshot s)) (Some now) (last_peers t) (last_peers_at t).
Definition should_publish_peers (now : Z) (t : PublishTracker) (ms : list MemberEntry) : bool :=
  bool_decide (last_peers t ≠ Some (peer_publish_marker ms)) ||
  is_due now (last_peers_at t) PEERS_HEARTBEAT_SECS.
Definition mark_peers (now : Z) (t : PublishTracker) (ms : list MemberEntry) : PublishTracker :=
  mkTracker (last_sync t) (last_sync_at t) (Some (peer_publish_marker ms)) (Some now).

(** ** Root reports *)

Record RootReport : Set := mkReport {
  rep_state_root : Hash;
  rep_live_root : Hash;
  rep_lamport : Z
}.
Abbreviation RootReports := (gmap string RootReport) (only parsing).

Definition update_report (origin : string) (report : RootReport) (reports : RootReports)
  : RootReports :=
  match reports !! origin with
  | Some old => if rep_lamport old <=? rep_lamport report then <[origin := report]> reports
                else reports
  | None => <[origin := report]> reports
  end.

Definition all_active_match (reports : RootReports) (local_root : Hash) (ids : list string) : bool :=
  forallb (λ id, match reports !! id with
                 | Some report => bool_decide (rep_state_root report = local_root)
                 | None => false
                 end) ids.

Definition is_synced (reports : RootReports) (peer : string) (local : StateSnapshot) : bool :=
  match reports !! peer with
  | Some report => bool_decide (rep_state_root report = ss_state_root local) &&
                   bool_decide (rep_live_root report = ss_live_root local)
  | None => false
  end.

Definition root_report_from_message (m : GossipMessage) : option (string * RootReport) :=
  match m with
  | SyncState o sr lr l _ _ _ | FilesystemChanged o sr lr l _ => Some (o, mkReport sr lr l)
  | PeersGossip _ _ | EndpointsGossip _ _ _ _ => None
  end.

Definition message_gc_watermark (m : GossipMessage) : option GcWatermark :=
  match m with
  | SyncState _ _ _ _ _ _ wm => Some wm
  | FilesystemChanged _ _ _ _ _ | PeersGossip _ _ | EndpointsGossip _ _ _ _ => None
  end.

(** ** Hints *)

Definition push_hint_prefix (acc : list string * gset string) (prefix : string)
  : list string * gset string :=
  let '(prefixes, seen) := acc in
  let normalized := trim_matches slash prefix in
  if decide (normalized ∈ seen) then (prefixes, seen)
  else (prefixes ++ [normalized], {[normalized]} ∪ seen).

Definition path_prefixes (path : string) : list string :=
  let parts := List.filter (λ p, bool_decide (p ≠ "")) (split_on slash (trim_matches slash path)) in
  (λ end_, join "/" (take end_ parts)) <$> seq 1 (length parts).

(** The prefixes whose nodes a hint should hold, the root first. *)
Definition hint_prefixes (changes : list Change) : list string :=
  (foldl (λ acc c, foldl push_hint_prefix acc (path_prefixes (ch_path c)))
     (push_hint_prefix ([], ∅) "") changes).1.

Definition filesystem_changed (snapshot : StateSnapshot) (origin : string) (hint : option TreeHint)
  : GossipMessage :=
  FilesystemChanged origin (ss_state_root snapshot) (ss_live_root snapshot) (ss_lamport snapshot) hint.

Section Hint.
(** [to_bytes().len()]: the length of the message in JSON. *)
Context (message_len : GossipMessage → Z).

Definition filesystem_changed_len (snapshot : StateSnapshot) (origin : string)
    (hint : option TreeHint) : Z :=
  message_len (filesystem_changed snapshot origin hint).

Fixpoint hint_loop (s : FolderState) (snapshot : StateSnapshot) (origin : string)
    (prefixes : list string) (hint : TreeHint) : TreeHint :=
  match prefixes with
  | [] => hint
  | prefix :: prefixes =>
      match node s prefix with
      | None => hint_loop s snapshot origin prefixes hint
      | Some n =>
          let candidate := mkHint (truncated hint) (hint_nodes hint ++ [n]) in
          if filesystem_changed_len snapshot origin (Some candidate) <=? MAX_FILESYSTEM_CHANGED_BYTES
          then hint_loop s snapshot origin prefixes candidate
          else mkHint true (hint_nodes hint)
      end
  end.

Definition build_tree_hint (s : FolderState) (changes : list Change) (snapshot : StateSnapshot)
    (origin : string) : option TreeHint :=
  let hint := hint_loop s snapshot origin (hint_prefixes changes) (mkHint false []) in
  match hint_nodes hint with [] => None | _ => Some hint end.
End Hint.

(** ** The shared state *)

Section Daemon.
Context {F : Type} `{FsOps F} `{StateCodec} `{GroupJson} `{BookJson} (blake3 : string → Hash).
Context (message_len : GossipMessage → Z).
Abbreviation World := (State.World (F:=F)) (only parsing).

Record Daemon : Type := mkDaemon {
  d_fs : F;
  d_state : FolderState;
  d_group : GroupState;
  d_reports : RootReports;
  d_active : bool;
  d_pending : bool;
  d_current_sync : option NodeId;
  d_book : AddressBook;
  d_sent : list (NodeId * GossipMessage);
  d_probes : list (NodeId * GossipMessage);
  d_tick : nat
}.

Definition d_world (d : Daemon) : World := mkWorld (d_fs d) (d_state d).
Definition set_world (w : World) (d : Daemon) : Daemon :=
  mkDaemon (w_fs w) (w_st w) (d_group d) (d_reports d) (d_active d) (d_pending d)
    (d_current_sync d) (d_book d) (d_sent d) (d_probes d) (d_tick d).
Definition set_ledger (w : GW (F:=F)) (d : Daemon) : Daemon :=
  mkDaemon w.1 (d_state d) w.2 (d_reports d) (d_active d) (d_pending d)
    (d_current_sync d) (d_book d) (d_sent d) (d_probes d) (d_tick d).
Definition set_reports (r : RootReports) (d : Daemon) : Daemon :=
  mkDaemon (d_fs d) (d_state d) (d_group d) r (d_active d) (d_pending d)
    (d_current_sync d) (d_book d) (d_sent d) (d_probes d) (d_tick d).
Definition set_activity (active pending : bool) (d : Daemon) : Daemon :=
  mkDaemon (d_fs d) (d_state d) (d_group d) (d_reports d) active pending
    (d_current_sync d) (d_book d) (d_sent d) (d_probes d) (d_tick d).
Definition set_current_sync (c : option NodeId) (d : Daemon) : Daemon :=
  mkDaemon (d_fs d) (d_state d) (d_group d) (d_reports d) (d_active d) (d_pending d)
    c (d_book d) (d_sent d) (d_probes d) (d_tick d).
Definition set_book (w : F * AddressBook) (d : Daemon) : Daemon :=
  mkDaemon w.1 (d_state d) (d_group d) (d_reports d) (d_active d) (d_pending d)
    (d_current_sync d) w.2 (d_sent d) (d_probes d) (d_tick d).
Definition add_sent (l : list (NodeId * GossipMessage)) (d : Daemon) : Daemon :=
  mkDaemon (d_fs d) (d_state d) (d_group d) (d_reports d) (d_active d) (d_pending d)
    (d_current_sync d) (d_book d) (d_sent d ++ l) (d_probes d) (d_tick d).
Definition add_probe (p : NodeId * GossipMessage) (d : Daemon) : Daemon :=
  mkDaemon (d_fs d) (d_state d) (d_group d) (d_reports d) (d_active d) (d_pending d)
    (d_current_sync d) (d_book d) (d_sent d) (d_probes d ++ [p]) (d_tick d).
Definition set_tick (n : nat) (d : Daemon) : Daemon :=
  mkDaemon (d_fs d) (d_state d) (d_group d) (d_reports d) (d_active d) (d_pending d)
    (d_current_sync d) (d_book d) (d_sent d) (d_probes d) n.

(** What the other tasks do before the [n]-th step of this one. *)
Context (others : nat → Daemon → Daemon).

Definition step : M Daemon () :=
  m_modify (λ d, set_tick (S (d_tick d)) (others (d_tick d) d)).
Definition reads {A} (f : Daemon → A) : M Daemon A := (step ;; m_gets f)%m.
Definition on_folder {A} (c : M World A) : M Daemon A := (step ;; m_zoom d_world set_world c)%m.
Definition on_ledger {A} (c : M (GW (F:=F)) A) : M Daemon A :=
  (step ;; m_zoom (λ d, (d_fs d, d_group d)) set_ledger c)%m.

Definition read_snapshot : M Daemon StateSnapshot := reads (λ d, from_state (d_state d)).

(** *** [SyncActivity] and [StatusState] *)

Definition sync_begin : M Daemon () := (step ;; m_modify (λ d, set_activity true (d_pending d) d))%m.
Definition sync_end : M Daemon () := (step ;; m_modify (λ d, set_activity false (d_pending d) d))%m.
Definition sync_is_active : M Daemon bool := reads d_active.
Definition defer_rescan : M Daemon () :=
  (step ;; m_modify (λ d, set_activity (d_active d) true d))%m.
Definition take_pending_rescan : M Daemon bool :=
  (step ;; λ d, (set_activity (d_active d) false d, Ok (d_pending d)))%m.

Definition begin_sync (peer : NodeId) : M Daemon () :=
  (step ;; m_modify (set_current_sync (Some peer)))%m.
Definition end_sync (peer : NodeId) : M Daemon () :=
  (step ;; m_modify (λ d, if bool_decide (d_current_sync d = Some peer)
                          then set_current_sync None d else d))%m.

(** *** Publishing *)

Definition publish (message : GossipMessage) : M Daemon () :=
  (peers <- reads (λ d, active_peers (d_group d)) ;;
   m_modify (add_sent ((λ p, (p, message)) <$> peers)))%m.

Definition publish_sync_state (s : StateSnapshot) (origin : string) : M Daemon () :=
  publish (SyncState origin (ss_state_root s) (ss_live_root s) (ss_lamport s)
             (ss_state_nodes s) (ss_live_nodes s) (ss_gc_watermark s)).
Definition publish_filesystem_changed (s : StateSnapshot) (origin : string) (hint : option TreeHint)
  : M Daemon () :=
  publish (filesystem_changed s origin hint).
Definition publish_endpoints (interfaces : option (list IpAddr)) (origin : string) (port : Z)
    (name : option string) : M Daemon () :=
  publish (EndpointsGossip origin port (local_endpoints interfaces port) name).
Definition publish_peers (origin : string) : M Daemon () :=
  (ms <- reads (λ d, members (d_group d)) ;; publish (PeersGossip origin ms))%m.

(** *** Local changes *)

(** The blocking part of [apply_filesystem_paths]: under the write lock. *)
Definition scan_paths (origin : string) (paths : list string)
  : M World (option (StateSnapshot * option TreeHint)) :=
  (result <- m_try (match paths with [] => rescan blake3 | _ => apply_paths blake3 paths end) ;;
   match result with
   | Ok [] | Err _ => m_ret None
   | Ok changes =>
       s <- get_st ;;
       let snapshot := from_state s in
       m_ret (Some (snapshot, build_tree_hint message_len s changes snapshot origin))
   end)%m.

Definition apply_filesystem_paths (origin : string) (paths : list string) : M Daemon () :=
  (update <- on_folder (scan_paths origin paths) ;;
   match update with
   | Some (snapshot, hint) => publish_filesystem_changed snapshot origin hint
   | None => m_ret ()
   end)%m.

(** *** Garbage collection *)

Definition merge_remote_gc_watermark (wm : option GcWatermark) : M Daemon (option StateSnapshot) :=
  match wm with
  | None => m_ret None
  | Some wm =>
      if decide (wm = ∅) then m_ret None
      else on_folder (r <- merge_gc_watermark blake3 wm ;;
                      if (r.2 =? 0)%nat then m_ret None
                      else save_entries ;; s <- get_st ;; m_ret (Some (from_state s)))%m
  end.

(** The last locked stretch of [maybe_gc_tombstones]. *)
Definition collect_at (local_root : Hash) : M World (option StateSnapshot) :=
  (s <- get_st ;;
   if bool_decide (root_hash (st_tree s) ≠ local_root) then m_ret None
   else
     pruned <- gc_tombstones_for_converged_root blake3 ;;
     if (pruned =? 0)%nat then m_ret None
     else save_entries ;; s <- get_st ;; m_ret (Some (from_state s)))%m.

Definition maybe_gc_tombstones (origin : string) : M Daemon () :=
  (step ;;
   local <- reads (λ d, (root_hash (st_tree (d_state d)), active_peer_ids (d_group d))) ;;
   let '(local_root, ids) := local in
   converged <- reads (λ d, all_active_match (d_reports d) local_root ids) ;;
   if negb converged then m_ret ()
   else
     snapshot <- on_folder (collect_at local_root) ;;
     match snapshot with
     | Some s => publish_sync_state s origin
     | None => m_ret ()
     end)%m.

(** *** Announcements *)

Definition is_active_origin (origin : string) : M Daemon bool :=
  match node_id_from_str origin with
  | Err _ => m_ret false
  | Ok peer => reads (λ d, is_active_member (d_group d) peer)
  end.

Definition record_root_report (m : GossipMessage) : M Daemon () :=
  match root_report_from_message m with
  | None => m_ret ()
  | Some (origin, report) =>
      (step ;; m_modify (λ d, set_reports (update_report origin report (d_reports d)) d))%m
  end.

(** The [Endpoints] arm of [handle_announcement]. *)
Definition merge_endpoints (state_dir : string) (peer : NodeId) (source_ip : IpAddr) (port : Z)
    (advertised : list string) (name : option string) : M Daemon () :=
  (step ;;
   changed <- (λ d, let '(book, changed) := merge_peer_endpoints (d_book d) peer
                      (Some (format_endpoint source_ip port)) advertised name in
                    (set_book (d_fs d, book) d, Ok changed)) ;;
   if changed : bool then
     book <- reads d_book ;;
     m_ignore (m_zoom d_fs (λ f d, set_book (f, d_book d) d) (save_address_book state_dir book))
   else m_ret ())%m.

(** [maybe_probe_remote_rpc] up to its [tokio::spawn]. *)
Definition maybe_probe_remote_rpc (m : GossipMessage) : M Daemon () :=
  match m with
  | SyncState o _ _ _ _ _ _ | FilesystemChanged o _ _ _ _ =>
      match node_id_from_str o with
      | Err _ => m_ret ()
      | Ok peer => m_modify (add_probe (peer, m))
      end
  | PeersGossip _ _ | EndpointsGossip _ _ _ _ => m_ret ()
  end.

Definition handle_announcement (local_origin state_dir : string) (peer : NodeId)
    (message : GossipMessage) (source_ip : IpAddr) : M Daemon () :=
  (if bool_decide (message_origin message ≠ node_id_to_string peer) then m_ret ()
   else if bool_decide (message_origin message = local_origin) then m_ret ()
   else
     active <- is_active_origin (message_origin message) ;;
     if negb active then m_ret ()
     else
       pruned <- merge_remote_gc_watermark (message_gc_watermark message) ;;
       match pruned with
       | Some snapshot => publish_sync_state snapshot local_origin
       | None => m_ret ()
       end ;;
       step ;;
       record_root_report message ;;
       match message with
       | EndpointsGossip _ port advertised name =>
           merge_endpoints state_dir peer source_ip port advertised name
       | PeersGossip _ ms =>
           on_ledger (merge_members ms) ;; maybe_gc_tombstones local_origin
       | _ => maybe_probe_remote_rpc message
       end)%m.

(** *** The task of a remote root *)

(** What the peer, the disk and the other tasks do during the reconciliation
    that starts at a step. *)
Context (sync_env : nat → Env (F:=F)).

Definition run_reconcile (fuel : nat) (m : GossipMessage) : M Daemon (option (list Change)) :=
  λ d, m_zoom (λ d, mkRW (d_world d) 0) (λ w, set_world (rw_world w))
         (match m with
          | FilesystemChanged _ sr lr l hint =>
              reconcile_with_advertised_root blake3 (sync_env (d_tick d)) fuel
                (mkRemoteRoot sr lr l hint)
          | _ => reconcile_with_peer blake3 (sync_env (d_tick d)) fuel
          end) d.

Definition deferred_rescan (origin : string) : M Daemon () :=
  (pending <- take_pending_rescan ;;
   if pending : bool then apply_filesystem_paths origin [] else m_ret ())%m.

(** The end of the task, once the reconciliation has its result. *)
Definition finish_probe (origin : string) (peer : NodeId)
    (sync_result : IoResult (option (list Change))) : M Daemon () :=
  (match sync_result with
   | Ok None | Ok (Some []) | Err _ => m_ret ()
   | Ok (Some _) => snapshot <- read_snapshot ;; publish_sync_state snapshot origin
   end ;;
   deferred_rescan origin ;;
   sync_end ;;
   end_sync peer ;;
   deferred_rescan origin ;;
   maybe_gc_tombstones origin)%m.

(** [false]: the reconciliation is still going when the fuel runs out. *)
Definition probe_task (fuel : nat) (origin : string) (peer : NodeId) (m : GossipMessage)
  : M Daemon bool :=
  match root_report_from_message m with
  | None => m_ret true
  | Some (_, report) =>
      (step ;;
       local <- read_snapshot ;;
       if bool_decide (rep_state_root report = ss_state_root local) &&
          bool_decide (rep_live_root report = ss_live_root local)
       then finish_probe origin peer (Ok None) ;; m_ret true
       else
         sync_begin ;;
         begin_sync peer ;;
         r <- m_try (run_reconcile fuel m) ;;
         match r with
         | Ok None => m_ret false
         | Ok (Some changes) => finish_probe origin peer (Ok (Some changes)) ;; m_ret true
         | Err e => finish_probe origin peer (Err e) ;; m_ret true
         end)%m
  end.

(** *** The main loop *)

(** What the loop waits for, but for the shutdown signal that ends it. *)
Inductive DaemonEvent : Set :=
  | FsEvent (paths : list string)
  | PeerEvent (event : RpcEvent)
  | AnnounceTick (now : Z).

(** The daemon's own settings: origin, state directory, port, name, and the
    addresses of its interfaces. *)
Record Settings : Set := mkSettings {
  local_origin : string;
  state_dir : string;
  rpc_port : Z;
  node_name : option string;
  interfaces : option (list IpAddr)
}.

Definition announce_self (c : Settings) : M Daemon () :=
  (publish_peers (local_origin c) ;;
   publish_endpoints (interfaces c) (local_origin c) (rpc_port c) (node_name c))%m.

(** One turn of the loop. *)
Definition handle_event (c : Settings) (t : PublishTracker) (e : DaemonEvent)
  : M Daemon PublishTracker :=
  match e with
  | FsEvent paths =>
      (active <- sync_is_active ;;
       (if active : bool then defer_rescan else apply_filesystem_paths (local_origin c) paths) ;;
       m_ret t)%m
  | PeerEvent (PeerJoined _) => (announce_self c ;; m_ret t)%m
  | PeerEvent (Announcement peer message source_ip) =>
      (m_ignore (handle_announcement (local_origin c) (state_dir c) peer message source_ip) ;;
       m_ret t)%m
  | AnnounceTick now =>
      (snapshot <- read_snapshot ;;
       t <- (if should_publish_sync now t snapshot
             then publish_sync_state snapshot (local_origin c) ;; m_ret (mark_sync now t snapshot)
             else m_ret t) ;;
       ms <- reads (λ d, members (d_group d)) ;;
       if should_publish_peers now t ms
       then announce_self c ;; m_ret (mark_peers now t ms)
       else m_ret t)%m
  end.

Fixpoint main_loop (c : Settings) (t : PublishTracker) (events : list DaemonEvent)
  : M Daemon PublishTracker :=
  match events with
  | [] => m_ret t
  | e :: events => (t <- handle_event c t e ;; main_loop c t events)%m
  end.

(** The task [request_peer_lists] spawns for one peer, given its answer. *)
Definition merge_peer_list (origin : string) (answer : IoResult (list MemberEntry)) : M Daemon () :=
  match answer with
  | Err _ => m_ret ()
  | Ok ms =>
      (update <- m_try (on_ledger (merge_members ms)) ;;
       match update with
       | Err _ => m_ret ()
       | Ok update =>
           if mm_changed update && negb (mm_removed_self update)
           then publish_peers origin else m_ret ()
       end)%m
  end.

(** [request_peer_lists]: the tasks it spawns, one for each peer; [get_peers] is
    what the peers answer. *)
Definition request_peer_lists (get_peers : NodeId → IoResult (list MemberEntry)) (origin : string)
    (peers : list NodeId) : list (M Daemon ()) :=
  (λ peer, merge_peer_list origin (get_peers peer)) <$> peers.

(** What [run_sync] does between its set-up and its loop. *)
Definition announce_start (c : Settings) (now : Z) : M Daemon PublishTracker :=
  (snapshot <- read_snapshot ;;
   publish_sync_state snapshot (local_origin c) ;;
   announce_self c ;;
   snapshot <- read_snapshot ;;
   let t := mark_sync now empty_tracker snapshot in
   ms <- reads (λ d, members (d_group d)) ;;
   let t := mark_peers now t ms in
   maybe_gc_tombstones (local_origin c) ;;
   m_ret t)%m.

End Daemon.
