(* ===== verification/DaemonHints.v ===== *)
(** * Hints: lemmas

    The prefixes a hint is built from are those of the nodes a change of its
    paths touches, and the loop that fills it keeps within the budget. *)

From S2P Require Import Prelude Paths Bytes Entries Tree State Messages Daemon.

(** ** Paths and their components *)

Lemma trim_end_append c s t :
  trim_end_matches c t ≠ "" → trim_end_matches c (s +:+ t) = s +:+ trim_end_matches c t.
Proof.
  intros Ht. induction s as [|a s IH]; [done|]. rewrite !append_cons. simpl. rewrite IH.
  destruct (s +:+ trim_end_matches c t) eqn:E; [|done].
  exfalso. apply Ht. by destruct s.
Qed.

Lemma trim_end_free c s : contains c s = false → trim_end_matches c s = s.
Proof.
  induction s as [|a s IH]; [done|]. simpl. intros [Ha Hs]%orb_false_iff.
  apply bool_decide_eq_false in Ha. rewrite (IH Hs). destruct s; [|done]. by rewrite decide_False.
Qed.

(** The components of a path without empty ones. *)
Definition proper_parts (l : list string) : Prop :=
  l ≠ [] ∧ ∀ x, x ∈ l → x ≠ "" ∧ contains slash x = false.

Lemma proper_parts_take l n : proper_parts l → (0 < n)%nat → proper_parts (take n l).
Proof.
  intros [Hne Hl] Hn. split; [destruct l, n; simpl; lia || done|].
  intros x Hx. apply Hl. by eapply elem_of_take in Hx as (? & ? & ?); eapply list_elem_of_lookup_2.
Qed.

Lemma trim_join l : proper_parts l → trim_matches slash (join "/" l) = join "/" l.
Proof.
  intros [Hne Hl]. unfold trim_matches.
  assert (trim_start_matches slash (join "/" l) = join "/" l) as ->.
  { destruct l as [|x l]; [done|]. destruct (Hl x) as [Hx Hs]; [by left|].
    destruct x as [|a x]; [done|]. simpl in Hs. apply orb_false_iff in Hs as [Ha _].
    apply bool_decide_eq_false in Ha.
    destruct l; [|rewrite join_cons, append_cons]; simpl; by rewrite decide_False. }
  assert (trim_end_matches slash (join "/" l) = join "/" l ∧ join "/" l ≠ "") as [? _]; [|done].
  induction l as [|x l IH]; [done|]. destruct (Hl x) as [Hx Hs]; [by left|].
  destruct l as [|y l]; [split; [by apply trim_end_free|done]|].
  destruct IH as [IH IHne]; [done|intros z Hz; apply Hl; by right|].
  rewrite join_cons. split; [|by destruct x].
  rewrite <-append_assoc, trim_end_append; rewrite IH; [done|done].
Qed.

Lemma join_snoc sep l x : l ≠ [] → join sep (l ++ [x]) = join sep l +:+ sep +:+ x.
Proof.
  induction l as [|y l IH]; [done|]. intros _. destruct l as [|z l]; [done|].
  change ((y :: z :: l) ++ [x]) with (y :: z :: (l ++ [x])). rewrite !join_cons.
  change (z :: (l ++ [x])) with ((z :: l) ++ [x]). rewrite IH by done. by rewrite !append_assoc.
Qed.

Lemma parent_join l x :
  l ≠ [] → contains slash x = false → parent_path (join "/" (l ++ [x])) = join "/" l.
Proof.
  intros Hne Hx. unfold parent_path. rewrite join_snoc by done.
  by rewrite (proj2 (rsplit_once_Some slash _ (join "/" l) x)).
Qed.

Lemma parent_single x : contains slash x = false → parent_path x = "".
Proof. intros Hx. unfold parent_path. by rewrite (proj2 (rsplit_once_None slash x)). Qed.

(** The ancestors of a path are the joins of its first components. *)
Lemma ancestors_join l n q :
  proper_parts l → (0 < n ≤ length l)%nat → q ∈ ancestors (join "/" (take n l)) →
  q = "" ∨ ∃ m, (0 < m < n)%nat ∧ q = join "/" (take m l).
Proof.
  intros Hl. induction n as [|n IH]; intros Hn Hq; [lia|].
  destruct (lookup_lt_is_Some_2 l n) as [x Hx]; [lia|].
  destruct (proj2 Hl x) as [_ Hs]; [by eapply list_elem_of_lookup_2|].
  rewrite (take_S_r _ _ _ Hx) in Hq. apply elem_of_ancestors_unfold in Hq.
  destruct (decide (n = O)) as [->|Hn0].
  { left. change (take 0 l ++ [x]) with [x] in Hq.
    change (join "/" [x]) with x in Hq. rewrite (parent_single x Hs) in Hq.
    destruct Hq as [?|[? _]]; done. }
  assert (take n l ≠ []) as Hne by (destruct l, n; simpl in *; done || lia).
  rewrite (parent_join _ _ Hne Hs) in Hq. destruct Hq as [->|[_ Hq]].
  - right. exists n. split; [lia|done].
  - destruct IH as [?|(m & Hm & ->)]; [lia|done|by left|]. right. exists m. split; [lia|done].
Qed.

Lemma path_prefixes_join l :
  proper_parts l →
  path_prefixes (join "/" l) = (λ n, join "/" (take n l)) <$> seq 1 (length l).
Proof.
  intros Hl. unfold path_prefixes. rewrite trim_join by done.
  assert (split_on slash (join "/" l) = l) as ->.
  { apply (split_on_join slash); [apply Hl|]. intros x Hx. by apply Hl. }
  assert (List.filter (λ p, bool_decide (p ≠ "")) l = l) as ->; [|done].
  destruct Hl as [_ Hl]. induction l as [|x l IH]; [done|]. simpl.
  rewrite bool_decide_true by (apply Hl; by left). f_equal. apply IH. intros y Hy. apply Hl. by right.
Qed.

(** ** The prefixes of a hint *)

Lemma push_hint_prefix_spec prefixes seen p :
  NoDup prefixes → (∀ q, q ∈ seen ↔ q ∈ prefixes) →
  let r := push_hint_prefix (prefixes, seen) p in
  NoDup r.1 ∧ (∀ q, q ∈ r.2 ↔ q ∈ r.1) ∧ prefixes `prefix_of` r.1 ∧
  (∀ q, q ∈ r.1 ↔ q ∈ prefixes ∨ q = trim_matches slash p).
Proof.
  intros Hnd Hs. unfold push_hint_prefix. case_decide as Hp; cbn [fst snd].
  - split_and!; [done|done|done|]. intros q. split; [by left|]. intros [?| ->]; [done|by apply Hs].
  - split_and!.
    + apply NoDup_app. split_and!; [done| |apply NoDup_singleton].
      intros q Hq Hq'. apply list_elem_of_singleton in Hq' as ->. by apply Hp, Hs.
    + intros q. rewrite elem_of_union, elem_of_app, elem_of_singleton, list_elem_of_singleton, Hs. tauto.
    + by apply prefix_app_r.
    + intros q. by rewrite elem_of_app, list_elem_of_singleton.
Qed.

Lemma push_all_spec ps prefixes seen :
  NoDup prefixes → (∀ q, q ∈ seen ↔ q ∈ prefixes) →
  let r := foldl push_hint_prefix (prefixes, seen) ps in
  NoDup r.1 ∧ (∀ q, q ∈ r.2 ↔ q ∈ r.1) ∧ prefixes `prefix_of` r.1 ∧
  (∀ q, q ∈ r.1 ↔ q ∈ prefixes ∨ ∃ p, p ∈ ps ∧ q = trim_matches slash p).
Proof.
  revert prefixes seen. induction ps as [|p ps IH]; intros prefixes seen Hnd Hs.
  { simpl. split_and!; [done|done|done|]. intros q. split; [by left|].
    intros [?|(p & Hp & _)]; [done|by apply elem_of_nil in Hp]. }
  cbn [foldl]. pose proof (push_hint_prefix_spec prefixes seen p Hnd Hs) as (Hnd1 & Hs1 & Hpre & Hin).
  destruct (push_hint_prefix (prefixes, seen) p) as [prefixes1 seen1]. cbn [fst snd] in *.
  destruct (IH prefixes1 seen1 Hnd1 Hs1) as (Hnd2 & Hs2 & Hpre2 & Hin2).
  split_and!; [done|done|by etrans|]. intros q. rewrite Hin2, Hin. set_solver.
Qed.

Lemma hint_prefixes_spec changes :
  NoDup (hint_prefixes changes) ∧ head (hint_prefixes changes) = Some "" ∧
  ∀ q, q ∈ hint_prefixes changes ↔
    q = "" ∨ ∃ c p, c ∈ changes ∧ p ∈ path_prefixes (ch_path c) ∧ q = trim_matches slash p.
Proof.
  unfold hint_prefixes. destruct (push_hint_prefix ([], ∅) "") as [prefixes seen] eqn:E0.
  assert (prefixes = [""] ∧ seen = {[""]} ∪ ∅) as [-> ->] by (by injection E0 as <- <-).
  assert (∀ prefixes seen, NoDup prefixes → (∀ q, q ∈ seen ↔ q ∈ prefixes) →
    let r := foldl (λ acc c, foldl push_hint_prefix acc (path_prefixes (ch_path c))) (prefixes, seen) changes in
    NoDup r.1 ∧ prefixes `prefix_of` r.1 ∧ ∀ q, q ∈ r.1 ↔ q ∈ prefixes ∨
      ∃ c p, c ∈ changes ∧ p ∈ path_prefixes (ch_path c) ∧ q = trim_matches slash p) as Hall.
  { clear. induction changes as [|c changes IH]; intros prefixes seen Hnd Hs.
    { simpl. split_and!; [done|done|]. intros q. split; [by left|].
      intros [?|(c & p & Hc & _)]; [done|by apply elem_of_nil in Hc]. }
    cbn [foldl]. destruct (push_all_spec (path_prefixes (ch_path c)) prefixes seen Hnd Hs)
      as (Hnd1 & Hs1 & Hpre & Hin).
    destruct (foldl push_hint_prefix _ _) as [prefixes1 seen1]. cbn [fst snd] in *.
    destruct (IH prefixes1 seen1 Hnd1 Hs1) as (Hnd2 & Hpre2 & Hin2).
    split_and!; [done|by etrans|]. intros q. rewrite Hin2, Hin. set_solver. }
  destruct (Hall [""] ({[""]} ∪ ∅)) as (Hnd & [l Hl] & Hin); [apply NoDup_singleton|set_solver|].
  split_and!; [done|by rewrite Hl|]. intros q. rewrite Hin, list_elem_of_singleton. done.
Qed.

(** Every node a change of these paths touches is wanted. *)
Lemma hint_prefixes_cover changes c q :
  c ∈ changes → Forall (λ p, p ≠ "") (split_on slash (ch_path c)) →
  q ∈ ch_path c :: ancestors (ch_path c) → q ∈ hint_prefixes changes.
Proof.
  intros Hc Hparts Hq. apply hint_prefixes_spec.
  set (l := split_on slash (ch_path c)) in *. pose proof (join_split_on slash (ch_path c)) as Hj.
  fold l in Hj. rewrite Forall_forall in Hparts.
  assert (proper_parts l) as Hl.
  { split; [apply split_on_nonempty|]. intros x Hx. split; [by apply Hparts|by eapply split_on_no_sep]. }
  assert (length l ≠ 0%nat) as Hlen by (destruct l; [by destruct Hl|done]).
  assert (∀ m, (0 < m ≤ length l)%nat → q = join "/" (take m l) →
    q = "" ∨ ∃ c p, c ∈ changes ∧ p ∈ path_prefixes (ch_path c) ∧ q = trim_matches slash p) as Hm.
  { intros m Hm ->. right. exists c, (join "/" (take m l)). split_and!; [done| |].
    - rewrite <-Hj, path_prefixes_join by done. apply list_elem_of_fmap. exists m.
      split; [done|]. apply elem_of_seq. lia.
    - symmetry. apply trim_join, proper_parts_take; [done|lia]. }
  apply elem_of_cons in Hq as [Hq|Hq].
  - apply (Hm (length l)); [lia|]. rewrite firstn_all. congruence.
  - rewrite <-Hj, <-(firstn_all l) in Hq. apply ancestors_join in Hq as [->|(m & Hlt & ->)];
      [by left|apply (Hm m); [lia|done]|done|lia].
Qed.

(** ** The budget *)

Section Hint.
Context (message_len : GossipMessage → Z).
(** JSON prints [true] with one character less than [false]. *)
Context (Htrue : ∀ o sr lr l ns,
  message_len (FilesystemChanged o sr lr l (Some (mkHint true ns))) ≤
  message_len (FilesystemChanged o sr lr l (Some (mkHint false ns)))).
Context (s : FolderState) (snapshot : StateSnapshot) (origin : string).

Abbreviation fits h :=
  (filesystem_changed_len message_len snapshot origin (Some h) ≤ MAX_FILESYSTEM_CHANGED_BYTES).

Lemma hint_loop_spec prefixes ns :
  (ns ≠ [] → fits (mkHint false ns)) →
  let h := hint_loop message_len s snapshot origin prefixes (mkHint false ns) in
  (hint_nodes h ≠ [] → fits h) ∧
  (∃ k, hint_nodes h = ns ++ omap (node s) (take k prefixes)) ∧
  (truncated h = false → hint_nodes h = ns ++ omap (node s) prefixes).
Proof.
  revert ns. induction prefixes as [|p prefixes IH]; intros ns Hns; cbn [hint_loop].
  { split_and!; [done|exists O; by rewrite app_nil_r|by rewrite app_nil_r]. }
  destruct (node s p) as [n|] eqn:En.
  - cbn [truncated hint_nodes]. case_match eqn:Hfit.
    + apply Z.leb_le in Hfit. destruct (IH (ns ++ [n])) as (H1 & [k H2] & H3); [done|].
      split_and!; [done| |].
      * exists (S k). cbn. rewrite En. rewrite H2, <-app_assoc. done.
      * intros Ht. cbn. rewrite En, (H3 Ht), <-app_assoc. done.
    + split_and!; [|exists O; by rewrite app_nil_r|done]. cbn [hint_nodes]. intros Hne.
      etrans; [apply Htrue|by apply Hns].
  - destruct (IH ns Hns) as (H1 & [k H2] & H3). split_and!; [done| |].
    + exists (S k). cbn. by rewrite En.
    + intros Ht. cbn. rewrite En. by apply H3.
Qed.

Lemma build_tree_hint_ok changes h :
  build_tree_hint message_len s changes snapshot origin = Some h →
  fits h ∧ (∃ k, hint_nodes h = omap (node s) (take k (hint_prefixes changes))) ∧
  (truncated h = false → hint_nodes h = omap (node s) (hint_prefixes changes)) ∧ hint_nodes h ≠ [].
Proof.
  unfold build_tree_hint. cbv zeta.
  destruct (hint_loop_spec (hint_prefixes changes) []) as (H1 & [k H2] & H3); [done|].
  set (h0 := hint_loop _ _ _ _ _ _) in *. cbv zeta in *. clearbody h0.
  destruct (hint_nodes h0) as [|n0 ns] eqn:E; [done|]. intros [= <-].
  split_and!; [by apply H1|exists k; by rewrite E|intros Ht; rewrite E; by apply H3|by rewrite E].
Qed.
End Hint.
