(* ===== verification/DaemonProps.v ===== *)
(** * What the daemon guarantees

    Collection waits until every active member reported the collector's own
    root; an announcement acts only for the peer that was authenticated; a hint
    fits its budget and holds nothing but the sender's nodes. *)

From S2P Require Import Prelude Paths Bytes Utf8 Fs Identity Group Endpoints Addresses.
From S2P Require Import Entries Ignore Scan Tree TreeSpec TreeUpdate TreeHash State StateLocal StateIndex.
From S2P Require Import StateTrack StateOps StateInv StateProps StateMerge Messages Rpc Sync.
From S2P Require Import Subtree SyncLemmas SyncConverge Daemon DaemonHints.

(** ** Hints *)

(** C36. build_tree_hint_spec: a hint fits the budget of an announcement, holds
    the sender's nodes for the first of the wanted prefixes - the root and the
    prefixes of the changed paths, each once, the root first - or for all of
    them when it is not truncated; and a peer that receives the hint of a state
    whose tree is sound can use it: every node of it is a node of that tree. *)
Theorem build_tree_hint_spec (message_len : GossipMessage → Z) (blake3 : string → Hash)
    (Htrue : ∀ o sr lr l ns,
      message_len (FilesystemChanged o sr lr l (Some (mkHint true ns))) ≤
      message_len (FilesystemChanged o sr lr l (Some (mkHint false ns))))
    (s : FolderState) (changes : list Change) (snapshot : StateSnapshot) (origin : string) (h : TreeHint)
    (Hh : build_tree_hint message_len s changes snapshot origin = Some h) :
  filesystem_changed_len message_len snapshot origin (Some h) ≤ MAX_FILESYSTEM_CHANGED_BYTES ∧
  NoDup (hint_prefixes changes) ∧ head (hint_prefixes changes) = Some "" ∧
  (∃ k, hint_nodes h = omap (node s) (take k (hint_prefixes changes))) ∧
  (truncated h = false → hint_nodes h = omap (node s) (hint_prefixes changes)) ∧
  (∀ c q, c ∈ changes → Forall (λ p, p ≠ "") (split_on slash (ch_path c)) →
     q ∈ ch_path c :: ancestors (ch_path c) → q ∈ hint_prefixes changes) ∧
  hint_nodes h ≠ [] ∧ hint_honest s (Some h).
Proof.
  pose proof (hint_prefixes_spec changes) as (Hnd & Hhd & _).
  apply (build_tree_hint_ok message_len Htrue) in Hh as (Hfit & [k Hk] & Hall & Hne).
  split_and!; [done|done|done|by exists k|done|apply hint_prefixes_cover|done|].
  intros h' n [= <-] Hn. rewrite Hk in Hn. apply list_elem_of_omap in Hn as (p & _ & Hp).
  unfold node in Hp. by eexists.
Qed.

(** ** Under interference *)

(** Sound trees with one root hash are trees of one index. *)
Lemma same_root_same_index blake3 (Hlen : ∀ m, strlen (blake3 m) = 32%nat) es1 es2 t1 t2 :
  index_wf es1 → index_wf es2 →
  tree_sound blake3 include_all es1 t1 → tree_sound blake3 include_all es2 t2 →
  collision_free blake3 (tree_messages include_all es1 t1 ++ tree_messages include_all es2 t2) →
  root_hash t1 = root_hash t2 → es1 = es2.
Proof.
  intros Hw1 Hw2 Ht1 Ht2 Hfree Hroot. apply map_eq. intros k. apply option_eq. intros e.
  split; intros Hk.
  - by eapply (same_root_same_entries blake3 Hlen include_all es1 es2 t1 t2).
  - eapply (same_root_same_entries blake3 Hlen include_all es2 es1 t2 t1); [done..| |done|done|done].
    intros x y Hx Hy. apply Hfree; rewrite elem_of_app in *; tauto.
Qed.

Section Daemon.
Context {F : Type} `{FsOps F} `{StateCodec} `{GroupJson} `{BookJson} (blake3 : string → Hash).
Context (others : nat → Daemon (F:=F) → Daemon (F:=F)).
Abbreviation Daemon := (Daemon (F:=F)).
Implicit Types d : Daemon.

(** Other tasks ran, or this one handed announcements to the publisher. *)
Definition meanwhile d d' : Prop :=
  (∃ n, d' = set_tick (S n) (others n d)) ∨ ∃ l, d' = add_sent l d.

Lemma reads_inv {A} (f : Daemon → A) d d' r :
  reads others f d = (d', r) → meanwhile d d' ∧ r = Ok (f d').
Proof. intros [= <- <-]. split; [left; by eexists|done]. Qed.

Lemma on_folder_inv {A} (c : M (World (F:=F)) A) d d' r :
  on_folder others c d = (d', r) →
  ∃ d1 w, meanwhile d d1 ∧ c (d_world d1) = (w, r) ∧ d' = set_world w d1.
Proof.
  unfold on_folder, step, m_bind, m_modify, m_zoom. set (d1 := set_tick _ _).
  destruct (c (d_world d1)) as [w r1] eqn:E. intros [= <- <-]. exists d1, w.
  split_and!; [left; by eexists|done|done].
Qed.

Lemma publish_inv m d d' r :
  publish others m d = (d', r) → rtc meanwhile d d' ∧ r = Ok ().
Proof.
  unfold publish, m_bind. destruct (reads others _ d) as [d1 r1] eqn:E.
  apply reads_inv in E as [Hd ->]. intros [= <- <-]. split; [|done].
  eapply rtc_l; [exact Hd|]. apply rtc_once. right. by eexists.
Qed.

Lemma set_world_same d : set_world (d_world d) d = d.
Proof. by destruct d. Qed.

(** *** Collection *)

Lemma collect_at_cases root (w w' : World (F:=F)) r :
  collect_at blake3 root w = (w', r) →
  (∃ o, r = Ok o) ∧
  (w' = w ∨ root_hash (st_tree (w_st w)) = root ∧ w_st w' = (gc_result blake3 (w_st w)).1).
Proof.
  unfold collect_at, m_bind, get_st, m_gets. case_bool_decide as Hroot.
  { intros [= <- <-]. split; [by eexists|by left]. }
  destruct (gc_converged_pure blake3 w) as [f ->].
  case_match; [intros [= <- <-]; split; [by eexists|by right]|].
  destruct (save_entries _) as [w2 r2] eqn:Es. apply save_entries_st in Es as [Hst <-].
  intros [= <- <-]. split; [by eexists|]. right. by rewrite Hst.
Qed.

Lemma all_active_match_true reports root ids :
  all_active_match reports root ids = true →
  ∀ id, id ∈ ids → ∃ rep, reports !! id = Some rep ∧ rep_state_root rep = root.
Proof.
  unfold all_active_match. rewrite forallb_forall. intros Hall id Hid%list_elem_of_In%Hall.
  destruct (reports !! id) as [rep|]; [|done]. apply bool_decide_eq_true in Hid. eauto.
Qed.

Lemma maybe_gc_cases origin d d' r :
  maybe_gc_tombstones blake3 others origin d = (d', r) →
  r = Ok () ∧
  (rtc meanwhile d d' ∨ ∃ d1 d2 d3 w,
     rtc meanwhile d d1 ∧ meanwhile d1 d2 ∧ meanwhile d2 d3 ∧ rtc meanwhile (set_world w d3) d' ∧
     (∀ id, id ∈ active_peer_ids (d_group d1) → ∃ rep, d_reports d2 !! id = Some rep ∧
        rep_state_root rep = root_hash (st_tree (d_state d3))) ∧
     w_st w = (gc_result blake3 (d_state d3)).1).
Proof.
  intros Hrun. unfold maybe_gc_tombstones in Hrun. unfold m_bind at 1 in Hrun.
  destruct (step others d) as [d0 r0] eqn:E0. injection E0 as E0 <-.
  assert (meanwhile d d0) as M0 by (left; by eexists).
  unfold m_bind at 1 in Hrun. destruct (reads others _ d0) as [d1 r1] eqn:E1.
  apply reads_inv in E1 as [M1 ->]. unfold m_bind at 1 in Hrun. cbv beta iota in Hrun.
  destruct (reads others _ d1) as [d2 r2] eqn:E2. apply reads_inv in E2 as [M2 ->].
  assert (rtc meanwhile d d1) as R1 by (eapply rtc_l; [exact M0|by apply rtc_once]).
  destruct (all_active_match _ _ _) eqn:Hall; cbn [negb] in Hrun.
  2:{ injection Hrun as <- <-. split; [done|]. left. by eapply rtc_r. }
  unfold m_bind in Hrun. destruct (on_folder others _ d2) as [d3' r3] eqn:E3.
  apply on_folder_inv in E3 as (d3 & w & M3 & Hc & ->).
  apply collect_at_cases in Hc as [[o ->] Hc].
  assert (r = Ok () ∧ rtc meanwhile (set_world w d3) d') as [-> R3].
  { destruct o as [s|]; [|by injection Hrun as <- <-]. unfold publish_sync_state in Hrun.
    apply publish_inv in Hrun as [? ->]. done. }
  split; [done|]. destruct Hc as [->|[Hroot Hw]].
  - left. rewrite set_world_same in R3. etrans; [exact R1|].
    eapply rtc_l; [exact M2|]. by eapply rtc_l.
  - right. exists d1, d2, d3, w. split_and!; [done..| |done].
    intros id Hid. destruct (all_active_match_true _ _ _ Hall id Hid) as (rep & Hrep & Hr).
    exists rep. split; [done|]. rewrite Hr. symmetry. exact Hroot.
Qed.
End Daemon.

(** ** Announcements *)

(** [kept f c]: [c] leaves the part [f] of the daemon alone, provided the other
    tasks do. *)
Section Kept.
Context {F : Type} `{FsOps F} `{StateCodec} `{GroupJson} `{BookJson} (blake3 : string → Hash).
Context (others : nat → Daemon (F:=F) → Daemon (F:=F)).
Context {B : Type} (f : Daemon (F:=F) → B).
Context (Hothers : ∀ n d, f (others n d) = f d) (Htick : ∀ n d, f (set_tick n d) = f d).

Definition kept {A} (c : M (Daemon (F:=F)) A) : Prop := ∀ d, f (c d).1 = f d.

Lemma kept_ret {A} (a : A) : kept (m_ret a).
Proof. done. Qed.
Lemma kept_bind {A A'} (c : M (Daemon (F:=F)) A) (k : A → M (Daemon (F:=F)) A') :
  kept c → (∀ a, kept (k a)) → kept (m_bind c k).
Proof.
  intros Hc Hk d. specialize (Hc d). unfold m_bind. destruct (c d) as [d1 [a|e]]; [|done].
  cbn [fst] in Hc. by rewrite Hk.
Qed.
Lemma kept_modify (g : Daemon (F:=F) → Daemon (F:=F)) : (∀ d, f (g d) = f d) → kept (m_modify g).
Proof. intros Hg d. apply Hg. Qed.
Lemma kept_ignore {A} (c : M (Daemon (F:=F)) A) : kept c → kept (m_ignore c).
Proof. intros Hc d. specialize (Hc d). unfold m_ignore. by destruct (c d). Qed.
Lemma kept_zoom {T A} (get : Daemon (F:=F) → T) (set : T → Daemon (F:=F) → Daemon (F:=F)) (c : M T A) :
  (∀ t d, f (set t d) = f d) → kept (m_zoom get set c).
Proof. intros Hs d. unfold m_zoom. destruct (c (get d)). apply Hs. Qed.
Lemma kept_step : kept (step others).
Proof. intros d. cbn. by rewrite Htick, Hothers. Qed.
Lemma kept_reads {A} (g : Daemon (F:=F) → A) : kept (reads others g).
Proof. intros d. cbn. by rewrite Htick, Hothers. Qed.

Context (Hworld : ∀ w d, f (set_world w d) = f d) (Hsent : ∀ l d, f (add_sent l d) = f d).
Lemma kept_on_folder {A} (c : M (World (F:=F)) A) : kept (on_folder others c).
Proof. apply kept_bind; [apply kept_step|]. intros _. by apply kept_zoom. Qed.
Lemma kept_publish m : kept (publish others m).
Proof. apply kept_bind; [apply kept_reads|]. intros ps. by apply kept_modify. Qed.
Lemma kept_merge_watermark wm : kept (merge_remote_gc_watermark blake3 others wm).
Proof.
  unfold merge_remote_gc_watermark. destruct wm as [wm|]; [|apply kept_ret].
  case_decide; [apply kept_ret|apply kept_on_folder].
Qed.
Lemma kept_maybe_gc origin : kept (maybe_gc_tombstones blake3 others origin).
Proof.
  apply kept_bind; [apply kept_step|]. intros _. apply kept_bind; [apply kept_reads|].
  intros [root ids]. apply kept_bind; [apply kept_reads|]. intros [|]; [|apply kept_ret].
  apply kept_bind; [apply kept_on_folder|]. intros [s|]; [apply kept_publish|apply kept_ret].
Qed.
Lemma kept_active_origin origin : kept (is_active_origin others origin).
Proof. unfold is_active_origin. destruct (node_id_from_str origin); [apply kept_reads|apply kept_ret]. Qed.

(** The handler, given what its other updates do to the part. *)
Lemma kept_handle local_origin state_dir peer message source_ip :
  (∀ o rep, o = node_id_to_string peer → root_report_from_message message = Some (o, rep) →
     ∀ d, f (set_reports (update_report o rep (d_reports d)) d) = f d) →
  (∀ port adv name d book, book = (merge_peer_endpoints (d_book d) peer
       (Some (format_endpoint source_ip port)) adv name).1 → f (set_book (d_fs d, book) d) = f d) →
  (∀ fs d, f (set_book (fs, d_book d) d) = f d) →
  (∀ w d, f (set_ledger w d) = f d) →
  (∀ d, node_id_from_str (node_id_to_string peer) = Ok peer → f (add_probe (peer, message) d) = f d) →
  strlen peer = 32%nat →
  kept (handle_announcement blake3 others local_origin state_dir peer message source_ip).
Proof.
  intros Hrep Hbook Hfs Hledger Hprobe Hpeer. unfold handle_announcement.
  case_bool_decide as Ho; [apply kept_ret|].
  case_bool_decide; [apply kept_ret|].
  apply kept_bind; [apply kept_active_origin|]. intros [|]; [|apply kept_ret].
  apply kept_bind; [apply kept_merge_watermark|]. intros pruned.
  apply kept_bind; [destruct pruned; [apply kept_publish|apply kept_ret]|]. intros _.
  apply kept_bind; [apply kept_step|]. intros _.
  apply kept_bind.
  { unfold record_root_report. destruct (root_report_from_message message) as [[o rep]|] eqn:E; [|apply kept_ret].
    apply kept_bind; [apply kept_step|]. intros _. apply kept_modify. apply (Hrep o rep); [|done].
    rewrite <-Ho. destruct message; simpl in *; congruence. }
  intros _. pose proof (node_id_round_trip peer Hpeer) as Hparse.
  assert (kept (maybe_probe_remote_rpc message)) as Hmp.
  { unfold maybe_probe_remote_rpc. destruct message; simpl in Ho; subst; try apply kept_ret;
      rewrite Hparse; apply kept_modify; auto. }
  destruct message; [exact Hmp|exact Hmp| |].
  - apply kept_bind; [apply kept_bind; [apply kept_step|]; intros _; by apply kept_zoom|].
    intros _. apply kept_maybe_gc.
  - apply kept_bind; [apply kept_step|]. intros _. apply kept_bind.
    { intros d. destruct (merge_peer_endpoints (d_book d) peer _ _ _) as [book changed] eqn:E.
      cbn [fst]. eapply (Hbook _ _ _ d book). by rewrite E. }
    intros [|]; [|apply kept_ret]. apply kept_bind; [apply kept_reads|]. intros book.
    apply kept_ignore, kept_zoom. intros fs d. apply Hfs.
Qed.
End Kept.

(** C13. gc_after_convergence: whatever the other tasks do in between, tombstones
    are collected only at a moment [d3] when the local root is one that every
    active member had reported; a member whose report was the root of a sound
    tree of its index had exactly the collector's index, tombstones included.
    The collection removes all of them and nothing else; otherwise this task
    leaves the shared state to the others. *)
Theorem gc_after_convergence {F : Type} `{FsOps F} `{StateCodec} `{GroupJson} `{BookJson}
    (blake3 : string → Hash) (Hlen : ∀ m, strlen (blake3 m) = 32%nat)
    (others : nat → Daemon (F:=F) → Daemon (F:=F)) (origin : string) (d d' : Daemon (F:=F))
    (r : IoResult ()) (Hrun : maybe_gc_tombstones blake3 others origin d = (d', r)) :
  r = Ok () ∧
  (rtc (meanwhile others) d d' ∨ ∃ d1 d2 d3 w,
     rtc (meanwhile others) d d1 ∧ meanwhile others d1 d2 ∧ meanwhile others d2 d3 ∧
     rtc (meanwhile others) (set_world w d3) d' ∧
     (∀ k e, st_entries (w_st w) !! k = Some e ↔
             st_entries (d_state d3) !! k = Some e ∧ kind e ≠ Tombstone) ∧
     ∀ id, id ∈ active_peer_ids (d_group d1) →
       ∃ rep, d_reports d2 !! id = Some rep ∧
         ∀ es t, rep_state_root rep = root_hash t → index_wf es → tree_sound blake3 include_all es t →
           index_wf (st_entries (d_state d3)) →
           tree_sound blake3 include_all (st_entries (d_state d3)) (st_tree (d_state d3)) →
           collision_free blake3 (tree_messages include_all es t ++
             tree_messages include_all (st_entries (d_state d3)) (st_tree (d_state d3))) →
           es = st_entries (d_state d3)).
Proof.
  apply maybe_gc_cases in Hrun as [-> Hrun]. split; [done|].
  destruct Hrun as [?|(d1 & d2 & d3 & w & R1 & R2 & R3 & R4 & Hrep & Hw)]; [by left|]. right.
  exists d1, d2, d3, w. split_and!; [done..| |].
  - intros k e. rewrite Hw. apply gc_result_entries.
  - intros id Hid. destruct (Hrep id Hid) as (rep & Hr & Hroot). exists rep. split; [done|].
    intros es t Hst ?????. eapply same_root_same_index; [done..|]. congruence.
Qed.

Lemma update_report_other o rep reports q : q ≠ o → update_report o rep reports !! q = reports !! q.
Proof.
  intros Hq. unfold update_report. destruct (reports !! o); [case_match; [|done]|];
    by rewrite lookup_insert_ne.
Qed.

Lemma merge_peer_endpoints_other book peer seen adv name q :
  q ≠ peer → (merge_peer_endpoints book peer seen adv name).1 !! q = book !! q.
Proof.
  intros Hq. unfold merge_peer_endpoints. destruct (merged_endpoints seen adv); [done|].
  destruct (book !! peer); [case_match; [done|]|]; by apply lookup_insert_ne.
Qed.

(** C14. announcement_authentic: an announcement whose origin is not the peer the
    connection authenticated, or is this node, changes nothing; nor does one of
    a peer that is not an active member when the ledger is read.  Whatever its
    contents, and whatever the other tasks do, it replaces no root report but
    the sender's and no address but the sender's, and the only reconciliation
    it can start is with the sender. *)
Theorem announcement_authentic {F : Type} `{FsOps F} `{StateCodec} `{GroupJson} `{BookJson}
    (blake3 : string → Hash) (others : nat → Daemon (F:=F) → Daemon (F:=F))
    (local_origin state_dir : string) (peer : NodeId) (message : GossipMessage) (source_ip : IpAddr)
    (d d' : Daemon (F:=F)) (r : IoResult ()) (Hpeer : strlen peer = 32%nat)
    (Hrun : handle_announcement blake3 others local_origin state_dir peer message source_ip d = (d', r)) :
  (message_origin message ≠ node_id_to_string peer ∨ message_origin message = local_origin →
   d' = d ∧ r = Ok ()) ∧
  (let d1 := (step others d).1 in
   message_origin message = node_id_to_string peer → message_origin message ≠ local_origin →
   is_active_member (d_group d1) peer = false → d' = d1 ∧ r = Ok ()) ∧
  (∀ q, q ≠ node_id_to_string peer → (∀ n d, d_reports (others n d) !! q = d_reports d !! q) →
   d_reports d' !! q = d_reports d !! q) ∧
  (∀ q, q ≠ peer → (∀ n d, d_book (others n d) !! q = d_book d !! q) → d_book d' !! q = d_book d !! q) ∧
  (let with_others d := filter (λ probe, probe.1 ≠ peer) (d_probes d) in
   (∀ n d, with_others (others n d) = with_others d) → with_others d' = with_others d).
Proof.
  split_and!.
  - intros Hno. unfold handle_announcement in Hrun. case_bool_decide; [by injection Hrun as <- <-|].
    destruct Hno as [?|Hloc]; [done|]. rewrite bool_decide_true in Hrun by done. by injection Hrun as <- <-.
  - intros d1 Ho Hloc Hno. unfold handle_announcement in Hrun.
    rewrite bool_decide_false in Hrun by (intros Hx; by apply Hx).
    rewrite bool_decide_false in Hrun by done. unfold is_active_origin in Hrun.
    rewrite Ho, (node_id_round_trip peer Hpeer) in Hrun. unfold m_bind at 1 in Hrun.
    unfold reads, m_bind at 1 in Hrun. unfold d1 in *. destruct (step others d) as [d2 r2] eqn:E.
    injection E as E <-. unfold m_gets in Hrun. cbn [fst] in *. rewrite Hno in Hrun.
    by injection Hrun as <- <-.
  - intros q Hq Hoth. change d' with (d', r).1. rewrite <-Hrun.
    apply (kept_handle blake3 others (λ d, d_reports d !! q)); try done.
    intros o rep -> _ d0. cbn. by apply update_report_other.
  - intros q Hq Hoth. change d' with (d', r).1. rewrite <-Hrun.
    apply (kept_handle blake3 others (λ d, d_book d !! q)); try done.
    intros port adv name d0 book ->. cbn. by apply merge_peer_endpoints_other.
  - intros with_others Hoth. change d' with (d', r).1. rewrite <-Hrun.
    apply (kept_handle blake3 others with_others); try done.
    intros d0 _. unfold with_others. cbn. rewrite filter_app, filter_cons_False by (intros Hx; by apply Hx).
    apply app_nil_r.
Qed.
