(* ===== verification/DaemonWitness.v ===== *)
(** * The daemon's theorems at concrete inputs *)

From S2P Require Import Prelude Paths Bytes Utf8 Fs Identity Group Endpoints Addresses.
From S2P Require Import Entries Ignore Scan Tree TreeSpec TreeHash Samples State StateProps StateWitness.
From S2P Require Import GroupWitness Messages Rpc RpcWitness Sync SyncConverge SyncWitness.
From S2P Require Import Daemon DaemonHints DaemonProps.

#[export] Instance toy_book_json : BookJson := {| ser_book := λ _, None; de_book := λ _, None |}.

(** A message length that counts the nodes of the hint. *)
Definition toy_message_len (m : GossipMessage) : Z :=
  match m with
  | FilesystemChanged _ _ _ _ (Some h) =>
      1000 * Z.of_nat (length (hint_nodes h)) + (if truncated h then 4 else 5)
  | _ => 0
  end.

Definition docs_change : Change :=
  mkChange "docs/a.txt" None (file_entry "docs/a.txt" "one" (ver 2 "n1")).
Definition docs_hint : TreeHint :=
  match build_tree_hint toy_message_len peer_state [docs_change] (from_state peer_state) "n9" with
  | Some h => h
  | None => mkHint false []
  end.

Lemma build_tree_hint_spec_witness :
  hint_nodes docs_hint ≠ [] ∧ hint_honest peer_state (Some docs_hint).
Proof.
  apply (build_tree_hint_spec toy_message_len toy_blake3) with (changes := [docs_change])
    (snapshot := from_state peer_state) (origin := "n9").
  - intros o sr lr l ns. unfold toy_message_len. cbn. lia.
  - vm_compute. reflexivity.
Defined.

(** ** Collection *)

Definition quiet (n : nat) (d : Daemon (F:=MemFs.t)) : Daemon := d.

(** One other member, [id2], has reported the root of this index. *)
Definition gc_state : FolderState := derived_state sample_entries 3.
Definition converged_daemon : Daemon (F:=MemFs.t) :=
  mkDaemon sync_fs gc_state (mkGroup "/g/peers.json" id1 ledger1)
    (list_to_map ((λ id, (id, mkReport (root_hash (st_tree gc_state)) (root_hash (st_live_tree gc_state)) 3))
       <$> active_peer_ids (mkGroup "/g/peers.json" id1 ledger1)))
    false false None ∅ [] [] 0.
Definition gc_run := maybe_gc_tombstones toy_blake3 quiet "n9" converged_daemon.

Lemma gc_after_convergence_witness :
  gc_run.2 = Ok () ∧
  (rtc (meanwhile quiet) converged_daemon gc_run.1 ∨ ∃ d3 w,
     rtc (meanwhile quiet) (set_world w d3) gc_run.1 ∧
     ∀ k e, st_entries (w_st w) !! k = Some e → kind e ≠ Tombstone).
Proof.
  destruct (gc_after_convergence toy_blake3 toy_blake3_len quiet "n9" converged_daemon gc_run.1 gc_run.2)
    as [Hr [Hq|(d1 & d2 & d3 & w & _ & _ & _ & Hrun & Hall & _)]].
  - apply surjective_pairing.
  - split; [exact Hr|left; exact Hq].
  - split; [exact Hr|right]. exists d3, w. split; [exact Hrun|].
    intros k e Hk. apply Hall in Hk. exact (proj2 Hk).
Defined.

(** The tombstone is gone, and the new root is announced to the other member. *)
Example gc_run_collects :
  st_entries gc_state !! "old.txt" ≠ None ∧
  st_entries (d_state gc_run.1) = index_of [file_entry "b.txt" "bee" (ver 3 "n1")] ∧
  length (d_sent gc_run.1) = length (active_peers (d_group converged_daemon)).
Proof. vm_compute. split_and!; [discriminate|reflexivity|reflexivity]. Qed.

(** ** Announcements *)

Definition id2_bytes : NodeId := be_bytes 32 (10 * 2 ^ 248).

(** The other member announces a root in the name of a third node. *)
Definition forged : GossipMessage :=
  FilesystemChanged (node_id_to_string stranger) (toy_blake3 "x") (toy_blake3 "y") 9 None.
Definition forged_run :=
  handle_announcement toy_blake3 quiet id1 "/g" id2_bytes forged toy_ip converged_daemon.
(** And one of its own. *)
Definition genuine : GossipMessage :=
  FilesystemChanged (node_id_to_string id2_bytes) (toy_blake3 "x") (toy_blake3 "y") 9 None.
Definition genuine_run :=
  handle_announcement toy_blake3 quiet id1 "/g" id2_bytes genuine toy_ip converged_daemon.

Lemma announcement_authentic_witness :
  forged_run.1 = converged_daemon ∧
  d_reports genuine_run.1 !! node_id_to_string stranger =
    d_reports converged_daemon !! node_id_to_string stranger.
Proof.
  split.
  - apply (announcement_authentic toy_blake3 quiet id1 "/g" id2_bytes forged toy_ip
      converged_daemon forged_run.1 forged_run.2).
    + vm_compute. reflexivity.
    + apply surjective_pairing.
    + left. intros Heq. vm_compute in Heq. discriminate Heq.
  - apply (announcement_authentic toy_blake3 quiet id1 "/g" id2_bytes genuine toy_ip
      converged_daemon genuine_run.1 genuine_run.2).
    + vm_compute. reflexivity.
    + apply surjective_pairing.
    + intros Heq. vm_compute in Heq. discriminate Heq.
    + intros n d. reflexivity.
Defined.

(** The genuine one is recorded and starts a reconciliation with its sender. *)
Example genuine_acts :
  d_reports genuine_run.1 !! node_id_to_string id2_bytes =
    Some (mkReport (toy_blake3 "x") (toy_blake3 "y") 9) ∧
  d_probes genuine_run.1 = [(id2_bytes, genuine)].
Proof. vm_compute. split; reflexivity. Qed.

(** ** A deferred rescan that nobody runs *)

(** A reconciliation is about to finish; the folder has a file the index lacks. *)
Definition syncing_daemon : Daemon (F:=MemFs.t) :=
  mkDaemon sample_fs (sample_state ∅ 0 ∅) (mkGroup "/g/peers.json" id1 ∅) ∅ true false
    (Some id2_bytes) ∅ [] [] 0.
Definition toy_settings : Settings := mkSettings "n1" "/g" 7420 None None.

(** The end of the reconciliation runs between the loop's look at the flag and
    its deferral of the rescan. *)
Definition finishing (n : nat) (d : Daemon (F:=MemFs.t)) : Daemon :=
  if (n =? 1)%nat
  then (finish_probe toy_blake3 toy_message_len quiet "n1" id2_bytes (Ok None) d).1 else d.
Definition deferring_run :=
  handle_event toy_blake3 toy_message_len finishing toy_settings empty_tracker
    (FsEvent ["/f/b.txt"]) syncing_daemon.

(** A file event that arrives as a reconciliation ends
    can be deferred after that reconciliation looked for deferred rescans for
    the last time: then no reconciliation is active or about to start, the flag
    is set and no task is left to clear it, and a file the next rescan would
    add is missing from the index. *)
Theorem deferred_rescan_lost :
  d_active syncing_daemon = true ∧ d_pending syncing_daemon = false ∧
  d_active deferring_run.1 = false ∧ d_pending deferring_run.1 = true ∧
  d_probes deferring_run.1 = [] ∧ d_current_sync deferring_run.1 = None ∧
  st_entries (d_state deferring_run.1) = ∅ ∧
  match (rescan toy_blake3 (d_world deferring_run.1)).2 with
  | Ok changes => ch_path <$> changes = ["b.txt"]
  | Err _ => False
  end.
Proof. vm_compute. split_and!; reflexivity. Qed.
