(* ===== verification/Commands.v ===== *)
(** * One-shot commands: [src/src/commands.rs]

    [invite], [peers], [dump-state], [remove] and [join] over the disk and the
    network, with what they print as their result.  Process control - the daemon
    lock, [stop] and [status] - is in [Process]. *)

From S2P Require Import Prelude Paths Bytes Utf8 Fs Identity Ticket Group Endpoints Addresses.
From S2P Require Import Entries Scan Tree State Transport Messages Rpc.

Definition KEY_FILE : string := "private.key".
Definition PEERS_FILE : string := "peers.json".
Definition INVITES_FILE : string := "invites.json".

(** [u64::saturating_mul]. *)
Definition saturating_mul (a b : Z) : Z := Z.min (u64_modulus - 1) (a * b).

(** Does an entry belong to the dump of a prefix? *)
Definition entry_matches_prefix (e : Entry) (prefix : option string) : bool :=
  match prefix with
  | None => true
  | Some p => bool_decide (path e = p) ||
              match strip_prefix p (path e) with
              | Some rest => starts_with "/" rest
              | None => false
              end
  end.

(** [entry_dump_json]: the object of an entry; its text is that of [serde_json],
    which may fail. *)
Inductive JsonValue : Set := JsonNull | JsonString (s : string) | JsonNumber (n : Z).
Class DumpJson := dump_json : list (string * JsonValue) → IoResult string.

Definition entry_kind_name (k : EntryKind) : string :=
  match k with
  | File => "file"
  | Dir => "dir"
  | Tombstone => "tombstone"
  | Symlink => "symlink"
  end.

Definition entry_dump_json `{DumpJson} (e : Entry) : IoResult string :=
  let or_null o := from_option JsonString JsonNull o in
  dump_json
    [("path", JsonString (path e)); ("kind", JsonString (entry_kind_name (kind e)));
     ("hash", or_null (hex <$> content_hash e)); ("target", or_null (symlink_target e));
     ("size", JsonNumber (size e)); ("mode", from_option JsonNumber JsonNull (mode e));
     ("lamport", JsonNumber (lamport (version e))); ("origin", JsonString (origin (version e)))].

Section Commands.
Context {F : Type} `{FsOps F} `{GroupJson} `{BookJson} `{StateCodec} `{Ed25519}.
Context (blake3 : string → string).

(** The identity and the ledger of a folder; [random] as in [load_or_create]. *)
Definition open_ledger (state_dir : string) (random : IoResult string) : M F (NodeId * GroupState) :=
  (identity <- load_or_create (path_join state_dir KEY_FILE) random ;;
   group <- load_or_init (path_join state_dir PEERS_FILE) (node_id identity) ;;
   m_ret (node_id identity, group))%m.

(** [create_invite]: the ticket it prints.  [random_secret] is the outcome of
    [generate_secret]; the sum of the expiry wraps in a release build. *)
Definition create_invite (state_dir : string) (expire_secs : Z) (endpoint_override : list string)
    (interfaces : option (list IpAddr)) (random random_secret : IoResult string) : M F string :=
  (own <- open_ledger state_dir random ;;
   ticket_endpoints <-
     match endpoint_override with
     | [] =>
         port <- load_port state_dir ;;
         port <- m_lift (ok_or OtherError port) ;;
         match local_endpoints interfaces port with
         | [] => m_err OtherError
         | detected => m_ret detected
         end
     | _ => m_ret endpoint_override
     end ;;
   secret_bytes <- m_lift random_secret ;;
   let secret_hex := hex secret_bytes in
   now <- now_ms ;;
   let expires_at := add64 now (saturating_mul expire_secs 1000) in
   add_invite blake3 (path_join state_dir INVITES_FILE) secret_hex expires_at ;;
   m_lift (encode_ticket own.1 secret_bytes ticket_endpoints))%m.

(** [peers_cmd]: status, id and the mark of this node. *)
Definition peers_cmd (state_dir : string) (random : IoResult string)
  : M F (list (MemberStatus * string * bool)) :=
  (own <- open_ledger state_dir random ;;
   m_ret ((λ m, (m_status m, m_id m, bool_decide (m_id m = node_id_to_string own.1)))
            <$> members own.2))%m.

(** [remove_peer_cmd]: the id removed; [None] is the exit with status 1. *)
Definition remove_peer_cmd (state_dir : string) (random : IoResult string) (target : string)
  : M F (option string) :=
  (own <- open_ledger state_dir random ;;
   m_zoom (λ f, (f, own.2)) (λ w _, w.1) (remove_peer target))%m.

(** [dump_state_cmd]: the lines it prints, in the order of their paths. *)
Definition dump_state_cmd `{DumpJson} (folder : string) (prefix : option string)
  : M F (list string) :=
  (es <- load_stored_entries folder ;;
   let prefix := p ← prefix; let p := trim_matches slash p in
                 if decide (p = "") then None else Some p in
   m_lift (mapM entry_dump_json
             (List.filter (λ e, entry_matches_prefix e prefix) (btree_values es))))%m.

(** [read_stored_lamport]. *)
Definition read_stored_lamport (state_dir : string) : M F Z :=
  (r <- m_try (fs_read (path_join state_dir "lamport")) ;;
   m_ret (match r with
          | Ok b => if (strlen b =? 8)%nat then le_value b else 0
          | Err _ => 0
          end))%m.

(** [join_group], with a client made for it. *)
Context {X C : Type} `{RpcConn C} (dial : string → M X C).

Definition join_group_cmd (id : NodeId) (book : AddressBook) (state_dir ticket : string)
  : M (Client (X:=X) (C:=C) (F:=F)) () :=
  (t <- m_lift (parse_join_ticket ticket) ;;
   match endpoints t with
   | [] => m_err OtherError
   | _ =>
       let book := <[issuer t := mkPeerInfo (endpoints t) None]> book in
       let known (_ : nat) p := from_option pi_endpoints [] (book !! p) in
       ms <- join_group dial known (issuer t) (secret t) id ;;
       on_disk (replace_members (path_join state_dir PEERS_FILE) ms) ;;
       on_disk (save_address_book state_dir book)
   end)%m.

End Commands.
