(* ===== verification/JoinProps.v ===== *)
(** * Inviting and joining, end to end

    [create_invite] on one host, [join_group_cmd] with its ticket on another,
    and the server of the first in between: the ticket leads the joiner to its
    issuer, and pays there as long as it has not expired. *)

From S2P Require Import Prelude Paths Bytes Utf8 Fs Identity Ticket Group GroupProps Endpoints.
From S2P Require Import Addresses Entries Scan Tree State Transport Messages Rpc RpcProps Commands.

(** A joiner's connection to a server: requests run its handlers at once, and
    responses are read in the order they were sent. *)
Section Line.
Context {F : Type} `{FsOps F} `{GroupJson} (blake3 : string → Hash).
Context (err_text : ErrorKind → string) (open_file : string → M F (Z * string)).
Context (joiner : NodeId) (source_ip : IpAddr) (invites_path : string).

Record Line : Type := mkLine { line_owner : NodeId; line_server : Server (F:=F) }.

Definition line_conn : RpcConn Line := {|
  conn_id := line_owner;
  send_request request := λ c,
    let '(w, r) := handle_one blake3 err_text open_file request joiner source_ip invites_path
                     (line_server c) in (mkLine (line_owner c) w, r);
  read_response := λ c,
    match sv_sent (line_server c) with
    | SentJson r :: l =>
        (mkLine (line_owner c)
           (let w := line_server c in mkServer (sv_fs w) (sv_state w) (sv_group w) (sv_events w) l), Ok r)
    | _ => (c, Err UnexpectedEof)
    end;
  recv_exact _ := m_err UnexpectedEof
|}.
End Line.
Arguments mkLine {F}.
Arguments line_owner {F}.
Arguments line_server {F}.

(** ** The invites file *)

Lemma existsb_snoc {A} (f : A → bool) l x : f x = true → existsb f (l ++ [x]) = true.
Proof. intros Hx. rewrite existsb_app. simpl. by rewrite Hx, orb_true_r. Qed.

Section Invites.
Context {F : Type} `{FsOps F} `{GroupJson} (blake3 : string → string).
Context (Hback : ReadBack F).
Context (Hjson : ∀ l, ∃ j, ser_invites l = Some j ∧ is_utf8 j = true ∧ de_invites j = Some l).

Lemma load_saved_invites p invites (s s1 : F) :
  save_invites p invites s = (s1, Ok ()) → ∃ sr, load_invites p s1 = (sr, Ok invites).
Proof.
  intros Hsave. unfold save_invites in Hsave. apply m_bind_inv in Hsave as (sa & [] & _ & Hsave).
  destruct (Hjson invites) as (j & Hser & Hutf8 & Hde). rewrite Hser in Hsave.
  destruct (Hback p j _ _ Hsave) as [sr Hread]. exists sr.
  unfold load_invites, fs_read_to_string, m_bind, m_try, m_lift. rewrite Hread.
  unfold utf8_or_invalid. rewrite Hutf8. simpl. by rewrite Hde.
Qed.

Lemma add_invite_loaded p secret expires (s s1 : F) :
  add_invite blake3 p secret expires s = (s1, Ok ()) →
  ∃ sr invites, load_invites p s1 =
    (sr, Ok (invites ++ [mkInvite (hash_secret blake3 secret) expires])).
Proof.
  intros Hrun. unfold add_invite in Hrun.
  apply m_bind_inv in Hrun as (sa & invites & _ & Hrun). apply m_bind_inv in Hrun as (sb & now & _ & Hrun).
  apply load_saved_invites in Hrun as [sr Hload]. by exists sr, (List.filter (λ i, now <? expires_at_ms i) invites).
Qed.

(** Before it expires, an invite is found or the disk failed. *)
Lemma consume_pending p secret expires invites (s sr sn : F) now :
  load_invites p s = (sr, Ok (invites ++ [mkInvite (hash_secret blake3 secret) expires])) →
  now_ms sr = (sn, Ok now) → now < expires →
  (consume_invite blake3 p secret s).2 ≠ Ok false.
Proof.
  intros Hload Hnow Hlt. unfold consume_invite. rewrite (m_bind_Ok _ _ _ _ _ Hload).
  rewrite (m_bind_Ok _ _ _ _ _ Hnow). unfold consume_step.
  rewrite existsb_snoc by (cbn; rewrite bool_decide_true by done; by rewrite (proj2 (Z.ltb_lt _ _) Hlt)).
  match goal with |- (?x).2 ≠ _ => destruct x as [s' r] eqn:E end.
  by apply m_bind_ret_inv in E as [->|[e ->]].
Qed.
End Invites.

(** ** The server's side *)

Section Server.
Context {F : Type} `{FsOps F} `{GroupJson} (blake3 : string → Hash).
Context (err_text : ErrorKind → string) (open_file : string → M F (Z * string)).
Abbreviation handle_one := (handle_one blake3 err_text open_file).

(** The joiner was admitted, or told that the disk failed. *)
Definition admitted (joiner : NodeId) (id : Z) (w w' : Server (F:=F)) (resp : ResponseMessage) : Prop :=
  (resp = JoinAccepted id (members (sv_group w')) ∧ admits joiner (sv_group w) (sv_group w') ∧
   sv_events w' = sv_events w ++ [PeerJoined joiner]) ∨
  (∃ why, resp = JoinRejected id why ∧ starts_with "could not" why = true).

Lemma could_not_prefix s : starts_with "could not" ("could not " +:+ s) = true.
Proof. unfold starts_with. simpl. by destruct s. Qed.

Lemma handle_join_paid joiner id secret invites_path (w : Server (F:=F)) :
  (consume_invite blake3 invites_path secret (sv_fs w)).2 ≠ Ok false →
  let r := handle_join blake3 err_text joiner invites_path id secret (node_id_to_string joiner) w in
  sv_sent r.1 = sv_sent w ∧ ∃ resp, r.2 = Ok resp ∧ admitted joiner id w r.1 resp.
Proof.
  intros Hpaid. cbv zeta. destruct (handle_join _ _ _ _ _ _ _ w) as [w1 r1] eqn:Hj. revert Hj.
  unfold handle_join. rewrite bool_decide_false by (intros Hx; by apply Hx).
  unfold m_bind at 1, m_try at 1, sv_disk, m_zoom.
  destruct (consume_invite blake3 invites_path secret (sv_fs w)) as [f [[]|e]]; cbn [snd] in Hpaid; [|done|].
  - unfold m_bind at 1, m_try, sv_ledger, m_zoom. cbn [sv_fs sv_group].
    destruct (add_active_peer joiner (f, sv_group w)) as [[f' g'] added] eqn:Ha.
    pose proof (add_active_peer_admits _ _ _ _ Ha) as Hadm.
    destruct added as [b|e]; intros [= <- <-]; (split; [done|]); (eexists; split; [reflexivity|]).
    + left. by split_and!.
    + right. eexists. split; [done|]. apply (could_not_prefix ("add peer: " +:+ err_text e)).
  - intros [= <- <-]. split; [done|]. eexists. split; [done|]. right. eexists. split; [done|].
    apply (could_not_prefix ("validate ticket: " +:+ err_text e)).
Qed.

Lemma handle_one_paid joiner ip id secret invites_path (w : Server (F:=F)) :
  (consume_invite blake3 invites_path secret (sv_fs w)).2 ≠ Ok false → sv_sent w = [] →
  ∃ w' resp, handle_one (Join id secret (node_id_to_string joiner)) joiner ip invites_path w = (w', Ok ()) ∧
    sv_sent w' = [SentJson resp] ∧ admitted joiner id w w' resp.
Proof.
  intros Hpaid Hsent. pose proof (handle_join_paid joiner id secret invites_path w Hpaid) as Hj.
  unfold Rpc.handle_one, handle_request, m_bind, m_gets. simpl. cbv zeta in Hj.
  destruct (handle_join _ _ _ _ _ _ _ w) as [w1 r1]. cbn [fst snd] in Hj.
  destruct Hj as (Hs & resp & -> & Hadm).
  eexists _, resp. split; [done|]. cbn in *. rewrite Hs, Hsent. split; [done|].
  destruct Hadm as [(-> & Ha & He)|?]; [left|by right]. split_and!; [done|done|done].
Qed.
End Server.

(** ** The inviter's side *)

Section Joining.
Context {F : Type} `{FsOps F} `{GroupJson} `{BookJson} `{Ed25519}.
Context (blake3 : string → Hash) (err_text : ErrorKind → string).
Context (open_file : string → M F (Z * string)).
Context (Hback : ReadBack F) (Hpublic : ∀ sk, strlen (ed_public sk) = 32%nat).
Context (Hjson : ∀ l, ∃ j, ser_invites l = Some j ∧ is_utf8 j = true ∧ de_invites j = Some l).

(** The endpoints a ticket may carry. *)
Definition plain_endpoint (e : string) : Prop := e ≠ "" ∧ str_all endpoint_char e = true.

Lemma ticket_endpoints_utf8 l : Forall plain_endpoint l → is_utf8 (join "," l) = true.
Proof.
  intros Hl. apply ascii_utf8, str_all_join; [done|]. intros e He.
  apply (str_all_mono endpoint_char); [|by apply (proj1 (Forall_forall _ _) Hl e He)].
  intros a. unfold endpoint_char, in_range. rewrite !andb_true_iff, !Z.leb_le. lia.
Qed.

Lemma plain_ticket id secret_bytes l ticket :
  strlen id = 32%nat → strlen secret_bytes = 32%nat → Forall plain_endpoint l →
  encode_ticket id secret_bytes l = Ok ticket →
  parse_join_ticket ticket = Ok (mkTicket id (hex secret_bytes) l).
Proof.
  intros Hid Hs Hl Henc. apply ticket_round_trip; [done|done| |by apply ticket_endpoints_utf8|done].
  apply (Forall_impl _ _ _ Hl). intros e [? ?]. split; [done|by apply no_comma].
Qed.

Lemma open_ledger_id state_dir random (f f1 : F) own :
  open_ledger state_dir random f = (f1, Ok own) → strlen own.1 = 32%nat.
Proof.
  unfold open_ledger. intros (s1 & i & _ & Hrun)%m_bind_inv.
  apply m_bind_inv in Hrun as (s2 & g & _ & [= _ <-]). apply Hpublic.
Qed.

(** What [create_invite] did when it printed a ticket. *)
Lemma create_invite_inv state_dir expire_secs override interfaces random random_secret (f f1 : F) ticket :
  create_invite blake3 state_dir expire_secs override interfaces random random_secret f = (f1, Ok ticket) →
  ∃ issuer secret_bytes l fa fb now,
    strlen issuer = 32%nat ∧ random_secret = Ok secret_bytes ∧ l ≠ [] ∧
    (l = override ∨ ∃ port, l = local_endpoints interfaces port) ∧
    now_ms fa = (fb, Ok now) ∧
    add_invite blake3 (path_join state_dir INVITES_FILE) (hex secret_bytes)
      (add64 now (saturating_mul expire_secs 1000)) fb = (f1, Ok ()) ∧
    encode_ticket issuer secret_bytes l = Ok ticket.
Proof.
  unfold create_invite. intros (s1 & own & Hown & Hrun)%m_bind_inv.
  apply m_bind_inv in Hrun as (s2 & l & Hl & Hrun).
  apply m_bind_inv in Hrun as (s3 & sb & [= <- Hsb] & Hrun). cbv zeta in Hrun.
  apply m_bind_inv in Hrun as (s4 & now & Hnow & Hrun).
  apply m_bind_inv in Hrun as (s5 & [] & Hadd & [= -> Henc]).
  assert (l ≠ [] ∧ (l = override ∨ ∃ port, l = local_endpoints interfaces port)) as [Hne Hsrc].
  { destruct override as [|o override]; [|injection Hl as _ <-; split; [done|by left]].
    apply m_bind_inv in Hl as (s6 & port & _ & Hl). apply m_bind_inv in Hl as (s7 & n & _ & Hl).
    destruct (local_endpoints interfaces n) as [|e l'] eqn:E; [done|].
    injection Hl as _ <-. split; [done|]. right. by exists n. }
  exists own.1, sb, l, s2, s4, now. split_and!; try done. by eapply open_ledger_id.
Qed.

(** ** The joiner's side *)

Section Connected.
Context (joiner : NodeId) (source_ip : IpAddr) (invites_path : string).
#[local] Instance line_instance : RpcConn (Line (F:=F)) :=
  line_conn blake3 err_text open_file joiner source_ip invites_path.
Context {X : Type} (dial : string → M X (Line (F:=F))).

(** Of the endpoints some reach the server [srv] of [issuer], and the others
    nobody. *)
Definition reaches (issuer : NodeId) (srv : Server (F:=F)) (l : list string) : Prop :=
  (∀ e x, e ∈ l → (∃ x' err, dial e x = (x', Err err)) ∨
                  (∃ x', dial e x = (x', Ok (mkLine issuer srv)))) ∧
  ∃ e, e ∈ l ∧ ∀ x, ∃ x', dial e x = (x', Ok (mkLine issuer srv)).

Lemma try_endpoints_reaches issuer srv l last x :
  reaches issuer srv l → ∃ x', try_endpoints dial issuer l last x = (x', Ok (mkLine issuer srv)).
Proof.
  intros [Hall (e & He & Hgood)]. revert last x. induction l as [|e' l IH]; intros last x.
  { by apply elem_of_nil in He. }
  cbn [try_endpoints]. unfold m_bind, m_try.
  assert (∀ x', dial e' x = (x', Ok (mkLine issuer srv)) → ∃ x',
    (let '(s', r) := let '(s', r) := dial e' x in (s', Ok r) in
     match r with
     | Ok a => match a with
               | Ok c => if bool_decide (conn_id c = issuer) then m_ret c
                         else try_endpoints dial issuer l OtherError
               | Err e => try_endpoints dial issuer l e
               end s'
     | Err e => (s', Err e)
     end) = (x', Ok (mkLine issuer srv))) as Hreach.
  { intros x' ->. exists x'. simpl. by rewrite bool_decide_true. }
  destruct (Hall e' x) as [(x' & err & Hd)|(x' & Hd)]; [by left| |by eapply Hreach].
  apply elem_of_cons in He as [->|He].
  - destruct (Hgood x) as [x'' Hd']. by eapply Hreach.
  - rewrite Hd. apply IH; [|done]. intros e'' y Hin. apply Hall. by right.
Qed.

(** One call on a client with no idle connection. *)
Lemma join_call issuer srv l (known : nat → NodeId → list string) secret (x : X) n (f : F) :
  reaches issuer srv l → l ≠ [] → known 0%nat issuer = l → sv_sent srv = [] →
  (consume_invite blake3 invites_path secret (sv_fs srv)).2 ≠ Ok false →
  ∃ x' w' resp,
    join_group dial known issuer secret joiner (mkClient ∅ x n f) =
      (mkClient {[ issuer := [mkLine issuer w'] ]} x' (add64 n 1) f, answer n pick_joined resp) ∧
    admitted joiner n srv w' resp.
Proof.
  intros Hreach Hl Hknown Hsent Hpaid.
  destruct (handle_one_paid blake3 err_text open_file joiner source_ip n secret invites_path srv Hpaid Hsent)
    as (w1 & resp & Hone & Hs1 & Hadm).
  destruct (try_endpoints_reaches issuer srv l OtherError x Hreach) as [x' Htry].
  exists x', (mkServer (sv_fs w1) (sv_state w1) (sv_group w1) (sv_events w1) []), resp.
  split; [|by destruct Hadm as [?|?]; [left|right]].
  unfold join_group, m_bind at 1, new_request_id, m_bind at 1, round_trip, m_bind at 1, checkout.
  cbn [pool next_request_id net cl_fs]. rewrite lookup_empty.
  unfold m_bind at 1, rpc_connect, m_bind at 1, m_lift at 1.
  assert (wait_for_endpoints known DISCOVERY_POLLS 0 issuer = Ok l) as ->.
  { unfold DISCOVERY_POLLS. cbn [wait_for_endpoints]. rewrite Hknown. by destruct l. }
  unfold on_net, m_zoom. cbn [net]. rewrite Htry.
  unfold m_bind at 1, with_conn, m_ret at 1, call, m_bind at 1. cbn [send_request read_response line_instance line_conn].
  cbn [line_owner line_server]. rewrite Hone. cbn [line_server]. rewrite Hs1.
  unfold m_bind, checkin, m_ret, m_lift. cbn [pool net next_request_id cl_fs line_owner].
  by rewrite lookup_empty.
Qed.

(** What became of a join: the joiner was admitted and wrote the members it was
    told and the address it used, or a disk failed and it was told so. *)
Definition joined (issuer : NodeId) (srv : Server (F:=F)) (book : AddressBook)
    (state_dir : string) (l : list string) (n : Z) (f : F)
    (run : Client (X:=X) (C:=Line (F:=F)) (F:=F) * IoResult ()) : Prop :=
  ∃ w', pool run.1 !! issuer = Some [mkLine issuer w'] ∧
    ((admits joiner (sv_group srv) (sv_group w') ∧
      sv_events w' = sv_events srv ++ [PeerJoined joiner] ∧
      (cl_fs run.1, run.2) =
        (replace_members (path_join state_dir PEERS_FILE) (members (sv_group w')) ;;
         save_address_book state_dir (<[issuer := mkPeerInfo l None]> book))%m f) ∨
     (∃ why, starts_with "could not" why = true ∧ run.2 = Err OtherError ∧ cl_fs run.1 = f)).

Lemma join_group_cmd_joins issuer srv l book state_dir secret ticket (x : X) n (f : F) :
  parse_join_ticket ticket = Ok (mkTicket issuer secret l) → l ≠ [] →
  reaches issuer srv l → sv_sent srv = [] →
  (consume_invite blake3 invites_path secret (sv_fs srv)).2 ≠ Ok false →
  joined issuer srv book state_dir l n f
    (join_group_cmd dial joiner book state_dir ticket (mkClient ∅ x n f)).
Proof.
  intros Hparse Hl Hreach Hsent Hpaid.
  set (known (_ : nat) p := from_option pi_endpoints [] (<[issuer := mkPeerInfo l None]> book !! p)).
  destruct (join_call issuer srv l known secret x n f Hreach Hl) as (x' & w' & resp & Hcall & Hadm);
    [unfold known; by rewrite lookup_insert_eq|done|done|].
  unfold join_group_cmd, m_bind at 1, m_lift at 1. rewrite Hparse. cbn [Ticket.endpoints Ticket.issuer Ticket.secret].
  destruct l as [|e l]; [done|]. unfold m_bind at 1. fold known. rewrite Hcall.
  exists w'. destruct Hadm as [(-> & Ha & He)|(why & -> & Hwhy)].
  - unfold answer. cbn [pick_joined]. rewrite Z.eqb_refl.
    unfold m_bind, on_disk, m_zoom. cbn [cl_fs].
    destruct (replace_members _ _ f) as [f1 [[]|err]]; cbn [pool cl_fs fst snd].
    + destruct (save_address_book _ _ f1) as [f2 r2]. cbn [pool cl_fs fst snd].
      split; [by rewrite lookup_singleton_eq|]. by left.
    + split; [by rewrite lookup_singleton_eq|]. by left.
  - cbn. split; [by rewrite lookup_singleton_eq|]. right. by exists why.
Qed.
End Connected.

End Joining.
