(* ===== verification/JoinWitness.v ===== *)
(** * An invitation at concrete inputs

    An inviter with the folder [/g] on an in-memory disk, a joiner with [/j] on
    another, and a network on which the second endpoint of the ticket answers. *)

From stdpp Require Import countable.
From S2P Require Import Prelude Paths Bytes Utf8 Fs Identity Ticket Group GroupProps GroupWitness.
From S2P Require Import Endpoints Addresses Entries Scan Tree State StateWitness Samples.
From S2P Require Import Transport TransportProps TransportWitness Messages Rpc RpcProps RpcWitness.
From S2P Require Import Commands JoinProps.

#[export] Instance PeerInfo_countable : Countable PeerInfo.
Proof.
  apply (inj_countable' (λ i, (pi_endpoints i, pi_name i)) (λ '(e, n), mkPeerInfo e n)). by intros [].
Defined.

#[export] Instance join_book_json : BookJson := {|
  ser_book := count_ser;
  de_book := count_de
|}.

Definition inviter_fs : MemFs.t :=
  MemFs.mk (list_to_map [("/", MemFs.MDir 493); ("/g", MemFs.MDir 493)]) (10 ^ 12).
Definition joiner_disk : MemFs.t :=
  MemFs.mk (list_to_map [("/", MemFs.MDir 493); ("/j", MemFs.MDir 493)]) (10 ^ 12).

Definition invite_run : MemFs.t * IoResult string :=
  create_invite toy_blake3 "/g" 3600 ["10.0.0.9:4400"; "10.0.0.1:4400"]%string None
    (Ok (be_bytes 32 77)) (Ok (be_bytes 32 9)) inviter_fs.
Definition invite_ticket : string := match invite_run.2 with Ok t => t | Err _ => "" end.
Definition inviter_id : NodeId := toy_blake3 (be_bytes 32 77).

(** Ten seconds later the daemon of the inviter runs. *)
Definition inviter_ledger : GroupState :=
  mkGroup "/g/peers.json" (node_id_to_string inviter_id)
    (ledger_of [mkMember (node_id_to_string inviter_id) Active 1]).
Definition inviter_server : Server (F:=MemFs.t) :=
  mkServer invite_run.1 (sample_state sample_entries 9 ∅) inviter_ledger [] [].

(** Nobody answers at the first endpoint. *)
Definition join_dial (e : string) : M () (Line (F:=MemFs.t)) :=
  if decide (e = "10.0.0.1:4400") then m_ret (mkLine inviter_id inviter_server) else m_err TimedOut.

Abbreviation join_conn :=
  (line_conn toy_blake3 toy_err_text toy_open stranger toy_ip "/g/invites.json").
Definition join_run : Client (X:=()) (C:=Line (F:=MemFs.t)) (F:=MemFs.t) * IoResult () :=
  @join_group_cmd MemFs.t _ _ _ () (Line (F:=MemFs.t)) join_conn join_dial stranger ∅ "/j"
    invite_ticket (mkClient ∅ () 1 joiner_disk).

Lemma join_reaches : reaches join_dial inviter_id inviter_server ["10.0.0.9:4400"; "10.0.0.1:4400"].
Proof.
  split.
  - intros e [] He. unfold join_dial. case_decide; [right|left]; eauto.
  - exists "10.0.0.1:4400". split; [set_solver|]. intros []. by exists ().
Qed.

Example invite_ticket_text :
  parse_join_ticket invite_ticket =
    Ok (mkTicket inviter_id (hex (be_bytes 32 9)) ["10.0.0.9:4400"; "10.0.0.1:4400"]) ∧
  is_ok join_run.2 = true.
Proof. vm_compute. by split. Qed.

Lemma pending_invites :
  load_invites "/g/invites.json" invite_run.1 =
    (invite_run.1, Ok [mkInvite (hash_secret toy_blake3 (hex (be_bytes 32 9))) 4600000]) ∧
  now_ms invite_run.1 = (invite_run.1, Ok 1000000).
Proof. split; vm_compute; reflexivity. Qed.

Lemma ticket_inj a b c a' b' c' :
  Ok (mkTicket a b c) = Ok (mkTicket a' b' c') → a = a' ∧ b = b' ∧ c = c'.
Proof. by intros [= -> -> ->]. Qed.

Lemma loaded_inj {S A} (s s' : S) (i j : A) l :
  (s, Ok [i]) = (s', Ok (l ++ [j])) → s = s' ∧ i = j.
Proof. intros [= -> Hl]. by apply (app_inj_tail []) in Hl as [_ ->]. Qed.

Lemma outcome_inj {S A} (s s' : S) (a b : A) : (s, Ok a) = (s', Ok b) → a = b.
Proof. by intros [= _ ->]. Qed.

Lemma toy_public sk : strlen (ed_public sk) = 32%nat.
Proof. apply toy_blake3_len. Qed.

