(* ===== verification/Process.v ===== *)
(** * The daemon as a process: the end of [src/src/commands.rs]

    [daemonize], the daemon lock, the PID file, [status] and [stop].  The system
    calls come from the [libc] crate and are parameters; a host is a disk and
    what they act on.  [daemonize] is what one process does: each side of a fork
    continues with its own answer.  The files for other platforms than Unix are
    left out. *)

From stdpp Require Import pretty.
From S2P Require Import Prelude Paths Bytes Utf8 Fs Ignore Decimal Identity Group.
From S2P Require Import Entries Scan Tree State Commands.

Definition PID_FILE : string := "daemon.pid".
Definition SIGTERM : Z := 15.

Inductive LockResult : Set := Locked | WouldBlock | LockFailed (e : ErrorKind).
Inductive KillResult : Set := Delivered | NoSuchProcess | KillFailed (e : ErrorKind).

(** [flock(fd, LOCK_EX | LOCK_NB)] of a process on a file it has just opened,
    and [kill(pid, signal)] with its [errno]. *)
Class Kernel (K : Type) := {
  flock_nb : Z → string → K → K * LockResult;
  kill : Z → Z → K → K * KillResult
}.

(** ** Going into the background *)

Inductive ForkSide : Set := Parent | Child.
Inductive Going : Set := GoesOn | Exits (code : Z).

(** [fork] and [setsid] with their errors; [open("/dev/null")], which is [None]
    when it fails, [dup2] and [close], whose results are not looked at. *)
Class Forks (K : Type) := {
  fork : M K ForkSide;
  setsid : M K ();
  open_null : K → K * option Z;
  dup2 : Z → Z → K → K;
  close_fd : Z → K → K
}.

Definition STDIN_FILENO : Z := 0.
Definition STDOUT_FILENO : Z := 1.
Definition STDERR_FILENO : Z := 2.

Definition redirect_to_null `{Forks K} (k : K) : K :=
  let '(k, devnull) := open_null k in
  match devnull with
  | Some fd => close_fd fd (dup2 fd STDERR_FILENO (dup2 fd STDOUT_FILENO (dup2 fd STDIN_FILENO k)))
  | None => k
  end.

Definition daemonize `{Forks K} : M K Going :=
  (side <- fork ;;
   match side with
   | Parent => m_ret (Exits 0)
   | Child =>
       setsid ;;
       side <- fork ;;
       match side with
       | Parent => m_ret (Exits 0)
       | Child => m_modify redirect_to_null ;; m_ret GoesOn
       end
   end)%m.

Section Process.
Context {F K : Type} `{FsOps F} `{Kernel K}.
(** [OpenOptions::new().create(true).truncate(false).write(true).open(..)]. *)
Context (open_for_writing : string → M F ()).

Definition Host : Type := F * K.
Definition on_files {A} : M F A → M Host A := m_zoom fst (λ f h, (f, h.2)).
Definition on_kernel {A} : M K A → M Host A := m_zoom snd (λ k h, (h.1, k)).

Definition acquire_daemon_lock (pid : Z) (state_dir : string) : M Host () :=
  (let lock_path := path_join state_dir "daemon.lock" in
   on_files (open_for_writing lock_path) ;;
   result <- on_kernel (λ k, let '(k, r) := flock_nb pid lock_path k in (k, Ok r)) ;;
   match result with
   | Locked => m_ret ()
   | WouldBlock => m_err OtherError
   | LockFailed err => m_err err
   end)%m.

Definition send_signal (pid signal : Z) : M Host KillResult :=
  on_kernel (λ k, let '(k, r) := kill pid signal k in (k, Ok r)).

(** The PID in the PID file. *)
Definition daemon_running_status (state_dir : string) : M Host string :=
  (contents <- m_try (on_files (fs_read_to_string (path_join state_dir PID_FILE))) ;;
   match (match contents with Ok s => parse_i32 (trim s) | Err _ => None end) with
   | None => m_ret "stopped"
   | Some pid =>
       r <- send_signal pid 0 ;;
       m_ret (match r with
              | Delivered => "running   pid " +:+ pretty pid
              | NoSuchProcess | KillFailed _ => "stopped   (stale pid file)"
              end)
   end)%m.

(** [stop_cmd]: the PID it prints. *)
Definition stop_cmd (state_dir : string) : M Host Z :=
  (let pid_path := path_join state_dir PID_FILE in
   contents <- m_try (on_files (fs_read_to_string pid_path)) ;;
   contents <- m_lift (match contents with Ok s => Ok s | Err _ => Err OtherError end) ;;
   pid <- m_lift (ok_or OtherError (parse_i32 (trim contents))) ;;
   rc <- send_signal pid SIGTERM ;;
   match rc with
   | Delivered => on_files (m_ignore (fs_remove_file pid_path)) ;; m_ret pid
   | NoSuchProcess => on_files (m_ignore (fs_remove_file pid_path)) ;; m_err OtherError
   | KillFailed err => m_err err
   end)%m.

(** ** [status] *)

Context `{GroupJson} `{StateCodec} `{Ed25519} (blake3 : string → Hash).

(** What [status_cmd] prints: the daemon, the first digits of the root, the live
    entries, the clock, the members with a mark at this node, and whether there
    are no others. *)
Record StatusReport : Type := mkStatus {
  sr_daemon : string;
  sr_root : string;
  sr_live : nat;
  sr_lamport : Z;
  sr_peers : list (MemberStatus * string * bool);
  sr_alone : bool
}.

(** [id.get(..16).unwrap_or(id)]: [None] also in the middle of a character. *)
Definition first_16 (id : string) : string :=
  if decide (strlen id < 16)%nat then id
  else match str_drop 16 id with
       | String a _ => if (128 <=? byte_val a) && (byte_val a <=? 191) then id else str_take 16 id
       | "" => id
       end.

Definition status_cmd (folder : string) (random : IoResult string) : M Host StatusReport :=
  (let state_dir := path_join folder STATE_DIR in
   daemon <- daemon_running_status state_dir ;;
   entries <- on_files (load_stored_entries folder) ;;
   let live := length (List.filter (λ e, bool_decide (kind e ≠ Tombstone)) (btree_values entries)) in
   l <- on_files (read_stored_lamport state_dir) ;;
   let root := root_hash (derive_tree blake3 entries) in
   identity <- on_files (load_or_create (path_join state_dir KEY_FILE) random) ;;
   let id := node_id identity in
   group <- on_files (load_or_init (path_join state_dir PEERS_FILE) id) ;;
   let ms := members group in
   let is_self m := bool_decide (m_id m = node_id_to_string id) in
   m_ret (mkStatus daemon (str_take 16 (hex root)) live l
            ((λ m, (m_status m, first_16 (m_id m), is_self m)) <$> ms)
            (forallb is_self ms)))%m.
End Process.
