(* ===== verification/Cli.v ===== *)
(** * The command line: the argument types of [src/src/cli.rs]

    The parser is derived by [clap]; what it produces is [Command].  The
    defaults it fills in are the ones of the attributes. *)

From S2P Require Import Prelude Paths Fs Ignore.

Definition DEFAULT_INTERVAL_MS : Z := 500.
Definition DEFAULT_ANNOUNCE_INTERVAL_SECS : Z := 10.
Definition DEFAULT_EXPIRE_SECS : Z := 3600.

Inductive Command : Set :=
  | Start (folder : string) (name : option string) (poll : bool) (interval_ms : Z)
      (announce_interval_secs : Z) (port : option Z)
  | Watch (folder : string) (name : option string) (poll : bool) (interval_ms : Z)
      (announce_interval_secs : Z) (status : bool) (port : option Z)
  | Invite (folder : string) (expire_secs : Z) (endpoint : list string)
  | Join (folder ticket : string) (name : option string) (exit status : bool) (port : option Z)
  | Remove (folder target : string)
  | Peers (folder : string)
  | Status (folder : string)
  | Stop (folder : string)
  | DumpState (folder : string) (prefix : option string).

Definition daemon_log_path (command : Command) : option string :=
  match command with
  | Start folder _ _ _ _ _ => Some (path_join (path_join folder STATE_DIR) "sync.log")
  | _ => None
  end.

Definition status_mode (command : Command) : bool :=
  match command with
  | Watch _ _ _ _ _ true _ | Join _ _ _ false true _ => true
  | _ => false
  end.
