(* ===== verification/Ui.v ===== *)
(** * The status view: [src/src/ui.rs]

    What [render_status_view] shows, read from the shared state under one lock
    after the other, and the log lines of the [print_*] functions.  Colours and
    the layout of the view are left out. *)

From stdpp Require Import pretty.
From S2P Require Import Prelude Paths Bytes Utf8 Fs Identity Group Endpoints.
From S2P Require Import Entries Scan Tree State Messages Daemon.

(** [str::chars]. *)
Definition chars (s : string) : list string := (utf8_chunks s).*2.
Definition of_chars (l : list string) : string := String.concat "" l.

Definition short_id (id : string) : string := of_chars (take 12 (chars id)).

Definition MAX_LABEL : nat := 32.
Definition truncate_label (label : string) : string :=
  let l := chars label in
  of_chars (take MAX_LABEL l) +:+ (if decide (drop MAX_LABEL l = []) then "" else "...").

Inductive PeerStatus : Set := Offline | Syncing | Synced.

(** The view: the node, its root and number of nodes, and a line for each shown
    member; no line is printed as "no peers". *)
Record StatusView : Set := mkView {
  sv_node : string;
  sv_root : string;
  sv_entries : Z;
  sv_lines : list (PeerStatus * string)
}.

(** The line of one member. *)
Definition status_line (reports : gmap string RootReport) (addresses : AddressBook)
    (syncing_peer : option NodeId) (local : StateSnapshot) (member : MemberEntry)
  : PeerStatus * string :=
  let peer := match node_id_from_str (m_id member) with Ok p => Some p | Err _ => None end in
  let info := peer ≫= λ p, addresses !! p in
  let is_syncing := match peer with Some p => bool_decide (syncing_peer = Some p) | None => false end in
  let synced := is_synced reports (m_id member) local in
  let label := default (m_id member) (info ≫= pi_name) in
  (match info with
   | None => Offline
   | Some _ => if is_syncing || negb synced then Syncing else Synced
   end, truncate_label label).

(** Who has a line: the other active members. *)
Definition shown (local_origin : string) (ms : list MemberEntry) : list MemberEntry :=
  List.filter (λ m, negb (bool_decide (m_id m = local_origin)) && bool_decide (m_status m = Active)) ms.

Section Ui.
Context {F : Type} `{FsOps F}.
Context (others : nat → Daemon (F:=F) → Daemon (F:=F)).

Definition render_status_view (local_origin : string) : M (Daemon (F:=F)) StatusView :=
  (local <- read_snapshot others ;;
   ms <- reads others (λ d, members (d_group d)) ;;
   reports <- reads others d_reports ;;
   addresses <- reads others d_book ;;
   syncing_peer <- reads others d_current_sync ;;
   m_ret (mkView (short_id local_origin) (hex (ss_state_root local)) (ss_state_nodes local)
            (status_line reports addresses syncing_peer local <$> shown local_origin ms)))%m.

(** [status_view_loop], for a number of turns: the frame of the spinner and the
    view of each; the counter of turns wraps. *)
Definition frames : list string := ["⣾"; "⣽"; "⣻"; "⢿"; "⡿"; "⣟"; "⣯"; "⣷"].
Fixpoint status_view_loop (local_origin : string) (turns : nat) (tick : Z)
  : M (Daemon (F:=F)) (list (string * StatusView)) :=
  match turns with
  | O => m_ret []
  | S turns =>
      (view <- render_status_view local_origin ;;
       later <- status_view_loop local_origin turns (add64 tick 1) ;;
       m_ret ((nth (Z.to_nat (tick mod 8)) frames "", view) :: later))%m
  end.
End Ui.

(** ** Log lines *)

Definition nodes_of (t : TreeSnapshot) : string := pretty (Z.of_nat (base.size (nodes t))).
Definition shown_bool (b : bool) : string := if b then "true" else "false".

Definition print_start (s : FolderState) (local_id : NodeId) (rpc_port : Z) (bootstrap : list NodeId)
    (poll : bool) (interval_ms : Z) : list string :=
  ["node " +:+ node_id_to_string local_id;
   "rpc port " +:+ pretty rpc_port;
   "invite command: lilsync invite " +:+ to_string_lossy (st_root s);
   "known peers " +:+ pretty (Z.of_nat (length bootstrap));
   "watching " +:+ to_string_lossy (st_root s);
   if poll then "mode poll interval=" +:+ pretty (Z.max interval_ms 50) +:+ "ms"
   else "mode fs-events debounce=" +:+ pretty (Z.max interval_ms 20) +:+ "ms";
   "state root " +:+ hex (root_hash (st_tree s));
   "live root " +:+ hex (root_hash (st_live_tree s));
   "nodes state=" +:+ nodes_of (st_tree s) +:+ " live=" +:+ nodes_of (st_live_tree s)].

Definition print_changes (before_state before_live : Hash) (s : FolderState) (changes : list Change)
  : list string :=
  ((λ c, verb c +:+ " " +:+ ch_path c +:+ " v" +:+ pretty (lamport (version (ch_new c)))
           +:+ ":" +:+ origin (version (ch_new c))) <$> changes) ++
  ["state root " +:+ hex before_state +:+ " -> " +:+ hex (root_hash (st_tree s))
     +:+ " nodes=" +:+ nodes_of (st_tree s);
   "live root " +:+ hex before_live +:+ " -> " +:+ hex (root_hash (st_live_tree s))
     +:+ " nodes=" +:+ nodes_of (st_live_tree s)].

Definition print_remote_message (m : GossipMessage) (s : StateSnapshot) : string :=
  let roots sr lr :=
    " state_root=" +:+ hex sr +:+ " live_root=" +:+ hex lr in
  let matches sr lr :=
    " state_match=" +:+ shown_bool (bool_decide (sr = ss_state_root s)) +:+
    " live_match=" +:+ shown_bool (bool_decide (lr = ss_live_root s)) in
  match m with
  | SyncState o sr lr l state_nodes live_nodes wm =>
      "peer state origin=" +:+ o +:+ " lamport=" +:+ pretty l +:+ roots sr lr
        +:+ " state_nodes=" +:+ pretty state_nodes +:+ " live_nodes=" +:+ pretty live_nodes
        +:+ " gc_origins=" +:+ pretty (Z.of_nat (base.size wm)) +:+ matches sr lr
  | FilesystemChanged o sr lr l hint =>
      "peer filesystem origin=" +:+ o +:+ " lamport=" +:+ pretty l
        +:+ " hint_nodes=" +:+ pretty (Z.of_nat (match hint with Some h => length (hint_nodes h) | None => O end))
        +:+ " hint_truncated=" +:+ shown_bool (match hint with Some h => truncated h | None => false end)
        +:+ roots sr lr +:+ matches sr lr
  | PeersGossip o ms => "peer list origin=" +:+ o +:+ " members=" +:+ pretty (Z.of_nat (length ms))
  | EndpointsGossip o _ endpoints _ =>
      "peer endpoints origin=" +:+ o +:+ " endpoints=" +:+ join "," endpoints
  end.

(** [summarize_message]. *)
Definition summarize_message (m : GossipMessage) : string :=
  match m with
  | SyncState o state_root _ l _ _ _ =>
      "sync-state origin=" +:+ o +:+ " lamport=" +:+ pretty l +:+ " state_root=" +:+ hex state_root
  | FilesystemChanged o _ _ l hint =>
      let hint_nodes := match hint with Some h => length (hint_nodes h) | None => O end in
      "filesystem-changed origin=" +:+ o +:+ " lamport=" +:+ pretty l
        +:+ " hint_nodes=" +:+ pretty hint_nodes
  | PeersGossip o ms => "peers origin=" +:+ o +:+ " members=" +:+ pretty (length ms)
  | EndpointsGossip o _ endpoints _ => "endpoints origin=" +:+ o +:+ " count=" +:+ pretty (length endpoints)
  end.

(** ** What the view tells *)

(** A member is shown as synced only if its address is known, it is not the one
    being synced with, and the roots it reported last are the local ones. *)
Lemma status_line_synced reports addresses syncing local m label :
  status_line reports addresses syncing local m = (Synced, label) →
  ∃ p report, node_id_from_str (m_id m) = Ok p ∧ is_Some (addresses !! p) ∧ syncing ≠ Some p ∧
    reports !! m_id m = Some report ∧ rep_state_root report = ss_state_root local ∧
    rep_live_root report = ss_live_root local.
Proof.
  unfold status_line. intros [= Hs _]. destruct (node_id_from_str (m_id m)) as [p|e]; [|done].
  simpl in Hs. destruct (addresses !! p) as [info|] eqn:Ea; [|done].
  destruct (bool_decide (syncing = Some p)) eqn:Ec; [done|]. apply bool_decide_eq_false in Ec.
  unfold is_synced in Hs. destruct (reports !! m_id m) as [report|] eqn:Er; [|done].
  exists p, report. destruct (bool_decide (rep_state_root report = _)) eqn:E1; [|done].
  destruct (bool_decide (rep_live_root report = _)) eqn:E2; [|done].
  apply bool_decide_eq_true in E1, E2. rewrite Ea. by split_and!.
Qed.

(** Labels stay short, however long the name a peer chose. *)
Lemma truncate_label_short label :
  (length (take MAX_LABEL (chars label)) ≤ 32)%nat ∧
  ((length (chars label) ≤ 32)%nat → truncate_label label = label).
Proof.
  split; [rewrite length_take; unfold MAX_LABEL; lia|].
  intros Hl. unfold truncate_label. rewrite take_ge, decide_True by (try apply drop_ge; done).
  unfold of_chars, chars. rewrite utf8_chunks_concat. apply append_nil_r.
Qed.
