(* ===== verification/Startup.v ===== *)
(** * Starting the daemon: [run_sync] of [src/src/daemon.rs]

    The set-up that leads from a folder to the state the daemon's tasks share,
    and [run_sync] as the set-up, the first announcements and the main loop.
    The listener of [TcpListener::bind] and the registration of the watcher are
    system services and are arguments; [outside] is what other programs do to
    the disk between the initial scan and the moment the watcher is registered. *)

From S2P Require Import Prelude Paths Bytes Utf8 Fs Ignore Identity Group Endpoints Addresses.
From S2P Require Import Entries Scan Tree State Messages Rpc Sync Daemon Commands Process.

Section Startup.
Context {F K : Type} `{FsOps F} `{Kernel K} `{StateCodec} `{GroupJson} `{BookJson} `{Ed25519}.
Context (blake3 : string → Hash) (message_len : GossipMessage → Z).
Context (open_for_writing : string → M F ()).
(** The port a listener bound to a port gets, [0] standing for any; the watch of
    a folder. *)
Context (bind : Z → M K Z) (watch : string → M K ()) (outside : F → F).
Abbreviation Host := (Host (F:=F) (K:=K)).
Abbreviation Daemon := (Daemon (F:=F)).

Record SyncArgs : Set := mkSyncArgs {
  sa_folder : string;
  sa_name : option string;
  sa_poll : bool;
  sa_announce_interval_secs : Z;
  sa_port : option Z
}.

(** The set-up: the shared state, and the settings of the loop. *)
Definition start_up (pid : Z) (random : IoResult string) (interfaces : option (list IpAddr))
    (a : SyncArgs) : M Host (Daemon * Settings) :=
  (on_files (fs_create_dir_all (sa_folder a)) ;;
   let state_dir := path_join (sa_folder a) STATE_DIR in
   on_files (fs_create_dir_all state_dir) ;;
   acquire_daemon_lock open_for_writing pid state_dir ;;
   identity <- on_files (load_or_create (path_join state_dir KEY_FILE) random) ;;
   let local_id := node_id identity in
   let local_origin := node_id_to_string local_id in
   group <- on_files (load_or_init (path_join state_dir PEERS_FILE) local_id) ;;
   s <- on_files (new_state blake3 (sa_folder a) local_origin) ;;
   on_files (m_modify outside) ;;
   (if sa_poll a then m_ret () else on_kernel (watch (st_root s))) ;;
   book <- on_files (load_address_book state_dir) ;;
   requested_port <- match sa_port a with
                     | Some p => m_ret (Some p)
                     | None => on_files (load_port state_dir)
                     end ;;
   rpc_port <- on_kernel (bind (default 0 requested_port)) ;;
   on_files (save_port state_dir rpc_port) ;;
   f <- m_gets fst ;;
   m_ret (mkDaemon f s group ∅ false false None book [] [] 0,
          mkSettings local_origin state_dir rpc_port (sa_name a) interfaces))%m.

(** [run_sync] until the shutdown signal, which comes after [events]; the other
    tasks, those of the RPC server among them, are [others].  The set-up takes
    the first announcements at time [now]. *)
Definition run_sync (others : nat → Daemon → Daemon) (now : Z) (events : list DaemonEvent)
    (pid : Z) (random : IoResult string) (interfaces : option (list IpAddr)) (a : SyncArgs)
  : M Host () :=
  (ready <- start_up pid random interfaces a ;;
   m_zoom (λ _, ready.1) (λ d h, (d_fs d, h.2))
     (tracker <- announce_start blake3 others ready.2 now ;;
      main_loop blake3 message_len others ready.2 tracker events ;;
      m_ret ()))%m.
End Startup.
