(* ===== verification/Watcher.v ===== *)
(** * File events: [src/src/watcher.rs]

    The events of the [notify] crate are a type with the constructors the
    source inspects.  The debouncing thread reads them from a channel; which of
    them arrive within a debounce window depends on time, so the number of them
    is an argument, and the theorems hold for every choice. *)

From S2P Require Import Prelude Paths Utf8 Fs.

(** ** The order of [PathBuf]s: by component *)

Definition component_rank (c : Component) : nat :=
  match c with RootDir => 0 | CurDir => 1 | ParentDir => 2 | Normal _ => 3 end.

Definition component_le (c d : Component) : Prop :=
  (component_rank c < component_rank d)%nat ∨
  component_rank c = component_rank d ∧ String.le (component_name c) (component_name d).

#[export] Instance component_le_dec : RelDecision component_le.
Proof. intros c d. unfold component_le. apply _. Defined.

Lemma component_key_inj c d :
  component_rank c = component_rank d → component_name c = component_name d → c = d.
Proof. destruct c, d; simpl; try done. by intros _ ->. Qed.

#[export] Instance component_le_trans : Transitive component_le.
Proof.
  intros b c d [?|[Hr1 Hs1]] [?|[Hr2 Hs2]]; [left; lia..|]. right. split; [congruence|by etrans].
Qed.
#[export] Instance component_le_antisymm : AntiSymm (=) component_le.
Proof.
  intros c d [?|[Hr1 Hs1]] [?|[Hr2 Hs2]]; [lia..|].
  apply component_key_inj; [done|by apply (anti_symm String.le)].
Qed.
#[export] Instance component_le_total : Total component_le.
Proof.
  intros c d. unfold component_le.
  destruct (lt_eq_lt_dec (component_rank c) (component_rank d)) as [[?|?]|?]; [by left; left| |by right; left].
  destruct (total String.le (component_name c) (component_name d)); [left|right]; by right.
Qed.

Fixpoint components_le (l m : list Component) : Prop :=
  match l, m with
  | [], _ => True
  | _ :: _, [] => False
  | c :: l, d :: m => if decide (c = d) then components_le l m else component_le c d
  end.

#[export] Instance components_le_dec : RelDecision components_le.
Proof.
  intros l. induction l as [|c l IH]; intros m; [by left|]. destruct m as [|d m]; [right; by intros ?|].
  cbn [components_le]. case_decide; [apply IH|apply _].
Defined.

#[export] Instance components_le_refl : Reflexive components_le.
Proof. intros l. induction l as [|c l IH]; [done|]. simpl. by rewrite decide_True. Qed.
#[export] Instance components_le_trans : Transitive components_le.
Proof.
  intros l. induction l as [|b l IH]; intros [|c m] [|d n]; try done. cbn [components_le].
  destruct (decide (b = c)) as [->|Hbc]; [destruct (decide (c = d)); [apply IH|done]|].
  intros H1. destruct (decide (c = d)) as [->|Hcd]; [by rewrite decide_False|].
  intros H2. rewrite decide_False; [by etrans|].
  intros ->. apply Hbc. by apply (anti_symm component_le).
Qed.
#[export] Instance components_le_antisymm : AntiSymm (=) components_le.
Proof.
  intros l. induction l as [|c l IH]; intros [|d m]; try done. cbn [components_le].
  destruct (decide (c = d)) as [->|Hcd].
  - rewrite decide_True by done. intros H1 H2. f_equal. by apply IH.
  - rewrite decide_False by done. intros H1 H2. destruct Hcd. by apply (anti_symm component_le).
Qed.
#[export] Instance components_le_total : Total components_le.
Proof.
  intros l. induction l as [|c l IH]; intros [|d m]; [by left|by left|by right|]. cbn [components_le].
  destruct (decide (c = d)) as [->|Hcd]; [rewrite decide_True by done; apply IH|].
  rewrite decide_False by done. apply total, _.
Qed.

(** [Ord for Path]. *)
Definition path_le (p q : string) : Prop := components_le (path_components p) (path_components q).
#[export] Instance path_le_dec : RelDecision path_le.
Proof. intros p q. apply components_le_dec. Defined.
#[export] Instance path_le_trans : Transitive path_le.
Proof. intros p q r. apply components_le_trans. Qed.
#[export] Instance path_le_total : Total path_le.
Proof. intros p q. apply components_le_total. Qed.

Definition path_equal (p q : string) : Prop := path_components p = path_components q.
#[export] Instance path_equal_equiv : Equivalence path_equal.
Proof. unfold path_equal. split; [by intros p|by intros p q|]. intros p q r. congruence. Qed.

(** [paths.sort(); paths.dedup()]. *)
Definition sort_dedup (paths : list string) : list string :=
  dedup_by path_eq (merge_sort path_le paths).

Lemma path_eq_spec p q : path_eq p q = true ↔ path_equal p q.
Proof. apply bool_decide_eq_true. Qed.

Lemma sort_dedup_elem paths p : p ∈ sort_dedup paths → p ∈ paths.
Proof. intros Hp%dedup_by_subseteq. by rewrite merge_sort_Permutation in Hp. Qed.

Lemma sort_dedup_covers paths p : p ∈ paths → ∃ q, q ∈ sort_dedup paths ∧ path_equal q p.
Proof.
  intros Hp. apply (dedup_by_covers path_eq path_equal); [apply path_eq_spec|].
  by rewrite merge_sort_Permutation.
Qed.

Lemma sort_dedup_nil paths : sort_dedup paths = [] ↔ paths = [].
Proof.
  unfold sort_dedup. rewrite dedup_by_nil. split; [|by intros ->].
  intros Hs. apply Permutation_nil_r. by rewrite <-Hs, merge_sort_Permutation.
Qed.

Lemma sort_dedup_strict paths :
  StronglySorted (λ p q, path_le p q ∧ ¬ path_equal p q) (sort_dedup paths).
Proof.
  apply dedup_by_strict; [apply _|apply path_eq_spec| |intros p q ?; by symmetry|
    intros p q r ??; by etrans|apply (StronglySorted_merge_sort path_le)].
  unfold path_le, path_equal. intros p q r Hpq Hqr Heq.
  apply (anti_symm components_le); [done|]. by rewrite Heq.
Qed.

(** ** Events *)

Inductive AccessMode : Set := AccessModeAny | Execute | Read | Write | AccessModeOther.
Inductive AccessKind : Set :=
  | AccessAny | AccessRead | Open (mode : AccessMode) | Close (mode : AccessMode) | AccessOther.
(** What [Create], [Modify] and [Remove] carry is not inspected. *)
Inductive EventKind : Set := KindAny | Access (kind : AccessKind) | Create | Modify | Remove | KindOther.
Record Event : Set := mkEvent { ev_kind : EventKind; ev_paths : list string }.

(** An item of the channel: [notify::Result<Event>]. *)
Inductive Received : Set := Arrived (event : Event) | WatchError.

Definition IGNORED_DIR_NAMES : list string := [".lil"].

Definition is_relevant_event (event : Event) : bool :=
  match ev_kind event with
  | Access (AccessAny | AccessRead | Open _ | Close (Read | Execute | AccessModeOther) | AccessOther) => false
  | _ => true
  end.

Definition is_ignored_event_path (p : string) : bool :=
  existsb (λ c, bool_decide (to_string_lossy (component_name c) ∈ IGNORED_DIR_NAMES))
    (path_components p).

(** The paths an item of the channel adds to a batch. *)
Definition relevant_paths (r : Received) : list string :=
  match r with
  | Arrived event => if is_relevant_event event then ev_paths event else []
  | WatchError => []
  end.

(** [drain_debounce_window]: [arrivals] more items arrive before the deadline;
    the channel may be closed sooner.  The paths, and the rest of the channel. *)
Fixpoint drain_debounce_window (arrivals : nat) (rx : list Received) (paths : list string)
  : list string * list Received :=
  match arrivals, rx with
  | S arrivals, r :: rx => drain_debounce_window arrivals rx (paths ++ relevant_paths r)
  | _, _ => (paths, rx)
  end.

(** What is sent for the paths of a window: nothing when none is left. *)
Definition batch (paths : list string) : list (list string) :=
  match sort_dedup (List.filter (λ p, negb (is_ignored_event_path p)) paths) with
  | [] => []
  | paths => [paths]
  end.

(** The thread of [spawn_watcher], until the channel is closed: the batches it
    sends.  [arrivals n] items arrive within the [n]-th window.  Every turn
    takes an item, so the length of the channel is enough fuel. *)
Fixpoint watch_loop (arrivals : nat → nat) (fuel n : nat) (rx : list Received) : list (list string) :=
  match fuel, rx with
  | S fuel, WatchError :: rx => watch_loop arrivals fuel n rx
  | S fuel, Arrived event :: rx =>
      let '(paths, rx) := drain_debounce_window (arrivals n) rx (relevant_paths (Arrived event)) in
      batch paths ++ watch_loop arrivals fuel (S n) rx
  | _, _ => []
  end.
Definition spawn_watcher (arrivals : nat → nat) (rx : list Received) : list (list string) :=
  watch_loop arrivals (length rx) 0 rx.

(** [run_polling]: every interval asks for a rescan, as often as it is read. *)
Definition run_polling (intervals : nat) : list (list string) := replicate intervals [].

(** ** What reaches the daemon *)

Lemma drain_spec arrivals rx paths paths' rx' :
  drain_debounce_window arrivals rx paths = (paths', rx') →
  ∃ taken, rx = taken ++ rx' ∧ paths' = paths ++ mjoin (relevant_paths <$> taken).
Proof.
  revert rx paths. induction arrivals as [|k IH]; intros rx paths.
  { intros [= <- <-]. exists []. split; [done|]. by rewrite app_nil_r. }
  destruct rx as [|r rx]; cbn [drain_debounce_window].
  { intros [= <- <-]. exists []. split; [done|]. by rewrite app_nil_r. }
  intros (taken & -> & ->)%IH. exists (r :: taken). split; [done|]. simpl. by rewrite app_assoc.
Qed.

(** The windows cut the items of the channel into consecutive runs. *)
Lemma watch_loop_runs arrivals fuel n rx :
  (length rx ≤ fuel)%nat →
  ∃ runs : list (list Received), mjoin runs = rx ∧
    watch_loop arrivals fuel n rx = mjoin ((λ run, batch (mjoin (relevant_paths <$> run))) <$> runs).
Proof.
  revert n rx. induction fuel as [|fuel IH]; intros n [|r rx] Hlen; simpl in Hlen; try lia;
    try by (exists []).
  destruct r as [event|]; cbn [watch_loop].
  - destruct (drain_debounce_window _ rx _) as [paths rx'] eqn:Hd.
    apply drain_spec in Hd as (taken & -> & ->). rewrite length_app in Hlen.
    destruct (IH (S n) rx' ltac:(lia)) as (runs & <- & ->).
    exists ((Arrived event :: taken) :: runs). by split.
  - destruct (IH n rx ltac:(lia)) as (runs & <- & ->). by exists ([WatchError] :: runs).
Qed.

Lemma elem_of_batch b paths :
  b ∈ batch paths ↔
  b ≠ [] ∧ b = sort_dedup (List.filter (λ p, negb (is_ignored_event_path p)) paths).
Proof.
  unfold batch. destruct (sort_dedup _) as [|p l] eqn:E.
  - split; [by intros ?%elem_of_nil|]. by intros [? ->].
  - rewrite list_elem_of_singleton. split; [by intros ->|by intros [_ ->]].
Qed.

Lemma elem_of_kept p paths :
  p ∈ List.filter (λ p, negb (is_ignored_event_path p)) paths ↔
  p ∈ paths ∧ is_ignored_event_path p = false.
Proof. rewrite !list_elem_of_In, filter_In. by rewrite negb_true_iff. Qed.

Lemma elem_of_relevant p l :
  p ∈ mjoin (relevant_paths <$> l) ↔
  ∃ event, Arrived event ∈ l ∧ is_relevant_event event = true ∧ p ∈ ev_paths event.
Proof.
  rewrite list_elem_of_join. setoid_rewrite list_elem_of_fmap. split.
  - intros (ps & Hp & [event|] & -> & Hin); cbn [relevant_paths] in Hp; [|by apply elem_of_nil in Hp].
    destruct (is_relevant_event event) eqn:E; [by exists event|by apply elem_of_nil in Hp].
  - intros (event & Hin & Hrel & Hp). exists (ev_paths event). split; [done|].
    exists (Arrived event). split; [|done]. cbn [relevant_paths]. by rewrite Hrel.
Qed.

(** C37. watcher_batches: whatever falls into which debounce window, the batches
    the watcher sends are those of consecutive runs of the events; no batch is
    empty, each lists its paths in order and once, all of them paths of relevant
    events outside [.lil]; and no such path is lost. *)
Theorem watcher_batches arrivals rx :
  let sent := spawn_watcher arrivals rx in
  (∃ runs, mjoin runs = rx ∧ sent = mjoin ((λ run, batch (mjoin (relevant_paths <$> run))) <$> runs)) ∧
  (∀ b, b ∈ sent → b ≠ [] ∧ StronglySorted (λ p q, path_le p q ∧ ¬ path_equal p q) b) ∧
  (∀ b p, b ∈ sent → p ∈ b → is_ignored_event_path p = false ∧
     ∃ event, Arrived event ∈ rx ∧ is_relevant_event event = true ∧ p ∈ ev_paths event) ∧
  (∀ event p, Arrived event ∈ rx → is_relevant_event event = true → p ∈ ev_paths event →
     is_ignored_event_path p = false → ∃ b q, b ∈ sent ∧ q ∈ b ∧ path_equal q p).
Proof.
  destruct (watch_loop_runs arrivals (length rx) 0 rx) as (runs & <- & Hsent); [done|].
  unfold spawn_watcher. rewrite Hsent. split; [by exists runs|].
  assert (∀ b, b ∈ mjoin ((λ run, batch (mjoin (relevant_paths <$> run))) <$> runs) →
    ∃ run, run ∈ runs ∧ b ≠ [] ∧
      b = sort_dedup (List.filter (λ p, negb (is_ignored_event_path p)) (mjoin (relevant_paths <$> run)))) as Hb.
  { intros b (bs & Hbs & (run & -> & Hrun)%list_elem_of_fmap)%list_elem_of_join.
    apply elem_of_batch in Hbs as [??]. by exists run. }
  split_and!.
  - intros b (run & _ & Hne & ->)%Hb. split; [done|apply sort_dedup_strict].
  - intros b p (run & Hrun & _ & ->)%Hb Hp%sort_dedup_elem.
    apply elem_of_kept in Hp as [(event & Hin & Hev)%elem_of_relevant Hign]. split; [done|].
    exists event. split; [|done]. apply list_elem_of_join. by exists run.
  - intros event p (run & Hin & Hrun)%list_elem_of_join Hrel Hp Hign.
    destruct (sort_dedup_covers
      (List.filter (λ p, negb (is_ignored_event_path p)) (mjoin (relevant_paths <$> run))) p) as (q & Hq & Hqp).
    { apply elem_of_kept. split; [|done]. apply elem_of_relevant. by exists event. }
    eexists _, q. split; [|done]. apply list_elem_of_join. eexists. split; [|by apply list_elem_of_fmap; exists run].
    apply elem_of_batch. split; [|done]. intros E. rewrite E in Hq. by apply elem_of_nil in Hq.
Qed.
