(* ===== verification/Logging.v ===== *)
(** * The rolling log file: [src/src/logging.rs]

    [RollingWriter] behind the [tracing] subscriber, which hands it one event at
    a time under a mutex.  A file opened for appending is a handle; what the
    writer relies on is stated in [LogFsLaws].  The set-up of the subscriber is
    third-party code; the level that chooses the mode is an argument. *)

From S2P Require Import Prelude Paths Bytes Utf8 Fs Ignore.

Definition MAX_LOG_BYTES : Z := 10 * 1024 * 1024.

Inductive RotationMode : Set := Roll | Trim.

(** [str::to_lowercase] as far as it matters: no other character becomes one of
    the ASCII letters the result is compared with. *)
Definition ascii_lower (a : ascii) : ascii :=
  if (65 <=? byte_val a) && (byte_val a <=? 90) then byte_of (byte_val a + 32) else a.
Fixpoint to_lowercase (s : string) : string :=
  match s with "" => "" | String a s => String (ascii_lower a) (to_lowercase s) end.

Definition rotation_mode (env_filter : string) : RotationMode :=
  let level := to_lowercase (trim env_filter) in
  if bool_decide (level = "debug") || bool_decide (level = "warn") then Roll else Trim.

(** [Path::with_file_name]. *)
Definition with_file_name (p name : string) : string :=
  match path_file_name p, path_parent p with
  | Some _, Some parent => path_join parent name
  | _, _ => path_join p name
  end.

(** Handles: opening for appending (creating the file), the length in the
    metadata, [File::create], and one [write] that takes some of the bytes. *)
Class LogFs (F Hd : Type) `{FsOps F} := {
  log_open_append : string → M F Hd;
  log_metadata_len : Hd → M F Z;
  log_create : string → M F Hd;
  log_write : Hd → string → M F nat;
  log_content : Hd → F → string
}.

Class LogFsLaws (F Hd : Type) `{LogFs F Hd} : Prop := {
  metadata_len h f f' n : log_metadata_len h f = (f', Ok n) →
    log_content h f' = log_content h f ∧ n = Z.of_nat (strlen (log_content h f));
  create_empties p f f' h : log_create p f = (f', Ok h) → log_content h f' = "";
  write_appends h buf f f' n : log_write h buf f = (f', Ok n) →
    (n ≤ strlen buf)%nat ∧ log_content h f' = log_content h f +:+ str_take n buf;
  failed_write h buf f f' e : log_write h buf f = (f', Err e) → log_content h f' = log_content h f
}.

Record RollingWriter (Hd : Type) : Type := mkWriter {
  rw_path : string;
  rw_file : Hd;
  rw_written : Z;
  rw_mode : RotationMode
}.
Arguments mkWriter {Hd}.
Arguments rw_path {Hd}.
Arguments rw_file {Hd}.
Arguments rw_written {Hd}.
Arguments rw_mode {Hd}.

Section Logging.
Context {F Hd : Type} `{LogFs F Hd} (err_text : ErrorKind → string).

Definition rolling_open (p : string) (mode : RotationMode) : M F (RollingWriter Hd) :=
  (match path_parent p with Some parent => fs_create_dir_all parent | None => m_ret () end ;;
   file <- log_open_append p ;;
   written <- log_metadata_len file ;;
   m_ret (mkWriter p file written mode))%m.

(** [init_file_logging]; [env_filter] is the filter of the environment. *)
Definition init_file_logging (env_filter p : string) : M F (RollingWriter Hd) :=
  rolling_open p (rotation_mode env_filter).

(** [Write::write_all]: a write that takes nothing is an error. *)
Fixpoint write_all (fuel : nat) (h : Hd) (buf : string) : M F () :=
  if decide (buf = "") then m_ret ()
  else match fuel with
       | O => m_err OtherError
       | S fuel =>
           (n <- log_write h buf ;;
            if decide (n = 0%nat) then m_err OtherError else write_all fuel h (str_drop n buf))%m
       end.
Definition writeln (h : Hd) (line : string) : M F () :=
  let buf := line +:+ String (byte_of 10) "" in write_all (strlen buf) h buf.

Definition LW : Type := F * RollingWriter Hd.
Definition lw_fs {A} : M F A → M LW A := m_zoom fst (λ f w, (f, w.2)).
Definition lw_get : M LW (RollingWriter Hd) := m_gets snd.
Definition lw_put (w : RollingWriter Hd) : M LW () := m_modify (λ s, (s.1, w)).

Definition rotate : M LW () :=
  (w <- lw_get ;;
   match rw_mode w with
   | Roll =>
       let name := to_string_lossy (default "" (path_file_name (rw_path w))) in
       let backup := with_file_name (rw_path w) (name +:+ ".1") in
       lw_fs (m_ignore (fs_rename (rw_path w) backup)) ;;
       file <- lw_fs (log_create (rw_path w)) ;;
       lw_put (mkWriter (rw_path w) file (rw_written w) (rw_mode w))
   | Trim =>
       file <- lw_fs (log_create (rw_path w)) ;;
       lw_put (mkWriter (rw_path w) file (rw_written w) (rw_mode w)) ;;
       lw_fs (m_ignore (writeln file "--- log trimmed ---"))
   end ;;
   w <- lw_get ;;
   lw_put (mkWriter (rw_path w) (rw_file w) 0 (rw_mode w)))%m.

(** [Write::write] of [RollingWriter]. *)
Definition rolling_write (buf : string) : M LW nat :=
  (w <- lw_get ;;
   (if MAX_LOG_BYTES <=? rw_written w then
      r <- m_try rotate ;;
      match r with
      | Ok _ => m_ret ()
      | Err err =>
          w <- lw_get ;;
          lw_fs (m_ignore (writeln (rw_file w) ("[log rotation failed: " +:+ err_text err +:+ "]")))
      end
    else m_ret ()) ;;
   w <- lw_get ;;
   n <- lw_fs (log_write (rw_file w) buf) ;;
   lw_put (mkWriter (rw_path w) (rw_file w) (add64 (rw_written w) (Z.of_nat n)) (rw_mode w)) ;;
   m_ret n)%m.

(** ** The log stays small *)

Context `{!LogFsLaws F Hd}.

(** The marker of a trimmed log, with its line feed. *)
Definition TRIM_MARKER_BYTES : Z := 20.

Lemma write_all_content fuel h buf f f' r :
  write_all fuel h buf f = (f', r) →
  ∃ s, log_content h f' = log_content h f +:+ s ∧ (strlen s ≤ strlen buf)%nat.
Proof.
  revert buf f. induction fuel as [|fuel IH]; intros buf f; cbn [write_all]; case_decide.
  1-3: intros [= <- _]; exists ""; by rewrite append_nil_r; split; [|simpl; lia].
  unfold m_bind. destruct (log_write h buf f) as [f1 [n|e]] eqn:Hw.
  - apply write_appends in Hw as [Hn Hc]. case_decide.
    { intros [= <- _]. exists (str_take n buf). split; [done|]. rewrite strlen_str_take. lia. }
    intros (s & -> & Hs)%IH. exists (str_take n buf +:+ s). rewrite Hc, append_assoc. split; [done|].
    rewrite strlen_str_drop in Hs. rewrite strlen_append, strlen_str_take. lia.
  - apply failed_write in Hw. intros [= <- _]. exists "". rewrite append_nil_r. split; [done|simpl; lia].
Qed.

Abbreviation log_len f w := (Z.of_nat (strlen (log_content (rw_file w) f))).

(** The count is that of the file, but for the marker. *)
Definition counted (f : F) (w : RollingWriter Hd) : Prop :=
  0 ≤ rw_written w ∧ log_len f w ≤ rw_written w + TRIM_MARKER_BYTES.

Context (Hcreate : ∀ p f, ∃ f' h, log_create p f = (f', Ok h)).

Lemma rotate_empties f w :
  ∃ f' w', rotate (f, w) = ((f', w'), Ok ()) ∧ rw_written w' = 0 ∧ log_len f' w' ≤ TRIM_MARKER_BYTES.
Proof.
  unfold rotate, m_bind at 1, lw_get at 1, m_gets at 1. cbn [snd].
  destruct (rw_mode w) eqn:Em; unfold m_bind, lw_fs, m_zoom, m_ignore; cbn [fst snd].
  - destruct (fs_rename _ _ f) as [f1 r1]. destruct (Hcreate (rw_path w) f1) as (f2 & h & Hc).
    cbn [fst snd]. rewrite Hc. eexists _, _. split; [reflexivity|]. cbn. split; [done|].
    rewrite (create_empties _ _ _ _ Hc). unfold TRIM_MARKER_BYTES. simpl. lia.
  - destruct (Hcreate (rw_path w) f) as (f2 & h & Hc). cbn [fst snd]. rewrite Hc.
    cbn [lw_put m_modify fst snd]. destruct (writeln h _ f2) as [f3 r3] eqn:Hw.
    eexists _, _. split; [reflexivity|]. cbn. split; [done|].
    apply write_all_content in Hw as (s & -> & Hs). rewrite (create_empties _ _ _ _ Hc).
    change ("" +:+ s) with s. unfold TRIM_MARKER_BYTES. simpl in Hs. lia.
Qed.

(** The first half of a write: rotate when the file is full. *)
Lemma rolling_write_rotated buf f w :
  counted f w → ∃ f1 w1, counted f1 w1 ∧ rw_written w1 < MAX_LOG_BYTES ∧
    rolling_write buf (f, w) =
      (n <- lw_fs (log_write (rw_file w1) buf) ;;
       lw_put (mkWriter (rw_path w1) (rw_file w1) (add64 (rw_written w1) (Z.of_nat n)) (rw_mode w1)) ;;
       m_ret n)%m (f1, w1).
Proof.
  intros [Hpos Hlen]. unfold rolling_write. rewrite (m_bind_Ok _ _ _ (f, w) w) by done.
  destruct (Z.leb_spec MAX_LOG_BYTES (rw_written w)) as [_|Hlt].
  - destruct (rotate_empties f w) as (f1 & w1 & Hrot & Hz & Hl). exists f1, w1.
    split; [unfold counted; lia|]. split; [by rewrite Hz|].
    rewrite (m_bind_Ok _ _ _ (f1, w1) ()); [done|].
    rewrite (m_bind_Ok _ _ _ (f1, w1) (Ok ())); [done|]. unfold m_try. by rewrite Hrot.
  - exists f, w. split; [done|]. split; [done|]. by rewrite (m_bind_Ok _ _ _ (f, w) ()).
Qed.

Lemma rolling_write_spec B buf f w f' w' r :
  0 ≤ B < 2 ^ 63 → Z.of_nat (strlen buf) ≤ B → counted f w →
  rolling_write buf (f, w) = ((f', w'), r) →
  counted f' w' ∧ rw_written w' ≤ MAX_LOG_BYTES - 1 + B ∧
  (∀ n, r = Ok n → ∃ before, log_content (rw_file w') f' = before +:+ str_take n buf).
Proof.
  intros HB Hbuf Hc. destruct (rolling_write_rotated buf f w Hc) as (f1 & w1 & [Hpos Hlen] & Hlt & ->).
  unfold m_bind, lw_fs, m_zoom. cbn [fst snd].
  destruct (log_write (rw_file w1) buf f1) as [f2 [n|e]] eqn:Hw.
  - intros [= <- <- <-]. apply write_appends in Hw as [Hn Hcont].
    unfold counted. cbn [rw_written rw_file]. rewrite Hcont, strlen_append, strlen_str_take.
    rewrite add64_small by (unfold MAX_LOG_BYTES, u64_modulus in *; lia).
    split_and!; [lia|lia|lia|]. intros ? [= <-]. by eexists.
  - intros [= <- <- <-]. apply failed_write in Hw. unfold counted. cbn [snd]. rewrite Hw.
    split_and!; [done|done|lia|done].
Qed.

(** Several log events, one after the other. *)
Definition log_events (bufs : list string) : M LW () := m_for bufs (λ b, m_ignore (rolling_write b)).

Lemma log_events_counted B bufs f w f' w' r :
  0 ≤ B < 2 ^ 63 → Forall (λ b, Z.of_nat (strlen b) ≤ B) bufs → counted f w →
  log_events bufs (f, w) = ((f', w'), r) → r = Ok () ∧ counted f' w'.
Proof.
  intros HB Hb. revert f w. induction Hb as [|b bufs Hb _ IH]; intros f w Hc.
  { by intros [= <- <- <-]. }
  unfold log_events. cbn [m_for]. unfold m_bind, m_ignore at 1.
  destruct (rolling_write b (f, w)) as [[f1 w1] r1] eqn:Hw. apply IH.
  by apply (rolling_write_spec B) in Hw as (? & _ & _).
Qed.

End Logging.
