(* ===== verification/Main.v ===== *)
(** * The program: [src/src/main.rs]

    [main] and the dispatch of [run].  A command's output is left out; an error
    is exit status 1.  The process modelled is the one [Process.daemonize] lets
    go on; its PID - or the failure - is an argument, like the parser of the
    command line and the set-up of the subscriber of [tracing]. *)

From stdpp Require Import pretty.
From S2P Require Import Prelude Paths Bytes Utf8 Fs Ignore Decimal Identity Group Endpoints Addresses.
From S2P Require Import Entries Scan Tree State Messages Rpc Sync Daemon Commands Process Logging Cli Startup.

Section Main.
Context {F K Hd : Type} `{FsOps F} `{Kernel K} `{LogFs F Hd}.
Context `{StateCodec} `{GroupJson} `{BookJson} `{Ed25519} `{DumpJson}.
Context (blake3 : string → Hash) (message_len : GossipMessage → Z).
Context (open_for_writing : string → M F ()).
Context (bind : Z → M K Z) (watch : string → M K ()) (outside : F → F).
Context (others : nat → Daemon (F:=F) → Daemon (F:=F)).
Abbreviation Host := (Host (F:=F) (K:=K)).

(** What a run depends on besides the command: the PID of the process it started
    as and of the daemon it forks, the random bytes, the interfaces, the log
    filter, the time of the first announcements and the events of the daemon
    until it is told to shut down. *)
Record Ambient : Type := mkAmbient {
  am_pid : Z;
  am_daemonized : IoResult Z;
  am_random : IoResult string;
  am_random_secret : IoResult string;
  am_interfaces : option (list IpAddr);
  am_env_filter : string;
  am_now : Z;
  am_events : list DaemonEvent
}.

(** Joining uses a client of its own, with an empty address book. *)
Context {C : Type} `{RpcConn C} (dial : string → M K C).

Definition join (id : NodeId) (state_dir ticket : string) : M Host () :=
  λ h, let '(c, r) := join_group_cmd dial id ∅ state_dir ticket (mkClient ∅ h.2 1 h.1) in
       ((cl_fs c, net c), r).

Definition make_state_dir (folder : string) : M Host string :=
  (on_files (fs_create_dir_all folder) ;;
   let state_dir := path_join folder STATE_DIR in
   on_files (fs_create_dir_all state_dir) ;;
   m_ret state_dir)%m.

Definition sync (env : Ambient) (pid : Z) (a : SyncArgs) : M Host () :=
  run_sync blake3 message_len open_for_writing bind watch outside others (am_now env) (am_events env)
    pid (am_random env) (am_interfaces env) a.

Definition run (env : Ambient) (pid : Z) (command : Command) : M Host () :=
  match command with
  | Invite folder expire_secs endpoint =>
      (state_dir <- make_state_dir folder ;;
       on_files (create_invite blake3 state_dir expire_secs endpoint (am_interfaces env)
                   (am_random env) (am_random_secret env)) ;;
       m_ret ())%m
  | Remove folder target =>
      (state_dir <- make_state_dir folder ;;
       removed <- on_files (remove_peer_cmd state_dir (am_random env) target) ;;
       match removed with Some _ => m_ret () | None => m_err OtherError end)%m
  | Peers folder =>
      (state_dir <- make_state_dir folder ;;
       on_files (peers_cmd state_dir (am_random env)) ;;
       m_ret ())%m
  | Status folder => (status_cmd blake3 folder (am_random env) ;; m_ret ())%m
  | Stop folder => (stop_cmd (path_join folder STATE_DIR) ;; m_ret ())%m
  | DumpState folder prefix => (on_files (dump_state_cmd folder prefix) ;; m_ret ())%m
  | Join folder ticket name exit status port =>
      (state_dir <- make_state_dir folder ;;
       identity <- on_files (load_or_create (path_join state_dir KEY_FILE) (am_random env)) ;;
       join (node_id identity) state_dir ticket ;;
       if exit : bool then m_ret ()
       else sync env pid (mkSyncArgs folder name false 10 port))%m
  | Start folder name poll _ secs port | Watch folder name poll _ secs _ port =>
      sync env pid (mkSyncArgs folder name poll secs port)
  end.

(** What [main] does for the daemon before the command: the PID of the process
    that goes on. *)
Definition become_daemon (env : Ambient) (log_path : string) : M Host Z :=
  (pid <- m_lift (am_daemonized env) ;;
   let state_dir := default "" (path_parent log_path) in
   on_files (m_ignore (fs_write (path_join state_dir PID_FILE) (pretty pid))) ;;
   on_files (init_file_logging (Hd:=Hd) (am_env_filter env) log_path) ;;
   m_ret pid)%m.

(** [main]: an error is exit status 1. *)
Definition main (env : Ambient) (command : Command) : M Host () :=
  match daemon_log_path command with
  | Some log_path => (pid <- become_daemon env log_path ;; run env pid command)%m
  | None => run env (am_pid env) command
  end.
End Main.

(** ** Stopping what was started *)

Section PidFile.
Context {F K Hd : Type} `{FsOps F} `{Kernel K} `{LogFs F Hd}.
(** A file that was written reads back, and opening the log leaves the PID file
    alone. *)
Context (Hwrite : ∀ p b (f f' : F), fs_write p b f = (f', Ok ()) → ∃ sr, fs_read p f' = (sr, Ok b)).
Context (env : Ambient) (log_path : string).
Let state_dir := default "" (path_parent log_path).
Let pid_path := path_join state_dir PID_FILE.
Context (Hlog : ∀ (f : F), (fs_read pid_path (init_file_logging (Hd:=Hd) (am_env_filter env) log_path f).1).2 =
                           (fs_read pid_path f).2).

Lemma pid_text_utf8 pid : 0 ≤ pid → is_utf8 (pretty pid) = true.
Proof.
  intros Hpid. apply ascii_utf8, (str_all_mono (λ a, byte_val a <=? 127)); [|by apply digits_ascii].
  intros a Ha. unfold in_range. rewrite Ha, andb_true_r. apply Z.leb_le, byte_val_range.
Qed.

Lemma read_pid pid (f : F) :
  0 ≤ pid → (fs_read pid_path f).2 = Ok (pretty pid) →
  (fs_read_to_string pid_path f).2 = Ok (pretty pid).
Proof.
  intros Hpid. unfold fs_read_to_string, m_bind. destruct (fs_read pid_path f) as [f1 r]. simpl.
  intros ->. unfold m_lift, utf8_or_invalid. by rewrite pid_text_utf8.
Qed.

(** If [start] could write the PID file, then as long
    as the file is left alone, [status] reports that very process as running
    when it exists, and [stop] sends the signal to it and to nobody else. *)
Theorem pid_file_round_trip pid (h h1 h2 : Host (F:=F) (K:=K))
    (Hpid : 0 ≤ pid < 2 ^ 31)
    (Hstart : become_daemon (Hd:=Hd) env log_path h = (h1, Ok pid))
    (Hok : (fs_write pid_path (pretty pid) h.1).2 = Ok ())
    (Hkept : (fs_read pid_path h2.1).2 = (fs_read pid_path h1.1).2) :
  ((kill pid 0 h2.2).2 = Delivered →
     (daemon_running_status state_dir h2).2 = Ok ("running   pid " +:+ pretty pid)) ∧
  ((kill pid SIGTERM h2.2).2 = Delivered →
     (stop_cmd state_dir h2).2 = Ok pid ∧ (stop_cmd state_dir h2).1.2 = (kill pid SIGTERM h2.2).1).
Proof.
  assert ((fs_read_to_string pid_path h2.1).2 = Ok (pretty pid)) as Hread.
  { apply read_pid; [lia|]. rewrite Hkept. unfold become_daemon in Hstart.
    apply m_bind_inv in Hstart as (h3 & pid' & [= <- Hp] & Hstart).
    apply m_bind_inv in Hstart as (h4 & [] & Hw & Hstart).
    apply m_bind_inv in Hstart as (h5 & w & Hl & [= <- ->]). fold state_dir pid_path in Hw.
    unfold on_files, m_zoom, m_ignore in Hw, Hl. destruct (fs_write pid_path _ h.1) as [f4 r4] eqn:E.
    simpl in Hok. subst r4. injection Hw as <-. cbn [fst snd] in Hl.
    pose proof (Hlog f4) as Hf4. destruct (init_file_logging _ _ f4) as [f5 r5].
    injection Hl as <- _. cbn [fst] in Hf4 |- *. rewrite Hf4.
    apply Hwrite in E as [sr E]. by rewrite E. }
  destruct (fs_read_to_string pid_path h2.1) as [f r] eqn:Er. simpl in Hread. subst r.
  split; intros Hk.
  - unfold daemon_running_status. fold pid_path.
    unfold m_bind, m_try, on_files, m_zoom. rewrite Er, parse_i32_pretty by done.
    unfold send_signal, on_kernel, m_zoom. cbn [fst snd]. destruct (kill pid 0 h2.2) as [k r]. simpl in Hk.
    by subst r.
  - unfold stop_cmd. fold pid_path. unfold m_bind, m_try, on_files, m_zoom, m_lift. rewrite Er.
    rewrite parse_i32_pretty by done. cbn [ok_or]. unfold send_signal, on_kernel, m_zoom. cbn [fst snd].
    destruct (kill pid SIGTERM h2.2) as [k r]. simpl in Hk. subst r. cbn [snd fst].
    unfold m_ignore. destruct (fs_remove_file pid_path f) as [f' r']. by split.
Qed.
End PidFile.
