(* ===== verification/HostWitness.v ===== *)
(** * Starting and stopping daemons

    A host with an in-memory disk and a table of live processes and lock
    holders, on which [lilsync start] runs twice. *)

From stdpp Require Import pretty.
From S2P Require Import Prelude Paths Bytes Utf8 Fs Ignore Decimal Identity Group GroupWitness.
From S2P Require Import Endpoints Addresses Entries Scan Tree Samples State StateWitness.
From S2P Require Import Transport TransportProps TransportWitness Messages Rpc Sync Daemon.
From S2P Require Import Commands JoinWitness Process Cli Startup Logging Main.

Record ToyKernel : Type := mkToy { tk_live : list Z; tk_locks : gmap string Z }.

#[export] Instance toy_kernel : Kernel ToyKernel := {|
  flock_nb pid p k :=
    match tk_locks k !! p with
    | Some holder => if bool_decide (holder ∈ tk_live k) then (k, WouldBlock)
                     else (mkToy (tk_live k) (<[p := pid]> (tk_locks k)), Locked)
    | None => (mkToy (tk_live k) (<[p := pid]> (tk_locks k)), Locked)
    end;
  kill pid signal k :=
    if bool_decide (pid ∈ tk_live k) then
      (if signal =? 0 then k else mkToy (List.filter (λ q, negb (q =? pid)) (tk_live k)) (tk_locks k),
       Delivered)
    else (k, NoSuchProcess)
|}.

(** A log file is appended to by its path. *)
#[export] Instance memfs_log : LogFs MemFs.t string := {|
  log_open_append p := λ s,
    match MemFs.files s !! p with
    | Some (MemFs.MFile _ _ _) => (s, Ok p)
    | Some _ => (s, Err OtherError)
    | None => ((MemFs.write p "" s).1, (λ _, p) <$> (MemFs.write p "" s).2)
    end;
  log_metadata_len h := λ s,
    match MemFs.files s !! h with
    | Some (MemFs.MFile c _ _) => (s, Ok (Z.of_nat (strlen c)))
    | _ => (s, Err NotFound)
    end;
  log_create p := λ s, (MemFs.set_files <[p := MemFs.MFile "" 420 (MemFs.clock s)]> s, Ok p);
  log_write h buf := λ s,
    match MemFs.files s !! h with
    | Some (MemFs.MFile c m t) =>
        (MemFs.set_files <[h := MemFs.MFile (c +:+ buf) m t]> s, Ok (strlen buf))
    | _ => (s, Err NotFound)
    end;
  log_content h := λ s, match MemFs.files s !! h with Some (MemFs.MFile c _ _) => c | _ => "" end
|}.

#[export] Instance memfs_log_laws : LogFsLaws MemFs.t string.
Proof.
  split; cbn [log_metadata_len log_create log_write log_content memfs_log].
  - intros h f f' n. destruct (MemFs.files f !! h) as [[c m t| |]|] eqn:E; try done.
    intros [= <- <-]. by rewrite E.
  - intros p f f' h [= <- <-]. cbn [MemFs.files MemFs.set_files]. by rewrite lookup_insert_eq.
  - intros h buf f f' n. destruct (MemFs.files f !! h) as [[c m t| |]|] eqn:E; try done.
    intros [= <- <-]. cbn [MemFs.files MemFs.set_files]. by rewrite lookup_insert_eq, str_take_all.
  - intros h buf f f' e. destruct (MemFs.files f !! h) as [[c m t| |]|] eqn:E; try done.
    all: intros [= <- _]; by rewrite E.
Qed.

(** ** The log *)

Definition log_fs : MemFs.t :=
  MemFs.mk (list_to_map [("/", MemFs.MDir 493); ("/l", MemFs.MDir 493)]) 0.
Definition log_opened := rolling_open (Hd:=string) "/l/sync.log" Trim log_fs.
Definition log_start : LW (F:=MemFs.t) (Hd:=string) :=
  match log_opened with
  | (f, Ok w) => (f, mkWriter (rw_path w) (rw_file w) MAX_LOG_BYTES (rw_mode w))
  | (f, Err _) => (f, mkWriter "" "" 0 Trim)
  end.
Definition log_run :=
  (log_events (fun e : ErrorKind => "") ["one"; "two"] ;;
   rolling_write (Hd:=string) (fun e => "") "three")%m.

(** A full log is trimmed before the next event. *)
Example log_trims :
  log_content "/l/sync.log" (rolling_write (Hd:=string) (λ e, "") "one" log_start).1.1 =
    "--- log trimmed ---" +:+ String (byte_of 10) "one".
Proof. vm_compute. reflexivity. Qed.

Lemma memfs_creates p (f : MemFs.t) : ∃ f' (h : string), log_create p f = (f', Ok h).
Proof. by eexists _, _. Qed.


(** ** The daemon as a process *)

Definition open_keep (p : string) : M MemFs.t () :=
  λ s, match MemFs.files s !! p with
       | Some (MemFs.MFile _ _ _) => (s, Ok ())
       | Some _ => (s, Err OtherError)
       | None => MemFs.write p "" s
       end.
Definition any_port (p : Z) : M ToyKernel Z := m_ret (if p =? 0 then 4400 else p).
Definition watch_ok (p : string) : M ToyKernel () := m_ret ().
Definition nothing_else {S} (s : S) : S := s.

Abbreviation THost := (Host (F:=MemFs.t) (K:=ToyKernel)).

Definition toy_start_up (outside : MemFs.t → MemFs.t) (pid : Z) : M THost (Daemon (F:=MemFs.t) * Settings) :=
  start_up toy_blake3 open_keep any_port watch_ok outside pid (Ok (be_bytes 32 77)) None
    (mkSyncArgs "/f" None false 10 None).

(** A folder [/f] without [.lil]. *)
Definition new_folder : MemFs.t :=
  MemFs.mk (list_to_map [("/", MemFs.MDir 493); ("/f", MemFs.MDir 493);
    ("/f/b.txt", MemFs.MFile "bee" 420 0)]) (10 ^ 12).

Definition ambient (pid : Z) : Ambient :=
  mkAmbient pid (Ok pid) (Ok (be_bytes 32 77)) (Ok (be_bytes 32 9)) None "info" 0 [].

(** [lilsync start /f] up to its main loop: the process is alive from the fork
    on, and gone when it fails. *)
Definition launch (pid : Z) (h : THost) : THost * IoResult () :=
  let alive := (h.1, mkToy (pid :: tk_live h.2) (tk_locks h.2)) in
  let '(h1, r) := (become_daemon (Hd:=string) (ambient pid) "/f/.lil/sync.log" ;;
                   toy_start_up nothing_else pid ;; m_ret ())%m alive in
  match r with
  | Ok _ => (h1, r)
  | Err _ => ((h1.1, mkToy (List.filter (λ q, negb (q =? pid)) (tk_live h1.2)) (tk_locks h1.2)), r)
  end.

Definition idle_host (f : MemFs.t) : THost := (f, mkToy [] ∅).
Definition started_once : THost := (launch 100 (idle_host new_folder)).1.

Definition status_of (h : THost) : IoResult string := (daemon_running_status "/f/.lil" h).2.
Definition after_stop (h : THost) : THost := (stop_cmd "/f/.lil" h).1.

(** The folder has its [.lil] from an earlier run, nothing is running; then
    [lilsync start] twice. *)
Definition restarted : THost := (launch 200 (idle_host started_once.1)).1.
Definition started_twice : THost := (launch 201 restarted).1.


(** ** A change between the scan and the watch *)

Definition put_file (p : string) (f : MemFs.t) : MemFs.t :=
  MemFs.set_files <[p := MemFs.MFile "text" 420 0]> f.

(** After the start another file appears, and the watcher reports it. *)
Definition later_file (n : nat) (d : Daemon (F:=MemFs.t)) : Daemon (F:=MemFs.t) :=
  if decide (n = 0%nat) then set_world (mkWorld (put_file "/f/later.txt" (d_fs d)) (d_state d)) d else d.

Definition gap_run : Daemon (F:=MemFs.t) * IoResult PublishTracker :=
  match toy_start_up (put_file "/f/missed.txt") 100 (idle_host new_folder) with
  | (_, Ok (d, c)) =>
      main_loop toy_blake3 (λ _, 0) later_file c empty_tracker
        [FsEvent ["/f/later.txt"]; AnnounceTick (10 ^ 10)] d
  | (h, Err e) => (mkDaemon h.1 (sample_state ∅ 0 ∅) (mkGroup "" "" ∅) ∅ false false None ∅ [] [] 0, Err e)
  end.

(** A file created after the initial scan and before
    the watcher is registered is on disk but not in the index, and later events
    of other paths do not bring it in. *)
Theorem startup_misses_change :
  is_ok gap_run.2 = true ∧
  is_ok (fs_read "/f/missed.txt" (d_fs gap_run.1)).2 = true ∧
  st_entries (d_state gap_run.1) !! "missed.txt" = None ∧
  is_Some (st_entries (d_state gap_run.1) !! "b.txt") ∧
  is_Some (st_entries (d_state gap_run.1) !! "later.txt").
Proof. vm_compute. split_and!; [done|done|done|by eexists|by eexists]. Qed.

(** ** The PID file *)

Lemma memfs_write_reads p b (f f' : MemFs.t) :
  fs_write p b f = (f', Ok ()) → ∃ sr, fs_read p f' = (sr, Ok b).
Proof.
  intros Hw. exists f'. simpl in *. unfold MemFs.write in Hw. unfold MemFs.read.
  repeat case_match; simplify_eq; cbn [MemFs.files MemFs.set_files] in *; rewrite lookup_insert_eq in *;
    by simplify_eq.
Qed.

Lemma memfs_dirs_keep (dirs : list string) (m : gmap string MemFs.MNode) p :
  p ∉ dirs →
  foldr (λ d m, match m !! d with None => <[d := MemFs.MDir 493]> m | Some _ => m end) m dirs !! p = m !! p.
Proof.
  induction dirs as [|d dirs IH]; [done|]. rewrite not_elem_of_cons. intros [Hd Hp]. simpl.
  case_match; [by apply IH|]. rewrite lookup_insert_ne by done. by apply IH.
Qed.

Lemma memfs_create_keeps d p (f : MemFs.t) :
  p ∉ d :: ancestors d → MemFs.files (fs_create_dir_all d f).1 !! p = MemFs.files f !! p.
Proof.
  intros Hp. change (fs_create_dir_all d f) with (MemFs.create_dir_all d f). unfold MemFs.create_dir_all.
  cbv zeta. destruct (forallb _ _); [|done]. apply (memfs_dirs_keep _ (MemFs.files f) _ Hp).
Qed.

Lemma memfs_read_frame p (f f' : MemFs.t) :
  MemFs.files f' !! p = MemFs.files f !! p → (fs_read p f').2 = (fs_read p f).2.
Proof. simpl. unfold MemFs.read. intros ->. by repeat case_match. Qed.

Lemma memfs_open_keeps p q (f : MemFs.t) :
  q ≠ p → MemFs.files (log_open_append p f).1 !! q = MemFs.files f !! q.
Proof.
  intros Hq. cbn [log_open_append memfs_log]. unfold MemFs.write.
  repeat case_match; try done; cbn [fst MemFs.files MemFs.set_files]; by rewrite lookup_insert_ne.
Qed.

Lemma memfs_len_keeps h (f : MemFs.t) : (log_metadata_len h f).1 = f.
Proof. cbn [log_metadata_len memfs_log]. by repeat case_match. Qed.

Lemma memfs_log_keeps_pid (f : MemFs.t) :
  (fs_read "/f/.lil/daemon.pid" (init_file_logging (Hd:=string) "info" "/f/.lil/sync.log" f).1).2 =
  (fs_read "/f/.lil/daemon.pid" f).2.
Proof.
  apply memfs_read_frame. unfold init_file_logging, rolling_open.
  change (path_parent "/f/.lil/sync.log") with (Some "/f/.lil").
  unfold m_bind at 1. destruct (fs_create_dir_all "/f/.lil" f) as [f1 r1] eqn:E1.
  assert (MemFs.files f1 !! "/f/.lil/daemon.pid" = MemFs.files f !! "/f/.lil/daemon.pid") as H1.
  { change f1 with (f1, r1).1. rewrite <-E1. apply memfs_create_keeps. decide_now. }
  destruct r1 as [[]|e1]; [|exact H1]. unfold m_bind at 1.
  destruct (log_open_append "/f/.lil/sync.log" f1) as [f2 r2] eqn:E2.
  assert (MemFs.files f2 !! "/f/.lil/daemon.pid" = MemFs.files f1 !! "/f/.lil/daemon.pid") as H2.
  { change f2 with (f2, r2).1. rewrite <-E2. by apply memfs_open_keeps. }
  rewrite <-H1, <-H2. destruct r2 as [h|e2]; [|reflexivity]. unfold m_bind.
  pose proof (memfs_len_keeps h f2) as H3. destruct (log_metadata_len h f2) as [f3 [n|e]]; simpl in H3; by subst.
Qed.

Definition pid_host : THost := (started_once.1, mkToy [300] ∅).
Definition pid_run : THost * IoResult Z :=
  become_daemon (Hd:=string) (ambient 300) "/f/.lil/sync.log" pid_host.

Lemma pid_file_round_trip_witness :
  pid_run.2 = Ok 300 ∧ (stop_cmd "/f/.lil" pid_run.1).2 = Ok 300 ∧
  tk_live (stop_cmd "/f/.lil" pid_run.1).1.2 = [].
Proof.
  assert (pid_run = (pid_run.1, Ok 300)) as Hrun.
  { by rewrite (surjective_pairing pid_run) at 1; f_equal; vm_compute. }
  split; [vm_compute; reflexivity|].
  destruct (pid_file_round_trip memfs_write_reads (ambient 300) "/f/.lil/sync.log"
    memfs_log_keeps_pid 300 pid_host pid_run.1 pid_run.1) as [_ Hstop].
  - lia.
  - exact Hrun.
  - vm_compute. reflexivity.
  - reflexivity.
  - destruct Hstop as [Hr Hk]; [vm_compute; reflexivity|]. split; [exact Hr|].
    etrans; [exact (f_equal tk_live Hk)|]. vm_compute. reflexivity.
Defined.
