(* ===== verification/UnitTests.v ===== *)
(** * The repository's unit tests

    The [tests] modules of [state.rs], [scan.rs], [cli.rs], [commands.rs],
    [daemon.rs], [endpoints.rs], [group.rs], [identity.rs], [sync.rs] and
    [watcher.rs], run on the model.  Each test is a program over the disk and
    the variables of the test, line by line as in the source, and evaluates to
    success.  A test starts in an empty temporary directory.  [to_string]s of
    errors, which the model does not keep, are not compared.  The tests of
    [message.rs] test the JSON crate and the one of [rpc.rs] a timer; neither is
    modelled. *)

From S2P Require Import Prelude Paths Bytes Utf8 Fs Ignore Entries Scan Tree Samples State.
From S2P Require Import Identity Ticket Group GroupWitness Endpoints Addresses Transport TransportWitness.
From S2P Require Import Download Messages Rpc Sync Daemon DaemonWitness Commands JoinWitness Process HostWitness Watcher.

(** ** Persistence that can be read back *)

#[export] Instance EntryKind_countable : Countable EntryKind.
Proof.
  refine (inj_countable'
    (λ k, match k with File => 0 | Dir => 1 | Symlink => 2 | Tombstone => 3 end)%nat
    (λ n, match n with 0%nat => File | 1%nat => Dir | 2%nat => Symlink | _ => Tombstone end) _).
  by intros [].
Defined.
#[export] Instance Version_countable : Countable Version.
Proof.
  refine (inj_countable' (λ v, (lamport v, origin v)) (λ p, mkVersion p.1 p.2) _). by intros [].
Defined.
#[export] Instance Entry_countable : Countable Entry.
Proof.
  refine (inj_countable'
    (λ e, (path e, kind e, (content_hash e, symlink_target e), (size e, mode e, version e)))
    (λ '(p, k, (h, t), (s, m, v)), mkEntry p k h t s m v) _).
  by intros [].
Defined.
#[export] Instance CachedFile_countable : Countable CachedFile.
Proof.
  refine (inj_countable' (λ c, (cf_size c, cf_mtime c, cf_hash c)) (λ '(s, m, h), mkCached s m h) _).
  by intros [].
Defined.

#[export] Instance digit_codec : StateCodec := {|
  cache_codec := {| ser_cache := count_ser; de_cache := count_de |};
  ser_entries := count_ser;
  de_entries := count_de;
  de_legacy_entries := λ _, None;
  ser_watermark := count_ser;
  de_watermark := count_de
|}.

(** ** The vocabulary of the tests *)

Abbreviation World := (World (F:=MemFs.t)).
Definition Test : Type := M World ().

Definition tmp (p : string) : string := path_join "/tmp" p.
Definition tempdir : World :=
  mkWorld
    (MemFs.mk (list_to_map [("/", MemFs.MDir 493); ("/tmp", MemFs.MDir 493)]) (10 ^ 12))
    (mkState "" "" 0 ∅ ∅ (empty_snapshot toy_blake3) (empty_snapshot toy_blake3) empty_cache).
Definition passes (t : Test) : bool := is_ok (t tempdir).2.

Definition assert {S} (b : bool) : M S () := m_lift (if b then Ok () else Err OtherError).
(** [fs::write]; time passes between two writes. *)
Definition write (p bytes : string) : Test := on_fs (m_sleep 1 ;; fs_write p bytes)%m.
Definition remove_file (p : string) : Test := on_fs (fs_remove_file p).
Definition create_dir (p : string) : Test := on_fs (fs_create_dir_all p).
Definition remove_dir_all (p : string) : Test := on_fs (fs_remove_dir_all p).
Definition chmod (p : string) (md : Z) : Test := on_fs (fs_set_permissions p md).
Definition metadata (p : string) : M World Metadata := on_fs (fs_symlink_metadata p).
Definition exists_at (p : string) : M World bool := (r <- m_try (metadata p) ;; m_ret (is_ok r))%m.

(** [FolderState::new(tmp.path().to_path_buf(), "node-a".to_string())]. *)
Definition new : Test :=
  (s <- on_fs (new_state toy_blake3 "/tmp" "node-a") ;; on_st (λ _, s))%m.
Definition rescan : M World (list Change) := rescan toy_blake3.
Definition apply_paths : list string → M World (list Change) := apply_paths toy_blake3.
Definition apply_remote_entry (e : Entry) (object_tmp_path : option string) : M World (list Change) :=
  apply_remote_entries toy_blake3 [(e, object_tmp_path)].
Definition gc : M World nat := gc_tombstones_for_converged_root toy_blake3.

Definition get {A} (f : FolderState → A) : M World A := m_gets (f ∘ w_st).
Definition root_hash : M World Hash := get (root_hash ∘ st_tree).
Definition live_root_hash : M World Hash := get (Tree.root_hash ∘ st_live_tree).
Definition entry_at (p : string) : M World Entry :=
  (s <- get_st ;; m_lift (ok_or NotFound (entry s p)))%m.
Definition contains_key (p : string) : M World bool :=
  get (λ s, bool_decide (is_Some (st_entries s !! p))).
Definition the {S A} (l : list A) : M S A :=
  m_lift (match l with [a] => Ok a | _ => Err OtherError end).
Definition first {S A} (l : list A) : M S A := m_lift (ok_or OtherError (head l)).

Definition remote (p : string) (k : EntryKind) (h : option Hash) (target : option string) (sz : Z)
    (md : option Z) : Entry := mkEntry p k h target sz md (mkVersion 10 "node-b").
Definition remote_file (p bytes : string) (md : option Z) : Entry :=
  remote p File (Some (toy_blake3 bytes)) None (Z.of_nat (strlen bytes)) md.
Definition remote_tombstone (p : string) : Entry := remote p Tombstone None None 0 None.
Definition changed (p : string) (k : EntryKind) (c : Change) : bool :=
  bool_decide (ch_path c = p) && bool_decide (kind (ch_new c) = k).
Definition kind_at (p : string) (k : EntryKind) : Test :=
  (e <- entry_at p ;; assert (bool_decide (kind e = k)))%m.
(** The error of a call that must fail. *)
Definition unwrap_err {S A} (c : M S A) : M S ErrorKind :=
  (r <- m_try c ;; m_lift (match r with Ok _ => Err OtherError | Err e => Ok e end))%m.

(** ** The index and the clock *)

Definition records_create_update_delete_as_versions : Test :=
  (write (tmp "a.txt") "one" ;; new ;;
   initial_hash <- root_hash ;; initial_live_hash <- live_root_hash ;;
   write (tmp "a.txt") "two" ;;
   changes <- rescan ;; c <- the changes ;;
   assert (bool_decide (verb c = "file update")) ;;
   assert (bool_decide (lamport (version (ch_new c)) = 2)) ;;
   h <- root_hash ;; assert (bool_decide (h ≠ initial_hash)) ;;
   h <- live_root_hash ;; assert (bool_decide (h ≠ initial_live_hash)) ;;
   remove_file (tmp "a.txt") ;;
   changes <- rescan ;; c <- the changes ;;
   assert (bool_decide (verb c = "delete")) ;;
   assert (bool_decide (kind (ch_new c) = Tombstone)) ;;
   assert (bool_decide (lamport (version (ch_new c)) = 3)) ;;
   h <- root_hash ;; assert (bool_decide (h ≠ initial_hash)))%m.

Definition corrupt_entries_file_is_a_hard_error : Test :=
  (write (tmp "a.txt") "one" ;; new ;;
   write (tmp ".lil/entries.bin") (String "255" (String "255" (String "255" ""))) ;;
   _ <- unwrap_err new ;; m_ret ())%m.

Definition max_lamport (s : FolderState) : Z :=
  foldr (λ e m, Z.max (lamport (version e)) m) 0 (btree_values (st_entries s)).
Definition lamport_clock_never_falls_below_loaded_entry_versions : Test :=
  (write (tmp "a.txt") "one" ;; new ;;
   max_before <- get max_lamport ;;
   remove_file (tmp ".lil/lamport") ;; new ;;
   write (tmp "a.txt") "two" ;;
   changes <- rescan ;; c <- the changes ;;
   assert (max_before <? lamport (version (ch_new c))))%m.

Definition tombstones_survive_a_gc_watermark_at_or_above_the_clock : Test :=
  (write (tmp "a.txt") "one" ;; new ;;
   l <- get st_lamport ;;
   _ <- merge_gc_watermark toy_blake3 {["node-a" := l + 50]} ;;
   remove_file (tmp "a.txt") ;;
   changes <- rescan ;; c <- the changes ;;
   assert (bool_decide (kind (ch_new c) = Tombstone)) ;;
   assert (l + 50 <? lamport (version (ch_new c))) ;;
   kind_at "a.txt" Tombstone ;;
   new ;;
   write (tmp "b.txt") "two" ;;
   changes <- rescan ;;
   created <- first (List.filter (λ c, bool_decide (ch_path c = "b.txt")) changes) ;;
   assert (l + 50 <? lamport (version (ch_new created))))%m.

Definition derives_child_nodes_for_directories : Test :=
  (create_dir (tmp "src") ;; write (tmp "src/main.rs") "fn main() {}" ;; new ;;
   t <- get st_tree ;;
   root <- m_lift (ok_or NotFound (nodes t !! "")) ;;
   assert (bool_decide (is_Some (tn_entries root !! "src"))) ;;
   assert (bool_decide (is_Some (tn_children root !! "src"))) ;;
   assert (bool_decide (is_Some (nodes t !! "src"))) ;;
   h <- root_hash ;; assert (bool_decide (h ≠ be_bytes 32 0)))%m.

Definition incremental_tree_matches_full_rebuild : Test :=
  (create_dir (tmp "sub") ;; write (tmp "sub/a.txt") "initial" ;; write (tmp "b.txt") "b" ;; new ;;
   write (tmp "sub/a.txt") "modified" ;; _ <- apply_paths [tmp "sub/a.txt"] ;;
   incremental_root <- root_hash ;; incremental_live <- live_root_hash ;;
   further <- rescan ;; assert (bool_decide (further = [])) ;;
   h <- root_hash ;; assert (bool_decide (h = incremental_root)) ;;
   h <- live_root_hash ;; assert (bool_decide (h = incremental_live)) ;;
   remove_file (tmp "b.txt") ;; _ <- apply_paths [tmp "b.txt"] ;;
   after_root <- root_hash ;; after_live <- live_root_hash ;;
   further <- rescan ;; assert (bool_decide (further = [])) ;;
   h <- root_hash ;; assert (bool_decide (h = after_root)) ;;
   h <- live_root_hash ;; assert (bool_decide (h = after_live)))%m.

Definition tombstone_survives_restart_and_converged_gc_clears_it : Test :=
  (write (tmp "a.txt") "hello" ;; new ;; kind_at "a.txt" File ;;
   remove_file (tmp "a.txt") ;; _ <- apply_paths [tmp "a.txt"] ;; kind_at "a.txt" Tombstone ;;
   new ;; kind_at "a.txt" Tombstone ;;
   n <- gc ;; assert (n =? 1)%nat ;;
   b <- contains_key "a.txt" ;; assert (negb b))%m.

Definition startup_rescan_persists_offline_changes : Test :=
  (write (tmp "a.txt") "one" ;; new ;;
   e <- entry_at "a.txt" ;; assert (bool_decide (lamport (version e) = 1)) ;;
   write (tmp "a.txt") "two" ;; new ;;
   offline <- entry_at "a.txt" ;; assert (bool_decide (lamport (version offline) = 2)) ;;
   new ;;
   e <- entry_at "a.txt" ;; assert (bool_decide (version e = version offline)))%m.

Definition gc_watermark_survives_restart_and_rejects_stale_versions : Test :=
  (write (tmp "a.txt") "hello" ;; new ;;
   remove_file (tmp "a.txt") ;; _ <- apply_paths [tmp "a.txt"] ;;
   tombstone <- entry_at "a.txt" ;;
   n <- gc ;; assert (n =? 1)%nat ;; save_entries ;;
   b <- contains_key "a.txt" ;; assert (negb b) ;;
   wm <- get st_gc_watermark ;;
   assert (bool_decide (wm !! "node-a" = Some (lamport (version tombstone)))) ;;
   new ;;
   b <- contains_key "a.txt" ;; assert (negb b) ;;
   s <- get_st ;; assert (negb (should_accept_remote s tombstone)))%m.

Definition live_root_returns_to_initial_after_transient_path_is_removed : Test :=
  (write (tmp "kept.txt") "kept" ;; new ;;
   initial_state_hash <- root_hash ;; initial_live_hash <- live_root_hash ;;
   create_dir (tmp "new") ;; write (tmp "new/a") "temp" ;; _ <- rescan ;;
   remove_file (tmp "new/a") ;; remove_dir_all (tmp "new") ;; _ <- rescan ;;
   h <- root_hash ;; assert (bool_decide (h ≠ initial_state_hash)) ;;
   h <- live_root_hash ;; assert (bool_decide (h = initial_live_hash)))%m.

(** ** Scanning *)

Definition scan_ignores_state_and_os_metadata_paths : Test :=
  (create_dir (tmp ".lil") ;; write (tmp ".lil/private.key") "secret" ;;
   write (tmp ".DS_Store") "metadata" ;; write (tmp "Thumbs.db") "metadata" ;;
   write (tmp "Desktop.ini") "metadata" ;; write (tmp "._file.txt") "metadata" ;;
   create_dir (tmp "lost+found") ;; write (tmp "lost+found/orphan") "metadata" ;;
   create_dir (tmp ".Spotlight-V100") ;; write (tmp ".Spotlight-V100/store") "metadata" ;;
   write (tmp "keep.txt") "keep" ;; new ;;
   b <- contains_key "keep.txt" ;; assert b ;;
   m_for [".lil"; ".DS_Store"; "Thumbs.db"; "Desktop.ini"; "._file.txt"]
     (λ p, b <- contains_key p ;; assert (negb b)) ;;
   paths <- get (λ s, btree_keys (st_entries s)) ;;
   assert (negb (existsb (starts_with "lost+found") paths)) ;;
   assert (negb (existsb (starts_with ".Spotlight-V100") paths)))%m.

Definition newline : string := String "010" "".
Definition scan_respects_nolil_patterns : Test :=
  (write (tmp ".nolil") (String.concat newline ["ignored.txt"; "logs/"; "*.tmp"; "/sub/exact.txt"; ""]) ;;
   write (tmp "ignored.txt") "ignored" ;; write (tmp "keep.txt") "keep" ;;
   write (tmp "note.tmp") "tmp" ;; create_dir (tmp "logs") ;; write (tmp "logs/a.txt") "log" ;;
   create_dir (tmp "sub") ;; write (tmp "sub/exact.txt") "exact" ;;
   write (tmp "sub/keep.txt") "keep" ;; new ;;
   m_for [".nolil"; "keep.txt"; "sub"; "sub/keep.txt"] (λ p, b <- contains_key p ;; assert b) ;;
   m_for ["ignored.txt"; "note.tmp"; "logs"; "logs/a.txt"; "sub/exact.txt"]
     (λ p, b <- contains_key p ;; assert (negb b)))%m.

Definition nolil_negation_reincludes_path : Test :=
  (write (tmp ".nolil") (String.concat newline ["*.tmp"; "!keep.tmp"; ""]) ;;
   write (tmp "drop.tmp") "drop" ;; write (tmp "keep.tmp") "keep" ;; new ;;
   b <- contains_key "drop.tmp" ;; assert (negb b) ;;
   b <- contains_key "keep.tmp" ;; assert b)%m.

Definition newly_ignored_path_stays_in_state : Test :=
  (write (tmp "keep.txt") "keep" ;; new ;;
   b <- contains_key "keep.txt" ;; assert b ;;
   write (tmp ".nolil") ("keep.txt" +:+ newline) ;;
   changes <- rescan ;;
   assert (existsb (λ c, bool_decide (ch_path c = ".nolil")) changes) ;;
   kind_at "keep.txt" File)%m.

Definition scans_symlinks_without_following_them : Test :=
  (write (tmp "target.txt") "target" ;; on_fs (fs_symlink "target.txt" (tmp "link.txt")) ;; new ;;
   link <- entry_at "link.txt" ;;
   assert (bool_decide (kind link = Symlink)) ;;
   assert (bool_decide (symlink_target link = Some "target.txt")) ;;
   assert (bool_decide (content_hash link = None)) ;;
   assert (bool_decide (size link = 0)))%m.

Definition apply_paths_handles_create_modify_delete : Test :=
  (new ;; empty_hash <- root_hash ;;
   write (tmp "a.txt") "hello" ;;
   changes <- apply_paths [tmp "a.txt"] ;; c <- the changes ;;
   assert (bool_decide (verb c = "file new")) ;;
   h <- root_hash ;; assert (bool_decide (h ≠ empty_hash)) ;;
   write (tmp "a.txt") "world" ;;
   changes <- apply_paths [tmp "a.txt"] ;; c <- the changes ;;
   assert (bool_decide (verb c = "file update")) ;;
   remove_file (tmp "a.txt") ;;
   changes <- apply_paths [tmp "a.txt"] ;; c <- the changes ;;
   assert (bool_decide (verb c = "delete")) ;;
   assert (bool_decide (kind (ch_new c) = Tombstone)))%m.

Definition apply_paths_tombstones_dir_descendants_on_removal : Test :=
  (create_dir (tmp "sub") ;; write (tmp "sub/a.txt") "a" ;; write (tmp "sub/b.txt") "b" ;; new ;;
   kind_at "sub/a.txt" File ;;
   remove_dir_all (tmp "sub") ;;
   changes <- apply_paths [tmp "sub"] ;;
   assert (3 <=? length changes)%nat ;;
   assert (forallb (λ c, bool_decide (kind (ch_new c) = Tombstone)) changes))%m.

Definition apply_paths_scans_new_directory_contents : Test :=
  (new ;; create_dir (tmp "sub") ;; write (tmp "sub/c.txt") "c" ;;
   changes <- apply_paths [tmp "sub"] ;;
   assert (bool_decide ("sub" ∈ ch_path <$> changes)) ;;
   assert (bool_decide ("sub/c.txt" ∈ ch_path <$> changes)))%m.

Definition apply_paths_tombstones_children_when_file_replaces_directory : Test :=
  (create_dir (tmp "sub") ;; write (tmp "sub/a.txt") "local" ;; new ;;
   remove_dir_all (tmp "sub") ;; write (tmp "sub") "replacement" ;;
   changes <- apply_paths [tmp "sub"] ;;
   assert (existsb (changed "sub" File) changes) ;;
   assert (existsb (changed "sub/a.txt" Tombstone) changes) ;;
   kind_at "sub/a.txt" Tombstone)%m.

Definition apply_paths_falls_back_to_rescan_when_nolil_changes : Test :=
  (write (tmp "keep.txt") "keep" ;; new ;;
   write (tmp ".nolil") ("keep.txt" +:+ newline) ;;
   changes <- apply_paths [tmp ".nolil"] ;;
   assert (existsb (λ c, bool_decide (ch_path c = ".nolil")) changes) ;;
   kind_at "keep.txt" File)%m.

(** ** Entries of other nodes *)

Definition batch_entries : list Entry :=
  [remote "docs" Dir None None 0 None;
   mkEntry "sub/a.txt" Tombstone None None 0 None (mkVersion 11 "node-b")].
Definition make_folder : Test :=
  (create_dir (tmp "sub") ;; write (tmp "sub/a.txt") "local" ;; new)%m.
(** Two folders, one in each copy of the disk. *)
Definition batch_apply_matches_sequential_applies : Test :=
  λ w,
    let sequential := (make_folder tempdir).1 in
    let batched := (make_folder tempdir).1 in
    let '(s, r1) := m_for batch_entries (λ e, m_ignore (apply_remote_entry e None)) sequential in
    let '(b, r2) := apply_remote_entries toy_blake3 ((λ e, (e, None)) <$> batch_entries) batched in
    (assert (is_ok r1) ;; assert (is_ok r2) ;;
     assert (bool_decide (Tree.root_hash (st_tree (w_st sequential)) = Tree.root_hash (st_tree (w_st batched)))) ;;
     assert (bool_decide (st_entries (w_st s) = st_entries (w_st b))) ;;
     assert (bool_decide (Tree.root_hash (st_tree (w_st s)) = Tree.root_hash (st_tree (w_st b)))) ;;
     assert (bool_decide (Tree.root_hash (st_live_tree (w_st s)) = Tree.root_hash (st_live_tree (w_st b)))))%m w.

Definition applies_higher_version_remote_symlink : Test :=
  (new ;;
   changes <- apply_remote_entry (remote "link.txt" Symlink None (Some "target.txt") 0 None) None ;;
   c <- first changes ;; assert (bool_decide (verb c = "symlink new")) ;;
   target <- on_fs (fs_read_link (tmp "link.txt")) ;; assert (bool_decide (target = "target.txt")) ;;
   e <- entry_at "link.txt" ;; assert (bool_decide (lamport (version e) = 10)))%m.

(** Modes in decimal: [0o6755], [0o6000], [0o777], [0o755]. *)
Definition strips_setuid_setgid_from_remote_file_mode : Test :=
  (new ;; let e := remote_file "tool" ("payload" +:+ newline) (Some 3565) in
   tmp_path <- get (λ s, tmp_recv_path toy_blake3 s 1 0 e) ;;
   write tmp_path ("payload" +:+ newline) ;;
   _ <- apply_remote_entry e (Some tmp_path) ;;
   m <- metadata (tmp "tool") ;;
   assert (bool_decide (Z.land (md_mode m) 3072 = 0)) ;;
   assert (bool_decide (Z.land (md_mode m) 511 = 493)))%m.

(** [0o775], [0o40755]. *)
Definition applies_remote_directory_mode : Test :=
  (create_dir (tmp "remote-dir") ;; chmod (tmp "remote-dir") 509 ;; new ;;
   _ <- apply_remote_entry (remote "remote-dir" Dir None None 0 (Some 16877)) None ;;
   m <- metadata (tmp "remote-dir") ;; assert (bool_decide (Z.land (md_mode m) 511 = 493)) ;;
   changes <- rescan ;; assert (bool_decide (changes = [])) ;;
   e <- entry_at "remote-dir" ;; assert (bool_decide (lamport (version e) = 10)))%m.

(** [0o555]. *)
Definition applies_remote_tombstone_to_read_only_directory_tree : Test :=
  (create_dir (tmp "remote-dir/child") ;; write (tmp "remote-dir/child/file.txt") "content" ;;
   chmod (tmp "remote-dir/child") 365 ;; chmod (tmp "remote-dir") 365 ;; new ;;
   changes <- apply_remote_entry (remote_tombstone "remote-dir") None ;;
   c <- first changes ;; assert (bool_decide (verb c = "delete")) ;;
   b <- exists_at (tmp "remote-dir") ;; assert (negb b) ;;
   kind_at "remote-dir" Tombstone ;; kind_at "remote-dir/child" Tombstone ;;
   kind_at "remote-dir/child/file.txt" Tombstone)%m.

Definition rejects_remote_symlink_targets_that_escape : Test :=
  (new ;;
   err <- unwrap_err (apply_remote_entry
     (remote "link.txt" Symlink None (Some "../outside.txt") 0 None) None) ;;
   assert (bool_decide (err = InvalidInput)) ;;
   b <- exists_at (tmp "link.txt") ;; assert (negb b))%m.

Definition applies_higher_version_remote_file : Test :=
  (new ;; let bytes := "remote" +:+ newline in let e := remote_file "remote.txt" bytes None in
   tmp_path <- get (λ s, tmp_recv_path toy_blake3 s 1 0 e) ;; write tmp_path bytes ;;
   changes <- apply_remote_entry e (Some tmp_path) ;;
   c <- first changes ;; assert (bool_decide (verb c = "file new")) ;;
   read <- on_fs (fs_read (tmp "remote.txt")) ;; assert (bool_decide (read = bytes)) ;;
   e <- entry_at "remote.txt" ;; assert (bool_decide (lamport (version e) = 10)) ;;
   l <- get st_lamport ;; assert (bool_decide (l = 10)))%m.

(** Two calls take two values of the counter. *)
Definition receive_temp_paths_are_unique_per_attempt : Test :=
  (new ;; let e := remote "large.zip" File (Some (be_bytes 32 1)) None 100 None in
   first <- get (λ s, tmp_recv_path toy_blake3 s 1 0 e) ;;
   second <- get (λ s, tmp_recv_path toy_blake3 s 1 1 e) ;;
   assert (bool_decide (first ≠ second)))%m.

Definition object_file_uses_indexed_size_when_live_file_changes : Test :=
  (write (tmp "large.zip") "old" ;; new ;;
   e <- entry_at "large.zip" ;; hash <- m_lift (ok_or NotFound (content_hash e)) ;;
   write (tmp "large.zip") "old plus more bytes" ;;
   s <- get_st ;; object <- m_lift (ok_or NotFound (object_file s hash)) ;;
   p <- on_fs (fs_canonicalize (tmp "large.zip")) ;;
   assert (bool_decide (object.1 = p)) ;; assert (bool_decide (object.2 = size e)) ;;
   m <- metadata object.1 ;; assert (bool_decide (md_len m ≠ object.2)))%m.

Definition remote_file_replaces_local_directory_and_tombstones_children : Test :=
  (create_dir (tmp "sub") ;; write (tmp "sub/a.txt") "local" ;; new ;;
   let bytes := "remote file" +:+ newline in let e := remote_file "sub" bytes None in
   tmp_path <- get (λ s, tmp_recv_path toy_blake3 s 1 0 e) ;; write tmp_path bytes ;;
   changes <- apply_remote_entry e (Some tmp_path) ;;
   assert (existsb (changed "sub" File) changes) ;;
   assert (existsb (changed "sub/a.txt" Tombstone) changes) ;;
   read <- on_fs (fs_read (tmp "sub")) ;; assert (bool_decide (read = bytes)) ;;
   kind_at "sub" File ;; kind_at "sub/a.txt" Tombstone)%m.

Definition remote_directory_replaces_local_file : Test :=
  (write (tmp "sub") "local" ;; new ;;
   _ <- apply_remote_entry (remote "sub" Dir None None 0 None) None ;;
   m <- metadata (tmp "sub") ;; assert (is_dir m) ;;
   kind_at "sub" Dir)%m.

Definition rejects_remote_paths_outside_sync_root : Test :=
  (new ;; let bytes := "remote" +:+ newline in
   let e := remote_file "../outside.txt" bytes None in
   let tmp_path := tmp ".lil/recv-path-test" in
   write tmp_path bytes ;;
   s <- get_st ;; assert (negb (should_accept_remote s e)) ;;
   err <- unwrap_err (apply_remote_entry e (Some tmp_path)) ;;
   assert (bool_decide (err = InvalidInput)) ;;
   b <- exists_at "/outside.txt" ;; assert (negb b))%m.

Definition rejects_remote_paths_inside_state_dir : Test :=
  (new ;; let e := remote_tombstone ".lil/private.key" in
   s <- get_st ;; assert (negb (should_accept_remote s e)) ;;
   err <- unwrap_err (apply_remote_entry e None) ;;
   assert (bool_decide (err = InvalidInput)))%m.

Definition rejects_absolute_and_malformed_remote_paths : Test :=
  (new ;;
   m_for ["/tmp/outside.txt"; "sub//file.txt"; "sub/./file.txt"; "sub\file.txt"] (λ p,
     s <- get_st ;; assert (negb (should_accept_remote s (remote_tombstone p)))))%m.

Definition applies_higher_version_remote_tombstone : Test :=
  (write (tmp "gone.txt") "local" ;; new ;;
   changes <- apply_remote_entry (remote_tombstone "gone.txt") None ;;
   c <- first changes ;; assert (bool_decide (verb c = "delete")) ;;
   b <- exists_at (tmp "gone.txt") ;; assert (negb b) ;;
   kind_at "gone.txt" Tombstone)%m.

(** ** The tests pass *)

Definition state_tests : list (string * Test) :=
  [("records_create_update_delete_as_versions", records_create_update_delete_as_versions);
   ("corrupt_entries_file_is_a_hard_error", corrupt_entries_file_is_a_hard_error);
   ("lamport_clock_never_falls_below_loaded_entry_versions", lamport_clock_never_falls_below_loaded_entry_versions);
   ("tombstones_survive_a_gc_watermark_at_or_above_the_clock", tombstones_survive_a_gc_watermark_at_or_above_the_clock);
   ("derives_child_nodes_for_directories", derives_child_nodes_for_directories);
   ("scan_ignores_state_and_os_metadata_paths", scan_ignores_state_and_os_metadata_paths);
   ("scan_respects_nolil_patterns", scan_respects_nolil_patterns);
   ("scans_symlinks_without_following_them", scans_symlinks_without_following_them);
   ("batch_apply_matches_sequential_applies", batch_apply_matches_sequential_applies);
   ("applies_higher_version_remote_symlink", applies_higher_version_remote_symlink);
   ("strips_setuid_setgid_from_remote_file_mode", strips_setuid_setgid_from_remote_file_mode);
   ("applies_remote_directory_mode", applies_remote_directory_mode);
   ("applies_remote_tombstone_to_read_only_directory_tree", applies_remote_tombstone_to_read_only_directory_tree);
   ("rejects_remote_symlink_targets_that_escape", rejects_remote_symlink_targets_that_escape);
   ("nolil_negation_reincludes_path", nolil_negation_reincludes_path);
   ("newly_ignored_path_stays_in_state", newly_ignored_path_stays_in_state);
   ("applies_higher_version_remote_file", applies_higher_version_remote_file);
   ("receive_temp_paths_are_unique_per_attempt", receive_temp_paths_are_unique_per_attempt);
   ("object_file_uses_indexed_size_when_live_file_changes", object_file_uses_indexed_size_when_live_file_changes);
   ("remote_file_replaces_local_directory_and_tombstones_children", remote_file_replaces_local_directory_and_tombstones_children);
   ("remote_directory_replaces_local_file", remote_directory_replaces_local_file);
   ("rejects_remote_paths_outside_sync_root", rejects_remote_paths_outside_sync_root);
   ("rejects_remote_paths_inside_state_dir", rejects_remote_paths_inside_state_dir);
   ("rejects_absolute_and_malformed_remote_paths", rejects_absolute_and_malformed_remote_paths);
   ("applies_higher_version_remote_tombstone", applies_higher_version_remote_tombstone);
   ("apply_paths_handles_create_modify_delete", apply_paths_handles_create_modify_delete);
   ("apply_paths_tombstones_dir_descendants_on_removal", apply_paths_tombstones_dir_descendants_on_removal);
   ("apply_paths_scans_new_directory_contents", apply_paths_scans_new_directory_contents);
   ("apply_paths_tombstones_children_when_file_replaces_directory", apply_paths_tombstones_children_when_file_replaces_directory);
   ("apply_paths_falls_back_to_rescan_when_nolil_changes", apply_paths_falls_back_to_rescan_when_nolil_changes);
   ("incremental_tree_matches_full_rebuild", incremental_tree_matches_full_rebuild);
   ("tombstone_survives_restart_and_converged_gc_clears_it", tombstone_survives_restart_and_converged_gc_clears_it);
   ("startup_rescan_persists_offline_changes", startup_rescan_persists_offline_changes);
   ("gc_watermark_survives_restart_and_rejects_stale_versions", gc_watermark_survives_restart_and_rejects_stale_versions);
   ("live_root_returns_to_initial_after_transient_path_is_removed", live_root_returns_to_initial_after_transient_path_is_removed)].

(** Every test of [state.rs] succeeds on the model. *)
Lemma state_tests_pass : List.filter (λ t, negb (passes t.2)) state_tests = [].
Proof. vm_compute. reflexivity. Qed.

Definition tmp_fs : MemFs.t := w_fs tempdir.
(** A test that needs the disk only. *)
Definition DiskTest : Type := M MemFs.t ().
Definition disk_passes (t : DiskTest) : bool := is_ok (t tmp_fs).2.

(** ** [scan.rs] *)

(** The disk and the [cache] of the test. *)
Definition ScanTest : Type := M (MemFs.t * ScanCache) ().
Definition on_disk {S A} : M MemFs.t A → M (MemFs.t * S) A := m_zoom fst (λ f s, (f, s.2)).
Definition on_var {S A} : M S A → M (MemFs.t * S) A := m_zoom snd (λ c s, (s.1, c)).
Definition scan_passes (t : ScanTest) : bool := is_ok (t (tmp_fs, empty_cache)).2.

(** [set_modified] sets the time of the last change ten seconds back. *)
Definition set_modified (p : string) (mtime : Z) : M MemFs.t () := λ s,
  match MemFs.files s !! p with
  | Some (MemFs.MFile c m _) => (MemFs.set_files <[p := MemFs.MFile c m mtime]> s, Ok ())
  | _ => (s, Err NotFound)
  end.
Definition write_aged_file (p contents : string) : M MemFs.t Metadata :=
  (fs_write p contents ;;
   now <- m_now ;;
   set_modified p (now - 10 * 1000000000) ;;
   fs_symlink_metadata p)%m.
Definition hash_of_bytes (b : Z) : Hash := be_bytes 32 (b * ((256 ^ 32 - 1) / 255)).
Definition record_hash (p : string) (m : Metadata) (h : Hash) : ScanTest :=
  on_var (m_modify (cache_record p (md_len m) (md_modified m) h)).
Definition observe (p relative : string) (m : Metadata) : M (MemFs.t * ScanCache) ObservedFile :=
  (o <- observe_file_cached toy_blake3 p relative m false ;; m_lift (ok_or NotFound o))%m.
Definition lookup_hash (relative : string) (m : Metadata) : M (MemFs.t * ScanCache) (option Hash) :=
  (c <- on_var m_get ;; on_disk (cache_lookup c relative m))%m.

Definition cache_serves_hash_for_unchanged_file : ScanTest :=
  (m <- on_disk (write_aged_file (tmp "a.txt") "hello") ;;
   let poisoned := hash_of_bytes 7 in
   record_hash "a.txt" m poisoned ;;
   o <- observe (tmp "a.txt") "a.txt" m ;;
   assert (bool_decide (ob_hash o = poisoned)))%m.

Definition cache_miss_rehashes_and_records : ScanTest :=
  (m <- on_disk (write_aged_file (tmp "a.txt") "hello") ;;
   let real := toy_blake3 "hello" in
   o <- observe (tmp "a.txt") "a.txt" m ;;
   assert (bool_decide (ob_hash o = real)) ;;
   m <- on_disk (fs_symlink_metadata (tmp "a.txt")) ;;
   h <- lookup_hash "a.txt" m ;; assert (bool_decide (h = Some real)))%m.

Definition recently_modified_files_bypass_cache : ScanTest :=
  (on_disk (fs_write (tmp "a.txt") "hello") ;;
   m <- on_disk (fs_symlink_metadata (tmp "a.txt")) ;;
   record_hash "a.txt" m (hash_of_bytes 7) ;;
   o <- observe (tmp "a.txt") "a.txt" m ;;
   assert (bool_decide (ob_hash o = toy_blake3 "hello")))%m.

Definition cache_roundtrips_through_disk_and_prunes_missing_paths : ScanTest :=
  (m <- on_disk (write_aged_file (tmp "a.txt") "hello") ;;
   let hash := hash_of_bytes 9 in
   record_hash "a.txt" m hash ;;
   on_var (m_modify (cache_record "gone.txt" 3 (md_modified m) (hash_of_bytes 1))) ;;
   c <- on_var m_get ;; _ <- on_disk (cache_save "/tmp" c) ;;
   loaded <- on_disk (cache_load "/tmp") ;; on_var (m_modify (λ _, loaded)) ;;
   h <- lookup_hash "a.txt" m ;; assert (bool_decide (h = Some hash)) ;;
   on_var (m_modify (retain_paths {["a.txt"]})) ;;
   c <- on_var m_get ;;
   assert (bool_decide (is_Some (sc_files c !! "a.txt"))) ;;
   assert (bool_decide (sc_files c !! "gone.txt" = None)))%m.

(** ** [cli.rs] *)

Definition node_of (b : Z) : NodeId := hash_of_bytes b.

Definition join_ticket_roundtrips : DiskTest :=
  (let issuer_id := node_of 7 in let secret_bytes := hash_of_bytes 171 in
   let endpoints := ["100.64.1.2:7420"; "[fd7a::1]:7420"] in
   ticket_str <- m_lift (encode_ticket issuer_id secret_bytes endpoints) ;;
   parsed <- m_lift (parse_join_ticket ticket_str) ;;
   assert (bool_decide (issuer parsed = issuer_id)) ;;
   assert (bool_decide (secret parsed = hex secret_bytes)) ;;
   assert (bool_decide (Ticket.endpoints parsed = endpoints)))%m.

Definition join_ticket_roundtrips_with_leading_zero_node_id : DiskTest :=
  (let issuer_id := node_of 0 in
   ticket_str <- m_lift (encode_ticket issuer_id (hash_of_bytes 0) []) ;;
   parsed <- m_lift (parse_join_ticket ticket_str) ;;
   assert (bool_decide (issuer parsed = issuer_id)) ;;
   assert (bool_decide (Ticket.endpoints parsed = [])))%m.

Definition rejects_old_ticket_version : DiskTest :=
  (let bytes := String (byte_of 1) (be_bytes 64 (9 * ((256 ^ 64 - 1) / 255))) in
   _ <- unwrap_err (m_lift (parse_join_ticket (ticket_base62_encode bytes))) ;; m_ret ())%m.

Definition rejects_oversized_endpoint_list : DiskTest :=
  (let long := [String.concat "" (replicate (S MAX_TICKET_ENDPOINT_BYTES) "a")] in
   assert (negb (is_ok (encode_ticket (node_of 7) (hash_of_bytes 0) long))))%m.

(** ** [identity.rs] and [commands.rs] *)

Definition node_id_hex_roundtrips : DiskTest :=
  (id <- m_lift (node_id_from_str (node_id_to_string (node_of 7))) ;;
   assert (bool_decide (id = node_of 7)))%m.

Definition identity_signatures_verify : DiskTest :=
  (let identity := mkIdentity (hash_of_bytes 9) in
   m_lift (node_id_verify (node_id identity) "hello" (sign identity "hello")))%m.

Definition secret_key_is_reused_from_disk : DiskTest :=
  (let key_path := tmp KEY_FILE in
   first <- load_or_create key_path (Ok (hash_of_bytes 5)) ;;
   second <- load_or_create key_path (Ok (hash_of_bytes 6)) ;;
   assert (bool_decide (node_id first = node_id second)) ;;
   key <- fs_read key_path ;; assert (strlen key =? 32)%nat)%m.

(** The two holders are the processes 1 and 2; dropping the first lock is its
    holder's end. *)
Definition HostTest : Type := M THost ().
Definition host_passes (t : HostTest) : bool := is_ok (t (tmp_fs, mkToy [1; 2] ∅)).2.
Definition daemon_lock_rejects_second_holder : HostTest :=
  (acquire_daemon_lock open_keep 1 "/tmp" ;;
   _ <- unwrap_err (acquire_daemon_lock open_keep 2 "/tmp") ;;
   on_kernel (m_modify (λ k, mkToy [2] (tk_locks k))) ;;
   acquire_daemon_lock open_keep 2 "/tmp")%m.

(** ** [daemon.rs] *)

(** The length of a message is [message_len]; the test has one hint of two nodes. *)
Definition filesystem_tree_hint_stays_under_budget : Test :=
  (new ;;
   create_dir (tmp "a/b") ;; write (tmp "a/b/c.txt") "hello" ;;
   changes <- apply_paths [tmp "a"] ;;
   s <- get_st ;;
   let snapshot := from_state s in
   let hint := build_tree_hint toy_message_len s changes snapshot "node-a" in
   assert (match hint with Some h => negb (bool_decide (hint_nodes h = [])) | None => false end) ;;
   assert (filesystem_changed_len toy_message_len snapshot "node-a" hint
             <=? MAX_FILESYSTEM_CHANGED_BYTES))%m.

(** ** [endpoints.rs] *)

Definition address_book_roundtrips_through_disk : DiskTest :=
  (let id := node_of 7 in
   let laptop := mkPeerInfo ["100.64.1.2:7420"; "192.168.1.9:7420"] (Some "laptop") in
   save_address_book (H0:=join_book_json) "/tmp" {[id := laptop]} ;;
   loaded <- load_address_book (H0:=join_book_json) "/tmp" ;;
   assert (base.size loaded =? 1)%nat ;;
   info <- m_lift (ok_or NotFound (loaded !! id)) ;;
   assert (bool_decide (pi_endpoints info = pi_endpoints laptop)) ;;
   assert (bool_decide (pi_name info = Some "laptop")))%m.

Definition port_roundtrips_through_disk : DiskTest :=
  (port <- load_port "/tmp" ;; assert (bool_decide (port = None)) ;;
   save_port "/tmp" 7420 ;;
   port <- load_port "/tmp" ;; assert (bool_decide (port = Some 7420)))%m.

Definition merge_puts_observed_endpoint_first_and_dedupes : DiskTest :=
  (let peer := node_of 1 in
   let advertised := ["10.0.0.5:7420"; "100.64.1.2:7420"] in
   let '(book, changed) := merge_peer_endpoints ∅ peer (Some "100.64.1.2:7420") advertised None in
   assert changed ;;
   info <- m_lift (ok_or NotFound (book !! peer)) ;;
   assert (bool_decide (head (pi_endpoints info) = Some "100.64.1.2:7420")) ;;
   assert (length (pi_endpoints info) =? 2)%nat ;;
   let '(_, changed) := merge_peer_endpoints book peer (Some "100.64.1.2:7420") advertised None in
   assert (negb changed))%m.

(** The addresses [2001:db8::1] and [10.0.0.1]. *)
Definition format_endpoint_brackets_ipv6 : DiskTest :=
  (assert (bool_decide
     (format_endpoint (V6 [8193; 3512; 0; 0; 0; 0; 0; 1]) 7420 = "[2001:db8::1]:7420")) ;;
   assert (bool_decide (format_endpoint (V4 [10; 0; 0; 1]) 80 = "10.0.0.1:80")))%m.

(** ** [group.rs] *)

(** The disk and the [state] of the test. *)
Definition GroupTest : Type := M (GW (F:=MemFs.t)) ().
Definition no_group : GroupState := mkGroup "" "" ∅.
Definition group_passes (t : GroupTest) : bool := is_ok (t (tmp_fs, no_group)).2.
Definition init_group : GroupTest :=
  (g <- g_fs (load_or_init (tmp "peers.json") (node_of 1)) ;; g_put g)%m.

Definition invite_is_one_time : DiskTest :=
  (let p := tmp "invites.json" in
   now <- now_ms ;; add_invite toy_blake3 p "secret" (now + 10000) ;;
   b <- consume_invite toy_blake3 p "secret" ;; assert b ;;
   b <- consume_invite toy_blake3 p "secret" ;; assert (negb b))%m.

Definition member_merge_keeps_newest_lamport : GroupTest :=
  (init_group ;;
   let peer := node_of 2 in let peer_id := node_id_to_string peer in
   update <- merge_members [mkMember peer_id Active 2] ;;
   assert (mm_changed update) ;; assert (bool_decide (mm_active_peers update = [peer])) ;;
   update <- merge_members [mkMember peer_id Removed 1] ;;
   assert (negb (mm_changed update)) ;; assert (bool_decide (mm_active_peers update = [peer])))%m.

Definition merge_members_rejects_invalid_ids : GroupTest :=
  (init_group ;;
   update <- merge_members
     [mkMember "short" Active 5; mkMember (node_id_to_string (node_of 2)) Active 6] ;;
   assert (mm_changed update) ;; assert (bool_decide (mm_active_peers update = [node_of 2])) ;;
   g <- g_get ;; assert (forallb (λ m, bool_decide (m_id m ≠ "short")) (members g)))%m.

Definition remove_peer_by_id : GroupTest :=
  (init_group ;;
   let peer := node_of 2 in
   _ <- add_active_peer peer ;;
   g <- g_get ;; assert (is_active_member g peer) ;;
   removed <- remove_peer (node_id_to_string peer) ;;
   assert (bool_decide (removed = Some (node_id_to_string peer))) ;;
   g <- g_get ;; assert (negb (is_active_member g peer)) ;;
   _ <- add_active_peer peer ;;
   removed <- remove_peer (node_id_to_string peer) ;;
   assert (bool_decide (is_Some removed)))%m.

Definition remove_self_is_rejected : GroupTest :=
  (init_group ;; _ <- unwrap_err (remove_peer (node_id_to_string (node_of 1))) ;; m_ret ())%m.

(** ** [sync.rs] *)

Definition CoordinatorTest : Type := M Coordinator ().
Definition coordinator_passes (t : CoordinatorTest) : bool := is_ok (t empty_coordinator).2.
Definition run_c {A} (f : Coordinator → Coordinator * A) : M Coordinator A :=
  λ c, let '(c, a) := f c in (c, Ok a).
Definition test_entry (p : string) (l : Z) : Entry :=
  mkEntry p File (Some (hash_of_bytes 7)) None 1 None (mkVersion l "node-a").

Definition download_coordinator_allows_one_claim_per_object : CoordinatorTest :=
  (let hash := hash_of_bytes 7 in
   first <- run_c (acquire hash) ;; second <- run_c (acquire hash) ;;
   assert first.2 ;; assert (negb second.2) ;; assert (first.1 =? second.1)%nat ;;
   b <- run_c (claim_target first.1 (test_entry "same.txt" 1)) ;; assert b ;;
   b <- run_c (claim_target second.1 (test_entry "same.txt" 1)) ;; assert (negb b) ;;
   r <- run_c (release hash first.1) ;; assert (bool_decide (r = None)) ;;
   r <- run_c (release hash second.1) ;; assert (bool_decide (r = None)) ;;
   c <- m_get ;; assert (bool_decide (active c = ∅)))%m.

Definition download_coordinator_allows_same_hash_for_different_targets : CoordinatorTest :=
  (let hash := hash_of_bytes 7 in
   first <- run_c (acquire hash) ;; assert first.2 ;;
   b <- run_c (claim_target first.1 (test_entry "first.txt" 1)) ;; assert b ;;
   b <- run_c (claim_target first.1 (test_entry "second.txt" 1)) ;; assert b ;;
   r <- run_c (release hash first.1) ;; assert (bool_decide (r = None)))%m.

(** ** [watcher.rs] *)

Definition ignores_state_dir_events : DiskTest :=
  (assert (is_ignored_event_path "/tmp/root/.lil/entries.bin") ;;
   assert (is_ignored_event_path ".lil/recv-file") ;;
   assert (negb (is_ignored_event_path "/tmp/root/file.txt")))%m.

Definition ignores_read_access_events : DiskTest :=
  (assert (negb (is_relevant_event (mkEvent (Access (Close Read)) []))) ;;
   assert (is_relevant_event (mkEvent (Access (Close Write)) [])) ;;
   assert (is_relevant_event (mkEvent Modify [])))%m.

(** ** The tests pass *)

(** Every one of these tests succeeds on the model. *)
Lemma unit_tests_pass :
  forallb scan_passes
    [cache_serves_hash_for_unchanged_file; cache_miss_rehashes_and_records;
     recently_modified_files_bypass_cache;
     cache_roundtrips_through_disk_and_prunes_missing_paths] = true ∧
  forallb disk_passes
    [join_ticket_roundtrips; join_ticket_roundtrips_with_leading_zero_node_id;
     rejects_old_ticket_version; rejects_oversized_endpoint_list;
     node_id_hex_roundtrips; identity_signatures_verify; secret_key_is_reused_from_disk;
     address_book_roundtrips_through_disk; port_roundtrips_through_disk;
     merge_puts_observed_endpoint_first_and_dedupes; format_endpoint_brackets_ipv6;
     invite_is_one_time; ignores_state_dir_events; ignores_read_access_events] = true ∧
  host_passes daemon_lock_rejects_second_holder = true ∧
  passes filesystem_tree_hint_stays_under_budget = true ∧
  forallb group_passes
    [member_merge_keeps_newest_lamport; merge_members_rejects_invalid_ids;
     remove_peer_by_id; remove_self_is_rejected] = true ∧
  forallb coordinator_passes
    [download_coordinator_allows_one_claim_per_object;
     download_coordinator_allows_same_hash_for_different_targets] = true.
Proof. split_and!; vm_compute; reflexivity. Qed.
